(* ===== verification/_CoqProject ===== *)
-Q . S2P
Prelude.v
ByteBuffer.v
Text.v
RespCodec.v
Crc32.v
Msgpack.v
Proto.v
Transport.v
Peer.v
Link.v
RespServer.v
Servers.v
Wal.v
WalFacts.v
WalProps.v
KvStore.v
NodeConfig.v
Raft.v
RaftLemmas.v
RaftLog.v
RaftNode.v
Runtime.v
RaftInv.v
RaftProps.v
RaftSpec.v
RaftSpecInv.v
ReadSpec.v
RaftDisk.v
RaftSim.v
RaftRel.v
BootSim.v
RaftSimVotes.v
RaftSimLog.v
RaftSimLead.v
Cluster.v
RuntimeSim.v
ReadRounds.v
ReadEvents.v
ClusterSim.v
ClusterProps.v
ReadIndex.v
ClusterDemo.v
Requests.v
Process.v
Lifecycle.v
Shutdown.v
Counterexamples.v
