(* ===== verification/Prelude.v ===== *)
(** * Raft KV: a verification library for the replicated key-value store

    The program (sources under [src/src/], file names below are relative to
    it) is a key-value store replicated over three nodes with the Raft
    protocol.  Clients speak RESP over TCP to any node; the leader replicates
    each write in its log and applies it when a majority has it on disk.

    ** The parts of the program, and where they are

    - [common/bytebuffer.*]: [ByteBuffer.v].
    - [raft/proto.h], [raft/config.h], [wal/proto.h]: the structs and the
      codec of the log's record header, [Proto.v].
    - [wal/wal.*]: the write-ahead log of a node, [Crc32.v] and [Wal.v]
      ([WalName], [Disk], [WAL]); its specification is in [WalFacts.v] and
      [WalProps.v].
    - [raft/raft.*]: the consensus core, [Raft.v]; [Raft.t] has the data
      members of [class Raft], and every member function has its definition.
    - [server/kv_store.*]: the state machine, [KvStore.v].
    - [server/resp_codec.*]: the client protocol, [RespCodec.v] (numbers in
      [Text.v]).
    - [server/resp_server.cpp]: [RespServer.v] has one client session,
      [Servers.v] the listener that owns the sessions ([ClientServer]).
    - [transport/proto.h], [transport/server.cpp]: [Transport.v] has the
      frames and one incoming connection, [Servers.v] the listener
      ([PeerServer]).
    - [transport/peer.cpp]: an outgoing connection with its queue, [Peer.v];
      [Link.v] joins it over TCP to the connections at the other end.
    - [app/node_runtime.*]: [NodeConfig.v] has the command line, [Runtime.v]
      the node: its loops, its tables of client requests, its start from disk
      and its log lines.
    - [main.cpp] and the rest of [app/node_runtime.cpp]: [Process.v] has the
      program: [main], the construction of the network services, [run], the
      timers, the signals, the three threads and the stop.

    They interact as in the code.  [Runtime.run_event] takes the next handler
    of one of the loops of a process; a handler of the Raft loop calls the
    member functions of [Raft.t], which write to the [WAL.t] they own and
    leave messages that [flush_raft_messages] hands to the peers; committed
    entries are posted to the store's loop, which applies them to the
    [KVStore.t], answers the clients and posts the acknowledgment back.
    [Cluster.v] puts three nodes, their disks and a network together, and
    [Process.v] one node, its listeners, its peers and its threads.

    ** How code becomes definitions

    A class is a record of its data members, a member function an [M S A]:
    it takes the object and gives a value or an exception and the object as
    it is then.  Unsigned integers are [Z] with the wrap-around written out
    ([u8], [u32], [u64]); strings and buffers are lists of bytes; maps whose
    order does not matter are [gmap]s.  An asynchronous operation or a posted
    handler is an element of the object's state until it runs, so a run is a
    sequence of handlers in any order the executor could choose.  What the
    operating system answers (a flush that writes part of the buffer, a file
    that cannot be opened, a connection that is refused) is data, and the
    theorems hold for all of it.

    Code outside the repository is an interface with its documented laws:
    msgpack ([Msgpack.MsgPack], [Proto.WalPack], [KvStore.MapPack]) and the
    random engine ([Raft.Rng]).  Each has a concrete instance, on which the
    witnesses and the computed runs evaluate.

    Loops of the code that are not structural recursion have fuel: the digits
    of a number (twenty hold any 64-bit value), the records of a file (one
    more than its bytes; [WalProps.scan_ends]), the reads of a connection and
    the commands of a buffer (one more than the bytes at hand, of which each
    round takes one at least).  The loops of the process have none: a run is a
    sequence of events, and [Shutdown.left_to_do] is the measure that bounds
    how many handlers a stopping process still runs.

    ** What the theorems show

    - One data structure at a time: a buffer is a bounded queue
      ([buffer_is_queue]); the RESP decoder inverts the encoding of requests
      and does not depend on how the stream is cut ([requests_round_trip],
      [feed_chunking]); the frame header ([header_codec]), the addresses
      ([address_round_trip]) and the command line ([config_round_trip]) round
      trip; applying an entry is the map operation it encodes
      ([apply_refines]) and a snapshot restores the store.
    - The log on disk: whatever was flushed is recovered after a crash at any
      byte ([crash_recovery]), and a damaged record is not used
      ([damage_contained]).
    - Connections: a client's commands are answered in order, each before the
      next, and a session is never stuck ([session_ordered],
      [session_serves], [session_progress]); the listeners own what is open
      and close it when they stop; a peer keeps the order of its frames, keeps
      its bounds and drains its queue ([peer_order], [peer_progress],
      [peer_accounting], [peer_admission]); an incoming connection dispatches
      the framed messages and nothing else; and the two ends together, over
      reconnections and torn frames, dispatch only what was accepted, in order
      ([link_sound]), as the network of [Cluster.v] assumes.
    - One node: the invariants of its log along every run, snapshots included
      ([node_invariant]), and the election timer ([election_starts]).
    - The clients' requests, along every run of a process: each callback is
      called once or is waiting ([requests_accounted]), and deadlines are kept
      ([deadlines_enforced]).
    - The process: [main] starts a node only as a member of the cluster
      ([main_starts]); the exit code tells whether something failed
      ([exit_code_reports], in [Lifecycle.v]); and a process that was told to
      stop ends, however its own handlers are scheduled and without the help of
      a client, of another member or of the network ([shutdown_completes], in
      [Shutdown.v]).
    - The cluster: one leader per term, logs that match, committed entries
      that are in the log of every later leader, stores that agree, restarts
      that keep term, vote and log, and starts that succeed; an acknowledged
      write is committed ([acknowledged_write_durable]); and a read that was
      not complete when its leader had no round open is answered from a store
      with everything that was committed by then ([read_reflects_commits]).
    - Where the program does not keep a promise: [Counterexamples.v] has a
      stale read and a lost write as computed runs, [Peer.queue_exhausted] a
      queue that fills up, [Crc32.table_diverges] the checksum's table.

    ** How the cluster is proved safe

    [RaftSpec.v] is an abstract protocol whose steps are single durable
    changes and messages; [RaftSpecInv.v] proves it safe.  The code refines
    it: [RaftLemmas.v], [RaftLog.v], [RaftNode.v], [RaftInv.v] run the member
    functions symbolically; [RaftDisk.v], [RaftSim.v], [RaftRel.v] relate a
    node, its memory, its disk and its messages, to a member of the protocol,
    with a stop possible inside every flush; [RaftSimVotes.v],
    [RaftSimLog.v], [RaftSimLead.v] simulate elections, replication and
    leadership, [BootSim.v] the start from disk, [RuntimeSim.v] the process
    and [ClusterSim.v] the cluster.  [ClusterProps.v] and [Requests.v] have
    the conclusions, [ClusterDemo.v] the runs they are applied to.

    Reads are not steps of the protocol.  [ReadSpec.v] says what a quorum that
    is still in a term tells about later commits; [ReadRounds.v] follows the
    ReadIndex rounds of one node and the requests and answers on the network
    that belong to them, [ReadEvents.v] through every handler of the process;
    [ReadIndex.v] puts the rounds of all processes beside the cluster.

    The theorems about the cluster are for the members 1, 2 and 3 (the code
    requires exactly two peers), for a network that loses, repeats and
    reorders, for crashes at any point, and as long as terms, indices and the
    numbers of read rounds are below 2^64 - 2.  They assume that snapshots are off ([--snapshot-threshold]
    is 0): with snapshots on they do not hold, as
    [Counterexamples.acknowledged_write_lost] shows.

    ** Not modelled

    - What goes to the standard error: the reason of a stop counts only as
      empty or not, an exception as its constructor's argument.
    - In [Process.v], which commands the sessions hand to the node and which
      messages the node hands to its peers: there they are inputs of both
      sides, so that the model has the program's behaviours and more.  The
      destructors, which run when the loops have returned.
    - The sockets, timers, threads and mutexes of Boost.Asio and the standard
      library themselves: handlers of one strand or loop run one at a time, as
      these guarantee, and the admission counters of a peer are changed under
      its mutex in one step.
    - The network itself: what name resolution and the calls that open a
      listening socket return are inputs ([Process.Network]).  [local_port],
      [local_endpoint] and the other functions that only read a member.
    - msgpack's bytes: see the interfaces above.
    - Time: a clock reading is an argument of the handler that reads it. *)

From Stdlib Require Export ZArith Lia.
From stdpp Require Export gmap strings list fin_maps countable tactics.
From Stdlib Require Strings.Byte Strings.String.

Abbreviation byte := Byte.byte.

Declare Scope kv_scope.
Delimit Scope kv_scope with kv.
Open Scope Z_scope.
Open Scope kv_scope.

#[export] Set Warnings "-clear-no-such-hyp".

Create HintDb kv.
Create Rewrite HintDb kv_rw.

(** ** Machine integers

    [uint8_t], [uint32_t] and [uint64_t] values are integers in their range;
    an operation that can leave the range is wrapped explicitly, as unsigned
    arithmetic wraps in the source. *)

Definition u8_max : Z := 2 ^ 8.
Definition u32_max : Z := 2 ^ 32.
Definition u64_max : Z := 2 ^ 64.

Definition u8 (x : Z) : Z := x `mod` u8_max.
Definition u32 (x : Z) : Z := x `mod` u32_max.
Definition u64 (x : Z) : Z := x `mod` u64_max.

Definition is_u8 (x : Z) : Prop := 0 <= x < u8_max.
Definition is_u32 (x : Z) : Prop := 0 <= x < u32_max.
Definition is_u64 (x : Z) : Prop := 0 <= x < u64_max.

Ltac unfold_words :=
  unfold u8, u32, u64, is_u8, is_u32, is_u64, u8_max, u32_max, u64_max in *.

Lemma u64_small x : is_u64 x -> u64 x = x.
Proof. intros H. apply Z.mod_small. exact H. Qed.

Lemma u32_small x : is_u32 x -> u32 x = x.
Proof. intros H. apply Z.mod_small. exact H. Qed.

Lemma u8_small x : is_u8 x -> u8 x = x.
Proof. intros H. apply Z.mod_small. exact H. Qed.

Lemma u64_range x : is_u64 (u64 x).
Proof. apply Z.mod_pos_bound. reflexivity. Qed.

Lemma u32_range x : is_u32 (u32 x).
Proof. apply Z.mod_pos_bound. reflexivity. Qed.

Lemma land_lxor_distr a b c :
  Z.land (Z.lxor a b) c = Z.lxor (Z.land a c) (Z.land b c).
Proof.
  apply Z.bits_inj'. intros n Hn. rewrite !Z.land_spec, !Z.lxor_spec, !Z.land_spec.
  by destruct (Z.testbit a n), (Z.testbit b n), (Z.testbit c n).
Qed.

(** The exclusive or of two words is one. *)
Lemma lxor_range n a b :
  0 <= n -> 0 <= a < 2 ^ n -> 0 <= b < 2 ^ n -> 0 <= Z.lxor a b < 2 ^ n.
Proof.
  intros Hn Ha Hb. rewrite <- (Z.mod_small a (2 ^ n)), <- (Z.mod_small b (2 ^ n)) by done.
  rewrite <- !Z.land_ones, <- land_lxor_distr, Z.land_ones by done.
  apply Z.mod_pos_bound. lia.
Qed.

Lemma lxor_u64 a b : is_u64 a -> is_u64 b -> is_u64 (Z.lxor a b).
Proof. intros Ha Hb. by apply (lxor_range 64). Qed.

#[export] Hint Resolve u64_range u32_range : kv.

(** [size()] of a container, as the [size_t] the source sees. *)
Definition zlen {A} (l : list A) : Z := Z.of_nat (length l).

Lemma zlen_nil {A} : zlen (@nil A) = 0.
Proof. reflexivity. Qed.

Lemma zlen_cons {A} (x : A) l : zlen (x :: l) = zlen l + 1.
Proof. unfold zlen. cbn [length]. lia. Qed.

Lemma zlen_app {A} (l k : list A) : zlen (l ++ k) = zlen l + zlen k.
Proof. unfold zlen. rewrite length_app. lia. Qed.

Lemma zlen_nonneg {A} (l : list A) : 0 <= zlen l.
Proof. unfold zlen. lia. Qed.

Lemma zlen_take {A} n (l : list A) : zlen (take n l) = Z.min (Z.of_nat n) (zlen l).
Proof. unfold zlen. rewrite length_take. lia. Qed.

Lemma zlen_drop {A} n (l : list A) : zlen (drop n l) = Z.max 0 (zlen l - Z.of_nat n).
Proof. unfold zlen. rewrite length_drop. lia. Qed.

Lemma zlen_0 {A} (l : list A) : zlen l = 0 -> l = [].
Proof. destruct l; [done|]. rewrite zlen_cons. pose proof (zlen_nonneg l). lia. Qed.

Lemma to_nat_zlen {A} (l : list A) : Z.to_nat (zlen l) = length l.
Proof. apply Nat2Z.id. Qed.

#[export] Hint Rewrite @zlen_cons @zlen_app @zlen_take @zlen_drop : kv_rw.

(** Arithmetic about container sizes and machine words. *)
Ltac len_lia :=
  unfold zlen in *;
  repeat (rewrite ?length_app, ?length_take, ?length_drop, ?length_fmap,
            ?length_replicate, ?length_reverse in *);
  cbn [length] in *; unfold_words; lia.
#[export] Hint Resolve zlen_nonneg : kv.

(** ** Bytes

    [std::string], [std::vector<uint8_t>] and raw buffers are byte lists. *)

Abbreviation bytes := (list byte).

Definition b2z (b : byte) : Z := Z.of_N (Byte.to_N b).

Definition z2b (z : Z) : byte :=
  match Byte.of_N (Z.to_N (z `mod` 256)) with Some b => b | None => Byte.x00 end.

Definition str (s : string) : bytes := String.list_byte_of_string s.

#[export] Instance byte_eq_dec : EqDecision byte := Byte.byte_eq_dec.

#[export] Program Instance byte_countable : Countable byte :=
  inj_countable Byte.to_N Byte.of_N _.
Next Obligation. intros b. apply Byte.of_to_N. Qed.

Lemma b2z_range b : 0 <= b2z b < 256.
Proof.
  unfold b2z. pose proof (Byte.to_N_bounded b). lia.
Qed.

Lemma b2z_inj a b : b2z a = b2z b -> a = b.
Proof.
  unfold b2z. intros H%N2Z.inj.
  pose proof (Byte.of_to_N a) as Ha. pose proof (Byte.of_to_N b) as Hb.
  rewrite H in Ha. congruence.
Qed.

Lemma b2z_z2b z : b2z (z2b z) = z `mod` 256.
Proof.
  unfold b2z, z2b. pose proof (Z.mod_pos_bound z 256 eq_refl) as Hz.
  destruct (Byte.of_N (Z.to_N (z `mod` 256))) as [b|] eqn:E.
  - apply Byte.to_of_N in E. rewrite E. lia.
  - apply Byte.of_N_None_iff in E. lia.
Qed.

Lemma z2b_b2z b : z2b (b2z b) = b.
Proof.
  apply b2z_inj. rewrite b2z_z2b. apply Z.mod_small, b2z_range.
Qed.

#[export] Hint Resolve b2z_range : kv.
#[export] Hint Rewrite b2z_z2b z2b_b2z : kv_rw.

(** Putting a byte below a shifted word. *)
Lemma lor_shiftl_add a b n :
  0 <= n -> 0 <= a < 2 ^ n -> 0 <= b -> Z.lor a (Z.shiftl b n) = a + b * 2 ^ n.
Proof.
  intros Hn Ha Hb. rewrite Z.shiftl_mul_pow2 by done.
  assert (Z.land a (b * 2 ^ n) = 0) as Hd.
  { apply Z.bits_inj'. intros i Hi. rewrite Z.land_spec, Z.bits_0.
    destruct (decide (i < n)).
    - rewrite Z.mul_pow2_bits_low by lia. apply andb_false_r.
    - rewrite <- (Z.mod_small a (2 ^ n)) by done.
      by rewrite Z.mod_pow2_bits_high by lia. }
  by rewrite Z.add_nocarry_lxor, Z.lxor_lor.
Qed.

(** ** Results and exceptions *)

(** The exception types the source throws, with the [what()] text. *)
Inductive exn : Type :=
| invalid_argument (what : string)
| length_error (what : string)
| out_of_range (what : string)
| runtime_error (what : string)
| RespProtocolError (what : string)
| type_error.

Inductive result (A : Type) : Type :=
| Ok (a : A)
| Throw (e : exn).
Arguments Ok {A} _.
Arguments Throw {A} _.

#[export] Instance result_ret : MRet result := fun A a => Ok a.
#[export] Instance result_bind : MBind result := fun A B f r =>
  match r with Ok a => f a | Throw e => Throw e end.

#[export] Instance exn_eq_dec : EqDecision exn.
Proof. solve_decision. Defined.

#[export] Instance result_eq_dec `{EqDecision A} : EqDecision (result A).
Proof. solve_decision. Defined.

Definition is_ok {A} (r : result A) : bool :=
  match r with Ok _ => true | Throw _ => false end.

(** ** Member functions

    A member function of a class with state [S] that returns an [A] is an
    [M S A]: it reads and updates the object, and an exception leaves the
    object as it was when it was thrown. *)

Definition M (S A : Type) : Type := S -> result A * S.

#[export] Instance M_ret {S} : MRet (M S) := fun A a s => (Ok a, s).
#[export] Instance M_bind {S} : MBind (M S) := fun A B f m s =>
  match m s with
  | (Ok a, s') => f a s'
  | (Throw e, s') => (Throw e, s')
  end.

Definition get {S} : M S S := fun s => (Ok s, s).
Definition modify {S} (f : S -> S) : M S unit := fun s => (Ok tt, f s).
Definition throw {S A} (e : exn) : M S A := fun s => (Throw e, s).
Definition lift {S A} (r : result A) : M S A := fun s => (r, s).
Definition when {S} (b : bool) (m : M S unit) : M S unit :=
  if b then m else mret tt.

(** Unfold the plumbing of a member function. *)
Ltac run_m :=
  cbv beta iota zeta delta [mbind M_bind mret M_ret get modify throw lift when].

(** [for (x : l) { body(x) }] *)
Fixpoint for_each {S A} (l : list A) (body : A -> M S unit) : M S unit :=
  match l with
  | [] => mret tt
  | x :: l' => body x ;; for_each l' body
  end.

(** ** Record update *)

(** [Setter proj] assigns one data member. *)
Class Setter {R T : Type} (proj : R -> T) : Type := set : T -> R -> R.
Arguments set {R T} proj {Setter} _ _.

(** [setter eta proj] builds the assignment of [proj] from [eta], the record
    rebuilt from its projections. *)
Ltac setter eta proj :=
  intros v r;
  let e := eval cbv beta delta [eta] in (eta r) in
  match eval pattern (proj r) in e with
  | ?f _ => let t := eval cbv beta in (f v) in exact t
  end.

Notation "r <| f := v |>" := (set f v r)
  (at level 1, f at level 0, v at level 60, left associativity,
   format "r <| f  :=  v |>") : kv_scope.

(** [member <~ value], an assignment statement. *)
Notation "f <~ v" := (modify (set f v)) (at level 80, v at level 79, no associativity) : kv_scope.

(** ** Reasoning about member functions *)

(** [wp m Q E s]: running [m] in [s] returns a value and a state in [Q], or
    throws an exception and leaves a state in [E]. *)
Definition wp {S A} (m : M S A) (Q : A -> S -> Prop) (E : exn -> S -> Prop)
    (s : S) : Prop :=
  match m s with
  | (Ok a, s') => Q a s'
  | (Throw e, s') => E e s'
  end.

Section WP.
Context {S A B : Type}.
Implicit Types (m : M S A) (Q : A -> S -> Prop) (E : exn -> S -> Prop).

Lemma wp_ret (a : A) Q E s : Q a s -> wp (mret a) Q E s.
Proof. done. Qed.

Lemma wp_bind m (f : A -> M S B) (Q : B -> S -> Prop) E s :
  wp m (fun a s' => wp (f a) Q E s') E s -> wp (m ≫= f) Q E s.
Proof.
  unfold wp, mbind, M_bind. by destruct (m s) as [[a|e] s'].
Qed.

Lemma wp_get (Q : S -> S -> Prop) E s : Q s s -> wp get Q E s.
Proof. done. Qed.

Lemma wp_modify g (Q : unit -> S -> Prop) E s : Q tt (g s) -> wp (modify g) Q E s.
Proof. done. Qed.

Lemma wp_if (b : bool) (m1 m2 : M S A) Q E s :
  (b = true -> wp m1 Q E s) -> (b = false -> wp m2 Q E s) ->
  wp (if b then m1 else m2) Q E s.
Proof. destruct b; auto. Qed.

Lemma wp_when b (m : M S unit) (Q : unit -> S -> Prop) E s :
  (b = true -> wp m Q E s) -> (b = false -> Q tt s) -> wp (when b m) Q E s.
Proof. destruct b; [auto|]. intros _ H. by apply H. Qed.

Lemma wp_mono m Q Q' E E' s :
  wp m Q E s -> (forall a s', Q a s' -> Q' a s') ->
  (forall e s', E e s' -> E' e s') -> wp m Q' E' s.
Proof. unfold wp. destruct (m s) as [[a|e] s']; auto. Qed.
End WP.

Lemma wp_elim {S A} (m : M S A) Q E (s : S) a s' :
  wp m Q E s -> m s = (Ok a, s') -> Q a s'.
Proof. unfold wp. intros H Hm. by rewrite Hm in H. Qed.

Lemma wp_snd {S A} (m : M S A) (P : S -> Prop) (s : S) :
  wp m (fun _ => P) (fun _ => P) s -> P (snd (m s)).
Proof. unfold wp. by destruct (m s) as [[] ?]. Qed.

Lemma wp_for_each {S B} (l : list B) (body : B -> M S unit) (I : S -> Prop) E s :
  I s ->
  (forall x s', x ∈ l -> I s' -> wp (body x) (fun _ => I) E s') ->
  wp (for_each l body) (fun _ => I) E s.
Proof.
  revert s. induction l as [|x l IH]; intros s Hs Hb; cbn [for_each].
  - exact Hs.
  - apply wp_bind. eapply wp_mono; [apply Hb; [set_solver|done]| |done].
    intros [] s' Hs'. apply IH; [done|]. intros y s'' Hy. apply Hb. set_solver.
Qed.

(** Boolean guards as propositions. *)
Ltac guards_step :=
  match goal with
  | H : _ && _ = true |- _ => apply andb_true_iff in H as [? ?]
  | H : _ || _ = false |- _ => apply orb_false_iff in H as [? ?]
  | H : _ && _ = false |- _ => apply andb_false_iff in H as [?|?]
  | H : _ || _ = true |- _ => apply orb_true_iff in H as [?|?]
  | H : negb _ = true |- _ => apply negb_true_iff in H
  | H : negb _ = false |- _ => apply negb_false_iff in H
  | H : bool_decide _ = true |- _ => apply bool_decide_eq_true in H
  | H : bool_decide _ = false |- _ => apply bool_decide_eq_false in H
  | H : (_ =? _) = true |- _ => apply Z.eqb_eq in H
  | H : (_ =? _) = false |- _ => apply Z.eqb_neq in H
  | H : (_ <? _) = true |- _ => apply Z.ltb_lt in H
  | H : (_ <? _) = false |- _ => apply Z.ltb_ge in H
  | H : (_ <=? _) = true |- _ => apply Z.leb_le in H
  | H : (_ <=? _) = false |- _ => apply Z.leb_gt in H
  | H : (_ >? _) = true |- _ => rewrite Z.gtb_ltb in H; apply Z.ltb_lt in H
  | H : (_ >? _) = false |- _ => rewrite Z.gtb_ltb in H; apply Z.ltb_ge in H
  | H : (_ >=? _) = true |- _ => rewrite Z.geb_leb in H; apply Z.leb_le in H
  | H : (_ >=? _) = false |- _ => rewrite Z.geb_leb in H; apply Z.leb_gt in H
  | H : context [if ?b then _ else _] |- _ => destruct b eqn:?
  end.
Ltac guards := repeat guards_step.

(** One symbolic step of a member function. *)
Ltac wp_step :=
  lazymatch goal with
  | |- wp (_ ≫= _) _ _ _ => apply wp_bind
  | |- wp (mret _) _ _ _ => apply wp_ret
  | |- wp get _ _ _ => apply wp_get
  | |- wp (modify _) _ _ _ => apply wp_modify
  | |- wp (if negb true then _ else _) _ _ _ => change (negb true) with false; cbv iota
  | |- wp (if negb false then _ else _) _ _ _ => change (negb false) with true; cbv iota
  | |- wp (if decide ?P then _ else _) _ _ _ =>
      let H := fresh "Hdec" in destruct (decide P) as [H|H]
  | |- wp (if ?b then _ else _) _ _ _ =>
      let H := fresh "Hif" in apply wp_if; intros H
  | |- wp (when _ _) _ _ _ => let H := fresh "Hwhen" in apply wp_when; intros H
  | |- wp (let _ := _ in _) _ _ _ => cbv zeta
  end; cbv beta.
