(* ===== verification/ByteBuffer.v ===== *)
(** * The bounded byte accumulator ([src/common/bytebuffer.{h,cpp}])

    [ByteBuffer] is the class with its three data members; [view] is the byte
    queue it stands for.  The theorems show that every member function
    implements the queue, that consumed bytes never come back and that the
    readable bytes never exceed the limit the buffer was built with. *)

From S2P Require Import Prelude.

Module ByteBuffer.

Record t : Type := mk {
  bytes_ : bytes;
  read_offset_ : Z;
  max_size_ : Z;
}.

Definition eta (b : t) : t := mk (bytes_ b) (read_offset_ b) (max_size_ b).
#[global] Instance set_bytes_ : Setter bytes_ := ltac:(setter eta bytes_).
#[global] Instance set_read_offset_ : Setter read_offset_ := ltac:(setter eta read_offset_).

Definition kDefaultLimit : Z := 64 * 1024 * 1024 + 5.

Definition create (max_size : Z) : result t :=
  if max_size =? 0
  then Throw (invalid_argument "byte buffer limit must be positive")
  else Ok (mk [] 0 max_size).

Definition readable_bytes (b : t) : Z := u64 (zlen (bytes_ b) - read_offset_ b).

Definition empty (b : t) : bool := readable_bytes b =? 0.

(** [nullptr] is [None]; the range starts at the first readable byte. *)
Definition data (b : t) : option bytes :=
  if empty b then None else Some (drop (Z.to_nat (read_offset_ b)) (bytes_ b)).

Definition clear : M t unit :=
  bytes_ <~ [] ;; read_offset_ <~ 0.

Definition compact : M t unit :=
  b ← get;
  if read_offset_ b =? 0 then mret tt else
  bytes_ <~ drop (Z.to_nat (read_offset_ b)) (bytes_ b) ;;
  read_offset_ <~ 0.

(** [src] is what the pointer argument points to, [None] for [nullptr]. *)
Definition append (src : option bytes) (size : Z) : M t unit :=
  if size =? 0 then mret tt else
  match src with
  | None => throw (invalid_argument "cannot append a null byte range")
  | Some range =>
      b ← get;
      if size >? u64 (max_size_ b - readable_bytes b)
      then throw (length_error "byte buffer limit exceeded") else
      compact ;;
      b ← get;
      bytes_ <~ bytes_ b ++ take (Z.to_nat size) range
  end.

Definition consume (size : Z) : M t unit :=
  b ← get;
  if size >? readable_bytes b
  then throw (out_of_range "cannot consume beyond readable bytes") else
  read_offset_ <~ u64 (read_offset_ b + size) ;;
  b ← get;
  when (read_offset_ b =? zlen (bytes_ b)) clear.

(** ** The queue a buffer stands for *)

Definition view (b : t) : bytes := drop (Z.to_nat (read_offset_ b)) (bytes_ b).

Record wf (b : t) : Prop := {
  wf_offset : 0 <= read_offset_ b <= zlen (bytes_ b);
  wf_limit : zlen (view b) <= max_size_ b;
  wf_max : 0 < max_size_ b < u64_max;
  wf_bytes : zlen (bytes_ b) < u64_max;
}.

Lemma readable_view b : wf b -> readable_bytes b = zlen (view b).
Proof.
  intros []. unfold readable_bytes, view in *. rewrite zlen_drop in *.
  rewrite u64_small; unfold_words; lia.
Qed.

Lemma drop_sum {A} n m (l : list A) :
  0 <= n -> 0 <= m ->
  drop (Z.to_nat (n + m)) l = drop (Z.to_nat m) (drop (Z.to_nat n) l).
Proof. intros. rewrite drop_drop. f_equal. lia. Qed.

Lemma create_wf n b : is_u64 n -> create n = Ok b -> wf b /\ view b = [].
Proof.
  unfold create. intros Hn. destruct (Z.eqb_spec n 0); [done|].
  intros [= <-]. split; [|done].
  split; unfold view; cbn; len_lia.
Qed.

(** What compaction leaves: the same queue at offset zero. *)
Lemma compact_spec b :
  wf b -> exists b', compact b = (Ok tt, b') /\ bytes_ b' = view b /\
    read_offset_ b' = 0 /\ max_size_ b' = max_size_ b.
Proof.
  intros [Ho _ _ _]. unfold compact. run_m. destruct (Z.eqb_spec (read_offset_ b) 0) as [E|E].
  - exists b. unfold view. by rewrite E, drop_0.
  - eexists. split; [done|]. cbn. done.
Qed.

Lemma append_spec b range size :
  wf b -> 0 <= size <= zlen range ->
  match append (Some range) size b with
  | (Ok _, b') => wf b' /\ view b' = view b ++ take (Z.to_nat size) range /\
      max_size_ b' = max_size_ b /\ zlen (view b) + size <= max_size_ b
  | (Throw e, b') => b' = b /\ e = length_error "byte buffer limit exceeded" /\
      zlen (view b) + size > max_size_ b
  end.
Proof.
  intros Hwf Hs. pose proof Hwf as [Ho Hl Hm Hb]. unfold append.
  destruct (Z.eqb_spec size 0) as [->|Hne].
  { cbn. rewrite app_nil_r. split_and!; [done|done|done|lia]. }
  run_m. rewrite readable_view by done.
  rewrite u64_small by (unfold is_u64, u64_max in *; pose proof (zlen_nonneg (view b)); lia).
  destruct (Z.gtb_spec size (max_size_ b - zlen (view b))); [split_and!; [done|done|lia]|].
  destruct (compact_spec b Hwf) as (b' & -> & Eb & E0 & Em).
  assert (view b' <| bytes_ := bytes_ b' ++ take (Z.to_nat size) range |>
          = view b ++ take (Z.to_nat size) range) as Hv.
  { unfold view at 1. cbn. by rewrite E0, Eb. }
  split_and!; [|done|done|lia].
  split; rewrite ?Hv; cbn; rewrite ?E0, ?Eb, ?Em; pose proof (zlen_nonneg (view b));
    rewrite ?zlen_app, ?zlen_take; lia.
Qed.

Lemma consume_spec b size :
  wf b -> 0 <= size ->
  match consume size b with
  | (Ok _, b') => wf b' /\ view b' = drop (Z.to_nat size) (view b) /\
      max_size_ b' = max_size_ b /\ size <= zlen (view b)
  | (Throw e, b') => b' = b /\
      e = out_of_range "cannot consume beyond readable bytes" /\ size > zlen (view b)
  end.
Proof.
  intros Hwf Hs. pose proof Hwf as [Ho Hl Hm Hb]. unfold consume. run_m.
  rewrite readable_view by done.
  destruct (Z.gtb_spec size (zlen (view b))) as [|Hle]; [split_and!; [done|done|lia]|].
  assert (read_offset_ b + size <= zlen (bytes_ b)) as Hsum.
  { unfold view in Hle. rewrite zlen_drop in Hle. lia. }
  cbn. rewrite u64_small by (unfold_words; lia).
  assert (drop (Z.to_nat (read_offset_ b + size)) (bytes_ b)
          = drop (Z.to_nat size) (view b)) as Hv by (apply drop_sum; lia).
  destruct (Z.eqb_spec (read_offset_ b + size) (zlen (bytes_ b))) as [E|E]; cbn.
  - rewrite <- Hv, E. unfold zlen. rewrite Nat2Z.id, drop_all.
    split_and!; [|done|done|done].
    split; unfold view; cbn; len_lia.
  - split_and!; [|done|done|done].
    split; cbn; unfold view; cbn; rewrite ?Hv, ?zlen_drop; try lia.
Qed.

(** ** Sequences of calls *)

Inductive call : Type :=
| Append (src : option bytes) (size : Z)
| Consume (size : Z)
| Clear.

Definition run_call (c : call) : M t unit :=
  match c with
  | Append src size => append src size
  | Consume size => consume size
  | Clear => clear
  end.

(** The outcome of each call; the object goes on after an exception. *)
Fixpoint run_calls (cs : list call) (b : t) : list (result unit) * t :=
  match cs with
  | [] => ([], b)
  | c :: cs' =>
      let '(r, b1) := run_call c b in
      let '(rs, b2) := run_calls cs' b1 in (r :: rs, b2)
  end.

(** The same calls on a queue of at most [limit] bytes. *)
Definition queue_call (limit : Z) (c : call) (q : bytes) : result unit * bytes :=
  match c with
  | Append _ 0 => (Ok tt, q)
  | Append None _ => (Throw (invalid_argument "cannot append a null byte range"), q)
  | Append (Some range) size =>
      if decide (zlen q + size <= limit) then (Ok tt, q ++ take (Z.to_nat size) range)
      else (Throw (length_error "byte buffer limit exceeded"), q)
  | Consume size =>
      if decide (size <= zlen q) then (Ok tt, drop (Z.to_nat size) q)
      else (Throw (out_of_range "cannot consume beyond readable bytes"), q)
  | Clear => (Ok tt, [])
  end.

Fixpoint queue_calls (limit : Z) (cs : list call) (q : bytes) : list (result unit) * bytes :=
  match cs with
  | [] => ([], q)
  | c :: cs' =>
      let '(r, q1) := queue_call limit c q in
      let '(rs, q2) := queue_calls limit cs' q1 in (r :: rs, q2)
  end.

(** A size argument is a [size_t] and within the range it goes with. *)
Definition sound_call (c : call) : Prop :=
  match c with
  | Append src size => 0 <= size /\ match src with Some range => size <= zlen range | None => True end
  | Consume size => 0 <= size
  | Clear => True
  end.

Lemma call_refines c b :
  wf b -> sound_call c ->
  let '(r, b') := run_call c b in
  queue_call (max_size_ b) c (view b) = (r, view b') /\ wf b' /\ max_size_ b' = max_size_ b.
Proof.
  intros Hwf Hc. pose proof Hwf as [Ho Hl Hm Hb]. destruct c as [src size|size|]; cbn [run_call sound_call] in *.
  - destruct Hc as [H0 Hr]. destruct src as [range|].
    + pose proof (append_spec b range size Hwf ltac:(lia)) as H.
      destruct (append (Some range) size b) as [[[]|e] b'].
      * destruct H as (H1 & -> & H2 & H3). split; [|done]. destruct size; cbn [queue_call]; [by rewrite app_nil_r| |lia].
        by rewrite decide_True by lia.
      * destruct H as (-> & -> & H3). split; [|done]. destruct size; cbn [queue_call]; [lia| |lia].
        by rewrite decide_False by lia.
    + unfold append. destruct size; cbn; [done|done|lia].
  - pose proof (consume_spec b size Hwf Hc) as H. destruct (consume size b) as [[[]|e] b']; cbn [queue_call].
    + destruct H as (H1 & -> & H2 & H3). by rewrite decide_True.
    + destruct H as (-> & -> & H3). by rewrite decide_False by lia.
  - cbn. split_and!; [done| |done]. split; cbn; unfold view; cbn; len_lia.
Qed.

Lemma calls_refine cs : forall b,
  wf b -> Forall sound_call cs ->
  let '(rs, b') := run_calls cs b in
  queue_calls (max_size_ b) cs (view b) = (rs, view b') /\ wf b' /\ max_size_ b' = max_size_ b.
Proof.
  induction cs as [|c cs IH]; intros b Hwf Hcs; [done|]. cbn [run_calls queue_calls].
  pose proof (call_refines c b Hwf (Forall_inv Hcs)) as H.
  destruct (run_call c b) as [r b1]. destruct H as (-> & Hwf1 & <-).
  specialize (IH b1 Hwf1 (Forall_inv_tail Hcs)).
  destruct (run_calls cs b1) as [rs b2]. by destruct IH as (-> & ? & ?).
Qed.

(** C36: A buffer is a bounded queue of bytes.  Over any sequence of calls on
    one built with a limit, each call returns or throws as the call on the
    queue does (an exception changes nothing), and afterwards the readable
    bytes are the queue: [data] points to them, [readable_bytes] is their
    number, and it is within the limit. *)
Theorem buffer_is_queue limit b cs :
  is_u64 limit -> create limit = Ok b -> Forall sound_call cs ->
  let '(rs, b') := run_calls cs b in
  let '(outcomes, q) := queue_calls limit cs [] in
  rs = outcomes /\ data b' = (if decide (q = []) then None else Some q) /\
  readable_bytes b' = zlen q /\ empty b' = bool_decide (q = []) /\ zlen q <= limit.
Proof.
  intros Hl Hc Hcs. destruct (create_wf limit b Hl Hc) as [Hwf Hv].
  assert (max_size_ b = limit) as Hm by (unfold create in Hc; case_match; by simplify_eq).
  pose proof (calls_refine cs b Hwf Hcs) as H. rewrite Hv, Hm in H.
  destruct (run_calls cs b) as [rs b']. destruct H as (-> & Hwf' & Hm').
  pose proof (readable_view b' Hwf') as Hr. unfold data, empty. rewrite Hr.
  split; [done|]. destruct Hwf' as [_ Hlim _ _]. rewrite Hm' in Hlim.
  destruct (view b') eqn:E; [done|]. rewrite decide_False, bool_decide_false by done.
  rewrite zlen_cons. pose proof (zlen_nonneg l). destruct (Z.eqb_spec (zlen l + 1) 0); [lia|].
  rewrite zlen_cons in Hlim. fold (view b'). by rewrite E.
Qed.

Lemma buffer_is_queue_witness :
  let '(rs, b') := run_calls [Append (Some (str "abc")) 3; Append (Some (str "de")) 2; Consume 2;
                              Append (Some (str "fg")) 2; Consume 9] (mk [] 0 4) in
  let '(outcomes, q) := queue_calls 4 [Append (Some (str "abc")) 3; Append (Some (str "de")) 2; Consume 2;
                              Append (Some (str "fg")) 2; Consume 9] [] in
  rs = outcomes /\ data b' = (if decide (q = []) then None else Some q) /\
  readable_bytes b' = zlen q /\ empty b' = bool_decide (q = []) /\ zlen q <= 4.
Proof.
  apply (buffer_is_queue 4 (mk [] 0 4)); [by vm_compute|done|].
  repeat constructor; by vm_compute.
Defined.

End ByteBuffer.
