(* ===== verification/Text.v ===== *)
(** * Decimal text

    What the program uses of the standard library to read and print numbers:
    [std::from_chars] for unsigned integers and [std::to_string]. *)

From S2P Require Import Prelude.

(** ** Printing *)

Definition digit_char (d : Z) : byte := z2b (48 + d).

(** The digits of [n], put in front of [acc].  Twenty digits hold any 64-bit
    value. *)
Fixpoint digits (fuel : nat) (n : Z) (acc : bytes) : bytes :=
  match fuel with
  | O => acc
  | S fuel' =>
      let acc' := digit_char (n `mod` 10) :: acc in
      if n / 10 =? 0 then acc' else digits fuel' (n / 10) acc'
  end.

Definition to_string (n : Z) : bytes :=
  if n <? 0 then Byte.x2d :: digits 20 (- n) [] else digits 20 n [].

(** ** Parsing *)

Definition digit_value (b : byte) : option Z :=
  if (48 <=? b2z b) && (b2z b <=? 57) then Some (b2z b - 48) else None.

(** The number the leading digits of [s] denote, and the rest. *)
Fixpoint read_digits (s : bytes) (acc : Z) : Z * bytes :=
  match s with
  | b :: s' =>
      match digit_value b with
      | Some d => read_digits s' (acc * 10 + d)
      | None => (acc, s)
      end
  | [] => (acc, [])
  end.

Definition starts_with_digit (s : bytes) : bool :=
  match s with b :: _ => bool_decide (is_Some (digit_value b)) | [] => false end.

(** [std::from_chars] into an unsigned type with the values below [limit]:
    [None] is any error code, and the bytes are what [ptr] points at. *)
Definition from_chars (limit : Z) (s : bytes) : option Z * bytes :=
  if negb (starts_with_digit s) then (None, s) else
  let '(n, rest) := read_digits s 0 in
  (if n <? limit then Some n else None, rest).

(** [ec == errc{} && ptr == end]: the whole of [s] is a number in range. *)
Definition parse_unsigned (limit : Z) (s : bytes) : option Z :=
  match from_chars limit s with
  | (Some n, []) => Some n
  | _ => None
  end.

(** ** Facts *)

Lemma digit_value_char d : 0 <= d < 10 -> digit_value (digit_char d) = Some d.
Proof.
  intros Hd. unfold digit_value, digit_char. rewrite b2z_z2b, Z.mod_small by lia.
  rewrite (proj2 (Z.leb_le _ _)), (proj2 (Z.leb_le _ _)) by lia. cbn. f_equal. lia.
Qed.

Lemma digit_value_range b d : digit_value b = Some d -> 0 <= d < 10.
Proof. unfold digit_value. intros H. guards; simplify_eq; lia. Qed.

Lemma digits_value fuel : forall n acc a,
  0 <= n -> n < 10 ^ Z.of_nat fuel -> (0 < fuel)%nat ->
  exists k, 0 < k /\ read_digits (digits fuel n acc) a = read_digits acc (a * k + n).
Proof.
  induction fuel as [|fuel IH]; intros n acc a Hn Hb Hf; [lia|]. cbn [digits].
  pose proof (Z.mod_pos_bound n 10 eq_refl). pose proof (Z.div_mod n 10 ltac:(done)).
  destruct (Z.eqb_spec (n / 10) 0) as [E|E].
  - exists 10. split; [done|]. cbn [read_digits]. rewrite digit_value_char by lia.
    f_equal. lia.
  - rewrite Nat2Z.inj_succ, Z.pow_succ_r in Hb by lia.
    assert (0 <= n / 10) by (by apply Z.div_pos).
    destruct (IH (n / 10) (digit_char (n `mod` 10) :: acc) a) as (k & Hk & ->).
    + done.
    + apply Z.div_lt_upper_bound; lia.
    + destruct fuel; [cbn in Hb; lia|lia].
    + exists (10 * k). split; [lia|]. cbn [read_digits]. rewrite digit_value_char by lia.
      f_equal. lia.
Qed.

Lemma digits_starts fuel n acc :
  (0 < fuel)%nat -> starts_with_digit (digits fuel n acc) = true.
Proof.
  revert n acc. induction fuel as [|fuel IH]; intros n acc Hf; [lia|]. cbn [digits].
  pose proof (Z.mod_pos_bound n 10 eq_refl).
  assert (starts_with_digit (digit_char (n `mod` 10) :: acc) = true) as Hd.
  { cbn. rewrite digit_value_char by lia. apply bool_decide_eq_true. eauto. }
  case_match; [done|]. destruct fuel; [done|]. apply IH. lia.
Qed.

Lemma digits_app fuel : forall n acc rest,
  digits fuel n acc ++ rest = digits fuel n (acc ++ rest).
Proof.
  induction fuel as [|fuel IH]; intros n acc rest; [done|]. cbn [digits].
  case_match; [done|]. by rewrite IH.
Qed.

(** Reading stops where the digits stop. *)
Lemma read_digits_stop s a : starts_with_digit s = false -> read_digits s a = (a, s).
Proof.
  destruct s as [|b s]; [done|]. cbn. intros H. guards.
  destruct (digit_value b); [|done]. by exfalso; eauto.
Qed.

(** What is printed is read back. *)
Lemma from_chars_to_string limit n rest :
  0 <= n < limit -> limit <= u64_max -> starts_with_digit rest = false ->
  from_chars limit (to_string n ++ rest) = (Some n, rest).
Proof.
  intros Hn Hl Hr. unfold from_chars, to_string.
  rewrite (proj2 (Z.ltb_ge _ _)) by lia. rewrite digits_app, app_nil_l.
  rewrite digits_starts by lia. cbn [negb].
  destruct (digits_value 20 n rest 0) as (k & _ & ->); [lia| |lia|].
  { unfold u64_max in Hl. change (10 ^ Z.of_nat 20) with 100000000000000000000. lia. }
  rewrite Z.mul_0_l, Z.add_0_l, read_digits_stop by done.
  by rewrite (proj2 (Z.ltb_lt _ _)) by lia.
Qed.

Lemma parse_to_string limit n :
  0 <= n < limit -> limit <= u64_max -> parse_unsigned limit (to_string n) = Some n.
Proof.
  intros Hn Hl. unfold parse_unsigned.
  by rewrite <- (app_nil_r (to_string n)), from_chars_to_string.
Qed.

Lemma parse_unsigned_range limit s n : parse_unsigned limit s = Some n -> 0 <= n < limit.
Proof.
  assert (forall s' a, 0 <= a -> 0 <= fst (read_digits s' a)) as Hr.
  { induction s' as [|b s' IH]; intros a Ha; cbn; [done|].
    destruct (digit_value b) as [d|] eqn:E; [|done]. apply digit_value_range in E.
    apply IH. lia. }
  unfold parse_unsigned, from_chars. specialize (Hr s 0 ltac:(lia)).
  destruct (read_digits s 0) as [m rest]. intros H. repeat case_match; simplify_eq/=. lia.
Qed.

(** No printed number contains a line break. *)
Lemma digits_clean fuel (P : byte -> Prop) : forall n acc,
  (forall d, 0 <= d < 10 -> P (digit_char d)) -> Forall P acc -> Forall P (digits fuel n acc).
Proof.
  induction fuel as [|fuel IH]; intros n acc Hd Ha; [done|]. cbn [digits].
  pose proof (Z.mod_pos_bound n 10 eq_refl).
  assert (Forall P (digit_char (n `mod` 10) :: acc)) by (constructor; [apply Hd; lia|done]).
  case_match; [done|]. by apply IH.
Qed.
