(* ===== verification/RespCodec.v ===== *)
(** * The client protocol ([src/server/resp_codec.{h,cpp}])

    The decoder of request arrays, which keeps what is not a whole command yet,
    and the encoders of the replies.  The source's cursor into the input is the
    rest of the input after it. *)

From S2P Require Import Prelude Text.

Module Resp.

Definition cr : byte := Byte.x0d.
Definition lf : byte := Byte.x0a.
Definition crlf : bytes := [cr; lf].

Record RespCommand : Type := MkCommand { arguments : list bytes }.

Record RespLimits : Type := MkLimits {
  max_buffer_bytes : Z;
  max_array_elements : Z;
  max_bulk_string_bytes : Z;
}.

Definition default_limits : RespLimits :=
  MkLimits (2 * 1024 * 1024) 1024 (1024 * 1024).

(** ** Parsing *)

(** [input.find("\r\n", cursor)], from the cursor. *)
Fixpoint find_crlf (s : bytes) : option nat :=
  match s with
  | a :: (b :: _) as s' =>
      if decide (a = cr /\ b = lf) then Some 0%nat else S <$> find_crlf s'
  | _ => None
  end.

(** The line and the input after its line break. *)
Definition read_line (rest : bytes) : option (bytes * bytes) :=
  match find_crlf rest with
  | None => None
  | Some n => Some (take n rest, drop (n + 2) rest)
  end.

Definition parse_size (value : bytes) (field : string) : result Z :=
  if decide (value = [])
  then Throw (RespProtocolError (String.append "empty " field)) else
  match parse_unsigned u64_max value with
  | None => Throw (RespProtocolError (String.append "invalid " field))
  | Some n => Ok n
  end.

(** The loop over the [count] bulk strings. *)
Fixpoint parse_arguments (limits : RespLimits) (count : nat) (rest : bytes) (args : list bytes)
    : result (option (list bytes * bytes)) :=
  match count with
  | O => Ok (Some (args, rest))
  | S count' =>
      match rest with
      | [] => Ok None
      | c :: rest =>
          if decide (c <> Byte.x24)
          then Throw (RespProtocolError "expected bulk string") else
          match read_line rest with
          | None => Ok None
          | Some (line, rest) =>
              length ← parse_size line "bulk string length";
              if length >? max_bulk_string_bytes limits
              then Throw (RespProtocolError "bulk string length exceeds limit") else
              if length >? zlen rest then Ok None else
              if zlen rest - length <? 2 then Ok None else
              let args := args ++ [take (Z.to_nat length) rest] in
              let rest := drop (Z.to_nat length) rest in
              if decide (take 2 rest <> crlf)
              then Throw (RespProtocolError "bulk string missing CRLF") else
              parse_arguments limits count' (drop 2 rest) args
          end
      end
  end.

(** The command and the number of bytes it takes. *)
Definition parse_command (limits : RespLimits) (input : bytes)
    : result (option (RespCommand * nat)) :=
  match input with
  | [] => Ok None
  | c :: rest =>
      if decide (c <> Byte.x2a) then Throw (RespProtocolError "expected RESP array") else
      match read_line rest with
      | None => Ok None
      | Some (line, rest) =>
          count ← parse_size line "array length";
          if count >? max_array_elements limits
          then Throw (RespProtocolError "array length exceeds limit") else
          parsed ← parse_arguments limits (Z.to_nat count) rest [];
          match parsed with
          | None => Ok None
          | Some (args, rest) => Ok (Some (MkCommand args, length input - length rest)%nat)
          end
      end
  end.

(** ** The decoder *)

Record RespDecoder : Type := MkDecoder {
  limits_ : RespLimits;
  buffer_ : bytes;
}.

Definition eta (d : RespDecoder) : RespDecoder := MkDecoder (limits_ d) (buffer_ d).
#[global] Instance set_buffer_ : Setter buffer_ := ltac:(setter eta buffer_).

Definition create (limits : RespLimits) : RespDecoder := MkDecoder limits [].

(** The loop of [feed].  A command takes a byte or more, so a fuel above the
    length of the buffer lets it run to its end. *)
Fixpoint feed_loop (fuel : nat) : M RespDecoder (list RespCommand) :=
  match fuel with
  | O => mret []
  | S fuel' =>
      d ← get;
      parsed ← lift (parse_command (limits_ d) (buffer_ d));
      match parsed with
      | None => mret []
      | Some (command, consumed) =>
          buffer_ <~ drop consumed (buffer_ d) ;;
          commands ← feed_loop fuel';
          mret (command :: commands)
      end
  end.

Definition feed (bytes : bytes) : M RespDecoder (list RespCommand) :=
  d ← get;
  if zlen bytes >? u64 (max_buffer_bytes (limits_ d) - zlen (buffer_ d))
  then throw (RespProtocolError "input buffer exceeds limit") else
  buffer_ <~ buffer_ d ++ bytes ;;
  d ← get;
  feed_loop (S (length (buffer_ d))).

Definition buffered_bytes (d : RespDecoder) : Z := zlen (buffer_ d).

(** ** Replies *)

Definition has_line_break (value : bytes) : bool :=
  bool_decide (cr ∈ value) || bool_decide (lf ∈ value).

Definition encode_simple_string (value : bytes) : result bytes :=
  if has_line_break value
  then Throw (RespProtocolError "simple string contains CR or LF")
  else Ok (Byte.x2b :: value ++ crlf).

Definition encode_bulk_string (value : bytes) : bytes :=
  Byte.x24 :: to_string (zlen value) ++ crlf ++ value ++ crlf.

Definition encode_nil_bulk_string : bytes := str "$-1" ++ crlf.

Definition encode_integer (value : Z) : bytes := str ":" ++ to_string value ++ crlf.

Definition encode_error (value : bytes) : result bytes :=
  if has_line_break value
  then Throw (RespProtocolError "error contains CR or LF")
  else Ok (Byte.x2d :: value ++ crlf).

End Resp.

Import Resp.

(** ** More input never changes what has been parsed *)

Lemma find_crlf_cons a b s :
  find_crlf (a :: b :: s) =
    if decide (a = cr /\ b = lf) then Some 0%nat else S <$> find_crlf (b :: s).
Proof. done. Qed.

Lemma find_crlf_bound s : forall n, find_crlf s = Some n -> (n + 2 <= length s)%nat.
Proof.
  induction s as [|a s IH]; intros n H; [done|]. destruct s as [|b s]; [done|].
  rewrite find_crlf_cons in H. case_decide; [injection H as <-; cbn; lia|].
  destruct (find_crlf (b :: s)) as [m|] eqn:E; [|done]. injection H as <-.
  specialize (IH m eq_refl). cbn in IH |- *. lia.
Qed.

Lemma find_crlf_app s t : forall n, find_crlf s = Some n -> find_crlf (s ++ t) = Some n.
Proof.
  induction s as [|a s IH]; intros n H; [done|]. destruct s as [|b s]; [done|].
  cbn [app]. rewrite find_crlf_cons in *.
  case_decide; [done|]. destruct (find_crlf (b :: s)) as [m|] eqn:E; [|done].
  injection H as <-. specialize (IH m eq_refl). cbn [app] in IH. by rewrite IH.
Qed.

Lemma find_crlf_line line rest :
  Forall (fun b => b <> cr) line -> find_crlf (line ++ crlf ++ rest) = Some (length line).
Proof.
  induction line as [|a line IH]; intros H; [done|]. apply Forall_cons_iff in H as [Ha H].
  specialize (IH H). cbn [app]. destruct (line ++ crlf ++ rest) as [|b s] eqn:E; [done|].
  rewrite find_crlf_cons, decide_False by tauto. by rewrite IH.
Qed.

Lemma read_line_app s t line rest :
  read_line s = Some (line, rest) -> read_line (s ++ t) = Some (line, rest ++ t).
Proof.
  unfold read_line. destruct (find_crlf s) as [n|] eqn:E; [|done]. intros [= <- <-].
  pose proof (find_crlf_bound s n E). rewrite (find_crlf_app s t n E).
  by rewrite take_app_le, drop_app_le by lia.
Qed.

Lemma read_line_length s line rest :
  read_line s = Some (line, rest) -> (length rest + length line + 2 = length s)%nat.
Proof.
  unfold read_line. destruct (find_crlf s) as [n|] eqn:E; [|done]. intros [= <- <-].
  pose proof (find_crlf_bound s n E). rewrite length_drop, length_take. lia.
Qed.

Lemma read_line_line line rest :
  Forall (fun b => b <> cr) line -> read_line (line ++ crlf ++ rest) = Some (line, rest).
Proof.
  intros H. unfold read_line. rewrite find_crlf_line by done.
  rewrite take_app_length. rewrite drop_app_ge by lia.
  by replace (length line + 2 - length line)%nat with 2%nat by lia.
Qed.

Lemma parse_size_range value field n : parse_size value field = Ok n -> 0 <= n < u64_max.
Proof.
  unfold parse_size. case_decide; [done|].
  destruct (parse_unsigned u64_max value) as [m|] eqn:E; [|done]. intros [= <-].
  by apply parse_unsigned_range in E.
Qed.

(** What a parser that may need more input says stays said. *)
Definition stable {A} (r r' : result (option A)) (grow : A -> A) : Prop :=
  match r with
  | Throw e => r' = Throw e
  | Ok (Some a) => r' = Ok (Some (grow a))
  | Ok None => True
  end.

Lemma parse_arguments_app limits t count : forall rest args,
  stable (parse_arguments limits count rest args) (parse_arguments limits count (rest ++ t) args)
    (fun '(a, r) => (a, r ++ t)).
Proof.
  induction count as [|count IH]; intros rest args; [done|]. cbn [parse_arguments].
  destruct rest as [|c rest]; [done|]. cbn [app]. case_decide; [done|].
  destruct (read_line rest) as [[line rest1]|] eqn:E; [|done].
  rewrite (read_line_app _ t _ _ E). destruct (parse_size line _) as [n|] eqn:En; [|done].
  apply parse_size_range in En. cbn. case_match; [done|]. rewrite zlen_app. pose proof (zlen_nonneg t).
  destruct (n >? zlen rest1) eqn:E1; [done|]. destruct (zlen rest1 - n <? 2) eqn:E2; [done|].
  guards. rewrite (Z.gtb_ltb n), (proj2 (Z.ltb_ge _ n)), (proj2 (Z.ltb_ge _ 2)) by lia.
  rewrite take_app_le, drop_app_le by (unfold zlen in *; lia).
  rewrite take_app_le by (rewrite length_drop; unfold zlen in *; lia). case_decide; [done|].
  rewrite drop_app_le by (rewrite length_drop; unfold zlen in *; lia). apply IH.
Qed.

Lemma parse_arguments_length limits count : forall rest args a r,
  parse_arguments limits count rest args = Ok (Some (a, r)) ->
  (length r <= length rest)%nat /\
  exists new, a = args ++ new /\ length new = count /\
    Forall (fun x => zlen x <= max_bulk_string_bytes limits) new.
Proof.
  induction count as [|count IH]; intros rest args a r H; cbn [parse_arguments] in H.
  { injection H as <- <-. split; [done|]. exists []. by rewrite app_nil_r. }
  destruct rest as [|c rest]; [done|]. case_decide; [done|].
  destruct (read_line rest) as [[line rest1]|] eqn:E; [|done].
  destruct (parse_size line _) as [n|] eqn:En; [|done]. apply parse_size_range in En. cbn in H.
  guards; try done. case_decide; [done|]. apply read_line_length in E.
  destruct (IH _ _ _ _ H) as (Hl & new & -> & <- & Hf). rewrite !length_drop in Hl.
  split; [cbn; lia|]. eexists (_ :: new). split; [by rewrite <- app_assoc|]. split; [done|].
  constructor; [|done]. rewrite zlen_take. lia.
Qed.

Lemma parse_command_app limits s t :
  stable (parse_command limits s) (parse_command limits (s ++ t)) id.
Proof.
  unfold parse_command. destruct s as [|c rest]; [done|]. cbn [app]. case_decide; [done|].
  destruct (read_line rest) as [[line rest1]|] eqn:E; [|done].
  rewrite (read_line_app _ t _ _ E). destruct (parse_size line _) as [n|]; [|done]. cbn.
  case_match; [done|]. pose proof (parse_arguments_app limits t (Z.to_nat n) rest1 []) as Ha.
  pose proof (parse_arguments_length limits (Z.to_nat n) rest1 []) as Hl.
  apply read_line_length in E.
  destruct (parse_arguments limits (Z.to_nat n) rest1 []) as [[[a r]|]|e]; cbn in *; [|done|by rewrite Ha].
  rewrite Ha. cbn. destruct (Hl a r eq_refl) as [Hr _]. unfold id. do 3 f_equal.
  rewrite !length_app. destruct r; cbn; rewrite ?length_app; lia.
Qed.

(** A command takes at least four bytes, and keeps to the limits. *)
Lemma parse_command_spec limits s c n :
  parse_command limits s = Ok (Some (c, n)) ->
  (0 < n <= length s)%nat /\ zlen (arguments c) <= max_array_elements limits /\
  Forall (fun x => zlen x <= max_bulk_string_bytes limits) (arguments c).
Proof.
  unfold parse_command. destruct s as [|b rest]; [done|]. case_decide; [done|].
  destruct (read_line rest) as [[line rest1]|] eqn:E; [|done].
  destruct (parse_size line _) as [k|] eqn:Ek; [|done]. apply parse_size_range in Ek. cbn.
  case_match eqn:Hmax; [done|]. guards. apply read_line_length in E.
  pose proof (parse_arguments_length limits (Z.to_nat k) rest1 []) as Hl.
  destruct (parse_arguments limits (Z.to_nat k) rest1 []) as [[[a r]|]|e]; cbn; [|done..].
  intros [= <- <-]. destruct (Hl a r eq_refl) as (Hr & new & -> & Hn & Hf). cbn.
  split_and!; [destruct r; cbn in *; lia|destruct r; cbn in *; lia| |done].
  unfold zlen. lia.
Qed.

(** ** The stream of commands

    [decoded s cs s']: the input [s] holds the commands [cs] and then [s'],
    which is not a whole command yet. *)

Inductive decoded (limits : RespLimits) : bytes -> list RespCommand -> bytes -> Prop :=
| decoded_stop s :
    parse_command limits s = Ok None -> decoded limits s [] s
| decoded_next s c n cs s' :
    parse_command limits s = Ok (Some (c, n)) -> decoded limits (drop n s) cs s' ->
    decoded limits s (c :: cs) s'.

Lemma decoded_app limits s cs s1 t ds s2 :
  decoded limits s cs s1 -> decoded limits (s1 ++ t) ds s2 -> decoded limits (s ++ t) (cs ++ ds) s2.
Proof.
  intros H. induction H as [s Hp|s c n cs s1 Hp _ IH]; intros Hd; [done|].
  pose proof (parse_command_app limits s t) as Hs. rewrite Hp in Hs. cbn in Hs.
  apply parse_command_spec in Hp as [Hn _].
  eapply decoded_next; [exact Hs|]. rewrite drop_app_le by lia. by apply IH.
Qed.

Lemma decoded_fun limits s cs s1 cs' s1' :
  decoded limits s cs s1 -> decoded limits s cs' s1' -> cs = cs' /\ s1 = s1'.
Proof.
  intros H. revert cs' s1'. induction H as [s Hp|s c n cs s1 Hp _ IH]; intros cs' s1' H';
    inversion H' as [? Hp'|? c' n' ds ? Hp' Hd]; subst; try congruence; [done|].
  rewrite Hp in Hp'. injection Hp' as <- <-. by destruct (IH _ _ Hd) as [-> ->].
Qed.

(** A prefix of a stream decodes too. *)
Lemma decoded_prefix limits u cs s2 : decoded limits u cs s2 -> forall s t, u = s ++ t ->
  exists cs1 cs2 s1, cs = cs1 ++ cs2 /\ decoded limits s cs1 s1 /\ decoded limits (s1 ++ t) cs2 s2.
Proof.
  intros H. induction H as [u Hp|u c n cs s2 Hp Hd IH]; intros s t ->.
  - exists [], [], s. split; [done|]. split; [|by apply decoded_stop]. apply decoded_stop.
    pose proof (parse_command_app limits s t) as Hs.
    destruct (parse_command limits s) as [[[c n]|]|e]; cbn in Hs; congruence.
  - pose proof (parse_command_app limits s t) as Hs.
    destruct (parse_command limits s) as [[[c' n']|]|e] eqn:E; cbn in Hs.
    + rewrite Hp in Hs. injection Hs as <- <-. pose proof (parse_command_spec _ _ _ _ E) as [Hn _].
      destruct (IH (drop n s) t) as (cs1 & cs2 & s1 & -> & H1 & H2); [by rewrite drop_app_le by lia|].
      exists (c :: cs1), cs2, s1. split; [done|]. split; [by eapply decoded_next|done].
    + exists [], (c :: cs), s. split; [done|]. split; [by apply decoded_stop|by eapply decoded_next].
    + congruence.
Qed.

(** The loop of [feed] decodes the buffer, for any fuel above its length. *)
Lemma feed_loop_decoded fuel : forall d,
  (length (buffer_ d) < fuel)%nat ->
  match feed_loop fuel d with
  | (Ok cs, d') => decoded (limits_ d) (buffer_ d) cs (buffer_ d') /\ limits_ d' = limits_ d
  | (Throw _, _) => ~ exists cs s', decoded (limits_ d) (buffer_ d) cs s'
  end.
Proof.
  induction fuel as [|fuel IH]; intros d Hf; [lia|]. cbn [feed_loop]. run_m.
  destruct (parse_command (limits_ d) (buffer_ d)) as [[[c n]|]|e] eqn:E.
  - pose proof (parse_command_spec _ _ _ _ E) as [Hn _].
    specialize (IH (d <| buffer_ := drop n (buffer_ d) |>)). cbn in IH.
    rewrite length_drop in IH. specialize (IH ltac:(lia)).
    destruct (feed_loop fuel _) as [[cs|e] d'].
    + destruct IH as [Hd Hl]. split; [by eapply decoded_next|done].
    + intros (cs & s' & Hd). apply IH. inversion Hd as [? Hp|? c' n' ds ? Hp Hd']; [congruence|].
      rewrite E in Hp. injection Hp as <- <-. eauto.
  - split; [by apply decoded_stop|done].
  - intros (cs & s' & Hd). inversion Hd; congruence.
Qed.

(** ** The decoder, fed in pieces *)

(** What every decoder keeps to. *)
Record decoder_ok (d : RespDecoder) : Prop := {
  ok_limit : 0 <= max_buffer_bytes (limits_ d) < u64_max;
  ok_buffer : zlen (buffer_ d) <= max_buffer_bytes (limits_ d);
}.

Lemma decoded_length limits s cs s' : decoded limits s cs s' -> zlen s' <= zlen s.
Proof.
  intros H. induction H as [|s c n cs s' Hp _ IH]; [done|]. rewrite zlen_drop in IH.
  pose proof (zlen_nonneg s). lia.
Qed.

Lemma decoded_limits limits s cs s' :
  decoded limits s cs s' ->
  Forall (fun c => zlen (arguments c) <= max_array_elements limits /\
    Forall (fun x => zlen x <= max_bulk_string_bytes limits) (arguments c)) cs.
Proof.
  intros H. induction H as [|s c n cs s' Hp _ IH]; [done|].
  constructor; [|done]. by apply parse_command_spec in Hp as [_ ?].
Qed.

Lemma feed_spec bytes d :
  decoder_ok d ->
  match feed bytes d with
  | (Ok cs, d') => decoded (limits_ d) (buffer_ d ++ bytes) cs (buffer_ d') /\
      limits_ d' = limits_ d /\ decoder_ok d'
  | (Throw _, _) =>
      max_buffer_bytes (limits_ d) < zlen (buffer_ d) + zlen bytes \/
      ~ exists cs s', decoded (limits_ d) (buffer_ d ++ bytes) cs s'
  end.
Proof.
  intros [Hl Hb]. unfold feed. run_m. pose proof (zlen_nonneg (buffer_ d)).
  rewrite u64_small by (unfold_words; lia).
  destruct (_ >? _) eqn:E; guards; [left; lia|].
  pose proof (feed_loop_decoded (S (length (buffer_ (d <| buffer_ := buffer_ d ++ bytes |>))))
    (d <| buffer_ := buffer_ d ++ bytes |>) ltac:(lia)) as H1.
  destruct (feed_loop _ _) as [[cs|e] d']; [|by right].
  destruct H1 as [Hd Hl']. cbn in Hd, Hl'. split; [done|]. split; [done|].
  apply decoded_length in Hd. rewrite zlen_app in Hd. split; rewrite Hl'; [done|lia].
Qed.

(** The decoder throws nothing but [RespProtocolError]. *)
Definition protocol {A} (r : result A) : Prop :=
  match r with Throw e => exists what, e = RespProtocolError what | Ok _ => True end.

Lemma protocol_bind {A B} (r : result A) (f : A -> result B) :
  protocol r -> (forall a, protocol (f a)) -> protocol (r ≫= f).
Proof. destruct r; cbn; auto. Qed.

Lemma parse_size_protocol value field : protocol (parse_size value field).
Proof. unfold parse_size. repeat case_match; cbn; eauto. Qed.

Lemma parse_arguments_protocol limits count : forall rest args,
  protocol (parse_arguments limits count rest args).
Proof.
  induction count as [|count IH]; intros rest args; [done|]. cbn [parse_arguments].
  destruct rest as [|c rest]; [done|]. case_decide; [cbn; eauto|].
  destruct (read_line rest) as [[line rest']|]; [|done].
  apply protocol_bind; [apply parse_size_protocol|]. intros n.
  repeat (case_match; try done; try (cbn; by eauto)).
Qed.

Lemma parse_command_protocol limits s : protocol (parse_command limits s).
Proof.
  unfold parse_command. destruct s as [|c rest]; [done|]. case_decide; [cbn; eauto|].
  destruct (read_line rest) as [[line rest']|]; [|done].
  apply protocol_bind; [apply parse_size_protocol|]. intros n. case_match; [cbn; eauto|].
  apply protocol_bind; [apply parse_arguments_protocol|]. by intros [[]|].
Qed.

Lemma feed_loop_protocol fuel : forall d, protocol (fst (feed_loop fuel d)).
Proof.
  induction fuel as [|fuel IH]; intros d; [done|]. cbn [feed_loop]. run_m.
  pose proof (parse_command_protocol (limits_ d) (buffer_ d)) as Hp.
  destruct (parse_command _ _) as [[[c n]|]|e]; [|done|done].
  specialize (IH (d <| buffer_ := drop n (buffer_ d) |>)). by destruct (feed_loop fuel _) as [[] ?].
Qed.

Lemma feed_protocol bytes d : protocol (fst (feed bytes d)).
Proof. unfold feed. run_m. case_match; [cbn; eauto|]. apply feed_loop_protocol. Qed.

(** Feeding one piece after the other. *)
Fixpoint feeds (pieces : list bytes) : M RespDecoder (list RespCommand) :=
  match pieces with
  | [] => mret []
  | piece :: pieces' =>
      commands ← feed piece;
      more ← feeds pieces';
      mret (commands ++ more)
  end.

Lemma feeds_spec pieces : forall d cs d',
  decoder_ok d -> decoded (limits_ d) (buffer_ d) [] (buffer_ d) ->
  feeds pieces d = (Ok cs, d') ->
  decoded (limits_ d) (buffer_ d ++ concat pieces) cs (buffer_ d') /\ decoder_ok d' /\
  limits_ d' = limits_ d.
Proof.
  induction pieces as [|p pieces IH]; intros d cs d' Hok Hd H; cbn [feeds concat] in *.
  { injection H as <- <-. by rewrite app_nil_r. }
  revert H. run_m. pose proof (feed_spec p d Hok) as Hp.
  destruct (feed p d) as [[cs1|e] d1]; [|done]. destruct Hp as (Hp & Hl & Hok1).
  assert (decoded (limits_ d1) (buffer_ d1) [] (buffer_ d1)) as Hd1.
  { rewrite Hl. clear -Hp. induction Hp; [by apply decoded_stop|done]. }
  destruct (feeds pieces d1) as [[cs2|e] d2] eqn:E; [|done]. intros [= <- <-].
  destruct (IH d1 cs2 d2 Hok1 Hd1 E) as (H2 & Hok2 & Hl2). split_and!; [|done|congruence].
  rewrite app_assoc. rewrite Hl in H2. by eapply decoded_app.
Qed.

Lemma decoded_nil limits : decoded limits [] [] [].
Proof. by apply decoded_stop. Qed.


(** ** Requests *)

(** The array of bulk strings a client sends. *)
Definition request (c : RespCommand) : bytes :=
  Byte.x2a :: to_string (zlen (arguments c)) ++ crlf ++ concat (encode_bulk_string <$> arguments c).

Definition within (limits : RespLimits) (c : RespCommand) : Prop :=
  zlen (arguments c) <= max_array_elements limits /\
  Forall (fun x => zlen x <= max_bulk_string_bytes limits) (arguments c) /\
  zlen (arguments c) < u64_max /\ Forall (fun x => zlen x < u64_max) (arguments c).

Lemma to_string_line n : 0 <= n -> Forall (fun b => b <> cr) (to_string n) /\ to_string n <> [].
Proof.
  intros Hn. unfold to_string. rewrite (proj2 (Z.ltb_ge _ _)) by lia. split.
  - apply digits_clean; [|done]. intros d Hd E. apply (f_equal b2z) in E.
    unfold digit_char in E. rewrite b2z_z2b, Z.mod_small in E by lia. cbn in E. lia.
  - intros E. pose proof (digits_starts 20 n [] ltac:(lia)) as Hs. by rewrite E in Hs.
Qed.

Lemma parse_size_to_string n field : 0 <= n < u64_max -> parse_size (to_string n) field = Ok n.
Proof.
  intros Hn. unfold parse_size. rewrite decide_False by apply to_string_line, Hn.
  by rewrite parse_to_string.
Qed.

Lemma parse_arguments_request limits xs : forall args rest,
  Forall (fun x => zlen x <= max_bulk_string_bytes limits) xs ->
  Forall (fun x => zlen x < u64_max) xs ->
  parse_arguments limits (length xs) (concat (encode_bulk_string <$> xs) ++ rest) args =
    Ok (Some (args ++ xs, rest)).
Proof.
  induction xs as [|x xs IH]; intros args rest Hl Hu; [by rewrite app_nil_r|].
  apply Forall_cons_iff in Hl as [Hx Hl], Hu as [Hxu Hu]. pose proof (zlen_nonneg x).
  cbn [length fmap list_fmap concat]. unfold encode_bulk_string at 1.
  cbn [app parse_arguments]. rewrite decide_False by tauto.
  rewrite <- !app_assoc, read_line_line by (by apply to_string_line).
  rewrite parse_size_to_string by done. cbn. rewrite zlen_app.
  set (more := cr :: lf :: _). assert (2 <= zlen more).
  { unfold more. rewrite !zlen_cons. pose proof (zlen_nonneg (concat (encode_bulk_string <$> xs) ++ rest)). lia. }
  rewrite !Z.gtb_ltb, !(proj2 (Z.ltb_ge _ _)) by lia.
  rewrite to_nat_zlen, take_app_length, drop_app_length. cbn [take drop more].
  rewrite take_0, drop_0, decide_False by tauto. rewrite IH by done.
  by rewrite <- app_assoc.
Qed.

Lemma parse_request limits c t :
  within limits c -> parse_command limits (request c ++ t) = Ok (Some (c, length (request c))).
Proof.
  intros (Ha & Hb & Hu & Hub). pose proof (zlen_nonneg (arguments c)).
  unfold parse_command, request. cbn [app]. rewrite decide_False by tauto.
  rewrite <- !app_assoc, read_line_line by (by apply to_string_line).
  rewrite parse_size_to_string by done. cbn. rewrite Z.gtb_ltb, (proj2 (Z.ltb_ge _ _)) by lia.
  rewrite to_nat_zlen, parse_arguments_request by done. cbn.
  destruct c as [args]. cbn [arguments]. do 3 f_equal. rewrite !length_app. cbn. rewrite length_app. lia.
Qed.

Lemma decoded_requests limits cs :
  Forall (within limits) cs -> decoded limits (concat (request <$> cs)) cs [].
Proof.
  induction 1 as [|c cs Hc _ IH]; [apply decoded_nil|]. cbn [fmap list_fmap concat].
  eapply decoded_next; [by apply parse_request|]. by rewrite drop_app_length.
Qed.

Lemma feeds_total pieces : forall d cs s',
  decoder_ok d -> decoded (limits_ d) (buffer_ d ++ concat pieces) cs s' ->
  zlen (buffer_ d) + zlen (concat pieces) <= max_buffer_bytes (limits_ d) ->
  decoded (limits_ d) (buffer_ d) [] (buffer_ d) ->
  exists d', feeds pieces d = (Ok cs, d') /\ buffer_ d' = s' /\ limits_ d' = limits_ d.
Proof.
  induction pieces as [|p pieces IH]; intros d cs s' Hok Hd Hb H0; cbn [feeds concat] in *.
  { rewrite app_nil_r in Hd. destruct (decoded_fun _ _ _ _ _ _ H0 Hd) as [<- <-]. by exists d. }
  rewrite app_assoc in Hd. rewrite zlen_app in Hb. pose proof (zlen_nonneg (concat pieces)).
  destruct (decoded_prefix _ _ _ _ Hd _ _ eq_refl) as (cs1 & cs2 & s1 & -> & H1 & H2).
  run_m. pose proof (feed_spec p d Hok) as Hp. destruct (feed p d) as [[cs1'|e] d1].
  2:{ destruct Hp as [?|Hno]; [lia|]. exfalso. eauto. }
  destruct Hp as (Hp & Hl & Hok1). destruct (decoded_fun _ _ _ _ _ _ Hp H1) as [-> E1].
  assert (zlen (buffer_ d1) <= zlen (buffer_ d) + zlen p) as Hlen.
  { apply decoded_length in Hp. by rewrite zlen_app in Hp. }
  destruct (IH d1 cs2 s') as (d2 & E2 & Eb & El); rewrite ?Hl, ?E1; try done.
  - rewrite <- E1. lia.
  - clear -H1. induction H1; [by apply decoded_stop|done].
  - rewrite E2. exists d2. split_and!; [done..|congruence].
Qed.

(** C34: requests round trip.  A stream of requests within the limits, cut into
    reads in any way, is decoded without error into exactly those commands, and
    nothing is left in the buffer. *)
Theorem requests_round_trip limits cs pieces :
  0 <= max_buffer_bytes limits < u64_max -> Forall (within limits) cs ->
  concat pieces = concat (request <$> cs) ->
  zlen (concat pieces) <= max_buffer_bytes limits ->
  feeds pieces (create limits) = (Ok cs, create limits).
Proof.
  intros Hl Hw He Hb. destruct (feeds_total pieces (create limits) cs []) as (d' & -> & E1 & E2).
  - split; cbn; unfold zlen; cbn; lia.
  - cbn. rewrite He. by apply decoded_requests.
  - cbn. unfold zlen at 1. cbn. lia.
  - apply decoded_nil.
  - destruct d'. cbn in *. by subst.
Qed.

Definition demo_commands : list RespCommand :=
  [MkCommand [str "SET"; str "k"; crlf]; MkCommand [str "GET"; str "k"]].

Definition demo_pieces (n : nat) : list bytes :=
  [take n (concat (request <$> demo_commands)); drop n (concat (request <$> demo_commands))].

Lemma requests_round_trip_witness :
  feeds (demo_pieces 17) (create default_limits) = (Ok demo_commands, create default_limits).
Proof.
  apply requests_round_trip; [done| |by vm_compute|by vm_compute].
  repeat constructor; done.
Defined.

