(* ===== verification/Msgpack.v ===== *)
(** * The serialization library, as an interface

    The program serializes with msgpack-cxx, which is not part of the
    repository.  [MsgPack A] is what a caller sees of it for one C++ type:
    [pack] is [msgpack::pack] into a buffer and [unpack] is [msgpack::unpack]
    followed by [convert], which throws on malformed input.  [MsgPackLaws] is
    the documented behaviour the program relies on: a value within the ranges
    of its C++ type survives the round trip, and an encoding is never empty.

    [Bits] is a concrete implementation of the interface, built from the bits
    of a countable type; the witnesses of the development run on it. *)

From S2P Require Import Prelude.

(** The values of a model type that the C++ type has. *)
Class Typed (A : Type) : Type := typed : A -> Prop.

Class MsgPack (A : Type) : Type := {
  pack : A -> bytes;
  unpack : bytes -> result A;
}.

Class MsgPackLaws (A : Type) `{MsgPack A, Typed A} : Prop := {
  unpack_pack (a : A) : typed a -> unpack (pack a) = Ok a;
  pack_nonempty (a : A) : pack a <> [];
}.

Lemma pack_inj `{MsgPackLaws A} (a b : A) :
  typed a -> typed b -> pack a = pack b -> a = b.
Proof.
  intros Ha Hb He. apply (f_equal unpack) in He.
  rewrite !unpack_pack in He by done. congruence.
Qed.

Module Bits.

(** One byte per bit, the last byte marking the top of the number. *)
Fixpoint to_bytes (p : positive) : bytes :=
  match p with
  | xO q => Byte.x00 :: to_bytes q
  | xI q => Byte.x01 :: to_bytes q
  | xH => [Byte.x02]
  end.

Fixpoint of_bytes (l : bytes) : option positive :=
  match l with
  | Byte.x00 :: l' => xO <$> of_bytes l'
  | Byte.x01 :: l' => xI <$> of_bytes l'
  | [Byte.x02] => Some xH
  | _ => None
  end.

Lemma of_to_bytes p : of_bytes (to_bytes p) = Some p.
Proof. induction p as [p IH|p IH|]; cbn; rewrite ?IH; done. Qed.

Definition msgpack (A : Type) `{Countable A} : MsgPack A := {|
  pack a := to_bytes (encode a);
  unpack l := match of_bytes l ≫= decode with Some a => Ok a | None => Throw type_error end;
|}.

Lemma msgpack_laws (A : Type) `{Countable A, Typed A} :
  @MsgPackLaws A (msgpack A) _.
Proof.
  split.
  - intros a _. cbn. rewrite of_to_bytes. cbn. by rewrite decode_encode.
  - intros a. cbn. by destruct (encode a).
Qed.

End Bits.
