(* ===== verification/Proto.v ===== *)
(** * The data the program stores and sends

    [src/raft/proto.h] ([Entry], [Message]), [src/wal/proto.h]
    ([HardStateProto], [SnapshotMeta], [RecordHeader]) and
    [src/raft/config.h] ([Config]), with the header codec of the WAL. *)

From S2P Require Import Prelude Msgpack.

Module Entry.

Definition EntryNormal : Z := 0.
Definition EntryConfChange : Z := 1.

Record t : Type := mk {
  type : Z;
  term : Z;
  index : Z;
  data : bytes;
}.

#[global] Instance eq_dec : EqDecision t.
Proof. solve_decision. Defined.

#[global] Program Instance countable : Countable t :=
  inj_countable' (fun e => (type e, term e, index e, data e))
    (fun '(a, b, c, d) => mk a b c d) _.
Next Obligation. by intros []. Qed.

#[global] Instance typed : Typed t := fun e =>
  is_u8 (type e) /\ is_u64 (term e) /\ is_u64 (index e).

End Entry.

Module Message.

Definition MsgRequestVote : Z := 0.
Definition MsgRequestVoteResponse : Z := 1.
Definition MsgAppendEntries : Z := 2.
Definition MsgAppendEntriesResponse : Z := 3.
Definition MsgPreVote : Z := 4.
Definition MsgPreVoteResponse : Z := 5.
Definition MsgInstallSnapshot : Z := 6.
Definition MsgInstallSnapshotResponse : Z := 7.

Record t : Type := mk {
  type : Z;
  from : Z;
  to : Z;
  term : Z;
  last_log_index : Z;
  last_log_term : Z;
  vote_granted : bool;
  prev_log_index : Z;
  prev_log_term : Z;
  entries : list Entry.t;
  leader_commit : Z;
  success : bool;
  match_index : Z;
  snapshot_index : Z;
  snapshot_term : Z;
  snapshot_data : bytes;
  read_context : Z;
  pre_vote_term : Z;
}.

(** The default constructor. *)
Definition default : t :=
  mk MsgRequestVote 0 0 0 0 0 false 0 0 [] 0 false 0 0 0 [] 0 0.

Definition eta (m : t) : t :=
  mk (type m) (from m) (to m) (term m) (last_log_index m) (last_log_term m)
    (vote_granted m) (prev_log_index m) (prev_log_term m) (entries m)
    (leader_commit m) (success m) (match_index m) (snapshot_index m)
    (snapshot_term m) (snapshot_data m) (read_context m) (pre_vote_term m).

#[global] Instance set_type : Setter type := ltac:(setter eta type).
#[global] Instance set_from : Setter from := ltac:(setter eta from).
#[global] Instance set_to : Setter to := ltac:(setter eta to).
#[global] Instance set_term : Setter term := ltac:(setter eta term).
#[global] Instance set_last_log_index : Setter last_log_index := ltac:(setter eta last_log_index).
#[global] Instance set_last_log_term : Setter last_log_term := ltac:(setter eta last_log_term).
#[global] Instance set_vote_granted : Setter vote_granted := ltac:(setter eta vote_granted).
#[global] Instance set_prev_log_index : Setter prev_log_index := ltac:(setter eta prev_log_index).
#[global] Instance set_prev_log_term : Setter prev_log_term := ltac:(setter eta prev_log_term).
#[global] Instance set_entries : Setter entries := ltac:(setter eta entries).
#[global] Instance set_leader_commit : Setter leader_commit := ltac:(setter eta leader_commit).
#[global] Instance set_success : Setter success := ltac:(setter eta success).
#[global] Instance set_match_index : Setter match_index := ltac:(setter eta match_index).
#[global] Instance set_snapshot_index : Setter snapshot_index := ltac:(setter eta snapshot_index).
#[global] Instance set_snapshot_term : Setter snapshot_term := ltac:(setter eta snapshot_term).
#[global] Instance set_snapshot_data : Setter snapshot_data := ltac:(setter eta snapshot_data).
#[global] Instance set_read_context : Setter read_context := ltac:(setter eta read_context).
#[global] Instance set_pre_vote_term : Setter pre_vote_term := ltac:(setter eta pre_vote_term).

#[global] Instance eq_dec : EqDecision t.
Proof. solve_decision. Defined.

Definition to_fields (m : t) : list positive :=
       [encode (type m); encode (from m); encode (to m); encode (term m); encode
        (last_log_index m); encode (last_log_term m); encode (vote_granted m); encode
        (prev_log_index m); encode (prev_log_term m); encode (entries m); encode
        (leader_commit m); encode (success m); encode (match_index m); encode
        (snapshot_index m); encode (snapshot_term m); encode (snapshot_data m); encode
        (read_context m); encode (pre_vote_term m)].

Definition of_fields (l : list positive) : option t :=
  match l with
  | [a; b; c; d; e; f; g; h; i; j; k; l; n; o; p; q; r; s] =>
      a ← decode a; b ← decode b; c ← decode c; d ← decode d; e ← decode e; f ← decode f;
      g ← decode g; h ← decode h; i ← decode i; j ← decode j; k ← decode k; l ← decode l;
      n ← decode n; o ← decode o; p ← decode p; q ← decode q; r ← decode r; s ← decode s;
      Some (mk a b c d e f g h i j k l n o p q r s)
  | _ => None
  end.

Lemma of_to_fields m : of_fields (to_fields m) = Some m.
Proof.
  destruct m. unfold of_fields, to_fields.
  repeat (rewrite decode_encode; cbv beta iota delta [mbind option_bind]). done.
Qed.

#[global] Instance countable : Countable t := inj_countable to_fields of_fields of_to_fields.

#[global] Instance typed : Typed t := fun m =>
  is_u8 (type m) /\ is_u64 (from m) /\ is_u64 (to m) /\ is_u64 (term m) /\
  is_u64 (last_log_index m) /\ is_u64 (last_log_term m) /\
  is_u64 (prev_log_index m) /\ is_u64 (prev_log_term m) /\
  Forall Entry.typed (entries m) /\ is_u64 (leader_commit m) /\
  is_u64 (match_index m) /\ is_u64 (snapshot_index m) /\
  is_u64 (snapshot_term m) /\ is_u64 (read_context m) /\ is_u64 (pre_vote_term m).

End Message.

Module HardStateProto.

Record t : Type := mk { term : Z; vote : Z; commit : Z }.

Definition default : t := mk 0 0 0.

Definition is_empty (hs : t) : bool :=
  (term hs =? 0) && (vote hs =? 0) && (commit hs =? 0).

#[global] Instance eq_dec : EqDecision t.
Proof. solve_decision. Defined.

#[global] Program Instance countable : Countable t :=
  inj_countable' (fun h => (term h, vote h, commit h)) (fun '(a, b, c) => mk a b c) _.
Next Obligation. by intros []. Qed.

#[global] Instance typed : Typed t := fun h =>
  is_u64 (term h) /\ is_u64 (vote h) /\ is_u64 (commit h).

End HardStateProto.

Module SnapshotMeta.

Record t : Type := mk { index : Z; term : Z; state : bytes; discard_suffix : bool }.

Definition default : t := mk 0 0 [] false.

Definition is_empty (snap : t) : bool :=
  (index snap =? 0) && (term snap =? 0) && bool_decide (state snap = []).

#[global] Instance eq_dec : EqDecision t.
Proof. solve_decision. Defined.

#[global] Program Instance countable : Countable t :=
  inj_countable' (fun s => (index s, term s, state s, discard_suffix s))
    (fun '(a, b, c, d) => mk a b c d) _.
Next Obligation. by intros []. Qed.

#[global] Instance typed : Typed t := fun s => is_u64 (index s) /\ is_u64 (term s).

End SnapshotMeta.

(** The record types of the WAL; [Invalid] and [CRCRecord] are never written. *)
Module RecordType.

Definition Invalid : Z := 0.
Definition Entry : Z := 1.
Definition HardState : Z := 2.
Definition CRCRecord : Z := 3.
Definition Snapshot : Z := 4.

End RecordType.

Module RecordHeader.

Record t : Type := mk { type : Z; len : Z; crc : Z }.

#[global] Instance eq_dec : EqDecision t.
Proof. solve_decision. Defined.

(** [[type:1B][len:3B][crc:4B]], little-endian. *)
Definition encode (h : t) : bytes :=
  [z2b (type h);
   z2b (Z.land (len h) 0xff);
   z2b (Z.land (Z.shiftr (len h) 8) 0xff);
   z2b (Z.land (Z.shiftr (len h) 16) 0xff);
   z2b (Z.land (crc h) 0xff);
   z2b (Z.land (Z.shiftr (crc h) 8) 0xff);
   z2b (Z.land (Z.shiftr (crc h) 16) 0xff);
   z2b (Z.land (Z.shiftr (crc h) 24) 0xff)].

(** [data[i]] of the eight bytes the caller has checked to be there. *)
Definition at_ (data : bytes) (i : nat) : Z := b2z (nth i data Byte.x00).

Definition decode (data : bytes) : t :=
  mk (at_ data 0)
     (Z.lor (Z.lor (at_ data 1) (u32 (Z.shiftl (at_ data 2) 8)))
        (u32 (Z.shiftl (at_ data 3) 16)))
     (Z.lor (Z.lor (Z.lor (at_ data 4) (u32 (Z.shiftl (at_ data 5) 8)))
        (u32 (Z.shiftl (at_ data 6) 16))) (u32 (Z.shiftl (at_ data 7) 24))).

Definition valid (h : t) : Prop :=
  is_u8 (type h) /\ 0 <= len h < 2 ^ 24 /\ is_u32 (crc h).

Lemma encode_length h : length (encode h) = 8%nat.
Proof. done. Qed.

Lemma low_byte x : b2z (z2b (Z.land x 0xff)) = x `mod` 256.
Proof.
  rewrite b2z_z2b. change 0xff with (Z.ones 8). rewrite Z.land_ones by lia.
  apply Z.mod_mod. lia.
Qed.

(** Little-endian bytes put together again. *)
Lemma le3 a b c :
  0 <= a < 256 -> 0 <= b < 256 -> 0 <= c < 256 ->
  Z.lor (Z.lor a (u32 (Z.shiftl b 8))) (u32 (Z.shiftl c 16)) = a + b * 256 + c * 65536.
Proof.
  intros Ha Hb Hc. rewrite !u32_small by (rewrite Z.shiftl_mul_pow2; unfold_words; lia).
  rewrite (lor_shiftl_add a b 8), (lor_shiftl_add _ c 16) by lia. lia.
Qed.

Lemma le4 a b c d :
  0 <= a < 256 -> 0 <= b < 256 -> 0 <= c < 256 -> 0 <= d < 256 ->
  Z.lor (Z.lor (Z.lor a (u32 (Z.shiftl b 8))) (u32 (Z.shiftl c 16)))
    (u32 (Z.shiftl d 24)) = a + b * 256 + c * 65536 + d * 16777216.
Proof.
  intros Ha Hb Hc Hd. rewrite le3 by done.
  rewrite u32_small by (rewrite Z.shiftl_mul_pow2; unfold_words; lia).
  rewrite lor_shiftl_add by lia. lia.
Qed.

Lemma decode_encode h rest : valid h -> decode (encode h ++ rest) = h.
Proof.
  intros (Ht & Hl & Hc). destruct h as [ty ln cr]. cbn in Ht, Hl, Hc.
  unfold decode, encode, at_. cbn [app nth type len crc].
  rewrite !low_byte, b2z_z2b. rewrite le3, le4 by (apply Z.mod_pos_bound; lia).
  rewrite !Z.shiftr_div_pow2 by lia. unfold_words.
  change (2 ^ 8) with 256. change (2 ^ 16) with 65536. change (2 ^ 24) with 16777216.
  change (2 ^ 32) with 4294967296 in Hc.
  f_equal; Z.div_mod_to_equations; lia.
Qed.

End RecordHeader.

(** Serialization of everything the WAL stores. *)
Class WalPack : Type := {
  entry_pack :: MsgPack Entry.t;
  hard_state_pack :: MsgPack HardStateProto.t;
  snapshot_pack :: MsgPack SnapshotMeta.t;
}.

Class WalPackLaws {WP : WalPack} : Prop := {
  entry_pack_laws :: MsgPackLaws Entry.t;
  hard_state_pack_laws :: MsgPackLaws HardStateProto.t;
  snapshot_pack_laws :: MsgPackLaws SnapshotMeta.t;
}.

Definition bits_wal_pack : WalPack := {|
  entry_pack := Bits.msgpack Entry.t;
  hard_state_pack := Bits.msgpack HardStateProto.t;
  snapshot_pack := Bits.msgpack SnapshotMeta.t;
|}.

Lemma bits_wal_pack_laws : @WalPackLaws bits_wal_pack.
Proof. split; apply Bits.msgpack_laws. Qed.

Module Config.

Record t : Type := mk {
  id : Z;
  peers : list Z;
  election_tick : Z;
  heartbeat_tick : Z;
  snapshot_threshold : Z;
  random_seed : Z;
}.

Definition default : t := mk 0 [] 10 1 100 0.

End Config.
