(* ===== verification/Transport.v ===== *)
(** * Messages between members ([src/transport/proto.h], the codec of
      [peer.cpp] and the connections of [server.cpp])

    A frame is a five-byte header and a msgpack payload.  [Connection] is the
    receiving end of one TCP connection: it always waits for an exact number
    of bytes, so its state has the read that is pending and the bytes the
    socket holds.  The theorems show that what was framed is what is
    dispatched, however the network cuts the stream, and that nothing else
    is. *)

From S2P Require Import Prelude ByteBuffer Msgpack Proto.

Module Transport.

Definition TransportTypeStream : Z := 1.
Definition kHeaderSize : Z := 5.
Definition kMaxPayloadSize : Z := 64 * 1024 * 1024.

Record Header : Type := MkHeader { type : Z; payload_size : Z }.

(** ** The header *)

Definition check_size (payload_size : Z) : result unit :=
  if payload_size =? 0
  then Throw (invalid_argument "transport message payload cannot be empty") else
  if payload_size >? kMaxPayloadSize
  then Throw (length_error "transport frame exceeds payload limit") else Ok tt.

Definition encode_header (type payload_size : Z) : result bytes :=
  if negb (type =? TransportTypeStream)
  then Throw (invalid_argument "unsupported transport frame type") else
  match check_size payload_size with
  | Throw e => Throw e
  | Ok _ =>
      Ok [z2b type; z2b (u8 (Z.shiftr payload_size 24)); z2b (u8 (Z.shiftr payload_size 16));
          z2b (u8 (Z.shiftr payload_size 8)); z2b (u8 payload_size)]
  end.

(** A null pointer is an empty range: both are too short. *)
Definition decode_header (bytes : bytes) : result Header :=
  match bytes with
  | b0 :: b1 :: b2 :: b3 :: b4 :: _ =>
      if negb (b2z b0 =? TransportTypeStream)
      then Throw (invalid_argument "unsupported transport frame type") else
      let payload_size :=
        Z.lor (Z.lor (Z.lor (u32 (Z.shiftl (b2z b1) 24)) (u32 (Z.shiftl (b2z b2) 16)))
          (u32 (Z.shiftl (b2z b3) 8))) (b2z b4) in
      match check_size payload_size with
      | Throw e => Throw e
      | Ok _ => Ok (MkHeader (b2z b0) payload_size)
      end
  | _ => Throw (invalid_argument "incomplete transport header")
  end.

(** ** Addresses *)

Record AddressParts : Type := MkAddress { host : bytes; service : bytes }.

(** [find] and [rfind] of one character. *)
Definition find_char (b : byte) (s : bytes) : option nat := fst <$> list_find (b =.) s.

Definition rfind_char (b : byte) (s : bytes) : option nat :=
  (fun i => (length s - 1 - i)%nat) <$> find_char b (reverse s).

Definition colon : byte := Byte.x3a.
Definition open_bracket : byte := Byte.x5b.
Definition close_bracket : byte := Byte.x5d.

(** [peer.cpp] and [server.cpp] have a copy each, which differ in what the
    exceptions say. *)
Definition split_address (who : string) (address : bytes) : result AddressParts :=
  match address with
  | [] => Throw (invalid_argument (who ++ " address is empty"))
  | front :: _ =>
      if decide (front = open_bracket) then
        match find_char close_bracket address with
        | None => Throw (invalid_argument ("invalid bracketed " ++ who ++ " address"))
        | Some bracket =>
            if (length address <=? bracket + 1)%nat ||
               negb (bool_decide (address !! (bracket + 1)%nat = Some colon))
            then Throw (invalid_argument ("invalid bracketed " ++ who ++ " address")) else
            let host := take (bracket - 1) (drop 1 address) in
            let service := drop (bracket + 2) address in
            if bool_decide (host = []) || bool_decide (service = [])
            then Throw (invalid_argument (who ++ " address requires host and port"))
            else Ok (MkAddress host service)
        end
      else
        match rfind_char colon address with
        | None => Throw (invalid_argument (who ++ " address must be host:port"))
        | Some separator =>
            if (separator =? 0)%nat || (separator + 1 =? length address)%nat
            then Throw (invalid_argument (who ++ " address must be host:port"))
            else Ok (MkAddress (take separator address) (drop (separator + 1) address))
        end
  end.

Definition peer_split_address : bytes -> result AddressParts := split_address "peer".
Definition server_split_address : bytes -> result AddressParts := split_address "server".

Section Frames.
Context {MP : MsgPack Message.t}.

(** ** The sender's frame *)

Definition encode_message (message : Message.t) : result bytes :=
  let payload := pack message in
  if zlen payload >? kMaxPayloadSize
  then Throw (length_error "serialized message exceeds transport limit") else
  match encode_header TransportTypeStream (u32 (zlen payload)),
        ByteBuffer.create (kHeaderSize + kMaxPayloadSize) with
  | Throw e, _ => Throw e
  | _, Throw e => Throw e
  | Ok header, Ok frame =>
      match (ByteBuffer.append (Some header) (zlen header) ;;
             ByteBuffer.append (Some payload) (zlen payload)) frame with
      | (Throw e, _) => Throw e
      | (Ok _, frame) =>
          Ok (take (Z.to_nat (ByteBuffer.readable_bytes frame)) (default [] (ByteBuffer.data frame)))
      end
  end.

Fixpoint encode_messages (messages : list Message.t) : result bytes :=
  match messages with
  | [] => Ok []
  | m :: rest =>
      match encode_message m, encode_messages rest with
      | Ok a, Ok b => Ok (a ++ b)
      | Throw e, _ | _, Throw e => Throw e
      end
  end.

(** ** The receiver *)

(** The read that is pending. *)
Inductive pending_read : Type :=
| NoRead
| ReadHeader
| ReadPayload (size : nat).

Record Connection : Type := MkConnection {
  reading : pending_read;
  stopped : bool;
  owner : bool;  (* whether the server still exists *)
  input : bytes;  (* received by the socket, not yet read *)
  dispatched : list Message.t;  (* handed to the server's handler *)
}.

Definition eta (c : Connection) : Connection :=
  MkConnection (reading c) (stopped c) (owner c) (input c) (dispatched c).
#[global] Instance set_reading : Setter reading := ltac:(setter eta reading).
#[global] Instance set_stopped : Setter stopped := ltac:(setter eta stopped).
#[global] Instance set_owner : Setter owner := ltac:(setter eta owner).
#[global] Instance set_input : Setter input := ltac:(setter eta input).
#[global] Instance set_dispatched : Setter dispatched := ltac:(setter eta dispatched).

(** [Server::Impl::dispatch]. *)
Definition dispatch (message : Message.t) : M Connection bool :=
  let ty := Message.type message in
  if decide (ty = Message.MsgRequestVote \/ ty = Message.MsgRequestVoteResponse \/
             ty = Message.MsgAppendEntries \/ ty = Message.MsgAppendEntriesResponse \/
             ty = Message.MsgPreVote \/ ty = Message.MsgPreVoteResponse \/
             ty = Message.MsgInstallSnapshot \/ ty = Message.MsgInstallSnapshotResponse)
  then c ← get; dispatched <~ dispatched c ++ [message] ;; mret true
  else mret false.

Definition stop : M Connection unit :=
  c ← get;
  if stopped c then mret tt else stopped <~ true.

(** [remove_connection] drops the server's reference. *)
Definition finish : M Connection unit :=
  c ← get;
  if stopped c then mret tt else stop.

Definition read_header : M Connection unit :=
  c ← get;
  if stopped c then mret tt else reading <~ ReadHeader.

Definition decode_and_dispatch (payload : bytes) : M Connection unit :=
  match unpack payload with
  | Throw _ => finish
  | Ok message =>
      c ← get;
      if negb (owner c) then finish else
      accepted ← dispatch message;
      if negb (accepted : bool) then finish else read_header
  end.

(** A read on a socket that [stop] has closed fails, and [finish] then does
    nothing. *)
Definition read_payload (size : nat) : M Connection unit :=
  if (size =? 0)%nat then decode_and_dispatch [] else
  c ← get;
  when (negb (stopped c)) (reading <~ ReadPayload size).

(** The completion of the read of a header. *)
Definition on_header (header_bytes : bytes) : M Connection unit :=
  match decode_header header_bytes with
  | Throw _ => finish
  | Ok header => read_payload (Z.to_nat (payload_size header))
  end.

(** A read completes once the socket has all its bytes; one that had them when
    the connection was stopped still completes. *)
Definition complete (c : Connection) : option Connection :=
  match reading c with
  | NoRead => None
  | ReadHeader =>
      if (length (input c) <? 5)%nat then None else
      Some (snd (on_header (take 5 (input c)) (c <| input := drop 5 (input c) |> <| reading := NoRead |>)))
  | ReadPayload size =>
      if (length (input c) <? size)%nat then None else
      Some (snd (decode_and_dispatch (take size (input c)) (c <| input := drop size (input c) |> <| reading := NoRead |>)))
  end.

Fixpoint pump (fuel : nat) (c : Connection) : Connection :=
  match fuel with
  | O => c
  | S fuel' => match complete c with Some c' => pump fuel' c' | None => c end
  end.

(** Bytes arrive.  Every read takes a byte or more. *)
Definition receive (chunk : bytes) (c : Connection) : Connection :=
  let c := c <| input := input c ++ chunk |> in pump (S (length (input c))) c.

(** The peer closes the connection, or the read fails. *)
Definition read_error (c : Connection) : Connection :=
  match reading c with NoRead => c | _ => snd (finish (c <| reading := NoRead |>)) end.

Definition accepted_connection : Connection := MkConnection ReadHeader false true [] [].

(** What can happen to a connection. *)
Inductive connection_event : Type :=
| Bytes (chunk : bytes)
| ReadFails
| StopConnection
| OwnerGone.

Definition connection_step (c : Connection) (ev : connection_event) : Connection :=
  match ev with
  | Bytes chunk => receive chunk c
  | ReadFails => read_error c
  | StopConnection => snd (stop c)
  | OwnerGone => c <| owner := false |>
  end.

Definition arrived (evs : list connection_event) : bytes :=
  mjoin ((fun ev => match ev with Bytes chunk => chunk | _ => [] end) <$> evs).

End Frames.

(** ** The header, both ways *)

Lemma be4 a b c d :
  0 <= a < 256 -> 0 <= b < 256 -> 0 <= c < 256 -> 0 <= d < 256 ->
  Z.lor (Z.lor (Z.lor (u32 (Z.shiftl a 24)) (u32 (Z.shiftl b 16))) (u32 (Z.shiftl c 8))) d =
  d + c * 256 + b * 65536 + a * 16777216.
Proof.
  intros Ha Hb Hc Hd. rewrite <- (RecordHeader.le4 d c b a) by done.
  rewrite Z.lor_comm, (Z.lor_comm (Z.lor _ _) (u32 (Z.shiftl c 8))), Z.lor_assoc.
  rewrite (Z.lor_comm (u32 (Z.shiftl a 24))), Z.lor_assoc. done.
Qed.

Lemma u8_byte x : b2z (z2b (u8 x)) = x `mod` 256.
Proof. rewrite b2z_z2b. unfold_words. by rewrite Z.mod_mod. Qed.

Lemma big_endian n : is_u32 n ->
  n = n `mod` 256 + Z.shiftr n 8 `mod` 256 * 256 + Z.shiftr n 16 `mod` 256 * 65536 +
      Z.shiftr n 24 `mod` 256 * 16777216.
Proof.
  intros Hn. rewrite !Z.shiftr_div_pow2 by lia. unfold_words.
  change (2 ^ 8) with 256. change (2 ^ 16) with 65536. change (2 ^ 24) with 16777216.
  change (2 ^ 32) with 4294967296 in Hn. Z.div_mod_to_equations. lia.
Qed.

Lemma check_size_ok n : 0 <= n -> check_size n = Ok tt <-> 0 < n <= kMaxPayloadSize.
Proof.
  intros Hn. unfold check_size.
  destruct (Z.eqb_spec n 0); [split; [done|lia]|]. destruct (Z.gtb_spec n kMaxPayloadSize).
  - split; [done|lia].
  - split; [lia|done].
Qed.

Lemma encode_header_ok n :
  0 < n <= kMaxPayloadSize ->
  encode_header TransportTypeStream n =
  Ok [z2b 1; z2b (u8 (Z.shiftr n 24)); z2b (u8 (Z.shiftr n 16)); z2b (u8 (Z.shiftr n 8)); z2b (u8 n)].
Proof.
  intros Hn. unfold encode_header. by rewrite (proj2 (check_size_ok n ltac:(lia)) Hn).
Qed.

Lemma decode_encoded n rest :
  0 < n <= kMaxPayloadSize ->
  decode_header ([z2b 1; z2b (u8 (Z.shiftr n 24)); z2b (u8 (Z.shiftr n 16)); z2b (u8 (Z.shiftr n 8));
    z2b (u8 n)] ++ rest) = Ok (MkHeader TransportTypeStream n).
Proof.
  intros Hn. cbn [app decode_header]. rewrite !u8_byte.
  rewrite be4 by (apply Z.mod_pos_bound; lia).
  rewrite <- big_endian by (unfold_words; unfold kMaxPayloadSize in Hn; lia).
  by rewrite (proj2 (check_size_ok n ltac:(lia)) Hn).
Qed.

Lemma decode_header_inv data h :
  decode_header data = Ok h ->
  type h = TransportTypeStream /\ 0 < payload_size h <= kMaxPayloadSize /\
  encode_header TransportTypeStream (payload_size h) = Ok (take 5 data) /\ (5 <= length data)%nat.
Proof.
  destruct data as [|b0 [|b1 [|b2 [|b3 [|b4 rest]]]]]; try done. cbn [decode_header].
  destruct (Z.eqb_spec (b2z b0) TransportTypeStream) as [E0|]; [|done]. cbn [negb].
  pose proof (b2z_range b1). pose proof (b2z_range b2). pose proof (b2z_range b3).
  pose proof (b2z_range b4). rewrite be4 by done.
  set (n := b2z b4 + _ + _ + _). destruct (check_size n) as [[]|] eqn:Hc; [|done].
  intros [= <-]. cbn [type payload_size]. apply check_size_ok in Hc; [|lia].
  split; [done|]. split; [done|]. split; [|cbn; lia].
  rewrite encode_header_ok by done. cbn [take firstn]. repeat f_equal; apply b2z_inj;
    rewrite ?u8_byte, ?Z.shiftr_div_pow2 by lia; unfold n; [by rewrite E0|clear - H H0 H1 H2..];
    change (2 ^ 8) with 256; change (2 ^ 16) with 65536; change (2 ^ 24) with 16777216;
    Z.div_mod_to_equations; lia.
Qed.

(** ** Frames through a connection *)

Section FrameFacts.
Context {MP : MsgPack Message.t}.
Implicit Types (c : Connection) (m : Message.t) (rest chunk : bytes).

(** The header of a payload. *)
Definition header_of (payload : bytes) : bytes :=
  match encode_header TransportTypeStream (zlen payload) with Ok h => h | Throw _ => [] end.

Definition frame_of (payload : bytes) : bytes := header_of payload ++ payload.

Definition sized (payload : bytes) : Prop := 0 < zlen payload <= kMaxPayloadSize.

Lemma header_of_length payload : sized payload -> length (header_of payload) = 5%nat.
Proof. intros H. unfold header_of. by rewrite encode_header_ok. Qed.

Lemma decode_header_of payload :
  sized payload -> decode_header (header_of payload) = Ok (MkHeader TransportTypeStream (zlen payload)).
Proof.
  intros H. unfold header_of. rewrite encode_header_ok by done.
  rewrite <- (app_nil_r [_; _; _; _; _]). by apply decode_encoded.
Qed.

(** The sender's frame is the header and the payload. *)
Lemma encode_message_frame m :
  sized (pack m) -> encode_message m = Ok (frame_of (pack m)).
Proof.
  intros H. unfold encode_message. destruct (Z.gtb_spec (zlen (pack m)) kMaxPayloadSize);
    [unfold sized in H; lia|].
  rewrite u32_small by (unfold sized, kMaxPayloadSize in *; unfold_words; lia).
  pose proof (header_of_length _ H) as Hl. unfold frame_of, header_of in *.
  rewrite encode_header_ok in * by done. set (header := [_; _; _; _; _]) in *.
  destruct (ByteBuffer.create _) as [b0|] eqn:E0; [|done].
  destruct (ByteBuffer.create_wf (kHeaderSize + kMaxPayloadSize) b0 ltac:(done) E0) as [W0 V0].
  assert (ByteBuffer.max_size_ b0 = kHeaderSize + kMaxPayloadSize) as M0 by by injection E0 as <-.
  unfold mbind, M_bind. change (zlen header) with 5.
  pose proof (ByteBuffer.append_spec b0 header 5 W0 ltac:(done)) as H1.
  destruct (ByteBuffer.append _ _ b0) as [[[]|] b1].
  2:{ destruct H1 as (_ & _ & H1). rewrite V0, M0 in H1. unfold kHeaderSize, kMaxPayloadSize in H1.
      change (zlen []) with 0 in H1. lia. }
  destruct H1 as (W1 & V1 & M1 & _). rewrite V0 in V1. cbn in V1.
  pose proof (ByteBuffer.append_spec b1 (pack m) (zlen (pack m)) W1) as H2.
  pose proof (zlen_nonneg (pack m)). specialize (H2 ltac:(lia)).
  destruct (ByteBuffer.append _ _ b1) as [[[]|] b2].
  - destruct H2 as (W2 & V2 & _). rewrite to_nat_zlen, firstn_all, V1 in V2.
    rewrite ByteBuffer.readable_view, V2 by done. unfold ByteBuffer.data, ByteBuffer.empty.
    rewrite ByteBuffer.readable_view, V2 by done.
    fold (ByteBuffer.view b2). rewrite V2. cbn [default]. rewrite to_nat_zlen.
    by rewrite firstn_all.
  - destruct H2 as (_ & _ & H2). rewrite V1, M1, M0 in H2. unfold sized, kHeaderSize in *.
    change (zlen _) with 5 in H2 at 1. lia.
Qed.

(** *** One read *)

(** More input does not change what a read does. *)
Definition more (x : bytes) c : Connection := c <| input := input c ++ x |>.

Definition blind {A} (f : M Connection A) : Prop :=
  forall x c, f (more x c) = (fst (f c), more x (snd (f c))).

Lemma blind_dispatch payload : blind (decode_and_dispatch payload).
Proof.
  intros x [rd st ow inp dis].
  unfold decode_and_dispatch, finish, stop, dispatch, read_header, more. run_m. cbn.
  repeat case_match; simplify_eq/=; done || congruence.
Qed.

Lemma blind_header data : blind (on_header data).
Proof.
  intros x c. unfold on_header, read_payload. destruct (decode_header data) as [h|].
  - destruct (_ =? 0)%nat; [apply blind_dispatch|]. destruct c as [rd st ow inp dis].
    unfold more. run_m. cbn. by destruct st.
  - destruct c as [rd st ow inp dis]. unfold finish, stop, more. run_m. cbn. by destruct st.
Qed.

Lemma complete_more c c' x : complete c = Some c' -> complete (more x c) = Some (more x c').
Proof.
  unfold complete. change (reading (more x c)) with (reading c).
  change (input (more x c)) with (input c ++ x). rewrite length_app.
  destruct (reading c) as [| |size]; [done| |].
  - destruct (Nat.ltb_spec (length (input c)) 5); [done|]. intros [= <-].
    rewrite (proj2 (Nat.ltb_ge _ _)) by lia. rewrite take_app_le, drop_app_le by lia.
    change ((more x c) <| input := drop 5 (input c) ++ x |> <| reading := NoRead |>)
      with (more x (c <| input := drop 5 (input c) |> <| reading := NoRead |>)).
    by rewrite blind_header.
  - destruct (Nat.ltb_spec (length (input c)) size); [done|]. intros [= <-].
    rewrite (proj2 (Nat.ltb_ge _ _)) by lia. rewrite take_app_le, drop_app_le by lia.
    change ((more x c) <| input := drop size (input c) ++ x |> <| reading := NoRead |>)
      with (more x (c <| input := drop size (input c) |> <| reading := NoRead |>)).
    by rewrite blind_dispatch.
Qed.

(** *** Reads to the end *)

(** A connection is idle when its read waits for more. *)
Definition idle c : Prop := complete c = None.

(** Every pending read takes a byte or more. *)
Definition hungry c : Prop := match reading c with ReadPayload size => size <> 0%nat | _ => True end.

Lemma dispatch_reading payload c :
  hungry c -> hungry (snd (decode_and_dispatch payload c)) /\
  input (snd (decode_and_dispatch payload c)) = input c.
Proof.
  destruct c as [rd st ow inp dis].
  unfold decode_and_dispatch, finish, stop, dispatch, read_header, hungry. run_m. cbn.
  repeat case_match; simplify_eq/=; auto.
Qed.

Lemma header_reading data c :
  reading c = NoRead -> hungry (snd (on_header data c)) /\ input (snd (on_header data c)) = input c.
Proof.
  intros Hc. unfold on_header, read_payload. destruct (decode_header data) as [h|].
  - destruct (Nat.eqb_spec (Z.to_nat (payload_size h)) 0).
    + apply dispatch_reading. unfold hungry. by rewrite Hc.
    + destruct c as [rd st ow inp dis]. unfold hungry. run_m. cbn in *. destruct st; cbn; [by rewrite Hc|done].
  - destruct c as [rd st ow inp dis]. unfold finish, stop, hungry. run_m. cbn in *.
    destruct st; cbn; by rewrite Hc.
Qed.

Lemma complete_shorter c c' :
  hungry c -> complete c = Some c' -> hungry c' /\ (length (input c') < length (input c))%nat.
Proof.
  unfold complete, hungry at 1. destruct (reading c) as [| |size] eqn:Hr; [done| |].
  - intros _. destruct (Nat.ltb_spec (length (input c)) 5); [done|]. intros [= <-].
    destruct (header_reading (take 5 (input c))
      (c <| input := drop 5 (input c) |> <| reading := NoRead |>)) as [H1 H2];
      [done|]. split; [done|]. rewrite H2. cbn. rewrite length_drop. lia.
  - intros Hs. destruct (Nat.ltb_spec (length (input c)) size); [done|]. intros [= <-].
    destruct (dispatch_reading (take size (input c))
      (c <| input := drop size (input c) |> <| reading := NoRead |>)) as [H1 H2]; [done|].
    split; [done|]. rewrite H2. cbn. rewrite length_drop. lia.
Qed.

Lemma pump_S f c : pump (S f) c = match complete c with Some c' => pump f c' | None => c end.
Proof. done. Qed.

(** Enough fuel reads everything there is to read. *)
Lemma pump_idle fuel : forall c, hungry c -> (length (input c) < fuel)%nat ->
  idle (pump fuel c) /\ hungry (pump fuel c).
Proof.
  induction fuel as [|fuel IH]; intros c Hc Hf; [lia|]. cbn.
  destruct (complete c) as [c'|] eqn:E; [|done].
  destruct (complete_shorter c c' Hc E). apply IH; [done|lia].
Qed.

Lemma pump_idle_id fuel c : idle c -> pump fuel c = c.
Proof. intros E. destruct fuel; [done|]. cbn. by rewrite E. Qed.

(** Any two amounts of fuel that are enough give the same. *)
Lemma pump_enough f1 : forall f2 c, hungry c -> (length (input c) < f1)%nat ->
  (length (input c) < f2)%nat -> pump f1 c = pump f2 c.
Proof.
  induction f1 as [|f1 IH]; intros f2 c Hc H1 H2; [lia|]. destruct f2 as [|f2]; [lia|]. cbn.
  destruct (complete c) as [c'|] eqn:E; [|done].
  destruct (complete_shorter c c' Hc E). apply IH; [done|lia|lia].
Qed.

(** Reading first and getting more later is getting more first. *)
Lemma pump_more f x : forall c, hungry c ->
  pump (f + S (length (input c) + length x)) (more x c) =
  pump (S (length (input (more x (pump f c))))) (more x (pump f c)).
Proof.
  induction f as [|f IH]; intros c Hc.
  - change (pump 0 c) with c. cbn [Nat.add]. by rewrite <- length_app.
  - rewrite Nat.add_succ_l, (pump_S f c), (pump_S _ (more x c)).
    destruct (complete c) as [c'|] eqn:E.
    + rewrite (complete_more _ _ x E). destruct (complete_shorter c c' Hc E) as [Hc' Hl].
      rewrite <- IH by done. apply pump_enough; cbn; rewrite ?length_app; done || lia.
    + rewrite <- pump_S. apply pump_enough; cbn; rewrite ?length_app; done || lia.
Qed.

Lemma receive_receive c x y : hungry c -> receive y (receive x c) = receive (x ++ y) c.
Proof.
  intros Hc. unfold receive. set (c1 := c <| input := input c ++ x |>).
  assert (hungry c1) as Hc1 by done.
  change (c <| input := input c ++ x ++ y |>) with (c <| input := input c ++ (x ++ y) |>).
  assert (c <| input := input c ++ x ++ y |> = more y c1) as ->.
  { unfold more, c1. cbn. by rewrite app_assoc. }
  fold (more y (pump (S (length (input c1))) c1)). rewrite <- pump_more by done.
  apply pump_enough; [done| |]; cbn; rewrite ?length_app; lia.
Qed.

Lemma hungry_receive c x : hungry c -> hungry (receive x c).
Proof. intros Hc. apply pump_idle; [done|lia]. Qed.

Lemma receive_nil c : idle c -> receive [] c = c.
Proof.
  intros Hi. unfold receive. rewrite app_nil_r.
  replace (c <| input := input c |>) with c by by destruct c. by apply pump_idle_id.
Qed.

Lemma receive_chunks chunks : forall c, hungry c -> idle c ->
  foldl (fun c chunk => receive chunk c) c chunks = receive (mjoin chunks) c.
Proof.
  induction chunks as [|x chunks IH]; intros c Hc Hi.
  - cbn [foldl]. symmetry. by apply receive_nil.
  - change (mjoin (x :: chunks)) with (x ++ mjoin chunks). cbn [foldl].
    rewrite IH by (by apply hungry_receive || (apply pump_idle; [done|lia])).
    by apply receive_receive.
Qed.
(** *** One frame *)

Definition known (m : Message.t) : Prop :=
  Message.MsgRequestVote <= Message.type m <= Message.MsgInstallSnapshotResponse.

Lemma dispatch_known m c :
  dispatch m c = if decide (known m) then (Ok true, c <| dispatched := dispatched c ++ [m] |>)
                 else (Ok false, c).
Proof.
  unfold dispatch, known. unfold Message.MsgRequestVote, Message.MsgRequestVoteResponse,
    Message.MsgAppendEntries, Message.MsgAppendEntriesResponse, Message.MsgPreVote,
    Message.MsgPreVoteResponse, Message.MsgInstallSnapshot, Message.MsgInstallSnapshotResponse.
  repeat case_decide; try done; lia.
Qed.

(** Waiting for the next frame. *)
Definition ready c : Prop := reading c = ReadHeader /\ stopped c = false /\ owner c = true.

Lemma payload_spec payload m c :
  stopped c = false -> owner c = true -> unpack payload = Ok m -> known m ->
  snd (decode_and_dispatch payload c) =
  c <| dispatched := dispatched c ++ [m] |> <| reading := ReadHeader |>.
Proof.
  intros Hs Ho Hu Hk. unfold decode_and_dispatch. rewrite Hu. unfold mbind, M_bind. cbn [get].
  rewrite Ho. cbn [negb]. rewrite dispatch_known, decide_True by done. cbn [negb].
  unfold read_header, mbind, M_bind. cbn [get].
  change (stopped (c <| dispatched := dispatched c ++ [m] |>)) with (stopped c). by rewrite Hs.
Qed.

(** A frame of a known message is dispatched. *)
Lemma receive_frame payload m rest c :
  ready c -> input c = [] -> sized payload -> unpack payload = Ok m -> known m ->
  receive (frame_of payload ++ rest) c = receive rest (c <| dispatched := dispatched c ++ [m] |>).
Proof.
  intros (Hr & Hs & Ho) Hin Hz Hu Hk. unfold receive. rewrite Hin. cbn [app].
  set (c0 := c <| input := frame_of payload ++ rest |>).
  pose proof (header_of_length payload Hz) as Hl.
  assert (complete c0 = Some (c <| input := payload ++ rest |>
    <| reading := ReadPayload (length payload) |>)) as E1.
  { unfold complete. change (reading c0) with (reading c).
    change (input c0) with (frame_of payload ++ rest). rewrite Hr. unfold frame_of.
    rewrite !length_app, Hl. cbn [Nat.ltb Nat.leb Nat.add]. rewrite <- app_assoc.
    rewrite take_app_length', drop_app_length' by done. unfold on_header.
    rewrite decode_header_of by done. cbn [payload_size]. rewrite to_nat_zlen.
    unfold read_payload. destruct (Nat.eqb_spec (length payload) 0) as [E|].
    - unfold sized, zlen in Hz. lia.
    - run_m. change (stopped (c0 <| input := _ |> <| reading := _ |>)) with (stopped c). by rewrite Hs. }
  assert (complete (c <| input := payload ++ rest |> <| reading := ReadPayload (length payload) |>) =
    Some (c <| dispatched := dispatched c ++ [m] |> <| input := rest |>)) as E2.
  { unfold complete. set (c1 := c <| input := _ |> <| reading := _ |>).
    change (reading c1) with (ReadPayload (length payload)). change (input c1) with (payload ++ rest).
    rewrite length_app.
    rewrite (proj2 (Nat.ltb_ge _ _)) by lia. rewrite take_app_length', drop_app_length' by done.
    rewrite (payload_spec payload m) by done. f_equal. destruct c. cbn in *. by subst. }
  rewrite (pump_S _ c0), E1. change (input c0) with (frame_of payload ++ rest).
  unfold frame_of. rewrite !length_app, Hl. cbn [Nat.add].
  rewrite (pump_S _ (_ <| reading := _ |>)), E2.
  change (input (c <| dispatched := _ |>)) with (input c). rewrite Hin. cbn [app].
  apply pump_enough; [unfold hungry; cbn; by rewrite Hr|cbn; lia|cbn; lia].
Qed.

(** Messages that fit a frame. *)
Definition sendable (m : Message.t) : Prop := typed m /\ known m /\ sized (pack m).

Lemma receive_frames ms : forall c,
  MsgPackLaws Message.t -> Forall sendable ms -> ready c -> input c = [] ->
  receive (mjoin ((fun m => frame_of (pack m)) <$> ms)) c =
  c <| dispatched := dispatched c ++ ms |>.
Proof.
  induction ms as [|m ms IH]; intros c ML Hms Hc Hi.
  - change (mjoin _) with (@nil byte). rewrite receive_nil.
    + rewrite app_nil_r. by destruct c.
    + unfold idle, complete. destruct Hc as [-> _]. by rewrite Hi.
  - apply Forall_cons_iff in Hms as [(Ht & Hk & Hz) Hms].
    rewrite fmap_cons. change (mjoin (?a :: ?l)) with (a ++ mjoin l).
    rewrite (receive_frame (pack m) m) by (done || by apply unpack_pack).
    rewrite IH; [|done|done|done|done]. destruct c. cbn. by rewrite <- app_assoc.
Qed.

Lemma encode_messages_frames ms :
  Forall sendable ms -> encode_messages ms = Ok (mjoin ((fun m => frame_of (pack m)) <$> ms)).
Proof.
  induction 1 as [|m ms (Ht & Hk & Hz) Hms IH]; [done|]. cbn [encode_messages].
  by rewrite encode_message_frame, IH.
Qed.

(** *** Only frames are dispatched *)

Definition carries (payload : bytes) (m : Message.t) : Prop :=
  sized payload /\ unpack payload = Ok m /\ known m.

(** The bytes received so far: frames of what was dispatched, then what the
    pending read will need. *)
Definition parsed (data : bytes) c : Prop :=
  exists ps rest, data = mjoin (frame_of <$> ps) ++ rest /\ Forall2 carries ps (dispatched c) /\
    match reading c with
    | NoRead => True
    | ReadHeader => rest = input c
    | ReadPayload size => exists h, rest = h ++ input c /\
        forall payload, length payload = size -> sized payload /\ h = header_of payload
    end.

Lemma parsed_finish ps rest c :
  reading c = NoRead -> Forall2 carries ps (dispatched c) ->
  parsed (mjoin (frame_of <$> ps) ++ rest) (snd (finish c)).
Proof.
  intros Hr Hf. exists ps, rest. split; [done|]. destruct c as [rd st ow inp dis]. cbn in *. subst rd.
  unfold finish, stop. run_m. cbn. by destruct st.
Qed.

Lemma parsed_payload data size c :
  parsed data c -> reading c = ReadPayload size -> (size <= length (input c))%nat ->
  parsed data (snd (decode_and_dispatch (take size (input c))
    (c <| input := drop size (input c) |> <| reading := NoRead |>))).
Proof.
  intros (ps & rest & E & Hf & Hm) Hr Hle. rewrite Hr in Hm.
  destruct Hm as (h & -> & Hh). set (c1 := c <| input := _ |> <| reading := _ |>).
  destruct (Hh (take size (input c))) as [Hz ->]; [rewrite length_take; lia|].
  assert (parsed data (snd (finish c1))) as Hfin by (rewrite E; by apply parsed_finish).
  unfold decode_and_dispatch. destruct (unpack (take size (input c))) as [m|] eqn:Hu; [|done].
  unfold mbind, M_bind. cbn [get]. destruct (negb (owner c1)); [done|].
  rewrite dispatch_known. case_decide as Hk; [|done]. cbn [negb].
  unfold read_header, mbind, M_bind. cbn [get].
  change (stopped (c1 <| dispatched := _ |>)) with (stopped c).
  exists (ps ++ [take size (input c)]), (drop size (input c)).
  assert (Forall2 carries (ps ++ [take size (input c)]) (dispatched c ++ [m])) as Hf'
    by (apply Forall2_app; [done|by constructor]).
  split; [|by destruct (stopped c)].
  rewrite E, fmap_app, join_app. cbn. unfold frame_of. rewrite app_nil_r, <- !app_assoc.
  by rewrite take_drop.
Qed.

Lemma parsed_header data c :
  parsed data c -> reading c = ReadHeader -> (5 <= length (input c))%nat ->
  parsed data (snd (on_header (take 5 (input c))
    (c <| input := drop 5 (input c) |> <| reading := NoRead |>))).
Proof.
  intros (ps & rest & E & Hf & Hm) Hr Hle. rewrite Hr in Hm. subst rest.
  set (c1 := c <| input := _ |> <| reading := _ |>). unfold on_header.
  destruct (decode_header (take 5 (input c))) as [h|] eqn:Hd.
  - destruct (decode_header_inv _ _ Hd) as (_ & Hz & He & _). unfold read_payload.
    destruct (Nat.eqb_spec (Z.to_nat (payload_size h)) 0); [lia|].
    run_m. change (stopped c1) with (stopped c). exists ps, (input c).
    destruct (stopped c); cbn [negb snd]; split_and!; try done. exists (take 5 (input c)).
    split; [symmetry; apply take_drop|]. intros payload Hp.
    assert (zlen payload = payload_size h) as Hzl by (unfold zlen; lia).
    split; [unfold sized; by rewrite Hzl|]. unfold header_of. rewrite Hzl, He.
    by rewrite take_take.
  - rewrite E. by apply parsed_finish.
Qed.

Lemma parsed_pump fuel : forall data c, parsed data c -> parsed data (pump fuel c).
Proof.
  induction fuel as [|fuel IH]; intros data c Hc; [done|]. rewrite pump_S.
  destruct (complete c) as [c'|] eqn:E; [|done]. apply IH. revert E. unfold complete.
  destruct (reading c) as [| |size] eqn:Hr; [done| |].
  - destruct (Nat.ltb_spec (length (input c)) 5); [done|]. intros [= <-]. by apply parsed_header.
  - destruct (Nat.ltb_spec (length (input c)) size); [done|]. intros [= <-]. by apply parsed_payload.
Qed.

Lemma parsed_receive data chunk c : parsed data c -> parsed (data ++ chunk) (receive chunk c).
Proof.
  intros (ps & rest & -> & Hf & Hm). apply parsed_pump.
  exists ps, (rest ++ chunk). split; [by rewrite app_assoc|]. split; [done|].
  change (reading (c <| input := _ |>)) with (reading c).
  change (input (c <| input := ?x |>)) with x.
  destruct (reading c); [done|by subst|]. destruct Hm as (h & -> & Hh). exists h.
  by rewrite app_assoc.
Qed.

(** A connection only adds to what it has dispatched, and stays stopped. *)
Definition onward c c' : Prop :=
  dispatched c `prefix_of` dispatched c' /\ (stopped c = true -> stopped c' = true).

Lemma onward_refl c : onward c c.
Proof. by split. Qed.

Lemma onward_trans c1 c2 c3 : onward c1 c2 -> onward c2 c3 -> onward c1 c3.
Proof. intros [H1 H2] [H3 H4]. split; [by etrans|auto]. Qed.

Lemma onward_finish c : onward c (snd (finish c)).
Proof. destruct c as [rd [] ow inp dis]; done. Qed.

Lemma onward_dispatch payload c : onward c (snd (decode_and_dispatch payload c)).
Proof.
  unfold decode_and_dispatch. destruct (unpack payload) as [m|]; [|apply onward_finish].
  unfold mbind, M_bind. cbn [get]. destruct (negb (owner c)); [apply onward_finish|].
  rewrite dispatch_known. case_decide; [|apply onward_finish]. destruct c as [rd [] ow inp dis];
    (split; [by eexists|done]).
Qed.

Lemma onward_complete c c' : complete c = Some c' -> onward c c'.
Proof.
  unfold complete. assert (forall n c', onward (c <| input := drop n (input c) |> <| reading := NoRead |>) c' ->
    onward c c') as Ht by done.
  destruct (reading c) as [| |size]; [done| |]; destruct (_ <? _)%nat; try done; intros [= <-];
    eapply Ht; clear Ht.
  - unfold on_header. destruct (decode_header _) as [h|]; [|apply onward_finish]. unfold read_payload.
    destruct (_ =? _)%nat; [apply onward_dispatch|]. by destruct c as [rd [] ow inp dis].
  - apply onward_dispatch.
Qed.

Lemma onward_step c ev : onward c (connection_step c ev).
Proof.
  destruct ev as [chunk| | |]; cbn.
  - unfold receive. set (c0 := c <| input := _ |>). change (onward c0 (pump (S (length (input c0))) c0)).
    generalize (S (length (input c0))). clearbody c0. intros n. revert c0.
    induction n as [|n IH]; intros c0; [apply onward_refl|]. rewrite pump_S.
    destruct (complete c0) eqn:E; [|apply onward_refl]. eapply onward_trans; [by apply onward_complete|apply IH].
  - destruct c as [[] [] ow inp dis]; done.
  - destruct c as [rd [] ow inp dis]; done.
  - done.
Qed.

Lemma parsed_step data c ev :
  parsed data c -> parsed (data ++ arrived [ev]) (connection_step c ev).
Proof.
  unfold arrived. destruct ev as [chunk| | |]; cbn; rewrite app_nil_r; [apply parsed_receive|..].
  - intros (ps & rest & -> & Hf & Hm). unfold read_error. destruct (reading c) eqn:Hr.
    + exists ps, rest. by rewrite Hr.
    + by apply parsed_finish.
    + by apply parsed_finish.
  - intros H. unfold stop. run_m. by destruct (stopped c).
  - done.
Qed.

Lemma parsed_run evs : forall data c,
  parsed data c -> parsed (data ++ arrived evs) (foldl connection_step c evs).
Proof.
  induction evs as [|ev evs IH]; intros data c Hc; cbn [foldl].
  - unfold arrived. cbn. by rewrite app_nil_r.
  - apply (parsed_step data c ev), IH in Hc. rewrite <- app_assoc in Hc. unfold arrived in *. cbn in *.
    by rewrite app_nil_r in Hc.
Qed.

(** ** Properties *)

(** A header that can be written is read back, and only those are read:
    [decode_header] inverts [encode_header] and rejects everything else. *)
Theorem header_codec size header rest h :
  is_u32 size ->
  (encode_header TransportTypeStream size = Ok header ->
     length header = 5%nat /\ decode_header (header ++ rest) = Ok (MkHeader TransportTypeStream size)) /\
  (decode_header (header ++ rest) = Ok h -> length header = 5%nat ->
     encode_header (type h) (payload_size h) = Ok header).
Proof.
  intros Hu. split.
  - intros He. assert (0 < size <= kMaxPayloadSize) as Hz.
    { apply check_size_ok; [apply Hu|]. unfold encode_header in He. cbn [negb Z.eqb] in He.
      by destruct (check_size size) as [[]|]. }
    rewrite encode_header_ok in He by done. injection He as <-. split; [done|by apply decode_encoded].
  - intros Hd Hl. destruct (decode_header_inv _ _ Hd) as (-> & _ & -> & _).
    by rewrite take_app_length'.
Qed.

(** C28: a connection dispatches the messages that were framed, in order and
    nothing else, however the stream is cut. *)
Theorem connection_delivers ms chunks :
  MsgPackLaws Message.t -> Forall sendable ms ->
  encode_messages ms = Ok (mjoin chunks) ->
  foldl (fun c chunk => receive chunk c) accepted_connection chunks =
  accepted_connection <| dispatched := ms |>.
Proof.
  intros ML Hms He. rewrite receive_chunks by done.
  rewrite encode_messages_frames in He by done. injection He as <-. by apply receive_frames.
Qed.

(** C29: whatever bytes arrive and whatever else happens, what a connection has
    dispatched are the messages of the frames the stream starts with. *)
Theorem connection_sound evs :
  let c := foldl connection_step accepted_connection evs in
  exists payloads rest,
    arrived evs = mjoin (frame_of <$> payloads) ++ rest /\
    Forall2 carries payloads (dispatched c).
Proof.
  cbv zeta. destruct (parsed_run evs [] accepted_connection) as (ps & rest & E & Hf & _).
  - by exists [], [].
  - by exists ps, rest.
Qed.

End FrameFacts.

(** ** Addresses *)

Lemma find_char_cons b x s :
  find_char b (x :: s) = if decide (b = x) then Some 0%nat else S <$> find_char b s.
Proof.
  unfold find_char. cbn [list_find]. destruct (decide (b = x)); [done|].
  by destruct (list_find _ s) as [[]|].
Qed.

Lemma find_char_app b s rest : b ∉ s -> find_char b (s ++ b :: rest) = Some (length s).
Proof.
  induction s as [|x s IH]; intros Hb; cbn [app]; rewrite find_char_cons.
  - by rewrite decide_True.
  - rewrite decide_False, IH by set_solver. done.
Qed.

Lemma find_char_Some b s i : find_char b s = Some i -> exists s1 s2,
  s = s1 ++ b :: s2 /\ length s1 = i /\ b ∉ s1.
Proof.
  revert i. induction s as [|x s IH]; intros i; [done|]. rewrite find_char_cons.
  case_decide as E; [intros [= <-]; exists [], s; subst; set_solver|].
  destruct (find_char b s) as [j|]; [|done]. intros [= <-].
  destruct (IH j eq_refl) as (s1 & s2 & -> & Hl & Hb). exists (x :: s1), s2.
  split; [done|]. split; [cbn; lia|set_solver].
Qed.

Lemma rfind_char_app b s rest : b ∉ rest -> rfind_char b (s ++ b :: rest) = Some (length s).
Proof.
  intros Hb. unfold rfind_char. rewrite reverse_app, reverse_cons, <- app_assoc. cbn [app].
  rewrite find_char_app by (by rewrite elem_of_reverse). cbn. f_equal.
  rewrite length_reverse, length_app. cbn. lia.
Qed.

Lemma rfind_char_Some b s i : rfind_char b s = Some i -> exists s1 s2,
  s = s1 ++ b :: s2 /\ length s1 = i /\ b ∉ s2.
Proof.
  unfold rfind_char. destruct (find_char b (reverse s)) as [j|] eqn:E; [|done]. intros [= <-].
  apply find_char_Some in E as (s1 & s2 & E & <- & Hb).
  apply (f_equal reverse) in E. rewrite reverse_involutive, reverse_app, reverse_cons in E.
  rewrite <- app_assoc in E. cbn in E. exists (reverse s2), (reverse s1). split; [done|].
  split; [|by rewrite elem_of_reverse]. rewrite E, length_app, !length_reverse. cbn.
  rewrite length_reverse. lia.
Qed.

(** The pieces [split_address] cuts out of a bracketed address. *)
Lemma bracketed_pieces h rest :
  let address := open_bracket :: h ++ close_bracket :: rest in
  address !! (S (length h) + 1)%nat = rest !! 0%nat /\
  take (S (length h) - 1) (drop 1 address) = h /\
  drop (S (length h) + 2) address = drop 1 rest.
Proof.
  cbv zeta. split_and!.
  - change (open_bracket :: h ++ close_bracket :: rest)
      with ((open_bracket :: h) ++ [close_bracket] ++ rest).
    rewrite (app_assoc (open_bracket :: h)), lookup_app_r; rewrite length_app; cbn; [|lia].
    f_equal. lia.
  - cbn [drop skipn]. rewrite Nat.sub_succ, Nat.sub_0_r. apply take_app_length.
  - change (open_bracket :: h ++ close_bracket :: rest)
      with ((open_bracket :: h) ++ [close_bracket] ++ rest).
    rewrite (app_assoc (open_bracket :: h)).
    replace (S (length h) + 2)%nat with (length ((open_bracket :: h) ++ [close_bracket]) + 1)%nat
      by (rewrite length_app; cbn; lia).
    by rewrite drop_app_add.
Qed.

Lemma split_bracketed_sound who address parts :
  split_address who (open_bracket :: address) = Ok parts ->
  host parts <> [] /\ service parts <> [] /\
  open_bracket :: address = [open_bracket] ++ host parts ++ [close_bracket; colon] ++ service parts.
Proof.
  unfold split_address. rewrite decide_True by done.
  destruct (find_char _ _) as [bracket|] eqn:Hb; [|done].
  apply find_char_Some in Hb as (s1 & s2 & E & <- & Hb). destruct s1 as [|x s1]; [done|].
  injection E as <- ->. destruct (bracketed_pieces s1 s2) as (E1 & E2 & E3). cbn [length].
  rewrite E1, E2, E3. case_match eqn:Hc; [done|]. case_match eqn:He; [done|]. intros [= <-].
  apply orb_false_iff in Hc as [_ Hc]. apply negb_false_iff, bool_decide_eq_true in Hc.
  apply orb_false_iff in He as [He1 He2]. apply bool_decide_eq_false in He1, He2.
  destruct s2 as [|y s2]; [done|]. injection Hc as ->. done.
Qed.

Lemma split_plain_sound who front address parts :
  front <> open_bracket -> split_address who (front :: address) = Ok parts ->
  host parts <> [] /\ service parts <> [] /\
  front :: address = host parts ++ [colon] ++ service parts.
Proof.
  intros Hf. unfold split_address. rewrite decide_False by done.
  destruct (rfind_char _ _) as [separator|] eqn:Hs; [|done].
  case_match eqn:Hc; [done|]. intros [= <-]. cbn [host service].
  apply rfind_char_Some in Hs as (s1 & s2 & E & <- & Hb).
  rewrite E in *. apply orb_false_iff in Hc as [Hc1 Hc2].
  rewrite length_app in Hc2. cbn in Hc2. apply Nat.eqb_neq in Hc1, Hc2.
  rewrite take_app_length. change (colon :: s2) with ([colon] ++ s2).
  rewrite (app_assoc s1), drop_app_length' by (rewrite length_app; done).
  split; [by destruct s1|]. split; [destruct s2; [cbn in Hc2; lia|done]|].
  by rewrite <- app_assoc.
Qed.

Lemma split_plain who h p :
  h <> [] -> p <> [] -> colon ∉ p -> h !! 0%nat <> Some open_bracket ->
  split_address who (h ++ [colon] ++ p) = Ok (MkAddress h p).
Proof.
  intros Hh Hp Hc Hf. pose proof (rfind_char_app colon h p Hc) as Er.
  assert (length h <> 0)%nat as Hl by by destruct h.
  assert (length h + 1 <> length (h ++ colon :: p))%nat as Hl'.
  { rewrite length_app. destruct p; [done|]. cbn. lia. }
  assert (drop (length h + 1) (h ++ [colon] ++ p) = p) as Ed.
  { rewrite app_assoc. apply drop_app_length'. by rewrite length_app. }
  pose proof (take_app_length h ([colon] ++ p)) as Et.
  unfold split_address. cbn [app] in *. rewrite Er, Ed, Et.
  rewrite (proj2 (Nat.eqb_neq _ _) Hl), (proj2 (Nat.eqb_neq _ _) Hl').
  destruct h as [|x h]; [done|]. cbn [app]. by rewrite decide_False by (intros ->; done).
Qed.

Lemma split_bracketed who h p :
  h <> [] -> p <> [] -> close_bracket ∉ h ->
  split_address who ([open_bracket] ++ h ++ [close_bracket; colon] ++ p) = Ok (MkAddress h p).
Proof.
  intros Hh Hp Hb. unfold split_address. cbn [app]. rewrite decide_True by done.
  pose proof (find_char_app close_bracket (open_bracket :: h) (colon :: p)) as Ef.
  cbn [app length] in Ef. rewrite Ef by (apply not_elem_of_cons; by split).
  destruct (bracketed_pieces h (colon :: p)) as (E1 & E2 & E3). rewrite E1, E2, E3.
  rewrite bool_decide_eq_true_2 by done.
  rewrite (proj2 (Nat.leb_gt _ _)) by (cbn; rewrite length_app; cbn; lia). cbn [orb negb].
  change (drop 1 (colon :: p)) with (drop 0 p). rewrite drop_0. by rewrite !bool_decide_eq_false_2.
Qed.

(** An address that splits is put together again from its parts, which are
    not empty; and a host and a port that fit the notation split back. *)
Theorem address_round_trip who :
  (forall address parts, split_address who address = Ok parts ->
     host parts <> [] /\ service parts <> [] /\
     (address = host parts ++ [colon] ++ service parts \/
      address = [open_bracket] ++ host parts ++ [close_bracket; colon] ++ service parts)) /\
  (forall h p, h <> [] -> p <> [] -> colon ∉ p -> h !! 0%nat <> Some open_bracket ->
     split_address who (h ++ [colon] ++ p) = Ok (MkAddress h p)) /\
  (forall h p, h <> [] -> p <> [] -> close_bracket ∉ h ->
     split_address who ([open_bracket] ++ h ++ [close_bracket; colon] ++ p) = Ok (MkAddress h p)).
Proof.
  split_and!; [|apply split_plain|apply split_bracketed].
  intros [|front address] parts H; [done|]. destruct (decide (front = open_bracket)) as [->|Hf].
  - apply split_bracketed_sound in H. tauto.
  - apply split_plain_sound in H; tauto.
Qed.

(** ** The theorems on concrete frames *)

#[local] Instance bits_message_pack : MsgPack Message.t := Bits.msgpack Message.t.

Definition demo_vote : Message.t :=
  Message.default <| Message.type := Message.MsgPreVote |> <| Message.from := 1 |> <| Message.to := 2 |>.

Lemma header_codec_witness :
  decode_header ([Byte.x01; Byte.x00; Byte.x01; Byte.x00; Byte.x02] ++ [Byte.xff]) =
    Ok (MkHeader TransportTypeStream 65538) /\
  encode_header 1 65538 = Ok [Byte.x01; Byte.x00; Byte.x01; Byte.x00; Byte.x02].
Proof.
  destruct (header_codec 65538 [Byte.x01; Byte.x00; Byte.x01; Byte.x00; Byte.x02] [Byte.xff]
    (MkHeader TransportTypeStream 65538)) as [H1 H2]; [done|].
  split; [apply H1; reflexivity|]. by apply H2.
Defined.

Definition demo_stream : bytes :=
  match encode_messages [demo_vote; demo_vote] with Ok data => data | Throw _ => [] end.

Lemma connection_delivers_witness :
  foldl (fun c chunk => receive chunk c) accepted_connection
    [take 3 demo_stream; take 9 (drop 3 demo_stream); drop 9 (drop 3 demo_stream)]
  = accepted_connection <| dispatched := [demo_vote; demo_vote] |>.
Proof.
  apply connection_delivers.
  - apply Bits.msgpack_laws.
  - assert (sendable demo_vote) as H.
    { split; [|by vm_compute]. unfold typed, Message.typed. cbn. unfold_words.
      split_and!; try done; lia. }
    apply Forall_cons; [done|]. by apply Forall_singleton.
  - vm_compute. reflexivity.
Defined.

End Transport.
