(* ===== verification/Peer.v ===== *)
(** * The connection to another member ([src/transport/peer.cpp])

    [Peer::Impl] keeps a bounded queue of frames and one connection.  Its
    handlers run on a strand; an asynchronous operation it starts (resolve,
    connect, write, wait) is an element of [ops] until it completes, with or
    without an error.  A run is any sequence of sends, handlers and
    completions.  The theorems show that the queue's accounting is exact and
    bounded, that frames leave in the order they were accepted (an append
    that is overtaken by the next one of its stream may be left out), and that
    a peer with something to send always has an operation under way. *)

From S2P Require Import Prelude Msgpack Proto Transport.

Module Peer.

Record PendingFrame : Type := MkFrame {
  frame_bytes : bytes;
  replaceable_append : bool;
  frame_from : Z;
  frame_to : Z;
  frame_term : Z;
  frame_read_context : Z;
}.

#[global] Instance frame_eq_dec : EqDecision PendingFrame.
Proof. solve_decision. Defined.

Definition kMaxPendingFrames : Z := 512.
Definition kMaxPendingBytes : Z := Transport.kMaxPayloadSize + Transport.kHeaderSize.

(** Handlers posted to the strand. *)
Inductive strand_task : Type :=
| FrameTask (frame : PendingFrame)
| StopNow.

(** Asynchronous operations. *)
Inductive operation : Type :=
| Resolve
| Connect
| Write (frame : bytes)
| Retry.

#[global] Instance operation_eq_dec : EqDecision operation.
Proof. solve_decision. Defined.

Record t : Type := mk {
  strand : list strand_task;
  ops : list operation;
  outbound : list PendingFrame;
  pending_frames : Z;
  pending_bytes : Z;
  stop_requested : bool;
  stopped : bool;
  connected : bool;
  connect_in_progress : bool;
  write_in_progress : bool;
  retry_pending : bool;
  retry_delay : Z;
  (* what was accepted and what was written, in order *)
  accepted : list PendingFrame;
  written : list PendingFrame;
}.

Definition eta (p : t) : t :=
  mk (strand p) (ops p) (outbound p) (pending_frames p) (pending_bytes p) (stop_requested p)
    (stopped p) (connected p) (connect_in_progress p) (write_in_progress p) (retry_pending p)
    (retry_delay p) (accepted p) (written p).
#[global] Instance set_strand : Setter strand := ltac:(setter eta strand).
#[global] Instance set_ops : Setter ops := ltac:(setter eta ops).
#[global] Instance set_outbound : Setter outbound := ltac:(setter eta outbound).
#[global] Instance set_pending_frames : Setter pending_frames := ltac:(setter eta pending_frames).
#[global] Instance set_pending_bytes : Setter pending_bytes := ltac:(setter eta pending_bytes).
#[global] Instance set_stop_requested : Setter stop_requested := ltac:(setter eta stop_requested).
#[global] Instance set_stopped : Setter stopped := ltac:(setter eta stopped).
#[global] Instance set_connected : Setter connected := ltac:(setter eta connected).
#[global] Instance set_connect_in_progress : Setter connect_in_progress :=
  ltac:(setter eta connect_in_progress).
#[global] Instance set_write_in_progress : Setter write_in_progress :=
  ltac:(setter eta write_in_progress).
#[global] Instance set_retry_pending : Setter retry_pending := ltac:(setter eta retry_pending).
#[global] Instance set_retry_delay : Setter retry_delay := ltac:(setter eta retry_delay).
#[global] Instance set_accepted : Setter accepted := ltac:(setter eta accepted).
#[global] Instance set_written : Setter written := ltac:(setter eta written).

Definition create : t :=
  mk [] [] [] 0 0 false false false false false false 20 [] [].

Definition stopping (p : t) : bool := stopped p || stop_requested p.

Definition frame_size (f : PendingFrame) : Z := zlen (frame_bytes f).

(** An asynchronous operation is started. *)
Definition start_op (op : operation) : M t unit := p ← get; ops <~ ops p ++ [op].

(** ** Admission *)

Definition reserve (bytes : Z) : M t bool :=
  p ← get;
  if stop_requested p || (pending_frames p >=? kMaxPendingFrames) ||
     (bytes >? u64 (kMaxPendingBytes - pending_bytes p))
  then mret false else
  pending_frames <~ u64 (pending_frames p + 1) ;;
  pending_bytes <~ u64 (pending_bytes p + bytes) ;;
  mret true.

Definition release (bytes : Z) : M t unit :=
  p ← get;
  pending_frames <~ u64 (pending_frames p - 1) ;;
  pending_bytes <~ u64 (pending_bytes p - bytes).

Definition enqueue (message : Message.t) (bytes : bytes) : M t bool :=
  reserved ← reserve (zlen bytes);
  if negb (reserved : bool) then mret false else
  let frame := MkFrame bytes (Message.type message =? Message.MsgAppendEntries)
    (Message.from message) (Message.to message) (Message.term message)
    (Message.read_context message) in
  p ← get;
  strand <~ strand p ++ [FrameTask frame] ;;
  accepted <~ accepted p ++ [frame] ;;
  mret true.

Definition send `{MsgPack Message.t} (message : Message.t) : M t bool :=
  frame ← lift (Transport.encode_message message);
  enqueue message frame.

(** ** The connection *)

Definition mark_disconnected : M t unit := connected <~ false ;; write_in_progress <~ false.

Definition write_next : M t unit :=
  p ← get;
  match outbound p with
  | [] => mret tt
  | front :: _ =>
      if stopping p || negb (connected p) || write_in_progress p then mret tt else
      write_in_progress <~ true ;;
      start_op (Write (frame_bytes front))
  end.

Definition connect : M t unit :=
  p ← get;
  if stopping p || connected p || connect_in_progress p || retry_pending p ||
     bool_decide (outbound p = [])
  then mret tt else
  connect_in_progress <~ true ;;
  start_op Resolve.

Definition schedule_retry : M t unit :=
  p ← get;
  if stopping p || bool_decide (outbound p = []) || retry_pending p then mret tt else
  retry_pending <~ true ;;
  retry_delay <~ Z.min (retry_delay p * 2) 500 ;;
  start_op Retry.

(** *** Completions *)

Definition on_resolved (error : bool) : M t unit :=
  p ← get;
  if stopping p then mret tt else
  if error then connect_in_progress <~ false ;; schedule_retry else
  start_op Connect.

Definition on_connected (error : bool) : M t unit :=
  connect_in_progress <~ false ;;
  p ← get;
  if stopping p then mret tt else
  if error then mark_disconnected ;; schedule_retry else
  connected <~ true ;;
  retry_delay <~ 20 ;;
  write_next.

Definition on_written (frame : bytes) (error : bool) : M t unit :=
  write_in_progress <~ false ;;
  p ← get;
  if stopping p then mret tt else
  if error then mark_disconnected ;; schedule_retry else
  outbound <~ drop 1 (outbound p) ;;
  written <~ written p ++ take 1 (outbound p) ;;
  release (zlen frame) ;;
  write_next.

Definition on_retry (error : bool) : M t unit :=
  retry_pending <~ false ;;
  p ← get;
  if negb error && negb (stopping p) then connect else mret tt.

(** ** The strand *)

Definition same_append_stream (previous frame : PendingFrame) : bool :=
  replaceable_append previous && (frame_from previous =? frame_from frame) &&
  (frame_to previous =? frame_to frame) && (frame_term previous =? frame_term frame) &&
  (frame_read_context previous =? frame_read_context frame).

(** The frame at the back of the queue that the new one replaces. *)
Definition replaced_by (write_in_progress : bool) (outbound : list PendingFrame)
    (frame : PendingFrame) : option PendingFrame :=
  let back_is_in_flight := write_in_progress && (length outbound =? 1)%nat in
  if negb back_is_in_flight && replaceable_append frame then
    match list.last outbound with
    | Some previous => if same_append_stream previous frame then Some previous else None
    | None => None
    end
  else None.

(** The handler [enqueue] posts. *)
Definition push_frame (frame : PendingFrame) : M t unit :=
  p ← get;
  if stopping p then release (frame_size frame) else
  match replaced_by (write_in_progress p) (outbound p) frame with
  | Some previous =>
      outbound <~ removelast (outbound p) ++ [frame] ;;
      release (frame_size previous) ;;
      when (connected p) write_next
  | None =>
      outbound <~ outbound p ++ [frame] ;;
      if connected p then write_next else connect
  end.

Definition stop_now : M t unit :=
  p ← get;
  if stopped p then mret tt else
  stopped <~ true ;;
  connected <~ false ;;
  connect_in_progress <~ false ;;
  write_in_progress <~ false ;;
  retry_pending <~ false ;;
  for_each (outbound p) (fun frame => release (frame_size frame)) ;;
  outbound <~ [].

Definition request_stop : M t unit :=
  p ← get;
  if stop_requested p then mret tt else
  stop_requested <~ true ;;
  strand <~ strand p ++ [StopNow].

(** ** A run *)

Inductive event : Type :=
| Send (message : Message.t)
| RunStrand
| Complete (op : operation) (error : bool)
| Stop.

(** An operation that is under way completes once. *)
Fixpoint remove_op (op : operation) (l : list operation) : list operation :=
  match l with
  | [] => []
  | x :: l' => if decide (x = op) then l' else x :: remove_op op l'
  end.

Definition step `{MsgPack Message.t} (ev : event) : M t unit :=
  match ev with
  | Send message => fun p =>
      (* an exception is the caller's *)
      (Ok tt, snd (send message p))
  | RunStrand =>
      p ← get;
      match strand p with
      | [] => mret tt
      | task :: tasks =>
          strand <~ tasks ;;
          match task with FrameTask frame => push_frame frame | StopNow => stop_now end
      end
  | Complete op error =>
      p ← get;
      if negb (bool_decide (op ∈ ops p)) then mret tt else
      ops <~ remove_op op (ops p) ;;
      match op with
      | Resolve => on_resolved error
      | Connect => on_connected error
      | Write frame => on_written frame error
      | Retry => on_retry error
      end
  | Stop => request_stop
  end.

(** ** The invariant *)

Fixpoint posted (tasks : list strand_task) : list PendingFrame :=
  match tasks with
  | [] => []
  | FrameTask f :: rest => f :: posted rest
  | StopNow :: rest => posted rest
  end.

Lemma posted_app ts ts' : posted (ts ++ ts') = posted ts ++ posted ts'.
Proof. induction ts as [|[f|] ts IH]; cbn; [done|by rewrite IH|done]. Qed.

(** Frames that were admitted and are not released. *)
Definition queued (p : t) : list PendingFrame := outbound p ++ posted (strand p).

Fixpoint total (fs : list PendingFrame) : Z :=
  match fs with [] => 0 | f :: fs' => frame_size f + total fs' end.

Lemma total_app fs fs' : total (fs ++ fs') = total fs + total fs'.
Proof. induction fs as [|f fs IH]; cbn; [done|]. lia. Qed.

Lemma total_nonneg fs : 0 <= total fs.
Proof.
  induction fs as [|f fs IH]; cbn; [done|]. unfold frame_size. pose proof (zlen_nonneg (frame_bytes f)). lia.
Qed.

(** What is under way: the operations, the queue, and the four flags. *)
Inductive phase : list operation -> list PendingFrame -> bool -> bool -> bool -> bool -> Prop :=
| phase_idle c : phase [] [] c false false false
| phase_resolving f fs : phase [Resolve] (f :: fs) false true false false
| phase_connecting f fs : phase [Connect] (f :: fs) false true false false
| phase_retrying f fs : phase [Retry] (f :: fs) false false false true
| phase_writing f fs : phase [Write (frame_bytes f)] (f :: fs) true false true false.

(** [l'] is [l] without some appends that the next frame replaces. *)
Inductive coalesced : list PendingFrame -> list PendingFrame -> Prop :=
| coalesced_nil : coalesced [] []
| coalesced_keep f l l' : coalesced l l' -> coalesced (f :: l) (f :: l')
| coalesced_drop f g l l' :
    replaceable_append g = true -> same_append_stream f g = true -> coalesced (g :: l) l' ->
    coalesced (f :: g :: l) l'.

(** The accounting is exact and bounded; a peer that is not stopping is in one
    of the phases, has kept the order of what it accepted, and has posted no
    [stop_now]. *)
Definition consistent (st : list strand_task) (q ob : list PendingFrame) (pf pb : Z) (stop : bool)
    (op : list operation) (cn ci wi rp : bool) (ac wr : list PendingFrame) : Prop :=
  (pf = zlen q /\ pb = total q /\ pf <= kMaxPendingFrames /\ pb <= kMaxPendingBytes) /\
  (stop = false ->
   phase op ob cn ci wi rp /\ coalesced ac (wr ++ q) /\ Forall (fun task => task <> StopNow) st).

Definition inv (p : t) : Prop :=
  consistent (strand p) (queued p) (outbound p) (pending_frames p) (pending_bytes p) (stopping p) (ops p)
    (connected p) (connect_in_progress p) (write_in_progress p) (retry_pending p)
    (accepted p) (written p).

(** *** Coalescing *)

Lemma stream_trans f g h :
  same_append_stream f g = true -> same_append_stream h g = true -> same_append_stream f h = true.
Proof. unfold same_append_stream. rewrite !andb_true_iff, !Z.eqb_eq. intuition congruence. Qed.

Lemma coalesced_head l g l' : coalesced l (g :: l') ->
  exists h l1, l = h :: l1 /\
    (h = g \/ replaceable_append g = true /\ same_append_stream h g = true).
Proof.
  intros H. remember (g :: l') as m eqn:E. revert g l' E.
  induction H as [|f l l' H IH|f g0 l l' Hr Hs H IH]; intros g m E; [done| |].
  - injection E as -> ->. exists g, l. auto.
  - destruct (IH g m E) as (h & l1 & [= <- <-] & Hh). exists f, (g0 :: l). split; [done|]. right.
    destruct Hh as [->|[Hr' Hs']]; [done|]. split; [done|].
    unfold same_append_stream in *. rewrite !andb_true_iff, !Z.eqb_eq in *. intuition congruence.
Qed.

(** A frame is overtaken by its successor. *)
Lemma coalesced_replace l a f g b :
  coalesced l (a ++ f :: g :: b) -> replaceable_append g = true -> same_append_stream f g = true ->
  coalesced l (a ++ g :: b).
Proof.
  intros H Hg Hs. remember (a ++ f :: g :: b) as m eqn:E. revert a E.
  induction H as [|x l l' H IH|x y l l' Hr Hs' H IH]; intros a E.
  - by destruct a.
  - destruct a as [|y a]; cbn in E.
    + injection E as -> ->. destruct (coalesced_head _ _ _ H) as (h & l1 & -> & Hh).
      destruct Hh as [->|[_ Hh]]; [by constructor|].
      constructor; [|by eapply stream_trans|done].
      unfold same_append_stream in Hh. rewrite !andb_true_iff in Hh. tauto.
    + injection E as -> ->. cbn. constructor. by apply IH.
  - apply coalesced_drop; [done|done|by apply IH].
Qed.

Lemma coalesced_overtaken l a a' f g b :
  coalesced l (a ++ a' ++ f :: g :: b) -> replaceable_append g = true ->
  same_append_stream f g = true -> coalesced l (a ++ a' ++ g :: b).
Proof. rewrite !app_assoc. apply coalesced_replace. Qed.

Lemma coalesced_snoc l l' f : coalesced l l' -> coalesced (l ++ [f]) (l' ++ [f]).
Proof. induction 1; cbn; [repeat constructor|by constructor|by constructor]. Qed.

(** Frames that are not appends are all kept. *)
Lemma coalesced_others l l' : coalesced l l' ->
  base.filter (fun f => replaceable_append f = false) l =
  base.filter (fun f => replaceable_append f = false) l'.
Proof.
  induction 1 as [|f l l' _ IH|f g l l' _ Hs _ IH]; [done| |].
  - rewrite !filter_cons. by case_decide; rewrite IH.
  - rewrite filter_cons, decide_False; [done|]. intros Hf.
    unfold same_append_stream in Hs. by rewrite Hf in Hs.
Qed.

(** *** Accounting *)

(** [release] of one of the admitted frames. *)
Lemma release_spec f p (frames : list PendingFrame) :
  pending_frames p = zlen frames + 1 -> pending_bytes p = total frames + frame_size f ->
  pending_frames p <= kMaxPendingFrames -> pending_bytes p <= kMaxPendingBytes ->
  release (frame_size f) p =
  (Ok tt, p <| pending_frames := zlen frames |> <| pending_bytes := total frames |>).
Proof.
  intros E1 E2 B1 B2. unfold release. run_m. rewrite E1, E2 in *.
  pose proof (zlen_nonneg frames). pose proof (total_nonneg frames).
  pose proof (zlen_nonneg (frame_bytes f)).
  unfold kMaxPendingBytes, kMaxPendingFrames, Transport.kMaxPayloadSize, Transport.kHeaderSize in *.
  rewrite !u64_small by (unfold frame_size in *; unfold_words; lia). repeat f_equal; lia.
Qed.

Lemma enqueue_inv message bytes p : inv p -> inv (snd (enqueue message bytes p)).
Proof.
  intros Hi. pose proof Hi as [(Ef & Eb & Bf & Bb) Hrun]. unfold enqueue, reserve. run_m.
  destruct (_ || _) eqn:Hg; [done|]. cbn [negb fst snd].
  rewrite !orb_false_iff in Hg. destruct Hg as [[Hs Hf] Hb].
  pose proof (zlen_nonneg bytes). pose proof (zlen_nonneg (queued p)). pose proof (total_nonneg (queued p)).
  rewrite u64_small in Hb by
    (unfold kMaxPendingBytes, Transport.kMaxPayloadSize, Transport.kHeaderSize in *; unfold_words; lia).
  rewrite (u64_small (pending_frames p + 1)), (u64_small (pending_bytes p + _)) by
    (unfold kMaxPendingFrames, kMaxPendingBytes, Transport.kMaxPayloadSize, Transport.kHeaderSize in *;
     unfold_words; lia).
  set (frame := MkFrame _ _ _ _ _ _).
  set (p' := p <| pending_frames := _ |> <| _ := _ |> <| _ := _ |> <| _ := _ |>).
  assert (queued p' = queued p ++ [frame]) as Eq.
  { unfold queued, p'. cbn. by rewrite posted_app, app_assoc. }
  unfold inv, consistent. rewrite Eq, zlen_app, total_app. cbn.
  change (frame_size frame) with (zlen bytes). change (zlen [frame]) with 1.
  split; [lia|]. intros Hst. destruct (Hrun Hst) as (Hph & Ho & Hst'). split; [done|].
  rewrite app_assoc. split; [by apply coalesced_snoc|]. apply Forall_app. by repeat constructor.
Qed.

(** *** Phases *)

Lemma phase_busy op f fs cn ci wi rp : phase op (f :: fs) cn ci wi rp -> cn = wi.
Proof. by inversion 1. Qed.

(** Only the frame being written is pinned. *)
Lemma phase_queue op f fs f' fs' cn ci wi rp :
  phase op (f :: fs) cn ci wi rp -> (wi = true -> f' = f) -> phase op (f' :: fs') cn ci wi rp.
Proof. inversion 1; subst; intros E; try constructor. rewrite (E eq_refl). constructor. Qed.

Lemma replaced_by_Some wi ob frame previous :
  replaced_by wi ob frame = Some previous ->
  exists init, ob = init ++ [previous] /\ replaceable_append frame = true /\
    same_append_stream previous frame = true /\ (wi = true -> init <> []).
Proof.
  unfold replaced_by. destruct (_ && _) eqn:Hg; [|done].
  apply andb_true_iff in Hg as [Hg Hr]. destruct (list.last ob) as [x|] eqn:Hl; [|done].
  destruct (same_append_stream x frame) eqn:Hs; [|done]. intros [= ->].
  apply last_Some in Hl as [init ->]. exists init. split_and!; try done.
  intros -> ->. done.
Qed.

(** *** Handlers of a running peer

    With the record in its parts a handler computes. *)

Ltac peer_compute :=
  cbv beta iota zeta delta [set set_strand set_ops set_outbound set_pending_frames
    set_pending_bytes set_stop_requested set_stopped set_connected set_connect_in_progress
    set_write_in_progress set_retry_pending set_retry_delay set_accepted set_written strand ops
    outbound pending_frames pending_bytes stop_requested stopped connected connect_in_progress
    write_in_progress retry_pending retry_delay accepted written orb andb negb fst snd].

Ltac peer_run :=
  unfold push_frame, stop_now, on_resolved, on_connected, on_written, on_retry, connect, write_next,
    schedule_retry, mark_disconnected, start_op, stopping; run_m; peer_compute.

(** A frame that leaves the queue unsent. *)
Lemma less_accounted (a b : list PendingFrame) f :
  zlen (a ++ f :: b) <= kMaxPendingFrames -> total (a ++ f :: b) <= kMaxPendingBytes ->
  (zlen (a ++ f :: b) = zlen (a ++ b) + 1 /\ total (a ++ f :: b) = total (a ++ b) + frame_size f) /\
  zlen (a ++ b) <= kMaxPendingFrames /\ total (a ++ b) <= kMaxPendingBytes.
Proof.
  rewrite !zlen_app, zlen_cons, !total_app. cbn. pose proof (zlen_nonneg (frame_bytes f)).
  unfold frame_size. lia.
Qed.

(** The new frame takes the place of the last one. *)
Lemma replace_inv frame p tasks previous :
  inv p -> strand p = FrameTask frame :: tasks -> stopping p = false ->
  replaced_by (write_in_progress p) (outbound p) frame = Some previous ->
  inv (snd (push_frame frame (p <| strand := tasks |>))).
Proof.
  intros [(Hf & Hb & Bf & Bb) Hrun] Hs Hst Hl.
  destruct p as [st op ob pf pb sr sp cn ci wi rp rd ac wr]. cbn in Hs. subst st.
  unfold queued, stopping in *. cbn in *. subst pf pb. destruct (Hrun Hst) as (Hph & Ho & Hts).
  apply Forall_inv_tail in Hts.
  apply orb_false_iff in Hst as [-> ->]. peer_run. rewrite Hl.
  destruct (replaced_by_Some _ _ _ _ Hl) as (init & -> & Hr & Hsame & Hwi).
  rewrite removelast_last. rewrite <- !app_assoc in *. cbn [app] in *.
  destruct (less_accounted init (frame :: posted tasks) previous Bf Bb) as [[E1 E2] [B1 B2]].
  rewrite (release_spec previous _ (init ++ frame :: posted tasks)) by done.
  assert (exists f fs f' fs', init ++ [previous] = f :: fs /\ init ++ [frame] = f' :: fs' /\
    (wi = true -> f' = f)) as (f & fs & f' & fs' & Eo & Eo' & Ef).
  { destruct init as [|x init]; cbn; [|by eauto 10].
    exists previous, [], frame, []. split_and!; try done. intros H. by destruct (Hwi H). }
  apply coalesced_overtaken in Ho; [|done|done].
  assert (init ++ frame :: posted tasks = (f' :: fs') ++ posted tasks) as Eq
    by (by rewrite <- Eo', <- app_assoc).
  rewrite Eo in Hph. rewrite Eo', Eq in *. pose proof (phase_busy _ _ _ _ _ _ _ Hph) as ->.
  pose proof (phase_queue _ _ _ f' fs' _ _ _ _ Hph Ef) as Hph'.
  destruct wi; unfold inv, consistent, queued, stopping; cbn; (split; [done|]); intros _; by split_and!.
Qed.

(** The new frame joins the end of the queue. *)
Lemma append_inv frame p tasks :
  inv p -> strand p = FrameTask frame :: tasks -> stopping p = false ->
  replaced_by (write_in_progress p) (outbound p) frame = None ->
  inv (snd (push_frame frame (p <| strand := tasks |>))).
Proof.
  intros [(Hf & Hb & Bf & Bb) Hrun] Hs Hst Hl.
  destruct p as [st op ob pf pb sr sp cn ci wi rp rd ac wr]. cbn in Hs. subst st.
  unfold queued, stopping in *. cbn in *. subst pf pb. destruct (Hrun Hst) as (Hph & Ho & Hts).
  apply Forall_inv_tail in Hts.
  apply orb_false_iff in Hst as [-> ->].
  assert (ob ++ frame :: posted tasks = (ob ++ [frame]) ++ posted tasks) as Eq
    by (by rewrite <- app_assoc).
  rewrite Eq in *.
  inversion Hph; subst; try destruct cn; peer_run; rewrite Hl; peer_compute; run_m; peer_compute;
    cbn [app] in *; repeat (rewrite bool_decide_eq_false_2 by done; peer_compute);
    unfold inv, consistent, queued, stopping; cbn;
    (split; [done|]); intros _; (split; [|done]); constructor.
Qed.

Lemma push_frame_inv frame p tasks :
  inv p -> strand p = FrameTask frame :: tasks ->
  inv (snd (push_frame frame (p <| strand := tasks |>))).
Proof.
  intros Hi Hs. destruct (stopping p) eqn:Hst.
  - destruct Hi as [(Hf & Hb & Bf & Bb) _].
    destruct p as [st op ob pf pb sr sp cn ci wi rp rd ac wr]. cbn in Hs. subst st.
    unfold queued, stopping in *. cbn in *. subst pf pb.
    destruct (less_accounted ob (posted tasks) frame Bf Bb) as [[E1 E2] [B1 B2]].
    unfold push_frame, stopping. unfold mbind at 1, M_bind at 1. cbn [get stopped stop_requested].
    change (stopped _) with sp. change (stop_requested _) with sr.
    rewrite Hst, (release_spec frame _ (ob ++ posted tasks)) by done.
    unfold inv, queued, stopping, consistent. cbn. by rewrite Hst.
  - destruct (replaced_by (write_in_progress p) (outbound p) frame) eqn:Hl;
      [by eapply replace_inv|by eapply append_inv].
Qed.

(** *** The other handlers *)

Lemma release_all frames : forall p rest,
  pending_frames p = zlen (frames ++ rest) -> pending_bytes p = total (frames ++ rest) ->
  pending_frames p <= kMaxPendingFrames -> pending_bytes p <= kMaxPendingBytes ->
  for_each frames (fun frame => release (frame_size frame)) p =
  (Ok tt, p <| pending_frames := zlen rest |> <| pending_bytes := total rest |>).
Proof.
  induction frames as [|f frames IH]; intros p rest E1 E2 B1 B2.
  - cbn in *. rewrite <- E1, <- E2. by destruct p.
  - cbn [for_each]. unfold mbind, M_bind. rewrite E1 in B1. rewrite E2 in B2.
    destruct (less_accounted [] (frames ++ rest) f B1 B2) as [[F1 F2] [D1 D2]]. cbn [app] in *.
    rewrite (release_spec f p (frames ++ rest)) by congruence. by rewrite (IH _ rest).
Qed.

Lemma stop_now_inv p tasks :
  inv p -> strand p = StopNow :: tasks -> inv (snd (stop_now (p <| strand := tasks |>))).
Proof.
  intros [(Hf & Hb & Bf & Bb) Hrun] Hs. unfold stop_now. unfold mbind at 1, M_bind at 1. cbn [get].
  unfold queued in *. rewrite Hs in *. cbn [posted] in *.
  change (stopped (p <| strand := tasks |>)) with (stopped p). destruct (stopped p) eqn:Hst.
  - split; [done|]. intros Hsp. unfold stopping in Hsp. cbn in Hsp. by rewrite Hst in Hsp.
  - run_m. change (outbound (p <| strand := tasks |>)) with (outbound p).
    rewrite (release_all (outbound p) _ (posted tasks)) by done.
    split; [|done]. unfold queued. cbn.
    rewrite zlen_app in Hf. rewrite total_app in Hb. pose proof (zlen_nonneg (outbound p)).
    pose proof (total_nonneg (outbound p)). lia.
Qed.

(** Operations complete.  A wait fails only when the timer is cancelled, which
    a peer does when it stops. *)
Definition plausible (p : t) (ev : event) : Prop :=
  match ev with Complete Retry true => stopping p = true | _ => True end.

Ltac phase_step :=
  peer_run; cbn [remove_op]; rewrite decide_True by done;
  repeat (rewrite bool_decide_eq_false_2 by done; peer_compute);
  (split; [done|]); intros _; (split; [|done]); constructor.

(** The frame at the front has been written. *)
Lemma written_inv f fs st pf pb rd ac wr :
  let p op := mk st op (f :: fs) pf pb false false true false true false rd ac wr in
  inv (p [Write (frame_bytes f)]) -> inv (snd (on_written (frame_bytes f) false (p []))).
Proof.
  cbv zeta. intros [(Hf & Hb & Bf & Bb) Hrun]. destruct (Hrun eq_refl) as (_ & Ho & Hts).
  unfold queued in *. cbn in *. subst pf pb.
  destruct (less_accounted [] (fs ++ posted st) f Bf Bb) as [[E1 E2] [B1 B2]]. cbn [app] in *.
  unfold on_written, stopping. run_m. peer_compute. change (zlen (frame_bytes f)) with (frame_size f).
  rewrite (release_spec f _ (fs ++ posted st)) by done.
  change (drop 1 (f :: fs)) with fs. change (take 1 (f :: fs)) with [f].
  change (f :: fs ++ posted st) with ([f] ++ (fs ++ posted st)) in Ho. rewrite app_assoc in Ho.
  destruct fs as [|g fs]; peer_run; (split; [done|]); intros _; (split; [|done]); constructor.
Qed.

Lemma complete_inv `{MsgPack Message.t} op error p :
  inv p -> plausible p (Complete op error) -> inv (snd (step (Complete op error) p)).
Proof.
  intros Hi Hpl. cbn [step]. unfold mbind at 1, M_bind at 1. cbn [get].
  case_bool_decide as Hin; [|done]. cbn [negb]. pose proof Hi as [Hacc Hrun].
  destruct p as [st op' ob pf pb sr sp cn ci wi rp rd ac wr].
  unfold queued, stopping in *. cbn in Hacc, Hin, Hpl, Hrun.
  destruct (sp || sr) eqn:Hst.
  - destruct sp, sr; try done; destruct op, error; peer_run; by split.
  - apply orb_false_iff in Hst as [-> ->]. destruct (Hrun eq_refl) as [Hph Ho].
    inversion Hph; subst; [by apply elem_of_nil in Hin|..];
      apply list_elem_of_singleton in Hin; subst op; destruct error; try done; try phase_step.
    pose proof (written_inv f fs st pf pb rd ac wr Hi) as Hw.
    run_m. cbn [ops remove_op]. rewrite decide_True by done. apply Hw.
Qed.

Lemma peer_step_inv `{MsgPack Message.t} ev p : inv p -> plausible p ev -> inv (snd (step ev p)).
Proof.
  intros Hi Hpl. destruct ev as [message| |op error|].
  - cbn [step snd]. unfold send. unfold mbind at 1, M_bind at 1. unfold lift.
    destruct (Transport.encode_message message); [by apply enqueue_inv|done].
  - cbn [step]. unfold mbind at 1, M_bind at 1. cbn [get].
    destruct (strand p) as [|task tasks] eqn:Hs; [done|]. destruct task as [frame|];
      [by apply (push_frame_inv frame p tasks)|by apply stop_now_inv].
  - by apply complete_inv.
  - cbn [step]. unfold request_stop. run_m. destruct Hi as [Hacc Hrun].
    destruct (stop_requested p) eqn:Hsr; [by split|]. unfold inv, queued, stopping. cbn.
    rewrite posted_app, app_nil_r, orb_true_r. by split.
Qed.

(** ** Reachable peers *)

Inductive reachable `{MsgPack Message.t} : t -> Prop :=
| reachable_create : reachable create
| reachable_step ev p : reachable p -> plausible p ev -> reachable (snd (step ev p)).

Lemma peer_reachable_inv `{MsgPack Message.t} p : reachable p -> inv p.
Proof.
  induction 1 as [|ev p _ IH Hpl]; [|by apply peer_step_inv].
  split; [done|]. intros _. repeat constructor.
Qed.

(** A schedule without failures: handlers first, then the operation under way. *)
Definition drive `{MsgPack Message.t} (p : t) : t :=
  match strand p, ops p with
  | _ :: _, _ => snd (step RunStrand p)
  | [], op :: _ => snd (step (Complete op false) p)
  | [], [] => p
  end.

Definition drive_n `{MsgPack Message.t} (n : nat) (p : t) : t := Nat.iter n drive p.

Lemma drive_add `{MsgPack Message.t} n m p : drive_n (n + m) p = drive_n n (drive_n m p).
Proof. apply Nat.iter_add. Qed.

(** What a schedule without failures keeps. *)
Definition kept (p p' : t) : Prop := inv p' /\ stopping p' = false /\ accepted p' = accepted p.

Lemma kept_trans p p' p'' : kept p p' -> kept p' p'' -> kept p p''.
Proof. unfold kept. intuition congruence. Qed.

Lemma push_frame_keeps frame p tasks :
  stopping p = false ->
  let p' := snd (push_frame frame (p <| strand := tasks |>)) in
  strand p' = tasks /\ stopping p' = false /\ accepted p' = accepted p.
Proof.
  intros Hst. cbv zeta. apply (wp_snd (push_frame frame) (fun p' =>
    strand p' = tasks /\ stopping p' = false /\ accepted p' = accepted p)).
  unfold push_frame, connect, write_next, start_op, release.
  repeat (wp_step || lazymatch goal with
    | |- wp (match ?x with _ => _ end) _ _ _ => destruct x
    end); by unfold stopping in *.
Qed.

(** The posted handlers run. *)
Lemma drive_strand `{MsgPack Message.t} tasks : forall p,
  inv p -> stopping p = false -> strand p = tasks ->
  exists n, kept p (drive_n n p) /\ strand (drive_n n p) = [].
Proof.
  induction tasks as [|task tasks IH]; intros p Hi Hst Hs; [by exists 0%nat|].
  assert (exists frame, task = FrameTask frame) as [frame ->].
  { destruct Hi as [_ Hrun]. destruct (Hrun Hst) as (_ & _ & Hts). rewrite Hs in Hts.
    apply Forall_inv in Hts. destruct task; [by eexists|done]. }
  assert (drive p = snd (push_frame frame (p <| strand := tasks |>))) as Ed.
  { unfold drive. rewrite Hs. cbn [step]. run_m. by rewrite Hs. }
  assert (inv (drive p)) as Hi' by (rewrite Ed; by apply push_frame_inv).
  assert (strand (drive p) = tasks /\ stopping (drive p) = false /\ accepted (drive p) = accepted p)
    as (Hs' & Hst' & Ha') by (rewrite Ed; by apply push_frame_keeps).
  destruct (IH _ Hi' Hst' Hs') as (n & Hk & Hn).
  exists (n + 1)%nat. rewrite drive_add. split; [|done]. by eapply kept_trans; [|exact Hk].
Qed.

(** How far an operation is from a write. *)
Definition rank (p : t) : nat :=
  match ops p with [Retry] => 3 | [Resolve] => 2 | [Connect] => 1 | _ => 0 end.

(** The operation under way succeeds. *)
Lemma drive_operation `{MsgPack Message.t} p :
  inv p -> stopping p = false -> strand p = [] -> outbound p <> [] ->
  kept p (drive p) /\ strand (drive p) = [] /\
  (rank (drive p) + length (outbound (drive p)) < rank p + length (outbound p))%nat.
Proof.
  intros Hi Hst Hs Hne. pose proof (complete_inv (hd Retry (ops p)) false p Hi) as Hi'.
  destruct p as [st op ob pf pb sr sp cn ci wi rp rd ac wr]. unfold kept, stopping in *. cbn in Hst, Hs, Hne.
  subst st. apply orb_false_iff in Hst as [-> ->]. destruct Hi as [_ Hrun].
  destruct (Hrun eq_refl) as [Hph _]. cbn in Hph.
  inversion Hph; subst; [done|..]; cbn in Hi'; specialize (Hi' I); unfold drive; cbn [strand ops];
    (split; [split; [exact Hi'|]|]); clear; try destruct fs as [|g fs]; unfold rank; cbn [step];
    peer_run; rewrite bool_decide_eq_true_2 by (by apply list_elem_of_singleton);
    peer_compute; cbn [remove_op]; try rewrite decide_True by done; unfold release; run_m; peer_compute;
    repeat (rewrite bool_decide_eq_false_2 by done); peer_compute; cbn; (done || (split; [done|lia])).
Qed.

(** The queue of a peer whose handlers have run is written out. *)
Lemma drive_queue `{MsgPack Message.t} k : forall p,
  inv p -> stopping p = false -> strand p = [] -> (rank p + length (outbound p) <= k)%nat ->
  exists n, kept p (drive_n n p) /\ queued (drive_n n p) = [].
Proof.
  induction k as [|k IH]; intros p Hi Hst Hs Hk;
    (destruct (decide (outbound p = [])) as [Ho|Ho];
      [exists 0%nat; unfold queued; cbn; by rewrite Ho, Hs|]).
  - by destruct (outbound p); cbn in *; [|lia].
  - destruct (drive_operation p Hi Hst Hs Ho) as (Hkp & Hs' & Hlt).
    destruct (IH (drive p)) as (n & Hk' & Hq); [apply Hkp|apply Hkp|done|lia|].
    exists (n + 1)%nat. rewrite drive_add. split; [|done]. by eapply kept_trans.
Qed.

(** C26: The accounting of a peer's queue is exact and bounded: in every
    reachable state the counters are the number and the total size of the
    frames that are queued or posted, at most 512 frames and at most the bytes
    of one full frame. *)
Theorem peer_accounting `{MsgPack Message.t} p :
  reachable p ->
  pending_frames p = zlen (queued p) /\ pending_bytes p = total (queued p) /\
  0 <= pending_frames p <= kMaxPendingFrames /\ 0 <= pending_bytes p <= kMaxPendingBytes.
Proof.
  intros Hr. destruct (peer_reachable_inv p Hr) as [(Ef & Eb & Bf & Bb) _].
  pose proof (zlen_nonneg (queued p)). pose proof (total_nonneg (queued p)). lia.
Qed.

(** C24: A running peer writes what it accepted in order: the frames written
    and those waiting are the accepted ones, without appends that the next
    accepted frame of the same sender, receiver, term and read round replaces;
    all other frames are there. *)
Theorem peer_order `{MsgPack Message.t} p :
  reachable p -> stopping p = false ->
  coalesced (accepted p) (written p ++ queued p) /\
  base.filter (fun f => replaceable_append f = false) (accepted p) =
  base.filter (fun f => replaceable_append f = false) (written p ++ queued p).
Proof.
  intros Hr Hst. destruct (peer_reachable_inv p Hr) as [_ Hrun]. destruct (Hrun Hst) as (_ & Ho & _).
  split; [done|]. by apply coalesced_others.
Qed.

(** C25: A running peer is never stuck: with a frame queued exactly one
    operation is under way, and when the operations succeed from here on the
    whole queue is written. *)
Theorem peer_progress `{MsgPack Message.t} p :
  reachable p -> stopping p = false ->
  (outbound p <> [] -> length (ops p) = 1%nat) /\
  exists n, let p' := drive_n n p in
    queued p' = [] /\ stopping p' = false /\ coalesced (accepted p) (written p').
Proof.
  intros Hr Hst. pose proof (peer_reachable_inv p Hr) as Hi. split.
  - intros Ho. destruct Hi as [_ Hrun]. destruct (Hrun Hst) as (Hph & _). by inversion Hph; subst.
  - destruct (drive_strand (strand p) p Hi Hst eq_refl) as (n & (Hi1 & Hst1 & Ha1) & Hs1).
    destruct (drive_queue _ (drive_n n p) Hi1 Hst1 Hs1 (le_n _)) as (m & (Hi2 & Hst2 & Ha2) & Hq).
    exists (m + n)%nat. cbv zeta. rewrite drive_add. split_and!; [done|done|].
    destruct Hi2 as [_ Hrun]. destruct (Hrun Hst2) as (_ & Ho & _).
    rewrite Hq, app_nil_r in Ho. congruence.
Qed.

(** C27: A message is refused for one of four reasons and then nothing changes:
    its encoding is over the transport's limit (an exception), the peer is
    stopping, 512 frames are queued, or the bytes queued leave no room for it.
    In every other case it is accepted at the end of the queue.  (No object is
    packed to no bytes at all.) *)
Theorem peer_admission `{MsgPack Message.t} p message :
  reachable p -> pack message <> [] ->
  let too_large := zlen (pack message) > Transport.kMaxPayloadSize in
  let size := Transport.kHeaderSize + zlen (pack message) in
  let full := stop_requested p = true \/ zlen (queued p) = kMaxPendingFrames \/
              total (queued p) + size > kMaxPendingBytes in
  match send message p with
  | (Throw e, p') => too_large /\ p' = p /\ e = length_error "serialized message exceeds transport limit"
  | (Ok false, p') => ~ too_large /\ full /\ p' = p
  | (Ok true, p') => ~ too_large /\ ~ full /\
      exists frame, frame_size frame = size /\ queued p' = queued p ++ [frame] /\
        accepted p' = accepted p ++ [frame]
  end.
Proof.
  intros Hr Hne too_large size full. destruct (peer_reachable_inv p Hr) as [(Ef & Eb & Bf & Bb) _].
  unfold send. destruct (decide (zlen (pack message) <= Transport.kMaxPayloadSize)) as [Hz|Hz].
  2:{ unfold Transport.encode_message. destruct (Z.gtb_spec (zlen (pack message)) Transport.kMaxPayloadSize); [|lia].
      cbn. split_and!; [unfold too_large; lia|done|done]. }
  assert (Transport.sized (pack message)) as Hsz.
  { split; [|done]. destruct (pack message); [done|]. rewrite zlen_cons. pose proof (zlen_nonneg l). lia. }
  rewrite Transport.encode_message_frame by done.
  assert (zlen (Transport.frame_of (pack message)) = size) as Hs.
  { unfold Transport.frame_of. rewrite zlen_app. unfold zlen at 1. by rewrite Transport.header_of_length. }
  pose proof (zlen_nonneg (pack message)). pose proof (total_nonneg (queued p)).
  unfold enqueue, reserve. run_m. rewrite Hs.
  rewrite u64_small by (unfold kMaxPendingBytes, Transport.kMaxPayloadSize, Transport.kHeaderSize in *;
    unfold_words; lia).
  destruct (_ || _) eqn:Hg; cbn [negb].
  - split_and!; [unfold too_large; lia| |done]. unfold full. guards; [by left|right; left; lia|right; right; lia].
  - rewrite !orb_false_iff in Hg. destruct Hg as [[Hst Hf] Hb]. guards.
    split_and!; [unfold too_large; lia|unfold full; rewrite Hst; intros [|[|]]; [done|lia|lia]|].
    eexists. split; [|split; [unfold queued; cbn; by rewrite posted_app, app_assoc|done]]. done.
Qed.

(** ** A run *)

Section Demo.
#[local] Instance bits_message_pack : MsgPack Message.t := Bits.msgpack Message.t.

Definition append_message (index : Z) : Message.t :=
  Message.default <| Message.type := Message.MsgAppendEntries |> <| Message.from := 1 |>
    <| Message.to := 2 |> <| Message.term := 3 |>
    <| Message.prev_log_index := index |>.

(** Three appends; the connection is refused once; the second append is
    overtaken by the third. *)
Definition demo_events : list event :=
  [Send (append_message 1); RunStrand; Complete Resolve false; Complete Connect true;
   Complete Retry false; Complete Resolve false; Complete Connect false;
   Send (append_message 2); RunStrand; Send (append_message 3); RunStrand].

Definition demo_peer : t := fold_left (fun p ev => snd (step ev p)) demo_events create.

Lemma run_reachable evs : forall p,
  reachable p -> Forall (fun ev => ev <> Complete Retry true) evs ->
  reachable (fold_left (fun p ev => snd (step ev p)) evs p).
Proof.
  induction evs as [|ev evs IH]; intros p Hr He; cbn; [done|].
  apply IH; [|by eapply Forall_inv_tail]. constructor; [done|]. apply Forall_inv in He.
  by destruct ev as [| |[] []|].
Qed.

Lemma demo_reachable : reachable demo_peer.
Proof. apply run_reachable; [constructor|]. by repeat constructor. Qed.

Lemma peer_accounting_witness :
  length (queued demo_peer) = 2%nat /\
  pending_frames demo_peer = zlen (queued demo_peer) /\
  pending_bytes demo_peer = total (queued demo_peer) /\
  0 <= pending_frames demo_peer <= kMaxPendingFrames /\
  0 <= pending_bytes demo_peer <= kMaxPendingBytes.
Proof. split; [by vm_compute|]. apply (peer_accounting demo_peer), demo_reachable. Defined.

Lemma peer_order_witness :
  length (accepted demo_peer) = 3%nat /\ length (written demo_peer ++ queued demo_peer) = 2%nat /\
  coalesced (accepted demo_peer) (written demo_peer ++ queued demo_peer).
Proof.
  split; [by vm_compute|]. split; [by vm_compute|].
  apply (peer_order demo_peer); [apply demo_reachable|by vm_compute].
Defined.

Lemma peer_progress_witness :
  exists n, let p' := drive_n n demo_peer in
    queued p' = [] /\ stopping p' = false /\ coalesced (accepted demo_peer) (written p').
Proof. apply (peer_progress demo_peer); [apply demo_reachable|by vm_compute]. Defined.

Lemma peer_admission_witness :
  queued demo_peer <> [] /\ fst (send (append_message 4) demo_peer) = Ok true /\
  match send (append_message 4) demo_peer with
  | (Ok true, p') => exists frame, queued p' = queued demo_peer ++ [frame]
  | _ => False
  end.
Proof.
  split; [by vm_compute|]. split; [by vm_compute|].
  pose proof (peer_admission demo_peer (append_message 4) demo_reachable ltac:(by vm_compute)) as H. cbv zeta in H.
  assert (fst (send (append_message 4) demo_peer) = Ok true) as E by by vm_compute.
  destruct (send (append_message 4) demo_peer) as [[[]|] p']; try discriminate E.
  destruct H as (_ & _ & frame & _ & Hq & _). by exists frame.
Defined.

(** A member that does not listen; a leader with nothing to replicate sends it
    an append for each read round, which are not of one stream. *)
Definition read_round (context : Z) : Message.t :=
  (append_message 1) <| Message.read_context := context |>.

Definition deaf_events : list event :=
  mjoin ((fun k => [Send (read_round (Z.of_nat k)); RunStrand; Complete Resolve true; Complete Retry false])
           <$> seq 1 512).

Definition deaf_peer : t := fold_left (fun p ev => snd (step ev p)) deaf_events create.

(** After 512 read rounds the queue of a member that is away is full and the
    next message is refused, with no stop requested. *)
Lemma queue_exhausted :
  reachable deaf_peer /\ stopping deaf_peer = false /\ fst (send (read_round 513) deaf_peer) = Ok false.
Proof.
  split; [|by vm_compute]. apply run_reachable; [constructor|].
  apply list.Forall_forall. intros ev Hev ->. unfold deaf_events in Hev.
  apply list_elem_of_join in Hev as (l & Hl & (k & -> & _)%list_elem_of_fmap).
  repeat (apply elem_of_cons in Hl as [?|Hl]; [discriminate|]). by apply not_elem_of_nil in Hl.
Qed.
End Demo.

End Peer.
