(* ===== verification/Link.v ===== *)
(** * A peer and the connections it writes to

    [src/transport/peer.cpp] at one end, [src/transport/server.cpp] at the
    other, and TCP between them.  Every connect that succeeds makes a new
    connection; the socket takes the bytes of the frame that is being written a
    few at a time, also of one whose write fails in the end, and the other side
    receives what the socket took, in order, up to some point.  What the other
    side dispatches are messages the peer accepted: the network of [Cluster]
    makes nothing up. *)

From S2P Require Import Prelude Msgpack Proto Transport Peer.

(** ** Frames in a stream *)

Section Frames.
Context {MP : MsgPack Message.t}.
Import Transport.

Lemma frame_of_inj p q x y :
  sized p -> sized q -> frame_of p ++ x = frame_of q ++ y -> p = q /\ x = y.
Proof.
  intros Hp Hq E. pose proof (header_of_length p Hp) as Lp. pose proof (header_of_length q Hq) as Lq.
  unfold frame_of in E. rewrite <- !app_assoc in E.
  apply app_inj_1 in E as [Eh Et]; [|congruence].
  pose proof (decode_header_of p Hp) as Dp. pose proof (decode_header_of q Hq) as Dq.
  rewrite Eh, Dq in Dp. injection Dp as Ez.
  apply app_inj_1 in Et; [done|]. unfold zlen in Ez. lia.
Qed.

(** Frames at the start of a stream of frames are its first frames. *)
Lemma frames_prefix ps : forall qs,
  Forall sized ps -> Forall sized qs ->
  mjoin (frame_of <$> ps) `prefix_of` mjoin (frame_of <$> qs) -> ps `prefix_of` qs.
Proof.
  induction ps as [|p ps IH]; intros qs Hp Hq [k E]; [apply prefix_nil|].
  apply Forall_cons_iff in Hp as [Hp Hps]. rewrite fmap_cons in E.
  change (mjoin (frame_of p :: (frame_of <$> ps))) with (frame_of p ++ mjoin (frame_of <$> ps)) in E.
  rewrite <- app_assoc in E. destruct qs as [|q qs].
  - apply (f_equal length) in E. change (mjoin (frame_of <$> [])) with (@nil byte) in E.
    unfold frame_of in E. rewrite !length_app, header_of_length in E by done. cbn in E. lia.
  - apply Forall_cons_iff in Hq as [Hq Hqs]. rewrite fmap_cons in E.
    change (mjoin (frame_of q :: (frame_of <$> qs))) with (frame_of q ++ mjoin (frame_of <$> qs)) in E.
    destruct (frame_of_inj q p _ _ Hq Hp E) as [-> E']. apply prefix_cons, IH; [done..|].
    by exists k.
Qed.

(** What the encoder returns. *)
Lemma encode_message_inv m frame :
  encode_message m = Ok frame -> sized (pack m) /\ frame = frame_of (pack m).
Proof.
  intros E. assert (sized (pack m)) as Hz.
  { unfold encode_message in E.
    destruct (Z.gtb_spec (zlen (pack m)) kMaxPayloadSize) as [|Hle]; [done|].
    split; [|done]. pose proof (zlen_nonneg (pack m)). destruct (decide (zlen (pack m) = 0)) as [E0|]; [|lia].
    rewrite E0 in E. by vm_compute in E. }
  split; [done|]. rewrite encode_message_frame in E by done. congruence.
Qed.

End Frames.

Module Link.
Import Transport.

(** One connection: what the peer's socket took, what reached the other side, and
    the server's object there. *)
Record wire : Type := MkWire {
  taken : bytes;
  delivered : bytes;
  receiver : Connection;
}.

Record t : Type := mk {
  peer : Peer.t;
  wires : list wire;  (* the newest last *)
  offset : nat;  (* how much of the frame under way the socket took *)
  messages : list Message.t;  (* accepted by [Peer::send], in order *)
}.

Inductive event : Type :=
| PeerMoves (ev : Peer.event)
| Transmit (n : nat)
| WireMoves (j : nat) (ev : connection_event).

Definition created : t := mk Peer.create [] 0 [].

Definition new_wire : wire := MkWire [] [] accepted_connection.

(** The frame a write is under way for. *)
Definition writing (p : Peer.t) : option bytes :=
  match Peer.ops p with [Peer.Write frame] => Some frame | _ => None end.

Section Step.
Context {MP : MsgPack Message.t}.

Definition wire_step (w : wire) (ev : connection_event) : wire :=
  MkWire (taken w) (delivered w ++ arrived [ev]) (connection_step (receiver w) ev).

Definition step (ev : event) (l : t) : t :=
  match ev with
  | PeerMoves ev =>
      let p := peer l in
      let p' := snd (Peer.step ev p) in
      match ev with
      | Peer.Send m =>
          mk p' (wires l) (offset l)
            (match fst (Peer.send m p) with Ok true => messages l ++ [m] | _ => messages l end)
      | Peer.Complete op error =>
          if negb (bool_decide (op ∈ Peer.ops p)) then l else
          match op, error with
          | Peer.Connect, false => mk p' (wires l ++ [new_wire]) 0 (messages l)
          | Peer.Write _, _ => mk p' (wires l) 0 (messages l)
          | _, _ => mk p' (wires l) (offset l) (messages l)
          end
      | _ => mk p' (wires l) (offset l) (messages l)
      end
  | Transmit n =>
      match writing (peer l), list.last (wires l) with
      | Some frame, Some w =>
          let more := take n (drop (offset l) frame) in
          mk (peer l)
            (removelast (wires l) ++ [MkWire (taken w ++ more) (delivered w) (receiver w)])
            (offset l + length more) (messages l)
      | _, _ => l
      end
  | WireMoves j ev =>
      mk (peer l) (alter (fun w => wire_step w ev) j (wires l)) (offset l) (messages l)
  end.

(** A write succeeds when the socket took the whole frame; bytes that arrive were
    taken. *)
Definition plausible (l : t) (ev : event) : Prop :=
  match ev with
  | PeerMoves ev =>
      Peer.plausible (peer l) ev /\
      match ev with
      | Peer.Complete (Peer.Write frame) false => offset l = length frame
      | _ => True
      end
  | Transmit _ => True
  | WireMoves j ev =>
      match wires l !! j with
      | Some w => delivered w ++ arrived [ev] `prefix_of` taken w
      | None => True
      end
  end.

Inductive reachable : t -> Prop :=
| reachable_created : reachable created
| reachable_step ev l : reachable l -> plausible l ev -> reachable (step ev l).

(** ** What the peer does between two frames *)

Lemma coalesced_sublist l l' : Peer.coalesced l l' -> l' `sublist_of` l.
Proof. induction 1; by constructor. Qed.

(** A peer that is stopping starts nothing. *)
Definition winds_down (p p' : Peer.t) : Prop :=
  Peer.stopping p' = true /\ Peer.accepted p `sublist_of` Peer.accepted p' /\
  (Peer.ops p' = Peer.ops p \/ exists op, Peer.ops p' = Peer.remove_op op (Peer.ops p)).

Ltac winding Hs :=
  split_and!;
  [ try exact Hs; unfold Peer.stopping in *; cbn in *; rewrite ?orb_true_r; done
  | try reflexivity; cbn; by apply sublist_inserts_r
  | cbn; by eauto ].

Lemma stopping_step ev p : Peer.stopping p = true -> winds_down p (snd (Peer.step ev p)).
Proof.
  intros Hs. apply (wp_snd _ (winds_down p)).
  destruct ev as [m| |op error|]; cbn [Peer.step].
  - apply (wp_snd (S := Peer.t) (A := unit) (fun q => (Ok tt, snd (Peer.send m p))) (winds_down p) p).
    cbn. apply (wp_snd (Peer.send m) (winds_down p)). unfold Peer.send, Peer.enqueue, Peer.reserve.
    wp_step. unfold wp at 1, lift. destruct (encode_message m); [|winding Hs].
    repeat wp_step; winding Hs.
  - do 2 wp_step. destruct (Peer.strand p) as [|[frame|] tasks]; [wp_step; winding Hs|..].
    + do 2 wp_step. unfold Peer.push_frame, Peer.release. do 3 wp_step; [repeat wp_step; winding Hs|].
      cbn in Hif. unfold Peer.stopping in *. cbn in Hif. congruence.
    + do 2 wp_step. unfold Peer.stop_now. do 2 wp_step. wp_step; [wp_step; winding Hs|].
      repeat lazymatch goal with |- wp (for_each _ _ ≫= _) _ _ _ => fail | _ => wp_step end.
      wp_step. eapply wp_mono; [apply (wp_for_each _ _ (winds_down p))| |].
      * winding Hs.
      * intros frame p1 _ (H1 & H2 & H3). unfold Peer.release. by repeat wp_step.
      * cbv beta. intros [] p1 (H1 & H2 & H3). by wp_step.
      * intros ? ? H. exact H.
  - do 2 wp_step. wp_step; [wp_step; winding Hs|]. do 2 wp_step.
    destruct op; unfold Peer.on_resolved, Peer.on_connected, Peer.on_written, Peer.on_retry;
      repeat wp_step; try (winding Hs); unfold Peer.stopping in *; cbn in *;
      try congruence; guards; congruence.
  - unfold Peer.request_stop. repeat wp_step; winding Hs.
Qed.

(** A running peer that takes a frame keeps the one at the front. *)
Lemma push_keeps frame p :
  Peer.stopping p = false ->
  let p' := snd (Peer.push_frame frame p) in
  Peer.stopping p' = false /\ Peer.connected p' = Peer.connected p /\
  Peer.written p' = Peer.written p /\ Peer.accepted p' = Peer.accepted p /\
  (Peer.outbound p' = Peer.outbound p ++ [frame] \/
   is_Some (Peer.replaced_by (Peer.write_in_progress p) (Peer.outbound p) frame) /\
   Peer.outbound p' = removelast (Peer.outbound p) ++ [frame]).
Proof.
  intros Hst. cbv zeta. apply (wp_snd (Peer.push_frame frame) (fun p' =>
    Peer.stopping p' = false /\ Peer.connected p' = Peer.connected p /\
    Peer.written p' = Peer.written p /\ Peer.accepted p' = Peer.accepted p /\
    (Peer.outbound p' = Peer.outbound p ++ [frame] \/
     is_Some (Peer.replaced_by (Peer.write_in_progress p) (Peer.outbound p) frame) /\
     Peer.outbound p' = removelast (Peer.outbound p) ++ [frame]))).
  unfold Peer.push_frame, Peer.connect, Peer.write_next, Peer.start_op, Peer.release.
  repeat (wp_step || lazymatch goal with
    | |- wp (match ?x with _ => _ end) _ _ _ => destruct x eqn:?
    end); unfold Peer.stopping in *; try congruence; cbn in *; split_and!; auto; right; by eauto.
Qed.

(** ** The invariant *)

Definition frames (fs : list Peer.PendingFrame) : bytes := mjoin (Peer.frame_bytes <$> fs).

Lemma frames_app fs gs : frames (fs ++ gs) = frames fs ++ frames gs.
Proof. unfold frames. by rewrite fmap_app, join_app. Qed.

Lemma frames_snoc fs f : frames (fs ++ [f]) = frames fs ++ Peer.frame_bytes f.
Proof. rewrite frames_app. unfold frames at 2. cbn. by rewrite app_nil_r. Qed.

(** The newest connection of a running peer carries the last frames that were
    written and, while a write is under way, the start of the next; once the peer
    is stopping only that frame can go on. *)
Definition half_written (p : Peer.t) (data : option bytes) (off : nat) : Prop :=
  forall frame, writing p = Some frame -> exists fs f,
    data = Some (frames fs ++ take off frame) /\ frame = Peer.frame_bytes f /\
    fs ++ [f] `sublist_of` Peer.accepted p.

Definition socket (p : Peer.t) (data : option bytes) (off : nat) : Prop :=
  if Peer.stopping p then half_written p data off else
  Peer.connected p = true -> exists w0 fs,
    Peer.written p = w0 ++ fs /\
    match Peer.outbound p with
    | [] => data = Some (frames fs) /\ off = 0%nat
    | f :: _ => data = Some (frames fs ++ take off (Peer.frame_bytes f))
    end.

Lemma phase_write frame ob cn ci wi rp :
  Peer.phase [Peer.Write frame] ob cn ci wi rp ->
  cn = true /\ exists f fs, ob = f :: fs /\ frame = Peer.frame_bytes f.
Proof. inversion 1; subst. by eauto. Qed.

Lemma writing_ops p frame : writing p = Some frame -> Peer.ops p = [Peer.Write frame].
Proof. unfold writing. intros. repeat case_match; congruence. Qed.

Lemma socket_writing p data off : Peer.inv p -> socket p data off -> half_written p data off.
Proof.
  intros Hi Hs. unfold socket in Hs. destruct (Peer.stopping p) eqn:Hst; [done|].
  intros frame Hw%writing_ops. destruct Hi as [_ Hrun]. destruct (Hrun Hst) as (Hph & Hco & _).
  rewrite Hw in Hph. destruct (phase_write _ _ _ _ _ _ Hph) as (Hc & f & rest & Eo & ->).
  destruct (Hs Hc) as (w0 & fs & Ew & Hd). rewrite Eo in Hd. exists fs, f. split; [done|]. split; [done|].
  apply coalesced_sublist in Hco. unfold Peer.queued in Hco. rewrite Eo, Ew, <- !app_assoc in Hco.
  etrans; [|exact Hco]. apply sublist_inserts_l. apply sublist_app; [done|].
  cbn. by apply sublist_skip, sublist_nil_l.
Qed.

Record inv (l : t) : Prop := {
  li_peer : Peer.inv (peer l);
  li_ops : (length (Peer.ops (peer l)) <= 1)%nat;
  li_messages : Forall2 (fun f m => sized (pack m) /\ Peer.frame_bytes f = frame_of (pack m))
    (Peer.accepted (peer l)) (messages l);
  li_wires : Forall (fun w =>
    (exists fs, fs `sublist_of` Peer.accepted (peer l) /\ taken w `prefix_of` frames fs) /\
    delivered w `prefix_of` taken w /\ parsed (delivered w) (receiver w)) (wires l);
  li_socket : socket (peer l) (taken <$> list.last (wires l)) (offset l);
}.

(** The frame at the front stays there while it is written. *)
Lemma front_kept p frame outbound' f fs :
  Peer.outbound p = f :: fs -> Peer.write_in_progress p = true ->
  (outbound' = Peer.outbound p ++ [frame] \/
   is_Some (Peer.replaced_by (Peer.write_in_progress p) (Peer.outbound p) frame) /\
   outbound' = removelast (Peer.outbound p) ++ [frame]) ->
  exists fs', outbound' = f :: fs'.
Proof.
  intros Ho Hw [->|[[previous Hr] ->]]; rewrite Ho in *; [by eexists|].
  apply Peer.replaced_by_Some in Hr as (init & E & _ & _ & Hi). specialize (Hi Hw).
  rewrite E, removelast_last. destruct init as [|g init]; [done|]. injection E as <- _. by eexists.
Qed.

Lemma socket_push p p1 frame data off :
  Peer.inv p -> Peer.stopping p = false -> socket p data off ->
  p1 = p <| Peer.strand := Peer.strand p1 |> ->
  socket (snd (Peer.push_frame frame p1)) data off.
Proof.
  intros Hi Hst Hs E1.
  assert (Peer.stopping p1 = Peer.stopping p /\ Peer.connected p1 = Peer.connected p /\
    Peer.written p1 = Peer.written p /\ Peer.outbound p1 = Peer.outbound p /\
    Peer.write_in_progress p1 = Peer.write_in_progress p) as (E2 & E3 & E4 & E5 & E6) by (by rewrite E1).
  destruct (push_keeps frame p1) as (Hst' & Hc & Hw & Ha & Ho); [congruence|].
  unfold socket in *. rewrite Hst in Hs. rewrite Hst', Hc, Hw, E3, E4. intros Hc'.
  destruct (Hs Hc') as (w0 & fs & Ew & Hd). exists w0, fs. split; [done|].
  destruct (Peer.outbound p) as [|f rest] eqn:Eo.
  - destruct Hd as [-> ->]. rewrite E5 in Ho.
    assert (Peer.outbound (snd (Peer.push_frame frame p1)) = [frame]) as -> by (by destruct Ho as [->|[_ ->]]).
    cbn. by rewrite app_nil_r.
  - assert (Peer.write_in_progress p1 = true) as Hwip.
    { destruct Hi as [_ Hrun]. destruct (Hrun Hst) as (Hph & _). rewrite Eo in Hph.
      apply Peer.phase_busy in Hph. congruence. }
    by destruct (front_kept p1 frame _ f rest E5 Hwip Ho) as [fs' ->].
Qed.

(** Whether the peer's own operations change the newest connection. *)
Definition next_data (op : Peer.operation) (error : bool) (data : option bytes) : option bytes :=
  match op, error with Peer.Connect, false => Some [] | _, _ => data end.

Definition next_offset (op : Peer.operation) (error : bool) (off : nat) : nat :=
  match op, error with Peer.Connect, false => 0 | Peer.Write _, _ => 0 | _, _ => off end.

(** What an operation that completes does to a running peer. *)
Definition completed (op : Peer.operation) (error : bool) (p p' : Peer.t) : Prop :=
  Peer.stopping p' = false /\
  match op, error with
  | Peer.Connect, false =>
      Peer.written p' = Peer.written p /\ Peer.outbound p' = Peer.outbound p
  | Peer.Write _, false =>
      Peer.written p' = Peer.written p ++ take 1 (Peer.outbound p) /\
      Peer.outbound p' = drop 1 (Peer.outbound p)
  | Peer.Connect, true | Peer.Write _, true => Peer.connected p' = false
  | _, _ => Peer.connected p' = Peer.connected p
  end.

Lemma complete_keeps op error p :
  Peer.stopping p = false -> op ∈ Peer.ops p ->
  completed op error p (snd (Peer.step (Peer.Complete op error) p)).
Proof.
  intros Hst Hin. apply (wp_snd _ (completed op error p)). cbn [Peer.step]. do 2 wp_step.
  rewrite bool_decide_eq_true_2 by done. wp_step. do 2 wp_step.
  destruct op, error; unfold Peer.on_resolved, Peer.on_connected, Peer.on_written, Peer.on_retry,
    Peer.mark_disconnected, Peer.schedule_retry, Peer.connect, Peer.write_next, Peer.release,
    Peer.start_op; repeat (wp_step || lazymatch goal with
    | |- wp (match ?x with _ => _ end) _ _ _ => destruct x eqn:?
    end); unfold completed, Peer.stopping in *; cbn in *; try congruence; by split_and!.
Qed.

Lemma phase_op op ob cn ci wi rp :
  Peer.phase [op] ob cn ci wi rp ->
  match op with
  | Peer.Resolve | Peer.Retry => cn = false
  | Peer.Connect => ob <> []
  | Peer.Write frame => cn = true /\ exists f fs, ob = f :: fs /\ frame = Peer.frame_bytes f
  end.
Proof. inversion 1; subst; by eauto. Qed.

Lemma running_ops p op :
  Peer.inv p -> Peer.stopping p = false -> op ∈ Peer.ops p -> Peer.ops p = [op].
Proof.
  intros [_ Hrun] Hst Hin. destruct (Hrun Hst) as (Hph & _).
  assert (length (Peer.ops p) = 1%nat) as Hl
    by (inversion Hph as [? E| | | |]; rewrite <- ?E in *; [by apply not_elem_of_nil in Hin|done..]).
  destruct (Peer.ops p) as [|x [|]]; try done. apply list_elem_of_singleton in Hin. by subst.
Qed.

Lemma socket_complete op error p data off :
  Peer.inv p -> Peer.stopping p = false -> socket p data off -> op ∈ Peer.ops p ->
  (forall frame, op = Peer.Write frame -> error = false -> off = length frame) ->
  socket (snd (Peer.step (Peer.Complete op error) p)) (next_data op error data) (next_offset op error off).
Proof.
  intros Hi Hst Hs Hin Hoff. destruct (complete_keeps op error p Hst Hin) as [Hst' Hk].
  set (p' := snd (Peer.step (Peer.Complete op error) p)) in *.
  pose proof (running_ops p op Hi Hst Hin) as Eo. destruct Hi as [_ Hrun].
  destruct (Hrun Hst) as (Hph & _). rewrite Eo in Hph. apply phase_op in Hph.
  unfold socket in *. rewrite Hst in Hs. rewrite Hst'.
  destruct op as [| |frame|], error; cbn [next_data next_offset]; intros Hc; try congruence.
  - destruct Hk as [-> ->]. exists (Peer.written p), []. rewrite app_nil_r. split; [done|].
    by destruct (Peer.outbound p).
  - destruct Hph as (Hc' & f & fs & Eob & ->). destruct (Hs Hc') as (w0 & gs & Ew & Hd).
    rewrite Eob in *. specialize (Hoff _ eq_refl eq_refl). subst off. rewrite firstn_all, <- frames_snoc in Hd.
    destruct Hk as [-> ->]. exists w0, (gs ++ [f]). cbn [take drop]. rewrite Ew, app_assoc. split; [done|].
    destruct fs; [done|]. cbn. by rewrite app_nil_r.
Qed.

(** ** Every event keeps the invariant *)

(** Only [send] accepts. *)
Lemma accepted_same ev p :
  (forall m, ev <> Peer.Send m) -> Peer.accepted (snd (Peer.step ev p)) = Peer.accepted p.
Proof.
  intros Hev. apply (wp_snd _ (fun p' => Peer.accepted p' = Peer.accepted p)).
  destruct ev as [m| |op error|]; [by destruct (Hev m)|..]; cbn [Peer.step];
    unfold Peer.push_frame, Peer.stop_now, Peer.request_stop, Peer.on_resolved, Peer.on_connected,
      Peer.on_written, Peer.on_retry, Peer.mark_disconnected, Peer.schedule_retry, Peer.connect,
      Peer.write_next, Peer.release, Peer.start_op;
    repeat lazymatch goal with
    | |- wp (for_each _ _ ≫= _) _ _ _ => apply wp_bind; eapply wp_mono;
        [apply (wp_for_each _ _ (fun p' => Peer.accepted p' = Peer.accepted p))|intros [] ? ?|intros ? ? Hx; exact Hx]
    | |- wp (match ?x with _ => _ end) _ _ _ => destruct x eqn:?
    | |- forall _, _ => intros
    | _ => wp_step
    end; done.
Qed.

Lemma send_accepts m p :
  match Peer.send m p with
  | (Ok true, p') => sized (pack m) /\ exists frame,
      Peer.frame_bytes frame = frame_of (pack m) /\ Peer.accepted p' = Peer.accepted p ++ [frame] /\
      Peer.ops p' = Peer.ops p /\ Peer.stopping p' = Peer.stopping p /\
      Peer.connected p' = Peer.connected p /\ Peer.written p' = Peer.written p /\
      Peer.outbound p' = Peer.outbound p
  | (_, p') => p' = p
  end.
Proof.
  unfold Peer.send, lift, mbind, M_bind. destruct (encode_message m) as [b|] eqn:E; [|done].
  apply encode_message_inv in E as [Hz ->]. unfold Peer.enqueue, Peer.reserve. run_m.
  destruct (_ || _); cbn [negb]; [done|]. split; [done|].
  eexists (Peer.MkFrame (frame_of (pack m)) _ _ _ _ _). split_and!; reflexivity.
Qed.

(** The socket only knows these members. *)
Lemma socket_same p p' data off :
  Peer.ops p' = Peer.ops p -> Peer.stopping p' = Peer.stopping p ->
  Peer.connected p' = Peer.connected p -> Peer.written p' = Peer.written p ->
  Peer.outbound p' = Peer.outbound p -> Peer.accepted p `sublist_of` Peer.accepted p' ->
  socket p data off -> socket p' data off.
Proof.
  intros E1 E2 E3 E4 E5 Ha. unfold socket. rewrite E2, E3, E4, E5. destruct (Peer.stopping p); [|done].
  unfold half_written, writing. rewrite E1. intros H frame Hw. destruct (H frame Hw) as (fs & f & ? & ? & Hs).
  exists fs, f. split; [done|]. split; [done|]. by etrans.
Qed.

Lemma remove_op_short op (l : list Peer.operation) :
  (length l <= 1)%nat -> Peer.remove_op op l = l \/ Peer.remove_op op l = [].
Proof.
  destruct l as [|x [|]]; cbn; try lia; [by left|]. intros _. case_decide; auto.
Qed.

Lemma socket_stopping ev p data off off' :
  Peer.stopping p = true -> (length (Peer.ops p) <= 1)%nat -> socket p data off ->
  (writing (snd (Peer.step ev p)) <> None -> off' = off) ->
  socket (snd (Peer.step ev p)) data off'.
Proof.
  intros Hst Hl Hs Hoff. destruct (stopping_step ev p Hst) as (Hst' & Ha & Hops).
  unfold socket in *. rewrite Hst in Hs. rewrite Hst'. intros frame Hw.
  assert (writing p = Some frame) as Hw'.
  { unfold writing in *. destruct Hops as [E|[op E]]; rewrite E in Hw; [done|].
    destruct (remove_op_short op (Peer.ops p) Hl) as [E'|E']; rewrite E' in Hw; done. }
  rewrite Hoff by congruence. destruct (Hs frame Hw') as (fs & f & ? & ? & Hsub). exists fs, f.
  split; [done|]. split; [done|]. by etrans.
Qed.

(** A stopping peer starts nothing when an operation completes. *)
Lemma completes_stopping op error p :
  Peer.stopping p = true -> op ∈ Peer.ops p ->
  Peer.ops (snd (Peer.step (Peer.Complete op error) p)) = Peer.remove_op op (Peer.ops p).
Proof.
  intros Hst Hin. apply (wp_snd _ (fun p' => Peer.ops p' = Peer.remove_op op (Peer.ops p))).
  cbn [Peer.step]. do 2 wp_step. rewrite bool_decide_eq_true_2 by done. wp_step. do 2 wp_step.
  destruct op; unfold Peer.on_resolved, Peer.on_connected, Peer.on_written, Peer.on_retry;
    repeat wp_step; try done; unfold Peer.stopping in *; cbn in *; try congruence; guards; congruence.
Qed.

Lemma complete_stopping op error p :
  Peer.stopping p = true -> (length (Peer.ops p) <= 1)%nat -> op ∈ Peer.ops p ->
  Peer.ops (snd (Peer.step (Peer.Complete op error) p)) = [].
Proof.
  intros Hst Hl Hin. rewrite completes_stopping by done.
  destruct (Peer.ops p) as [|x [|]]; cbn in *; try lia; [by apply not_elem_of_nil in Hin|].
  apply list_elem_of_singleton in Hin as ->. by rewrite decide_True.
Qed.

Lemma taken_kept p p' w :
  Peer.accepted p `sublist_of` Peer.accepted p' ->
  (exists fs, fs `sublist_of` Peer.accepted p /\ taken w `prefix_of` frames fs) ->
  exists fs, fs `sublist_of` Peer.accepted p' /\ taken w `prefix_of` frames fs.
Proof. intros Ha (fs & Hs & Hp). exists fs. split; [by etrans|done]. Qed.

Lemma running_ops_short p : Peer.inv p -> Peer.stopping p = false -> (length (Peer.ops p) <= 1)%nat.
Proof. intros [_ Hrun] Hst. destruct (Hrun Hst) as (Hph & _). inversion Hph; cbn; lia. Qed.

(** The strand of a running peer holds frames only. *)
Lemma run_strand p :
  Peer.inv p -> Peer.stopping p = false ->
  snd (Peer.step Peer.RunStrand p) = p \/
  exists frame p1, p1 = p <| Peer.strand := Peer.strand p1 |> /\
    snd (Peer.step Peer.RunStrand p) = snd (Peer.push_frame frame p1).
Proof.
  intros [_ Hrun] Hst. destruct (Hrun Hst) as (_ & _ & Hts). cbn [Peer.step].
  unfold mbind, M_bind. cbn [get]. destruct (Peer.strand p) as [|[frame|] tasks]; [by left| |by apply Forall_inv in Hts].
  right. eexists frame, _. split; [|reflexivity]. done.
Qed.

Lemma stays_running ev p :
  Peer.inv p -> Peer.stopping p = false -> ev <> Peer.Stop ->
  Peer.stopping (snd (Peer.step ev p)) = false.
Proof.
  intros Hi Hst Hev. destruct ev as [m| |op error|]; [| | |done].
  - cbn [Peer.step snd]. pose proof (send_accepts m p) as Ha.
    destruct (Peer.send m p) as [[[]|] p']; cbn in *; try (by subst).
    destruct Ha as (_ & f & _ & _ & _ & -> & _). done.
  - destruct (run_strand p Hi Hst) as [->|(frame & p1 & E1 & ->)]; [done|].
    apply push_keeps. by rewrite E1.
  - destruct (bool_decide (op ∈ Peer.ops p)) eqn:E; [apply bool_decide_eq_true in E; by apply complete_keeps|].
    cbn [Peer.step]. unfold mbind, M_bind. cbn [get]. by rewrite E.
Qed.

Lemma stop_keeps_ops p :
  Peer.ops (snd (Peer.step Peer.Stop p)) = Peer.ops p /\ Peer.stopping (snd (Peer.step Peer.Stop p)) = true.
Proof.
  apply (wp_snd _ (fun p' => Peer.ops p' = Peer.ops p /\ Peer.stopping p' = true)). cbn [Peer.step].
  unfold Peer.request_stop, Peer.stopping. repeat wp_step; cbn; rewrite ?orb_true_r; split; try done.
  by rewrite Hif, orb_true_r.
Qed.

Lemma ops_short ev p :
  Peer.inv p -> Peer.plausible p ev -> (length (Peer.ops p) <= 1)%nat ->
  (length (Peer.ops (snd (Peer.step ev p))) <= 1)%nat.
Proof.
  intros Hi Hpl Hl. pose proof (Peer.peer_step_inv ev p Hi Hpl) as Hi'.
  destruct (Peer.stopping (snd (Peer.step ev p))) eqn:Hst'; [|by apply running_ops_short].
  destruct (Peer.stopping p) eqn:Hst.
  - destruct (stopping_step ev p Hst) as (_ & _ & [->|[op ->]]); [done|].
    destruct (remove_op_short op (Peer.ops p) Hl) as [->| ->]; cbn; lia.
  - destruct ev as [m| |op error|]; [by rewrite stays_running in Hst'..|].
    by destruct (stop_keeps_ops p) as [-> _].
Qed.

(** The peer of a socket moves without the socket. *)
Lemma socket_idle ev p data off :
  Peer.inv p -> (length (Peer.ops p) <= 1)%nat -> socket p data off ->
  (forall op error, ev <> Peer.Complete op error) ->
  socket (snd (Peer.step ev p)) data off.
Proof.
  intros Hi Hl Hs Hev. destruct (Peer.stopping p) eqn:Hst; [by apply socket_stopping with off|].
  destruct ev as [m| |op error|]; [| |by destruct (Hev op error)|].
  - cbn [Peer.step snd]. pose proof (send_accepts m p) as Ha.
    destruct (Peer.send m p) as [[[]|] p']; cbn in *; try (by subst).
    destruct Ha as (_ & f & _ & Ha & ? & ? & ? & ? & ?). apply socket_same with p; try done.
    rewrite Ha. by apply sublist_inserts_r.
  - destruct (run_strand p Hi Hst) as [->|(frame & p1 & E1 & ->)]; [done|]. by apply socket_push with p.
  - destruct (stop_keeps_ops p) as [E Hst']. pose proof (accepted_same Peer.Stop p ltac:(done)) as Ha.
    apply socket_writing in Hs; [|done]. unfold socket. rewrite Hst'. unfold half_written, writing in *.
    by rewrite E, Ha.
Qed.

Lemma socket_completed op error p data off :
  Peer.inv p -> (length (Peer.ops p) <= 1)%nat -> socket p data off -> op ∈ Peer.ops p ->
  (forall frame, op = Peer.Write frame -> error = false -> off = length frame) ->
  socket (snd (Peer.step (Peer.Complete op error) p)) (next_data op error data) (next_offset op error off).
Proof.
  intros Hi Hl Hs Hin Hoff. destruct (Peer.stopping p) eqn:Hst; [|by apply socket_complete].
  destruct (stopping_step (Peer.Complete op error) p Hst) as (Hst' & _).
  unfold socket. rewrite Hst'. intros frame Hw. unfold writing in Hw. by rewrite complete_stopping in Hw.
Qed.

Lemma accepted_grows ev p : Peer.accepted p `sublist_of` Peer.accepted (snd (Peer.step ev p)).
Proof.
  destruct ev as [m| | |]; try (by rewrite accepted_same). cbn [Peer.step snd].
  pose proof (send_accepts m p) as Ha. destruct (Peer.send m p) as [[[]|] p']; cbn in *; try (by subst).
  destruct Ha as (_ & f & _ & -> & _). by apply sublist_inserts_r.
Qed.

Lemma wires_kept ev l :
  inv l -> Forall (fun w =>
    (exists fs, fs `sublist_of` Peer.accepted (snd (Peer.step ev (peer l))) /\ taken w `prefix_of` frames fs) /\
    delivered w `prefix_of` taken w /\ parsed (delivered w) (receiver w)) (wires l).
Proof.
  intros Hi. eapply list.Forall_impl; [apply (li_wires l Hi)|]. cbv beta. intros w [Ht Hd].
  split; [|done]. eapply taken_kept; [apply accepted_grows|done].
Qed.

Lemma send_inv m l : inv l -> inv (step (PeerMoves (Peer.Send m)) l).
Proof.
  intros Hi. destruct (Hi) as [Hp Ho Hm Hw Hs]. constructor; cbn [step peer messages wires offset].
  - by apply Peer.peer_step_inv.
  - by apply ops_short.
  - cbn [Peer.step snd]. pose proof (send_accepts m (peer l)) as Ha.
    destruct (Peer.send m (peer l)) as [[[]|] p']; cbn in *; try (by subst).
    destruct Ha as (Hz & f & Ef & -> & _). apply Forall2_app; [done|]. by constructor; [|constructor].
  - by apply wires_kept.
  - by apply socket_idle.
Qed.

Lemma idle_inv ev l :
  inv l -> Peer.plausible (peer l) ev -> (forall m, ev <> Peer.Send m) ->
  (forall op error, ev <> Peer.Complete op error) ->
  inv (mk (snd (Peer.step ev (peer l))) (wires l) (offset l) (messages l)).
Proof.
  intros Hi Hpl Hs Hc. destruct (Hi) as [Hp Ho Hm Hw Hk]. constructor; cbn [peer messages wires offset].
  - by apply Peer.peer_step_inv.
  - by apply ops_short.
  - by rewrite accepted_same.
  - by apply wires_kept.
  - by apply socket_idle.
Qed.

Lemma link_complete_inv op error l :
  inv l -> plausible l (PeerMoves (Peer.Complete op error)) ->
  inv (step (PeerMoves (Peer.Complete op error)) l).
Proof.
  intros Hi [Hpl Hoff]. unfold step. case_bool_decide as Hin; cbn [negb]; [|done].
  destruct (Hi) as [Hp Ho Hm Hw Hk].
  pose proof (socket_completed op error _ _ _ Hp Ho Hk Hin) as Hk'.
  pose proof (wires_kept (Peer.Complete op error) l Hi) as Hw'.
  pose proof (ops_short _ _ Hp Hpl Ho) as Ho'. pose proof (Peer.peer_step_inv _ _ Hp Hpl) as Hp'.
  rewrite <- (accepted_same (Peer.Complete op error)) in Hm by done.
  specialize (Hk' ltac:(intros frame -> ->; exact Hoff)).
  set (p' := snd (Peer.step (Peer.Complete op error) (peer l))) in *.
  destruct op, error; constructor; cbn [peer messages wires offset]; try done.
  - apply Forall_app. split; [done|]. apply list.Forall_singleton. split_and!; [|done|by exists [], []].
    exists []. split; [apply sublist_nil_l|done].
  - by rewrite last_snoc.
Qed.

(** ** The socket takes bytes *)

Lemma last_split {A} (l : list A) x : list.last l = Some x -> l = removelast l ++ [x].
Proof.
  intros H. apply last_Some in H as [l' ->]. by rewrite removelast_last.
Qed.

Lemma take_length_take {A} n (l : list A) : take (length (take n l)) l = take n l.
Proof. revert l. induction n as [|n IH]; intros [|x l]; cbn; [done..|]. by rewrite IH. Qed.

Lemma transmit_inv n l : inv l -> inv (step (Transmit n) l).
Proof.
  intros Hi. destruct (Hi) as [Hp Ho Hm Hw Hk]. cbn [step].
  destruct (writing (peer l)) as [frame|] eqn:Ew; [|done].
  destruct (list.last (wires l)) as [w|] eqn:El; [|done]. cbn in Hk.
  set (more := take n (drop (offset l) frame)).
  assert (take (offset l) frame ++ more = take (offset l + length more) frame) as Emore.
  { rewrite <- (take_take_drop frame (offset l)). f_equal. subst more. by rewrite take_length_take. }
  pose proof (socket_writing _ _ _ Hp Hk frame Ew) as (fs & f & Ed & -> & Hsub). injection Ed as Ed.
  pose proof (last_split _ _ El) as Ewl. rewrite Ewl in Hw. apply Forall_app in Hw as [Hw1 Hw2].
  apply list.Forall_singleton in Hw2 as (_ & Hd & Hpa).
  constructor; cbn [peer messages wires offset]; try done.
  - apply Forall_app. split; [done|]. apply list.Forall_singleton. cbn. split_and!; [|by apply prefix_app_r|done].
    exists (fs ++ [f]). split; [done|]. rewrite Ed, <- app_assoc, Emore, frames_snoc.
    apply prefix_app, prefix_take.
  - rewrite last_snoc. cbn. unfold socket in *. destruct (Peer.stopping (peer l)) eqn:Hst.
    + intros frame Hf. destruct (Hk frame Hf) as (gs & g & E & Eg & Hg). exists gs, g.
      split; [|done]. injection E as E. rewrite Ew in Hf. injection Hf as <-.
      by rewrite E, <- app_assoc, Emore.
    + intros Hc. destruct (Hk Hc) as (w0 & gs & E & Hg). exists w0, gs. split; [done|].
      apply writing_ops in Ew. destruct Hp as [_ Hrun]. destruct (Hrun Hst) as (Hph & _).
      rewrite Ew in Hph. destruct (phase_write _ _ _ _ _ _ Hph) as (_ & f' & rest & Eo & Ef).
      rewrite Eo, <- Ef in *. injection Hg as ->. by rewrite <- app_assoc, Emore.
Qed.

Lemma wire_moves_inv j ev l : inv l -> plausible l (WireMoves j ev) -> inv (step (WireMoves j ev) l).
Proof.
  intros [Hp Ho Hm Hw Hk] Hpl. cbn [plausible] in Hpl.
  constructor; cbn [step peer messages wires offset]; try done.
  - apply Forall_alter; [done|]. intros w Ej (Ht & Hd & Hpa). rewrite Ej in Hpl. cbn.
    split_and!; [done..|]. by apply parsed_step.
  - rewrite <- fmap_last, (list_fmap_alter _ _ (fun x => x)) by (by apply list.Forall_forall).
    by rewrite list_alter_id, fmap_last.
Qed.

Lemma link_step_inv ev l : inv l -> plausible l ev -> inv (step ev l).
Proof.
  intros Hi Hpl. destruct ev as [[m| |op error|]|n|j ev].
  - by apply send_inv.
  - destruct Hpl. by apply idle_inv.
  - by apply link_complete_inv.
  - destruct Hpl. by apply idle_inv.
  - by apply transmit_inv.
  - by apply wire_moves_inv.
Qed.

Lemma link_reachable_inv l : reachable l -> inv l.
Proof.
  induction 1 as [|ev l _ IH Hpl]; [|by apply link_step_inv]. constructor; cbn; try done; [|lia].
  apply Peer.peer_reachable_inv, Peer.reachable_create.
Qed.

(** ** Properties *)

(** Frames that were accepted are the frames of messages that were. *)
Lemma frames_messages fs l :
  inv l -> fs `sublist_of` Peer.accepted (peer l) ->
  exists ms, ms `sublist_of` messages l /\ Forall (fun m => sized (pack m)) ms /\
    frames fs = mjoin (frame_of <$> (pack <$> ms)).
Proof.
  intros Hi Hs. pose proof (li_messages l Hi) as Hm. revert Hm. generalize (messages l).
  induction Hs as [|f fs gs Hs IH|f fs gs Hs IH]; intros ms Hm.
  - exists []. split_and!; [apply sublist_nil_l|constructor|done].
  - apply Forall2_cons_inv_l in Hm as (m & ms' & [Hz Ef] & Hm & ->).
    destruct (IH ms' Hm) as (ns & Hns & Hzs & E). exists (m :: ns).
    split_and!; [by apply sublist_skip|by constructor|]. change (frames (f :: fs)) with (Peer.frame_bytes f ++ frames fs).
    by rewrite E, Ef.
  - apply Forall2_cons_inv_l in Hm as (m & ms' & _ & Hm & ->).
    destruct (IH ms' Hm) as (ns & Hns & Hzs & E). exists ns. split; [by apply sublist_cons|done].
Qed.

Lemma carries_packed `{!MsgPackLaws Message.t} ms : forall ds,
  Forall typed ms -> Forall2 carries (pack <$> ms) ds -> ds = ms.
Proof.
  induction ms as [|m ms IH]; intros ds Ht Hc; cbn in Hc; [by apply Forall2_nil_inv_l in Hc|].
  apply Forall2_cons_inv_l in Hc as (d & ds' & (_ & Hu & _) & Hc & ->).
  apply Forall_cons_iff in Ht as [Ht1 Ht]. rewrite unpack_pack in Hu by done. injection Hu as <-.
  f_equal. by apply IH.
Qed.

(** C23: over any number of connections, frames torn apart by failed writes and
    messages sent again on the next connection, what one connection dispatches is
    a subsequence of what [Peer::send] accepted: nothing is made up, put together
    from two frames, reordered or repeated. *)
Theorem link_sound l w :
  MsgPackLaws Message.t -> reachable l -> Forall typed (messages l) -> w ∈ wires l ->
  dispatched (receiver w) `sublist_of` messages l.
Proof.
  intros ML Hr Ht Hw. apply link_reachable_inv in Hr as Hi. pose proof (li_wires l Hi) as Hws.
  rewrite list.Forall_forall in Hws. destruct (Hws w Hw) as ((fs & Hfs & Htk) & Hd & ps & rest & E & Hc & _).
  destruct (frames_messages fs l Hi Hfs) as (ms & Hms & Hz & Ef).
  assert (ps `prefix_of` (pack <$> ms)) as [qs Hq].
  { apply frames_prefix; [|by apply Forall_fmap|].
    - eapply Forall2_Forall_l; [exact Hc|]. apply list.Forall_true. by intros m payload [].
    - rewrite <- Ef. etrans; [|exact Htk]. etrans; [|exact Hd]. rewrite E. by apply prefix_app_r. }
  etrans; [|exact Hms]. apply fmap_app_inv in Hq as (ms1 & ms2 & -> & -> & ->).
  apply sublist_inserts_r. enough (dispatched (receiver w) = ms1) as -> by done.
  assert (Forall typed ms1) as Ht1.
  { rewrite list.Forall_forall in Ht. apply list.Forall_forall. intros m Hm. apply Ht.
    eapply elem_of_submseteq; [|apply sublist_submseteq, Hms]. apply elem_of_app. by left. }
  by apply carries_packed.
Qed.

End Step.

(** ** A run with a torn frame *)

Section Demo.
#[local] Instance bits_pack : MsgPack Message.t := Bits.msgpack Message.t.

Definition torn_frame : bytes := frame_of (pack (Peer.append_message 1)).

(** The first write fails after seven bytes, of which five arrive; the frame is
    written again on the next connection and arrives whole. *)
Definition torn_run : list event :=
  [PeerMoves (Peer.Send (Peer.append_message 1)); PeerMoves Peer.RunStrand;
   PeerMoves (Peer.Complete Peer.Resolve false); PeerMoves (Peer.Complete Peer.Connect false);
   Transmit 7; WireMoves 0 (Bytes (take 5 torn_frame));
   PeerMoves (Peer.Complete (Peer.Write torn_frame) true); WireMoves 0 ReadFails;
   PeerMoves (Peer.Complete Peer.Retry false); PeerMoves (Peer.Complete Peer.Resolve false);
   PeerMoves (Peer.Complete Peer.Connect false); Transmit (length torn_frame);
   PeerMoves (Peer.Complete (Peer.Write torn_frame) false); WireMoves 1 (Bytes torn_frame)].

Definition play (evs : list event) : t := fold_left (fun l ev => step ev l) evs created.

(** [plausible], run. *)
Definition plausibleb (l : t) (ev : event) : bool :=
  match ev with
  | PeerMoves (Peer.Complete Peer.Retry true) => false
  | PeerMoves (Peer.Complete (Peer.Write frame) false) => bool_decide (offset l = length frame)
  | PeerMoves _ | Transmit _ => true
  | WireMoves j ev =>
      match wires l !! j with
      | Some w => bool_decide (delivered w ++ arrived [ev] `prefix_of` taken w)
      | None => true
      end
  end.

Fixpoint playable (evs : list event) (l : t) : bool :=
  match evs with [] => true | ev :: evs => plausibleb l ev && playable evs (step ev l) end.

Lemma plausibleb_spec l ev : plausibleb l ev = true -> plausible l ev.
Proof.
  destruct ev as [[m| |[| |frame|] []|]|n|j ev]; cbn; try done; [by intros ?%bool_decide_eq_true|].
  destruct (wires l !! j); [|done]. by intros ?%bool_decide_eq_true.
Qed.

Lemma playable_reachable evs : forall l,
  reachable l -> playable evs l = true -> reachable (fold_left (fun l ev => step ev l) evs l).
Proof.
  induction evs as [|ev evs IH]; intros l Hr Hp; cbn in *; [done|].
  apply andb_true_iff in Hp as [H1 H2]. apply IH; [|done]. constructor; [done|]. by apply plausibleb_spec.
Qed.

Lemma link_sound_witness :
  messages (play torn_run) = [Peer.append_message 1] /\
  map (fun w => dispatched (receiver w)) (wires (play torn_run)) = [[]; [Peer.append_message 1]] /\
  Forall (fun w => dispatched (receiver w) `sublist_of` messages (play torn_run)) (wires (play torn_run)).
Proof.
  split; [by vm_compute|]. split; [by vm_compute|].
  apply list.Forall_forall. intros w Hw. apply (link_sound (play torn_run) w); [apply Bits.msgpack_laws| | |done].
  - apply playable_reachable; [constructor|by vm_compute].
  - assert (messages (play torn_run) = [Peer.append_message 1]) as -> by by vm_compute.
    apply list.Forall_singleton. unfold typed, Message.typed. cbn. unfold_words. split_and!; try done; lia.
Defined.

End Demo.

End Link.
