(* ===== verification/RespServer.v ===== *)
(** * The client listener ([src/server/resp_server.cpp])

    [RespSession] reads commands from one client connection, hands them to the
    command handler one at a time, and writes each reply before it goes on.
    The handler is not part of the session: how it behaves in each call (the
    replies it gives before it returns, and whether it throws) is a list of
    outcomes in the state, and it may give a reply at any later time, for any
    request.  The theorems show that commands are handed over and answered in
    order, one at a time, and that a session is never stuck.  The listener that
    owns the sessions is in [Servers]. *)

From S2P Require Import Prelude Text RespCodec Transport.

(** ** The listen address *)

(** [make_address] is Boost's parser of IP addresses. *)
Definition parse_listen_address {A} (make_address : bytes -> result A) (listen_address : bytes)
    : result (A * Z) :=
  match Transport.rfind_char Transport.colon listen_address with
  | None => Throw (invalid_argument "listen address must have the form IP:port")
  | Some separator =>
      if (separator =? 0)%nat || (separator + 1 =? length listen_address)%nat
      then Throw (invalid_argument "listen address must have the form IP:port") else
      let address := take separator listen_address in
      let address :=
        if (2 <=? length address)%nat && bool_decide (head address = Some Transport.open_bracket) &&
           bool_decide (list.last address = Some Transport.close_bracket)
        then removelast (drop 1 address) else address in
      match parse_unsigned u32_max (drop (separator + 1) listen_address) with
      | None => Throw (invalid_argument "listen address contains an invalid port")
      | Some port =>
          if port >? 65535
          then Throw (invalid_argument "listen address contains an invalid port") else
          ip ← make_address address;
          Ok (ip, port)
      end
  end.

Module RespSession.
Import Resp.

(** Asynchronous operations on the socket. *)
Inductive operation : Type :=
| Read
| Write (reply : bytes).

#[global] Instance operation_eq_dec : EqDecision operation.
Proof. solve_decision. Defined.

(** One call of the command handler. *)
Record handler_call : Type := MkCall { replies_now : list bytes; throws : bool }.

Record t : Type := mk {
  decoder_ : RespDecoder;
  pending_commands_ : list RespCommand;
  write_buffer_ : bytes;
  active_request_id_ : Z;
  awaiting_reply_ : bool;
  write_in_progress_ : bool;
  closed_ : bool;
  close_handler_ : bool;
  (* the environment: operations under way, calls to come, notifications *)
  ops : list operation;
  calls : list handler_call;
  close_calls : nat;
  (* history: input decoded, commands handed over, replies taken and written *)
  received : bytes;
  issued : list (Z * RespCommand);
  answers : list (Z * bytes);
  sent : list bytes;
}.

Definition eta (s : t) : t :=
  mk (decoder_ s) (pending_commands_ s) (write_buffer_ s) (active_request_id_ s)
    (awaiting_reply_ s) (write_in_progress_ s) (closed_ s) (close_handler_ s) (ops s) (calls s)
    (close_calls s) (received s) (issued s) (answers s) (sent s).
#[global] Instance set_decoder_ : Setter decoder_ := ltac:(setter eta decoder_).
#[global] Instance set_pending_commands_ : Setter pending_commands_ :=
  ltac:(setter eta pending_commands_).
#[global] Instance set_write_buffer_ : Setter write_buffer_ := ltac:(setter eta write_buffer_).
#[global] Instance set_active_request_id_ : Setter active_request_id_ :=
  ltac:(setter eta active_request_id_).
#[global] Instance set_awaiting_reply_ : Setter awaiting_reply_ := ltac:(setter eta awaiting_reply_).
#[global] Instance set_write_in_progress_ : Setter write_in_progress_ :=
  ltac:(setter eta write_in_progress_).
#[global] Instance set_closed_ : Setter closed_ := ltac:(setter eta closed_).
#[global] Instance set_close_handler_ : Setter close_handler_ := ltac:(setter eta close_handler_).
#[global] Instance set_ops : Setter ops := ltac:(setter eta ops).
#[global] Instance set_calls : Setter calls := ltac:(setter eta calls).
#[global] Instance set_close_calls : Setter close_calls := ltac:(setter eta close_calls).
#[global] Instance set_received : Setter received := ltac:(setter eta received).
#[global] Instance set_issued : Setter issued := ltac:(setter eta issued).
#[global] Instance set_answers : Setter answers := ltac:(setter eta answers).
#[global] Instance set_sent : Setter sent := ltac:(setter eta sent).

Definition create (limits : RespLimits) (calls : list handler_call) : t :=
  mk (Resp.create limits) [] [] 0 false false false true [] calls 0 [] [] [] [].

Definition start_op (op : operation) : M t unit := s ← get; ops <~ ops s ++ [op].

(** The outcome of the next call; without one the handler returns and replies
    later, if ever. *)
Definition next_call : M t handler_call :=
  s ← get;
  calls <~ drop 1 (calls s) ;;
  mret (default (MkCall [] false) (head (calls s))).

Definition read_next : M t unit :=
  s ← get;
  if closed_ s || awaiting_reply_ s || write_in_progress_ s ||
     negb (bool_decide (pending_commands_ s = []))
  then mret tt else start_op Read.

Definition close : M t unit :=
  s ← get;
  if closed_ s then mret tt else
  closed_ <~ true ;;
  when (close_handler_ s) (close_handler_ <~ false ;; close_calls <~ S (close_calls s)).

(** [on_reply], with the function it goes on with after an empty reply. *)
Definition on_reply (dispatch_next : M t unit) (request_id : Z) (encoded_reply : bytes) : M t unit :=
  s ← get;
  if closed_ s || negb (awaiting_reply_ s) || negb (request_id =? active_request_id_ s)
  then mret tt else
  awaiting_reply_ <~ false ;;
  answers <~ answers s ++ [(request_id, encoded_reply)] ;;
  if bool_decide (encoded_reply = []) then dispatch_next else
  write_buffer_ <~ encoded_reply ;;
  write_in_progress_ <~ true ;;
  start_op (Write encoded_reply).

(** A reply that the handler gives before it returns is processed at once, on
    the same strand.  Each level takes a command from the queue, so a fuel
    above its length is enough. *)
Fixpoint dispatch_loop (fuel : nat) : M t unit :=
  match fuel with
  | O => mret tt
  | S fuel' =>
      s ← get;
      if closed_ s || awaiting_reply_ s || write_in_progress_ s then mret tt else
      match pending_commands_ s with
      | [] => read_next
      | command :: rest =>
          pending_commands_ <~ rest ;;
          awaiting_reply_ <~ true ;;
          let request_id := u64 (active_request_id_ s + 1) in
          active_request_id_ <~ request_id ;;
          issued <~ issued s ++ [(request_id, command)] ;;
          call ← next_call;
          for_each (replies_now call) (on_reply (dispatch_loop fuel') request_id) ;;
          when (throws call) close
      end
  end.

Definition dispatch_next : M t unit :=
  s ← get; dispatch_loop (S (length (pending_commands_ s))).

Definition on_read (error : bool) (data : bytes) : M t unit :=
  if error || bool_decide (data = []) then close else
  s ← get;
  match feed data (decoder_ s) with
  | (Ok commands, d) =>
      decoder_ <~ d ;;
      received <~ received s ++ data ;;
      pending_commands_ <~ pending_commands_ s ++ commands ;;
      s ← get;
      if bool_decide (pending_commands_ s = []) then read_next else dispatch_next
  | (Throw (RespProtocolError _), d) => decoder_ <~ d ;; close
  | (Throw e, d) => decoder_ <~ d ;; throw e
  end.

Definition on_written (reply : bytes) (error : bool) : M t unit :=
  write_in_progress_ <~ false ;;
  write_buffer_ <~ [] ;;
  if error then close else
  s ← get;
  sent <~ sent s ++ [reply] ;;
  dispatch_next.

(** A session that was added to the server has started to read. *)
Definition start : M t unit := read_next.

Definition stop : M t unit := close.

(** ** A run *)

Inductive event : Type :=
| ReadDone (error : bool) (data : bytes)
| WriteDone (error : bool)
| Reply (request_id : Z) (encoded_reply : bytes)
| Stop.

Definition step (ev : event) : M t unit :=
  s ← get;
  match ev, ops s with
  | ReadDone error data, [Read] => ops <~ [] ;; on_read error data
  | WriteDone error, [Write reply] => ops <~ [] ;; on_written reply error
  | Reply request_id encoded_reply, _ => on_reply dispatch_next request_id encoded_reply
  | Stop, _ => stop
  | _, _ => mret tt
  end.

Definition run (evs : list event) (s : t) : t := fold_left (fun s ev => snd (step ev s)) evs s.

(** The session of a new connection, after any events. *)
Definition session (limits : RespLimits) (calls : list handler_call) (evs : list event) : t :=
  run evs (snd (start (create limits calls))).

(** ** The invariant *)

Definition writes (l : list operation) : list bytes :=
  omap (fun op => match op with Write reply => Some reply | Read => None end) l.

(** Replies that are written: an empty one is not. *)
Definition visible (l : list (Z * bytes)) : list bytes := base.filter (fun r => r <> []) (l.*2).

#[local] Arguments writes : simpl never.
#[local] Arguments visible : simpl never.

Lemma visible_snoc l id r :
  visible (l ++ [(id, r)]) = visible l ++ (if bool_decide (r = []) then [] else [r]).
Proof.
  unfold visible. rewrite fmap_app, list.filter_app. f_equal. change ([(id, r)].*2) with [r].
  rewrite filter_cons, filter_nil. case_bool_decide; by case_decide.
Qed.

Definition awaited (s : t) : list Z := if awaiting_reply_ s then [active_request_id_ s] else [].

(** The history agrees with the state. *)
Record core (limits : RespLimits) (s : t) : Prop := {
  co_decoded : exists rest, decoded limits (received s) ((issued s).*2 ++ pending_commands_ s) rest /\
    (closed_ s = false \/ ops s = [Read] ->
     decoder_ s = MkDecoder limits rest /\ decoder_ok (decoder_ s));
  co_ids : (issued s).*1 = (fun n => u64 (Z.of_nat n)) <$> seq 1 (length (issued s));
  co_active : active_request_id_ s = u64 (zlen (issued s));
  co_answers : (issued s).*1 = (answers s).*1 ++ awaited s;
  co_sent : exists lost, visible (answers s) = sent s ++ writes (ops s) ++ lost /\
    (closed_ s = false \/ ops s <> [] -> lost = []);
  co_close : close_calls s = Nat.b2n (closed_ s) /\ close_handler_ s = negb (closed_ s);
}.

(** What is under way. *)
Inductive under_way : bool -> list operation -> bool -> bool -> bytes -> list RespCommand -> Prop :=
| uw_reading c : under_way c [Read] false false [] []
| uw_awaiting c q : under_way c [] true false [] q
| uw_writing c b q : under_way c [Write b] false true b q
| uw_closed q : under_way true [] false false [] q.

Definition phase (s : t) : Prop :=
  under_way (closed_ s) (ops s) (awaiting_reply_ s) (write_in_progress_ s) (write_buffer_ s)
    (pending_commands_ s).

(** Nothing is under way: the next command can be taken. *)
Definition ready (s : t) : Prop :=
  ops s = [] /\ awaiting_reply_ s = false /\ write_in_progress_ s = false /\ write_buffer_ s = [].

Section Invariant.
Context (limits : RespLimits).

Definition good (n : nat) (s : t) : Prop :=
  core limits s /\ phase s /\ (length (pending_commands_ s) <= n)%nat.

(** A member function that returns, in a good state. *)
Definition wpg (m : M t unit) (n : nat) : t -> Prop := wp m (fun _ => good n) (fun _ _ => False).

Lemma close_good n s :
  core limits s -> phase s \/ ready s -> (length (pending_commands_ s) <= n)%nat -> wpg close n s.
Proof.
  intros Hc Hp Hn. unfold wpg, close. repeat wp_step.
  { split_and!; [done| |done]. destruct Hp as [Hp|(Ho & Ha & Hw & Hb)]; [done|].
    unfold phase. rewrite Hif, Ho, Ha, Hw, Hb. constructor. }
  all: destruct Hc as [Hd Hi Ha Hw Hs [Hc Hh]]; rewrite Hif in *.
  - split_and!; [| |done].
    + split; try done; cbn.
      * destruct Hd as (rest & Hd & Hr). exists rest. split; [done|]. intros _. apply Hr. by left.
      * destruct Hs as (lost & Hs & Hl). exists lost. split; [done|]. intros _. apply Hl. by left.
      * by rewrite Hc.
    + destruct Hp as [Hp|(Ho & Haw & Hwi & Hb)]; unfold phase in *; cbn.
      * rewrite Hif in Hp. inversion Hp; by constructor.
      * rewrite Ho, Haw, Hwi, Hb. constructor.
  - by rewrite Hh in Hwhen.
Qed.

(** A reply is taken, or ignored. *)
Lemma on_reply_good n k id r s :
  (forall s', core limits s' -> ready s' -> (length (pending_commands_ s') <= n)%nat -> wpg k n s') ->
  good n s -> wpg (on_reply k id r) n s.
Proof.
  intros Hk (Hc & Hp & Hn). unfold wpg, on_reply, start_op. repeat wp_step; [done|..];
    rewrite !orb_false_iff, !negb_false_iff in Hif; destruct Hif as [[Hcl Haw] ->%Z.eqb_eq];
    guards; subst; destruct Hc as [Hd Hi Ha Hw Hs Hc]; unfold phase in Hp; rewrite Haw in *;
    inversion Hp as [|? ? E1 E2 E3 E4 E5 E6| |]; unfold awaited in *; rewrite Haw in *.
  - apply Hk; [|done|done]. split; try done; cbn.
    + by rewrite fmap_app, app_nil_r.
    + rewrite visible_snoc. cbn. by rewrite app_nil_r.
  - split; [|split; [|done]].
    + split; try done; cbn.
      * destruct Hd as (rest & Hd & Hr). exists rest. split; [done|]. intros _. apply Hr. by left.
      * by rewrite fmap_app, app_nil_r.
      * rewrite visible_snoc, bool_decide_eq_false_2 by done.
        destruct Hs as (lost & Hs & Hl). rewrite Hl, <- E2 in Hs by (by left).
        change (writes []) with (@nil bytes) in Hs. rewrite !app_nil_r in Hs. exists []. rewrite Hs, <- E2. done.
    + unfold phase. cbn. rewrite <- E2. cbn. constructor.
Qed.

Lemma read_next_good n s :
  core limits s -> ready s -> pending_commands_ s = [] -> wpg read_next n s.
Proof.
  intros Hc (Ho & Ha & Hw & Hb) Hp. unfold wpg, read_next, start_op.
  repeat wp_step; rewrite Hp, Ha, Hw in Hif.
  - split; [done|]. split; [|rewrite Hp; cbn; lia]. unfold phase. rewrite !orb_false_r in Hif. rewrite Ho, Ha, Hw, Hb, Hif. constructor.
  - rewrite !orb_false_r in Hif. destruct Hc as [Hd Hi Hac Hans Hs Hc]. split; [|split; [|cbn; rewrite Hp; cbn; lia]].
    + split; try done; cbn.
      * destruct Hd as (rest & Hd & Hr). exists rest. split; [done|]. intros _. apply Hr. by left.
      * destruct Hs as (lost & Hs & Hl). rewrite Ho in *. exists lost. split; [done|]. intros _. apply Hl. by left.
    + unfold phase. cbn. rewrite Ho, Ha, Hw, Hb, Hp. constructor.
Qed.

(** The command at the front is handed over. *)
Lemma take_core command rest s :
  core limits s -> ready s -> closed_ s = false -> pending_commands_ s = command :: rest ->
  let id := u64 (active_request_id_ s + 1) in
  core limits (s <| pending_commands_ := rest |> <| awaiting_reply_ := true |>
    <| active_request_id_ := id |> <| issued := issued s ++ [(id, command)] |>).
Proof.
  intros [Hd Hi Ha Hw Hs Hc] (Ho & Haw & Hwi & Hb) Hcl Hp. cbv zeta.
  unfold awaited in Hw. rewrite Haw in Hw. rewrite app_nil_r in Hw.
  assert (u64 (active_request_id_ s + 1) = u64 (Z.of_nat (S (length (issued s))))) as Eid.
  { rewrite Ha. unfold u64, zlen. rewrite Zplus_mod_idemp_l. f_equal. lia. }
  split; try done; cbn.
  - rewrite Hp in Hd. by rewrite fmap_app, <- app_assoc.
  - rewrite length_app, Nat.add_1_r, seq_S, !fmap_app, Hi. cbn. by rewrite Eid.
  - rewrite zlen_app. unfold zlen. cbn. rewrite Eid. f_equal. lia.
  - by rewrite fmap_app, Hw.
Qed.

Lemma dispatch_loop_good fuel : forall n s,
  (n < fuel)%nat -> core limits s -> ready s -> (length (pending_commands_ s) <= n)%nat ->
  wpg (dispatch_loop fuel) n s.
Proof.
  induction fuel as [|fuel IH]; intros n s Hf Hc Hr Hn; [lia|]. pose proof Hr as (Ho & Ha & Hw & Hb).
  unfold wpg. cbn [dispatch_loop]. do 2 wp_step. wp_step.
  { wp_step. split; [done|]. split; [|done]. rewrite Ha, Hw, !orb_false_r in Hif.
    unfold phase. rewrite Hif, Ho, Ha, Hw, Hb. constructor. }
  rewrite !orb_false_iff in Hif. destruct Hif as [[Hcl _] _].
  destruct (pending_commands_ s) as [|command rest] eqn:Hp; [by apply read_next_good|].
  cbn in Hn. pose proof (take_core command rest s Hc Hr Hcl Hp) as Hc'. cbv zeta in Hc'.
  unfold next_call. repeat wp_step.
  set (s' := set calls _ _).
  assert (good (n - 1) s') as Hg.
  { subst s'. split; [|split; [|cbn; lia]]; [by destruct Hc'|]. unfold phase. cbn. rewrite Ho, Hw, Hb. constructor. }
  eapply wp_mono; [apply (wp_for_each _ _ (good (n - 1)) (fun _ _ => False))| |done]; [done| |].
  - intros r s'' _ Hs''. apply on_reply_good; [|done]. intros s3 Hc3 Hr3 Hn3. apply IH; [lia|done..].
  - intros _ s'' (Hc2 & Hp2 & Hn2). wp_step; [|split_and!; [done|done|lia]].
    apply close_good; [done|by left|lia].
Qed.

Lemma dispatch_next_good n s :
  core limits s -> ready s -> (length (pending_commands_ s) <= n)%nat -> wpg dispatch_next n s.
Proof.
  intros Hc Hr Hn. unfold wpg, dispatch_next. do 2 wp_step.
  eapply wp_mono; [apply (dispatch_loop_good _ (length (pending_commands_ s)))| |done]; try done; [lia|].
  intros _ s' (Hc' & Hp' & Hn'). split_and!; [done|done|lia].
Qed.

(** *** Completions *)

(** After a protocol error the decoder is not used any more. *)
Lemma close_broken n s d :
  core limits s -> ready s -> (length (pending_commands_ s) <= n)%nat ->
  wpg close n (s <| decoder_ := d |>).
Proof.
  intros Hc Hr Hn. pose proof (close_good n s Hc (or_intror Hr) Hn) as Hg. revert Hg.
  unfold wpg, wp, close. run_m. change (closed_ (s <| decoder_ := d |>)) with (closed_ s).
  change (close_handler_ (s <| decoder_ := d |>)) with (close_handler_ s).
  destruct Hr as (Ho & _).
  destruct (closed_ s) eqn:Hcl; [|destruct (close_handler_ s)]; intros ([Hd Hi Ha Hw Hs Hc'] & Hp & Hq);
    (split; [|by split]); (split; try done); destruct Hd as (rest & Hd & _); exists rest;
    (split; [done|]); cbn; rewrite Ho, ?Hcl; by intros [?|?].
Qed.

Lemma reading_phase s : phase s -> ops s = [Read] -> ready (s <| ops := [] |>) /\ pending_commands_ s = [].
Proof. unfold phase. intros Hp Ho. rewrite Ho in Hp. inversion Hp. by split. Qed.

Lemma clear_read s : core limits s -> ops s = [Read] -> core limits (s <| ops := [] |>).
Proof.
  intros [Hd Hi Ha Hw Hs Hc] Ho. split; try done; cbn.
  - destruct Hd as (rest & Hd & Hr). exists rest. split; [done|]. intros [H|H]; [|done]. apply Hr. by left.
  - destruct Hs as (lost & Hs & Hl). rewrite Ho in *. exists lost. split; [done|]. intros _.
    apply Hl. by right.
Qed.

Lemma on_read_good error data s :
  core limits s -> phase s -> ops s = [Read] ->
  exists n, wpg (on_read error data) n (s <| ops := [] |>).
Proof.
  intros Hc Hp Ho. destruct (reading_phase s Hp Ho) as [Hr Hq].
  pose proof (clear_read s Hc Ho) as Hc1. unfold wpg, on_read.
  destruct (error || _); [exists 0%nat; apply close_good; [done|by right|cbn; by rewrite Hq]|].
  destruct (co_decoded _ _ Hc) as (rest & Hd & Hok). destruct (Hok (or_intror Ho)) as [Ed Hdo].
  pose proof (feed_spec data (decoder_ s) Hdo) as Hf. pose proof (feed_protocol data (decoder_ s)) as Hpr.
  destruct (feed data (decoder_ s)) as [[cs|e] d'] eqn:Ef.
  - exists (length cs). do 2 wp_step. change (decoder_ _) with (decoder_ s). rewrite Ef.
    destruct Hf as (Hf & Hl & Hdo'). rewrite Ed in Hf, Hl. cbn in Hf, Hl.
    repeat wp_step; change (pending_commands_ (s <| ops := [] |>)) with (pending_commands_ s);
      rewrite Hq; cbn [app]; set (s2 := set pending_commands_ _ _).
    all: assert (core limits s2) as Hc2.
    1,3: destruct Hc1 as [_ Hi Ha Hw Hs Hcl]; split; try done; cbn; exists (buffer_ d');
      (split; [rewrite Hq, app_nil_r in Hd; by eapply decoded_app|]); intros _; (split; [|done]);
      destruct d'; cbn in *; congruence.
    + apply read_next_good; [done|done|]. guards. cbn in Hif. by rewrite Hq in Hif.
    + by apply dispatch_next_good.
  - exists 0%nat. do 2 wp_step. change (decoder_ _) with (decoder_ s). rewrite Ef.
    destruct Hpr as [what ->]. repeat wp_step.
    apply close_broken; [done|done|]. cbn. by rewrite Hq.
Qed.

Lemma on_written_good reply error s :
  core limits s -> phase s -> ops s = [Write reply] ->
  wpg (on_written reply error) (length (pending_commands_ s)) (s <| ops := [] |>).
Proof.
  intros [Hd Hi Ha Hw Hs Hc] Hp Ho. unfold phase in Hp. rewrite Ho in Hp. inversion Hp as [| |c b q E1 E2 E3 E4 E5 E6|].
  destruct Hs as (lost & Hs & Hl). rewrite Ho in *. rewrite Hl in Hs by (by right).
  change (writes [Write reply]) with [reply] in Hs. rewrite app_nil_r in Hs.
  assert (awaited s = []) as Haw by (unfold awaited; by rewrite <- E3).
  unfold wpg, on_written. repeat wp_step.
  - unfold close. repeat wp_step.
    3:{ exfalso. destruct Hc as [_ Hc]. cbn in Hif0, Hwhen.
      rewrite Hif0 in Hc. cbn in Hc. congruence. }
    all: cbn in Hif0; split_and!; [|unfold phase; cbn; rewrite ?Hif0, <- E3; constructor|done];
      (split; try done); cbn; rewrite ?Hif0.
    1,3: destruct Hd as (rest & Hd & _); exists rest; (split; [done|]); by intros [?|?].
    3: by rewrite (proj1 Hc), Hif0.
    all: exists [reply]; split; [done|]; by intros [?|?].
  - apply dispatch_next_good; [|done|done].
    split; try done; cbn.
    + destruct Hd as (rest & Hd & Hr). exists rest. split; [done|]. intros [Hcl|?]; [|done]. apply Hr. by left.
    + exists []. split; [|done]. change (writes []) with (@nil bytes). rewrite !app_nil_r. congruence.
Qed.

(** *** Every event *)

Definition valid (s : t) : Prop := core limits s /\ phase s.

Definition returns_valid (r : result unit * t) : Prop := fst r = Ok tt /\ valid (snd r).

Lemma good_valid n m s : wpg m n s -> returns_valid (m s).
Proof. unfold returns_valid, wpg, wp, good, valid. destruct (m s) as [[[]|] s']; cbn; intuition. Qed.

Lemma session_step_valid ev s : valid s -> returns_valid (step ev s).
Proof.
  intros Hv. pose proof Hv as [Hc Hp]. unfold step. unfold mbind at 1, M_bind at 1. cbn [get].
  destruct ev as [error data|error|id reply|].
  - destruct (ops s) as [|[|r] [|]] eqn:Ho; try (by split).
    destruct (on_read_good error data s Hc Hp Ho) as [n Hn]. by eapply good_valid.
  - destruct (ops s) as [|[|r] [|]] eqn:Ho; try (by split).
    eapply good_valid. by apply on_written_good.
  - apply (good_valid (length (pending_commands_ s))). apply on_reply_good; [|done].
    intros s' Hc' Hr' Hn'. by apply dispatch_next_good.
  - apply (good_valid (length (pending_commands_ s))). apply close_good; auto.
Qed.

Lemma session_valid calls evs :
  0 <= max_buffer_bytes limits < u64_max -> valid (session limits calls evs).
Proof.
  intros Hl. unfold session. assert (valid (snd (start (create limits calls)))) as H0.
  { eapply good_valid, (read_next_good 0); [|done|done]. split; try done; cbn.
    - exists []. split; [apply decoded_nil|]. intros _. split; [done|]. split; cbn; unfold zlen; cbn; lia.
    - by exists []. }
  revert H0. generalize (snd (start (create limits calls))). unfold run.
  induction evs as [|ev evs IH]; intros s Hv; cbn; [done|]. apply IH. by apply session_step_valid.
Qed.

End Invariant.

(** *** Closed for good *)

Abbreviation stays_closed m := (forall s, closed_ s = true ->
  wp m (fun _ s' => closed_ s' = true) (fun _ s' => closed_ s' = true) s).

Lemma close_closed : stays_closed close.
Proof. intros s Hc. unfold close. repeat wp_step; done. Qed.

Lemma dispatch_next_closed : stays_closed dispatch_next.
Proof.
  intros s Hc. unfold dispatch_next. do 2 wp_step. cbn [dispatch_loop]. repeat wp_step; [done|].
  by rewrite Hc in Hif.
Qed.

Lemma step_closed ev s : closed_ s = true -> closed_ (snd (step ev s)) = true.
Proof.
  intros Hc. apply (wp_snd (step ev) (fun s' => closed_ s' = true)). unfold step. do 2 wp_step.
  destruct ev as [error data|error|id reply|]; [destruct (ops s) as [|[|r] [|]]..| |]; try done.
  - repeat wp_step. unfold on_read. wp_step; [by apply close_closed|]. do 2 wp_step.
    destruct (feed _ _) as [[cs|[]] d]; repeat wp_step; try done; try (by apply close_closed).
    + unfold read_next, start_op. repeat wp_step; done.
    + by apply dispatch_next_closed.
  - unfold on_written. repeat wp_step; [by apply close_closed|by apply dispatch_next_closed].
  - unfold on_reply. repeat wp_step; [done|..]; by rewrite Hc in Hif.
  - by apply close_closed.
Qed.

Lemma stop_closes s : closed_ (snd (step Stop s)) = true.
Proof. unfold step, stop, close. run_m. destruct (closed_ s) eqn:Hc; [done|]. by destruct (close_handler_ s). Qed.

(** ** A client that is served

    The handler answers each command later, with [answer]; the client's bytes
    arrive in pieces; nothing fails. *)

Section Serving.
Context (limits : RespLimits) (answer : RespCommand -> bytes).

Definition serve_step (st : t * list bytes) : t * list bytes :=
  let '(s, pieces) := st in
  match ops s, list.last (issued s), pieces with
  | [Read], _, piece :: pieces' => (snd (step (ReadDone false piece) s), pieces')
  | [Write _], _, _ => (snd (step (WriteDone false) s), pieces)
  | [], Some (id, command), _ => (snd (step (Reply id (answer command)) s), pieces)
  | _, _, _ => st
  end.

(** [dispatch_next] of an open session whose handler replies later. *)
Lemma dispatch_next_later s :
  ready s -> closed_ s = false -> calls s = [] ->
  dispatch_next s =
  (Ok tt, match pending_commands_ s with
          | [] => s <| ops := [Read] |>
          | command :: rest =>
              let id := u64 (active_request_id_ s + 1) in
              s <| pending_commands_ := rest |> <| awaiting_reply_ := true |>
                <| active_request_id_ := id |> <| issued := issued s ++ [(id, command)] |>
                <| calls := [] |>
          end).
Proof.
  intros (Ho & Ha & Hw & Hb) Hc Hk. unfold dispatch_next. unfold mbind at 1, M_bind at 1. cbn [get].
  cbn [dispatch_loop]. unfold mbind at 1, M_bind at 1. cbn [get]. rewrite Hc, Ha, Hw. cbn [orb].
  destruct (pending_commands_ s) as [|c rest] eqn:Hp.
  - unfold read_next, start_op. run_m. rewrite Hc, Ha, Hw, Hp. cbn. by rewrite Ho.
  - unfold next_call. run_m.
    match goal with |- context [calls ?x] => change (calls x) with (calls s) end.
    rewrite Hk. reflexivity.
Qed.

Record serving (stream : bytes) (st : t * list bytes) : Prop := {
  sv_valid : valid limits (fst st);
  sv_open : closed_ (fst st) = false;
  sv_calls : calls (fst st) = [];
  sv_answers : (answers (fst st)).*2 = answer <$> take (length (answers (fst st))) ((issued (fst st)).*2);
  sv_stream : received (fst st) ++ concat (snd st) = stream;
  sv_pieces : Forall (fun piece => piece <> []) (snd st);
}.

(** What is left to do. *)
Definition left (commands : nat) (st : t * list bytes) : nat :=
  (2 * (commands - length (issued (fst st))) + length (snd st) +
   match ops (fst st) with [] => 2 | [Read] => 0 | _ => 1 end)%nat.

#[local] Arguments left : simpl never.

(** The commands handed over come from the stream. *)
Lemma serving_issued stream cs st :
  decoded limits stream cs [] -> serving stream st ->
  exists cs' rest rest', cs = (issued (fst st)).*2 ++ pending_commands_ (fst st) ++ cs' /\
    decoded limits (rest ++ concat (snd st)) cs' rest' /\
    decoded limits (received (fst st)) ((issued (fst st)).*2 ++ pending_commands_ (fst st)) rest /\
    decoder_ (fst st) = MkDecoder limits rest /\ decoder_ok (decoder_ (fst st)).
Proof.
  intros Hd [[Hc _] Ho _ _ <- _]. destruct (co_decoded _ _ Hc) as (rest & Hr & Hok).
  destruct (decoded_prefix _ _ _ _ Hd _ _ eq_refl) as (cs1 & cs2 & s1 & -> & H1 & H2).
  destruct (decoded_fun _ _ _ _ _ _ Hr H1) as [<- <-].
  exists cs2, rest, []. rewrite app_assoc. split_and!; try done; apply Hok; by left.
Qed.

(** After a dispatch the session reads, or has handed over a command. *)
Record moved (s s' : t) : Prop := {
  mv_open : closed_ s' = false;
  mv_calls : calls s' = [];
  mv_answers : answers s' = answers s;
  mv_received : received s' = received s;
  mv_issued : ops s' = [Read] /\ issued s' = issued s \/
    ops s' = [] /\ exists x, issued s' = issued s ++ [x];
}.

Lemma dispatch_next_moved s :
  ready s -> closed_ s = false -> calls s = [] -> moved s (snd (dispatch_next s)).
Proof.
  intros Hr Hc Hk. rewrite dispatch_next_later by done. cbn [snd].
  destruct (pending_commands_ s); split; try done; [by left|]. right. split; [apply Hr|by eexists].
Qed.

Lemma all_answered s : core limits s -> awaiting_reply_ s = false -> length (answers s) = length (issued s).
Proof.
  intros Hc Ha. pose proof (f_equal length (co_answers _ _ Hc)) as H. unfold awaited in H.
  rewrite Ha, app_nil_r, !length_fmap in H. done.
Qed.

(** A step that ends with a dispatch. *)
Lemma serving_moved stream cs s s' s2 ps ps' :
  decoded limits stream cs [] ->
  serving stream (s, ps) -> valid limits s' -> moved s2 s' -> issued s2 = issued s ->
  answers s2 = answers s -> length (answers s) = length (issued s) ->
  received s2 ++ concat ps' = stream -> Forall (fun piece => piece <> []) ps' ->
  (length ps' + 1 <= length ps + match ops s with [Read] => 0 | _ => 1 end)%nat -> ops s <> [] ->
  serving stream (s', ps') /\ (left (length cs) (s', ps') < left (length cs) (s, ps))%nat.
Proof.
  intros Hd Hs Hv [Ho Hk Ha Hr Hi] Ei Ea El Es Hf Hl Hne.
  assert (serving stream (s', ps')) as Hs'.
  { split; cbn; try done; [|congruence]. pose proof (sv_answers _ _ Hs) as Hans. cbn in Hans. rewrite Ha, Ea, Hans.
    destruct Hi as [[_ ->]|(_ & x & ->)]; rewrite Ei; [done|].
    rewrite fmap_app, take_app_le; [done|]. rewrite length_fmap. lia. }
  split; [done|]. destruct (serving_issued _ _ _ Hd Hs') as (cs' & rest & rest' & -> & _).
  unfold left. cbn [fst snd]. rewrite !length_app, length_fmap.
  destruct Hi as [[-> ->]|(-> & x & ->)]; rewrite ?length_app, Ei; cbn;
    destruct (ops s) as [|[|?] [|]]; cbn in *; try lia; try done.
Qed.

(** A piece of the stream arrives. *)
Lemma serve_read stream cs s piece ps :
  decoded limits stream cs [] -> zlen stream <= max_buffer_bytes limits ->
  serving stream (s, piece :: ps) -> ops s = [Read] ->
  serving stream (serve_step (s, piece :: ps)) /\
  (left (length cs) (serve_step (s, piece :: ps)) < left (length cs) (s, piece :: ps))%nat.
Proof.
  intros Hd Hb Hs Ho. destruct (serving_issued _ _ _ Hd Hs) as (cs' & rest & rest' & Ecs & Hd2 & Hd1 & Ed & Hdo).
  destruct Hs as [Hv Hcl Hk Hans Hst Hps] eqn:EHs; clear EHs. cbn in *.
  destruct (reading_phase s (proj2 Hv) Ho) as [Hr Hq].
  assert (exists cs1 d', feed piece (decoder_ s) = (Ok cs1, d')) as (cs1 & d' & Ef).
  { pose proof (feed_spec piece (decoder_ s) Hdo) as Hf. destruct (feed piece (decoder_ s)) as [[cs1|e] d'].
    - by exists cs1, d'.
    - rewrite Ed in Hf. cbn in Hf. exfalso. destruct Hf as [Hf|Hf].
      + apply decoded_length in Hd1. subst stream. rewrite !zlen_app in Hb.
        pose proof (zlen_nonneg (concat ps)). lia.
      + rewrite app_assoc in Hd2. destruct (decoded_prefix _ _ _ _ Hd2 _ _ eq_refl) as (a & b & c & _ & Ha & _).
        eauto. }
  assert (piece <> []) as Hp by (by apply Forall_inv in Hps).
  pose proof (proj2 (session_step_valid limits (ReadDone false piece) s Hv)) as Hv'.
  unfold serve_step. rewrite Ho.
  set (s2 := s <| ops := [] |> <| decoder_ := d' |> <| received := received s ++ piece |>
    <| pending_commands_ := cs1 |>).
  assert (snd (step (ReadDone false piece) s) = snd (dispatch_next s2)) as Es.
  { unfold step. unfold mbind at 1, M_bind at 1. cbn [get]. rewrite Ho. unfold on_read. run_m.
    cbn [orb]. rewrite bool_decide_eq_false_2 by done.
    match goal with |- context [feed piece ?d] => change d with (decoder_ s) end. rewrite Ef.
    match goal with |- context [pending_commands_ ?x ++ cs1] =>
      change (pending_commands_ x) with (pending_commands_ s) end. rewrite Hq.
    change (snd ((if bool_decide (pending_commands_ s2 = []) then read_next else dispatch_next) s2) =
      snd (dispatch_next s2)).
    case_bool_decide as Hn; [|done]. rewrite dispatch_next_later by done. rewrite Hn.
    unfold read_next, start_op. run_m. destruct Hr as (_ & Ha & Hw & _). cbn in Ha, Hw. cbn in Hn.
    cbn. rewrite Hcl, Ha, Hw, Hn. done. }
  rewrite Es in Hv' |- *.
  apply (serving_moved stream cs s _ s2 (piece :: ps) ps); try done.
  - by apply dispatch_next_moved.
  - apply all_answered; [apply Hv|]. by destruct Hr as (_ & ? & _).
  - cbn. by rewrite <- app_assoc.
  - by apply Forall_inv_tail in Hps.
  - rewrite Ho. cbn. lia.
  - by rewrite Ho.
Qed.

(** A reply has been written. *)
Lemma serve_written stream cs s ps reply :
  decoded limits stream cs [] -> serving stream (s, ps) -> ops s = [Write reply] ->
  serving stream (serve_step (s, ps)) /\
  (left (length cs) (serve_step (s, ps)) < left (length cs) (s, ps))%nat.
Proof.
  intros Hd Hs Ho. pose proof Hs as [Hv Hcl Hk Hans Hst Hps]. cbn in *.
  pose proof (proj2 (session_step_valid limits (WriteDone false) s Hv)) as Hv'.
  pose proof (proj2 Hv) as Hp. unfold phase in Hp. rewrite Ho in Hp.
  inversion Hp as [| |c b q E1 E2 E3 E4 E5 E6|].
  unfold serve_step. rewrite Ho.
  set (s2 := s <| ops := [] |> <| write_in_progress_ := false |> <| write_buffer_ := [] |>
    <| sent := sent s ++ [reply] |>).
  assert (snd (step (WriteDone false) s) = snd (dispatch_next s2)) as Es.
  { unfold step. unfold mbind at 1, M_bind at 1. cbn [get]. by rewrite Ho. }
  rewrite Es in Hv' |- *.
  apply (serving_moved stream cs s _ s2 ps ps); try done.
  - by apply dispatch_next_moved.
  - by apply all_answered; [apply Hv|].
  - rewrite Ho. lia.
  - by rewrite Ho.
Qed.

(** The handler replies. *)
Lemma serve_reply stream cs s ps :
  (forall c, answer c <> []) -> decoded limits stream cs [] -> serving stream (s, ps) -> ops s = [] ->
  serving stream (serve_step (s, ps)) /\
  (left (length cs) (serve_step (s, ps)) < left (length cs) (s, ps))%nat.
Proof.
  intros Hne Hd [Hv Hcl Hk Hans Hst Hps] Ho. cbn in *. pose proof (proj2 Hv) as Hp. unfold phase in Hp.
  rewrite Ho, Hcl in Hp. inversion Hp as [|c q E1 E2 E3 E4 E5 E6| |].
  pose proof (co_answers _ _ (proj1 Hv)) as Hi. unfold awaited in Hi. rewrite <- E3 in Hi.
  destruct (list.last (issued s)) as [[id c']|] eqn:Hl.
  2:{ apply last_None in Hl. rewrite Hl in Hi. by destruct ((answers s).*1). }
  apply last_Some in Hl as [init Hl]. rewrite Hl, fmap_app in Hi. apply app_inj_tail in Hi as [Hi Hid]. cbn in Hid.
  assert (length (answers s) = length init) as El
    by (pose proof (f_equal length Hi) as H; rewrite !length_fmap in H; done).
  pose proof (proj2 (session_step_valid limits (Reply id (answer c')) s Hv)) as Hv'.
  rewrite Ho.
  assert (snd (step (Reply id (answer c')) s) = s <| awaiting_reply_ := false |>
    <| answers := answers s ++ [(id, answer c')] |> <| write_buffer_ := answer c' |>
    <| write_in_progress_ := true |> <| ops := [Write (answer c')] |>) as Es.
  { unfold step, on_reply, start_op. run_m. rewrite Hcl, <- E3, Hid, Z.eqb_refl. cbn [orb negb].
    rewrite bool_decide_eq_false_2 by done. cbn. by rewrite Ho. }
  rewrite Es in Hv' |- *. split.
  - split; try done; cbn. rewrite fmap_app, Hans, Hl, length_app, !fmap_app. cbn.
    rewrite El, take_app_le, take_ge by (rewrite ?length_fmap; lia).
    rewrite take_ge by (rewrite length_app, length_fmap; cbn; lia). by rewrite fmap_app.
  - unfold left. cbn. rewrite Ho. lia.
Qed.

Lemma serve_all stream cs k : forall st,
  (forall c, answer c <> []) -> decoded limits stream cs [] -> zlen stream <= max_buffer_bytes limits ->
  serving stream st -> (left (length cs) st <= k)%nat ->
  exists n, let st' := Nat.iter n serve_step st in
    serving stream st' /\ ops (fst st') = [Read] /\ snd st' = [].
Proof.
  induction k as [|k IH]; intros [s ps] Hne Hd Hb Hs Hk.
  all: destruct (decide (ops s = [Read] /\ ps = [])) as [[Ho ->]|Hn]; [by exists 0%nat|].
  all: assert (serving stream (serve_step (s, ps)) /\
    (left (length cs) (serve_step (s, ps)) < left (length cs) (s, ps))%nat) as [Hs' Hlt].
  1,3: pose proof (proj2 (sv_valid _ _ Hs)) as Hp; pose proof (sv_open _ _ Hs) as Hcl; cbn in Hp, Hcl;
    unfold phase in Hp; rewrite Hcl in Hp; destruct (ops s) as [|[|r] l] eqn:Ho; inversion Hp; subst;
    [by apply serve_reply|destruct ps; [naive_solver|by apply serve_read]|by eapply serve_written].
  - lia.
  - destruct (IH _ Hne Hd Hb Hs' ltac:(lia)) as (n & Hn').
    exists (n + 1)%nat. by rewrite Nat.iter_add.
Qed.

End Serving.

(** C19: A session handles commands strictly in order, one at a time: the
    commands handed to the handler and those still queued are what the client's
    bytes decode to; requests are numbered consecutively; all of them but the
    one awaited have been answered, in order; and what has been written to the
    client is a prefix of the non-empty answers.  At most one socket operation
    is under way, and the owner is told once that the session has closed. *)
Theorem session_ordered limits calls evs :
  0 <= max_buffer_bytes limits < u64_max ->
  let s := session limits calls evs in
  (exists rest, decoded limits (received s) ((issued s).*2 ++ pending_commands_ s) rest) /\
  (issued s).*1 = (fun n => u64 (Z.of_nat n)) <$> seq 1 (length (issued s)) /\
  (issued s).*1 = (answers s).*1 ++ awaited s /\
  sent s `prefix_of` visible (answers s) /\
  (length (ops s) <= 1)%nat /\ close_calls s = Nat.b2n (closed_ s).
Proof.
  intros Hl. cbv zeta. destruct (session_valid limits calls evs Hl) as [[Hd Hi Ha Hw Hs [Hc _]] Hp].
  split_and!; try done.
  - destruct Hd as (rest & Hd & _). by exists rest.
  - destruct Hs as (lost & -> & _). by eexists.
  - unfold phase in Hp. inversion Hp; cbn; lia.
Qed.

(** C21: An open session is never stuck, and reads only when it has nothing
    else to do: either a read is under way and every command so far has been
    answered and the answer written, or the handler owes the answer to one
    command, or one answer is being written.  No event makes a handler throw. *)
Theorem session_progress limits calls evs ev :
  0 <= max_buffer_bytes limits < u64_max ->
  let s := session limits calls evs in
  fst (step ev s) = Ok tt /\
  (closed_ s = false ->
   (ops s = [Read] /\ pending_commands_ s = [] /\ awaiting_reply_ s = false /\
     sent s = visible (answers s)) \/
   (ops s = [] /\ awaiting_reply_ s = true /\ sent s = visible (answers s)) \/
   (exists reply, ops s = [Write reply] /\ awaiting_reply_ s = false /\
     sent s ++ [reply] = visible (answers s))).
Proof.
  intros Hl. cbv zeta. pose proof (session_valid limits calls evs Hl) as Hv.
  split; [by apply (session_step_valid limits)|]. intros Hcl. destruct Hv as [Hc Hp].
  destruct (co_sent _ _ Hc) as (lost & Hs & Hlost). rewrite Hlost in Hs by (by left).
  rewrite app_nil_r in Hs. unfold phase in Hp. rewrite Hcl in Hp. rewrite Hs.
  inversion Hp as [? E1 E2 E3|? ? E1 E2 E3|? b ? E1 E2 E3|]; cbn; rewrite ?app_nil_r; eauto 10.
Qed.


(** ** A run *)

(** Two commands in two reads; the handler replies to the first one later, and
    to the second one before it returns, with a throw after it. *)
Definition demo_calls : list handler_call := [MkCall [] false; MkCall [str "+PONG"] true].

Definition demo_session_events : list event :=
  [ReadDone false (take 17 (concat (request <$> demo_commands)));
   ReadDone false (drop 17 (concat (request <$> demo_commands)));
   Reply 7 (str "+LATE"); Reply 1 (str "+OK"); WriteDone false].

Definition demo_session : t := session default_limits demo_calls demo_session_events.

Lemma session_ordered_witness :
  issued demo_session = zip [1; 2] demo_commands /\ sent demo_session = [str "+OK"] /\
  (issued demo_session).*1 = (answers demo_session).*1 ++ awaited demo_session /\
  sent demo_session `prefix_of` visible (answers demo_session) /\
  close_calls demo_session = Nat.b2n (closed_ demo_session).
Proof.
  split; [by vm_compute|]. split; [by vm_compute|].
  destruct (session_ordered default_limits demo_calls demo_session_events) as (_ & _ & H1 & H2 & _ & H3);
    [done|]. split_and!; [exact H1|exact H2|exact H3].
Defined.

Lemma session_progress_witness :
  let s := session default_limits [] (take 2 demo_session_events) in
  closed_ s = false /\ fst (step (Reply 1 (str "+OK")) s) = Ok tt.
Proof.
  split; [by vm_compute|].
  by apply (session_progress default_limits [] (take 2 demo_session_events)).
Defined.


End RespSession.
