(* ===== verification/Servers.v ===== *)
(** * The listeners ([RespServer::Impl] of [src/server/resp_server.cpp] and
      [Server::Impl] of [src/transport/server.cpp])

    Both accept connections one after the other and own the objects that serve
    them.  An object is named by the number of its creation: the code names it
    by its address, which cannot be reused before the object has left the
    server's container.  A session of the client listener runs on a strand of
    its own, so the stop it is told and the erasure it asks for are handlers
    posted from one strand to the other; a connection between members runs on
    the strand of its server.

    The theorems show that every open object is owned by its server, which
    never stops listening until it is told to, and that a server that has been
    stopped has closed everything; and that whatever is proved of one session
    or connection holds for all those of a server. *)

From S2P Require Import Prelude Msgpack Proto RespCodec Transport RespServer.

(** ** Clients *)

Module ClientServer.

Record t : Type := mk {
  limits_ : Resp.RespLimits;
  started_ : bool;
  stopped_ : bool;
  sessions_ : gset nat;
  accepting : bool;  (* an accept is under way *)
  objects : gmap nat RespSession.t;  (* the sessions ever made *)
  created : nat;
  erasures : list nat;  (* posted to the server's strand *)
  stops : list nat;  (* posted to the sessions' strands *)
}.

Definition eta (v : t) : t :=
  mk (limits_ v) (started_ v) (stopped_ v) (sessions_ v) (accepting v) (objects v) (created v)
    (erasures v) (stops v).
#[global] Instance set_started_ : Setter started_ := ltac:(setter eta started_).
#[global] Instance set_stopped_ : Setter stopped_ := ltac:(setter eta stopped_).
#[global] Instance set_sessions_ : Setter sessions_ := ltac:(setter eta sessions_).
#[global] Instance set_accepting : Setter accepting := ltac:(setter eta accepting).
#[global] Instance set_objects : Setter objects := ltac:(setter eta objects).
#[global] Instance set_created : Setter created := ltac:(setter eta created).
#[global] Instance set_erasures : Setter erasures := ltac:(setter eta erasures).
#[global] Instance set_stops : Setter stops := ltac:(setter eta stops).

Definition create (limits : Resp.RespLimits) : t := mk limits false false ∅ false ∅ 0 [] [].

Definition accept_next : M t unit :=
  v ← get;
  if stopped_ v then mret tt else accepting <~ true.

Definition start : M t unit :=
  v ← get;
  if started_ v || stopped_ v then mret tt else
  started_ <~ true ;;
  accept_next.

(** [calls] is how the command handler will behave for this session. *)
Definition add_session (calls : list RespSession.handler_call) : M t unit :=
  v ← get;
  let session := snd (RespSession.start (RespSession.create (limits_ v) calls)) in
  objects <~ <[created v := session]> (objects v) ;;
  sessions_ <~ ({[created v]} ∪ sessions_ v) ;;
  created <~ S (created v).

(** The completion of an accept. *)
Definition on_accept (error : bool) (calls : list RespSession.handler_call) : M t unit :=
  accepting <~ false ;;
  v ← get;
  when (negb error && negb (stopped_ v)) (add_session calls) ;;
  v ← get;
  when (negb (stopped_ v)) accept_next.

Definition stop_on_strand : M t unit :=
  v ← get;
  if stopped_ v then mret tt else
  stopped_ <~ true ;;
  sessions_ <~ ∅ ;;
  stops <~ stops v ++ elements (sessions_ v).

(** A handler of a session runs; closing posts the erasure. *)
Definition session_step (id : nat) (ev : RespSession.event) : M t unit :=
  v ← get;
  match objects v !! id with
  | None => mret tt
  | Some s =>
      let s' := snd (RespSession.step ev s) in
      objects <~ <[id := s']> (objects v) ;;
      when (RespSession.close_calls s <? RespSession.close_calls s')%nat
        (erasures <~ erasures v ++ [id])
  end.

Inductive event : Type :=
| Start
| Stop
| Accepted (error : bool) (calls : list RespSession.handler_call)
| Session (id : nat) (ev : RespSession.event)
| RunErasure
| RunStop.

Definition step (ev : event) : M t unit :=
  v ← get;
  match ev with
  | Start => start
  | Stop => stop_on_strand
  | Accepted error calls => if accepting v then on_accept error calls else mret tt
  | Session id sev => session_step id sev
  | RunErasure =>
      match erasures v with
      | [] => mret tt
      | id :: rest => erasures <~ rest ;; sessions_ <~ (sessions_ v ∖ {[id]})
      end
  | RunStop =>
      match stops v with
      | [] => mret tt
      | id :: rest => stops <~ rest ;; session_step id RespSession.Stop
      end
  end.

Definition server (limits : Resp.RespLimits) (evs : list event) : t :=
  fold_left (fun v ev => snd (step ev v)) evs (create limits).

(** ** The invariant *)

Record owned (limits : Resp.RespLimits) (v : t) : Prop := {
  ow_limits : limits_ v = limits;
  ow_created id : is_Some (objects v !! id) -> (id < created v)%nat;
  ow_session id s : objects v !! id = Some s ->
    exists calls evs, s = RespSession.session limits calls evs;
  ow_open id s : objects v !! id = Some s -> RespSession.closed_ s = false ->
    id ∈ sessions_ v \/ id ∈ stops v;
  ow_held id : id ∈ sessions_ v -> exists s, objects v !! id = Some s /\
    (RespSession.closed_ s = true -> id ∈ erasures v);
  ow_erased id : id ∈ erasures v -> exists s, objects v !! id = Some s /\ RespSession.closed_ s = true;
  ow_stopped : stopped_ v = true -> sessions_ v = ∅;
}.

Definition listens (v : t) : Prop := started_ v = true -> stopped_ v = false -> accepting v = true.

Section Owned.
Context (limits : Resp.RespLimits) (Hl : 0 <= Resp.max_buffer_bytes limits < u64_max).

Lemma session_snoc calls evs ev :
  snd (RespSession.step ev (RespSession.session limits calls evs)) =
  RespSession.session limits calls (evs ++ [ev]).
Proof. unfold RespSession.session, RespSession.run. by rewrite fold_left_app. Qed.

(** A session calls its close handler when it closes, and stays closed. *)
Lemma session_closes calls evs ev :
  let s := RespSession.session limits calls evs in
  let s' := snd (RespSession.step ev s) in
  RespSession.close_calls s = Nat.b2n (RespSession.closed_ s) /\
  RespSession.close_calls s' = Nat.b2n (RespSession.closed_ s') /\
  (RespSession.closed_ s = true -> RespSession.closed_ s' = true).
Proof.
  cbv zeta. rewrite session_snoc.
  destruct (RespSession.session_valid limits calls evs Hl) as [Hc _].
  destruct (RespSession.session_valid limits calls (evs ++ [ev]) Hl) as [Hc' _].
  split; [apply Hc|]. split; [apply Hc'|]. rewrite <- session_snoc. apply RespSession.step_closed.
Qed.

Lemma owned_update id s s' extra v :
  owned limits v -> objects v !! id = Some s ->
  (exists calls evs, s' = RespSession.session limits calls evs) ->
  (RespSession.closed_ s = true -> RespSession.closed_ s' = true) ->
  (id ∈ extra <-> RespSession.closed_ s = false /\ RespSession.closed_ s' = true) -> extra ⊆ [id] ->
  owned limits (v <| objects := <[id := s']> (objects v) |> <| erasures := erasures v ++ extra |>).
Proof.
  intros [Hli Hcr Hse Hop Hhe Her Hst] Ho Hs' Hm Hx Hsub.
  split; try done; cbn; intros i; destruct (decide (i = id)) as [->|Hne];
    rewrite ?lookup_insert_eq, ?lookup_insert_ne by done; try by eauto.
  - by intros ? [= <-].
  - intros ? [= <-] Hc. apply (Hop id s Ho). destruct (RespSession.closed_ s); [|done]. by rewrite Hm in Hc.
  - intros Hi. eexists. split; [done|]. intros Hc. apply elem_of_app.
    destruct (RespSession.closed_ s) eqn:Hcs; [|by right; apply Hx].
    left. destruct (Hhe id Hi) as (s0 & E & H0). rewrite Ho in E. injection E as <-. by apply H0.
  - intros Hi. destruct (Hhe i Hi) as (s0 & E & H0). exists s0. split; [done|].
    intros Hc. apply elem_of_app. left. by apply H0.
  - intros Hi. eexists. split; [done|]. apply elem_of_app in Hi as [Hi|Hi]; [|by apply Hx].
    destruct (Her id Hi) as (s0 & E & H0). rewrite Ho in E. injection E as <-. by apply Hm.
  - intros Hi. apply elem_of_app in Hi as [Hi|Hi]; [by apply Her|]. apply Hsub in Hi. set_solver.
Qed.

Lemma session_step_owned id ev v :
  owned limits v -> owned limits (snd (session_step id ev v)).
Proof.
  intros Hv. unfold session_step. run_m. destruct (objects v !! id) as [s|] eqn:Ho; [|done].
  destruct (ow_session _ _ Hv id s Ho) as (calls & evs & Es).
  pose proof (session_closes calls evs ev) as (H1 & H2 & H3). rewrite <- Es in H1, H2, H3.
  set (s' := snd (RespSession.step ev s)) in *.
  assert (exists calls evs, s' = RespSession.session limits calls evs) as Hs'
    by (exists calls, (evs ++ [ev]); by rewrite <- session_snoc, <- Es).
  pose proof (fun extra => owned_update id s s' extra v Hv Ho Hs' H3) as Hu.
  destruct (Nat.ltb_spec (RespSession.close_calls s) (RespSession.close_calls s')) as [Hlt|Hge]; cbn [snd].
  - apply (Hu [id]); [|done]. rewrite list_elem_of_singleton. rewrite H1, H2 in Hlt.
    destruct (RespSession.closed_ s), (RespSession.closed_ s'); cbn in Hlt; try lia; done.
  - specialize (Hu []). rewrite app_nil_r in Hu. apply Hu; [|set_solver]. rewrite H1, H2 in Hge.
    destruct (RespSession.closed_ s), (RespSession.closed_ s'); cbn in Hge; try lia; set_solver.
Qed.

Lemma add_session_owned calls v :
  owned limits v -> stopped_ v = false -> owned limits (snd (add_session calls v)).
Proof.
  intros [Hli Hcr Hse Hop Hhe Her Hst] Hs. unfold add_session. run_m. rewrite Hli.
  set (s := snd (RespSession.start _)).
  assert (objects v !! created v = None) as Hnew.
  { destruct (objects v !! created v) eqn:E; [|done]. specialize (Hcr (created v)). rewrite E in Hcr.
    specialize (Hcr ltac:(by eexists)). lia. }
  split; try done; cbn; try intros i; try (destruct (decide (i = created v)) as [->|Hne];
    rewrite ?lookup_insert_eq, ?lookup_insert_ne by done).
  - lia.
  - intros Hi. specialize (Hcr i Hi). lia.
  - intros ? [= <-]. by exists calls, [].
  - apply Hse.
  - intros ? [= <-] _. left. set_solver.
  - intros s0 Hi Hc. destruct (Hop i s0 Hi Hc); [left; set_solver|by right].
  - intros _. by exists s.
  - intros Hi. apply Hhe. set_solver.
  - intros Hi. destruct (Her _ Hi) as (s0 & E & _). congruence.
  - apply Her.
  - congruence.
Qed.

Lemma accept_next_owned v : owned limits v -> owned limits (snd (accept_next v)).
Proof. intros Hv. unfold accept_next. run_m. destruct (stopped_ v) eqn:Hs; [done|]. by destruct Hv. Qed.

Lemma stop_on_strand_owned v : owned limits v -> owned limits (snd (stop_on_strand v)).
Proof.
  intros Hv. unfold stop_on_strand. run_m. destruct (stopped_ v) eqn:Hs; [done|].
  destruct Hv as [Hli Hcr Hse Hop Hhe Her Hst]. split; try done; cbn.
  intros i s Hi Hc. right. apply elem_of_app. destruct (Hop i s Hi Hc); [right|by left].
    by apply elem_of_elements.
Qed.

Lemma erasure_owned id rest v :
  owned limits v -> erasures v = id :: rest ->
  owned limits (v <| erasures := rest |> <| sessions_ := sessions_ v ∖ {[id]} |>).
Proof.
  intros [Hli Hcr Hse Hop Hhe Her Hst] He. rewrite He in *. split; try done; cbn.
  - intros i s Hi Hc. destruct (Hop i s Hi Hc); [|by right]. left.
    destruct (decide (i = id)) as [->|]; [|set_solver].
    destruct (Her id ltac:(set_solver)) as (s0 & E & H0). congruence.
  - intros i Hi. destruct (Hhe i ltac:(set_solver)) as (s & E & H0). exists s. split; [done|].
    intros Hc. specialize (H0 Hc). set_solver.
  - intros i Hi. apply Her. set_solver.
  - intros Hs. rewrite (Hst Hs). set_solver.
Qed.

Lemma told_stop_owned id rest v :
  owned limits v -> stops v = id :: rest ->
  owned limits (snd (session_step id RespSession.Stop (v <| stops := rest |>))).
Proof.
  intros Hv Hs. pose proof (session_step_owned id RespSession.Stop v Hv) as H1.
  set (v1 := snd (session_step id RespSession.Stop v)) in *.
  assert (snd (session_step id RespSession.Stop (v <| stops := rest |>)) = v1 <| stops := rest |> /\
    stops v1 = id :: rest /\ forall s, objects v1 !! id = Some s -> RespSession.closed_ s = true)
    as (-> & E & Hc).
  { subst v1. unfold session_step. run_m. change (objects (v <| stops := rest |>)) with (objects v).
    destruct (objects v !! id) as [s|] eqn:Ho; [|split_and!; [done|done|intros s; cbn; congruence]].
    destruct (_ <? _)%nat; (split_and!; [done|done|]); cbn; rewrite lookup_insert_eq;
      intros s0 [= <-]; apply RespSession.stop_closes. }
  destruct H1 as [Hli Hcr Hse Hop Hhe Her Hst]. split; try done; cbn.
  intros i s Hi Ho. destruct (Hop i s Hi Ho) as [|Hin]; [by left|]. rewrite E in Hin. right.
  apply elem_of_cons in Hin as [->|]; [|done]. by rewrite (Hc s Hi) in Ho.
Qed.

Lemma server_step_owned ev v : owned limits v -> owned limits (snd (step ev v)).
Proof.
  intros Hv. unfold step. unfold mbind at 1, M_bind at 1. cbn [get]. destruct ev as [| |error calls|id ev| |].
  - unfold start. unfold mbind at 1, M_bind at 1. cbn [get]. destruct (started_ v || stopped_ v); [done|].
    unfold mbind, M_bind. cbn. apply accept_next_owned. by destruct Hv.
  - by apply stop_on_strand_owned.
  - destruct (accepting v); [|done]. unfold on_accept. run_m.
    set (v1 := v <| accepting := false |>). assert (owned limits v1) as H1 by (by destruct Hv).
    destruct (negb error && negb (stopped_ v1)) eqn:Hg.
    + apply andb_true_iff in Hg as [_ Hs%negb_true_iff].
      pose proof (add_session_owned calls v1 H1 Hs) as H2. destruct (add_session calls v1) as [[[]|e] v2]; [|done].
      cbn [snd] in H2. destruct (stopped_ v2); [done|by apply accept_next_owned].
    + destruct (stopped_ v1); [done|by apply accept_next_owned].
  - by apply session_step_owned.
  - destruct (erasures v) as [|id rest] eqn:He; [done|]. by apply erasure_owned.
  - destruct (stops v) as [|id rest] eqn:He; [done|]. by apply told_stop_owned.
Qed.

Lemma server_step_listens ev v : listens v -> listens (snd (step ev v)).
Proof.
  intros Hv. unfold step. unfold mbind at 1, M_bind at 1. cbn [get].
  destruct ev as [| |error calls|id ev| |].
  - unfold start, accept_next. run_m. unfold listens in *.
    destruct (started_ v) eqn:H1, (stopped_ v) eqn:H2; cbn; rewrite ?H1, ?H2; done.
  - unfold stop_on_strand. run_m. by destruct (stopped_ v).
  - destruct (accepting v) eqn:Ha; [|done]. unfold on_accept, add_session, accept_next. run_m.
    destruct v as [li st sp se ac ob cr er ss]. destruct error, sp; done.
  - unfold session_step. run_m. destruct (objects v !! id); [|done]. by destruct (_ <? _)%nat.
  - by destruct (erasures v).
  - destruct (stops v) as [|id rest]; [done|]. unfold session_step. run_m.
    change (objects (v <| stops := rest |>)) with (objects v).
    destruct (objects v !! id); [|done]. by destruct (_ <? _)%nat.
Qed.

(** The stops that were posted run. *)
Lemma drain_stops n : forall v,
  length (stops v) = n -> stopped_ v = true -> owned limits v ->
  let v' := Nat.iter n (fun v => snd (step RunStop v)) v in
  owned limits v' /\ stopped_ v' = true /\ stops v' = [].
Proof.
  induction n as [|n IH]; intros v Hn Hs Hv; cbv zeta; [cbn; split_and!; [done|done|by destruct (stops v)]|].
  rewrite Nat.iter_succ_r. destruct (stops v) as [|id rest] eqn:Est; [done|].
  assert (stops (snd (step RunStop v)) = rest /\ stopped_ (snd (step RunStop v)) = stopped_ v) as [E1 E2].
  { unfold step, session_step. run_m. rewrite Est.
    change (objects (v <| stops := rest |>)) with (objects v).
    destruct (objects v !! id); [|done]. by destruct (_ <? _)%nat. }
  apply IH; [rewrite E1; by injection Hn|by rewrite E2|by apply server_step_owned].
Qed.

Lemma server_owned evs : owned limits (server limits evs) /\ listens (server limits evs).
Proof.
  unfold server. assert (owned limits (create limits) /\ listens (create limits)) as H0.
  { split; [|done]. split; cbn; try done; try set_solver; intros i; try by rewrite lookup_empty. }
  revert H0. generalize (create limits).
  induction evs as [|ev evs IH]; intros v [H1 H2]; cbn; [done|]. apply IH.
  split; [by apply server_step_owned|by apply server_step_listens].
Qed.

End Owned.

(** C30: Every session of the client listener is a session in the sense of
    [RespSession], so all its theorems hold for it; an open one is held by the
    server or has been told to stop; one that is held and closed is about to
    be erased; and a server that was started and not stopped has an accept
    under way. *)
Theorem client_server_owns limits evs :
  0 <= Resp.max_buffer_bytes limits < u64_max ->
  let v := server limits evs in
  (forall id s, objects v !! id = Some s ->
     (exists calls sevs, s = RespSession.session limits calls sevs) /\
     (RespSession.closed_ s = false -> id ∈ sessions_ v \/ id ∈ stops v) /\
     (RespSession.closed_ s = true -> id ∈ sessions_ v -> id ∈ erasures v)) /\
  (started_ v = true -> stopped_ v = false -> accepting v = true).
Proof.
  intros Hl. cbv zeta. destruct (server_owned limits Hl evs) as [[Hli Hcr Hse Hop Hhe Her Hst] Ha].
  split; [|done]. intros id s Ho. split_and!; [by eapply Hse|by eapply Hop|].
  intros Hc Hi. destruct (Hhe id Hi) as (s0 & E & H0). apply H0. congruence.
Qed.

(** C31: A stopped listener closes everything: once the stops it has posted
    have run, every session it ever made is closed, it holds none, and no
    accept that completes later adds one. *)
Theorem client_server_stops limits evs :
  0 <= Resp.max_buffer_bytes limits < u64_max ->
  let v := server limits evs in
  stopped_ v = true ->
  let v' := Nat.iter (length (stops v)) (fun v => snd (step RunStop v)) v in
  stops v' = [] /\ sessions_ v' = ∅ /\
  (forall id s, objects v' !! id = Some s -> RespSession.closed_ s = true) /\
  (forall error calls, objects (snd (step (Accepted error calls) v')) = objects v').
Proof.
  intros Hl v Hs v'. pose proof (proj1 (server_owned limits Hl evs)) as Hv. fold v in Hv.
  destruct (drain_stops limits Hl (length (stops v)) v eq_refl Hs Hv) as (Hv' & Hs' & He). fold v' in Hv', Hs', He.
  clearbody v'. split_and!; [done|by apply (ow_stopped _ _ Hv')| |].
  - intros id s Ho. destruct (RespSession.closed_ s) eqn:Hc; [done|].
    destruct (ow_open _ _ Hv' id s Ho Hc) as [H|H].
    + rewrite (ow_stopped _ _ Hv' Hs') in H. set_solver.
    + rewrite He in H. set_solver.
  - intros error calls. unfold step, on_accept, accept_next. run_m.
    destruct v' as [li st sp se ac ob cr er ss]. cbn in Hs'. subst sp. by destruct ac, error.
Qed.

(** *** A run *)

(** Two clients; the first one is closed by an error before the server stops. *)
Definition demo_server_events : list event :=
  [Start; Accepted false []; Accepted true []; Accepted false RespSession.demo_calls;
   Session 0 (RespSession.ReadDone true []); RunErasure; Stop].

Lemma client_server_owns_witness :
  let v := server Resp.default_limits (take 5 demo_server_events) in
  erasures v = [0%nat] /\ size (sessions_ v) = 2%nat /\ accepting v = true.
Proof.
  split; [by vm_compute|]. split; [by vm_compute|].
  apply (client_server_owns Resp.default_limits (take 5 demo_server_events)); [done|by vm_compute..].
Defined.

Lemma client_server_stops_witness :
  let v := server Resp.default_limits demo_server_events in
  stops v = [1%nat] /\
  let v' := Nat.iter (length (stops v)) (fun v => snd (step RunStop v)) v in
  stops v' = [] /\ sessions_ v' = ∅ /\
  (forall id s, objects v' !! id = Some s -> RespSession.closed_ s = true).
Proof.
  split; [by vm_compute|].
  destruct (client_server_stops Resp.default_limits demo_server_events) as (H1 & H2 & H3 & _);
    [done|by vm_compute|]. split; [exact H1|]. split; [exact H2|exact H3].
Defined.

End ClientServer.

(** ** Members *)

Module PeerServer.
Import Transport.

(** Handlers posted to the strand. *)
Inductive strand_task : Type :=
| StartTask
| StopNow.

#[global] Instance strand_task_eq_dec : EqDecision strand_task.
Proof. solve_decision. Defined.

Record t : Type := mk {
  started : bool;
  stop_requested : bool;
  connections : gset nat;
  strand : list strand_task;
  accepting : bool;
  objects : gmap nat Connection;
  created : nat;
  handled : list (nat * Message.t);  (* what the handler was given, by connection *)
}.

Definition eta (v : t) : t :=
  mk (started v) (stop_requested v) (connections v) (strand v) (accepting v) (objects v) (created v)
    (handled v).
#[global] Instance set_started : Setter started := ltac:(setter eta started).
#[global] Instance set_stop_requested : Setter stop_requested := ltac:(setter eta stop_requested).
#[global] Instance set_connections : Setter connections := ltac:(setter eta connections).
#[global] Instance set_strand : Setter strand := ltac:(setter eta strand).
#[global] Instance set_accepting : Setter accepting := ltac:(setter eta accepting).
#[global] Instance set_objects : Setter objects := ltac:(setter eta objects).
#[global] Instance set_created : Setter created := ltac:(setter eta created).
#[global] Instance set_handled : Setter handled := ltac:(setter eta handled).

Definition create : t := mk false false ∅ [] false ∅ 0 [].

Section Server.
Context {MP : MsgPack Message.t}.

Definition accept_next : M t unit :=
  v ← get;
  if stop_requested v then mret tt else accepting <~ true.

Definition request_start : M t unit := v ← get; strand <~ strand v ++ [StartTask].

(** The handler [request_start] dispatches. *)
Definition start_on_strand : M t unit :=
  v ← get;
  if started v || stop_requested v then mret tt else
  started <~ true ;;
  accept_next.

Definition request_stop : M t unit :=
  v ← get;
  if stop_requested v then mret tt else
  stop_requested <~ true ;;
  strand <~ strand v ++ [StopNow].

Definition add_connection : M t unit :=
  v ← get;
  objects <~ <[created v := accepted_connection]> (objects v) ;;
  connections <~ ({[created v]} ∪ connections v) ;;
  created <~ S (created v).

(** The completion of an accept. *)
Definition on_accept (error : bool) : M t unit :=
  accepting <~ false ;;
  v ← get;
  when (negb error && negb (stop_requested v)) add_connection ;;
  v ← get;
  when (negb (stop_requested v)) accept_next.

Definition stop_now : M t unit :=
  v ← get;
  objects <~ map_imap (fun id c => Some (if decide (id ∈ connections v)
                                         then snd (Transport.stop c) else c)) (objects v) ;;
  connections <~ ∅.

(** A handler of a connection runs.  [finish] removes a connection that was
    not stopped from the set. *)
Definition connection_runs (id : nat) (ev : connection_event) : M t unit :=
  v ← get;
  match objects v !! id with
  | None => mret tt
  | Some c =>
      let c' := connection_step c ev in
      objects <~ <[id := c']> (objects v) ;;
      handled <~ handled v ++ (pair id <$> drop (length (dispatched c)) (dispatched c')) ;;
      when (stopped c' && negb (stopped c)) (connections <~ (connections v ∖ {[id]}))
  end.

Inductive event : Type :=
| Start
| Stop
| RunStrand
| Accepted (error : bool)
| Read (id : nat) (chunk : bytes)
| ReadError (id : nat).

Definition step (ev : event) : M t unit :=
  v ← get;
  match ev with
  | Start => request_start
  | Stop => request_stop
  | RunStrand =>
      match strand v with
      | [] => mret tt
      | task :: tasks =>
          strand <~ tasks ;;
          match task with StartTask => start_on_strand | StopNow => stop_now end
      end
  | Accepted error => if accepting v then on_accept error else mret tt
  | Read id chunk => connection_runs id (Bytes chunk)
  | ReadError id => connection_runs id ReadFails
  end.

Definition server (evs : list event) : t := fold_left (fun v ev => snd (step ev v)) evs create.

(** *** The invariant *)

(** The messages of one connection. *)
Definition of_connection (id : nat) (v : t) : list Message.t :=
  (base.filter (fun p => fst p = id) (handled v)).*2.

Record owned (v : t) : Prop := {
  ow_created id : is_Some (objects v !! id) -> (id < created v)%nat;
  ow_run id c : objects v !! id = Some c ->
    (exists evs, c = foldl connection_step accepted_connection evs) /\
    of_connection id v = dispatched c /\ (stopped c = false <-> id ∈ connections v);
  ow_new id : objects v !! id = None -> id ∉ connections v /\ of_connection id v = [];
  ow_stop : stop_requested v = true -> StopNow ∈ strand v \/ connections v = ∅;
  ow_stop_now : StopNow ∈ strand v -> stop_requested v = true;
}.

Definition listens (v : t) : Prop := started v = true -> stop_requested v = false -> accepting v = true.

#[local] Arguments of_connection : simpl never.

Lemma of_connection_app i v w l :
  handled w = handled v ++ l ->
  of_connection i w = of_connection i v ++ (base.filter (fun p => fst p = i) l).*2.
Proof. intros E. unfold of_connection. by rewrite E, list.filter_app, fmap_app. Qed.

Lemma tagged (id i : nat) (l : list Message.t) :
  (base.filter (fun p => fst p = i) (pair id <$> l)).*2 = if decide (id = i) then l else [].
Proof.
  induction l as [|m l IH]; [by case_decide|]. rewrite fmap_cons, filter_cons. cbn [fst].
  case_decide; [|done]. by rewrite fmap_cons, IH.
Qed.

Lemma connection_runs_owned id ev v : owned v -> owned (snd (connection_runs id ev v)).
Proof.
  intros Hv. unfold connection_runs. run_m. destruct (objects v !! id) as [c|] eqn:Ho; [|done].
  destruct Hv as [Hcr Hru Hne Hst Hsn]. destruct (Hru id c Ho) as ([evs Ec] & Hd & Hi).
  destruct (onward_step c ev) as [[l Hl] Hs]. set (c' := connection_step c ev) in *.
  assert (drop (length (dispatched c)) (dispatched c') = l) as El by (rewrite Hl; apply drop_app_length).
  rewrite El. assert (forall conns, conns = (if stopped c' && negb (stopped c) then connections v ∖ {[id]} else connections v) ->
    owned (v <| objects := <[id := c']> (objects v) |> <| handled := handled v ++ (pair id <$> l) |>
      <| connections := conns |>)) as H.
  { intros conns Ek. set (w := set connections conns _).
    assert (handled w = handled v ++ (pair id <$> l)) as Hw by done.
    split; change (objects w) with (<[id := c']> (objects v)); change (connections w) with conns; try done.
    - intros i Hi'. apply Hcr. destruct (decide (i = id)) as [->|]; [by eexists|]. by rewrite lookup_insert_ne in Hi'.
    - intros i c0. rewrite (of_connection_app i v w _ Hw), tagged.
      destruct (decide (i = id)) as [->|Hn].
      + rewrite lookup_insert_eq, decide_True by done. intros [= <-]. rewrite Hd. split_and!; [|done|].
        * exists (evs ++ [ev]). by rewrite foldl_snoc, <- Ec.
        * subst conns. destruct (stopped c), (stopped c'); cbn; set_solver.
      + rewrite lookup_insert_ne, decide_False, app_nil_r by done. intros Hc0.
        destruct (Hru i c0 Hc0) as (H1 & H2 & H3). split_and!; [done|done|]. rewrite H3. subst conns.
        destruct (_ && _); set_solver.
    - intros i. rewrite (of_connection_app i v w _ Hw), tagged.
      destruct (decide (i = id)) as [->|Hn]; [by rewrite lookup_insert_eq|].
      rewrite lookup_insert_ne, decide_False, app_nil_r by done. intros Hi'. destruct (Hne i Hi').
      split; [|done]. subst conns. destruct (_ && _); set_solver.
    - intros Hsr. destruct (Hst Hsr) as [|E]; [by left|]. right. subst conns. rewrite E. destruct (_ && _); set_solver. }
  specialize (H _ eq_refl). destruct (stopped c' && negb (stopped c)); [done|]. by destruct v.
Qed.

Lemma stop_now_owned v :
  owned v -> stop_requested v = true -> owned (snd (stop_now v)) /\
  connections (snd (stop_now v)) = ∅.
Proof.
  intros [Hcr Hru Hne Hst Hsn] Hsr. unfold stop_now. run_m. split; [|done]. split; cbn; try done.
  - intros i. rewrite map_lookup_imap. intros Hi. apply Hcr. destruct (objects v !! i); [by eexists|by destruct Hi].
  - intros i c'. rewrite map_lookup_imap. destruct (objects v !! i) as [c|] eqn:Ho; [|done].
    cbn. intros [= <-]. destruct (Hru i c Ho) as ([evs Ec] & Hd & Hi). change (of_connection i _) with (of_connection i v).
    case_decide as Hin.
    + split_and!.
      * exists (evs ++ [StopConnection]). by rewrite foldl_snoc, <- Ec.
      * rewrite Hd. by destruct c as [rd [] ow inp dis].
      * destruct c as [rd [] ow inp dis]; cbn; set_solver.
    + split_and!; [by exists evs|done|]. split; [intros H; by apply Hi in H|set_solver].
  - intros i. rewrite map_lookup_imap. destruct (objects v !! i) as [c|] eqn:Ho; [done|]. intros _.
    split; [set_solver|]. by apply Hne.
  - by right.
Qed.

Lemma add_connection_owned v :
  owned v -> stop_requested v = false -> owned (snd (add_connection v)).
Proof.
  intros [Hcr Hru Hne Hst Hsn] Hs. unfold add_connection. run_m.
  assert (objects v !! created v = None) as Hnew.
  { destruct (objects v !! created v) eqn:E; [|done]. specialize (Hcr (created v)). rewrite E in Hcr.
    specialize (Hcr ltac:(by eexists)). lia. }
  destruct (Hne _ Hnew) as [Hni Hno].
  split; cbn; try done; try intros i; try (destruct (decide (i = created v)) as [->|Hn];
    rewrite ?lookup_insert_eq, ?lookup_insert_ne by done).
  - lia.
  - intros Hi. specialize (Hcr i Hi). lia.
  - intros ? [= <-]. split_and!; [by exists []|done|set_solver].
  - intros c Hi. destruct (Hru i c Hi) as (H1 & H2 & H3). split_and!; [done|done|set_solver].
  - done.
  - intros Hi. destruct (Hne i Hi). split; [set_solver|done].
  - congruence.
Qed.

(** A change of members that own nothing. *)
Lemma owned_same v w :
  owned v -> objects w = objects v -> connections w = connections v -> handled w = handled v ->
  created w = created v -> stop_requested w = stop_requested v -> strand w = strand v -> owned w.
Proof.
  intros [Hcr Hru Hne Hst Hsn] E1 E2 E3 E4 E5 E6.
  split; unfold of_connection in *; rewrite ?E1, ?E2, ?E3, ?E4, ?E5, ?E6; done.
Qed.

Lemma peer_server_step_owned ev v : owned v -> owned (snd (step ev v)).
Proof.
  intros Hv. unfold step. unfold mbind at 1, M_bind at 1. cbn [get]. destruct ev as [| | |error|id chunk|id].
  - unfold request_start. run_m. destruct Hv as [Hcr Hru Hne Hst Hsn]. split; cbn; try done; set_solver.
  - unfold request_stop. run_m. destruct (stop_requested v) eqn:Hs; [done|].
    destruct Hv as [Hcr Hru Hne Hst Hsn]. split; cbn; try done; set_solver.
  - destruct (strand v) as [|[|] tasks] eqn:Hs; [done|..].
    + assert (owned (v <| strand := tasks |>)) as H1.
      { destruct Hv as [Hcr Hru Hne Hst Hsn]. rewrite Hs in *. split; cbn; try done; set_solver. }
      unfold start_on_strand, accept_next. run_m.
      destruct v as [st sr cs sd ac ob cr hd]. destruct st, sr; try done; by eapply owned_same.
    + assert (stop_requested v = true) as Hsr by (apply (ow_stop_now _ Hv); rewrite Hs; set_solver).
      destruct (stop_now_owned v Hv Hsr) as [[Hcr Hru Hne Hst Hsn] Hc].
      assert (snd (((strand <~ tasks) ;; stop_now) v) = (snd (stop_now v)) <| strand := tasks |>) as -> by done.
      split; cbn; try done. by right.
  - destruct (accepting v); [|done]. unfold on_accept. run_m.
    set (v1 := v <| accepting := false |>). assert (owned v1) as H1 by (by eapply owned_same).
    assert (forall w, owned w -> owned (snd (accept_next w))) as Ha.
    { intros w Hw. unfold accept_next. run_m. destruct (stop_requested w); [done|]. by eapply owned_same. }
    destruct (negb error && negb (stop_requested v1)) eqn:Hg.
    + apply andb_true_iff in Hg as [_ Hs%negb_true_iff].
      pose proof (add_connection_owned v1 H1 Hs) as H2. destruct (add_connection v1) as [[[]|e] v2]; [|done].
      cbn [snd] in H2. destruct (stop_requested v2); [done|by apply Ha].
    + destruct (stop_requested v1); [done|by apply Ha].
  - by apply connection_runs_owned.
  - by apply connection_runs_owned.
Qed.

Lemma peer_server_step_listens ev v : listens v -> listens (snd (step ev v)).
Proof.
  intros Hv. unfold step. unfold mbind at 1, M_bind at 1. cbn [get].
  destruct ev as [| | |error|id chunk|id]; destruct v as [st sr cs sd ac ob cr hd]; try done.
  - by destruct sr.
  - destruct sd as [|[|] tasks]; [done| |done]. by destruct st, sr.
  - destruct ac; [|done]. by destruct error, sr.
  - unfold connection_runs. run_m. cbn [objects]. destruct (ob !! id); [|done]. by destruct (_ && _).
  - unfold connection_runs. run_m. cbn [objects]. destruct (ob !! id); [|done]. by destruct (_ && _).
Qed.

Lemma drain_strand n : forall v,
  length (strand v) = n -> stop_requested v = true -> owned v ->
  let v' := Nat.iter n (fun v => snd (step RunStrand v)) v in
  owned v' /\ stop_requested v' = true /\ strand v' = [].
Proof.
  induction n as [|n IH]; intros v Hn Hs Hv; cbv zeta; [cbn; split_and!; [done|done|by destruct (strand v)]|].
  rewrite Nat.iter_succ_r. destruct (strand v) as [|task tasks] eqn:Est; [done|].
  assert (strand (snd (step RunStrand v)) = tasks /\
    stop_requested (snd (step RunStrand v)) = stop_requested v) as [E1 E2].
  { destruct v as [st sr cs sd ac ob cr hd]. cbn in Est, Hs. subst sd sr. destruct task; [by destruct st|done]. }
  apply IH; [rewrite E1; by injection Hn|by rewrite E2|by apply peer_server_step_owned].
Qed.

Lemma peer_server_owned evs : owned (server evs) /\ listens (server evs).
Proof.
  unfold server. assert (owned create /\ listens create) as H0.
  { split; [|done]. split; cbn; try done; try set_solver; intros i; try by rewrite lookup_empty. }
  revert H0. generalize create.
  induction evs as [|ev evs IH]; intros v [H1 H2]; cbn; [done|]. apply IH.
  split; [by apply peer_server_step_owned|by apply peer_server_step_listens].
Qed.

(** C32: Every connection of the members' listener is a connection in the sense
    of [Transport.Connection], so what it dispatches are frames of the bytes it
    received; the handler gets the messages of each connection in order; the
    server holds exactly the connections that are not stopped; and one that
    was started and not asked to stop has an accept under way. *)
Theorem peer_server_owns evs :
  let v := server evs in
  (forall id c, objects v !! id = Some c ->
     (exists cevs, c = foldl connection_step accepted_connection cevs) /\
     of_connection id v = dispatched c /\ (stopped c = false <-> id ∈ connections v)) /\
  (started v = true -> stop_requested v = false -> accepting v = true).
Proof. cbv zeta. destruct (peer_server_owned evs) as [[Hcr Hru Hne Hst Hsn] Hl]. by split. Qed.

(** A stop of the members' listener takes effect: once the handlers posted
    to its strand have run, every connection is stopped and none is held, and
    no accept that completes later adds one. *)
Theorem peer_server_stops evs :
  let v := server evs in
  stop_requested v = true ->
  let v' := Nat.iter (length (strand v)) (fun v => snd (step RunStrand v)) v in
  connections v' = ∅ /\ (forall id c, objects v' !! id = Some c -> stopped c = true) /\
  (forall error, objects (snd (step (Accepted error) v')) = objects v').
Proof.
  intros v Hs v'. pose proof (proj1 (peer_server_owned evs)) as Hv. fold v in Hv.
  destruct (drain_strand (length (strand v)) v eq_refl Hs Hv) as (Hv' & Hs' & He). fold v' in Hv', Hs', He.
  clearbody v'. assert (connections v' = ∅) as Hc.
  { destruct (ow_stop _ Hv' Hs') as [H|H]; [|done]. rewrite He in H. set_solver. }
  split_and!; [done| |].
  - intros id c Ho. destruct (ow_run _ Hv' id c Ho) as (_ & _ & Hi). rewrite Hc in Hi.
    destruct (stopped c); [done|]. set_solver.
  - intros error. destruct v' as [st sr cs sd ac ob cr hd]. cbn in Hs'. subst sr. by destruct ac, error.
Qed.

End Server.

(** *** A run *)

#[local] Instance demo_pack : MsgPack Message.t := Bits.msgpack Message.t.

Lemma peer_server_stops_witness :
  let v := server [Start; RunStrand; Accepted false; Read 0 demo_stream; Stop] in
  handled v = [(0%nat, demo_vote); (0%nat, demo_vote)] /\
  let v' := Nat.iter (length (strand v)) (fun v => snd (step RunStrand v)) v in
  connections v' = ∅ /\ forall id c, objects v' !! id = Some c -> stopped c = true.
Proof.
  split; [by vm_compute|].
  destruct (peer_server_stops [Start; RunStrand; Accepted false; Read 0 demo_stream; Stop]) as (H1 & H2 & _);
    [by vm_compute|]. split; [exact H1|exact H2].
Defined.

End PeerServer.
