(* ===== verification/Wal.v ===== *)
(** * The write-ahead log ([src/wal/wal.{h,cpp}])

    [WAL.t] is the class: its write buffer, its failure flag and, standing for
    what [dir_] and [fp_] reach, the directory on disk.  The operating system
    decides whether a flush, an open or a repair succeeds; these outcomes are
    part of [Disk.t], so that every theorem holds for all of them. *)

From S2P Require Import Prelude Msgpack Proto Crc32.

(** ** Strings the file names are made of *)

Module WalName.

Definition hex_digit (d : Z) : byte :=
  if d <? 10 then z2b (48 + d) else z2b (87 + d).

(** [n] hexadecimal digits of [x], most significant first. *)
Fixpoint hex (n : nat) (x : Z) : bytes :=
  match n with
  | O => []
  | S n' => hex n' (x / 16) ++ [hex_digit (x `mod` 16)]
  end.

(** ["%016" PRIx64 "-%016" PRIx64 ".wal"]: sixteen digits hold any [uint64_t]. *)
Definition make_wal_name (seq index : Z) : bytes :=
  hex 16 seq ++ str "-" ++ hex 16 index ++ str ".wal".

(** [std::stoull(s, nullptr, 16)]: white space, a sign, an optional [0x] and as
    many digits as there are; it throws without a digit or beyond 64 bits. *)
Definition is_space (b : byte) : bool :=
  (b2z b =? 32) || ((9 <=? b2z b) && (b2z b <=? 13)).

Fixpoint skip_spaces (s : bytes) : bytes :=
  match s with
  | b :: s' => if is_space b then skip_spaces s' else s
  | [] => []
  end.

Definition hex_value (b : byte) : option Z :=
  let c := b2z b in
  if (48 <=? c) && (c <=? 57) then Some (c - 48)
  else if (97 <=? c) && (c <=? 102) then Some (c - 87)
  else if (65 <=? c) && (c <=? 70) then Some (c - 55)
  else None.

Fixpoint hex_digits (s : bytes) (acc : Z) : Z :=
  match s with
  | b :: s' => match hex_value b with
               | Some d => hex_digits s' (acc * 16 + d)
               | None => acc
               end
  | [] => acc
  end.

Definition starts_digit (s : bytes) : bool :=
  match s with b :: _ => bool_decide (is_Some (hex_value b)) | [] => false end.

Definition stoull16 (s : bytes) : result Z :=
  let s := skip_spaces s in
  let '(negative, s) := match s with
    | b :: s' => if b2z b =? 45 then (true, s')
                 else if b2z b =? 43 then (false, s') else (false, s)
    | [] => (false, s)
    end in
  let s := match s with
    | z :: x :: s' =>
        if (b2z z =? 48) && ((b2z x =? 120) || (b2z x =? 88)) && starts_digit s'
        then s' else s
    | _ => s
    end in
  if negb (starts_digit s) then Throw (invalid_argument "stoull") else
  let v := hex_digits s 0 in
  if v >=? u64_max then Throw (out_of_range "stoull") else
  Ok (if negative then u64 (- v) else v).

(** [s.find(c)]. *)
Fixpoint find_byte (c : byte) (s : bytes) : option nat :=
  match s with
  | [] => None
  | b :: s' => if decide (b = c) then Some 0%nat else S <$> find_byte c s'
  end.

Definition has_wal_suffix (name : bytes) : bool :=
  bool_decide (drop (length name - 4) name = str ".wal").

Definition parse_wal_name (name : bytes) : option (Z * Z) :=
  if (zlen name <? 37) || negb (has_wal_suffix name) then None else
  let stem := take (length name - 4) name in
  match find_byte Byte.x2d stem with
  | None => None
  | Some dash =>
      match stoull16 (take dash stem), stoull16 (drop (S dash) stem) with
      | Ok seq, Ok index => Some (seq, index)
      | _, _ => None
      end
  end.

(** [std::string::operator<], byte by byte. *)
Fixpoint lex_ltb (a b : bytes) : bool :=
  match a, b with
  | [], _ :: _ => true
  | _, [] => false
  | x :: a', y :: b' =>
      (b2z x <? b2z y) || ((b2z x =? b2z y) && lex_ltb a' b')
  end.

Fixpoint insert_sorted (x : bytes) (l : list bytes) : list bytes :=
  match l with
  | [] => [x]
  | y :: l' => if lex_ltb y x then y :: insert_sorted x l' else x :: l
  end.

Definition sort_names (l : list bytes) : list bytes := foldr insert_sorted [] l.

End WalName.

(** ** The directory on disk *)

Module Disk.

(** What the operating system does with one flush of the write buffer; the
    number is how many of its bytes reach the file all the same. *)
Inductive flush : Type :=
| flush_ok
| fwrite_fails (reached : nat)
| fflush_fails (reached : nat)
| fsync_fails (reached : nat).

(** What it does with the repair of a damaged file: the third outcome leaves
    the file cut although the repair has failed. *)
Inductive repair : Type :=
| repair_ok
| truncate_fails
| repair_fsync_fails.

Record t : Type := mk {
  files : gmap bytes bytes;
  flushes : list flush;
  mkdir_fails : bool;
  open_fails : bytes -> bool;
  read_fails : bytes -> bool;
  repairs : bytes -> repair;
}.

Definition eta (d : t) : t :=
  mk (files d) (flushes d) (mkdir_fails d) (open_fails d) (read_fails d) (repairs d).
#[global] Instance set_files : Setter files := ltac:(setter eta files).
#[global] Instance set_flushes : Setter flushes := ltac:(setter eta flushes).

(** A disk on which every operation succeeds. *)
Definition healthy (fs : gmap bytes bytes) : t :=
  mk fs [] false (fun _ => false) (fun _ => false) (fun _ => repair_ok).

Definition contents (name : bytes) (d : t) : bytes := default [] (files d !! name).

Definition append_to (name data : bytes) (d : t) : t :=
  d <| files := <[name := contents name d ++ data]> (files d) |>.

End Disk.

Module WAL.

Record t : Type := mk {
  fp_ : bytes;
  buffer_ : bytes;
  failed_ : bool;
  disk_ : Disk.t;
}.

Definition eta (w : t) : t := mk (fp_ w) (buffer_ w) (failed_ w) (disk_ w).
#[global] Instance set_buffer_ : Setter buffer_ := ltac:(setter eta buffer_).
#[global] Instance set_failed_ : Setter failed_ := ltac:(setter eta failed_).
#[global] Instance set_disk_ : Setter disk_ := ltac:(setter eta disk_).

(** ** Opening *)

Definition list_wal_files (d : Disk.t) : list bytes :=
  WalName.sort_names
    (filter (fun name => WalName.has_wal_suffix name = true)
       (fst <$> map_to_list (Disk.files d))).

(** [nullptr] is [None]. *)
Definition create (d : Disk.t) : option t :=
  if Disk.mkdir_fails d then None else
  let path := WalName.make_wal_name 0 0 in
  match Disk.files d !! path with
  | Some _ => None
  | None =>
      if Disk.open_fails d path then None else
      Some (mk path [] false (Disk.append_to path [] d))
  end.

Definition open (d : Disk.t) : option t :=
  match list.last (list_wal_files d) with
  | None => None
  | Some latest =>
      match WalName.parse_wal_name latest with
      | None => None
      | Some _ => if Disk.open_fails d latest then None else Some (mk latest [] false d)
      end
  end.

(** ** Writing *)

Definition kMaxRecordPayload : Z := Z.shiftl 1 24 - 1.

Definition append_record (type : Z) (data : bytes) : M t unit :=
  if zlen data >? kMaxRecordPayload
  then throw (length_error "WAL record exceeds the 24-bit payload limit") else
  let checksum := Crc32.crc32 data in
  let hdr := RecordHeader.mk type (u32 (zlen data)) checksum in
  w ← get;
  buffer_ <~ buffer_ w ++ RecordHeader.encode hdr ++ data.

Section Save.
Context {WP : WalPack}.

Definition save_hard_state (hs : HardStateProto.t) : M t unit :=
  if HardStateProto.is_empty hs then mret tt else
  append_record RecordType.HardState (pack hs).

Definition save_entry (entry : Entry.t) : M t unit :=
  append_record RecordType.Entry (pack entry).

Definition save_snapshot (snap : SnapshotMeta.t) : M t unit :=
  if SnapshotMeta.is_empty snap then mret tt else
  append_record RecordType.Snapshot (pack snap).
End Save.

(** The outcome of the flush that comes next. *)
Definition next_flush : M t Disk.flush :=
  w ← get;
  match Disk.flushes (disk_ w) with
  | [] => mret Disk.flush_ok
  | f :: fs => disk_ <~ (disk_ w) <| Disk.flushes := fs |> ;; mret f
  end.

(** The file grows by the first [n] bytes of the buffer. *)
Definition write_out (n : nat) : M t unit :=
  w ← get;
  disk_ <~ Disk.append_to (fp_ w) (take n (buffer_ w)) (disk_ w).

Definition sync : M t bool :=
  w ← get;
  if failed_ w then mret false else
  if decide (buffer_ w = []) then mret true else
  f ← next_flush;
  match f with
  | Disk.fwrite_fails n | Disk.fflush_fails n | Disk.fsync_fails n =>
      write_out n ;; failed_ <~ true ;; buffer_ <~ [] ;; mret false
  | Disk.flush_ok =>
      write_out (length (buffer_ w)) ;; buffer_ <~ [] ;; mret true
  end.

(** ** Recovery *)

(** What recovery has put together so far; the snapshot is what the pointer
    argument refers to, [None] for [nullptr]. *)
Record recovered : Type := Recovered {
  hs : HardStateProto.t;
  entries : list Entry.t;
  snapshot : option SnapshotMeta.t;
}.

(** [std::lower_bound] by index: the first entry not below [index]. *)
Fixpoint lower_bound (l : list Entry.t) (index : Z) : nat :=
  match l with
  | [] => 0
  | e :: l' => if Entry.index e <? index then S (lower_bound l' index) else 0
  end.

(** [std::upper_bound] by index: the first entry above [index]. *)
Fixpoint upper_bound (l : list Entry.t) (index : Z) : nat :=
  match l with
  | [] => 0
  | e :: l' => if index <? Entry.index e then 0 else S (upper_bound l' index)
  end.

Definition recover_hard_state (h : HardStateProto.t) (r : recovered) : recovered :=
  Recovered h (entries r) (snapshot r).

Definition recover_entry (e : Entry.t) (r : recovered) : recovered :=
  Recovered (hs r) (take (lower_bound (entries r) (Entry.index e)) (entries r) ++ [e])
    (snapshot r).

Definition recover_snapshot (s : SnapshotMeta.t) (r : recovered) : recovered :=
  Recovered (hs r)
    (if SnapshotMeta.discard_suffix s then []
     else drop (upper_bound (entries r) (SnapshotMeta.index s)) (entries r))
    (match snapshot r with Some _ => Some s | None => None end).

Section Recover.
Context {WP : WalPack}.

(** The [switch] on the record type, inside the [try] block. *)
Definition recover_record (type : Z) (payload : bytes) (r : recovered)
    : result recovered :=
  if type =? RecordType.HardState then
    h ← unpack payload; Ok (recover_hard_state h r)
  else if type =? RecordType.Entry then
    e ← unpack payload; Ok (recover_entry e r)
  else if type =? RecordType.Snapshot then
    s ← unpack payload; Ok (recover_snapshot s r)
  else Ok r.

Definition supported_type (type : Z) : bool :=
  (type =? RecordType.Entry) || (type =? RecordType.HardState) ||
  (type =? RecordType.Snapshot).

(** The loop over the records of one file, from the bytes after [valid_bytes]
    on; the result has the state, the bytes of whole records and whether the
    tail is damaged.  Each iteration takes eight bytes or more, so the length
    of the file is fuel enough. *)
Fixpoint scan (fuel : nat) (data : bytes) (valid_bytes : Z) (r : recovered)
    : recovered * Z * bool :=
  match fuel with
  | O => (r, valid_bytes, false)
  | S fuel' =>
      if zlen data =? 0 then (r, valid_bytes, false) else
      if zlen data <? 8 then (r, valid_bytes, true) else
      let hdr := RecordHeader.decode data in
      let data := drop 8 data in
      if negb (supported_type (RecordHeader.type hdr)) then (r, valid_bytes, true) else
      if zlen data <? RecordHeader.len hdr then (r, valid_bytes, true) else
      let payload := take (Z.to_nat (RecordHeader.len hdr)) data in
      if negb (Crc32.crc32 payload =? RecordHeader.crc hdr) then (r, valid_bytes, true) else
      match recover_record (RecordHeader.type hdr) payload r with
      | Throw _ => (r, valid_bytes, true)
      | Ok r' =>
          scan fuel' (drop (Z.to_nat (RecordHeader.len hdr)) data)
            (valid_bytes + 8 + RecordHeader.len hdr) r'
      end
  end.

Definition scan_file (data : bytes) (r : recovered) : recovered * Z * bool :=
  scan (S (length data)) data 0 r.

(** One file: open, read, scan, and cut a damaged tail off.  The boolean is
    [stop_recovery]. *)
Definition recover_file (name : bytes) (r : recovered) : M t (recovered * bool) :=
  w ← get;
  if Disk.open_fails (disk_ w) name
  then throw (runtime_error "cannot open WAL file") else
  if Disk.read_fails (disk_ w) name
  then throw (runtime_error "cannot read WAL file") else
  let data := Disk.contents name (disk_ w) in
  let '(r', valid_bytes, damaged_tail) := scan_file data r in
  if damaged_tail then
    let cut_tail := disk_ <~ (disk_ w) <| Disk.files :=
      <[name := take (Z.to_nat valid_bytes) data]> (Disk.files (disk_ w)) |> in
    match Disk.repairs (disk_ w) name with
    | Disk.repair_ok => cut_tail ;; mret (r', true)
    | Disk.truncate_fails => throw (runtime_error "failed to repair damaged WAL tail")
    | Disk.repair_fsync_fails =>
        cut_tail ;; throw (runtime_error "failed to repair damaged WAL tail")
    end
  else mret (r', false).

Fixpoint recover_files (names : list bytes) (r : recovered) : M t recovered :=
  match names with
  | [] => mret r
  | name :: names' =>
      '(r', stop_recovery) ← recover_file name r;
      if (stop_recovery : bool) then mret r' else recover_files names' r'
  end.

(** [recover(entries, snapshot)] with the caller's vector and pointee. *)
Definition recover (entries0 : list Entry.t) (snapshot0 : option SnapshotMeta.t)
    : M t recovered :=
  w ← get;
  let names := list_wal_files (disk_ w) in
  if decide (names = [])
  then throw (runtime_error "no WAL files available for recovery") else
  recover_files names (Recovered HardStateProto.default entries0 snapshot0).
End Recover.

Arguments scan_file : simpl never.

End WAL.
