(* ===== verification/WalFacts.v ===== *)
(** * What the write-ahead log guarantees

    The abstract log is a list of [record]s; [encode_records] is its image on
    disk and [replay] is what recovery makes of it.  The theorems relate the
    byte-level code of [Wal.v] to it: saving and flushing append records,
    recovery after a crash at any byte replays exactly the records that are
    wholly on disk, and a damaged record ends recovery before it is used. *)

From S2P Require Import Prelude Msgpack Proto Crc32 Wal.

Section WalFacts.
Context {WP : WalPack} {WL : WalPackLaws}.

(** ** The abstract log *)

Inductive record : Type :=
| rec_hard_state (h : HardStateProto.t)
| rec_entry (e : Entry.t)
| rec_snapshot (s : SnapshotMeta.t).

Definition record_type (r : record) : Z :=
  match r with
  | rec_hard_state _ => RecordType.HardState
  | rec_entry _ => RecordType.Entry
  | rec_snapshot _ => RecordType.Snapshot
  end.

Definition record_payload (r : record) : bytes :=
  match r with
  | rec_hard_state h => pack h
  | rec_entry e => pack e
  | rec_snapshot s => pack s
  end.

Definition record_typed (r : record) : Prop :=
  match r with
  | rec_hard_state h => typed h
  | rec_entry e => typed e
  | rec_snapshot s => typed s
  end.

(** A record the writer accepts. *)
Definition writable (r : record) : Prop :=
  record_typed r /\ zlen (record_payload r) <= WAL.kMaxRecordPayload.

Definition record_header (r : record) : RecordHeader.t :=
  RecordHeader.mk (record_type r) (zlen (record_payload r))
    (Crc32.crc32 (record_payload r)).

Definition encode_record (r : record) : bytes :=
  RecordHeader.encode (record_header r) ++ record_payload r.

Definition encode_records (rs : list record) : bytes := concat (map encode_record rs).

Definition replay_record (acc : WAL.recovered) (r : record) : WAL.recovered :=
  match r with
  | rec_hard_state h => WAL.recover_hard_state h acc
  | rec_entry e => WAL.recover_entry e acc
  | rec_snapshot s => WAL.recover_snapshot s acc
  end.

Definition replay (rs : list record) (acc : WAL.recovered) : WAL.recovered :=
  foldl replay_record acc rs.

(** The records that are wholly within the first [k] bytes. *)
Fixpoint whole_records (k : nat) (rs : list record) : list record :=
  match rs with
  | [] => []
  | r :: rs' =>
      if decide (length (encode_record r) <= k)%nat
      then r :: whole_records (k - length (encode_record r)) rs'
      else []
  end.

(** ** Scanning what was written *)

Lemma encode_records_cons r rs :
  encode_records (r :: rs) = encode_record r ++ encode_records rs.
Proof. done. Qed.

Lemma record_header_valid r : writable r -> RecordHeader.valid (record_header r).
Proof.
  intros [_ Hl]. split; [|split]; cbn.
  - by destruct r.
  - change WAL.kMaxRecordPayload with (2 ^ 24 - 1) in Hl. pose proof (zlen_nonneg (record_payload r)). lia.
  - apply Crc32.crc32_range.
Qed.

Lemma encode_record_length r :
  length (encode_record r) = (8 + length (record_payload r))%nat.
Proof. unfold encode_record. by rewrite length_app, RecordHeader.encode_length. Qed.

Lemma recover_record_payload r acc :
  record_typed r ->
  WAL.recover_record (record_type r) (record_payload r) acc = Ok (replay_record acc r).
Proof.
  destruct r; cbn; intros Ht; unfold WAL.recover_record; cbn;
    rewrite unpack_pack by done; done.
Qed.

Lemma supported_record r : WAL.supported_type (record_type r) = true.
Proof. by destruct r. Qed.

(** The header in front of some payload is read back, whatever follows. *)
Lemma scan_header fuel h payload rest v acc :
  RecordHeader.valid h -> RecordHeader.len h = zlen payload ->
  WAL.supported_type (RecordHeader.type h) = true ->
  WAL.scan (S fuel) (RecordHeader.encode h ++ payload ++ rest) v acc =
  if negb (Crc32.crc32 payload =? RecordHeader.crc h) then (acc, v, true) else
  match WAL.recover_record (RecordHeader.type h) payload acc with
  | Throw _ => (acc, v, true)
  | Ok acc' => WAL.scan fuel rest (v + 8 + zlen payload) acc'
  end.
Proof.
  intros Hv Hl Hs. cbn [WAL.scan]. rewrite RecordHeader.decode_encode by done.
  rewrite zlen_app. change (zlen (RecordHeader.encode h)) with 8.
  rewrite drop_app_length' by reflexivity.
  rewrite Hs, Hl. pose proof (zlen_nonneg (payload ++ rest)) as Hnn.
  pose proof (zlen_nonneg rest).
  destruct (Z.eqb_spec (8 + zlen (payload ++ rest)) 0); [lia|].
  destruct (Z.ltb_spec (8 + zlen (payload ++ rest)) 8); [lia|].
  cbn [negb]. rewrite zlen_app.
  destruct (Z.ltb_spec (zlen payload + zlen rest) (zlen payload)); [lia|].
  by rewrite !to_nat_zlen, take_app_length, drop_app_length.
Qed.

Lemma scan_record fuel r rest v acc :
  writable r ->
  WAL.scan (S fuel) (encode_record r ++ rest) v acc =
  WAL.scan fuel rest (v + zlen (encode_record r)) (replay_record acc r).
Proof.
  intros Hw. unfold encode_record at 1. rewrite <- app_assoc, scan_header;
    [|by apply record_header_valid|done|apply supported_record].
  cbn [record_header RecordHeader.crc RecordHeader.type]. rewrite Z.eqb_refl. cbn [negb].
  rewrite recover_record_payload by apply Hw. f_equal.
  unfold zlen. rewrite encode_record_length. lia.
Qed.

Lemma scan_nil fuel v acc : WAL.scan fuel [] v acc = (acc, v, false).
Proof. by destruct fuel. Qed.

(** A record cut short by a crash is recognised as damage. *)
Lemma scan_torn fuel r k v acc :
  writable r -> (0 < k < length (encode_record r))%nat ->
  WAL.scan (S fuel) (take k (encode_record r)) v acc = (acc, v, true).
Proof.
  intros Hw Hk. pose proof (encode_record_length r) as Hlen. cbn [WAL.scan].
  destruct (Z.eqb_spec (zlen (take k (encode_record r))) 0); [len_lia|].
  destruct (Z.ltb_spec (zlen (take k (encode_record r))) 8); [done|].
  assert (take k (encode_record r) =
    RecordHeader.encode (record_header r) ++ take (k - 8) (record_payload r)) as ->.
  { unfold encode_record. rewrite take_app, RecordHeader.encode_length.
    rewrite take_ge; [done|]. rewrite RecordHeader.encode_length. len_lia. }
  rewrite RecordHeader.decode_encode by by apply record_header_valid.
  rewrite drop_app_length' by reflexivity.
  cbn [record_header RecordHeader.type RecordHeader.len]. rewrite supported_record.
  cbn [negb]. destruct (Z.ltb_spec (zlen (take (k - 8) (record_payload r)))
    (zlen (record_payload r))); [done|]. len_lia.
Qed.

Lemma scan_prefix rs : forall fuel k v acc,
  Forall writable rs -> (k < fuel)%nat -> (k <= length (encode_records rs))%nat ->
  WAL.scan fuel (take k (encode_records rs)) v acc =
  (replay (whole_records k rs) acc, v + zlen (encode_records (whole_records k rs)),
   negb (k =? length (encode_records (whole_records k rs)))%nat).
Proof.
  induction rs as [|r rs IH]; intros fuel k v acc Hw Hf Hk.
  - cbn in Hk. assert (k = 0%nat) as -> by lia. rewrite take_0, scan_nil.
    cbn. by rewrite Z.add_0_r.
  - apply Forall_cons_iff in Hw as [Hr Hrs]. destruct fuel as [|fuel]; [cbn in Hf; lia|].
    rewrite encode_records_cons in *.
    rewrite length_app in Hk. pose proof (encode_record_length r). cbn [whole_records]. case_decide as Hd.
    + rewrite take_app. rewrite take_ge by lia.
      rewrite scan_record by done. rewrite IH by (done || lia).
      cbn [replay foldl]. rewrite encode_records_cons.
      rewrite zlen_app, length_app. f_equal; [f_equal; lia|]. f_equal.
      destruct (Nat.eqb_spec (k - length (encode_record r))
        (length (encode_records (whole_records (k - length (encode_record r)) rs)))),
        (Nat.eqb_spec k (length (encode_record r) +
        length (encode_records (whole_records (k - length (encode_record r)) rs)))); lia.
    + rewrite take_app_le by lia. change (zlen (encode_records [])) with 0.
      rewrite Z.add_0_r.
      destruct (decide (k = 0%nat)) as [->|]; [by rewrite take_0, scan_nil|].
      rewrite scan_torn by (done || lia). by destruct k.
Qed.

(** A file that ends at any byte of what was written: recovery replays the whole
    records and reports damage exactly when a partial one follows. *)
Lemma scan_file_prefix rs k acc :
  Forall writable rs -> (k <= length (encode_records rs))%nat ->
  WAL.scan_file (take k (encode_records rs)) acc =
  (replay (whole_records k rs) acc, zlen (encode_records (whole_records k rs)),
   negb (k =? length (encode_records (whole_records k rs)))%nat).
Proof.
  intros Hw Hk. unfold WAL.scan_file. rewrite scan_prefix; [done|done| |done].
  rewrite length_take. lia.
Qed.

Lemma whole_records_all rs k :
  (length (encode_records rs) <= k)%nat -> whole_records k rs = rs.
Proof.
  revert k. induction rs as [|r rs IH]; intros k Hk; [done|].
  rewrite encode_records_cons in Hk.
  rewrite length_app in Hk. cbn [whole_records]. rewrite decide_True by lia.
  by rewrite IH by lia.
Qed.

(** Damage inside a payload: recovery stops before the record. *)
Lemma scan_corrupt r p w w' q rs rest fuel v acc :
  Forall writable rs -> writable r -> record_payload r = p ++ w ++ q ->
  length w = length w' -> (length w <= 4)%nat -> w <> w' -> (length rs < fuel)%nat ->
  WAL.scan fuel (encode_records rs ++ RecordHeader.encode (record_header r) ++
                 (p ++ w' ++ q) ++ rest) v acc =
  (replay rs acc, v + zlen (encode_records rs), true).
Proof.
  intros Hrs Hr Hp Hlen H4 Hne. revert fuel v acc.
  induction Hrs as [|r' rs Hr' Hrs IH]; intros fuel v acc Hf.
  - destruct fuel as [|fuel]; [lia|]. cbn [encode_records map concat app].
    rewrite scan_header; [|by apply record_header_valid| |apply supported_record].
    + cbn [record_header RecordHeader.crc]. rewrite Hp.
      destruct (Z.eqb_spec (Crc32.crc32 (p ++ w' ++ q)) (Crc32.crc32 (p ++ w ++ q))) as [E|E].
      * apply Crc32.crc32_burst in E; [|done|lia]. by destruct Hne.
      * cbn. by rewrite Z.add_0_r.
    + cbn. rewrite Hp. unfold zlen. rewrite !length_app. lia.
  - destruct fuel as [|fuel]; [cbn in Hf; lia|].
    rewrite encode_records_cons.
    rewrite <- app_assoc, scan_record by done. rewrite IH by (cbn in Hf; lia).
    cbn [replay foldl]. rewrite zlen_app. f_equal. f_equal. lia.
Qed.

(** ** The writer *)

(** The handle has flushed [rs] and buffered [ps]. *)
Definition represents (w : WAL.t) (rs ps : list record) : Prop :=
  Disk.contents (WAL.fp_ w) (WAL.disk_ w) = encode_records rs /\
  WAL.buffer_ w = encode_records ps /\ WAL.failed_ w = false.

Lemma encode_records_app rs ps :
  encode_records (rs ++ ps) = encode_records rs ++ encode_records ps.
Proof. unfold encode_records. by rewrite map_app, concat_app. Qed.

Lemma encode_records_one r : encode_records [r] = encode_record r.
Proof. rewrite encode_records_cons. apply app_nil_r. Qed.

(** What buffering one record does, and when it throws. *)
Lemma append_record_spec w r rs ps :
  represents w rs ps -> record_typed r ->
  match WAL.append_record (record_type r) (record_payload r) w with
  | (Ok _, w') => represents w' rs (ps ++ [r]) /\ writable r /\
      WAL.disk_ w' = WAL.disk_ w /\ WAL.fp_ w' = WAL.fp_ w
  | (Throw e, w') => w' = w /\ WAL.kMaxRecordPayload < zlen (record_payload r) /\
      e = length_error "WAL record exceeds the 24-bit payload limit"
  end.
Proof.
  intros (Hd & Hb & Hf) Ht. unfold WAL.append_record.
  destruct (Z.gtb_spec (zlen (record_payload r)) WAL.kMaxRecordPayload) as [|Hle]; run_m.
  { done. }
  split_and!; [|by split|done|done].
  split_and!; [done| |done]. cbn. rewrite Hb, encode_records_app, encode_records_one.
  unfold encode_record, record_header. rewrite u32_small; [done|].
  change WAL.kMaxRecordPayload with (2 ^ 24 - 1) in Hle. len_lia.
Qed.

Lemma contents_append_to name data d :
  Disk.contents name (Disk.append_to name data d) = Disk.contents name d ++ data.
Proof. unfold Disk.contents at 1, Disk.append_to. cbn. by rewrite lookup_insert_eq. Qed.

(** A flush either makes the buffered records durable or marks the handle
    failed, with some prefix of the buffer in the file. *)
Lemma sync_spec w rs ps :
  represents w rs ps ->
  match WAL.sync w with
  | (Ok true, w') => represents w' (rs ++ ps) [] /\ WAL.fp_ w' = WAL.fp_ w
  | (Ok false, w') => WAL.failed_ w' = true /\ WAL.buffer_ w' = [] /\
      WAL.fp_ w' = WAL.fp_ w /\
      exists k, (k <= length (encode_records ps))%nat /\
        Disk.contents (WAL.fp_ w') (WAL.disk_ w') =
        encode_records rs ++ take k (encode_records ps)
  | (Throw _, _) => False
  end.
Proof.
  intros (Hd & Hb & Hf). unfold WAL.sync. run_m. rewrite Hf.
  case_decide as He.
  { split; [|done]. rewrite Hb in He. split_and!; [|by rewrite Hb, He|done].
    by rewrite encode_records_app, He, app_nil_r. }
  unfold WAL.next_flush, WAL.write_out. run_m.
  assert (forall d n, d = WAL.disk_ w \/ (exists fs, d = (WAL.disk_ w) <| Disk.flushes := fs |>) ->
    exists k, (k <= length (encode_records ps))%nat /\
      Disk.contents (WAL.fp_ w) (Disk.append_to (WAL.fp_ w) (take n (WAL.buffer_ w)) d) =
      encode_records rs ++ take k (encode_records ps)) as Hpre.
  { intros d n Hdd. exists (n `min` length (encode_records ps))%nat. split; [lia|].
    rewrite contents_append_to, Hb, <- take_take, firstn_all.
    f_equal. destruct Hdd as [->|[fs ->]]; done. }
  assert (forall d, d = WAL.disk_ w \/ (exists fs, d = (WAL.disk_ w) <| Disk.flushes := fs |>) ->
      Disk.contents (WAL.fp_ w) (Disk.append_to (WAL.fp_ w)
        (take (length (WAL.buffer_ w)) (WAL.buffer_ w)) d) = encode_records (rs ++ ps)) as Hall.
  { intros d Hdd. rewrite contents_append_to, firstn_all, encode_records_app, Hb.
    f_equal. destruct Hdd as [->|[fs ->]]; done. }
  destruct (Disk.flushes (WAL.disk_ w)) as [|[]]; cbn;
    first [ split; [split_and!; [apply Hall; eauto|done|done]|done]
          | split_and!; [done|done|done|apply Hpre; eauto] ].
Qed.

(** ** Recovery from a directory with one log file *)

(** The directory holds the file [name] with [data] and nothing else, and the
    operating system lets recovery open, read and repair it. *)
Record single_file (d : Disk.t) (name data : bytes) : Prop := {
  sf_files : Disk.files d = {[name := data]};
  sf_suffix : WalName.has_wal_suffix name = true;
  sf_open : Disk.open_fails d name = false;
  sf_read : Disk.read_fails d name = false;
  sf_repair : Disk.repairs d name = Disk.repair_ok;
}.

Lemma list_singleton d name data :
  Disk.files d = {[name := data]} -> WalName.has_wal_suffix name = true ->
  WAL.list_wal_files d = [name].
Proof.
  intros Hf Hs. unfold WAL.list_wal_files. rewrite Hf, map_to_list_singleton.
  cbn. rewrite decide_True by done. done.
Qed.

Lemma encode_whole_prefix k rs :
  take (length (encode_records (whole_records k rs))) (encode_records rs) =
  encode_records (whole_records k rs).
Proof.
  revert k. induction rs as [|r rs IH]; intros k; [done|].
  cbn [whole_records]. case_decide; [|done].
  rewrite !encode_records_cons, length_app, take_app.
  rewrite take_ge by lia. f_equal.
  replace (length (encode_record r) + _ - length (encode_record r))%nat with
    (length (encode_records (whole_records (k - length (encode_record r)) rs))) by lia.
  apply IH.
Qed.

Lemma encode_whole_le k rs : (length (encode_records (whole_records k rs)) <= k)%nat.
Proof.
  revert k. induction rs as [|r rs IH]; intros k; [cbn; lia|].
  cbn [whole_records]. case_decide; [|cbn; lia].
  rewrite encode_records_cons, length_app.
  specialize (IH (k - length (encode_record r))%nat). lia.
Qed.

Definition recovered_start (entries0 : list Entry.t) (snapshot0 : option SnapshotMeta.t)
    : WAL.recovered := WAL.Recovered HardStateProto.default entries0 snapshot0.

(** Recovery of a file that ends at byte [k] of the written log, whatever the
    operating system does: the result is the replay of the whole records, with
    the file cut back to them, or an exception, with the file as it was or cut
    back. *)
Lemma recover_outcome d name rs k es sn :
  Forall writable rs -> (k <= length (encode_records rs))%nat ->
  Disk.files d = {[name := take k (encode_records rs)]} -> WalName.has_wal_suffix name = true ->
  match WAL.recover es sn (WAL.mk name [] false d) with
  | (Ok r, w) => r = replay (whole_records k rs) (recovered_start es sn) /\
      represents w (whole_records k rs) [] /\ WAL.fp_ w = name /\
      Disk.files (WAL.disk_ w) = {[name := encode_records (whole_records k rs)]}
  | (Throw _, w) =>
      (Disk.open_fails d name = true \/ Disk.read_fails d name = true \/
       Disk.repairs d name <> Disk.repair_ok) /\
      (Disk.files (WAL.disk_ w) = Disk.files d \/
       Disk.files (WAL.disk_ w) = {[name := encode_records (whole_records k rs)]})
  end.
Proof.
  intros Hw Hk Hf Hs. unfold WAL.recover. run_m. cbn. rewrite (list_singleton _ _ _ Hf Hs).
  rewrite decide_False by done. cbn. run_m. unfold WAL.recover_file. run_m. cbn.
  assert (Disk.contents name d = take k (encode_records rs)) as Hc.
  { unfold Disk.contents. by rewrite Hf, lookup_singleton_eq. }
  destruct (Disk.open_fails d name); [by split; left|].
  destruct (Disk.read_fails d name); [by split; [right|]; left|].
  rewrite Hc, scan_file_prefix by done.
  destruct (Nat.eqb_spec k (length (encode_records (whole_records k rs)))) as [E|E]; cbn.
  - assert (take k (encode_records rs) = encode_records (whole_records k rs)) as Ht
      by (rewrite E at 1; apply encode_whole_prefix).
    split_and!; [done| |done|by rewrite Hf, Ht]. split_and!; [|done|done]. cbn. by rewrite Hc, Ht.
  - rewrite to_nat_zlen, take_take, Nat.min_l by apply encode_whole_le.
    rewrite encode_whole_prefix, Hf, insert_singleton_eq.
    destruct (Disk.repairs d name); cbn.
    + split_and!; [done| |done|done]. split_and!; [|done|done].
      cbn. unfold Disk.contents. cbn. by rewrite lookup_singleton_eq.
    + split; [right; by right|by left].
    + split; [right; by right|by right].
Qed.

(** ... and when it lets recovery open, read and repair the file. *)
Lemma recover_prefix d name rs k es sn :
  Forall writable rs -> (k <= length (encode_records rs))%nat ->
  single_file d name (take k (encode_records rs)) ->
  exists w', WAL.recover es sn (WAL.mk name [] false d) =
    (Ok (replay (whole_records k rs) (recovered_start es sn)), w') /\
    represents w' (whole_records k rs) [] /\ WAL.fp_ w' = name /\
    Disk.files (WAL.disk_ w') = {[name := encode_records (whole_records k rs)]}.
Proof.
  intros Hw Hk [Hf Hs Ho Hr Hp]. pose proof (recover_outcome d name rs k es sn Hw Hk Hf Hs) as H.
  destruct (WAL.recover es sn _) as [[r|e] w].
  - destruct H as (-> & H). by exists w.
  - destruct H as [[?|[?|?]] _]; congruence.
Qed.

End WalFacts.
