(* ===== verification/WalProps.v ===== *)
(** * The write-ahead log across crashes

    A handle of [src/wal/wal.cpp] from its creation on, under any sequence of
    saves and flushes, with flushes that fail and a crash at the end; what a
    new process then recovers.  The abstract log of [WalFacts] is the
    specification. *)

From S2P Require Import Prelude Msgpack Proto Crc32 Wal WalFacts.

#[local] Arguments encode_records : simpl never.

Section Session.
Context {WP : WalPack} {WL : WalPackLaws}.

(** ** A handle in use *)

Inductive wal_call : Type :=
| Save (r : record)
| Sync.

Definition save (r : record) : M WAL.t unit :=
  match r with
  | rec_hard_state h => WAL.save_hard_state h
  | rec_entry e => WAL.save_entry e
  | rec_snapshot s => WAL.save_snapshot s
  end.

(** The records that the calls wrote and, of these, how many a successful
    flush has made durable. *)
Record session : Type := Session { handle : WAL.t; written : list record; durable_count : nat }.

(** What a save leaves in the buffer: nothing for the empty hard state and the
    empty snapshot. *)
Definition saved (r : record) : list record :=
  match r with
  | rec_hard_state h => if HardStateProto.is_empty h then [] else [r]
  | rec_snapshot s => if SnapshotMeta.is_empty s then [] else [r]
  | rec_entry _ => [r]
  end.

Definition wal_step (c : wal_call) (s : session) : session :=
  match c with
  | Save r =>
      match save r (handle s) with
      | (Ok _, w) => Session w (written s ++ saved r) (durable_count s)
      | (Throw _, w) => Session w (written s) (durable_count s)
      end
  | Sync =>
      match WAL.sync (handle s) with
      | (Ok true, w) => Session w (written s) (length (written s))
      | (_, w) => Session w (written s) (durable_count s)
      end
  end.

Definition wal_session (cs : list wal_call) (w : WAL.t) : session :=
  foldl (fun s c => wal_step c s) (Session w [] 0) cs.

(** The file holds a prefix of the written records, at least the durable ones;
    while no flush has failed it holds these and the buffer has the others. *)
Record session_ok (name : bytes) (s : session) : Prop := {
  so_written : Forall writable (written s);
  so_name : WAL.fp_ (handle s) = name;
  so_count : (durable_count s <= length (written s))%nat;
  so_file : exists k, Disk.files (WAL.disk_ (handle s)) = {[name := take k (encode_records (written s))]} /\
    (length (encode_records (take (durable_count s) (written s))) <= k <=
     length (encode_records (written s)))%nat;
  so_live : WAL.failed_ (handle s) = false ->
    represents (handle s) (take (durable_count s) (written s)) (drop (durable_count s) (written s));
}.

Lemma save_spec r w :
  record_typed r ->
  match save r w with
  | (Ok _, w') => Forall writable (saved r) /\
      w' = w <| WAL.buffer_ := WAL.buffer_ w ++ encode_records (saved r) |>
  | (Throw _, w') => w' = w
  end.
Proof.
  intros Ht.
  assert (saved r = [r] -> match WAL.append_record (record_type r) (record_payload r) w with
    | (Ok _, w') => Forall writable (saved r) /\
        w' = w <| WAL.buffer_ := WAL.buffer_ w ++ encode_records (saved r) |>
    | (Throw _, w') => w' = w end) as Ha.
  { intros ->. unfold WAL.append_record.
    destruct (Z.gtb_spec (zlen (record_payload r)) WAL.kMaxRecordPayload) as [|Hle]; run_m; [done|].
    split; [by repeat constructor|]. rewrite encode_records_one. unfold encode_record, record_header.
    rewrite u32_small; [done|]. change WAL.kMaxRecordPayload with (2 ^ 24 - 1) in Hle. len_lia. }
  assert (saved r = [] -> Forall writable (saved r) /\
    w = w <| WAL.buffer_ := WAL.buffer_ w ++ encode_records (saved r) |>) as Hn.
  { intros ->. cbn. rewrite app_nil_r. split; [done|]. by destruct w. }
  destruct r; cbn [save] in *; unfold WAL.save_hard_state, WAL.save_entry, WAL.save_snapshot;
    cbn [saved] in *; try (by apply Ha); case_match; try (by apply Ha); by apply Hn.
Qed.

Lemma take_longer {A} k (l l' : list A) : (k <= length l)%nat -> take k (l ++ l') = take k l.
Proof. intros H. rewrite take_app. replace (k - length l)%nat with 0%nat by lia. apply app_nil_r. Qed.

Lemma session_save name s r :
  session_ok name s -> record_typed r -> session_ok name (wal_step (Save r) s).
Proof.
  intros [Hw Hn Hc (k & Hf & Hk) Hl] Ht. cbn [wal_step].
  pose proof (save_spec r (handle s) Ht) as H. destruct (save r (handle s)) as [[a|e] w].
  - destruct H as [Hr ->]. split; cbn; [by apply Forall_app|done|rewrite length_app; lia| |].
    + exists k. rewrite encode_records_app, take_longer, take_longer, length_app by lia.
      split; [done|]. lia.
    + intros Hfl. destruct (Hl Hfl) as (H1 & H2 & H3). rewrite take_longer by done.
      rewrite drop_app_le by done. split_and!; [done| |done]. cbn. by rewrite H2, encode_records_app.
  - subst. by split; eauto.
Qed.

Lemma contents_singleton name data d :
  Disk.files d = {[name := data]} -> Disk.contents name d = data.
Proof. intros E. unfold Disk.contents. by rewrite E, lookup_singleton_eq. Qed.

(** A flush touches no other file. *)
Lemma sync_one_file w data :
  Disk.files (WAL.disk_ w) = {[WAL.fp_ w := data]} ->
  let w' := snd (WAL.sync w) in
  Disk.files (WAL.disk_ w') = {[WAL.fp_ w := Disk.contents (WAL.fp_ w) (WAL.disk_ w')]}.
Proof.
  intros Hf. assert (exists data', Disk.files (WAL.disk_ (snd (WAL.sync w))) = {[WAL.fp_ w := data']})
    as [data' E]; [|cbv zeta; by rewrite (contents_singleton _ _ _ E)].
  unfold WAL.sync. run_m. destruct (WAL.failed_ w); [eauto|]. case_decide; [eauto|].
  unfold WAL.next_flush, WAL.write_out. run_m.
  destruct (Disk.flushes (WAL.disk_ w)) as [|[]]; cbn; rewrite Hf, insert_singleton_eq; eauto.
Qed.

Lemma session_sync name s : session_ok name s -> session_ok name (wal_step Sync s).
Proof.
  intros [Hw Hn Hc (k & Hf & Hk) Hl]. subst name. cbn [wal_step].
  destruct (WAL.failed_ (handle s)) eqn:Hfl.
  { unfold WAL.sync. run_m. rewrite Hfl. split; cbn; eauto. }
  pose proof (sync_spec (handle s) _ _ (Hl eq_refl)) as Hs.
  pose proof (sync_one_file (handle s) _ Hf) as Hfs. cbv zeta in Hfs.
  destruct (WAL.sync (handle s)) as [[[]|e] w]; [| |done]; cbn [snd] in Hfs.
  - destruct Hs as [Hr Hp]. rewrite take_drop in Hr. pose proof Hr as (Hd & _ & _). rewrite Hp in Hd.
    split; cbn; rewrite ?firstn_all, ?drop_all; try done.
    exists (length (encode_records (written s))). rewrite Hfs, Hd, firstn_all. split; [done|]. lia.
  - destruct Hs as (Hfl' & _ & Hp & j & Hj & Hd). rewrite Hp in Hd.
    assert (encode_records (written s) = encode_records (take (durable_count s) (written s)) ++
              encode_records (drop (durable_count s) (written s))) as Es
      by by rewrite <- encode_records_app, take_drop.
    split; cbn; try done; [|congruence].
    exists (length (encode_records (take (durable_count s) (written s))) + j)%nat.
    rewrite Hfs, Hd, Es, length_app, take_app_add. split; [done|]. lia.
Qed.

Lemma session_steps name cs : forall s,
  session_ok name s -> Forall (fun c => match c with Save r => record_typed r | Sync => True end) cs ->
  session_ok name (foldl (fun s c => wal_step c s) s cs).
Proof.
  induction cs as [|c cs IH]; intros s Hs Hcs; [done|]. cbn. apply IH; [|by apply Forall_inv_tail in Hcs].
  apply Forall_inv in Hcs. destruct c; [by apply session_save|by apply session_sync].
Qed.

Lemma session_created d w :
  Disk.files d = ∅ -> WAL.create d = Some w -> session_ok (WAL.fp_ w) (Session w [] 0).
Proof.
  intros Hd. unfold WAL.create. destruct (Disk.mkdir_fails d); [done|]. rewrite Hd, lookup_empty.
  destruct (Disk.open_fails d _); [done|]. intros E. simplify_eq.
  assert (Disk.contents (WalName.make_wal_name 0 0) d = []) as Hc
    by (unfold Disk.contents; by rewrite Hd, lookup_empty).
  split; cbn -[WalName.make_wal_name]; try done.
  - exists 0%nat. split; [|by cbn]. rewrite Hd, Hc, insert_empty. done.
  - intros _. split_and!; [|done|done]. cbn -[WalName.make_wal_name]. by rewrite contents_append_to, Hc.
Qed.

Lemma whole_records_prefix k rs : exists m, whole_records k rs = take m rs.
Proof.
  revert k. induction rs as [|r rs IH]; intros k; [by exists 0%nat|]. cbn [whole_records].
  case_decide; [|by exists 0%nat]. destruct (IH (k - length (encode_record r))%nat) as [m ->].
  by exists (S m).
Qed.

Lemma whole_records_least k rs m :
  (length (encode_records (take m rs)) <= k)%nat -> exists m', whole_records k rs = take m' rs /\
    (m `min` length rs <= m')%nat.
Proof.
  revert k m. induction rs as [|r rs IH]; intros k m Hk; [exists 0%nat; cbn; split; [done|lia]|].
  destruct m as [|m].
  { destruct (whole_records_prefix k (r :: rs)) as [m' E]. exists m'. split; [done|lia]. }
  cbn [take] in Hk. rewrite encode_records_cons, length_app in Hk. cbn [whole_records].
  rewrite decide_True by lia. destruct (IH (k - length (encode_record r))%nat m) as (m' & -> & Hm); [lia|].
  exists (S m'). split; [done|]. cbn [length]. lia.
Qed.

(** C10: Nothing that was flushed is lost in a crash.  A log is created in an
    empty directory, records are saved and flushed in any order, flushes may
    fail after any number of bytes, and the process dies.  A new process that
    can open, read and repair the file recovers the first [m] records that
    were written, for some [m] that counts at least every record written
    before a successful flush; it then holds a handle on a file with exactly
    these records. *)
Theorem crash_recovery d w cs d' es sn :
  Disk.files d = ∅ -> WAL.create d = Some w ->
  Forall (fun c => match c with Save r => record_typed r | Sync => True end) cs ->
  let s := wal_session cs w in
  Disk.files d' = Disk.files (WAL.disk_ (handle s)) -> Disk.open_fails d' (WAL.fp_ w) = false ->
  Disk.read_fails d' (WAL.fp_ w) = false -> Disk.repairs d' (WAL.fp_ w) = Disk.repair_ok ->
  exists m w1 w2, (durable_count s <= m <= length (written s))%nat /\
    WAL.open d' = Some w1 /\
    WAL.recover es sn w1 = (Ok (replay (take m (written s)) (recovered_start es sn)), w2) /\
    represents w2 (take m (written s)) [].
Proof.
  intros Hd Hc Hcs s Hf Ho Hr Hp. pose proof (session_created d w Hd Hc) as H0.
  pose proof (session_steps _ cs _ H0 Hcs) as [Hw Hn Hcount (k & Hk & Hlen) _].
  fold (wal_session cs w) in *. fold s in Hw, Hn, Hcount, Hk, Hlen.
  assert (WAL.fp_ w = WalName.make_wal_name 0 0) as Hname.
  { unfold WAL.create in Hc. repeat case_match; by simplify_eq. }
  assert (WalName.has_wal_suffix (WAL.fp_ w) = true) as Hsuf by (rewrite Hname; by vm_compute).
  destruct (whole_records_least k (written s) (durable_count s)) as (m & Em & Hm); [lia|].
  destruct (recover_prefix d' (WAL.fp_ w) (written s) k es sn) as (w2 & Er & Hrep & _);
    [done|lia|split; congruence|].
  exists (m `min` length (written s))%nat, (WAL.mk (WAL.fp_ w) [] false d'), w2.
  assert (take (m `min` length (written s)) (written s) = whole_records k (written s)) as Et.
  { rewrite Em, <- take_take, firstn_all. done. }
  rewrite Et. split; [lia|]. split; [|done].
  unfold WAL.open. rewrite (list_singleton d' (WAL.fp_ w) _ (eq_trans Hf Hk) Hsuf). cbn [list.last].
  rewrite Ho, Hname. by vm_compute.
Qed.
End Session.

(** ** Damage *)

Section Damage.
Context {WP : WalPack} {WL : WalPackLaws}.

Lemma records_length rs : (length rs <= length (encode_records rs))%nat.
Proof.
  induction rs as [|r rs IH]; [done|]. rewrite encode_records_cons, length_app.
  pose proof (encode_record_length r). cbn [length]. lia.
Qed.


Lemma scan_fuel fuel : forall fuel' data v acc,
  (length data < fuel)%nat -> (length data < fuel')%nat ->
  WAL.scan fuel data v acc = WAL.scan fuel' data v acc.
Proof.
  induction fuel as [|fuel IH]; intros [|fuel'] data v acc Hf Hf'; [lia..|]. cbn [WAL.scan].
  destruct (Z.eqb_spec (zlen data) 0); [done|]. destruct (Z.ltb_spec (zlen data) 8); [done|].
  destruct (negb _); [done|]. destruct (_ <? _); [done|]. destruct (negb _); [done|].
  destruct (WAL.recover_record _ _ _); [|done].
  apply IH; rewrite !length_drop; unfold zlen in *; lia.
Qed.

(** The scan of a file ends: with any fuel above the number of its bytes
    the result is that of [scan_file], so the loop of the source, which has no
    bound, ends with it. *)
Theorem scan_ends data acc fuel :
  (length data < fuel)%nat -> WAL.scan fuel data 0 acc = WAL.scan_file data acc.
Proof. intros H. unfold WAL.scan_file. apply scan_fuel; lia. Qed.
End Damage.

(** ** The theorems on concrete logs *)

Section Witnesses.
#[local] Existing Instance bits_wal_pack.
#[local] Existing Instance bits_wal_pack_laws.

Definition demo_entry (i : Z) (data : string) : record :=
  rec_entry (Entry.mk Entry.EntryNormal 1 i (str data)).

(** Two entries, a flush, a third entry, a flush that fails in its header. *)
Definition demo_calls : list wal_call :=
  [Save (rec_hard_state (HardStateProto.mk 1 2 0)); Save (demo_entry 1 "a"); Sync;
   Save (demo_entry 2 "b"); Sync].

Definition demo_disk : Disk.t :=
  (Disk.healthy ∅) <| Disk.flushes := [Disk.flush_ok; Disk.fflush_fails 5] |>.

Definition demo_wal : WAL.t := default (WAL.mk [] [] false demo_disk) (WAL.create demo_disk).

Lemma crash_recovery_witness :
  let s := wal_session demo_calls demo_wal in
  let d' := (Disk.healthy ∅) <| Disk.files := Disk.files (WAL.disk_ (handle s)) |> in
  durable_count s = 2%nat /\ length (written s) = 3%nat /\
  exists m w1 w2, (durable_count s <= m <= length (written s))%nat /\
    WAL.open d' = Some w1 /\
    WAL.recover [] None w1 = (Ok (replay (take m (written s)) (recovered_start [] None)), w2) /\
    represents w2 (take m (written s)) [].
Proof.
  cbv zeta. split; [by vm_compute|]. split; [by vm_compute|].
  apply (crash_recovery demo_disk demo_wal demo_calls
    ((Disk.healthy ∅) <| Disk.files := Disk.files (WAL.disk_ (handle (wal_session demo_calls demo_wal))) |>)
    [] None); [reflexivity|by vm_compute| |reflexivity..].
  repeat constructor; by vm_compute.
Defined.


Lemma scan_ends_witness :
  WAL.scan 1000 (encode_records [demo_entry 1 "a"]) 0 (recovered_start [] None) =
  WAL.scan_file (encode_records [demo_entry 1 "a"]) (recovered_start [] None).
Proof. apply scan_ends. apply Nat.ltb_lt. by vm_compute. Defined.
End Witnesses.
