(* ===== verification/KvStore.v ===== *)
(** * The key-value state machine ([src/server/kv_store.h], [kv_store.cpp])

    Committed log entries carry msgpack-encoded commands; [apply] runs one on
    the store.  Snapshots are the msgpack encoding of the whole map. *)

From S2P Require Import Prelude Msgpack Proto.

(** ** Commands *)

Module CommandType.
Definition t : Type := Z.
Definition Set_ : t := 0.
Definition Del : t := 1.
End CommandType.

Module Command.
Record t : Type := mk {
  type : CommandType.t;
  strs : list bytes;
  origin_node : Z;
  request_id : Z;
}.

Definition default : t := mk CommandType.Set_ [] 0 0.

#[global] Instance eq_dec : EqDecision t.
Proof. solve_decision. Defined.
#[global] Program Instance countable : Countable t :=
  inj_countable' (fun c => (type c, strs c, origin_node c, request_id c))
    (fun '(a, b, c, d) => mk a b c d) _.
Next Obligation. by intros []. Qed.

#[global] Instance typed : Typed t := fun c =>
  is_u8 (type c) /\ is_u64 (origin_node c) /\ is_u64 (request_id c).
End Command.

(** ** The map on the wire

    [msgpack::pack] of an [unordered_map] writes the pairs in iteration order,
    which the map's contents do not determine; [convert] rebuilds the map. *)

Class MapPack : Type := {
  pack_map : list (bytes * bytes) -> bytes;
  unpack_map : bytes -> result (gmap bytes bytes);
}.

Class MapPackLaws `{MapPack} : Prop := {
  unpack_pack_map (kvs : list (bytes * bytes)) (m : gmap bytes bytes) :
    kvs ≡ₚ map_to_list m -> unpack_map (pack_map kvs) = Ok m;
}.

Module KVStore.

Record t : Type := mk { store_ : gmap bytes bytes }.

Definition eta (s : t) : t := mk (store_ s).
#[global] Instance set_store_ : Setter store_ := ltac:(setter eta store_).

Definition empty : t := mk ∅.

Record ApplyResult : Type := MkResult {
  type : CommandType.t;
  origin_node : Z;
  request_id : Z;
  affected : Z;
  applied_index : Z;
}.

(** [get(key, value)]: whether the key is there, and the out-parameter. *)
Definition get (key value : bytes) (s : t) : bool * bytes :=
  match store_ s !! key with
  | Some v => (true, v)
  | None => (false, value)
  end.

Definition set (key value : bytes) : M t unit :=
  s ← Prelude.get; store_ <~ <[key := value]> (store_ s).

Definition del (key : bytes) : M t bool :=
  s ← Prelude.get;
  store_ <~ delete key (store_ s) ;;
  mret (bool_decide (is_Some (store_ s !! key))).

(** The loop of a DEL command, counting in [affected]. *)
Fixpoint del_loop (keys : list bytes) (affected : Z) : M t Z :=
  match keys with
  | [] => mret affected
  | key :: keys' =>
      found ← del key;
      del_loop keys' (if found : bool then u64 (affected + 1) else affected)
  end.

Section Store.
Context {CP : MsgPack Command.t} {MP : MapPack}.

Definition apply (entry : Entry.t) : M t ApplyResult :=
  cmd ← lift (unpack (Entry.data entry));
  let result affected :=
    MkResult (Command.type cmd) (Command.origin_node cmd) (Command.request_id cmd)
      affected (Entry.index entry) in
  if Command.type cmd =? CommandType.Set_ then
    match Command.strs cmd with
    | [key; value] => set key value ;; mret (result 1)
    | _ => throw (invalid_argument "SET command requires key and value")
    end
  else if Command.type cmd =? CommandType.Del then
    if decide (Command.strs cmd = [])
    then throw (invalid_argument "DEL command requires at least one key") else
    affected ← del_loop (Command.strs cmd) 0;
    mret (result affected)
  else throw (invalid_argument "unknown KV command type").

(** [kvs] are the pairs in the order the map iterates in. *)
Definition serialize (kvs : list (bytes * bytes)) : bytes := pack_map kvs.

Definition deserialize (data : bytes) : M t unit :=
  restored ← lift (unpack_map data); store_ <~ restored.

End Store.
End KVStore.

(** ** What a command does

    The operations clients ask for, on maps. *)

Module KvSpec.

Inductive op : Type :=
| OpSet (key value : bytes)
| OpDel (keys : list bytes).

Definition op_of (c : Command.t) : option op :=
  if Command.type c =? CommandType.Set_ then
    match Command.strs c with [key; value] => Some (OpSet key value) | _ => None end
  else if Command.type c =? CommandType.Del then
    match Command.strs c with [] => None | keys => Some (OpDel keys) end
  else None.

Definition removed (keys : list bytes) (m : gmap bytes bytes) : gmap bytes bytes :=
  filter (fun kv => kv.1 ∈ keys) m.

Definition kept (keys : list bytes) (m : gmap bytes bytes) : gmap bytes bytes :=
  filter (fun kv => kv.1 ∉ keys) m.

(** The map afterwards and the number of keys affected. *)
Definition run (o : op) (m : gmap bytes bytes) : gmap bytes bytes * Z :=
  match o with
  | OpSet key value => (<[key := value]> m, 1)
  | OpDel keys => (kept keys m, Z.of_nat (size (removed keys m)))
  end.

Lemma kept_cons key keys m : kept (key :: keys) m = kept keys (delete key m).
Proof.
  apply map_eq. intros k. apply option_eq. intros v. unfold kept.
  rewrite !map_lookup_filter_Some, lookup_delete_Some. cbn. set_solver.
Qed.

Lemma removed_cons key keys m :
  size (removed (key :: keys) m) =
  (size (removed keys (delete key m)) + (if decide (is_Some (m !! key)) then 1 else 0))%nat.
Proof.
  destruct (m !! key) as [v|] eqn:E.
  - rewrite decide_True by eauto.
    assert (removed (key :: keys) m = <[key := v]> (removed keys (delete key m))) as ->.
    { apply map_eq. intros k. apply option_eq. intros u. unfold removed.
      rewrite lookup_insert_Some, !map_lookup_filter_Some, lookup_delete_Some. cbn.
      rewrite elem_of_cons. destruct (decide (k = key)) as [->|]; naive_solver. }
    rewrite map_size_insert_None; [lia|].
    apply map_lookup_filter_None_2. left. by rewrite lookup_delete_eq.
  - rewrite decide_False by (intros []; done). rewrite Nat.add_0_r. f_equal.
    apply map_eq. intros k. apply option_eq. intros u. unfold removed.
    rewrite !map_lookup_filter_Some, lookup_delete_Some. cbn.
    rewrite elem_of_cons. destruct (decide (k = key)) as [->|]; naive_solver.
Qed.

Lemma kept_nil m : kept [] m = m.
Proof. unfold kept. apply map_filter_id. set_solver. Qed.

Lemma removed_nil m : removed [] m = ∅.
Proof. apply map_eq. intros k. rewrite lookup_empty. apply map_lookup_filter_None_2. right. set_solver. Qed.

Lemma removed_le keys m : (size (removed keys m) <= size m)%nat.
Proof. apply map_subseteq_size, map_filter_subseteq. Qed.

End KvSpec.

Import KVStore.

Lemma del_loop_spec keys : forall affected s,
  0 <= affected -> affected + Z.of_nat (size (KvSpec.removed keys (store_ s))) < u64_max ->
  del_loop keys affected s =
    (Ok (affected + Z.of_nat (size (KvSpec.removed keys (store_ s)))),
     mk (KvSpec.kept keys (store_ s))).
Proof.
  induction keys as [|key keys IH]; intros affected [m] Ha Hb; cbn [store_] in *.
  - cbn. rewrite KvSpec.removed_nil, KvSpec.kept_nil, map_size_empty, Z.add_0_r. done.
  - rewrite KvSpec.removed_cons in *. rewrite KvSpec.kept_cons. cbn [del_loop].
    unfold del. run_m. cbn [store_ KVStore.set_store_ Prelude.set].
    rewrite IH; cbn; case_bool_decide; case_decide; try done;
      try rewrite u64_small by (unfold_words; lia); try lia; do 2 f_equal; lia.
Qed.

Section Facts.
Context {CP : MsgPack Command.t} {MP : MapPack}.
Implicit Types (entry : Entry.t) (s : t).

Definition result_of (c : Command.t) entry (affected : Z) : ApplyResult :=
  MkResult (Command.type c) (Command.origin_node c) (Command.request_id c) affected
    (Entry.index entry).

(** The outcome the operation on maps prescribes for an entry. *)
Definition applied entry s (r : result ApplyResult) (s' : t) : Prop :=
  match unpack (Entry.data entry) with
  | Throw e => r = Throw e /\ s' = s
  | Ok c =>
      match KvSpec.op_of c with
      | None => (exists what, r = Throw (invalid_argument what)) /\ s' = s
      | Some o =>
          r = Ok (result_of c entry (snd (KvSpec.run o (store_ s)))) /\
          store_ s' = fst (KvSpec.run o (store_ s))
      end
  end.

(** C15: [KVStore::apply] refines the operation on maps that the entry encodes:
    SET stores the pair and reports 1, DEL removes exactly the named keys and
    reports how many of them were there, duplicates counted once; an entry that
    does not decode, or decodes to an ill-formed command, throws and leaves the
    store as it was. *)
Theorem apply_refines entry s :
  Z.of_nat (size (store_ s)) < u64_max ->
  applied entry s (fst (apply entry s)) (snd (apply entry s)).
Proof.
  intros Hsize. unfold applied, apply, KvSpec.op_of. run_m.
  destruct (unpack (Entry.data entry)) as [c|e]; [|done].
  destruct (Command.type c =? CommandType.Set_); [|destruct (Command.type c =? CommandType.Del)].
  - destruct (Command.strs c) as [|k [|v [|x l]]]; cbn; eauto.
  - destruct (Command.strs c) as [|k l] eqn:E; [rewrite decide_True by done; cbn; eauto|].
    rewrite decide_False by done. pose proof (KvSpec.removed_le (k :: l) (store_ s)).
    rewrite del_loop_spec by lia. done.
  - cbn. eauto.
Qed.

(** ** A sequence of entries *)

Lemma del_loop_store keys : forall affected s,
  exists n, del_loop keys affected s = (Ok n, mk (KvSpec.kept keys (store_ s))).
Proof.
  induction keys as [|key keys IH]; intros affected s; cbn [del_loop].
  - exists affected. rewrite KvSpec.kept_nil. by destruct s.
  - unfold del. run_m. destruct (IH (if bool_decide (is_Some (store_ s !! key))
      then u64 (affected + 1) else affected) (mk (delete key (store_ s)))) as [n Hn].
    exists n. rewrite KvSpec.kept_cons. exact Hn.
Qed.

(** What a committed entry does to the map; [None] when it cannot be applied.
    Configuration changes and empty entries do nothing. *)
Definition entry_effect entry (m : gmap bytes bytes) : option (gmap bytes bytes) :=
  if (Entry.type entry =? Entry.EntryNormal) && negb (bool_decide (Entry.data entry = [])) then
    match unpack (Entry.data entry) with
    | Throw _ => None
    | Ok c => (fun o => fst (KvSpec.run o m)) <$> KvSpec.op_of c
    end
  else Some m.

Fixpoint kv_replay (es : list Entry.t) (m : gmap bytes bytes) : option (gmap bytes bytes) :=
  match es with
  | [] => Some m
  | e :: es' => entry_effect e m ≫= kv_replay es'
  end.

Lemma kv_replay_app es es' m : kv_replay (es ++ es') m = kv_replay es m ≫= kv_replay es'.
Proof.
  revert m. induction es as [|e es IH]; intros m; [done|]. cbn.
  destruct (entry_effect e m); [apply IH|done].
Qed.

(** [apply] and the reference agree on the store, also where the count wraps. *)
Lemma apply_effect entry s :
  (Entry.type entry =? Entry.EntryNormal) && negb (bool_decide (Entry.data entry = [])) = true ->
  match apply entry s with
  | (Ok _, s') => entry_effect entry (store_ s) = Some (store_ s')
  | (Throw _, s') => entry_effect entry (store_ s) = None /\ s' = s
  end.
Proof.
  intros Hn. unfold apply, entry_effect. rewrite Hn. run_m.
  destruct (unpack (Entry.data entry)) as [c|e]; [|done]. unfold KvSpec.op_of.
  destruct (Command.type c =? CommandType.Set_); [|destruct (Command.type c =? CommandType.Del)].
  - destruct (Command.strs c) as [|k [|v [|x l]]]; done.
  - destruct (Command.strs c) as [|k l] eqn:E; [by rewrite decide_True|].
    rewrite decide_False by done. by destruct (del_loop_store (k :: l) 0 s) as [n ->].
  - done.
Qed.


End Facts.

(** ** A concrete encoding *)

#[local] Instance bits_map_pack : MapPack := {|
  pack_map kvs := @pack _ (Bits.msgpack (gmap bytes bytes)) (list_to_map kvs);
  unpack_map := @unpack _ (Bits.msgpack (gmap bytes bytes));
|}.

#[local] Instance bits_map_pack_laws : MapPackLaws.
Proof.
  split. intros kvs m Hp. cbn. rewrite Bits.of_to_bytes. cbn. rewrite decode_encode. f_equal.
  rewrite <- (list_to_map_to_list m). apply list_to_map_proper; [|done].
  rewrite Hp. apply NoDup_fst_map_to_list.
Qed.

Definition bits_command_pack : MsgPack Command.t := Bits.msgpack Command.t.

Definition demo_store : t := mk {[str "a" := str "1"; str "b" := str "2"]}.

Definition demo_del : Entry.t :=
  Entry.mk Entry.EntryNormal 1 1
    (@pack _ bits_command_pack
       (Command.mk CommandType.Del [str "a"; str "c"; str "a"] 2 7)).

Lemma apply_refines_witness :
  @applied bits_command_pack demo_del demo_store
    (fst (@apply bits_command_pack demo_del demo_store))
    (snd (@apply bits_command_pack demo_del demo_store)) /\
  @apply bits_command_pack demo_del demo_store =
    (Ok (MkResult CommandType.Del 2 7 1 1), mk {[str "b" := str "2"]}).
Proof.
  split; [|by vm_compute]. apply (@apply_refines bits_command_pack). vm_compute. done.
Defined.

