(* ===== verification/NodeConfig.v ===== *)
(** * The command line ([parse_node_config] of [src/app/node_runtime.cpp])

    One option per argument, [--name=value]; the last of a repeated option
    wins, except that [--peer] accumulates. *)

From S2P Require Import Prelude Text Proto Wal.

Record PeerAddress : Type := MkPeer { peer_id : Z; peer_address : bytes }.

Module NodeConfig.

Record t : Type := mk {
  id : Z;
  raft_address : bytes;
  client_address : bytes;
  peers : list PeerAddress;
  data_directory : bytes;
  tick_milliseconds : Z;
  snapshot_threshold : Z;
}.

Definition default : t := mk 0 [] [] [] [] 50 100.

Definition eta (c : t) : t :=
  mk (id c) (raft_address c) (client_address c) (peers c) (data_directory c)
    (tick_milliseconds c) (snapshot_threshold c).
#[global] Instance set_id : Setter id := ltac:(setter eta id).
#[global] Instance set_raft_address : Setter raft_address := ltac:(setter eta raft_address).
#[global] Instance set_client_address : Setter client_address := ltac:(setter eta client_address).
#[global] Instance set_peers : Setter peers := ltac:(setter eta peers).
#[global] Instance set_data_directory : Setter data_directory := ltac:(setter eta data_directory).
#[global] Instance set_tick_milliseconds : Setter tick_milliseconds :=
  ltac:(setter eta tick_milliseconds).
#[global] Instance set_snapshot_threshold : Setter snapshot_threshold :=
  ltac:(setter eta snapshot_threshold).

End NodeConfig.

Import NodeConfig.

Definition option_value (argument option : bytes) : bytes :=
  if decide (take (length option) argument <> option) then []
  else drop (length option) argument.

Definition parse_integer (limit : Z) (text : bytes) (name : string) : result Z :=
  match parse_unsigned limit text with
  | None => Throw (invalid_argument (String.append name " must be an integer"))
  | Some n => Ok n
  end.

Definition parse_peer (value : bytes) : result PeerAddress :=
  match WalName.find_byte Byte.x40 value with
  | None => Throw (invalid_argument "--peer must have the form ID@IP:port")
  | Some separator =>
      if (Z.of_nat separator =? 0) || (Z.of_nat separator + 1 =? zlen value)
      then Throw (invalid_argument "--peer must have the form ID@IP:port") else
      id ← parse_integer u64_max (take separator value) "peer ID";
      Ok (MkPeer id (drop (S separator) value))
  end.

(** The [if]/[else if] chain over one argument. *)
Definition parse_option (config : t) (argument : bytes) : result t :=
  let value := option_value argument (str "--id=") in
  if decide (value <> []) then
    n ← parse_integer u64_max value "node ID"; Ok (config <| id := n |>) else
  let value := option_value argument (str "--raft=") in
  if decide (value <> []) then Ok (config <| raft_address := value |>) else
  let value := option_value argument (str "--client=") in
  if decide (value <> []) then Ok (config <| client_address := value |>) else
  let value := option_value argument (str "--peer=") in
  if decide (value <> []) then
    p ← parse_peer value; Ok (config <| peers := peers config ++ [p] |>) else
  let value := option_value argument (str "--data=") in
  if decide (value <> []) then Ok (config <| data_directory := value |>) else
  let value := option_value argument (str "--tick-ms=") in
  if decide (value <> []) then
    n ← parse_integer u32_max value "tick interval"; Ok (config <| tick_milliseconds := n |>) else
  let value := option_value argument (str "--snapshot-threshold=") in
  if decide (value <> []) then
    n ← parse_integer u64_max value "snapshot threshold";
    Ok (config <| snapshot_threshold := n |>) else
  Throw (invalid_argument "unknown or empty option").

(** The loop over [argv], without the program name. *)
Fixpoint parse_options (config : t) (arguments : list bytes) : result t :=
  match arguments with
  | [] => Ok config
  | argument :: arguments' =>
      config ← parse_option config argument; parse_options config arguments'
  end.

(** The loop over the peers, with [member_ids]. *)
Fixpoint check_peers (id : Z) (ps : list PeerAddress) (member_ids : gset Z) : result (gset Z) :=
  match ps with
  | [] => Ok member_ids
  | p :: ps' =>
      if (peer_id p <? 1) || (peer_id p >? 3) || (peer_id p =? id) ||
         bool_decide (peer_id p ∈ member_ids)
      then Throw (invalid_argument "peer IDs must name the other two members of {1,2,3}")
      else check_peers id ps' ({[peer_id p]} ∪ member_ids)
  end.

Definition validate (config : t) : result t :=
  if (id config <? 1) || (id config >? 3)
  then Throw (invalid_argument "--id must be 1, 2, or 3") else
  if bool_decide (raft_address config = []) || bool_decide (client_address config = []) ||
     bool_decide (data_directory config = [])
  then Throw (invalid_argument "--raft, --client, and --data are required") else
  if (tick_milliseconds config =? 0) || (tick_milliseconds config >? 1000)
  then Throw (invalid_argument "--tick-ms must be between 1 and 1000") else
  if negb (zlen (peers config) =? 2)
  then Throw (invalid_argument "exactly two --peer options are required") else
  member_ids ← check_peers (id config) (peers config) {[id config]};
  if decide (member_ids <> {[1; 2; 3]})
  then Throw (invalid_argument "the fixed cluster members are {1,2,3}") else Ok config.

Definition parse_node_config (arguments : list bytes) : result t :=
  config ← parse_options default arguments; validate config.

Definition raft_config_for (config : t) : Config.t :=
  Config.mk (id config) [1; 2; 3] 10 1 (snapshot_threshold config) 0.

(** ** What is accepted *)

(** A configuration of one member of the fixed cluster. *)
Record valid_config (config : t) : Prop := {
  vc_id : id config ∈ [1; 2; 3];
  vc_members : id config :: (peer_id <$> peers config) ≡ₚ [1; 2; 3];
  vc_tick : 1 <= tick_milliseconds config <= 1000;
  vc_threshold : is_u64 (snapshot_threshold config);
  vc_raft : raft_address config <> [];
  vc_client : client_address config <> [];
  vc_data : data_directory config <> [];
}.

Lemma parse_integer_range limit text name n : parse_integer limit text name = Ok n -> 0 <= n < limit.
Proof.
  unfold parse_integer. destruct (parse_unsigned limit text) as [m|] eqn:E; [|done].
  intros [= <-]. by eapply parse_unsigned_range.
Qed.

Lemma check_peers_spec i ps : forall ids ids',
  check_peers i ps ids = Ok ids' ->
  NoDup (peer_id <$> ps) /\ Forall (fun p => peer_id p ∉ ids) ps /\
  ids' = list_to_set (peer_id <$> ps) ∪ ids.
Proof.
  induction ps as [|p ps IH]; intros ids ids' H; cbn in H.
  { injection H as <-. split_and!; [constructor|done|]. cbn. set_solver. }
  destruct (_ || _) eqn:E in H; [done|]. guards. destruct (IH _ _ H) as (Hn & Hf & ->).
  split_and!.
  - cbn. constructor; [|done]. intros Hin. apply list_elem_of_fmap in Hin as (q & Eq & Hq).
    rewrite Forall_forall in Hf. apply list_elem_of_In in Hq. specialize (Hf q Hq). set_solver.
  - constructor; [done|]. eapply Forall_impl; [|exact Hf]. set_solver.
  - cbn. set_solver.
Qed.

Definition in_range (config : t) : Prop :=
  is_u64 (snapshot_threshold config) /\ is_u32 (tick_milliseconds config).

Lemma option_numbers config arguments config' :
  parse_options config arguments = Ok config' -> in_range config -> in_range config'.
Proof.
  revert config. induction arguments as [|a arguments IH]; intros config H Hc; cbn in H.
  { by injection H as <-. }
  destruct (parse_option config a) as [c1|e] eqn:E; cbn in H; [|done]. eapply IH; [exact H|].
  clear -E Hc. unfold parse_option in E. cbv zeta in E. destruct Hc as [Ht Hm].
  repeat (case_decide; [try (by simplify_eq/=; split)|]); try done.
  all: lazymatch type of E with
    | context [parse_integer ?l ?t ?n] => destruct (parse_integer l t n) eqn:Ep; simplify_eq/=
    | context [parse_peer ?v] => destruct (parse_peer v) eqn:Ep; simplify_eq/=
    end; try apply parse_integer_range in Ep; by split.
Qed.

Lemma parse_valid arguments config :
  parse_node_config arguments = Ok config -> valid_config config.
Proof.
  unfold parse_node_config. destruct (parse_options default arguments) as [c|e] eqn:E; [|done].
  cbn. unfold validate. intros H. destruct (_ || _) eqn:E1 in H; [done|].
  destruct (_ || _) eqn:E2 in H; [done|]. destruct (_ || _) eqn:E3 in H; [done|].
  destruct (negb _) eqn:E4 in H; [done|]. guards.
  destruct (check_peers (id c) (peers c) {[id c]}) as [ids|e] eqn:Ec; cbn in H; [|done].
  case_decide as Hids; [done|]. injection H as <-.
  destruct (check_peers_spec _ _ _ _ Ec) as (Hn & Hf & ->).
  assert (id c ∈ [1; 2; 3]) as Hid.
  { assert (id c = 1 \/ id c = 2 \/ id c = 3) as [->|[->| ->]] by lia; set_solver. }
  apply option_numbers in E as [Ht Hm]; [|by split]. split; try done.
  - apply NoDup_Permutation.
    + constructor; [|done]. intros Hin. apply list_elem_of_fmap in Hin as (q & Eq & Hq).
      rewrite Forall_forall in Hf. apply list_elem_of_In in Hq. specialize (Hf q Hq). set_solver.
    + repeat constructor; set_solver.
    + intros x. transitivity (x ∈ ({[1; 2; 3]} : gset Z)); [rewrite <- Hids|]; set_solver.
  - unfold_words. lia.
Qed.

(** A command line that is accepted describes one member of the fixed
    three-node cluster: its peers are the two other members, once each, the
    addresses and the data directory are given, and the tick interval is within
    its bounds. *)
Theorem accepted_config arguments config :
  parse_node_config arguments = Ok config -> valid_config config.
Proof. apply parse_valid. Qed.

(** ** Command lines of configurations *)

Definition peer_argument (p : PeerAddress) : bytes :=
  str "--peer=" ++ to_string (peer_id p) ++ str "@" ++ peer_address p.

Definition arguments_of (config : t) : list bytes :=
  [str "--id=" ++ to_string (id config);
   str "--raft=" ++ raft_address config;
   str "--client=" ++ client_address config;
   str "--data=" ++ data_directory config;
   str "--tick-ms=" ++ to_string (tick_milliseconds config);
   str "--snapshot-threshold=" ++ to_string (snapshot_threshold config)]
  ++ (peer_argument <$> peers config).

Lemma option_value_app option value : option_value (option ++ value) option = value.
Proof.
  unfold option_value. by rewrite take_app_length, drop_app_length, decide_False by tauto.
Qed.

Lemma option_value_other argument option :
  take (length option) argument <> option -> option_value argument option = [].
Proof. intros H. unfold option_value. by rewrite decide_True. Qed.

(** Decides the tests of the chain up to the option that is there. *)
Ltac choose_option :=
  unfold parse_option; cbv zeta;
  repeat first
    [ rewrite option_value_app
    | rewrite option_value_other by (cbn; discriminate); rewrite decide_False by tauto ].

Lemma find_byte_app c l rest :
  Forall (fun b => b <> c) l -> WalName.find_byte c (l ++ c :: rest) = Some (length l).
Proof.
  induction 1 as [|b l Hb _ IH]; cbn; [by rewrite decide_True|].
  by rewrite decide_False, IH by done.
Qed.

Lemma to_string_nonempty n : 0 <= n -> to_string n <> [].
Proof.
  intros Hn E. unfold to_string in E. rewrite (proj2 (Z.ltb_ge _ _)) in E by lia.
  pose proof (digits_starts 20 n [] ltac:(lia)) as Hs. by rewrite E in Hs.
Qed.

Lemma parse_printed_peer p :
  is_u64 (peer_id p) -> peer_address p <> [] ->
  parse_peer (to_string (peer_id p) ++ str "@" ++ peer_address p) = Ok p.
Proof.
  intros Hp Ha. unfold parse_peer. cbn [str app String.list_byte_of_string].
  assert (Forall (fun b => b <> Byte.x40) (to_string (peer_id p))) as Hf.
  { unfold to_string. rewrite (proj2 (Z.ltb_ge _ _)) by (unfold_words; lia).
    apply digits_clean; [|done]. intros d Hd E. apply (f_equal b2z) in E. unfold digit_char in E.
    rewrite b2z_z2b, Z.mod_small in E by lia. cbn in E. lia. }
  change (str "@" ++ peer_address p) with (Byte.x40 :: peer_address p).
  rewrite find_byte_app by done.
  pose proof (to_string_nonempty (peer_id p) ltac:(unfold_words; lia)).
  assert (0 < zlen (to_string (peer_id p))) by (destruct (to_string _); [done|by unfold zlen; cbn; lia]).
  assert (0 < zlen (peer_address p)) by (destruct (peer_address p); [done|by unfold zlen; cbn; lia]).
  rewrite (proj2 (Z.eqb_neq _ 0)) by (unfold zlen in *; lia).
  rewrite (proj2 (Z.eqb_neq _ _)) by (rewrite zlen_app, zlen_cons; unfold zlen in *; lia). cbn [orb].
  rewrite take_app_length. unfold parse_integer. rewrite parse_to_string by done. cbn.
  rewrite drop_app_ge by lia. replace (S _ - _)%nat with 1%nat by lia. by destruct p.
Qed.

Lemma parse_peers ps : forall config,
  Forall (fun p => is_u64 (peer_id p) /\ peer_address p <> []) ps ->
  parse_options config (peer_argument <$> ps) = Ok (config <| peers := peers config ++ ps |>).
Proof.
  induction ps as [|p ps IH]; intros config Hps.
  { cbn. rewrite app_nil_r. by destruct config. }
  apply Forall_cons_iff in Hps as [[Hp Ha] Hps]. cbn [fmap list_fmap parse_options].
  assert (peer_argument p = str "--peer=" ++ to_string (peer_id p) ++ str "@" ++ peer_address p)
    as -> by done.
  choose_option. rewrite decide_True.
  2:{ intros E. apply app_eq_nil in E as [E _]. by apply to_string_nonempty in E; [|unfold_words; lia]. }
  rewrite parse_printed_peer by done. cbn. rewrite IH by done. cbn. by rewrite <- app_assoc.
Qed.

Section Options.
Variable config : t.

Lemma parse_id n : is_u64 n ->
  parse_option config (str "--id=" ++ to_string n) = Ok (config <| id := n |>).
Proof.
  intros Hn. choose_option. rewrite decide_True by (apply to_string_nonempty; unfold_words; lia).
  unfold parse_integer. by rewrite parse_to_string.
Qed.

Lemma parse_tick n : is_u32 n ->
  parse_option config (str "--tick-ms=" ++ to_string n) = Ok (config <| tick_milliseconds := n |>).
Proof.
  intros Hn. choose_option. rewrite decide_True by (apply to_string_nonempty; unfold_words; lia).
  unfold parse_integer. by rewrite parse_to_string by (done || (unfold_words; lia)).
Qed.

Lemma parse_threshold n : is_u64 n ->
  parse_option config (str "--snapshot-threshold=" ++ to_string n) =
    Ok (config <| snapshot_threshold := n |>).
Proof.
  intros Hn. choose_option. rewrite decide_True by (apply to_string_nonempty; unfold_words; lia).
  unfold parse_integer. by rewrite parse_to_string.
Qed.

Lemma parse_texts v : v <> [] ->
  parse_option config (str "--raft=" ++ v) = Ok (config <| raft_address := v |>) /\
  parse_option config (str "--client=" ++ v) = Ok (config <| client_address := v |>) /\
  parse_option config (str "--data=" ++ v) = Ok (config <| data_directory := v |>).
Proof. intros Hv. split_and!; choose_option; by rewrite decide_True. Qed.

End Options.

Lemma validate_valid config : valid_config config -> validate config = Ok config.
Proof.
  intros []. unfold validate.
  assert (id config = 1 \/ id config = 2 \/ id config = 3) as Hi by set_solver.
  rewrite !bool_decide_eq_false_2 by done.
  rewrite !Z.gtb_ltb, !(proj2 (Z.ltb_ge _ _)), (proj2 (Z.eqb_neq _ 0)) by lia. cbn [orb].
  destruct (peers config) as [|p [|q [|r ps]]] eqn:E;
    try (apply Permutation_length in vc_members0; cbn in vc_members0; lia).
  change (zlen [p; q] =? 2) with true. cbn [negb]. cbn in vc_members0.
  assert (NoDup [id config; peer_id p; peer_id q]) as Hn.
  { rewrite vc_members0. repeat constructor; set_solver. }
  inversion_clear Hn as [|? ? Hn1 Hn']. inversion_clear Hn' as [|? ? Hn2 _].
  assert (forall x, x ∈ [peer_id p; peer_id q] -> 1 <= x <= 3) as Hr.
  { intros x Hx. assert (x ∈ [1; 2; 3]) as Hx' by (rewrite <- vc_members0; set_solver).
    assert (x = 1 \/ x = 2 \/ x = 3) by set_solver. lia. }
  pose proof (Hr (peer_id p) ltac:(set_solver)). pose proof (Hr (peer_id q) ltac:(set_solver)).
  cbn [check_peers].
  rewrite !Z.gtb_ltb, !(proj2 (Z.ltb_ge _ _)), !(proj2 (Z.eqb_neq _ (id config))) by (lia || set_solver).
  rewrite !bool_decide_eq_false_2 by set_solver. cbn. rewrite decide_False; [done|]. apply dec_stable.
  intros Hne. apply Hne. intros Hs. apply Hs. apply set_eq. intros x.
  transitivity (x ∈ [id config; peer_id p; peer_id q]); [set_solver|]. rewrite vc_members0. set_solver.
Qed.

(** C37: every valid configuration can be given on the command line: printing
    its options and parsing them gives it back. *)
Theorem config_round_trip config :
  valid_config config -> Forall (fun p => peer_address p <> []) (peers config) ->
  parse_node_config (arguments_of config) = Ok config.
Proof.
  intros [] Hpa. unfold parse_node_config, arguments_of. cbn [app parse_options].
  assert (0 <= id config < u64_max) as Hid.
  { assert (id config = 1 \/ id config = 2 \/ id config = 3) as Hi by set_solver. unfold_words. lia. }
  assert (Forall (fun p => is_u64 (peer_id p) /\ peer_address p <> []) (peers config)) as Hps.
  { apply Forall_forall. intros p Hp. split; [|by apply (proj1 (Forall_forall _ _) Hpa)].
    apply list_elem_of_In in Hp.
    assert (peer_id p ∈ [1; 2; 3]) as Hi.
    { rewrite <- vc_members0. right. apply list_elem_of_fmap. eauto. }
    assert (peer_id p = 1 \/ peer_id p = 2 \/ peer_id p = 3) by set_solver. unfold_words. lia. }
  rewrite parse_id by done. cbn [mbind result_bind].
  rewrite (proj1 (parse_texts _ _ vc_raft0)). cbn [mbind result_bind].
  rewrite (proj1 (proj2 (parse_texts _ _ vc_client0))). cbn [mbind result_bind].
  rewrite (proj2 (proj2 (parse_texts _ _ vc_data0))). cbn [mbind result_bind].
  rewrite parse_tick by (unfold_words; lia). cbn [mbind result_bind].
  rewrite parse_threshold by done. cbn [mbind result_bind].
  rewrite parse_peers by done. cbn [mbind result_bind].
  rewrite <- (validate_valid config) by done. f_equal. by destruct config.
Qed.

Definition demo_node_config : t :=
  mk 2 (str "127.0.0.1:7002") (str "127.0.0.1:6002")
    [MkPeer 3 (str "127.0.0.1:7003"); MkPeer 1 (str "a@b")] (str "/data") 50 100.

Lemma demo_node_config_valid : valid_config demo_node_config.
Proof.
  split; try done; cbn; [set_solver|].
  change (2 :: [3; 1]) with ([2; 3] ++ [1]). by rewrite Permutation_app_comm.
Qed.

Lemma config_round_trip_witness :
  parse_node_config (arguments_of demo_node_config) = Ok demo_node_config.
Proof.
  apply config_round_trip; [apply demo_node_config_valid|]. repeat constructor; discriminate.
Defined.

Lemma accepted_config_witness : valid_config demo_node_config.
Proof. apply (accepted_config (arguments_of demo_node_config)). by vm_compute. Defined.
