(* ===== verification/Raft.v ===== *)
(** * The consensus core ([src/raft/raft.{h,cpp}])

    [Raft.t] has the data members of [class Raft] and every member function is
    a definition of the same name.  What the class is given from outside is a
    parameter: the random engine ([Rng]), serialization ([WalPack]), and the
    snapshot callback, a function with its own captured environment [Env]. *)

From S2P Require Import Prelude Msgpack Proto Crc32 Wal.

(** [std::mt19937_64] with [std::uniform_int_distribution<uint32_t>], whose
    values depend on the implementation but lie between the two bounds. *)
Class Rng : Type := {
  rng : Type;
  rng_seed : Z -> rng;
  uniform : Z -> Z -> rng -> Z * rng;
}.

Class RngLaws {R : Rng} : Prop := {
  uniform_bounds lo hi g : lo <= hi -> lo <= fst (uniform lo hi g) <= hi;
}.

(** An engine for concrete runs: it always draws the lower bound. *)
Definition constant_rng : Rng := {|
  rng := unit;
  rng_seed _ := tt;
  uniform lo hi g := (lo, g);
|}.

Lemma constant_rng_laws : @RngLaws constant_rng.
Proof. split. cbn. lia. Qed.

Module Raft.

Inductive State : Type := Follower | PreCandidate | Candidate | Leader.

#[global] Instance State_eq_dec : EqDecision State.
Proof. solve_decision. Defined.

Record ReadIndexToken : Type := MkToken { context : Z; safe_index : Z }.

#[global] Instance ReadIndexToken_eq_dec : EqDecision ReadIndexToken.
Proof. solve_decision. Defined.

Record Progress : Type := MkProgress { match_ : Z; next : Z }.

#[global] Instance Progress_eq_dec : EqDecision Progress.
Proof. solve_decision. Defined.

Definition Progress_default : Progress := MkProgress 0 1.

Record t {R : Rng} {Env : Type} : Type := mk {
  id_ : Z;
  term_ : Z;
  lead_ : Z;
  voted_for_ : Z;
  commit_index_ : Z;
  last_applied_ : Z;
  state_ : State;
  log_ : list Entry.t;
  log_offset_ : Z;
  log_offset_term_ : Z;
  progress_ : gmap Z Progress;
  peers_ : list Z;
  election_timeout_ : Z;
  heartbeat_timeout_ : Z;
  snapshot_threshold_ : Z;
  last_snapshot_index_ : Z;
  election_elapsed_ : Z;
  randomized_election_timeout_ : Z;
  heartbeat_elapsed_ : Z;
  election_rng_ : rng;
  votes_ : gmap Z bool;
  pre_votes_ : gmap Z bool;
  pending_pre_vote_term_ : Z;
  read_index_pending_ : bool;
  pending_read_index_ : Z;
  pending_read_context_ : Z;
  next_read_context_ : Z;
  read_index_acks_ : gmap Z bool;
  last_snapshot_data_ : bytes;
  (* the callback, and what it captures *)
  snapshot_restore_ : option (Z -> bytes -> Env -> bool * Env);
  restore_env : Env;
  wal_ : option WAL.t;
  storage_failed_ : bool;
  msgs_ : list Message.t;
}.
Arguments t {R} Env.

Section Setters.
Context {R : Rng} {Env : Type}.

Definition eta (s : t Env) : t Env :=
  mk R Env (id_ s) (term_ s) (lead_ s) (voted_for_ s) (commit_index_ s) (last_applied_ s)
    (state_ s) (log_ s) (log_offset_ s) (log_offset_term_ s) (progress_ s) (peers_ s)
    (election_timeout_ s) (heartbeat_timeout_ s) (snapshot_threshold_ s)
    (last_snapshot_index_ s) (election_elapsed_ s) (randomized_election_timeout_ s)
    (heartbeat_elapsed_ s) (election_rng_ s) (votes_ s) (pre_votes_ s)
    (pending_pre_vote_term_ s) (read_index_pending_ s) (pending_read_index_ s)
    (pending_read_context_ s) (next_read_context_ s) (read_index_acks_ s)
    (last_snapshot_data_ s) (snapshot_restore_ s) (restore_env s) (wal_ s)
    (storage_failed_ s) (msgs_ s).

#[global] Instance set_term_ : Setter term_ := ltac:(setter eta (@term_ R Env)).
#[global] Instance set_lead_ : Setter lead_ := ltac:(setter eta (@lead_ R Env)).
#[global] Instance set_voted_for_ : Setter voted_for_ := ltac:(setter eta (@voted_for_ R Env)).
#[global] Instance set_commit_index_ : Setter commit_index_ := ltac:(setter eta (@commit_index_ R Env)).
#[global] Instance set_last_applied_ : Setter last_applied_ := ltac:(setter eta (@last_applied_ R Env)).
#[global] Instance set_state_ : Setter state_ := ltac:(setter eta (@state_ R Env)).
#[global] Instance set_log_ : Setter log_ := ltac:(setter eta (@log_ R Env)).
#[global] Instance set_log_offset_ : Setter log_offset_ := ltac:(setter eta (@log_offset_ R Env)).
#[global] Instance set_log_offset_term_ : Setter log_offset_term_ := ltac:(setter eta (@log_offset_term_ R Env)).
#[global] Instance set_progress_ : Setter progress_ := ltac:(setter eta (@progress_ R Env)).
#[global] Instance set_last_snapshot_index_ : Setter last_snapshot_index_ := ltac:(setter eta (@last_snapshot_index_ R Env)).
#[global] Instance set_election_elapsed_ : Setter election_elapsed_ := ltac:(setter eta (@election_elapsed_ R Env)).
#[global] Instance set_randomized_election_timeout_ : Setter randomized_election_timeout_ := ltac:(setter eta (@randomized_election_timeout_ R Env)).
#[global] Instance set_heartbeat_elapsed_ : Setter heartbeat_elapsed_ := ltac:(setter eta (@heartbeat_elapsed_ R Env)).
#[global] Instance set_election_rng_ : Setter election_rng_ := ltac:(setter eta (@election_rng_ R Env)).
#[global] Instance set_votes_ : Setter votes_ := ltac:(setter eta (@votes_ R Env)).
#[global] Instance set_pre_votes_ : Setter pre_votes_ := ltac:(setter eta (@pre_votes_ R Env)).
#[global] Instance set_pending_pre_vote_term_ : Setter pending_pre_vote_term_ := ltac:(setter eta (@pending_pre_vote_term_ R Env)).
#[global] Instance set_read_index_pending_ : Setter read_index_pending_ := ltac:(setter eta (@read_index_pending_ R Env)).
#[global] Instance set_pending_read_index_ : Setter pending_read_index_ := ltac:(setter eta (@pending_read_index_ R Env)).
#[global] Instance set_pending_read_context_ : Setter pending_read_context_ := ltac:(setter eta (@pending_read_context_ R Env)).
#[global] Instance set_next_read_context_ : Setter next_read_context_ := ltac:(setter eta (@next_read_context_ R Env)).
#[global] Instance set_read_index_acks_ : Setter read_index_acks_ := ltac:(setter eta (@read_index_acks_ R Env)).
#[global] Instance set_last_snapshot_data_ : Setter last_snapshot_data_ := ltac:(setter eta (@last_snapshot_data_ R Env)).
#[global] Instance set_snapshot_restore_ : Setter snapshot_restore_ := ltac:(setter eta (@snapshot_restore_ R Env)).
#[global] Instance set_restore_env : Setter restore_env := ltac:(setter eta (@restore_env R Env)).
#[global] Instance set_wal_ : Setter wal_ := ltac:(setter eta (@wal_ R Env)).
#[global] Instance set_storage_failed_ : Setter storage_failed_ := ltac:(setter eta (@storage_failed_ R Env)).
#[global] Instance set_msgs_ : Setter msgs_ := ltac:(setter eta (@msgs_ R Env)).

End Setters.

Section Raft.
Context {R : Rng} {Env : Type} {WP : WalPack}.
Implicit Types (s : t Env) (msg : Message.t).

(** ** Log helpers *)

Definition last_log_index s : Z := u64 (log_offset_ s + zlen (log_ s)).

(** [log_[index - log_offset_ - 1]], for an index the caller has in range. *)
Definition log_entry s (index : Z) : Entry.t :=
  nth (Z.to_nat (u64 (index - log_offset_ s - 1))) (log_ s) (Entry.mk 0 0 0 []).

Definition term_at s (index : Z) : Z :=
  if index =? 0 then 0 else
  if index =? log_offset_ s then log_offset_term_ s else
  if (index <? log_offset_ s) || (index >? last_log_index s) then 0 else
  Entry.term (log_entry s index).

Definition last_log_term s : Z :=
  match list.last (log_ s) with
  | None => log_offset_term_ s
  | Some e => Entry.term e
  end.

Definition is_log_up_to_date s (candidate_index candidate_term : Z) : bool :=
  let local_term := last_log_term s in
  if negb (candidate_term =? local_term) then candidate_term >? local_term
  else candidate_index >=? last_log_index s.

Definition is_member s (node_id : Z) : bool :=
  negb (node_id =? 0) && bool_decide (node_id ∈ peers_ s).

Definition has_committed_entry_in_current_term s : bool :=
  (commit_index_ s >? 0) && (term_at s (commit_index_ s) =? term_ s).

(** The guard every message handler starts with. *)
Definition misaddressed s msg : bool :=
  negb (Message.to msg =? id_ s) || (Message.from msg =? id_ s) ||
  negb (is_member s (Message.from msg)).

(** Entries of a [node_id -> granted] table that are true. *)
Definition count_true (m : gmap Z bool) : Z :=
  zlen (filter (fun p => snd p = true) (map_to_list m)).

(** ** Storage *)

(** [if (wal_) { m }] *)
Definition if_wal (m : M WAL.t unit) : M (t Env) unit := fun s =>
  match wal_ s with
  | None => (Ok tt, s)
  | Some w => let '(r, w') := m w in (r, s <| wal_ := Some w' |>)
  end.

Definition sync_wal : M (t Env) bool := fun s =>
  match wal_ s with
  | None => (Ok true, s)
  | Some w =>
      match WAL.sync w with
      | (Ok true, w') => (Ok true, s <| wal_ := Some w' |>)
      | (Ok false, w') =>
          (Ok false, s <| wal_ := Some w' |> <| storage_failed_ := true |>)
      | (Throw e, w') => (Throw e, s <| wal_ := Some w' |>)
      end
  end.

Definition save_hard_state_now : M (t Env) unit :=
  s ← get;
  if_wal (WAL.save_hard_state
            (HardStateProto.mk (term_ s) (voted_for_ s) (commit_index_ s))).

(** [if (wal_) { wal_->save_hard_state({term_, voted_for_, commit_index_});
    return sync_wal(); }], the result of [sync_wal] being true without a WAL. *)
Definition persist_hard_state : M (t Env) bool :=
  save_hard_state_now ;; sync_wal.

Definition set_wal (w : WAL.t) : M (t Env) unit :=
  wal_ <~ Some w ;; storage_failed_ <~ false.

(** ** Elections *)

Definition reset_randomized_election_timeout : M (t Env) unit :=
  election_elapsed_ <~ 0 ;;
  s ← get;
  let '(jitter, g) := uniform 0 (u32 (election_timeout_ s - 1)) (election_rng_ s) in
  election_rng_ <~ g ;;
  randomized_election_timeout_ <~ u32 (election_timeout_ s + jitter).

Definition become_follower (term leader : Z) : M (t Env) unit :=
  s ← get;
  if term <? term_ s then mret tt else
  let advanced_term := term >? term_ s in
  state_ <~ Follower ;;
  term_ <~ term ;;
  lead_ <~ leader ;;
  when advanced_term (voted_for_ <~ 0) ;;
  read_index_pending_ <~ false ;;
  pending_read_index_ <~ 0 ;;
  pending_read_context_ <~ 0 ;;
  read_index_acks_ <~ ∅ ;;
  pending_pre_vote_term_ <~ 0 ;;
  reset_randomized_election_timeout ;;
  when advanced_term (persist_hard_state ;; mret tt).

Definition become_pre_candidate : M (t Env) unit :=
  state_ <~ PreCandidate ;;
  lead_ <~ 0 ;;
  pre_votes_ <~ ∅ ;;
  pending_pre_vote_term_ <~ 0 ;;
  reset_randomized_election_timeout.

Definition become_candidate : M (t Env) unit :=
  state_ <~ Candidate ;;
  s ← get;
  term_ <~ u64 (term_ s + 1) ;;
  lead_ <~ 0 ;;
  voted_for_ <~ id_ s ;;
  votes_ <~ ∅ ;;
  pending_pre_vote_term_ <~ 0 ;;
  reset_randomized_election_timeout ;;
  persist_hard_state ;; mret tt.

Definition push_msg (m : Message.t) : M (t Env) unit :=
  s ← get; msgs_ <~ msgs_ s ++ [m].

Definition send : Message.t -> M (t Env) unit := push_msg.

Definition read_messages : M (t Env) (list Message.t) :=
  s ← get; msgs_ <~ [] ;; mret (msgs_ s).

(** The body of the loops of [pre_campaign] and [campaign]. *)
Definition vote_request s (type to term : Z) : Message.t :=
  Message.default
    <| Message.type := type |> <| Message.from := id_ s |> <| Message.to := to |>
    <| Message.term := term |> <| Message.last_log_index := last_log_index s |>
    <| Message.last_log_term := last_log_term s |>.

Definition pre_campaign : M (t Env) unit :=
  s ← get;
  if storage_failed_ s then mret tt else
  pending_pre_vote_term_ <~ u64 (term_ s + 1) ;;
  pre_votes_ <~ <[id_ s := true]> (pre_votes_ s) ;;
  for_each (peers_ s) (fun peer_id =>
    when (negb (peer_id =? id_ s))
      (s ← get;
       push_msg (vote_request s Message.MsgPreVote peer_id (pending_pre_vote_term_ s)))).

Definition campaign : M (t Env) unit :=
  s ← get;
  if storage_failed_ s then mret tt else
  votes_ <~ <[id_ s := true]> (votes_ s) ;;
  for_each (peers_ s) (fun peer_id =>
    when (negb (peer_id =? id_ s))
      (s ← get;
       push_msg (vote_request s Message.MsgRequestVote peer_id (term_ s)))).

(** ** Replication, sending side *)

(** [progress_[peer]], which inserts a default [Progress] for a new key. *)
Definition progress_of s (peer : Z) : Progress :=
  default Progress_default (progress_ s !! peer).

Definition touch_progress (peer : Z) : M (t Env) Progress :=
  s ← get;
  progress_ <~ <[peer := progress_of s peer]> (progress_ s) ;;
  mret (progress_of s peer).

Definition make_install_snapshot s (peer_id : Z) : Message.t :=
  Message.default
    <| Message.type := Message.MsgInstallSnapshot |> <| Message.from := id_ s |>
    <| Message.to := peer_id |> <| Message.term := term_ s |>
    <| Message.snapshot_index := log_offset_ s |>
    <| Message.snapshot_term := log_offset_term_ s |>
    <| Message.snapshot_data := last_snapshot_data_ s |>.

(** The entries from [next_index] to the end of the log. *)
Definition suffix_from s (next_index : Z) : list Entry.t :=
  log_entry s <$> seqZ next_index (last_log_index s - next_index + 1).

Definition make_append_entries s (peer_id next_index : Z) : Message.t :=
  let prev_index := u64 (next_index - 1) in
  Message.default
    <| Message.type := Message.MsgAppendEntries |> <| Message.from := id_ s |>
    <| Message.to := peer_id |> <| Message.term := term_ s |>
    <| Message.prev_log_index := prev_index |>
    <| Message.prev_log_term := if prev_index =? 0 then 0 else term_at s prev_index |>
    <| Message.entries := suffix_from s next_index |>
    <| Message.leader_commit := commit_index_ s |>
    <| Message.read_context :=
         if read_index_pending_ s then pending_read_context_ s else 0 |>.

Definition broadcast_heartbeat : M (t Env) unit :=
  s ← get;
  for_each (peers_ s) (fun peer_id =>
    when (negb (peer_id =? id_ s))
      (p ← touch_progress peer_id;
       s ← get;
       if next p <=? log_offset_ s
       then push_msg (make_install_snapshot s peer_id)
       else push_msg (make_append_entries s peer_id (next p)))).

Definition become_leader : M (t Env) unit :=
  s ← get;
  state_ <~ Leader ;;
  lead_ <~ id_ s ;;
  heartbeat_elapsed_ <~ 0 ;;
  progress_ <~ ∅ ;;
  for_each (peers_ s) (fun peer_id =>
    if peer_id =? id_ s then mret tt else
    s ← get;
    progress_ <~ <[peer_id := MkProgress 0 (u64 (last_log_index s + 1))]> (progress_ s)) ;;
  broadcast_heartbeat.

Definition tick : M (t Env) unit :=
  s ← get;
  if storage_failed_ s then mret tt else
  if decide (state_ s = Leader) then
    heartbeat_elapsed_ <~ u32 (heartbeat_elapsed_ s + 1) ;;
    s ← get;
    if heartbeat_elapsed_ s >=? heartbeat_timeout_ s then
      heartbeat_elapsed_ <~ 0 ;; broadcast_heartbeat
    else mret tt
  else
    election_elapsed_ <~ u32 (election_elapsed_ s + 1) ;;
    s ← get;
    if election_elapsed_ s >=? randomized_election_timeout_ s then
      election_elapsed_ <~ 0 ;; become_pre_candidate ;; pre_campaign
    else mret tt.

(** ** Votes *)

Definition vote_response s msg (type : Z) : Message.t :=
  Message.default <| Message.type := type |> <| Message.from := id_ s |>
    <| Message.to := Message.from msg |>.

(** [response.term = term_; return response;] *)
Definition reply (response : Message.t) : M (t Env) Message.t :=
  s ← get; mret (response <| Message.term := term_ s |>).

Definition handle_request_vote msg : M (t Env) Message.t :=
  s ← get;
  let response := vote_response s msg Message.MsgRequestVoteResponse in
  if misaddressed s msg then reply response else
  when (Message.term msg >? term_ s) (become_follower (Message.term msg) 0) ;;
  s ← get;
  if storage_failed_ s then reply response else
  if (Message.term msg =? term_ s) &&
     ((voted_for_ s =? 0) || (voted_for_ s =? Message.from msg)) &&
     is_log_up_to_date s (Message.last_log_index msg) (Message.last_log_term msg)
  then
    voted_for_ <~ Message.from msg ;;
    reset_randomized_election_timeout ;;
    saved ← persist_hard_state;
    reply (response <| Message.vote_granted := saved |>)
  else reply response.

Definition handle_request_vote_response msg : M (t Env) unit :=
  s ← get;
  if misaddressed s msg then mret tt else
  if Message.term msg >? term_ s then become_follower (Message.term msg) 0 else
  if (Message.term msg <? term_ s) || negb (bool_decide (state_ s = Candidate))
  then mret tt else
  when (Message.vote_granted msg)
    (votes_ <~ <[Message.from msg := true]> (votes_ s)) ;;
  s ← get;
  when (count_true (votes_ s) >? zlen (peers_ s) / 2) become_leader.

Definition handle_pre_vote msg : M (t Env) Message.t :=
  s ← get;
  let response := (vote_response s msg Message.MsgPreVoteResponse)
                    <| Message.pre_vote_term := Message.term msg |> in
  if misaddressed s msg then reply response else
  if storage_failed_ s || (Message.term msg <=? term_ s) then reply response else
  if negb (lead_ s =? 0) && (election_elapsed_ s <? election_timeout_ s)
  then reply response else
  reply (response <| Message.vote_granted :=
    is_log_up_to_date s (Message.last_log_index msg) (Message.last_log_term msg) |>).

Definition handle_pre_vote_response msg : M (t Env) unit :=
  s ← get;
  if misaddressed s msg then mret tt else
  if Message.term msg >? term_ s then become_follower (Message.term msg) 0 else
  if negb (bool_decide (state_ s = PreCandidate)) then mret tt else
  if (Message.pre_vote_term msg =? 0) ||
     negb (Message.pre_vote_term msg =? pending_pre_vote_term_ s)
  then mret tt else
  when (Message.vote_granted msg)
    (pre_votes_ <~ <[Message.from msg := true]> (pre_votes_ s)) ;;
  s ← get;
  when (count_true (pre_votes_ s) >? zlen (peers_ s) / 2)
    (become_candidate ;; campaign).

(** ** Replication, receiving side *)

Definition prepare_for_leader_rpc msg : M (t Env) bool :=
  s ← get;
  if misaddressed s msg then mret false else
  when (Message.term msg >? term_ s)
    (become_follower (Message.term msg) (Message.from msg)) ;;
  s ← get;
  if storage_failed_ s || (Message.term msg <? term_ s) then mret false else
  when (negb (bool_decide (state_ s = Follower)))
    (become_follower (Message.term msg) (Message.from msg)) ;;
  reset_randomized_election_timeout ;;
  lead_ <~ Message.from msg ;;
  mret true.

Definition log_ok s msg : bool :=
  if Message.prev_log_index msg =? 0 then true else
  if (Message.prev_log_index msg >=? log_offset_ s) &&
     (last_log_index s >=? Message.prev_log_index msg)
  then term_at s (Message.prev_log_index msg) =? Message.prev_log_term msg
  else false.

Definition save_entry_now (e : Entry.t) : M (t Env) unit := if_wal (WAL.save_entry e).

Definition append_entry (e : Entry.t) : M (t Env) unit :=
  s ← get; log_ <~ log_ s ++ [e] ;; save_entry_now e.

(** The loop over [msg.entries], from the one whose index is [index] on; the
    result is whether it ran to the end, or met a conflict with a committed
    entry, on which the handler returns. *)
Fixpoint append_loop (entries : list Entry.t) (index : Z) : M (t Env) bool :=
  match entries with
  | [] => mret true
  | e :: entries' =>
      s ← get;
      if index <=? log_offset_ s then append_loop entries' (u64 (index + 1)) else
      if index <=? last_log_index s then
        if negb (term_at s index =? Entry.term e) then
          if index <=? commit_index_ s then mret false else
          log_ <~ take (Z.to_nat (u64 (index - log_offset_ s - 1))) (log_ s) ;;
          append_entry e ;;
          append_loop entries' (u64 (index + 1))
        else append_loop entries' (u64 (index + 1))
      else
        append_entry e ;;
        append_loop entries' (u64 (index + 1))
  end.

Definition handle_append_entries msg : M (t Env) Message.t :=
  s ← get;
  let response := (vote_response s msg Message.MsgAppendEntriesResponse)
                    <| Message.read_context := Message.read_context msg |> in
  prepared ← prepare_for_leader_rpc msg;
  if negb (prepared : bool) then reply response else
  s ← get;
  if negb (log_ok s msg) then reply response else
  finished ← append_loop (Message.entries msg) (u64 (Message.prev_log_index msg + 1));
  s ← get;
  if negb (finished : bool)
  then reply (response <| Message.match_index := commit_index_ s |>) else
  saved ← (if decide (Message.entries msg = []) then mret true else sync_wal);
  if negb (saved : bool) then reply response else
  let response := response <| Message.success := true |>
    <| Message.match_index :=
         u64 (Message.prev_log_index msg + zlen (Message.entries msg)) |> in
  s ← get;
  if Message.leader_commit msg >? commit_index_ s then
    commit_index_ <~ Z.min (Message.leader_commit msg) (last_log_index s) ;;
    saved ← persist_hard_state;
    if negb (saved : bool) then reply (response <| Message.success := false |>)
    else reply response
  else reply response.

(** How many members hold the entry at [i]: the leader and the followers whose
    [match] has reached it. *)
Definition replicas s (i : Z) : Z :=
  1 + zlen (filter (fun p => i <= match_ (snd p)) (map_to_list (progress_ s))).

(** The commit loop: every index above the old commit index in turn. *)
Definition advance_commit s : Z :=
  foldl (fun commit i =>
    if negb (Entry.term (log_entry s i) =? term_ s) then commit else
    if replicas s i >? zlen (peers_ s) / 2 then i else commit)
    (commit_index_ s)
    (seqZ (u64 (commit_index_ s + 1)) (last_log_index s - commit_index_ s)).

(** [progress_[peer].match = m; progress_[peer].next = m + 1;] *)
Definition set_match (peer m : Z) : M (t Env) unit :=
  s ← get;
  progress_ <~ <[peer := MkProgress m (u64 (m + 1))]> (progress_ s).

Definition handle_append_entries_response msg : M (t Env) unit :=
  s ← get;
  if misaddressed s msg then mret tt else
  if Message.term msg >? term_ s then become_follower (Message.term msg) 0 else
  if storage_failed_ s then mret tt else
  if negb (bool_decide (state_ s = Leader)) then mret tt else
  if Message.term msg <? term_ s then mret tt else
  if Message.success msg then
    set_match (Message.from msg) (Message.match_index msg) ;;
    s ← get;
    when (read_index_pending_ s && negb (Message.read_context msg =? 0) &&
          (Message.read_context msg =? pending_read_context_ s))
      (read_index_acks_ <~ <[Message.from msg := true]> (read_index_acks_ s)) ;;
    s ← get;
    let old_commit := commit_index_ s in
    commit_index_ <~ advance_commit s ;;
    s ← get;
    when (commit_index_ s >? old_commit) (persist_hard_state ;; mret tt)
  else
    p ← touch_progress (Message.from msg);
    s ← get;
    when (next p >? 1)
      (progress_ <~ <[Message.from msg := MkProgress (match_ p) (u64 (next p - 1))]>
                      (progress_ s)) ;;
    s ← get;
    if (log_offset_ s >? 0) && (next (progress_of s (Message.from msg)) <=? log_offset_ s)
    then push_msg (make_install_snapshot s (Message.from msg))
    else broadcast_heartbeat.

Definition propose (data : bytes) : M (t Env) (option Z) :=
  s ← get;
  if negb (bool_decide (state_ s = Leader)) || storage_failed_ s then mret None else
  let entry := Entry.mk Entry.EntryNormal (term_ s) (u64 (last_log_index s + 1)) data in
  append_entry entry ;;
  saved ← sync_wal;
  if negb (saved : bool) then
    s ← get; log_ <~ removelast (log_ s) ;; mret None
  else
    broadcast_heartbeat ;;
    mret (Some (Entry.index entry)).

(** ** Application and snapshots *)

Definition next_entry_to_apply s : option Entry.t :=
  if last_applied_ s >=? commit_index_ s then None
  else Some (log_entry s (u64 (last_applied_ s + 1))).

Definition advance (index : Z) : M (t Env) unit :=
  s ← get;
  if (index >? commit_index_ s) || negb (index =? u64 (last_applied_ s + 1))
  then mret tt else last_applied_ <~ index.

Definition should_snapshot s : bool :=
  (snapshot_threshold_ s >? 0) && (last_applied_ s >=? last_snapshot_index_ s) &&
  (u64 (last_applied_ s - last_snapshot_index_ s) >=? snapshot_threshold_ s).

(** Position of the first entry above [index], 0 if there is none. *)
Definition keep_from (log : list Entry.t) (index : Z) : nat :=
  match list_find (fun e => Entry.index e > index) log with
  | Some (i, _) => i
  | None => 0
  end.

Definition compacted (log : list Entry.t) (index : Z) : list Entry.t :=
  let keep := keep_from log index in
  if (0 <? keep)%nat then drop keep log else
  match list.last log with
  | Some e => if Entry.index e <=? index then [] else log
  | None => log
  end.

Definition take_snapshot (applied_index : Z) (state_snapshot : bytes) : M (t Env) unit :=
  s ← get;
  if (applied_index =? 0) || (applied_index <=? log_offset_ s) ||
     (applied_index >? last_applied_ s)
  then mret tt else
  let snap_term := term_at s applied_index in
  if_wal (WAL.save_snapshot (SnapshotMeta.mk applied_index snap_term state_snapshot false)) ;;
  saved ← sync_wal;
  if negb (saved : bool) then mret tt else
  log_ <~ compacted (log_ s) applied_index ;;
  log_offset_ <~ applied_index ;;
  log_offset_term_ <~ snap_term ;;
  last_snapshot_index_ <~ applied_index ;;
  last_snapshot_data_ <~ state_snapshot.

(** The overload that snapshots the last applied index. *)
Definition take_snapshot_now (state_snapshot : bytes) : M (t Env) unit :=
  s ← get; take_snapshot (last_applied_ s) state_snapshot.

Definition call_snapshot_restore (index : Z) (data : bytes) : M (t Env) bool :=
  s ← get;
  match snapshot_restore_ s with
  | None => mret false
  | Some callback =>
      let '(ok, env) := callback index data (restore_env s) in
      restore_env <~ env ;; mret ok
  end.

Definition handle_install_snapshot msg : M (t Env) Message.t :=
  s ← get;
  let response := vote_response s msg Message.MsgInstallSnapshotResponse in
  prepared ← prepare_for_leader_rpc msg;
  if negb (prepared : bool) then reply response else
  if (Message.snapshot_index msg =? 0) || (Message.snapshot_term msg =? 0) ||
     (Message.snapshot_term msg >? Message.term msg) ||
     bool_decide (Message.snapshot_data msg = [])
  then reply response else
  s ← get;
  if (commit_index_ s >? Message.snapshot_index msg) ||
     (last_applied_ s >=? Message.snapshot_index msg)
  then reply (response <| Message.success := true |>
                <| Message.match_index := Z.max (commit_index_ s) (last_applied_ s) |>) else
  restored ← call_snapshot_restore (Message.snapshot_index msg) (Message.snapshot_data msg);
  if negb (restored : bool) then reply response else
  if_wal (WAL.save_snapshot
            (SnapshotMeta.mk (Message.snapshot_index msg) (Message.snapshot_term msg)
               (Message.snapshot_data msg) true)) ;;
  saved ← sync_wal;
  if negb (saved : bool) then reply response else
  log_ <~ [] ;;
  log_offset_ <~ Message.snapshot_index msg ;;
  log_offset_term_ <~ Message.snapshot_term msg ;;
  last_snapshot_index_ <~ Message.snapshot_index msg ;;
  last_snapshot_data_ <~ Message.snapshot_data msg ;;
  last_applied_ <~ Message.snapshot_index msg ;;
  commit_index_ <~ Message.snapshot_index msg ;;
  saved ← persist_hard_state;
  if negb (saved : bool) then reply response else
  reply (response <| Message.success := true |>
           <| Message.match_index := Message.snapshot_index msg |>).

Definition handle_install_snapshot_response msg : M (t Env) unit :=
  s ← get;
  if misaddressed s msg then mret tt else
  if Message.term msg >? term_ s then become_follower (Message.term msg) 0 else
  if negb (bool_decide (state_ s = Leader)) then mret tt else
  if Message.term msg <? term_ s then mret tt else
  when (Message.success msg)
    (set_match (Message.from msg) (Message.match_index msg) ;; broadcast_heartbeat).

(** ** ReadIndex *)

Definition finish_read_index (read : ReadIndexToken) : M (t Env) unit :=
  s ← get;
  if negb (context read =? pending_read_context_ s) ||
     negb (safe_index read =? pending_read_index_ s)
  then mret tt else
  read_index_pending_ <~ false ;;
  pending_read_index_ <~ 0 ;;
  pending_read_context_ <~ 0 ;;
  read_index_acks_ <~ ∅.

Definition read_index : M (t Env) (option ReadIndexToken) :=
  s ← get;
  if negb (bool_decide (state_ s = Leader)) || storage_failed_ s then mret None else
  if read_index_pending_ s
  then mret (Some (MkToken (pending_read_context_ s) (pending_read_index_ s))) else
  read_index_pending_ <~ true ;;
  pending_read_context_ <~ next_read_context_ s ;;
  next_read_context_ <~ u64 (next_read_context_ s + 1) ;;
  s ← get;
  when (next_read_context_ s =? 0) (next_read_context_ <~ 1) ;;
  read_index_acks_ <~ ∅ ;;
  s ← get;
  if negb (has_committed_entry_in_current_term s) then
    pending_read_index_ <~ u64 (last_log_index s + 1) ;;
    proposed ← propose [];
    s ← get;
    match proposed with
    | None =>
        finish_read_index (MkToken (pending_read_context_ s) (pending_read_index_ s)) ;;
        mret None
    | Some _ => mret (Some (MkToken (pending_read_context_ s) (pending_read_index_ s)))
    end
  else
    pending_read_index_ <~ commit_index_ s ;;
    broadcast_heartbeat ;;
    s ← get;
    mret (Some (MkToken (pending_read_context_ s) (pending_read_index_ s))).

Definition read_index_ready s (read : ReadIndexToken) : bool :=
  if negb (bool_decide (state_ s = Leader)) || storage_failed_ s then false else
  if negb (context read =? pending_read_context_ s) ||
     negb (safe_index read =? pending_read_index_ s) then false else
  if negb (has_committed_entry_in_current_term s) then false else
  if last_applied_ s <? safe_index read then false else
  let quorum := zlen (peers_ s) / 2 + 1 in
  1 + count_true (read_index_acks_ s) >=? quorum.

(** ** Construction and recovery *)

(** The values of [std::random_device] and of the clock are arguments. *)
Definition election_seed (config : Config.t) (device1 device2 now : Z) : Z :=
  if negb (Config.random_seed config =? 0) then Config.random_seed config else
  Z.lxor (Z.lxor (Z.lxor (u64 (Z.shiftl device1 32)) device2) now)
    (u64 (Config.id config * 0x9e3779b97f4a7c15)).

Definition invalid_config (config : Config.t) : bool :=
  (Config.id config =? 0) || (Config.election_tick config =? 0) ||
  (Config.heartbeat_tick config =? 0) ||
  negb (zlen (Config.peers config) =? 3) ||
  negb (Z.of_nat (size (list_to_set (Config.peers config) : gset Z)) =?
        zlen (Config.peers config)) ||
  bool_decide (0 ∈ Config.peers config) ||
  negb (bool_decide (Config.id config ∈ Config.peers config)).

Definition create (config : Config.t) (device1 device2 now : Z) (env : Env)
    : result (t Env) :=
  let s := mk R Env (Config.id config) 0 0 0 0 0 Follower [] 0 0 ∅ (Config.peers config)
    (Config.election_tick config) (Config.heartbeat_tick config)
    (Config.snapshot_threshold config) 0 0 0 0
    (rng_seed (election_seed config device1 device2 now)) ∅ ∅ 0 false 0 0 1 ∅ []
    None env None false [] in
  if invalid_config config
  then Throw (invalid_argument "invalid Raft configuration") else
  match reset_randomized_election_timeout s with
  | (Ok _, s') => Ok s'
  | (Throw e, _) => Throw e
  end.

(** The loop over the recovered entries. *)
Fixpoint restore_loop (entries : list Entry.t) (expected_index : Z) : M (t Env) unit :=
  match entries with
  | [] => mret tt
  | e :: entries' =>
      s ← get;
      if Entry.index e >? log_offset_ s then
        if negb (Entry.index e =? expected_index)
        then throw (invalid_argument "recovered Raft log contains an index gap") else
        log_ <~ log_ s ++ [e] ;;
        restore_loop entries' (u64 (expected_index + 1))
      else restore_loop entries' expected_index
  end.

Definition restore (hard_state : HardStateProto.t) (entries : list Entry.t)
    (snapshot : SnapshotMeta.t) : M (t Env) unit :=
  log_offset_ <~ SnapshotMeta.index snapshot ;;
  log_offset_term_ <~ SnapshotMeta.term snapshot ;;
  last_snapshot_index_ <~ SnapshotMeta.index snapshot ;;
  last_snapshot_data_ <~ SnapshotMeta.state snapshot ;;
  log_ <~ [] ;;
  restore_loop entries (u64 (SnapshotMeta.index snapshot + 1)) ;;
  term_ <~ HardStateProto.term hard_state ;;
  voted_for_ <~ HardStateProto.vote hard_state ;;
  commit_index_ <~ Z.max (SnapshotMeta.index snapshot) (HardStateProto.commit hard_state) ;;
  s ← get;
  if commit_index_ s >? last_log_index s
  then throw (invalid_argument "recovered Raft log is missing a committed entry") else
  last_applied_ <~ SnapshotMeta.index snapshot.

End Raft.
End Raft.
