(* ===== verification/RaftLemmas.v ===== *)
(** * Symbolic execution of the consensus core

    Rules for the building blocks of [Raft.v]: what each one may change and
    nothing else.  [raft_steps] runs a member function symbolically with them,
    so that the proofs of the invariants only see the resulting states. *)

From S2P Require Import Prelude Msgpack Proto Crc32 Wal Raft.
Import Raft.

Section Lemmas.
Context {R : Rng} {Env : Type} {WP : WalPack}.
Implicit Types (s : t Env) (msg : Message.t).

(** ** Record bookkeeping *)

Lemma set_same_progress_msgs s pr ms pr' ms' :
  s <| progress_ := pr |> <| msgs_ := ms |> <| progress_ := pr' |> <| msgs_ := ms' |>
  = s <| progress_ := pr' |> <| msgs_ := ms' |>.
Proof. by destruct s. Qed.

Lemma set_progress_msgs_id s : s <| progress_ := progress_ s |> <| msgs_ := msgs_ s |> = s.
Proof. by destruct s. Qed.

(** ** Timers *)

Lemma reset_timeout_eq s :
  exists g r, reset_randomized_election_timeout s =
    (Ok tt, s <| election_elapsed_ := 0 |> <| election_rng_ := g |>
              <| randomized_election_timeout_ := r |>) /\
    r = u32 (election_timeout_ s +
             fst (uniform 0 (u32 (election_timeout_ s - 1)) (election_rng_ s))).
Proof.
  unfold reset_randomized_election_timeout. run_m. cbn.
  destruct (uniform _ _ _) as [j g] eqn:E. by eexists _, _.
Qed.

Lemma wp_reset_timeout Q E s :
  (forall g r, Q tt (s <| election_elapsed_ := 0 |> <| election_rng_ := g |>
              <| randomized_election_timeout_ := r |>)) ->
  wp reset_randomized_election_timeout Q E s.
Proof.
  intros H. unfold wp. destruct (reset_timeout_eq s) as (g & r & -> & _). apply H.
Qed.

(** ** Storage, without looking into the log *)

Lemma wp_if_wal m Q E s :
  (forall w, Q tt (s <| wal_ := w |>)) -> (forall e w, E e (s <| wal_ := w |>)) ->
  wp (if_wal m) Q E s.
Proof.
  intros HQ HE. unfold wp, if_wal. destruct (wal_ s) as [w|] eqn:Ew.
  - destruct (m w) as [[[]|e] w']; auto.
  - specialize (HQ None). rewrite <- Ew in HQ. by destruct s.
Qed.

Lemma wp_sync_wal Q E s :
  (forall w, Q true (s <| wal_ := w |>)) ->
  (forall w, Q false (s <| wal_ := w |> <| storage_failed_ := true |>)) ->
  (forall e w, E e (s <| wal_ := w |>)) ->
  wp sync_wal Q E s.
Proof.
  intros HQ HF HE. unfold wp, sync_wal. destruct (wal_ s) as [w|] eqn:Ew.
  - destruct (WAL.sync w) as [[[]|e] w']; auto.
  - specialize (HQ None). rewrite <- Ew in HQ. by destruct s.
Qed.

Lemma wp_persist Q E s :
  (forall w, Q true (s <| wal_ := w |>)) ->
  (forall w, Q false (s <| wal_ := w |> <| storage_failed_ := true |>)) ->
  (forall e w, E e (s <| wal_ := w |>)) ->
  wp persist_hard_state Q E s.
Proof.
  intros HQ HF HE. unfold persist_hard_state, save_hard_state_now.
  repeat wp_step. apply wp_if_wal; [|done]. intros w1.
  apply wp_sync_wal.
  - intros w. specialize (HQ w). by destruct s.
  - intros w. specialize (HF w). by destruct s.
  - intros e w. specialize (HE e w). by destruct s.
Qed.

(** ** Messages *)

Lemma wp_push_msg m Q E s :
  Q tt (s <| msgs_ := msgs_ s ++ [m] |>) -> wp (push_msg m) Q E s.
Proof. done. Qed.

Lemma wp_reply response Q E s :
  Q (response <| Message.term := term_ s |>) s -> wp (reply response) Q E s.
Proof. done. Qed.

(** The other members, in the order of [peers_]. *)
Definition others s : list Z := filter (fun p => p <> id_ s) (peers_ s).

(** [progress_[p]] has been evaluated, and for every [p] of a list. *)
Definition touch (pr : gmap Z Progress) (p : Z) : gmap Z Progress :=
  <[p := default Progress_default (pr !! p)]> pr.

Definition touch_all (pr : gmap Z Progress) (ps : list Z) : gmap Z Progress :=
  foldl touch pr ps.

Definition broadcast_to s (peer : Z) : Message.t :=
  if next (progress_of s peer) <=? log_offset_ s
  then make_install_snapshot s peer
  else make_append_entries s peer (next (progress_of s peer)).

Lemma touch_all_lookup pr ps p :
  default Progress_default (touch_all pr ps !! p) = default Progress_default (pr !! p).
Proof.
  revert pr. induction ps as [|q ps IH]; intros pr; [done|].
  cbn. rewrite IH. unfold touch. destruct (decide (q = p)) as [->|].
  - by rewrite lookup_insert_eq.
  - by rewrite lookup_insert_ne.
Qed.

(** The state of a broadcast that has served [ps]. *)
Definition broadcasted s (ps : list Z) : t Env :=
  s <| progress_ := touch_all (progress_ s) ps |>
    <| msgs_ := msgs_ s ++ (broadcast_to s <$> ps) |>.

Definition broadcast_body (self peer_id : Z) : M (t Env) unit :=
  when (negb (peer_id =? self))
    (p ← touch_progress peer_id;
     s ← get;
     if next p <=? log_offset_ s
     then push_msg (make_install_snapshot s peer_id)
     else push_msg (make_append_entries s peer_id (next p))).

Lemma broadcast_body_eq s ps p :
  p <> id_ s ->
  broadcast_body (id_ s) p (broadcasted s ps) = (Ok tt, broadcasted s (ps ++ [p])).
Proof.
  intros Hne. unfold broadcast_body, when. rewrite (proj2 (Z.eqb_neq _ _) Hne).
  cbn [negb]. unfold touch_progress. run_m.
  assert (progress_of (broadcasted s ps) p = progress_of s p) as Hp
    by apply touch_all_lookup.
  rewrite Hp. unfold push_msg. run_m.
  assert (broadcasted s (ps ++ [p]) =
    s <| progress_ := touch (touch_all (progress_ s) ps) p |>
      <| msgs_ := (msgs_ s ++ (broadcast_to s <$> ps)) ++ [broadcast_to s p] |>) as ->.
  { unfold broadcasted, touch_all. by rewrite foldl_app, fmap_app, app_assoc. }
  unfold touch. rewrite touch_all_lookup. fold (progress_of s p).
  unfold broadcast_to at 2. cbn. by destruct (next (progress_of s p) <=? log_offset_ s); destruct s.
Qed.

(** A broadcast queues one message per other member and touches nothing but the
    queue and the progress table. *)
Lemma broadcast_eq s :
  broadcast_heartbeat s = (Ok tt, broadcasted s (others s)).
Proof.
  change (broadcast_heartbeat s) with (for_each (peers_ s) (broadcast_body (id_ s)) s).
  assert (forall ps done_, for_each ps (broadcast_body (id_ s)) (broadcasted s done_) =
    (Ok tt, broadcasted s (done_ ++ filter (fun p => p <> id_ s) ps))) as Hloop.
  { induction ps as [|p ps IH]; intros dn; cbn [for_each].
    - cbn. by rewrite app_nil_r.
    - unfold mbind, M_bind. destruct (decide (p = id_ s)) as [->|Hne].
      + unfold broadcast_body at 1, when. rewrite Z.eqb_refl. cbn [negb].
        unfold mret, M_ret. rewrite IH. by rewrite filter_cons_False by auto.
      + rewrite broadcast_body_eq, IH by done.
        by rewrite filter_cons_True, <- app_assoc by done. }
  rewrite <- (app_nil_l (others s)). unfold others. rewrite <- Hloop. f_equal.
  unfold broadcasted. cbn. rewrite app_nil_r. symmetry. apply set_progress_msgs_id.
Qed.

Lemma wp_broadcast Q E s :
  (forall pr ms, Q tt (s <| progress_ := pr |> <| msgs_ := ms |>)) ->
  wp broadcast_heartbeat Q E s.
Proof. intros H. unfold wp. rewrite broadcast_eq. apply H. Qed.

(** ** Loops that queue one request per member *)

Lemma for_each_push s (f : t Env -> Z -> Message.t) :
  (forall ms p, f (s <| msgs_ := ms |>) p = f s p) ->
  for_each (peers_ s) (fun p => when (negb (p =? id_ s)) (s ← get; push_msg (f s p))) s
  = (Ok tt, s <| msgs_ := msgs_ s ++ (f s <$> others s) |>).
Proof.
  intros Hf.
  assert (forall ps dn, for_each ps
      (fun p => when (negb (p =? id_ s)) (s ← get; push_msg (f s p)))
      (s <| msgs_ := msgs_ s ++ (f s <$> dn) |>) =
    (Ok tt, s <| msgs_ := msgs_ s ++ (f s <$> (dn ++ filter (fun p => p <> id_ s) ps)) |>))
    as Hloop.
  { induction ps as [|p ps IH]; intros dn; cbn [for_each].
    - cbn. by rewrite app_nil_r.
    - unfold mbind at 1, M_bind at 1, when. destruct (Z.eqb_spec p (id_ s)) as [->|Hne].
      + cbn [negb]. unfold mret, M_ret. rewrite IH. by rewrite filter_cons_False by auto.
      + cbn [negb]. unfold push_msg. run_m. rewrite Hf, filter_cons_True by done.
        specialize (IH (dn ++ [p])). rewrite <- app_assoc in IH. cbn in IH |- *.
        rewrite <- IH. f_equal. rewrite fmap_app, app_assoc. by destruct s. }
  specialize (Hloop (peers_ s) []). cbn in Hloop. unfold others. rewrite <- Hloop. f_equal.
  rewrite app_nil_r. by destruct s.
Qed.

Definition pre_campaigned s : t Env :=
  let s := s <| pending_pre_vote_term_ := u64 (term_ s + 1) |>
             <| pre_votes_ := <[id_ s := true]> (pre_votes_ s) |> in
  s <| msgs_ := msgs_ s ++
    ((fun p => vote_request s Message.MsgPreVote p (pending_pre_vote_term_ s)) <$> others s) |>.

Lemma pre_campaign_eq s :
  pre_campaign s = (Ok tt, if storage_failed_ s then s else pre_campaigned s).
Proof.
  unfold pre_campaign. run_m. destruct (storage_failed_ s) eqn:Es; [done|].
  unfold pre_campaigned.
  set (s1 := s <| pending_pre_vote_term_ := _ |>).
  set (s2 := s1 <| pre_votes_ := _ |>).
  apply (for_each_push s2
    (fun s p => vote_request s Message.MsgPreVote p (pending_pre_vote_term_ s))).
  done.
Qed.

Definition campaigned s : t Env :=
  let s := s <| votes_ := <[id_ s := true]> (votes_ s) |> in
  s <| msgs_ := msgs_ s ++
    ((fun p => vote_request s Message.MsgRequestVote p (term_ s)) <$> others s) |>.

Lemma campaign_eq s :
  campaign s = (Ok tt, if storage_failed_ s then s else campaigned s).
Proof.
  unfold campaign. run_m. destruct (storage_failed_ s) eqn:Es; [done|].
  unfold campaigned. set (s1 := s <| votes_ := _ |>).
  apply (for_each_push s1 (fun s p => vote_request s Message.MsgRequestVote p (term_ s))).
  done.
Qed.

(** ** Role changes *)

(** The state [become_follower] leads to: everything it assigns, with whatever
    the random engine and the WAL did. *)
Definition as_follower s (term leader : Z) g r w failed : t Env :=
  s <| state_ := Follower |> <| term_ := term |> <| lead_ := leader |>
    <| voted_for_ := if term >? term_ s then 0 else voted_for_ s |>
    <| read_index_pending_ := false |> <| pending_read_index_ := 0 |>
    <| pending_read_context_ := 0 |> <| read_index_acks_ := ∅ |>
    <| pending_pre_vote_term_ := 0 |> <| election_elapsed_ := 0 |>
    <| election_rng_ := g |> <| randomized_election_timeout_ := r |>
    <| wal_ := w |> <| storage_failed_ := failed |>.

Lemma wp_become_follower term leader Q E s :
  (term < term_ s -> Q tt s) ->
  (term_ s <= term -> forall g r w failed,
     (storage_failed_ s = true -> failed = true) ->
     (term = term_ s -> failed = storage_failed_ s /\ w = wal_ s) ->
     Q tt (as_follower s term leader g r w failed)) ->
  (term_ s < term -> forall e g r w,
     E e (as_follower s term leader g r w (storage_failed_ s))) ->
  wp (become_follower term leader) Q E s.
Proof.
  intros Hlt Hge Hex. unfold become_follower.
  apply wp_bind, wp_get, wp_if; intros Hif; [apply wp_ret, Hlt; lia|]. cbv zeta.
  assert (term_ s <= term) as Hle by lia. specialize (Hge Hle).
  unfold as_follower in *. destruct (Z.gtb_spec term (term_ s)) as [Hadv|Hadv];
    cbn [when]; repeat wp_step; try done; apply wp_reset_timeout; intros g r; repeat wp_step; try done.
  - apply wp_persist.
    + intros w. repeat wp_step.
      specialize (Hge g r w (storage_failed_ s) (fun x => x) ltac:(lia)). by destruct s.
    + intros w. repeat wp_step.
      specialize (Hge g r w true (fun _ => eq_refl) ltac:(lia)). by destruct s.
    + intros e w. specialize (Hex Hadv e g r w). by destruct s.
  - specialize (Hge g r (wal_ s) (storage_failed_ s) (fun x => x) (fun _ => conj eq_refl eq_refl)).
    by destruct s.
Qed.

Definition as_candidate s g r w failed : t Env :=
  s <| state_ := Candidate |> <| term_ := u64 (term_ s + 1) |> <| lead_ := 0 |>
    <| voted_for_ := id_ s |> <| votes_ := ∅ |> <| pending_pre_vote_term_ := 0 |>
    <| election_elapsed_ := 0 |> <| election_rng_ := g |>
    <| randomized_election_timeout_ := r |> <| wal_ := w |> <| storage_failed_ := failed |>.

Lemma wp_become_candidate Q E s :
  (forall g r w failed, (storage_failed_ s = true -> failed = true) ->
     Q tt (as_candidate s g r w failed)) ->
  (forall e g r w, E e (as_candidate s g r w (storage_failed_ s))) ->
  wp become_candidate Q E s.
Proof.
  intros HQ HE. unfold become_candidate, as_candidate in *. repeat wp_step.
  apply wp_reset_timeout. intros g r. repeat wp_step. apply wp_persist.
  - intros w. repeat wp_step. specialize (HQ g r w (storage_failed_ s) (fun x => x)).
    by destruct s.
  - intros w. repeat wp_step. specialize (HQ g r w true (fun _ => eq_refl)). by destruct s.
  - intros e w. specialize (HE e g r w). by destruct s.
Qed.

(** The progress table of a new leader. *)
Definition fresh_progress s : gmap Z Progress :=
  foldl (fun pr p => <[p := MkProgress 0 (u64 (last_log_index s + 1))]> pr) ∅ (others s).

Definition as_leader s : t Env :=
  s <| state_ := Leader |> <| lead_ := id_ s |> <| heartbeat_elapsed_ := 0 |>
    <| progress_ := fresh_progress s |>.

Lemma become_leader_eq s :
  become_leader s = (Ok tt, broadcasted (as_leader s) (others s)).
Proof.
  unfold become_leader. run_m.
  set (s0 := s <| state_ := Leader |> <| lead_ := id_ s |> <| heartbeat_elapsed_ := 0 |>).
  assert (forall ps dn, for_each ps (fun peer_id => if peer_id =? id_ s
      then (fun s' : t Env => (Ok tt, s')) else fun s' =>
      (Ok tt, s' <| progress_ := <[peer_id := MkProgress 0 (u64 (last_log_index s' + 1))]>
                                (progress_ s') |>))
      (s0 <| progress_ := foldl (fun pr p => <[p := MkProgress 0 (u64 (last_log_index s + 1))]> pr) ∅ dn |>)
    = (Ok tt, s0 <| progress_ := foldl (fun pr p => <[p := MkProgress 0 (u64 (last_log_index s + 1))]> pr) ∅
         (dn ++ filter (fun p => p <> id_ s) ps) |>)) as Hloop.
  { induction ps as [|p ps IH]; intros dn; cbn [for_each].
    - cbn. by rewrite app_nil_r.
    - unfold mbind, M_bind. destruct (Z.eqb_spec p (id_ s)) as [->|Hne].
      + rewrite IH. by rewrite filter_cons_False by auto.
      + rewrite filter_cons_True by done. specialize (IH (dn ++ [p])).
        rewrite <- app_assoc in IH. cbn in IH. rewrite <- IH. f_equal.
        rewrite foldl_app. by destruct s. }
  specialize (Hloop (peers_ s) []). cbn [app foldl] in Hloop.
  rewrite Hloop, broadcast_eq. done.
Qed.

End Lemmas.
