(* ===== verification/RaftLog.v ===== *)
(** * The replicated log of one node

    [entry_at] is the log as a partial function of the index, through the
    compaction offset.  [merge_log] is the pure content of the loop of
    [handle_append_entries]; [merge_log_spec] says in closed form what it does. *)

From S2P Require Import Prelude Msgpack Proto Crc32 Wal Raft RaftLemmas.
Import Raft.

Section Log.
Context {R : Rng} {Env : Type} {WP : WalPack}.
Implicit Types (s : t Env) (msg : Message.t).

(** ** Well-formed logs *)

(** Consecutive indices starting after [offset]. *)
Definition indexed (offset : Z) (log : list Entry.t) : Prop :=
  forall i e, log !! i = Some e -> Entry.index e = offset + 1 + Z.of_nat i.

(** The log invariant of a node: indices are consecutive after the offset, and
    the snapshot, applied, commit and last indices are in order. *)
Record wf s : Prop := {
  wf_indexed : indexed (log_offset_ s) (log_ s);
  wf_offset : 0 <= log_offset_ s;
  wf_last : log_offset_ s + zlen (log_ s) < u64_max;
  wf_applied : log_offset_ s <= last_applied_ s;
  wf_applied_commit : last_applied_ s <= commit_index_ s;
  wf_commit : commit_index_ s <= log_offset_ s + zlen (log_ s);
  wf_snapshot : last_snapshot_index_ s = log_offset_ s;
}.

Definition entry_at s (i : Z) : option Entry.t :=
  if decide (log_offset_ s < i) then log_ s !! Z.to_nat (i - log_offset_ s - 1) else None.

Lemma last_log_index_eq s : wf s -> last_log_index s = log_offset_ s + zlen (log_ s).
Proof.
  intros []. unfold last_log_index. apply u64_small.
  pose proof (zlen_nonneg (log_ s)). unfold_words. lia.
Qed.

Lemma entry_at_Some s i e :
  entry_at s i = Some e -> log_offset_ s < i <= log_offset_ s + zlen (log_ s).
Proof.
  unfold entry_at. case_decide; [|done]. intros H'%lookup_lt_Some. len_lia.
Qed.

Lemma entry_at_is_Some s i :
  log_offset_ s < i <= log_offset_ s + zlen (log_ s) -> is_Some (entry_at s i).
Proof.
  intros H. unfold entry_at. rewrite decide_True by lia. apply lookup_lt_is_Some. len_lia.
Qed.

Lemma log_entry_at s i e : wf s -> entry_at s i = Some e -> log_entry s i = e.
Proof.
  intros [] He. pose proof (entry_at_Some _ _ _ He). unfold entry_at in He.
  rewrite decide_True in He by lia. unfold log_entry.
  rewrite u64_small by (unfold_words; lia). by apply nth_lookup_Some.
Qed.

Lemma entry_at_index s i e : wf s -> entry_at s i = Some e -> Entry.index e = i.
Proof.
  intros [Hi _ _ _ _ _ _] He. pose proof (entry_at_Some _ _ _ He). unfold entry_at in He.
  rewrite decide_True in He by lia. apply Hi in He. lia.
Qed.

(** [term_at] above the offset is the term of the entry. *)
Lemma term_at_entry s i e : wf s -> entry_at s i = Some e -> term_at s i = Entry.term e.
Proof.
  intros Hwf He. pose proof (entry_at_Some _ _ _ He) as Hr. pose proof Hwf as [].
  unfold term_at. rewrite last_log_index_eq by done.
  destruct (Z.eqb_spec i 0); [lia|]. destruct (Z.eqb_spec i (log_offset_ s)); [lia|].
  destruct (Z.ltb_spec i (log_offset_ s)); [lia|].
  destruct (Z.gtb_spec i (log_offset_ s + zlen (log_ s))); [lia|]. cbn.
  by rewrite (log_entry_at _ _ _ Hwf He).
Qed.

Lemma indexed_app o l k :
  indexed o l -> indexed (o + zlen l) k -> indexed o (l ++ k).
Proof.
  intros Hl Hk i e [H|[Hge H]]%lookup_app_Some; [by apply Hl|].
  apply Hk in H. len_lia.
Qed.

Lemma indexed_take o l n : indexed o l -> indexed o (take n l).
Proof. intros H i e [Hi _]%lookup_take_Some. by apply H. Qed.

Lemma indexed_drop o l n :
  indexed o l -> (n <= length l)%nat -> indexed (o + Z.of_nat n) (drop n l).
Proof. intros H Hn i e Hi. rewrite lookup_drop in Hi. apply H in Hi. lia. Qed.

Lemma indexed_nil o : indexed o [].
Proof. intros i e H. rewrite lookup_nil in H. done. Qed.

Lemma indexed_one o e : Entry.index e = o + 1 -> indexed o [e].
Proof. intros H [|i] e'; cbn; [intros [= <-]; lia|done]. Qed.

(** ** The loop of [handle_append_entries] *)

Fixpoint merge_log s (entries : list Entry.t) (index : Z) : list Entry.t * bool :=
  match entries with
  | [] => (log_ s, true)
  | e :: entries' =>
      if index <=? log_offset_ s then merge_log s entries' (u64 (index + 1)) else
      if index <=? last_log_index s then
        if negb (term_at s index =? Entry.term e) then
          if index <=? commit_index_ s then (log_ s, false) else
          merge_log (s <| log_ := take (Z.to_nat (u64 (index - log_offset_ s - 1))) (log_ s)
                                  ++ [e] |>) entries' (u64 (index + 1))
        else merge_log s entries' (u64 (index + 1))
      else merge_log (s <| log_ := log_ s ++ [e] |>) entries' (u64 (index + 1))
  end.

(** The entries the loop gives to the WAL. *)
Fixpoint merge_writes s (entries : list Entry.t) (index : Z) : list Entry.t :=
  match entries with
  | [] => []
  | e :: entries' =>
      if index <=? log_offset_ s then merge_writes s entries' (u64 (index + 1)) else
      if index <=? last_log_index s then
        if negb (term_at s index =? Entry.term e) then
          if index <=? commit_index_ s then [] else
          e :: merge_writes (s <| log_ := take (Z.to_nat (u64 (index - log_offset_ s - 1))) (log_ s)
                                    ++ [e] |>) entries' (u64 (index + 1))
        else merge_writes s entries' (u64 (index + 1))
      else e :: merge_writes (s <| log_ := log_ s ++ [e] |>) entries' (u64 (index + 1))
  end.

Lemma merge_log_wal es : forall s i w, merge_log (s <| wal_ := w |>) es i = merge_log s es i.
Proof.
  induction es as [|e es IH]; intros s i w; [done|]. cbn [merge_log].
  change (last_log_index (s <| wal_ := w |>)) with (last_log_index s).
  change (term_at (s <| wal_ := w |>) i) with (term_at s i).
  cbn [log_offset_ commit_index_ log_ set set_wal_].
  repeat case_match; try done; try apply IH.
  - rewrite <- (IH (s <| log_ := _ |>) _ w). by destruct s.
  - rewrite <- (IH (s <| log_ := _ |>) _ w). by destruct s.
Qed.

Lemma wp_append_entry e Q E s :
  (forall w, Q tt (s <| log_ := log_ s ++ [e] |> <| wal_ := w |>)) ->
  (forall x w, E x (s <| log_ := log_ s ++ [e] |> <| wal_ := w |>)) ->
  wp (append_entry e) Q E s.
Proof.
  intros HQ HE. unfold append_entry, save_entry_now. repeat wp_step.
  apply wp_if_wal; auto.
Qed.

Lemma wp_append_loop es : forall i Q E s,
  (forall w, Q (snd (merge_log s es i)) (s <| log_ := fst (merge_log s es i) |> <| wal_ := w |>)) ->
  (forall x l w, E x (s <| log_ := l |> <| wal_ := w |>)) ->
  wp (append_loop es i) Q E s.
Proof.
  induction es as [|e es IH]; intros i Q E s HQ HE; cbn [append_loop merge_log] in *.
  - specialize (HQ (wal_ s)). apply wp_ret. by destruct s.
  - apply wp_bind, wp_get. repeat (case_match; try by apply IH).
    + specialize (HQ (wal_ s)). apply wp_ret. by destruct s.
    + repeat wp_step. apply wp_append_entry.
      * intros w. apply IH.
        -- intros w'. rewrite merge_log_wal. specialize (HQ w'). by destruct s.
        -- intros x l w'. specialize (HE x l w'). by destruct s.
      * intros x w. specialize (HE x (take (Z.to_nat (u64 (i - log_offset_ s - 1))) (log_ s) ++ [e]) w).
        by destruct s.
    + repeat wp_step. apply wp_append_entry.
      * intros w. apply IH.
        -- intros w'. rewrite merge_log_wal. specialize (HQ w'). by destruct s.
        -- intros x l w'. specialize (HE x l w'). by destruct s.
      * intros x w. apply HE.
Qed.

(** Once past the end of the log, every entry is appended. *)
Lemma merge_log_append es : forall s i,
  0 <= log_offset_ s -> i + zlen es < u64_max ->
  i = log_offset_ s + zlen (log_ s) + 1 ->
  merge_log s es i = (log_ s ++ es, true) /\ merge_writes s es i = es.
Proof.
  induction es as [|e es IH]; intros s i H0 Hb ->; cbn [merge_log merge_writes].
  { by rewrite app_nil_r. }
  rewrite zlen_cons in Hb. pose proof (zlen_nonneg (log_ s)). pose proof (zlen_nonneg es).
  unfold last_log_index. rewrite (u64_small (log_offset_ s + zlen (log_ s))),
    (u64_small (log_offset_ s + zlen (log_ s) + 1 + 1)) by (unfold_words; lia).
  destruct (Z.leb_spec (log_offset_ s + zlen (log_ s) + 1) (log_offset_ s)); [lia|].
  destruct (Z.leb_spec (log_offset_ s + zlen (log_ s) + 1) (log_offset_ s + zlen (log_ s))); [lia|].
  destruct (IH (s <| log_ := log_ s ++ [e] |>) (log_offset_ s + zlen (log_ s) + 1 + 1)) as [-> ->];
    cbn; rewrite ?zlen_app, ?zlen_cons; change (zlen (@nil Entry.t)) with 0; try lia.
  by rewrite <- app_assoc.
Qed.

(** ** What the loop does *)

(** The sent entries that overlap the log above the offset have its terms. *)
Definition overlap_matches s (es : list Entry.t) (i : Z) (n : nat) : Prop :=
  forall j e, (j < n)%nat -> es !! j = Some e -> log_offset_ s < i + Z.of_nat j ->
    exists e', entry_at s (i + Z.of_nat j) = Some e' /\ Entry.term e' = Entry.term e.

(** The new log, whether the loop ran to its end, and what went to the WAL. *)
Inductive merge_result s (es : list Entry.t) (i : Z)
    : list Entry.t * bool -> list Entry.t -> Prop :=
| merge_kept :
    (* nothing new: the log has all the entries *)
    overlap_matches s es i (length es) ->
    merge_result s es i (log_ s, true) []
| merge_refused j e e' :
    (* an entry contradicts a committed one *)
    overlap_matches s es i j -> es !! j = Some e ->
    entry_at s (i + Z.of_nat j) = Some e' -> Entry.term e' <> Entry.term e ->
    i + Z.of_nat j <= commit_index_ s ->
    merge_result s es i (log_ s, false) []
| merge_replaced j k :
    (* from entry [j] on, the entries replace what the log had there *)
    overlap_matches s es i j -> (j < length es)%nat ->
    i + Z.of_nat j = log_offset_ s + 1 + Z.of_nat k -> (k <= length (log_ s))%nat ->
    commit_index_ s < i + Z.of_nat j ->
    (forall e e', es !! j = Some e -> entry_at s (i + Z.of_nat j) = Some e' ->
       Entry.term e' <> Entry.term e) ->
    merge_result s es i (take k (log_ s) ++ drop j es, true) (drop j es).

Lemma overlap_matches_S s e es i n :
  (log_offset_ s < i ->
    exists e', entry_at s i = Some e' /\ Entry.term e' = Entry.term e) ->
  overlap_matches s es (i + 1) n -> overlap_matches s (e :: es) i (S n).
Proof.
  intros H0 Hn [|j] e0 Hj He Ho; cbn in He.
  - injection He as <-. rewrite Z.add_0_r in *. auto.
  - replace (i + Z.of_nat (S j)) with (i + 1 + Z.of_nat j) in * by lia.
    apply (Hn j e0); [lia|done|lia].
Qed.

Lemma overlap_matches_0 s es i : overlap_matches s es i 0.
Proof. intros j e Hj. lia. Qed.

(** A first entry that agrees with the log leaves the rest of the work. *)
Lemma merge_result_cons s e es i r ws :
  (log_offset_ s < i ->
    exists e', entry_at s i = Some e' /\ Entry.term e' = Entry.term e) ->
  merge_result s es (i + 1) r ws -> merge_result s (e :: es) i r ws.
Proof.
  intros H0 Hr. destruct Hr as [Hm|j e1 e2 Hm He1 He2 Ht Hc|j k Hm Hj Hk Hl Hc Ht].
  - apply merge_kept. by apply overlap_matches_S.
  - apply (merge_refused _ _ _ (S j) e1 e2); try done.
    + by apply overlap_matches_S.
    + by replace (i + Z.of_nat (S j)) with (i + 1 + Z.of_nat j) by lia.
    + lia.
  - change (drop j es) with (drop (S j) (e :: es)). apply merge_replaced.
    + by apply overlap_matches_S.
    + cbn. lia.
    + lia.
    + done.
    + lia.
    + replace (i + Z.of_nat (S j)) with (i + 1 + Z.of_nat j) by lia. apply Ht.
Qed.

Lemma merge_log_spec es : forall s i,
  wf s -> 0 < i <= log_offset_ s + zlen (log_ s) + 1 -> i + zlen es < u64_max ->
  merge_result s es i (merge_log s es i) (merge_writes s es i).
Proof.
  induction es as [|e es IH]; intros s i Hwf Hi Hb; cbn [merge_log merge_writes].
  { apply merge_kept. intros j e _ H. rewrite lookup_nil in H. done. }
  pose proof Hwf as []. rewrite zlen_cons in Hb.
  pose proof (zlen_nonneg es). pose proof (zlen_nonneg (log_ s)).
  rewrite last_log_index_eq, (u64_small (i + 1)) by (done || unfold_words; lia).
  destruct (Z.leb_spec i (log_offset_ s)) as [Ho|Ho].
  { apply merge_result_cons; [lia|]. apply IH; (done || lia). }
  destruct (Z.leb_spec i (log_offset_ s + zlen (log_ s))) as [Hle|Hgt].
  - destruct (entry_at_is_Some s i ltac:(lia)) as [e' He'].
    rewrite (term_at_entry _ _ _ Hwf He').
    destruct (Z.eqb_spec (Entry.term e') (Entry.term e)) as [Ht|Ht]; cbn [negb].
    { apply merge_result_cons; [eauto|]. apply IH; (done || lia). }
    destruct (Z.leb_spec i (commit_index_ s)) as [Hc|Hc].
    { apply (merge_refused _ _ _ 0 e e'); rewrite ?Z.add_0_r; try done.
      apply overlap_matches_0. }
    rewrite (u64_small (i - log_offset_ s - 1)) by (unfold_words; lia).
    set (k := Z.to_nat (i - log_offset_ s - 1)).
    assert (k <= length (log_ s))%nat as Hk by (subst k; len_lia).
    destruct (merge_log_append es (s <| log_ := take k (log_ s) ++ [e] |>) (i + 1))
      as [-> ->]; cbn; [done|lia| |].
    { rewrite zlen_app, zlen_take, zlen_cons. change (zlen (@nil Entry.t)) with 0.
      subst k. unfold zlen in *. lia. }
    rewrite <- app_assoc. apply (merge_replaced _ _ _ 0 k); rewrite ?Z.add_0_r; try done.
    + apply overlap_matches_0.
    + cbn. lia.
    + subst k. lia.
    + intros ? ? [= <-] ?. congruence.
  - destruct (merge_log_append es (s <| log_ := log_ s ++ [e] |>) (i + 1))
      as [-> ->]; cbn; [done|lia| |].
    { rewrite zlen_app, zlen_cons. change (zlen (@nil Entry.t)) with 0. lia. }
    replace ((log_ s ++ [e]) ++ es) with (take (length (log_ s)) (log_ s) ++ drop 0 (e :: es))
      by (rewrite firstn_all; cbn; by rewrite <- app_assoc).
    apply (merge_replaced _ _ _ 0 (length (log_ s))); rewrite ?Z.add_0_r.
    + apply overlap_matches_0.
    + cbn. lia.
    + unfold zlen in *. lia.
    + done.
    + lia.
    + intros ? ? _ H'%entry_at_Some. lia.
Qed.

End Log.
