(* ===== verification/RaftNode.v ===== *)
(** * One node as a state machine

    [event] lists everything that reaches the consensus core of a running node
    ([NodeRuntime] posts these to the Raft loop) and [step] runs the member
    functions for it.  The file proves what every event preserves ([wf]) and
    how the state may change ([evolves]). *)

From S2P Require Import Prelude Msgpack Proto Crc32 Wal Raft RaftLemmas RaftLog.
Import Raft.

Section Node.
Context {R : Rng} {Env : Type} {WP : WalPack}.
Implicit Types (s : t Env) (msg : Message.t).

(** [NodeRuntime::handle_raft_message]: requests are answered through [send]. *)
Definition deliver msg : M (t Env) unit :=
  let ty := Message.type msg in
  if ty =? Message.MsgRequestVote then handle_request_vote msg ≫= send
  else if ty =? Message.MsgRequestVoteResponse then handle_request_vote_response msg
  else if ty =? Message.MsgPreVote then handle_pre_vote msg ≫= send
  else if ty =? Message.MsgPreVoteResponse then handle_pre_vote_response msg
  else if ty =? Message.MsgAppendEntries then handle_append_entries msg ≫= send
  else if ty =? Message.MsgAppendEntriesResponse then handle_append_entries_response msg
  else if ty =? Message.MsgInstallSnapshot then handle_install_snapshot msg ≫= send
  else if ty =? Message.MsgInstallSnapshotResponse then handle_install_snapshot_response msg
  else mret tt.

Inductive event : Type :=
| Tick
| Receive (msg : Message.t)
| Propose (data : bytes)
| Advance (index : Z)
| TakeSnapshot (index : Z) (state : bytes)
| ReadIndex
| FinishReadIndex (read : ReadIndexToken).

Definition step (ev : event) : M (t Env) unit :=
  match ev with
  | Tick => tick
  | Receive msg => deliver msg
  | Propose data => propose data ;; mret tt
  | Advance index => advance index
  | TakeSnapshot index state => take_snapshot index state
  | ReadIndex => read_index ;; mret tt
  | FinishReadIndex read => finish_read_index read
  end.

(** ** What an event may assume *)

(** Entries numbered after [prev_log_index], with room for one more index. *)
Definition append_ok msg : Prop :=
  0 <= Message.prev_log_index msg /\
  indexed (Message.prev_log_index msg) (Message.entries msg) /\
  Message.prev_log_index msg + 1 + zlen (Message.entries msg) < u64_max.

(** No 64-bit counter is about to wrap. *)
Definition room s : Prop :=
  term_ s + 1 < u64_max /\ log_offset_ s + zlen (log_ s) + 1 < u64_max.

Definition event_ok s (ev : event) : Prop :=
  room s /\
  match ev with
  | Receive msg =>
      (Message.type msg = Message.MsgAppendEntries -> append_ok msg) /\
      (Message.type msg = Message.MsgInstallSnapshot -> is_u64 (Message.snapshot_index msg))
  | _ => True
  end.

(** ** How the state may change *)

Record evolves s s' : Prop := {
  ev_id : id_ s' = id_ s;
  ev_peers : peers_ s' = peers_ s;
  ev_term : term_ s <= term_ s';
  ev_vote : term_ s' = term_ s -> voted_for_ s <> 0 -> voted_for_ s' = voted_for_ s;
  ev_commit : commit_index_ s <= commit_index_ s';
  ev_applied : last_applied_ s <= last_applied_ s';
  ev_offset : log_offset_ s <= log_offset_ s';
  ev_committed : forall i, i <= commit_index_ s -> log_offset_ s' < i ->
    entry_at s' i = entry_at s i;
  ev_leader : state_ s = Leader -> state_ s' = Leader ->
    term_ s' = term_ s /\
    log_offset_ s + zlen (log_ s) <= log_offset_ s' + zlen (log_ s') /\
    forall i, log_offset_ s' < i <= log_offset_ s + zlen (log_ s) ->
      entry_at s' i = entry_at s i;
  ev_failed : storage_failed_ s = true -> storage_failed_ s' = true;
}.

(** A step that leaves the log and its indices alone. *)
Record same_log s s' : Prop := {
  sl_log : log_ s' = log_ s;
  sl_offset : log_offset_ s' = log_offset_ s;
  sl_commit : commit_index_ s' = commit_index_ s;
  sl_applied : last_applied_ s' = last_applied_ s;
  sl_snapshot : last_snapshot_index_ s' = last_snapshot_index_ s;
}.

Lemma same_log_entry_at s s' i : same_log s s' -> entry_at s' i = entry_at s i.
Proof. intros []. unfold entry_at. by rewrite sl_offset0, sl_log0. Qed.

Lemma same_log_wf s s' : same_log s s' -> wf s -> wf s'.
Proof.
  intros [] []. split; rewrite ?sl_log0, ?sl_offset0, ?sl_commit0, ?sl_applied0, ?sl_snapshot0; done.
Qed.

Lemma same_log_evolves s s' :
  same_log s s' -> id_ s' = id_ s -> peers_ s' = peers_ s -> term_ s <= term_ s' ->
  (term_ s' = term_ s -> voted_for_ s <> 0 -> voted_for_ s' = voted_for_ s) ->
  (state_ s = Leader -> state_ s' = Leader -> term_ s' = term_ s) ->
  (storage_failed_ s = true -> storage_failed_ s' = true) -> evolves s s'.
Proof.
  intros Hs Hi Hp Ht Hv Hl Hf. pose proof Hs as [].
  split; rewrite ?sl_log0, ?sl_offset0, ?sl_commit0, ?sl_applied0, ?sl_snapshot0;
    try done; try lia.
  - intros i _ _. by apply same_log_entry_at.
  - intros H1 H2. split_and!; [auto|lia|]. intros i _. by apply same_log_entry_at.
Qed.

End Node.

(** ** Symbolic execution *)

Ltac raft_rule :=
  lazymatch goal with
  | |- wp reset_randomized_election_timeout _ _ _ =>
      apply wp_reset_timeout; intros ? ?
  | |- wp (if_wal _) _ _ _ => apply wp_if_wal; [intros ?|intros ? ?]
  | |- wp sync_wal _ _ _ => apply wp_sync_wal; [intros ?|intros ?|intros ? ?]
  | |- wp persist_hard_state _ _ _ => apply wp_persist; [intros ?|intros ?|intros ? ?]
  | |- wp (push_msg _) _ _ _ => apply wp_push_msg
  | |- wp (send _) _ _ _ => apply wp_push_msg
  | |- wp (reply _) _ _ _ => apply wp_reply
  | |- wp broadcast_heartbeat _ _ _ => apply wp_broadcast; intros ? ?
  | |- wp (become_follower _ _) _ _ _ =>
      apply wp_become_follower; [intros ?|intros ? ? ? ? ? ? ?|intros ? ? ? ? ?]
  | |- wp become_candidate _ _ _ =>
      apply wp_become_candidate; [intros ? ? ? ? ?|intros ? ? ? ?]
  | |- wp (append_entry _) _ _ _ => apply wp_append_entry; [intros ?|intros ? ?]
  | |- wp (append_loop _ _) _ _ _ => apply wp_append_loop; [intros ?|intros ? ? ?]
  | |- wp pre_campaign _ _ _ => unfold wp; rewrite pre_campaign_eq
  | |- wp campaign _ _ _ => unfold wp; rewrite campaign_eq
  | |- wp become_leader _ _ _ => unfold wp; rewrite become_leader_eq
  end; cbv beta iota.

Ltac raft_steps := repeat first [wp_step | raft_rule].
