(* ===== verification/Runtime.v ===== *)
(** * The node process ([NodeRuntime::Impl] of [src/app/node_runtime.cpp])

    A node is three event loops: [raft_io_] owns the Raft core, [store_io_]
    owns the key-value store and the clients, [peer_io_] the connections to the
    other members.  They hand work to each other with [boost::asio::post], so
    the state has the queues of posted handlers, and a run of the node is a
    sequence of handlers taken from the queues, timers and arrivals.

    The Raft core calls back into [Impl] to restore a snapshot, so [Impl]'s
    other data members are the environment of that callback: the whole object
    is a [Raft.t Impl.t].  Times, the outcome of a send to a peer and the
    outcome of the bounded wait for a snapshot restore are inputs. *)

From S2P Require Import Prelude Text Msgpack Proto Wal KvStore RespCodec NodeConfig Raft RaftNode.

(** ** Data members *)

(** Handlers posted to [raft_io_]. *)
Inductive raft_task : Type :=
| HandleMessage (message : Message.t)
| ProposeTask (request_id : Z) (bytes : bytes)
| ReadTask (request_id : Z)
| AppliedTask (index : Z)
| CancelTask (request_id : Z)
| SnapshotTask (index : Z) (state : bytes)
| StopTask.

(** Handlers posted to [store_io_]. *)
Inductive store_task : Type :=
| RejectWrite (request_id : Z) (error : bytes)
| RejectRead (request_id : Z) (error : bytes)
| CompleteRead (request_id : Z)
| ApplyTask (entry : Entry.t)
| CaptureTask
| RestoreTask (index : Z) (state : bytes)
| StopStoreTask.

(** A reply callback, named by the call it answers. *)
Definition ReplyCallback : Type := Z.

Record PendingWrite : Type := MkPendingWrite {
  write_reply : ReplyCallback;
  write_deadline : Z;
}.

Record PendingRead : Type := MkPendingRead {
  read_key : bytes;
  read_reply : ReplyCallback;
  read_deadline : Z;
}.

(** What [Peer::send] does with a message. *)
Inductive send_outcome : Type :=
| send_accepted
| send_queue_full
| send_throws.

Module Impl.

Record t : Type := mk {
  config_ : NodeConfig.t;
  raft_io_ : list raft_task;
  store_io_ : list store_task;
  store_ : KVStore.t;
  pending_writes_ : gmap Z PendingWrite;
  pending_reads_ : gmap Z PendingRead;
  raft_read_indexes_ : gmap Z Raft.ReadIndexToken;
  next_request_id_ : Z;
  store_applied_index_ : Z;
  apply_in_flight_ : option Z;
  snapshot_capture_pending_ : bool;
  logged_state_ : Raft.State;
  logged_term_ : Z;
  logged_leader_ : Z;
  stopping_ : bool;
  exit_code_ : Z;
  (* whether the loops have been told to return at once *)
  loops_stopped : bool;
  (* outputs: replies to clients and messages handed to the peers *)
  replies : list (ReplyCallback * bytes);
  sent : list Message.t;
  cout : list bytes;  (* lines of the standard output *)
  (* inputs: the outcomes of the next sends and of the next waits, the default
     being that they succeed *)
  sends : list send_outcome;
  waits : list bool;
  (* the order in which the store's map iterates *)
  iteration : gmap bytes bytes -> list (bytes * bytes);
}.

Definition eta (s : t) : t :=
  mk (config_ s) (raft_io_ s) (store_io_ s) (store_ s) (pending_writes_ s) (pending_reads_ s)
    (raft_read_indexes_ s) (next_request_id_ s) (store_applied_index_ s) (apply_in_flight_ s)
    (snapshot_capture_pending_ s) (logged_state_ s) (logged_term_ s) (logged_leader_ s) (stopping_ s)
    (exit_code_ s) (loops_stopped s) (replies s) (sent s) (cout s) (sends s) (waits s) (iteration s).
#[global] Instance set_raft_io_ : Setter raft_io_ := ltac:(setter eta raft_io_).
#[global] Instance set_store_io_ : Setter store_io_ := ltac:(setter eta store_io_).
#[global] Instance set_store_ : Setter store_ := ltac:(setter eta store_).
#[global] Instance set_pending_writes_ : Setter pending_writes_ := ltac:(setter eta pending_writes_).
#[global] Instance set_pending_reads_ : Setter pending_reads_ := ltac:(setter eta pending_reads_).
#[global] Instance set_raft_read_indexes_ : Setter raft_read_indexes_ :=
  ltac:(setter eta raft_read_indexes_).
#[global] Instance set_next_request_id_ : Setter next_request_id_ :=
  ltac:(setter eta next_request_id_).
#[global] Instance set_store_applied_index_ : Setter store_applied_index_ :=
  ltac:(setter eta store_applied_index_).
#[global] Instance set_apply_in_flight_ : Setter apply_in_flight_ :=
  ltac:(setter eta apply_in_flight_).
#[global] Instance set_snapshot_capture_pending_ : Setter snapshot_capture_pending_ :=
  ltac:(setter eta snapshot_capture_pending_).
#[global] Instance set_logged_state_ : Setter logged_state_ := ltac:(setter eta logged_state_).
#[global] Instance set_logged_term_ : Setter logged_term_ := ltac:(setter eta logged_term_).
#[global] Instance set_logged_leader_ : Setter logged_leader_ := ltac:(setter eta logged_leader_).
#[global] Instance set_stopping_ : Setter stopping_ := ltac:(setter eta stopping_).
#[global] Instance set_exit_code_ : Setter exit_code_ := ltac:(setter eta exit_code_).
#[global] Instance set_loops_stopped : Setter loops_stopped := ltac:(setter eta loops_stopped).
#[global] Instance set_replies : Setter replies := ltac:(setter eta replies).
#[global] Instance set_sent : Setter sent := ltac:(setter eta sent).
#[global] Instance set_cout : Setter cout := ltac:(setter eta cout).
#[global] Instance set_sends : Setter sends := ltac:(setter eta sends).
#[global] Instance set_waits : Setter waits := ltac:(setter eta waits).

End Impl.

Import Impl.

Definition kRequestTimeout : Z := 5000.

(** ** The store's loop *)

Section Store.
Context {CP : MsgPack Command.t} {MP : MapPack}.

Definition post_raft (task : raft_task) : M Impl.t unit :=
  s ← get; raft_io_ <~ raft_io_ s ++ [task].

Definition post_store (task : store_task) : M Impl.t unit :=
  s ← get; store_io_ <~ store_io_ s ++ [task].

Definition reply_to (reply : ReplyCallback) (encoded : bytes) : M Impl.t unit :=
  s ← get; replies <~ replies s ++ [(reply, encoded)].

Definition request_stop (reason : bytes) : M Impl.t unit :=
  when (negb (bool_decide (reason = []))) (exit_code_ <~ 1) ;;
  s ← get;
  if stopping_ s then mret tt else
  stopping_ <~ true ;;
  post_raft StopTask.

Definition reject_write (request_id : Z) (error : bytes) : M Impl.t unit :=
  s ← get;
  match pending_writes_ s !! request_id with
  | None => mret tt
  | Some pending =>
      pending_writes_ <~ delete request_id (pending_writes_ s) ;;
      encoded ← lift (Resp.encode_error error);
      reply_to (write_reply pending) encoded
  end.

Definition reject_read (request_id : Z) (error : bytes) : M Impl.t unit :=
  s ← get;
  match pending_reads_ s !! request_id with
  | None => mret tt
  | Some pending =>
      pending_reads_ <~ delete request_id (pending_reads_ s) ;;
      encoded ← lift (Resp.encode_error error);
      reply_to (read_reply pending) encoded
  end.

Definition complete_read (request_id : Z) : M Impl.t unit :=
  s ← get;
  match pending_reads_ s !! request_id with
  | None => mret tt
  | Some pending =>
      let '(found, value) := KVStore.get (read_key pending) [] (store_ s) in
      pending_reads_ <~ delete request_id (pending_reads_ s) ;;
      reply_to (read_reply pending)
        (if found : bool then Resp.encode_bulk_string value else Resp.encode_nil_bulk_string)
  end.

(** [static_cast<std::int64_t>]. *)
Definition i64 (x : Z) : Z := if x <? 2 ^ 63 then x else x - u64_max.

Definition complete_write (result : KVStore.ApplyResult) : M Impl.t unit :=
  s ← get;
  match pending_writes_ s !! KVStore.request_id result with
  | None => mret tt
  | Some pending =>
      pending_writes_ <~ delete (KVStore.request_id result) (pending_writes_ s) ;;
      if KVStore.type result =? CommandType.Set_ then
        encoded ← lift (Resp.encode_simple_string (str "OK"));
        reply_to (write_reply pending) encoded
      else reply_to (write_reply pending) (Resp.encode_integer (i64 (KVStore.affected result)))
  end.

Definition acknowledge_applied (index : Z) : M Impl.t unit := post_raft (AppliedTask index).

Definition apply_committed_entry (entry : Entry.t) : M Impl.t unit :=
  s ← get;
  if stopping_ s then mret tt else
  if Entry.index entry <=? store_applied_index_ s
  then acknowledge_applied (Entry.index entry) else
  if negb (Entry.index entry =? u64 (store_applied_index_ s + 1))
  then request_stop (str "state-machine apply handoff contains an index gap") else
  if (Entry.type entry =? Entry.EntryNormal) && negb (bool_decide (Entry.data entry = [])) then
    let '(outcome, store) := KVStore.apply entry (store_ s) in
    store_ <~ store ;;
    match outcome with
    | Throw _ => request_stop (str "state-machine apply failed")
    | Ok result =>
        when (KVStore.origin_node result =? NodeConfig.id (config_ s)) (complete_write result) ;;
        store_applied_index_ <~ Entry.index entry ;;
        acknowledge_applied (Entry.index entry)
    end
  else
    store_applied_index_ <~ Entry.index entry ;;
    acknowledge_applied (Entry.index entry).

Definition capture_snapshot : M Impl.t unit :=
  s ← get;
  post_raft (SnapshotTask (store_applied_index_ s)
    (KVStore.serialize (iteration s (KVStore.store_ (store_ s))))).

(** The handler [restore_snapshot] posts: whether the promise becomes [true]. *)
Definition restore_store (index : Z) (state : bytes) : M Impl.t bool :=
  s ← get;
  match KVStore.deserialize state (store_ s) with
  | (Ok _, store) =>
      store_ <~ store ;; store_applied_index_ <~ index ;; mret true
  | (Throw _, store) => store_ <~ store ;; mret false
  end.

Definition stopping_error : bytes := str "TRYAGAIN node stopping".

Definition stop_store : M Impl.t unit :=
  s ← get;
  encoded ← lift (Resp.encode_error stopping_error);
  for_each (snd <$> map_to_list (pending_writes_ s))
    (fun pending => reply_to (write_reply pending) encoded) ;;
  pending_writes_ <~ ∅ ;;
  for_each (snd <$> map_to_list (pending_reads_ s))
    (fun pending => reply_to (read_reply pending) encoded) ;;
  pending_reads_ <~ ∅.

Definition run_store_task (task : store_task) : M Impl.t unit :=
  match task with
  | RejectWrite request_id error => reject_write request_id error
  | RejectRead request_id error => reject_read request_id error
  | CompleteRead request_id => complete_read request_id
  | ApplyTask entry => apply_committed_entry entry
  | CaptureTask => capture_snapshot
  | RestoreTask index state => restore_store index state ;; mret tt
  | StopStoreTask => stop_store
  end.

(** ** Client commands, on the store's loop *)

Definition uppercase_ascii (value : bytes) : bytes :=
  (fun b => if (97 <=? b2z b) && (b2z b <=? 122) then z2b (b2z b - 32) else b) <$> value.

(** One level of recursion is enough: the identifier after 0 is 1. *)
Definition allocate_request_id : M Impl.t Z :=
  let allocate : M Impl.t Z :=
    s ← get;
    let allocated := next_request_id_ s in
    next_request_id_ <~ u64 (allocated + 1) ;;
    s ← get;
    when (next_request_id_ s =? 0) (next_request_id_ <~ 1) ;;
    mret allocated in
  allocated ← allocate;
  if allocated =? 0 then allocate else mret allocated.

(** [emplace] keeps an entry that is already there. *)
Definition emplace {A} (key : Z) (value : A) (m : gmap Z A) : gmap Z A :=
  match m !! key with Some _ => m | None => <[key := value]> m end.

Definition pack_command (command : Command.t) : bytes := pack command.

Definition begin_write (command : Command.t) (reply : ReplyCallback) (now : Z) : M Impl.t unit :=
  request_id ← allocate_request_id;
  s ← get;
  let command := Command.mk (Command.type command) (Command.strs command)
    (NodeConfig.id (config_ s)) request_id in
  pending_writes_ <~ emplace request_id (MkPendingWrite reply (now + kRequestTimeout))
    (pending_writes_ s) ;;
  post_raft (ProposeTask request_id (pack_command command)).

Definition begin_read (key : bytes) (reply : ReplyCallback) (now : Z) : M Impl.t unit :=
  request_id ← allocate_request_id;
  s ← get;
  pending_reads_ <~ emplace request_id (MkPendingRead key reply (now + kRequestTimeout))
    (pending_reads_ s) ;;
  post_raft (ReadTask request_id).

Definition reply_error (reply : ReplyCallback) (error : bytes) : M Impl.t unit :=
  encoded ← lift (Resp.encode_error error); reply_to reply encoded.

Definition wrong_arguments (name : string) : bytes :=
  str "ERR wrong number of arguments for '" ++ str name ++ str "' command".

Definition handle_client_command (command : Resp.RespCommand) (reply : ReplyCallback) (now : Z)
    : M Impl.t unit :=
  match Resp.arguments command with
  | [] => reply_error reply (str "ERR empty command")
  | front :: rest =>
      let name := uppercase_ascii front in
      if decide (name = str "PING") then
        match rest with
        | [] => encoded ← lift (Resp.encode_simple_string (str "PONG")); reply_to reply encoded
        | [value] => reply_to reply (Resp.encode_bulk_string value)
        | _ => reply_error reply (wrong_arguments "ping")
        end
      else if decide (name = str "GET") then
        match rest with
        | [key] => begin_read key reply now
        | _ => reply_error reply (wrong_arguments "get")
        end
      else if decide (name = str "SET") then
        match rest with
        | [key; value] =>
            begin_write (Command.mk CommandType.Set_ [key; value] 0 0) reply now
        | _ => reply_error reply (wrong_arguments "set")
        end
      else if decide (name = str "DEL") then
        match rest with
        | [] => reply_error reply (wrong_arguments "del")
        | keys => begin_write (Command.mk CommandType.Del keys 0 0) reply now
        end
      else reply_error reply (str "ERR unknown command '" ++ front ++ str "'")
  end.

(** The timer that ends requests past their deadline. *)
Definition expire_client_requests (now : Z) : M Impl.t unit :=
  s ← get;
  for_each (fst <$> filter (fun p => write_deadline (snd p) <= now) (map_to_list (pending_writes_ s)))
    (fun request_id => reject_write request_id (str "TRYAGAIN write outcome unknown")) ;;
  s ← get;
  for_each (fst <$> filter (fun p => read_deadline (snd p) <= now) (map_to_list (pending_reads_ s)))
    (fun request_id =>
       reject_read request_id (str "TRYAGAIN read quorum unavailable") ;;
       post_raft (CancelTask request_id)).

(** The [catch] of [run_context]: an exception in any loop ends them all. *)
Definition loop_failed : M Impl.t unit :=
  exit_code_ <~ 1 ;; stopping_ <~ true ;; loops_stopped <~ true.

(** ** The snapshot callback

    It runs on the Raft loop and waits for the store's loop.  When the wait
    succeeds, the store's loop has run everything posted before. *)
Definition restore_snapshot (index : Z) (snapshot : bytes) (s : Impl.t) : bool * Impl.t :=
  if bool_decide (is_Some (apply_in_flight_ s)) || stopping_ s then (false, s) else
  let '(ready, rest) := match waits s with [] => (true, []) | w :: ws => (w, ws) end in
  let s := s <| waits := rest |> in
  if ready : bool then
    match for_each (store_io_ s) run_store_task (s <| store_io_ := [] |>) with
    | (Throw _, s') => (false, snd (loop_failed s'))
    | (Ok _, s') =>
        match restore_store index snapshot s' with
        | (Ok restored, s'') => (restored, s'')
        | (Throw _, s'') => (false, snd (loop_failed s''))
        end
    end
  else
    (false, snd ((post_store (RestoreTask index snapshot) ;;
                  request_stop (str "snapshot restore timed out")) s)).

End Store.

(** ** The Raft loop *)

Section RaftLoop.
Context {R : Rng} {WP : WalPack} {CP : MsgPack Command.t} {MP : MapPack}.
Abbreviation node := (Raft.t Impl.t).
Import Raft.

(** [Impl]'s own members, from the Raft loop. *)
Definition on_impl {A} (m : M Impl.t A) : M node A := fun s =>
  let '(r, i) := m (restore_env s) in (r, s <| restore_env := i |>).

Definition impl : M node Impl.t := s ← get; mret (restore_env s).

Definition not_leader_error (s : node) : bytes :=
  if lead_ s =? 0 then str "NOT_LEADER UNKNOWN"
  else str "NOT_LEADER " ++ to_string (lead_ s).

Definition dispatch_next_committed_entry : M node unit :=
  s ← get;
  i ← impl;
  if bool_decide (is_Some (apply_in_flight_ i)) || stopping_ i then mret tt else
  match next_entry_to_apply s with
  | None => mret tt
  | Some entry =>
      on_impl (apply_in_flight_ <~ Some (Entry.index entry) ;; post_store (ApplyTask entry))
  end.

Definition same_token (a b : ReadIndexToken) : bool :=
  (context a =? context b) && (safe_index a =? safe_index b).

(** The first ready token in iteration order; all ready tokens are equal. *)
Definition poll_read_indexes : M node unit :=
  s ← get;
  i ← impl;
  let pending := map_to_list (raft_read_indexes_ i) in
  if decide (pending = []) then mret tt else
  if negb (bool_decide (state_ s = Leader)) then
    on_impl (raft_read_indexes_ <~ ∅ ;;
             for_each (fst <$> pending)
               (fun request_id => post_store (RejectRead request_id (not_leader_error s))))
  else
    match filter (fun p => read_index_ready s (snd p) = true) pending with
    | [] => mret tt
    | (_, ready_read) :: _ =>
        let completed := filter (fun p => same_token (snd p) ready_read = true) pending in
        on_impl (raft_read_indexes_ <~
          filter (fun p => same_token (snd p) ready_read = false) (raft_read_indexes_ i)) ;;
        finish_read_index ready_read ;;
        on_impl (for_each (fst <$> completed)
                   (fun request_id => post_store (CompleteRead request_id)))
    end.

Definition maybe_capture_snapshot : M node unit :=
  s ← get;
  i ← impl;
  if snapshot_capture_pending_ i || negb (should_snapshot s) then mret tt else
  on_impl (snapshot_capture_pending_ <~ true ;; post_store CaptureTask).

Definition next_send : M Impl.t send_outcome :=
  i ← get;
  match sends i with
  | [] => mret send_accepted
  | o :: os => sends <~ os ;; mret o
  end.

Fixpoint flush_loop (messages : list Message.t) : M Impl.t unit :=
  match messages with
  | [] => mret tt
  | message :: messages' =>
      i ← get;
      if negb (bool_decide (Message.to message ∈ (peer_id <$> NodeConfig.peers (config_ i))))
      then flush_loop messages' else
      outcome ← next_send;
      match outcome with
      | send_accepted =>
          i ← get; sent <~ sent i ++ [message] ;; flush_loop messages'
      | send_queue_full => request_stop (str "peer transport outbound queue exhausted")
      | send_throws => request_stop (str "peer transport encode failed")
      end
  end.

Definition flush_raft_messages : M node unit :=
  messages ← read_messages; on_impl (flush_loop messages).

Definition state_name (state : State) : bytes :=
  match state with
  | Follower => str "Follower"
  | PreCandidate => str "PreCandidate"
  | Candidate => str "Candidate"
  | Leader => str "Leader"
  end.

(** One line of the standard output, without its end. *)
Definition print (line : bytes) : M Impl.t unit := i ← get; cout <~ cout i ++ [line].

Definition log_status_if_changed (force : bool) : M node unit :=
  s ← get;
  i ← impl;
  if negb force && bool_decide (state_ s = logged_state_ i) && (term_ s =? logged_term_ i) &&
     (lead_ s =? logged_leader_ i)
  then mret tt else
  on_impl (
    logged_state_ <~ state_ s ;;
    logged_term_ <~ term_ s ;;
    logged_leader_ <~ lead_ s ;;
    print (str "node " ++ to_string (NodeConfig.id (config_ i)) ++ str " state=" ++ state_name (state_ s) ++
           str " term=" ++ to_string (term_ s) ++ str " leader=" ++
           (if lead_ s =? 0 then str "unknown" else to_string (lead_ s)))).

Definition after_raft_activity : M node unit :=
  s ← get;
  if storage_failed_ s then on_impl (request_stop (str "WAL synchronization failed")) else
  dispatch_next_committed_entry ;;
  poll_read_indexes ;;
  maybe_capture_snapshot ;;
  flush_raft_messages ;;
  log_status_if_changed false.

Definition known_type (ty : Z) : bool :=
  (Message.MsgRequestVote <=? ty) && (ty <=? Message.MsgInstallSnapshotResponse).

Definition handle_raft_message (message : Message.t) : M node unit :=
  if negb (known_type (Message.type message)) then mret tt else
  deliver message ;; after_raft_activity.

Definition propose_task (request_id : Z) (data : bytes) : M node unit :=
  accepted ← propose data;
  s ← get;
  (match accepted with
   | None =>
       on_impl (post_store (RejectWrite request_id
         (if storage_failed_ s then str "TRYAGAIN storage unavailable" else not_leader_error s)))
   | Some _ => mret tt
   end) ;;
  after_raft_activity.

Definition read_task (request_id : Z) : M node unit :=
  read ← read_index;
  s ← get;
  (match read with
   | None => on_impl (post_store (RejectRead request_id (not_leader_error s)))
   | Some token =>
       on_impl (i ← get; raft_read_indexes_ <~ <[request_id := token]> (raft_read_indexes_ i))
   end) ;;
  after_raft_activity.

Definition applied_task (index : Z) : M node unit :=
  s ← get;
  i ← impl;
  if index <=? last_applied_ s then mret tt else
  if negb (bool_decide (apply_in_flight_ i = Some index)) ||
     negb (index =? u64 (last_applied_ s + 1))
  then on_impl (request_stop (str "state-machine apply acknowledgment is out of order")) else
  advance index ;;
  s ← get;
  if negb (last_applied_ s =? index)
  then on_impl (request_stop (str "state-machine apply acknowledgment was rejected")) else
  on_impl (apply_in_flight_ <~ None) ;;
  after_raft_activity.

Definition cancel_raft_read (request_id : Z) : M node unit :=
  i ← impl;
  match raft_read_indexes_ i !! request_id with
  | None => mret tt
  | Some read =>
      let rest := delete request_id (raft_read_indexes_ i) in
      on_impl (raft_read_indexes_ <~ rest) ;;
      if bool_decide (Exists (fun p => same_token (snd p) read = true) (map_to_list rest))
      then mret tt else finish_read_index read
  end.

Definition snapshot_task (index : Z) (state : bytes) : M node unit :=
  on_impl (snapshot_capture_pending_ <~ false) ;;
  i ← impl;
  if stopping_ i then mret tt else
  take_snapshot index state ;; after_raft_activity.

(** The lambdas posted to [raft_io_], with their checks of [stopping_]. *)
Definition run_raft_task (task : raft_task) : M node unit :=
  i ← impl;
  match task with
  | HandleMessage message => if stopping_ i then mret tt else handle_raft_message message
  | ProposeTask request_id data => if stopping_ i then mret tt else propose_task request_id data
  | ReadTask request_id => if stopping_ i then mret tt else read_task request_id
  | AppliedTask index => if stopping_ i then mret tt else applied_task index
  | CancelTask request_id => cancel_raft_read request_id
  | SnapshotTask index state => snapshot_task index state
  | StopTask => on_impl (post_store StopStoreTask)
  end.

(** The timer of [schedule_tick]. *)
Definition tick_timer : M node unit :=
  i ← impl;
  if stopping_ i then mret tt else tick ;; after_raft_activity.

(** ** A run of the process *)

(** What the loops, timers, clients and connections can do next. *)
Inductive node_event : Type :=
| RunRaft
| RunStore
| TickTimer
| RequestTimer (now : Z)
| ClientCommand (command : Resp.RespCommand) (reply : ReplyCallback) (now : Z)
| Arrival (message : Message.t)
| Signal.

(** A handler of one of the loops, inside [run_context]. *)
Definition in_loop (m : M node unit) : M node unit := fun s =>
  match m s with
  | (Ok _, s') => (Ok tt, s')
  | (Throw _, s') => on_impl loop_failed s'
  end.

Definition run_event (ev : node_event) : M node unit :=
  i ← impl;
  if loops_stopped i then mret tt else
  match ev with
  | RunRaft =>
      match raft_io_ i with
      | [] => mret tt
      | task :: tasks => on_impl (raft_io_ <~ tasks) ;; in_loop (run_raft_task task)
      end
  | RunStore =>
      match store_io_ i with
      | [] => mret tt
      | task :: tasks => on_impl (store_io_ <~ tasks) ;; in_loop (on_impl (run_store_task task))
      end
  | TickTimer => in_loop tick_timer
  | RequestTimer now =>
      if stopping_ i then mret tt else in_loop (on_impl (expire_client_requests now))
  | ClientCommand command reply now =>
      (* an exception closes the client's session and nothing else *)
      fun s => (Ok tt, snd (on_impl (handle_client_command command reply now) s))
  | Arrival message => on_impl (post_raft (HandleMessage message))
  | Signal => on_impl (request_stop [])
  end.

(** ** Start *)

(** Recovery works on the new node and on its data directory. *)
Record Boot : Type := MkBoot { boot_node : node; boot_disk : Disk.t }.

Definition eta_boot (b : Boot) : Boot := MkBoot (boot_node b) (boot_disk b).
#[global] Instance set_boot_node : Setter boot_node := ltac:(setter eta_boot boot_node).
#[global] Instance set_boot_disk : Setter boot_disk := ltac:(setter eta_boot boot_disk).

Definition on_node {A} (m : M node A) : M Boot A := fun b =>
  let '(r, n) := m (boot_node b) in (r, b <| boot_node := n |>).

(** [path::extension() == ".wal"]: a name that is only [.wal] has none. *)
Definition contains_wal_file (d : Disk.t) : bool :=
  bool_decide (Exists (fun name => WalName.has_wal_suffix name = true /\ 4 < zlen name)
    (fst <$> map_to_list (Disk.files d))).

(** [recovered_wal->recover(...)]: what it leaves on disk stays there when it
    throws. *)
Definition recover_wal (w : WAL.t) : M Boot (WAL.recovered * WAL.t) := fun b =>
  match WAL.recover [] (Some SnapshotMeta.default) w with
  | (Ok r, w') => (Ok (r, w'), b <| boot_disk := WAL.disk_ w' |>)
  | (Throw e, w') => (Throw e, b <| boot_disk := WAL.disk_ w' |>)
  end.

(** The loop that applies the committed entries. *)
Fixpoint replay_committed (snapshot_index : Z) (entries : list Entry.t) : M node unit :=
  match entries with
  | [] => mret tt
  | entry :: entries' =>
      s ← get;
      i ← impl;
      if Entry.index entry <=? snapshot_index then replay_committed snapshot_index entries' else
      if Entry.index entry >? commit_index_ s then mret tt else
      if negb (Entry.index entry =? u64 (store_applied_index_ i + 1))
      then throw (runtime_error "committed WAL replay contains an index gap") else
      when ((Entry.type entry =? Entry.EntryNormal) && negb (bool_decide (Entry.data entry = [])))
        (on_impl (fun i => let '(r, store) := KVStore.apply entry (store_ i) in
                           (match r with Ok _ => Ok tt | Throw e => Throw e end,
                            i <| store_ := store |>))) ;;
      on_impl (store_applied_index_ <~ Entry.index entry) ;;
      advance (Entry.index entry) ;;
      replay_committed snapshot_index entries'
  end.

Definition restore_state (r : WAL.recovered) : M node unit :=
  let snapshot := default SnapshotMeta.default (WAL.snapshot r) in
  when (negb (SnapshotMeta.is_empty snapshot))
    (on_impl (fun i => let '(r, store) := KVStore.deserialize (SnapshotMeta.state snapshot) (store_ i) in
                       (r, i <| store_ := store |>)) ;;
     on_impl (store_applied_index_ <~ SnapshotMeta.index snapshot)) ;;
  restore (WAL.hs r) (WAL.entries r) snapshot ;;
  replay_committed (SnapshotMeta.index snapshot) (WAL.entries r) ;;
  s ← get;
  i ← impl;
  if negb (store_applied_index_ i =? commit_index_ s)
  then throw (runtime_error "WAL is missing committed state-machine data") else
  on_impl (print (str "node " ++ to_string (NodeConfig.id (config_ i)) ++ str " recovered term=" ++
                  to_string (term_ s) ++ str " commit=" ++ to_string (commit_index_ s) ++
                  str " snapshot=" ++ to_string (SnapshotMeta.index snapshot))).

Definition recover_storage : M Boot unit :=
  b ← get;
  let d := boot_disk b in
  if contains_wal_file d then
    match WAL.open d with
    | None => throw (runtime_error "failed to open existing WAL")
    | Some w =>
        '(r, w) ← recover_wal w;
        on_node (restore_state r) ;;
        on_node (set_wal w)
    end
  else
    if negb (bool_decide (Disk.files d = ∅))
    then throw (runtime_error "data WAL directory is nonempty but contains no usable WAL") else
    match WAL.create d with
    | None => throw (runtime_error "failed to create WAL")
    | Some w => boot_disk <~ WAL.disk_ w ;; on_node (set_wal w)
    end.

(** [initial_request_id], with the values of the random device and the clock. *)
Definition initial_request_id (node_id device1 device2 now : Z) : Z :=
  let value := Z.lxor (Z.lxor (Z.lxor (u64 (Z.shiftl device1 32)) (u64 device2)) (u64 now))
                 (u64 (node_id * 0x9e3779b97f4a7c15)) in
  if value =? 0 then 1 else value.

(** What the constructor reads of the machine: random devices, clocks, the
    iteration order of maps and the outcomes of later sends and waits. *)
Record Machine : Type := MkMachine {
  seed_devices : Z * Z;
  seed_clock : Z;
  id_devices : Z * Z;
  id_clock : Z;
  machine_sends : list send_outcome;
  machine_waits : list bool;
  machine_iteration : gmap bytes bytes -> list (bytes * bytes);
}.

Definition initial_impl (config : NodeConfig.t) (m : Machine) : Impl.t :=
  Impl.mk config [] [] KVStore.empty ∅ ∅ ∅
    (initial_request_id (NodeConfig.id config) (id_devices m).1 (id_devices m).2 (id_clock m))
    0 None false Follower (u64_max - 1) (u64_max - 1) false 0 false [] [] []
    (machine_sends m) (machine_waits m) (machine_iteration m).

(** The constructor of [Impl] up to the network services, and the disk it
    leaves. *)
Definition boot (config : NodeConfig.t) (m : Machine) (d : Disk.t) : result node * Disk.t :=
  match create (raft_config_for config) (seed_devices m).1 (seed_devices m).2 (seed_clock m)
          (initial_impl config m) with
  | Throw e => (Throw e, d)
  | Ok s =>
      match recover_storage (MkBoot s d) with
      | (Throw e, b) => (Throw e, boot_disk b)
      | (Ok _, b) =>
          (Ok ((boot_node b) <| snapshot_restore_ := Some restore_snapshot |>), boot_disk b)
      end
  end.

End RaftLoop.
