(* ===== verification/RaftInv.v ===== *)
(** * The invariants of one node, event by event

    Every handler keeps the log well formed and only lets the state evolve. *)

From S2P Require Import Prelude Msgpack Proto Crc32 Wal Raft RaftLemmas RaftLog RaftNode.
Import Raft.

Section Inv.
Context {R : Rng} {Env : Type} {WP : WalPack}.
Implicit Types (s : t Env) (msg : Message.t).

(** The postcondition all events share. *)
Definition keeps s {A} (_ : A) (s' : t Env) : Prop := wf s' /\ evolves s s'.
Definition any (_ : exn) (_ : t Env) : Prop := True.

Lemma keeps_refl s {A} (a : A) : wf s -> keeps s a s.
Proof. intros H. split; [done|]. by apply same_log_evolves. Qed.

Lemma keeps_same_log s s' {A} (a : A) :
  wf s -> same_log s s' -> id_ s' = id_ s -> peers_ s' = peers_ s -> term_ s <= term_ s' ->
  (term_ s' = term_ s -> voted_for_ s <> 0 -> voted_for_ s' = voted_for_ s) ->
  (state_ s = Leader -> state_ s' = Leader -> term_ s' = term_ s) ->
  (storage_failed_ s = true -> storage_failed_ s' = true) -> keeps s a s'.
Proof.
  intros Hwf Hs ? ? ? ? ? ?. split; [by eapply same_log_wf|]. by apply same_log_evolves.
Qed.

(** A step that only moves the commit and applied indices of the log. *)
Lemma keeps_flat s s' {A} (a : A) :
  wf s -> log_ s' = log_ s -> log_offset_ s' = log_offset_ s ->
  last_snapshot_index_ s' = last_snapshot_index_ s -> id_ s' = id_ s -> peers_ s' = peers_ s ->
  commit_index_ s <= commit_index_ s' <= log_offset_ s + zlen (log_ s) ->
  last_applied_ s <= last_applied_ s' <= commit_index_ s' ->
  term_ s' = term_ s -> voted_for_ s' = voted_for_ s ->
  (storage_failed_ s = true -> storage_failed_ s' = true) -> keeps s a s'.
Proof.
  intros [] El Eo Es Ei Ep Hc Ha Et Ev Hf. split.
  - split; rewrite ?El, ?Eo, ?Es; done || lia.
  - assert (forall i, entry_at s' i = entry_at s i) as He.
    { intros i. unfold entry_at. by rewrite El, Eo. }
    split; rewrite ?El, ?Eo, ?Et; auto; lia || (intros; split_and!; [done|lia|auto]).
Qed.

Ltac bool_hyps :=
  repeat match goal with
  | H : _ && _ = true |- _ => apply andb_true_iff in H as [? ?]
  | H : _ || _ = false |- _ => apply orb_false_iff in H as [? ?]
  | H : negb _ = true |- _ => apply negb_true_iff in H
  | H : negb _ = false |- _ => apply negb_false_iff in H
  | H : bool_decide _ = true |- _ => apply bool_decide_eq_true in H
  | H : bool_decide _ = false |- _ => apply bool_decide_eq_false in H
  end.

Ltac easy_leaf :=
  cbn in *; bool_hyps; try done; try lia; try congruence; auto;
  try solve [intros; repeat case_match; done || lia || congruence];
  try intuition (congruence || lia).

(** Leaves of a symbolic execution that did not touch the log. *)
Ltac log_untouched :=
  first [ exact I
        | apply keeps_same_log; [assumption|split; reflexivity|reflexivity|reflexivity|..];
          easy_leaf ].

Lemma handle_request_vote_keeps msg s :
  wf s -> wp (handle_request_vote msg) (keeps s) any s.
Proof. intros Hwf. unfold handle_request_vote. raft_steps; log_untouched. Qed.

Lemma handle_request_vote_response_keeps msg s :
  wf s -> wp (handle_request_vote_response msg) (keeps s) any s.
Proof. intros Hwf. unfold handle_request_vote_response. raft_steps; log_untouched. Qed.

Lemma handle_pre_vote_keeps msg s :
  wf s -> wp (handle_pre_vote msg) (keeps s) any s.
Proof. intros Hwf. unfold handle_pre_vote. raft_steps; log_untouched. Qed.

Lemma next_term s : room s -> 0 <= term_ s -> u64 (term_ s + 1) = term_ s + 1.
Proof. intros [H _] H0. apply u64_small. unfold_words. lia. Qed.

Lemma handle_pre_vote_response_keeps msg s :
  wf s -> room s -> 0 <= term_ s -> wp (handle_pre_vote_response msg) (keeps s) any s.
Proof.
  intros Hwf Hr H0. pose proof (next_term s Hr H0) as Hn.
  unfold handle_pre_vote_response. raft_steps; try log_untouched.
  all: case_match; log_untouched.
Qed.

Lemma tick_keeps s : wf s -> wp tick (keeps s) any s.
Proof.
  intros Hwf. unfold tick, become_pre_candidate. raft_steps; try log_untouched.
  case_match; log_untouched.
Qed.

(** ** Composition *)

Lemma evolves_trans s s' s'' :
  evolves s s' -> evolves s' s'' ->
  (state_ s = Leader -> state_ s'' = Leader -> state_ s' = Leader) -> evolves s s''.
Proof.
  intros [I P T V C A O K L F] [I' P' T' V' C' A' O' K' L' F'] Hl.
  split; try congruence; try lia; try tauto.
  - intros i Hi Ho. rewrite K', K by lia. done.
  - intros H1 H2. pose proof (Hl H1 H2) as H3. destruct (L H1 H3) as (E1 & E2 & E3).
    destruct (L' H3 H2) as (E4 & E5 & E6). split_and!; [lia|lia|].
    intros i Hi. rewrite E6, E3 by lia. done.
Qed.

Lemma wp_keeps_trans {A} (m : M (t Env) A) s s' :
  evolves s s' ->
  wp m (fun a s'' => keeps s' a s'' /\ (state_ s'' = Leader -> state_ s' = Leader)) any s' ->
  wp m (keeps s) any s'.
Proof.
  intros He Hm. eapply wp_mono; [done| |done].
  intros a s'' [[Hwf He'] Hl]. split; [done|]. eapply evolves_trans; eauto.
Qed.

Lemma keeps_trans s s1 s2 {A} (a : A) :
  evolves s s1 -> keeps s1 a s2 -> state_ s2 = state_ s1 -> keeps s a s2.
Proof. intros He [Hwf He'] Hs. split; [done|]. eapply evolves_trans; [done|done|congruence]. Qed.

(** ** The log of a follower *)

(** What [prepare_for_leader_rpc] leaves when it accepts the sender. *)
Record prepared s msg s' : Prop := {
  pr_same : same_log s s';
  pr_evolves : evolves s s';
  pr_state : state_ s' = Follower;
  pr_term : term_ s' = Message.term msg;
  pr_lead : lead_ s' = Message.from msg;
  pr_storage : storage_failed_ s' = false;
  pr_addressed : misaddressed s msg = false;
}.

Lemma wp_prepare msg Q s :
  wf s ->
  (forall s', wf s' -> evolves s s' -> same_log s s' -> Q false s') ->
  (forall s', wf s' -> prepared s msg s' -> Q true s') ->
  wp (prepare_for_leader_rpc msg) Q any s.
Proof.
  intros Hwf Hf Ht.
  eapply (wp_mono _ (fun b s' => same_log s s' /\ evolves s s' /\
    (b = true -> prepared s msg s')) _ any); [| |done]; cycle 1.
  { intros [] s' (Hs & He & Hp); [apply Ht|apply Hf]; auto; by eapply same_log_wf. }
  unfold prepare_for_leader_rpc. raft_steps; try exact I.
  all: split; [split; reflexivity|].
  all: match goal with |- evolves ?s0 ?x /\ _ =>
    assert (evolves s0 x) as He by
      (apply same_log_evolves; [split; reflexivity|reflexivity|reflexivity|..]; easy_leaf);
    split; [exact He|]; first [discriminate | intros _; split; [split; reflexivity|exact He|..]]
  end.
  all: easy_leaf.
  destruct H1 as [-> _]; [lia|done].
Qed.

(** Replacing the log by a merged one, for a follower. *)
Lemma merged_keeps s es i l b ws w :
  wf s -> state_ s <> Leader -> indexed (i - 1) es -> 0 < i -> i + zlen es < u64_max ->
  merge_result s es i (l, b) ws ->
  wf (s <| log_ := l |> <| wal_ := w |>) /\ evolves s (s <| log_ := l |> <| wal_ := w |>).
Proof.
  intros Hwf Hst Hes Hi Hb Hm. pose proof Hwf as []. pose proof (zlen_nonneg es).
  assert (l = log_ s \/ exists j k, l = take k (log_ s) ++ drop j es /\ (j < length es)%nat /\
    i + Z.of_nat j = log_offset_ s + 1 + Z.of_nat k /\ (k <= length (log_ s))%nat /\
    commit_index_ s < i + Z.of_nat j) as [->|(j & k & -> & Hj & Hk & Hl & Hc)].
  { inversion Hm; subst; eauto 10. }
  - split; [by destruct s|]. by apply same_log_evolves.
  - split.
    + split; cbn; try done.
      * apply indexed_app; [by apply indexed_take|]. rewrite zlen_take.
        replace (log_offset_ s + Z.min (Z.of_nat k) (zlen (log_ s)))
          with (i - 1 + Z.of_nat j) by len_lia.
        apply indexed_drop; [done|lia].
      * rewrite zlen_app, zlen_take, zlen_drop. len_lia.
      * rewrite zlen_app, zlen_take, zlen_drop. len_lia.
    + split; cbn; try done; try lia. intros x Hx Ho. unfold entry_at. cbn.
      rewrite !decide_True by lia. rewrite lookup_app_l by (rewrite length_take; lia).
      rewrite lookup_take, decide_True by lia. done.
Qed.

Lemma handle_append_entries_keeps msg s :
  wf s -> append_ok msg -> wp (handle_append_entries msg) (keeps s) any s.
Proof.
  intros Hwf (Hp & Hes & Hb). unfold handle_append_entries. repeat wp_step. apply wp_prepare; [done| |].
  { intros s' Hwf' He Hs. raft_steps. split; done. }
  intros s1 Hwf1 [Hs He Hst Ht Hld Hsf Hadd]. wp_step.
  wp_step. wp_step. wp_step; [raft_steps; split; done|].
  assert (0 < u64 (Message.prev_log_index msg + 1) <= log_offset_ s1 + zlen (log_ s1) + 1 /\
          u64 (Message.prev_log_index msg + 1) = Message.prev_log_index msg + 1) as [Hi Hu].
  { pose proof (zlen_nonneg (Message.entries msg)). rewrite u64_small by (unfold_words; lia).
    split; [|done]. split; [lia|]. apply negb_false_iff in Hif. unfold log_ok in Hif.
    rewrite last_log_index_eq in Hif by done. pose proof Hwf1 as [].
    pose proof (zlen_nonneg (log_ s1)). repeat case_match; lia. }
  rewrite Hu in *. clear Hu.
  pose proof (merge_log_spec (Message.entries msg) s1 _ Hwf1 Hi ltac:(lia)) as Hm.
  destruct (merge_log s1 (Message.entries msg) (Message.prev_log_index msg + 1)) as [l b] eqn:El.
  wp_step. apply wp_append_loop; [intros w|done]. rewrite El. cbn [fst snd].
  destruct (merged_keeps s1 (Message.entries msg) (Message.prev_log_index msg + 1) l b
    (merge_writes s1 (Message.entries msg) (Message.prev_log_index msg + 1)) w
    Hwf1 ltac:(congruence)) as [Hwf2 He2];
    [by replace (Message.prev_log_index msg + 1 - 1) with (Message.prev_log_index msg) by lia
    |lia|lia|done|].
  set (s2 := s1 <| log_ := l |> <| wal_ := w |>) in *.
  assert (evolves s s2) as He12 by (eapply evolves_trans; [done|done|]; intros _ Hx; exact Hx).
  assert (state_ s2 = Follower) as Hst2 by done. clearbody s2.
  apply wp_keeps_trans; [done|]. clear - Hwf2 Hst2 Hp Hes Hb.
  pose proof Hwf2 as [].
  raft_steps; try exact I; (split; [|by cbn]);
    (apply keeps_flat; try done; cbn; rewrite ?last_log_index_eq by done; cbn in *; try lia).
Qed.

Lemma advance_keeps i s : wf s -> room s -> wp (advance i) (keeps s) any s.
Proof.
  intros Hwf [_ Hr]. pose proof Hwf as []. unfold advance. raft_steps.
  - by apply keeps_refl.
  - bool_hyps. apply keeps_flat; try done; cbn; try lia. split; [|lia].
    pose proof (zlen_nonneg (log_ s)).
    rewrite u64_small in H0 by (unfold_words; lia). lia.
Qed.

Lemma finish_read_index_keeps tok s : wf s -> wp (finish_read_index tok) (keeps s) any s.
Proof. intros Hwf. unfold finish_read_index. raft_steps; log_untouched. Qed.

Lemma handle_install_snapshot_response_keeps msg s :
  wf s -> wp (handle_install_snapshot_response msg) (keeps s) any s.
Proof.
  intros Hwf. unfold handle_install_snapshot_response, set_match. raft_steps; log_untouched.
Qed.

(** The commit loop never leaves the log. *)
Lemma advance_commit_range s :
  wf s -> room s -> commit_index_ s <= advance_commit s <= log_offset_ s + zlen (log_ s).
Proof.
  intros Hwf [_ Hr]. pose proof Hwf as []. unfold advance_commit.
  rewrite last_log_index_eq by done. rewrite u64_small by (unfold_words; lia).
  assert (forall js c, (forall i, i ∈ js -> commit_index_ s <= i <= log_offset_ s + zlen (log_ s)) ->
    commit_index_ s <= c <= log_offset_ s + zlen (log_ s) ->
    commit_index_ s <= foldl (fun commit i =>
      if negb (Entry.term (log_entry s i) =? term_ s) then commit
      else if replicas s i >? zlen (peers_ s) / 2 then i else commit) c js
      <= log_offset_ s + zlen (log_ s)) as Hfold.
  { induction js as [|i js IH]; intros c His Hc; [done|]. cbn [foldl]. apply IH.
    - intros j Hj. apply His. by right.
    - specialize (His i ltac:(by left)). repeat case_match; lia. }
  apply Hfold; [|lia]. intros i Hi%elem_of_seqZ. lia.
Qed.

Lemma handle_append_entries_response_keeps msg s :
  wf s -> room s -> wp (handle_append_entries_response msg) (keeps s) any s.
Proof.
  intros Hwf Hr. unfold handle_append_entries_response, set_match, touch_progress.
  raft_steps; try log_untouched.
  all: pose proof Hwf as [].
  all: match goal with |- context [advance_commit ?x] =>
    assert (commit_index_ x <= advance_commit x <= log_offset_ x + zlen (log_ x)) as Hc
      by (apply advance_commit_range; [by destruct Hwf|done])
  end.
  all: apply keeps_flat; try done; cbn in *; lia.
Qed.

(** Appending one entry at the end of the log, for any role. *)
Lemma appended_keeps s s' e {A} (a : A) :
  wf s -> room s -> Entry.index e = log_offset_ s + zlen (log_ s) + 1 ->
  log_ s' = log_ s ++ [e] -> log_offset_ s' = log_offset_ s ->
  last_snapshot_index_ s' = last_snapshot_index_ s -> id_ s' = id_ s -> peers_ s' = peers_ s ->
  commit_index_ s' = commit_index_ s -> last_applied_ s' = last_applied_ s ->
  term_ s' = term_ s -> voted_for_ s' = voted_for_ s ->
  (storage_failed_ s = true -> storage_failed_ s' = true) -> keeps s a s'.
Proof.
  intros [] [_ Hr] He El Eo Es Ei Ep Ec Ea Et Ev Hf.
  assert (zlen (log_ s') = zlen (log_ s) + 1) as Hlen by (rewrite El, zlen_app; done).
  split.
  - split; rewrite ?Eo, ?Es, ?Ec, ?Ea, ?Hlen; try done; try lia.
    rewrite El. apply indexed_app; [done|]. apply indexed_one. lia.
  - assert (forall i, log_offset_ s < i <= log_offset_ s + zlen (log_ s) ->
      entry_at s' i = entry_at s i) as Hent.
    { intros i Hi. unfold entry_at. rewrite El, Eo, !decide_True by lia.
      apply lookup_app_l. len_lia. }
    split; rewrite ?Eo, ?Et, ?Ec, ?Ea, ?Hlen; auto; try lia.
    + intros i Hi Ho. apply Hent. lia.
    + intros _ _. split_and!; [done|lia|done].
Qed.

Lemma propose_keeps data s : wf s -> room s -> wp (propose data) (keeps s) any s.
Proof.
  intros Hwf Hr. pose proof Hwf as []. destruct Hr as [Hr1 Hr2].
  unfold propose. raft_steps; try exact I; try by apply keeps_refl.
  - eapply appended_keeps; try done. cbn. rewrite last_log_index_eq, u64_small;
      unfold_words; pose proof (zlen_nonneg (log_ s)); (done || lia).
  - apply keeps_flat; try done; cbn; try lia. by rewrite removelast_app, app_nil_r.
Qed.

(** ** Compaction and snapshots *)

(** Compaction drops exactly the entries the snapshot covers. *)
Lemma compacted_eq o log idx :
  indexed o log -> o < idx <= o + zlen log ->
  compacted log idx = drop (Z.to_nat (idx - o)) log.
Proof.
  intros Hi Hr. unfold compacted, keep_from.
  destruct (list_find (fun e => Entry.index e > idx) log) as [[n e]|] eqn:Ef.
  - apply list_find_Some in Ef as (He & Hgt & Hmin). pose proof (Hi _ _ He) as Hn.
    assert (n = Z.to_nat (idx - o)) as ->.
    { destruct (decide (Z.to_nat (idx - o) < n)%nat) as [Hlt|]; [|lia].
      destruct (lookup_lt_is_Some_2 log (Z.to_nat (idx - o))) as [y Hy].
      { apply lookup_lt_Some in He. lia. }
      pose proof (Hi _ _ Hy). destruct (Hmin _ _ Hy Hlt). lia. }
    by rewrite (proj2 (Nat.ltb_lt _ _)) by lia.
  - apply list_find_None in Ef. cbn. destruct log as [|e0 log] using rev_ind.
    { unfold zlen in Hr. cbn in Hr. lia. }
    rewrite last_snoc. assert (Entry.index e0 = o + 1 + zlen log) as He0.
    { apply (Hi (length log)). by apply list_lookup_middle. }
    rewrite zlen_app in Hr. change (zlen [e0]) with 1 in Hr.
    apply Forall_app in Ef as [_ Ef]. apply Forall_cons_iff in Ef as [Ef _].
    rewrite (proj2 (Z.leb_le _ _)) by lia. symmetry. apply drop_ge. len_lia.
Qed.

Lemma compacted_keeps s s' idx {A} (a : A) :
  wf s -> log_offset_ s < idx <= last_applied_ s ->
  log_ s' = compacted (log_ s) idx -> log_offset_ s' = idx -> last_snapshot_index_ s' = idx ->
  last_applied_ s' = last_applied_ s -> commit_index_ s' = commit_index_ s ->
  id_ s' = id_ s -> peers_ s' = peers_ s -> term_ s' = term_ s ->
  voted_for_ s' = voted_for_ s -> storage_failed_ s' = storage_failed_ s -> keeps s a s'.
Proof.
  intros [] Hi El Eo Es Ea Ec Eid Ep Et Ev Ef.
  rewrite (compacted_eq (log_offset_ s)) in El by (done || lia).
  assert (forall i, idx < i -> entry_at s' i = entry_at s i) as Hent.
  { intros i Hgt. unfold entry_at. rewrite El, Eo, !decide_True by lia.
    rewrite lookup_drop. f_equal. lia. }
  split.
  - split; rewrite ?El, ?Eo, ?Es, ?Ea, ?Ec; try done; try lia; try len_lia.
    replace idx with (log_offset_ s + Z.of_nat (Z.to_nat (idx - log_offset_ s))) at 1 by lia.
    apply indexed_drop; [done|len_lia].
  - split; rewrite ?El, ?Eo, ?Ea, ?Ec, ?Ef, ?Et; try done; try lia; auto.
    intros _ _. split_and!; [done|len_lia|]. intros i Hii. apply Hent. lia.
Qed.

Lemma take_snapshot_keeps idx st s : wf s -> wp (take_snapshot idx st) (keeps s) any s.
Proof.
  intros Hwf. unfold take_snapshot. raft_steps; try exact I.
  - by apply keeps_refl.
  - bool_hyps. apply (compacted_keeps _ _ idx); (done || lia).
  - bool_hyps. log_untouched.
Qed.

(** Installing a snapshot above the commit index replaces the log. *)
Lemma installed_keeps s s' idx {A} (a : A) :
  wf s -> is_u64 idx -> commit_index_ s <= idx -> state_ s <> Leader ->
  log_ s' = [] -> log_offset_ s' = idx -> last_snapshot_index_ s' = idx ->
  last_applied_ s' = idx -> commit_index_ s' = idx -> id_ s' = id_ s -> peers_ s' = peers_ s ->
  term_ s' = term_ s -> voted_for_ s' = voted_for_ s ->
  (storage_failed_ s = true -> storage_failed_ s' = true) -> keeps s a s'.
Proof.
  intros [] Hu Hc Hst El Eo Es Ea Ec Ei Ep Et Ev Hf. split.
  - split; rewrite ?El, ?Eo, ?Es, ?Ea, ?Ec; try apply indexed_nil; unfold_words; try done;
      try lia; unfold zlen; cbn; lia.
  - split; rewrite ?El, ?Eo, ?Ea, ?Ec; auto; try lia; try done.
Qed.

Lemma wp_restore_callback idx data Q E s :
  (forall b env, Q b (s <| restore_env := env |>)) -> wp (call_snapshot_restore idx data) Q E s.
Proof.
  intros HQ. unfold call_snapshot_restore. repeat wp_step.
  destruct (snapshot_restore_ s) as [cb|].
  - destruct (cb idx data (restore_env s)) as [b env]. repeat wp_step. apply HQ.
  - specialize (HQ false (restore_env s)). apply wp_ret. by destruct s.
Qed.

Lemma handle_install_snapshot_keeps msg s :
  wf s -> is_u64 (Message.snapshot_index msg) ->
  wp (handle_install_snapshot msg) (keeps s) any s.
Proof.
  intros Hwf Hu. unfold handle_install_snapshot. repeat wp_step. apply wp_prepare; [done| |].
  { intros s' Hwf' He Hs. raft_steps. split; done. }
  intros s1 Hwf1 [Hs He Hst Ht Hld Hsf Hadd].
  apply wp_keeps_trans; [done|]. set (resp := vote_response s msg _). clearbody resp.
  clear s Hwf Hs He Hadd.
  repeat first [apply wp_restore_callback; intros | wp_step | raft_rule]; try exact I.
  all: split; [|intros; done || congruence].
  all: try log_untouched.
  all: bool_hyps; apply (installed_keeps _ _ (Message.snapshot_index msg));
    done || lia || congruence.
Qed.

(** ** ReadIndex *)

Lemma propose_empty_keeps s0 s :
  wf s0 -> room s -> same_log s0 s -> evolves s0 s -> state_ s = state_ s0 ->
  wp (propose [])
    (fun a => wp (s' ← get;
       match a with
       | Some _ => mret (Some (MkToken (pending_read_context_ s') (pending_read_index_ s')))
       | None => finish_read_index (MkToken (pending_read_context_ s') (pending_read_index_ s')) ;;
                 mret None
       end) (keeps s0) any) any s.
Proof.
  intros Hwf Hr Hs He Hst. pose proof (same_log_wf _ _ Hs Hwf) as Hwf'.
  eapply (wp_mono _ (keeps s) _ any); [by apply propose_keeps| |done].
  intros a s1 [Hwf1 He1].
  assert (evolves s0 s1) as He2 by (eapply evolves_trans; [done|done|congruence]).
  destruct a; raft_steps; [by split|]. unfold finish_read_index. raft_steps; (by split) || idtac.
  eapply (keeps_trans _ s1); [done| |done]. log_untouched.
Qed.

Lemma read_index_keeps s : wf s -> room s -> wp read_index (keeps s) any s.
Proof.
  intros Hwf Hr. unfold read_index. raft_steps; try log_untouched.
  all: apply propose_empty_keeps; try done; by apply same_log_evolves.
Qed.

(** ** Every event *)

(** Queueing a message changes only the outgoing queue. *)
Lemma then_send_keeps (m : M (t Env) Message.t) s :
  wp m (keeps s) any s -> wp (m ≫= send) (keeps s) any s.
Proof.
  intros Hm. apply wp_bind. eapply (wp_mono _ _ _ any); [exact Hm| |done].
  intros r s1 [Hwf He]. raft_steps. eapply (keeps_trans _ s1); [done| |done]. log_untouched.
Qed.

Lemma deliver_keeps msg s :
  wf s -> 0 <= term_ s -> event_ok s (Receive msg) -> wp (deliver msg) (keeps s) any s.
Proof.
  intros Hwf H0 (Hr & Ha & Hi). unfold deliver.
  repeat match goal with |- wp (if Z.eqb ?a ?b then _ else _) _ _ _ =>
    destruct (Z.eqb_spec a b); [|] end; try apply then_send_keeps.
  - by apply handle_request_vote_keeps.
  - by apply handle_request_vote_response_keeps.
  - by apply handle_pre_vote_keeps.
  - by apply handle_pre_vote_response_keeps.
  - by apply handle_append_entries_keeps; auto.
  - by apply handle_append_entries_response_keeps.
  - by apply handle_install_snapshot_keeps; auto.
  - by apply handle_install_snapshot_response_keeps.
  - apply wp_ret. by apply keeps_refl.
Qed.

Lemma then_ret_keeps {A} (m : M (t Env) A) s :
  wp m (keeps s) any s -> wp (m ;; mret tt) (keeps s) any s.
Proof.
  intros Hm. apply wp_bind. eapply (wp_mono _ _ _ any); [exact Hm| |done].
  intros r s1 H. apply wp_ret. exact H.
Qed.

Lemma step_keeps ev s :
  wf s -> 0 <= term_ s -> event_ok s ev -> wp (step ev) (keeps s) any s.
Proof.
  intros Hwf H0 Hev. pose proof Hev as [Hr _]. destruct ev; cbn [step]; try apply then_ret_keeps.
  - by apply tick_keeps.
  - by apply deliver_keeps.
  - by apply propose_keeps.
  - by apply advance_keeps.
  - by apply take_snapshot_keeps.
  - by apply read_index_keeps.
  - by apply finish_read_index_keeps.
Qed.

End Inv.
