(* ===== verification/RaftProps.v ===== *)
(** * What one node guarantees

    The properties of the consensus core seen from outside: along every
    execution of a node, and for each handler. *)

From S2P Require Import Prelude Msgpack Proto Crc32 Wal Raft RaftLemmas RaftLog RaftNode.
From S2P Require Import RaftInv.
Import Raft.

Section Execution.
Context {R : Rng} {Env : Type} {WP : WalPack}.
Implicit Types (s : t Env) (msg : Message.t).

(** A run of a node: events whose handlers return. *)
Inductive execution : t Env -> list event -> t Env -> Prop :=
| execution_nil s : execution s [] s
| execution_cons s ev s1 evs s2 :
    event_ok s ev -> step ev s = (Ok tt, s1) -> execution s1 evs s2 ->
    execution s (ev :: evs) s2.

Lemma step_sound ev s s' :
  wf s -> 0 <= term_ s -> event_ok s ev -> step ev s = (Ok tt, s') ->
  wf s' /\ evolves s s' /\ 0 <= term_ s'.
Proof.
  intros Hwf H0 Hev Hs. destruct (wp_elim _ _ _ _ _ _ (step_keeps ev s Hwf H0 Hev) Hs) as [Hwf' He].
  split_and!; try done. pose proof (ev_term _ _ He). lia.
Qed.

(** What composes along a whole run, whatever the roles in between. *)
Record persists s s' : Prop := {
  ps_term : term_ s <= term_ s';
  ps_vote : term_ s' = term_ s -> voted_for_ s <> 0 -> voted_for_ s' = voted_for_ s;
  ps_commit : commit_index_ s <= commit_index_ s';
  ps_applied : last_applied_ s <= last_applied_ s';
  ps_offset : log_offset_ s <= log_offset_ s';
  ps_committed : forall i, i <= commit_index_ s -> log_offset_ s' < i ->
    entry_at s' i = entry_at s i;
}.

Lemma execution_sound s evs s' :
  wf s -> 0 <= term_ s -> execution s evs s' -> wf s' /\ persists s s'.
Proof.
  intros Hwf H0 Hx. revert Hwf H0. induction Hx as [s|s ev s1 evs s2 Hev Hs Hx IH]; intros Hwf H0.
  - by split.
  - destruct (step_sound _ _ _ Hwf H0 Hev Hs) as (Hwf1 & He & H1).
    destruct (IH Hwf1 H1) as [Hwf2 [T V C A O K]]. split; [done|].
    destruct He as [_ _ T' V' C' A' O' K' _ _].
    split; try lia.
    intros i Hi Ho. by rewrite K, K' by lia.
Qed.

End Execution.

Section Votes.
Context {R : Rng} {Env : Type} {WP : WalPack}.
Implicit Types (s : t Env) (msg : Message.t).

(** When a vote may be given: the sender is a member, its term is not behind,
    this node has no other vote in that term, and the sender's log is at least
    as up to date. *)
Definition vote_allowed s msg : Prop :=
  misaddressed s msg = false /\ term_ s <= Message.term msg /\
  (term_ s = Message.term msg -> voted_for_ s = 0 \/ voted_for_ s = Message.from msg) /\
  is_log_up_to_date s (Message.last_log_index msg) (Message.last_log_term msg) = true.

Lemma follower_up_to_date s term leader g r w failed :
  is_log_up_to_date (as_follower s term leader g r w failed) = is_log_up_to_date s.
Proof. reflexivity. Qed.

Lemma request_vote_spec msg s :
  wp (handle_request_vote msg) (fun r s' =>
    (Message.vote_granted r = true <-> vote_allowed s msg /\ storage_failed_ s' = false) /\
    (Message.vote_granted r = true ->
       voted_for_ s' = Message.from msg /\ term_ s' = Message.term msg /\
       Message.term r = Message.term msg)) any s.
Proof.
  unfold handle_request_vote, vote_allowed. raft_steps; try exact I; cbn in *.
  all: rewrite ?follower_up_to_date in *; guards; intuition (congruence || lia).
Qed.

Lemma pre_vote_spec msg s :
  exists r, handle_pre_vote msg s = (Ok r, s) /\
    (Message.vote_granted r = true <->
       misaddressed s msg = false /\ storage_failed_ s = false /\
       term_ s < Message.term msg /\
       (lead_ s = 0 \/ election_timeout_ s <= election_elapsed_ s) /\
       is_log_up_to_date s (Message.last_log_index msg) (Message.last_log_term msg) = true) /\
    Message.term r = term_ s /\ Message.pre_vote_term r = Message.term msg.
Proof.
  unfold handle_pre_vote, reply. run_m.
  repeat case_match; eexists; (split; [reflexivity|]); cbn; guards; intuition (congruence || lia).
Qed.

End Votes.

(** ** The election timer *)

Section Timer.
Context {R : Rng} {RL : RngLaws} {Env : Type} {WP : WalPack}.
Implicit Types (s : t Env).

(** The next tick starts an election. *)
Definition pre_elected s (g : rng) (timeout : Z) : t Env :=
  pre_campaigned
    (s <| state_ := PreCandidate |> <| lead_ := 0 |> <| pre_votes_ := ∅ |>
       <| pending_pre_vote_term_ := 0 |> <| election_elapsed_ := 0 |> <| election_rng_ := g |>
       <| randomized_election_timeout_ := timeout |>).

Lemma pre_elected_spec s g r :
  state_ (pre_elected s g r) = PreCandidate /\ term_ (pre_elected s g r) = term_ s /\
  voted_for_ (pre_elected s g r) = voted_for_ s /\
  msgs_ (pre_elected s g r) =
    msgs_ s ++ ((fun p => vote_request s Message.MsgPreVote p (u64 (term_ s + 1))) <$> others s) /\
  randomized_election_timeout_ (pre_elected s g r) = r.
Proof. by destruct s. Qed.

Lemma timeout_range s :
  0 < election_timeout_ s < 2 ^ 31 ->
  let r := u32 (election_timeout_ s + fst (uniform 0 (u32 (election_timeout_ s - 1)) (election_rng_ s))) in
  election_timeout_ s <= r < 2 * election_timeout_ s.
Proof.
  intros Ht. cbv zeta. rewrite (u32_small (_ - 1)) by (unfold_words; lia).
  pose proof (uniform_bounds 0 (election_timeout_ s - 1) (election_rng_ s) ltac:(lia)) as Hu.
  rewrite u32_small; [lia|]. unfold_words. lia.
Qed.

Lemma tick_fires s :
  storage_failed_ s = false -> state_ s <> Leader -> 0 < election_timeout_ s < 2 ^ 31 ->
  0 <= election_elapsed_ s < 2 ^ 32 - 1 -> randomized_election_timeout_ s <= election_elapsed_ s + 1 ->
  exists g r, tick s = (Ok tt, pre_elected s g r) /\ election_timeout_ s <= r < 2 * election_timeout_ s.
Proof.
  intros Hf Hl Ht He Hr. unfold tick. run_m. rewrite Hf, decide_False by done. cbn.
  rewrite u32_small by (unfold_words; lia). destruct (Z.geb_spec (election_elapsed_ s + 1) (randomized_election_timeout_ s)); [|lia].
  unfold become_pre_candidate. run_m.
  match goal with |- context [reset_randomized_election_timeout ?x] =>
    destruct (reset_timeout_eq x) as (g & r & -> & Er); set (y := x) in * end.
  rewrite pre_campaign_eq. exists g, r. cbn. rewrite Hf. split.
  - by destruct s.
  - rewrite Er. apply (timeout_range y Ht).
Qed.

Lemma tick_waits s :
  storage_failed_ s = false -> state_ s <> Leader -> 0 <= election_elapsed_ s < 2 ^ 32 - 1 ->
  election_elapsed_ s + 1 < randomized_election_timeout_ s ->
  tick s = (Ok tt, s <| election_elapsed_ := election_elapsed_ s + 1 |>).
Proof.
  intros Hf Hl He Hr. unfold tick. run_m. rewrite Hf, decide_False by done. cbn.
  rewrite u32_small by (unfold_words; lia).
  by destruct (Z.geb_spec (election_elapsed_ s + 1) (randomized_election_timeout_ s)); [lia|].
Qed.

Definition ticked (n : nat) s : t Env := Nat.iter n (fun s => snd (tick s)) s.

Lemma ticked_S n s : ticked (S n) s = ticked n (snd (tick s)).
Proof. unfold ticked. by rewrite Nat.iter_succ_r. Qed.

Lemma timer_runs n : forall s,
  storage_failed_ s = false -> state_ s <> Leader -> 0 < election_timeout_ s < 2 ^ 31 ->
  0 <= election_elapsed_ s -> randomized_election_timeout_ s < 2 ^ 32 ->
  Z.to_nat (randomized_election_timeout_ s - election_elapsed_ s - 1) = n ->
  election_elapsed_ s < 2 ^ 32 - 1 ->
  exists g r, ticked (S n) s = pre_elected s g r /\ election_timeout_ s <= r < 2 * election_timeout_ s.
Proof.
  induction n as [|n IH]; intros s Hf Hl Ht H0 Hr Hn He; rewrite ticked_S.
  - destruct (tick_fires s) as (g & r & E & Hb); try done; try lia. exists g, r. by rewrite E.
  - rewrite tick_waits by (done || lia). cbn [snd].
    destruct (IH (s <| election_elapsed_ := election_elapsed_ s + 1 |>)) as (g & r & E & Hb);
      try done; cbn; try lia. exists g, r. split; [|done]. etransitivity; [exact E|]. by destruct s.
Qed.
End Timer.

(** ** A concrete node

    Three members, no storage, the constant random engine: the node the
    witnesses run. *)

Definition demo_config (id : Z) : Config.t := Config.mk id [1; 2; 3] 10 3 0 42.

Definition demo_node (id : Z) : @t constant_rng unit :=
  match create (R := constant_rng) (demo_config id) 0 0 0 tt with
  | Ok s => s
  | Throw _ => mk constant_rng unit id 0 0 0 0 0 Follower [] 0 0 ∅ [] 1 1 0 0 0 0 0 tt ∅ ∅ 0
      false 0 0 1 ∅ [] None tt None false []
  end.

(** An election won with the vote of node 2, one proposal, its commit and its
    application. *)
Definition demo_reply (type term : Z) : Message.t :=
  Message.default <| Message.type := type |> <| Message.from := 2 |> <| Message.to := 1 |>
    <| Message.term := term |>.

Definition demo_run : list event :=
  replicate 10 Tick ++
  [ Receive ((demo_reply Message.MsgPreVoteResponse 0)
      <| Message.vote_granted := true |> <| Message.pre_vote_term := 1 |>);
    Receive ((demo_reply Message.MsgRequestVoteResponse 1) <| Message.vote_granted := true |>);
    Propose (str "set");
    Receive ((demo_reply Message.MsgAppendEntriesResponse 1)
      <| Message.success := true |> <| Message.match_index := 1 |>);
    Advance 1 ].

(** The events in turn, as a computation. *)
Fixpoint run_events {R : Rng} {Env} {WP : WalPack} (evs : list event) : M (t Env) unit :=
  match evs with [] => mret tt | ev :: evs' => step ev ;; run_events evs' end.

Definition demo_after (evs : list event) (id : Z) : @t constant_rng unit :=
  snd (run_events (WP := bits_wal_pack) evs (demo_node id)).

Ltac demo_event := split; [split; vm_compute; reflexivity|split; discriminate || exact I].

Ltac demo_execution :=
  repeat (eapply execution_cons;
    [first [demo_event | split; [split; vm_compute; reflexivity|exact I]]
    |vm_compute; reflexivity|]); apply execution_nil.

Lemma demo_wf : wf (demo_node 1).
Proof. by split. Qed.

Lemma demo_executes :
  execution (WP := bits_wal_pack) (demo_node 1) demo_run (demo_after demo_run 1).
Proof.
  let s := eval vm_compute in (demo_after demo_run 1) in
  replace (demo_after demo_run 1) with s by (vm_compute; reflexivity).
  unfold demo_run. cbn [replicate app]. demo_execution.
Qed.

Section NodeProperties.
Context {R : Rng} {Env : Type} {WP : WalPack}.
Implicit Types (s : t Env) (msg : Message.t).

(** C14: Along every run of a node, snapshots included, the log stays well
    formed (entry indices are consecutive after the snapshot, and snapshot <=
    applied <= commit <= last), the term, the commit index and the applied
    index never go back, a vote does not change within its term, and a
    committed entry that is still in the log is the one it was. *)
Theorem node_invariant s evs s' :
  wf s -> 0 <= term_ s -> execution s evs s' -> wf s' /\ persists s s'.
Proof. apply execution_sound. Qed.

(** C18: A node that hears nothing starts an election in time.  A node that
    does not lead and whose storage works, left to its timer, becomes a
    pre-candidate at the tick that reaches its timeout (at the next tick when
    that has passed); with that tick it asks every other member for a pre-vote
    in the next term, without entering that term or voting, and its next
    timeout is at least the configured one and less than twice as long. *)
Theorem election_starts {RL : RngLaws} s :
  storage_failed_ s = false -> state_ s <> Leader -> 0 < election_timeout_ s < 2 ^ 31 ->
  0 <= election_elapsed_ s < 2 ^ 32 - 1 -> randomized_election_timeout_ s < 2 ^ 32 ->
  let s' := ticked (Z.to_nat (Z.max 1 (randomized_election_timeout_ s - election_elapsed_ s))) s in
  state_ s' = PreCandidate /\ term_ s' = term_ s /\ voted_for_ s' = voted_for_ s /\
  msgs_ s' = msgs_ s ++ ((fun p => vote_request s Message.MsgPreVote p (u64 (term_ s + 1))) <$> others s) /\
  election_timeout_ s <= randomized_election_timeout_ s' < 2 * election_timeout_ s.
Proof.
  intros Hf Hl Ht He Hr. cbv zeta.
  destruct (timer_runs _ s Hf Hl Ht (proj1 He) Hr eq_refl (proj2 He)) as (g & r & E & Hb).
  replace (Z.to_nat (Z.max 1 _)) with
    (S (Z.to_nat (randomized_election_timeout_ s - election_elapsed_ s - 1))) by lia.
  rewrite E. destruct (pre_elected_spec s g r) as (-> & -> & -> & -> & ->). done.
Qed.

End NodeProperties.

Lemma node_invariant_witness :
  exists s', execution (WP := bits_wal_pack) (demo_node 1) demo_run s' /\
    (wf s' /\ persists (demo_node 1) s') /\ last_applied_ s' = 1.
Proof.
  exists (demo_after demo_run 1).
  split; [exact demo_executes|]. split; [|reflexivity].
  apply (node_invariant (WP := bits_wal_pack) (demo_node 1) demo_run);
    [apply demo_wf|done|exact demo_executes].
Defined.

Lemma election_starts_witness :
  let s' := ticked 10 (demo_node 1) in
  state_ s' = PreCandidate /\ length (msgs_ s') = 2%nat.
Proof.
  destruct (election_starts (R := constant_rng) (RL := constant_rng_laws) (demo_node 1))
    as (H1 & _ & _ & H4 & _); [done..|by split; vm_compute|by split; vm_compute|by vm_compute|].
  split; [exact H1|]. by apply (f_equal length) in H4.
Defined.
