(* ===== verification/RaftSpec.v ===== *)
(** * The protocol the cluster follows

    An abstract model of the cluster: what each member keeps on disk (term,
    vote, log), what it only remembers (role, votes, match indices), and the
    messages that were ever sent.  A step is one durable change or one message,
    so a member may stop between any two of them.  [RaftSpecInv] proves it
    safe, and [Cluster] that the members' code follows it.

    The last six components of the state record the past, for the proofs: the
    log of the leader of each term, who it is, how long its log was when it
    was elected, who voted for it, what each member's log was when it left a
    term, and the vote it cast there. *)

From S2P Require Import Prelude Msgpack Proto.

(** The entries that may be proposed. *)
Class Proposals : Type := proposed : Entry.t -> Prop.

Definition proposes `{Proposals} (data : bytes) : Prop :=
  forall term index, proposed (Entry.mk Entry.EntryNormal term index data).

Module Spec.

Abbreviation log_t := (list Entry.t).

Inductive Role : Type := RoleFollower | RoleCandidate | RoleLeader.

Inductive message : Type :=
| VoteReq (candidate term : Z) (last_index : nat) (last_term : Z)
| VoteGrant (voter candidate term : Z)
| Append (leader term : Z) (prev : nat) (prev_term : Z) (entries : log_t) (commit : nat)
| Ack (follower leader term : Z) (upto : nat).

Record t : Type := mk {
  term : Z -> Z;
  vote : Z -> Z;
  log : Z -> log_t;
  commit : Z -> nat;
  role : Z -> Role;
  votes : Z -> gset Z;
  matched : Z -> gmap Z nat;
  net : list message;
  tlog : Z -> option log_t;
  tlead : Z -> Z;
  elen : Z -> nat;
  equo : Z -> gset Z;
  hist : Z -> Z -> log_t;
  cast : Z -> Z -> Z;
}.

Definition eta (g : t) : t :=
  mk (term g) (vote g) (log g) (commit g) (role g) (votes g) (matched g) (net g)
    (tlog g) (tlead g) (elen g) (equo g) (hist g) (cast g).
#[global] Instance set_term : Setter term := ltac:(setter eta term).
#[global] Instance set_vote : Setter vote := ltac:(setter eta vote).
#[global] Instance set_log : Setter log := ltac:(setter eta log).
#[global] Instance set_commit : Setter commit := ltac:(setter eta commit).
#[global] Instance set_role : Setter role := ltac:(setter eta role).
#[global] Instance set_votes : Setter votes := ltac:(setter eta votes).
#[global] Instance set_matched : Setter matched := ltac:(setter eta matched).
#[global] Instance set_net : Setter net := ltac:(setter eta net).
#[global] Instance set_tlog : Setter tlog := ltac:(setter eta tlog).
#[global] Instance set_tlead : Setter tlead := ltac:(setter eta tlead).
#[global] Instance set_elen : Setter elen := ltac:(setter eta elen).
#[global] Instance set_equo : Setter equo := ltac:(setter eta equo).
#[global] Instance set_hist : Setter hist := ltac:(setter eta hist).
#[global] Instance set_cast : Setter cast := ltac:(setter eta cast).

(** ** Logs *)

(** The term of the entry at an index, counted from one. *)
Definition term_at (l : log_t) (i : nat) : Z :=
  match i with
  | O => 0
  | S k => match l !! k with Some e => Entry.term e | None => 0 end
  end.

Definition last_term (l : log_t) : Z := term_at l (length l).

Definition up_to_date (li : nat) (lt : Z) (l : log_t) : Prop :=
  last_term l < lt \/ (last_term l = lt /\ (length l <= li)%nat).

(** [l] has the first [n] of the entries after [prev], as far as terms tell. *)
Definition agrees (l : log_t) (prev : nat) (prev_term : Z) (es : log_t) (n : nat) : Prop :=
  (prev <= length l)%nat /\ term_at l prev = prev_term /\
  forall j e, (j < n)%nat -> es !! j = Some e ->
    exists e', l !! (prev + j)%nat = Some e' /\ Entry.term e' = Entry.term e.

(** ** Updates *)

Definition upd {A} (f : Z -> A) (k : Z) (v : A) : Z -> A :=
  fun a => if decide (a = k) then v else f a.

(** A new log, from the member's current term on. *)
Definition rewrite_log (g : t) (n : Z) (l : log_t) : t :=
  g <| log := upd (log g) n l |>
    <| hist := fun a u => if decide (a = n /\ term g n <= u) then l else hist g a u |>.

(** A vote, in the member's current term. *)
Definition cast_vote (g : t) (n c : Z) : t :=
  g <| vote := upd (vote g) n c |>
    <| cast := fun a u => if decide (a = n /\ u = term g n) then c else cast g a u |>.

Definition say (g : t) (m : message) : t := g <| net := m :: net g |>.

(** The member takes the lead of its term. *)
Definition elect (g : t) (n : Z) : t :=
  g <| role := upd (role g) n RoleLeader |> <| matched := upd (matched g) n ∅ |>
    <| tlog := upd (tlog g) (term g n) (Some (log g n)) |>
    <| tlead := upd (tlead g) (term g n) n |>
    <| elen := upd (elen g) (term g n) (length (log g n)) |>
    <| equo := upd (equo g) (term g n) (votes g n) |>.

(** A leader's log grows by one entry. *)
Definition extend (g : t) (n : Z) (e : Entry.t) : t :=
  (rewrite_log g n (log g n ++ [e]))
    <| tlog := upd (tlog g) (term g n) (Some (log g n ++ [e])) |>.

Section Steps.
Context {PR : Proposals} (members : gset Z).

Definition quorum (q : gset Z) : Prop :=
  q ⊆ members /\ (size members < 2 * size q)%nat.

(** The members whose log is known to reach [i]. *)
Definition holders (m : gmap Z nat) (i : nat) : gset Z :=
  dom (filter (fun p : Z * nat => (i <= snd p)%nat) m).

(** The moves of member [n]. *)
Inductive step (n : Z) (g : t) : t -> Prop :=
| step_term u :
    term g n < u ->
    step n g (g <| term := upd (term g) n u |> <| vote := upd (vote g) n 0 |>
              <| role := upd (role g) n RoleFollower |>)
| step_campaign g' :
    n ∈ members -> n <> 0 ->
    g' = g <| term := upd (term g) n (term g n + 1) |>
           <| role := upd (role g) n RoleCandidate |>
           <| votes := upd (votes g) n {[n]} |> ->
    step n g (cast_vote g' n n)
| step_request :
    role g n = RoleCandidate ->
    step n g (say g (VoteReq n (term g n) (length (log g n)) (last_term (log g n))))
| step_grant c li lt :
    VoteReq c (term g n) li lt ∈ net g -> n ∈ members -> c <> n -> c <> 0 ->
    vote g n = 0 \/ vote g n = c -> up_to_date li lt (log g n) ->
    step n g (say (cast_vote g n c) (VoteGrant n c (term g n)))
| step_vote a :
    role g n = RoleCandidate -> VoteGrant a n (term g n) ∈ net g ->
    step n g (g <| votes := upd (votes g) n ({[a]} ∪ votes g n) |>)
| step_lead :
    role g n = RoleCandidate -> quorum (votes g n) ->
    step n g (elect g n)
| step_append e :
    role g n = RoleLeader -> Entry.term e = term g n -> proposed e ->
    step n g (extend g n e)
| step_send prev :
    role g n = RoleLeader -> (prev <= length (log g n))%nat ->
    step n g (say g (Append n (term g n) prev (term_at (log g n) prev)
                     (drop prev (log g n)) (commit g n)))
| step_merge l prev pt es cm j j' :
    Append l (term g n) prev pt es cm ∈ net g -> n ∈ members -> l <> n ->
    role g n = RoleFollower -> agrees (log g n) prev pt es j -> (j < j' <= length es)%nat ->
    (forall e e', es !! j = Some e -> log g n !! (prev + j)%nat = Some e' ->
       Entry.term e' <> Entry.term e) ->
    (prev + j <= length (log g n))%nat ->
    step n g (rewrite_log g n (take (prev + j) (log g n) ++ take (j' - j) (drop j es)))
| step_ack l prev pt es cm :
    Append l (term g n) prev pt es cm ∈ net g -> n ∈ members -> l <> n ->
    agrees (log g n) prev pt es (length es) ->
    step n g (say g (Ack n l (term g n) (prev + length es)))
| step_follow l prev pt es cm c :
    Append l (term g n) prev pt es cm ∈ net g -> n ∈ members -> l <> n ->
    agrees (log g n) prev pt es (length es) -> (commit g n < c <= cm)%nat ->
    step n g (g <| commit := upd (commit g) n c |>)
| step_match a m :
    role g n = RoleLeader -> Ack a n (term g n) m ∈ net g ->
    step n g (g <| matched := upd (matched g) n (<[a := m]> (matched g n)) |>)
| step_commit i :
    role g n = RoleLeader -> (commit g n < i <= length (log g n))%nat ->
    term_at (log g n) i = term g n -> quorum ({[n]} ∪ holders (matched g n) i) ->
    step n g (g <| commit := upd (commit g) n i |>)
| step_follower :
    step n g (g <| role := upd (role g) n RoleFollower |>)
| step_forget c :
    (c <= commit g n)%nat -> role g n = RoleFollower ->
    step n g (g <| commit := upd (commit g) n c |>).

Definition start : t :=
  mk (fun _ => 0) (fun _ => 0) (fun _ => []) (fun _ => 0%nat) (fun _ => RoleFollower)
    (fun _ => ∅) (fun _ => ∅) [] (fun _ => None) (fun _ => 0) (fun _ => 0%nat)
    (fun _ => ∅) (fun _ _ => []) (fun _ _ => 0).

(** Moves of one member, and of any. *)
Inductive steps (n : Z) (g : t) : t -> Prop :=
| steps_refl : steps n g g
| steps_step g1 g2 : steps n g g1 -> step n g1 g2 -> steps n g g2.

Inductive run (g : t) : t -> Prop :=
| run_refl : run g g
| run_step n g1 g2 : run g g1 -> step n g1 g2 -> run g g2.

End Steps.
End Spec.
