(* ===== verification/RaftSpecInv.v ===== *)
(** * Why the protocol is safe

    The invariant of [Spec.step] and its consequences: one leader per term,
    logs that agree wherever they have an entry of the same term, leaders that
    hold everything chosen before, and committed prefixes that never differ. *)

From S2P Require Import Prelude Msgpack Proto RaftSpec.
Import Spec.

Section SpecInv.
Context (members : gset Z).
Implicit Types (g : t) (l : log_t).

(** ** Quorums *)

Lemma quorum_meet q1 q2 :
  quorum members q1 -> quorum members q2 -> exists a, a ∈ q1 /\ a ∈ q2.
Proof.
  intros [S1 H1] [S2 H2]. destruct (decide (q1 ∩ q2 ≡ ∅)) as [He|He].
  - assert (size (q1 ∪ q2) = size q1 + size q2)%nat as Hs 
      by (by apply size_union, disjoint_intersection).
    assert (size (q1 ∪ q2) <= size members)%nat by (apply subseteq_size, union_least; done). lia.
  - apply set_choose in He as [a Ha]. exists a. by apply elem_of_intersection in Ha.
Qed.

(** ** What the messages and the recorded past say *)

(** [i] is chosen in term [u]: a quorum reported holding the leader's log up to
    an index of this term. *)
Definition chosen g (u : Z) (i : nat) : Prop :=
  exists T q, tlog g u = Some T /\ (0 < i <= length T)%nat /\ term_at T i = u /\
    quorum members q /\
    forall a, a ∈ q -> a = tlead g u \/ exists m, (i <= m)%nat /\ Ack a (tlead g u) u m ∈ net g.

(** The first [c] entries of [l] are decided by term [u]. *)
Definition decided g (u : Z) (l : log_t) (c : nat) : Prop :=
  c = 0%nat \/ exists u0 i T0, u0 <= u /\ chosen g u0 i /\ (c <= i)%nat /\
    tlog g u0 = Some T0 /\ take c l = take c T0.

(** Every entry of a log came with all before it from the leader of its term. *)
Definition from_leaders g l : Prop :=
  forall k e, l !! k = Some e ->
    exists T, tlog g (Entry.term e) = Some T /\ take (S k) l = take (S k) T.

Record Inv g : Prop := {
  (* terms and votes *)
  i_term : forall a, 0 <= term g a;
  i_cast : forall a, cast g a (term g a) = vote g a;
  i_cast_later : forall a u, term g a < u -> cast g a u = 0;
  i_req : forall c u li lt, VoteReq c u li lt ∈ net g ->
    u < term g c \/ (u = term g c /\
      (role g c = RoleCandidate -> li = length (log g c) /\ lt = last_term (log g c)));
  i_grant : forall a c u, VoteGrant a c u ∈ net g ->
    a ∈ members /\ c <> 0 /\ u <= term g a /\ cast g a u = c;
  (* candidates *)
  i_cand : forall n, role g n = RoleCandidate ->
    n ∈ members /\ n <> 0 /\ vote g n = n /\ 0 < term g n /\
    (tlog g (term g n) <> None -> tlead g (term g n) <> n);
  i_votes : forall n a, role g n = RoleCandidate -> a ∈ votes g n ->
    a = n \/ VoteGrant a n (term g n) ∈ net g;
  (* leaders *)
  i_lead : forall n, role g n = RoleLeader ->
    tlog g (term g n) = Some (log g n) /\ tlead g (term g n) = n;
  i_tlead : forall u T, tlog g u = Some T ->
    0 < u <= term g (tlead g u) /\ tlead g u <> 0 /\ tlead g u ∈ members /\
    hist g (tlead g u) u = T;
  i_equo : forall u T, tlog g u = Some T ->
    quorum members (equo g u) /\ forall a, a ∈ equo g u -> cast g a u = tlead g u;
  i_elen : forall u T, tlog g u = Some T -> (elen g u <= length T)%nat /\
    forall k e, T !! k = Some e ->
      if decide (k < elen g u)%nat then Entry.term e < u else Entry.term e = u;
  (* logs *)
  i_tlog : forall u T, tlog g u = Some T -> from_leaders g T;
  i_hist : forall a u, from_leaders g (hist g a u);
  i_hist_term : forall a u k e, hist g a u !! k = Some e -> Entry.term e <= u;
  i_hist_now : forall a u, term g a <= u -> hist g a u = log g a;
  i_hist_keep : forall a u T j, tlog g u = Some T -> (j <= length T)%nat ->
    take j (hist g a (u - 1)) = take j T -> take j (hist g a u) = take j T;
  i_hist_same : forall a u, tlog g u = None -> hist g a u = hist g a (u - 1);
  (* elections *)
  i_grant_log : forall a c u, VoteGrant a c u ∈ net g -> tlog g u = None ->
    exists li lt, VoteReq c u li lt ∈ net g /\ up_to_date li lt (hist g a (u - 1));
  i_equo_log : forall u T a, tlog g u = Some T -> a ∈ equo g u ->
    up_to_date (elen g u) (last_term (take (elen g u) T)) (hist g a (u - 1));
  (* replication *)
  i_append : forall n u prev pt es cm, Append n u prev pt es cm ∈ net g ->
    exists T, tlog g u = Some T /\ tlead g u = n /\ (prev + length es <= length T)%nat /\
      es = take (length es) (drop prev T) /\ pt = term_at T prev /\
      (cm <= prev + length es)%nat /\ decided g u T cm;
  i_ack : forall a n u m, Ack a n u m ∈ net g ->
    exists T, tlog g u = Some T /\ tlead g u = n /\ a ∈ members /\ u <= term g a /\
      (m <= length T)%nat /\ take m (hist g a u) = take m T;
  i_match : forall n a m, role g n = RoleLeader -> matched g n !! a = Some m ->
    Ack a n (term g n) m ∈ net g;
  i_commit : forall a, (commit g a <= length (log g a))%nat /\
    decided g (term g a) (log g a) (commit g a);
}.

(** ** Prefixes *)

Lemma take_le {A} (l1 l2 : list A) i j :
  take j l1 = take j l2 -> (i <= j)%nat -> take i l1 = take i l2.
Proof.
  intros H Hij. apply (f_equal (take i)) in H. by rewrite !take_take, !Nat.min_l in H by lia.
Qed.

Lemma take_lookup {A} (l1 l2 : list A) j k :
  take j l1 = take j l2 -> (k < j)%nat -> l1 !! k = l2 !! k.
Proof.
  intros H Hk. rewrite <- (lookup_take_lt l1 j k), <- (lookup_take_lt l2 j k) by done. by rewrite H.
Qed.

Lemma take_length_le {A} (l1 l2 : list A) j :
  take j l1 = take j l2 -> (j <= length l2)%nat -> (j <= length l1)%nat.
Proof. intros H Hj. apply (f_equal length) in H. rewrite !length_take in H. lia. Qed.

Lemma term_at_S l k e : l !! k = Some e -> term_at l (S k) = Entry.term e.
Proof. cbn. by intros ->. Qed.

Lemma term_at_take l1 l2 i :
  take i l1 = take i l2 -> term_at l1 i = term_at l2 i.
Proof. destruct i; [done|]. intros H. cbn. by rewrite (take_lookup _ _ _ i H) by lia. Qed.

Lemma spec_term_at l i : (0 < i <= length l)%nat ->
  exists k e, i = S k /\ l !! k = Some e /\ term_at l i = Entry.term e.
Proof.
  intros Hi. destruct i as [|k]; [lia|]. destruct (lookup_lt_is_Some_2 l k) as [e He]; [lia|].
  exists k, e. split_and!; [done|done|]. by apply term_at_S.
Qed.

(** ** Consequences of the invariant *)

Section Consequences.
Context {g : t} (I : Inv g).

(** Log matching: a common index and term make the prefixes equal. *)
Lemma same_term_same_prefix l1 l2 i :
  from_leaders g l1 -> from_leaders g l2 -> (i <= length l1)%nat -> (i <= length l2)%nat ->
  term_at l1 i = term_at l2 i -> take i l1 = take i l2.
Proof.
  intros H1 H2 L1 L2 Ht. destruct (decide (i = 0)%nat) as [->|]; [done|].
  destruct (spec_term_at l1 i) as (k & e1 & -> & E1 & T1); [lia|].
  destruct (spec_term_at l2 (S k)) as (k' & e2 & [= <-] & E2 & T2); [lia|].
  destruct (H1 _ _ E1) as (T & HT & ->). destruct (H2 _ _ E2) as (T' & HT' & ->).
  assert (T = T') as -> by congruence. done.
Qed.

Lemma tlog_terms u T k e : tlog g u = Some T -> T !! k = Some e -> Entry.term e <= u.
Proof.
  intros HT He. destruct (i_elen _ I u T HT) as [_ Hk]. specialize (Hk _ _ He).
  case_decide; lia.
Qed.

(** Terms do not decrease along a log. *)
Lemma terms_sorted l k1 k2 e1 e2 :
  from_leaders g l -> (k1 <= k2)%nat -> l !! k1 = Some e1 -> l !! k2 = Some e2 ->
  Entry.term e1 <= Entry.term e2.
Proof.
  intros Hl Hk H1 H2. destruct (Hl _ _ H2) as (T & HT & Ht).
  apply (tlog_terms _ T k1 _ HT). rewrite <- (take_lookup _ _ _ k1 Ht) by lia. done.
Qed.

Lemma last_term_ge l i : from_leaders g l -> (0 < i <= length l)%nat ->
  term_at l i <= last_term l.
Proof.
  intros Hl Hi. destruct (spec_term_at l i) as (k & e & -> & He & ->); [done|].
  unfold last_term. destruct (spec_term_at l (length l)) as (k' & e' & E' & He' & ->); [lia|].
  apply (terms_sorted l k k'); (done || lia).
Qed.

Lemma tlog_from u T : tlog g u = Some T -> from_leaders g T.
Proof. apply (i_tlog _ I). Qed.

Lemma log_from a : from_leaders g (log g a).
Proof. rewrite <- (i_hist_now _ I a (term g a)) by lia. apply (i_hist _ I). Qed.

(** A member of the quorum of a chosen index still holds it on leaving any term
    whose predecessors' leaders held it. *)
Lemma holder_keeps u T i a u' :
  tlog g u = Some T -> (i <= length T)%nat -> take i (hist g a u) = take i T -> u <= u' ->
  (forall w W, u < w <= u' -> tlog g w = Some W -> take i W = take i T) ->
  take i (hist g a u') = take i T.
Proof.
  intros HT Hi Ha Hle Hind. replace u' with (u + Z.of_nat (Z.to_nat (u' - u))) in * by lia.
  revert Hind. generalize (Z.to_nat (u' - u)). intros n. induction n as [|n IH]; intros Hind.
  - by rewrite Z.add_0_r.
  - set (w := u + Z.of_nat (S n)) in *.
    assert (take i (hist g a (w - 1)) = take i T) as Hp.
    { subst w. replace (u + Z.of_nat (S n) - 1) with (u + Z.of_nat n) by lia.
      apply IH. intros w W Hw. apply Hind. lia. }
    destruct (tlog g w) as [W|] eqn:HW.
    + assert (take i W = take i T) as E by (apply (Hind w); [subst w; lia|done]).
      rewrite <- E. apply (i_hist_keep _ I); [done| |congruence].
      eapply take_length_le; [exact E|done].
    + by rewrite (i_hist_same _ I) by done.
Qed.

Lemma chosen_held u i T a :
  tlog g u = Some T -> (i <= length T)%nat ->
  a = tlead g u \/ (exists m, (i <= m)%nat /\ Ack a (tlead g u) u m ∈ net g) ->
  take i (hist g a u) = take i T.
Proof.
  intros HT Hi [->|(m & Hm & Ha)].
  - destruct (i_tlead _ I u T HT) as (_ & _ & _ & ->). done.
  - destruct (i_ack _ I _ _ _ _ Ha) as (T' & HT' & _ & _ & _ & _ & E).
    assert (T' = T) as -> by congruence. by eapply take_le.
Qed.

(** The prefix that ends in an entry is the one its leader had. *)
Lemma last_prefix l : from_leaders g l -> 0 < last_term l ->
  exists W, tlog g (last_term l) = Some W /\ l = take (length l) W /\ (0 < length l <= length W)%nat.
Proof.
  intros Hl Hp. destruct (decide (length l = 0)%nat) as [E|E].
  { unfold last_term in Hp. rewrite E in Hp. cbn in Hp. lia. }
  destruct (spec_term_at l (length l)) as (k & e & Ek & He & Ht); [lia|].
  destruct (Hl _ _ He) as (W & HW & Etake). rewrite <- Ek, firstn_all in Etake.
  exists W. unfold last_term. rewrite Ht. split_and!; [done|done|lia|].
  apply (f_equal length) in Etake. rewrite length_take in Etake. lia.
Qed.

Lemma from_leaders_take l n : from_leaders g l -> from_leaders g (take n l).
Proof.
  intros Hl k e He. apply lookup_take_Some in He as [He Hk].
  destruct (Hl _ _ He) as (T & HT & E). exists T. split; [done|].
  rewrite take_take, Nat.min_l by lia. done.
Qed.

(** The log [E] of a candidate that is up to date with [L], in which index [i]
    has term [u], agrees with [L] there if all leaders between do. *)
Lemma up_to_date_holds E L T i u u' :
  from_leaders g E -> from_leaders g L -> tlog g u = Some T -> (0 < i <= length T)%nat ->
  term_at T i = u -> take i L = take i T -> last_term E < u' ->
  up_to_date (length E) (last_term E) L ->
  (forall w W, u < w < u' -> tlog g w = Some W -> take i W = take i T) ->
  take i E = take i T.
Proof.
  intros HE HL HT Hi Ht Hk Hlast Hup IH.
  assert (i <= length L)%nat as HiL by (eapply take_length_le; [exact Hk|lia]).
  assert (u <= last_term L) as HuL.
  { rewrite <- Ht, <- (term_at_take L T) by done. apply last_term_ge; (done || lia). }
  assert (0 < u) as Hu by apply (i_tlead _ I u T HT).
  assert (0 < last_term E) as HpE by (destruct Hup as [|[]]; lia).
  destruct (last_prefix E HE HpE) as (W & HW & EW & HlW).
  assert (forall n, (n <= length E)%nat -> take n E = take n W) as HTW.
  { intros n Hn. rewrite EW at 1. by rewrite take_take, Nat.min_l. }
  destruct Hup as [Hlt|[Heq Hlen]].
  - assert (take i W = take i T) as HWT by (apply (IH (last_term E)); [lia|done]).
    destruct (spec_term_at E (length E)) as (k & e & Ek & He & Hte); [lia|].
    destruct (decide (i <= length E)%nat); [by rewrite HTW|].
    destruct (spec_term_at W i) as (k2 & e2 & -> & He2 & Ht2).
    { split; [lia|]. eapply take_length_le; [exact HWT|lia]. }
    rewrite (term_at_take _ _ _ HWT), Ht in Ht2.
    assert (W !! k = Some e) as HeW by (rewrite <- (take_lookup _ _ _ k (HTW _ (le_n _))); [done|lia]).
    assert (Entry.term e <= Entry.term e2).
    { apply (terms_sorted W k k2); try done; [by eapply tlog_from|lia]. }
    unfold last_term in *. lia.
  - destruct (last_prefix L HL) as (W' & HW' & EL & _); [lia|].
    assert (W' = W) as -> by congruence.
    rewrite HTW, <- Hk by lia. rewrite EL. by rewrite take_take, Nat.min_l.
Qed.

(** Leader completeness. *)
Lemma leaders_complete u i T :
  chosen g u i -> tlog g u = Some T ->
  forall u' T', u <= u' -> tlog g u' = Some T' -> take i T' = take i T.
Proof.
  intros (T0 & q & HT0 & Hi & Ht & Hq & Hmem) HT. assert (T0 = T) as -> by congruence.
  intros u'. induction (Z.lt_wf u u') as [u' _ IH]. intros T' Hle HT'.
  destruct (decide (u' = u)) as [->|Hne]; [congruence|].
  destruct (i_equo _ I _ _ HT') as [Hq' _].
  destruct (quorum_meet _ _ Hq Hq') as (a & Ha & Ha').
  assert (take i (hist g a (u' - 1)) = take i T) as Hk.
  { apply (holder_keeps u); try done; try lia.
    - apply chosen_held; auto. lia.
    - intros w W Hw. apply IH; lia. }
  destruct (i_elen _ I _ _ HT') as [Hel Hterms].
  set (E := take (elen g u') T').
  assert (length E = elen g u') as HlE by (subst E; rewrite length_take; lia).
  assert (last_term E < u') as Hlast.
  { unfold last_term. destruct (decide (length E = 0)%nat) as [->|].
    { pose proof (proj1 (i_tlead _ I u' T' HT')). cbn. lia. }
    destruct (spec_term_at E (length E)) as (k & e & Ek & He & ->); [lia|].
    apply lookup_take_Some in He as [He Hk']. specialize (Hterms _ _ He).
    by rewrite decide_True in Hterms. }
  assert (take i E = take i T) as HE.
  { apply (up_to_date_holds E (hist g a (u' - 1)) T i u u'); try done.
    - apply from_leaders_take. by eapply tlog_from.
    - apply (i_hist _ I).
    - rewrite HlE. by apply (i_equo_log _ I).
    - intros w W Hw. apply IH; lia. }
  rewrite <- HE. symmetry. subst E. rewrite take_take.
  apply take_length_le in HE; [|lia]. rewrite Nat.min_l by lia. done.
Qed.

(** What is decided by a term is in the log of its leader. *)
Lemma decided_leader u l c T :
  decided g u l c -> tlog g u = Some T -> take c l = take c T.
Proof.
  intros [->|(u0 & i & T0 & Hu & Hch & Hc & HT0 & ->)] HT; [done|].
  symmetry. eapply take_le; [|exact Hc]. by apply (leaders_complete u0 i T0 Hch HT0 u).
Qed.

(** Decided prefixes never differ. *)
Lemma decided_agree u u' l l' c :
  decided g u l c -> decided g u' l' c -> take c l = take c l'.
Proof.
  intros [->|(ua & ia & Ta & _ & Ca & La & HTa & ->)]; [done|].
  intros [->|(ub & ib & Tb & _ & Cb & Lb & HTb & ->)]; [done|].
  destruct (Z.le_ge_cases ua ub) as [Hle|Hle].
  - pose proof (leaders_complete _ _ _ Ca HTa _ _ Hle HTb) as E.
    symmetry. by eapply take_le.
  - pose proof (leaders_complete _ _ _ Cb HTb _ _ Hle HTa) as E. by eapply take_le.
Qed.

End Consequences.

(** ** Growth: leaders' logs only get longer, messages are never forgotten *)

Record grows g g' : Prop := {
  gr_tlog : forall u T, tlog g u = Some T -> exists T', tlog g' u = Some (T ++ T');
  gr_tlead : forall u, tlog g u <> None -> tlead g' u = tlead g u;
  gr_net : forall m, m ∈ net g -> m ∈ net g';
}.

Lemma grows_same g g' :
  tlog g' = tlog g -> tlead g' = tlead g -> (forall m, m ∈ net g -> m ∈ net g') -> grows g g'.
Proof.
  intros E1 E2 H. split; rewrite ?E1, ?E2; try done. intros u T HT. exists [].
  by rewrite app_nil_r.
Qed.

Lemma take_grow {A} (l T T' : list A) k e :
  l !! k = Some e -> take (S k) l = take (S k) T -> take (S k) l = take (S k) (T ++ T').
Proof.
  intros He E. rewrite E, take_app_le; [done|].
  apply lookup_lt_Some in He. apply (f_equal length) in E. rewrite !length_take in E. lia.
Qed.

Lemma from_leaders_grow g g' l : grows g g' -> from_leaders g l -> from_leaders g' l.
Proof.
  intros G Hl k e He. destruct (Hl k e He) as (T & HT & E).
  destruct (gr_tlog _ _ G _ _ HT) as [T' HT']. exists (T ++ T'). split; [done|].
  by eapply take_grow.
Qed.

Lemma chosen_grow g g' u i : grows g g' -> chosen g u i -> chosen g' u i.
Proof.
  intros G (T & q & HT & Hi & Ht & Hq & Hm). destruct (gr_tlog _ _ G _ _ HT) as [T' HT'].
  exists (T ++ T'), q. rewrite (gr_tlead _ _ G) by congruence. rewrite length_app.
  split_and!; try done; try lia.
  - rewrite <- Ht. symmetry. apply term_at_take. by rewrite take_app_le by lia.
  - intros a Ha. destruct (Hm a Ha) as [->|(m & Him & Hin)]; [by left|right].
    exists m. split; [done|]. by apply (gr_net _ _ G).
Qed.

Lemma decided_grow g g' u u' l c :
  grows g g' -> u <= u' -> decided g u l c -> decided g' u' l c.
Proof.
  intros G Hu [->|(u0 & i & T0 & H0 & Hch & Hc & HT0 & E)]; [by left|right].
  destruct (gr_tlog _ _ G _ _ HT0) as [T' HT']. exists u0, i, (T0 ++ T').
  split_and!; try done; [lia|by eapply chosen_grow|].
  destruct Hch as (T & _ & HT & Hi & _). assert (T = T0) as -> by congruence.
  rewrite E. by rewrite take_app_le by lia.
Qed.

(** ** Every step preserves the invariant *)

Ltac kept I :=
  first [ exact (i_term _ I) | exact (i_cast _ I) | exact (i_cast_later _ I) | exact (i_req _ I)
        | exact (i_grant _ I) | exact (i_cand _ I) | exact (i_votes _ I) | exact (i_lead _ I)
        | exact (i_tlead _ I) | exact (i_equo _ I) | exact (i_elen _ I) | exact (i_tlog _ I)
        | exact (i_hist _ I) | exact (i_hist_term _ I) | exact (i_hist_now _ I)
        | exact (i_hist_keep _ I) | exact (i_hist_same _ I) | exact (i_grant_log _ I)
        | exact (i_equo_log _ I) | exact (i_append _ I) | exact (i_ack _ I)
        | exact (i_match _ I) | exact (i_commit _ I) ].

Ltac preserve I := split; cbn; try kept I; unfold upd.

(** What the invariant says about the messages, leaders and roles at hand. *)
Ltac facts I :=
  try match goal with H : VoteReq _ _ _ _ ∈ net _ |- _ => pose proof (i_req _ I _ _ _ _ H) end;
  try match goal with H : VoteGrant _ _ _ ∈ net _ |- _ => pose proof (i_grant _ I _ _ _ H) end;
  try match goal with H : Ack _ _ _ _ ∈ net _ |- _ => pose proof (i_ack _ I _ _ _ _ H) end;
  try match goal with H : tlog _ _ = Some _ |- _ => pose proof (i_tlead _ I _ _ H) end.

Ltac by_cases I :=
  intros; facts I; repeat case_decide; subst;
  try match goal with H : role _ _ = RoleCandidate |- _ => pose proof (i_cand _ I _ H) end;
  try match goal with H : role _ _ = RoleLeader |- _ => pose proof (i_lead _ I _ H) end;
  try solve [ done | lia | naive_solver lia
            | first [ apply (i_term _ I) | apply (i_cast _ I) | apply (i_cast_later _ I)
                    | apply (i_votes _ I) | apply (i_hist_now _ I) | apply (i_match _ I) ];
              done || lia ].

Lemma commit_kept g g' :
  Inv g -> grows g g' -> (forall a, term g a <= term g' a) -> log g' = log g ->
  commit g' = commit g ->
  forall a, (commit g' a <= length (log g' a))%nat /\
    decided g' (term g' a) (log g' a) (commit g' a).
Proof.
  intros I G Ht El Ec a. rewrite El, Ec. destruct (i_commit _ I a) as [H D].
  split; [done|]. eapply decided_grow; [exact G|apply Ht|exact D].
Qed.

Ltac same_leaders := apply grows_same; [done|done|cbn; intros; rewrite ?elem_of_cons; auto].
Ltac commits I :=
  match goal with |- forall a, _ /\ decided ?g' _ _ _ =>
    apply (commit_kept _ g' I); [same_leaders|cbn; by_cases I|done|done]
  end.

Lemma term_step g n u :
  Inv g -> term g n < u ->
  Inv (g <| term := upd (term g) n u |> <| vote := upd (vote g) n 0 |>
         <| role := upd (role g) n RoleFollower |>).
Proof.
  intros I Hu. pose proof (i_term _ I n). preserve I; [..|commits I]; by_cases I.
Qed.

Lemma follower_step g n :
  Inv g -> Inv (g <| role := upd (role g) n RoleFollower |>).
Proof. intros I. preserve I; by_cases I. Qed.

Lemma decided_le g u l c c' : decided g u l c -> (c' <= c)%nat -> decided g u l c'.
Proof.
  intros [->|(u0 & i & T0 & Hu & Hch & Hc & HT0 & E)] Hle; [left; lia|].
  right. exists u0, i, T0. split_and!; try done; [lia|]. by eapply take_le.
Qed.

(** Only the commit index of [n] changes. *)
Lemma commit_index_step g n c :
  Inv g -> (c <= length (log g n))%nat -> decided g (term g n) (log g n) c ->
  Inv (g <| commit := upd (commit g) n c |>).
Proof.
  intros I Hc Hd. preserve I. intros a. destruct (i_commit _ I a). by case_decide; subst.
Qed.

Lemma forget_step g n c :
  Inv g -> (c <= commit g n)%nat -> Inv (g <| commit := upd (commit g) n c |>).
Proof.
  intros I Hc. destruct (i_commit _ I n) as [Hl Hd].
  apply commit_index_step; [done|lia|by eapply decided_le].
Qed.

(** A vote that overwrites none leaves the recorded elections alone. *)
Lemma equo_kept g cast' :
  Inv g -> (forall a u, cast g a u <> 0 -> cast' a u = cast g a u) ->
  forall u T, tlog g u = Some T ->
    quorum members (equo g u) /\ forall a, a ∈ equo g u -> cast' a u = tlead g u.
Proof.
  intros I Hc u T HT. destruct (i_equo _ I u T HT) as [Hq Ha]. split; [done|].
  intros a Hin. rewrite Hc; [by apply Ha|]. rewrite (Ha a Hin). apply (i_tlead _ I u T HT).
Qed.

Lemma campaign_step g n g' :
  Inv g -> n ∈ members -> n <> 0 ->
  g' = g <| term := upd (term g) n (term g n + 1) |>
         <| role := upd (role g) n RoleCandidate |> <| votes := upd (votes g) n {[n]} |> ->
  Inv (cast_vote g' n n).
Proof.
  intros I Hn H0 ->. pose proof (i_term _ I n).
  preserve I; [..|commits I]; try apply (equo_kept _ _ I); by_cases I.
  - split_and!; try done; [lia|]. intros HT E.
    destruct (tlog g (term g n + 1)) as [T|] eqn:ET; [|done].
    pose proof (i_tlead _ I _ _ ET) as (Hu & _). rewrite E in Hu. lia.
  - left. set_solver.
  - destruct_and!. subst. by rewrite (i_cast_later _ I) in * by lia.
Qed.

(** What a message may say. *)
Definition truthful g (m : message) : Prop :=
  match m with
  | VoteReq c u li lt =>
      u < term g c \/ (u = term g c /\
        (role g c = RoleCandidate -> li = length (log g c) /\ lt = last_term (log g c)))
  | VoteGrant a c u =>
      (a ∈ members /\ c <> 0 /\ u <= term g a /\ cast g a u = c) /\
      (tlog g u = None ->
        exists li lt, VoteReq c u li lt ∈ net g /\ up_to_date li lt (hist g a (u - 1)))
  | Append n u prev pt es cm =>
      exists T, tlog g u = Some T /\ tlead g u = n /\ (prev + length es <= length T)%nat /\
        es = take (length es) (drop prev T) /\ pt = term_at T prev /\
        (cm <= prev + length es)%nat /\ decided g u T cm
  | Ack a n u m =>
      exists T, tlog g u = Some T /\ tlead g u = n /\ a ∈ members /\ u <= term g a /\
        (m <= length T)%nat /\ take m (hist g a u) = take m T
  end.

Lemma say_grows g m : grows g (say g m).
Proof. apply grows_same; try done. cbn. intros. by right. Qed.

Lemma say_step g m : Inv g -> truthful g m -> Inv (say g m).
Proof.
  intros I Hm. pose proof (say_grows g m) as G. preserve I.
  - intros c u li lt [<-|H]%elem_of_cons; [done|by eapply i_req].
  - intros a c u [<-|H]%elem_of_cons; [apply Hm|by eapply i_grant].
  - intros n a Hn Ha. destruct (i_votes _ I n a Hn Ha); [by left|right; by right].
  - intros a c u [<-|H]%elem_of_cons HT.
    + destruct Hm as [_ Hm]. destruct (Hm HT) as (li & lt & H & Hu). exists li, lt.
      split; [by right|done].
    + destruct (i_grant_log _ I _ _ _ H HT) as (li & lt & H' & Hu). exists li, lt.
      split; [by right|done].
  - intros n u prev pt es cm H.
    assert (truthful g (Append n u prev pt es cm)) as (T & HT & E1 & E2 & E3 & E4 & E5 & E6).
    { apply elem_of_cons in H as [<-|H]; [done|by apply (i_append _ I)]. }
    exists T. split_and!; try done. by eapply decided_grow.
  - intros a n u k [<-|H]%elem_of_cons; [done|by apply (i_ack _ I)].
  - intros n a k Hn Ha. right. by apply (i_match _ I).
  - intros a. destruct (i_commit _ I a). split; [done|]. by eapply decided_grow.
Qed.

Lemma request_step g n :
  Inv g -> role g n = RoleCandidate ->
  Inv (say g (VoteReq n (term g n) (length (log g n)) (last_term (log g n)))).
Proof. intros I Hn. apply say_step; [done|]. by right. Qed.

Lemma grant_step g n c li lt :
  Inv g -> VoteReq c (term g n) li lt ∈ net g -> n ∈ members -> c <> n -> c <> 0 ->
  vote g n = 0 \/ vote g n = c -> up_to_date li lt (log g n) ->
  Inv (say (cast_vote g n c) (VoteGrant n c (term g n))).
Proof.
  intros I Hreq Hn Hcn H0 Hv Hup. apply say_step.
  - pose proof (i_cast _ I n). preserve I; try apply (equo_kept _ _ I); by_cases I.
  - split; cbn.
    { rewrite decide_True by done. by split_and!. }
    intros HT. exists li, lt. split; [done|].
    by rewrite <- (i_hist_same _ I), (i_hist_now _ I).
Qed.

Lemma vote_step g n a :
  Inv g -> role g n = RoleCandidate -> VoteGrant a n (term g n) ∈ net g ->
  Inv (g <| votes := upd (votes g) n ({[a]} ∪ votes g n) |>).
Proof.
  intros I Hn Ha. preserve I. intros m b Hm Hb. case_decide; subst.
  - apply elem_of_union in Hb as [Hb|Hb]; [set_solver|by apply (i_votes _ I)].
  - by apply (i_votes _ I).
Qed.

Lemma candidate_cast g n a :
  Inv g -> role g n = RoleCandidate -> a ∈ votes g n -> cast g a (term g n) = n.
Proof.
  intros I Hn Ha. destruct (i_votes _ I n a Hn Ha) as [->|Hg].
  - rewrite (i_cast _ I). apply (i_cand _ I n Hn).
  - by apply (i_grant _ I) in Hg as (_ & _ & _ & ->).
Qed.

(** Election safety: a candidate that can win is the first of its term. *)
Lemma no_leader_yet g n :
  Inv g -> role g n = RoleCandidate -> quorum members (votes g n) -> tlog g (term g n) = None.
Proof.
  intros I Hn Hq. destruct (tlog g (term g n)) as [T|] eqn:ET; [|done]. exfalso.
  destruct (i_equo _ I _ _ ET) as [Hq' Hc]. destruct (quorum_meet _ _ Hq Hq') as (a & Ha & Ha').
  destruct (i_cand _ I n Hn) as (_ & _ & Hv & _ & Hl). apply Hl; [congruence|].
  rewrite <- (Hc a Ha'). by apply candidate_cast.
Qed.

(** The entries of a member that leads no one are from earlier terms. *)
Lemma log_terms g n k e :
  Inv g -> tlog g (term g n) = None -> log g n !! k = Some e -> Entry.term e < term g n.
Proof.
  intros I HT He. destruct (log_from I n k e He) as (T & HT' & _).
  assert (Entry.term e <= term g n).
  { apply (i_hist_term _ I n (term g n) k). by rewrite (i_hist_now _ I). }
  assert (Entry.term e <> term g n) by congruence. lia.
Qed.

Lemma candidate_up_to_date g n a :
  Inv g -> role g n = RoleCandidate -> tlog g (term g n) = None -> a ∈ votes g n ->
  up_to_date (length (log g n)) (last_term (log g n)) (hist g a (term g n - 1)).
Proof.
  intros I Hn HT Ha. destruct (i_votes _ I n a Hn Ha) as [->|Hg].
  - rewrite <- (i_hist_same _ I), (i_hist_now _ I) by done. by right.
  - destruct (i_grant_log _ I _ _ _ Hg HT) as (li & lt & Hr & Hup).
    destruct (i_req _ I _ _ _ _ Hr) as [|[_ H]]; [lia|]. destruct (H Hn) as [-> ->]. done.
Qed.

Lemma lead_grows g n : tlog g (term g n) = None -> grows g (elect g n).
Proof.
  intros HT. split; cbn; unfold upd.
  - intros u T H. rewrite decide_False by congruence. exists []. by rewrite app_nil_r.
  - intros u H. by rewrite decide_False by congruence.
  - done.
Qed.

Lemma lead_step g n :
  Inv g -> role g n = RoleCandidate -> quorum members (votes g n) -> Inv (elect g n).
Proof.
  intros I Hn Hq. pose proof (no_leader_yet g n I Hn Hq) as HT.
  pose proof (lead_grows g n HT) as G. pose proof (i_cand _ I n Hn) as Hc.
  preserve I.
  - by_cases I.
  - by_cases I.
  - by_cases I.
  - intros m Hm. pose proof (i_lead _ I m). repeat case_decide; subst; try naive_solver.
    destruct (H Hm). congruence.
  - intros u T. case_decide; subst; [intros [= <-]|apply (i_tlead _ I)].
    split_and!; try apply Hc; [lia|]. by apply (i_hist_now _ I).
  - intros u T. case_decide; subst; [intros _|apply (i_equo _ I)].
    split; [done|]. intros a. by apply candidate_cast.
  - intros u T. case_decide; subst; [intros [= <-]|apply (i_elen _ I)].
    split; [done|]. intros k e He. rewrite decide_True by (by eapply lookup_lt_Some).
    by eapply log_terms.
  - intros u T HT'. apply (from_leaders_grow _ _ _ G). case_decide; subst.
    + injection HT' as <-. apply (log_from I).
    + by apply (i_tlog _ I u).
  - intros a u. apply (from_leaders_grow _ _ _ G), (i_hist _ I).
  - intros a u T j. case_decide; subst; [|apply (i_hist_keep _ I)].
    intros _ _. by rewrite (i_hist_same _ I) with (u := term g n).
  - intros a u. case_decide; [done|]. apply (i_hist_same _ I).
  - intros a c u H. case_decide; [done|]. by apply (i_grant_log _ I).
  - intros u T a. case_decide; subst; [intros [= <-]|apply (i_equo_log _ I)].
    rewrite firstn_all. by apply candidate_up_to_date.
  - intros m u prev pt es cm H.
    destruct (i_append _ I _ _ _ _ _ _ H) as (T & H1 & H2 & H3 & H4 & H5 & H6 & H7).
    rewrite !decide_False by congruence. exists T. split_and!; try done. by eapply decided_grow.
  - intros a m u k H. destruct (i_ack _ I _ _ _ _ H) as (T & H1 & H2).
    rewrite !decide_False by congruence. by exists T.
  - intros m a k. case_decide; [by rewrite lookup_empty|]. apply (i_match _ I).
  - intros a. destruct (i_commit _ I a). split; [done|]. by eapply decided_grow.
Qed.

(** *** A leader's log grows *)

Lemma extend_grows g n e :
  tlog g (term g n) = Some (log g n) -> grows g (extend g n e).
Proof.
  intros HT. split; cbn; unfold upd; [|done|done]. intros u T H. case_decide; subst.
  - exists [e]. congruence.
  - exists []. by rewrite app_nil_r.
Qed.

Lemma extend_from g n e :
  Inv g -> tlog g (term g n) = Some (log g n) -> Entry.term e = term g n ->
  from_leaders (extend g n e) (log g n ++ [e]).
Proof.
  intros I HT He k e' Hk. apply lookup_app_Some in Hk as [Hk|[Hle Hk]].
  - destruct (from_leaders_grow _ _ _ (extend_grows g n e HT) (log_from I n) k e' Hk) as (T & H1 & H2).
    exists T. split; [done|]. rewrite take_app_le; [done|]. apply lookup_lt_Some in Hk. lia.
  - apply list_lookup_singleton_Some in Hk as [Hk <-]. exists (log g n ++ [e]).
    split; [|done]. cbn. unfold upd. by rewrite He, decide_True.
Qed.

(** The new log of [n] reaches no vote, election or term it has passed. *)
Lemma rewritten_past g n l a u :
  u < term g n \/ a <> n -> hist (rewrite_log g n l) a u = hist g a u.
Proof. intros H. cbn. rewrite decide_False; [done|]. lia. Qed.

Lemma rewritten_now g n l u : term g n <= u -> hist (rewrite_log g n l) n u = l.
Proof. intros H. cbn. by rewrite decide_True. Qed.

Lemma voter_past g n a u :
  Inv g -> cast g a u <> 0 -> u - 1 < term g n \/ a <> n.
Proof.
  intros I Hc. destruct (decide (a = n)) as [->|]; [left|by right].
  destruct (decide (u <= term g n)); [lia|]. destruct Hc. apply (i_cast_later _ I). lia.
Qed.

Lemma rewrite_grant_log g g' n l :
  Inv g -> hist g' = hist (rewrite_log g n l) -> net g' = net g ->
  (forall u, tlog g' u = None -> tlog g u = None) ->
  forall a c u, VoteGrant a c u ∈ net g' -> tlog g' u = None ->
    exists li lt, VoteReq c u li lt ∈ net g' /\ up_to_date li lt (hist g' a (u - 1)).
Proof.
  intros I Eh En Hl a c u H HT. rewrite Eh, En in *.
  destruct (i_grant _ I _ _ _ H) as (_ & H0 & _ & Hc).
  rewrite rewritten_past by (apply voter_past; [done|congruence]).
  by apply (i_grant_log _ I), Hl.
Qed.

Lemma rewrite_equo_log g n l u T a :
  Inv g -> tlog g u = Some T -> a ∈ equo g u ->
  up_to_date (elen g u) (last_term (take (elen g u) T)) (hist (rewrite_log g n l) a (u - 1)).
Proof.
  intros I HT Ha. rewrite rewritten_past; [by apply (i_equo_log _ I)|].
  apply voter_past; [done|]. destruct (i_equo _ I _ _ HT) as [_ Hc]. rewrite (Hc a Ha).
  apply (i_tlead _ I u T HT).
Qed.

(** Facts about earlier messages survive a leader's log getting longer. *)
Lemma append_grown g g' n u prev pt es cm :
  Inv g -> grows g g' -> Append n u prev pt es cm ∈ net g -> truthful g' (Append n u prev pt es cm).
Proof.
  intros I G H. destruct (i_append _ I _ _ _ _ _ _ H) as (T & H1 & H2 & H3 & H4 & H5 & H6 & H7).
  destruct (gr_tlog _ _ G _ _ H1) as [T' HT']. exists (T ++ T').
  rewrite (gr_tlead _ _ G), length_app by congruence. split_and!; try done; try lia.
  - rewrite drop_app_le, take_app_le by (rewrite ?length_drop; lia). done.
  - rewrite H5. apply term_at_take. by rewrite take_app_le by lia.
  - destruct (decided_grow _ _ _ u _ _ G (Z.le_refl u) H7) as [|(u0 & i & T0 & Hd)]; [by left|right].
    exists u0, i, T0. by rewrite take_app_le by lia.
Qed.

Lemma extend_keep g n e a u T j :
  Inv g -> role g n = RoleLeader -> Entry.term e = term g n ->
  tlog (extend g n e) u = Some T -> (j <= length T)%nat ->
  take j (hist (extend g n e) a (u - 1)) = take j T ->
  take j (hist (extend g n e) a u) = take j T.
Proof.
  intros I Hn He HT Hj. destruct (i_lead _ I n Hn) as [HL _].
  change (hist (extend g n e)) with (hist (rewrite_log g n (log g n ++ [e]))).
  cbn [tlog extend set set_tlog] in HT. unfold upd in HT. case_decide as Eu; subst.
  - injection HT as <-. rewrite rewritten_past by lia. rewrite length_app in Hj. cbn in Hj. intros E.
    assert (j <= length (log g n))%nat as Hj'.
    { destruct (decide (j <= length (log g n))%nat); [done|]. exfalso.
      assert (hist g a (term g n - 1) !! length (log g n) = Some e) as Hl.
      { rewrite (take_lookup _ _ _ _ E) by lia. by apply list_lookup_middle. }
      apply (i_hist_term _ I) in Hl. lia. }
    rewrite take_app_le in E by done. rewrite (take_app_le (log g n)) by done.
    destruct (decide (a = n)) as [->|]; [rewrite rewritten_now by lia; by rewrite take_app_le|].
    rewrite rewritten_past by auto. by apply (i_hist_keep _ I).
  - destruct (decide (a = n /\ term g n <= u - 1)) as [[-> Hle]|Hn'].
    + by rewrite !rewritten_now by lia.
    + rewrite !rewritten_past by lia. by apply (i_hist_keep _ I).
Qed.

Lemma append_step g n e :
  Inv g -> role g n = RoleLeader -> Entry.term e = term g n -> Inv (extend g n e).
Proof.
  intros I Hn He. destruct (i_lead _ I n Hn) as [HL Hld].
  pose proof (extend_grows g n e HL) as G. pose proof (extend_from g n e I HL He) as F.
  destruct (i_elen _ I _ _ HL) as [Hel Hterms]. pose proof (i_tlead _ I _ _ HL) as Htl.
  preserve I.
  - intros c u li lt H. destruct (i_req _ I _ _ _ _ H) as [|[-> Hr]]; [by left|right].
    split; [done|]. intros Hc. rewrite decide_False by congruence. auto.
  - intros m Hm. pose proof (i_cand _ I m Hm) as Hc. case_decide as E; [|done].
    rewrite E in *. naive_solver.
  - intros m Hm. pose proof (i_lead _ I m Hm) as [H1 H2]. case_decide as E.
    + assert (m = n) as -> by congruence. by rewrite decide_True.
    + by rewrite decide_False by congruence.
  - intros u T. case_decide as E; subst; intros H.
    + injection H as <-. rewrite Hld in *. rewrite decide_True by done. naive_solver.
    + pose proof (i_tlead _ I u T H). rewrite decide_False; [done|]. intros [E' Hle].
      rewrite E' in *. lia.
  - intros u T. case_decide as E; subst; intros H; [by apply (i_equo _ I _ _ HL)|by eapply i_equo].
  - intros u T. case_decide as E; subst; intros H; [|by apply (i_elen _ I)].
    injection H as <-. rewrite length_app. split; [lia|]. intros k e' Hk.
    apply lookup_app_Some in Hk as [Hk|[Hle Hk]]; [by apply Hterms|].
    apply list_lookup_singleton_Some in Hk as [Hk <-]. by rewrite decide_False by lia.
  - intros u T. case_decide as E; subst; intros H; [by injection H as <-|].
    apply (from_leaders_grow _ _ _ G). by apply (i_tlog _ I u).
  - intros a u. case_decide; [done|]. apply (from_leaders_grow _ _ _ G), (i_hist _ I).
  - intros a u k e'. case_decide as E; [|apply (i_hist_term _ I)]. destruct E as [-> Hle].
    intros Hk. apply lookup_app_Some in Hk as [Hk|[_ Hk]].
    + rewrite <- (i_hist_now _ I n (term g n)) in Hk by lia. apply (i_hist_term _ I) in Hk. lia.
    + apply list_lookup_singleton_Some in Hk as [_ <-]. lia.
  - intros a u Hle. repeat case_decide; try (by apply (i_hist_now _ I)); subst; tauto.
  - intros a u T j. exact (extend_keep g n e a u T j I Hn He).
  - intros a u HT. case_decide as E; [done|]. repeat case_decide; try done; try lia.
    by apply (i_hist_same _ I).
  - apply (rewrite_grant_log g (extend g n e) n (log g n ++ [e])); try done.
    cbn. unfold upd. intros u. by case_decide.
  - intros u T a. case_decide as E; subst; intros H Ha.
    + injection H as <-. rewrite take_app_le by done. by apply (rewrite_equo_log g n (log g n ++ [e])).
    + by apply (rewrite_equo_log g n (log g n ++ [e])).
  - intros m u prev pt es cm H. exact (append_grown g _ m u prev pt es cm I G H).
  - intros a m u k H. destruct (i_ack _ I _ _ _ _ H) as (T & H1 & H2 & H3 & H4 & H5 & H6).
    case_decide as E; [|exists T; case_decide as E2; [destruct E2 as [-> ?]; lia|done]]. subst.
    assert (T = log g n) as -> by congruence. exists (log g n ++ [e]). rewrite length_app.
    split_and!; try done; [lia|]. case_decide; [done|]. by rewrite take_app_le.
  - intros a. destruct (i_commit _ I a) as [Hc Hd]. apply (decided_grow _ _ _ _ _ _ G (Z.le_refl _)) in Hd.
    case_decide; [|done]. subst. rewrite length_app. split; [lia|].
    destruct Hd as [|(u0 & i & T0 & Hd)]; [by left|right]. exists u0, i, T0. by rewrite take_app_le.
Qed.

(** *** Followers *)

Lemma sent_lookup (T es : log_t) prev j :
  es = take (length es) (drop prev T) -> (j < length es)%nat -> T !! (prev + j)%nat = es !! j.
Proof. intros E Hj. rewrite E, lookup_take_lt, lookup_drop by done. done. Qed.

(** A log that agrees with a message agrees with its sender's log. *)
Lemma agrees_prefix g n u prev pt es cm T j l :
  Inv g -> Append n u prev pt es cm ∈ net g -> tlog g u = Some T -> (j <= length es)%nat ->
  from_leaders g l -> agrees l prev pt es j -> (prev + j <= length l)%nat ->
  take (prev + j) l = take (prev + j) T.
Proof.
  intros I H HT Hj Hl (Hp & Ht & Hes) Hlen.
  destruct (i_append _ I _ _ _ _ _ _ H) as (T' & H1 & _ & H3 & H4 & H5 & _).
  assert (T' = T) as -> by congruence.
  apply (same_term_same_prefix (g := g)); try done; [by apply (i_tlog _ I u)|lia|].
  destruct j as [|j]; [by rewrite Nat.add_0_r, Ht|].
  destruct (lookup_lt_is_Some_2 es j) as [e He]; [lia|].
  destruct (Hes j e) as (e' & He' & Et); [lia|done|]. rewrite Nat.add_succ_r.
  rewrite (term_at_S l (prev + j) e'), Et by done. symmetry. apply term_at_S.
  by rewrite (sent_lookup T es prev j).
Qed.

(** Agreement on all the entries puts the log's end past them. *)
Lemma agrees_length l prev pt es :
  agrees l prev pt es (length es) -> (prev + length es <= length l)%nat.
Proof.
  intros (Hp & _ & Hes). destruct (length es) as [|n] eqn:En; [lia|].
  destruct (lookup_lt_is_Some_2 es n) as [e He]; [lia|].
  destruct (Hes n e) as (e' & He' & _); [lia|done|]. apply lookup_lt_Some in He'. lia.
Qed.

Lemma send_step g n prev :
  Inv g -> role g n = RoleLeader -> (prev <= length (log g n))%nat ->
  Inv (say g (Append n (term g n) prev (term_at (log g n) prev) (drop prev (log g n)) (commit g n))).
Proof.
  intros I Hn Hp. apply say_step; [done|]. destruct (i_lead _ I n Hn) as [HT Hl].
  destruct (i_commit _ I n) as [Hc Hd]. exists (log g n). rewrite length_drop.
  split_and!; try done; try lia. by rewrite take_ge by (rewrite length_drop; lia).
Qed.

Lemma ack_step g n ld prev pt es cm :
  Inv g -> Append ld (term g n) prev pt es cm ∈ net g -> n ∈ members ->
  agrees (log g n) prev pt es (length es) ->
  Inv (say g (Ack n ld (term g n) (prev + length es))).
Proof.
  intros I H Hn Ha. apply say_step; [done|].
  destruct (i_append _ I _ _ _ _ _ _ H) as (T & H1 & H2 & H3 & _).
  exists T. split_and!; try done. rewrite (i_hist_now _ I) by lia.
  eapply agrees_prefix; try done; [apply (log_from I)|by eapply agrees_length].
Qed.

Lemma decided_ext g u l l' c : take c l' = take c l -> decided g u l c -> decided g u l' c.
Proof.
  intros E [|(u0 & i & T0 & Hd)]; [by left|right]. exists u0, i, T0. by rewrite E.
Qed.

Lemma follow_step g n ld prev pt es cm c :
  Inv g -> Append ld (term g n) prev pt es cm ∈ net g ->
  agrees (log g n) prev pt es (length es) -> (commit g n < c <= cm)%nat ->
  Inv (g <| commit := upd (commit g) n c |>).
Proof.
  intros I H Ha Hc. pose proof (agrees_length _ _ _ _ Ha) as Hlen.
  destruct (i_append _ I _ _ _ _ _ _ H) as (T & H1 & _ & H3 & _ & _ & H6 & H7).
  apply commit_index_step; [done|lia|].
  eapply decided_ext; [|eapply decided_le; [exact H7|lia]].
  eapply take_le; [eapply agrees_prefix; try done; apply (log_from I)|lia].
Qed.

Lemma match_step g n a m :
  Inv g -> role g n = RoleLeader -> Ack a n (term g n) m ∈ net g ->
  Inv (g <| matched := upd (matched g) n (<[a := m]> (matched g n)) |>).
Proof.
  intros I Hn Ha. preserve I. intros k b j Hk. case_decide; subst; [|by apply (i_match _ I)].
  intros [[<- <-]|[_ H]]%lookup_insert_Some; [done|by apply (i_match _ I)].
Qed.

(** What a leader may commit is chosen. *)
Lemma commit_chosen g n i :
  Inv g -> role g n = RoleLeader -> (commit g n < i <= length (log g n))%nat ->
  term_at (log g n) i = term g n -> quorum members ({[n]} ∪ holders (matched g n) i) ->
  chosen g (term g n) i.
Proof.
  intros I Hn Hi Ht Hq. destruct (i_lead _ I n Hn) as [HT Hl].
  exists (log g n), ({[n]} ∪ holders (matched g n) i).
  split_and!; try done; try lia. rewrite Hl.
  intros a [->%elem_of_singleton|Ha]%elem_of_union; [by left|right].
  unfold holders in Ha. apply elem_of_dom in Ha as [k Hk].
  apply map_lookup_filter_Some in Hk as [Hk Hle]. exists k. split; [done|]. by apply (i_match _ I).
Qed.

Lemma commit_step g n i :
  Inv g -> role g n = RoleLeader -> (commit g n < i <= length (log g n))%nat ->
  term_at (log g n) i = term g n -> quorum members ({[n]} ∪ holders (matched g n) i) ->
  Inv (g <| commit := upd (commit g) n i |>).
Proof.
  intros I Hn Hi Ht Hq. destruct (i_lead _ I n Hn) as [HT Hl].
  apply commit_index_step; [done|lia|]. right. exists (term g n), i, (log g n).
  split_and!; try done. by apply commit_chosen.
Qed.

(** *** A follower takes entries *)

Section Merge.
Context {g : t} (I : Inv g) {n ld : Z} {prev : nat} {pt : Z} {es : log_t} {cm j j' : nat}.
Hypothesis Hmsg : Append ld (term g n) prev pt es cm ∈ net g.
Hypothesis Hagree : agrees (log g n) prev pt es j.
Hypothesis Hj : (j < j' <= length es)%nat.
Hypothesis Hconflict : forall e e', es !! j = Some e -> log g n !! (prev + j)%nat = Some e' ->
  Entry.term e' <> Entry.term e.
Hypothesis Hlen : (prev + j <= length (log g n))%nat.

Let new_log := take (prev + j) (log g n) ++ take (j' - j) (drop j es).

(** The new log is the sender's, cut where the message or the write ended. *)
Lemma merged_log T : tlog g (term g n) = Some T ->
  new_log = take (prev + j') T /\ (prev + j' <= length T)%nat.
Proof.
  intros HT. pose proof (agrees_prefix _ _ _ _ _ _ _ _ j _ I Hmsg HT ltac:(lia) (log_from I n)
    Hagree Hlen) as E. unfold new_log. rewrite E.
  destruct (i_append _ I _ _ _ _ _ _ Hmsg) as (T' & H1 & _ & H3 & H4 & _).
  assert (T' = T) as -> by congruence. split; [|lia]. rewrite H4.
  replace (prev + j')%nat with ((prev + j) + (j' - j))%nat by lia.
  rewrite skipn_firstn_comm, drop_drop, take_take, Nat.min_l by lia.
  apply take_take_drop.
Qed.

(** Where the old log agrees with the sender's, nothing is lost. *)
Lemma agreement_bound T q :
  tlog g (term g n) = Some T -> (q <= length T)%nat -> take q (log g n) = take q T ->
  (q <= prev + j)%nat.
Proof.
  intros HT Hq E. destruct (decide (q <= prev + j)%nat); [done|exfalso].
  destruct (i_append _ I _ _ _ _ _ _ Hmsg) as (T' & H1 & _ & H3 & H4 & _).
  assert (T' = T) as -> by congruence.
  destruct (lookup_lt_is_Some_2 es j) as [e He]; [lia|].
  assert (T !! (prev + j)%nat = Some e) as HTe by (by rewrite (sent_lookup T es) by (done || lia)).
  apply (Hconflict e e); [done| |done]. by rewrite (take_lookup _ _ _ _ E) by lia.
Qed.

Lemma spec_merged_keeps T q :
  tlog g (term g n) = Some T -> (q <= length T)%nat -> take q (log g n) = take q T ->
  take q new_log = take q T.
Proof.
  intros HT Hq E. destruct (merged_log T HT) as [-> _].
  pose proof (agreement_bound T q HT Hq E). by rewrite take_take, Nat.min_l by lia.
Qed.

Hypothesis Hn : n ∈ members.
Hypothesis Hld : ld <> n.
Hypothesis Hrole : role g n = RoleFollower.

Lemma merge_step : Inv (rewrite_log g n new_log).
Proof.
  destruct (i_append _ I _ _ _ _ _ _ Hmsg) as (T & HT & Htl & _).
  destruct (merged_log T HT) as [EL HlT].
  assert (grows g (rewrite_log g n new_log)) as G by (by apply grows_same).
  assert (from_leaders g new_log) as Hfrom.
  { rewrite EL. by eapply from_leaders_take, (i_tlog _ I). }
  pose proof (spec_merged_keeps T) as Hkeep. clearbody new_log.
  preserve I.
  - intros c u li lt H. destruct (i_req _ I _ _ _ _ H) as [|[-> Hr]]; [by left|right].
    split; [done|]. intros Hc. rewrite decide_False by congruence. auto.
  - intros m Hm. rewrite decide_False by congruence. by apply (i_lead _ I).
  - intros u T' H. pose proof (i_tlead _ I u T' H) as Hl. rewrite decide_False; [done|].
    intros [E Hle]. rewrite E in *. assert (u = term g n) as -> by lia. congruence.
  - intros a u. case_decide; [done|]. apply (i_hist _ I).
  - intros a u k e. case_decide as E; [|apply (i_hist_term _ I)]. rewrite EL. intros Hk.
    apply lookup_take_Some in Hk as [Hk _]. pose proof (tlog_terms I _ _ _ _ HT Hk). lia.
  - intros a u Hle. repeat case_decide; try (by apply (i_hist_now _ I)); subst; tauto.
  - intros a u T' q HT' Hq. destruct (decide (a = n /\ term g n <= u)) as [[-> Hle]|Hne].
    + destruct (decide (u = term g n)) as [->|]; [|by rewrite decide_True by lia].
      assert (T' = T) as -> by congruence. rewrite decide_False by lia. intros E.
      apply Hkeep; try done. rewrite <- (i_hist_now _ I n (term g n)) by lia.
      by apply (i_hist_keep _ I).
    + rewrite decide_False by lia. by apply (i_hist_keep _ I).
  - intros a u H. assert (u <> term g n) by congruence. repeat case_decide; try lia; [done|].
    by apply (i_hist_same _ I).
  - by apply (rewrite_grant_log g (rewrite_log g n new_log) n new_log).
  - intros u T' a. by apply (rewrite_equo_log g n new_log).
  - intros a m u k H. destruct (i_ack _ I _ _ _ _ H) as (T' & H1 & H2 & H3 & H4 & H5 & H6).
    exists T'. split_and!; try done. case_decide as E; [|done]. destruct E as [-> Hle].
    assert (u = term g n) as -> by lia. assert (T' = T) as -> by congruence.
    apply Hkeep; try done. by rewrite <- (i_hist_now _ I n (term g n)) by lia.
  - intros a. destruct (i_commit _ I a) as [Hc Hd]. case_decide; [subst a|done].
    pose proof (decided_leader I _ _ _ _ Hd HT) as E.
    assert (commit g n <= length T)%nat as Hl by (symmetry in E; by eapply take_length_le).
    pose proof (Hkeep _ HT Hl E) as E'. split.
    + by eapply take_length_le.
    + eapply decided_ext; [|exact Hd]. congruence.
Qed.

End Merge.

(** ** The theorem *)

Lemma start_inv : Inv start.
Proof.
  split; cbn; try done; try (intros; set_solver).
  - intros a. split; [done|by left].
Qed.

Context {PR : Proposals}.

Lemma step_inv n g g' : Inv g -> step members n g g' -> Inv g'.
Proof.
  intros I Hs. destruct Hs; subst.
  - by apply term_step.
  - by eapply campaign_step.
  - by apply request_step.
  - by eapply grant_step.
  - by apply vote_step.
  - by apply lead_step.
  - by apply append_step.
  - by apply send_step.
  - by eapply merge_step.
  - by eapply ack_step.
  - by eapply follow_step.
  - by apply match_step.
  - by apply commit_step.
  - by apply follower_step.
  - by apply forget_step.
Qed.

Lemma steps_inv n g g' : Inv g -> steps members n g g' -> Inv g'.
Proof. intros I Hs. induction Hs; [done|by eapply step_inv]. Qed.

Lemma reachable_inv g : run members start g -> Inv g.
Proof. intros Hr. induction Hr; [apply start_inv|by eapply step_inv]. Qed.

(** Every entry was proposed. *)
Definition Valid g : Prop := forall u T, tlog g u = Some T -> Forall proposed T.

Lemma log_valid g n : Inv g -> Valid g -> Forall proposed (log g n).
Proof.
  intros I V. apply Forall_lookup. intros k e He. destruct (log_from I n k e He) as (T & HT & E).
  apply (proj1 (Forall_lookup _ _) (V _ _ HT) k). rewrite <- (take_lookup _ _ _ k E) by lia. done.
Qed.

Lemma step_valid n g g' : Inv g -> Valid g -> step members n g g' -> Valid g'.
Proof.
  intros I V Hs. destruct Hs; subst; try exact V; intros w T; cbn; unfold upd.
  - case_decide; [|apply V]. intros [= <-]. by apply log_valid.
  - case_decide; [|apply V]. intros [= <-]. apply Forall_app. split; [by apply log_valid|].
    by constructor.
Qed.

Lemma steps_valid n g g' : Inv g -> Valid g -> steps members n g g' -> Valid g'.
Proof.
  intros I V Hs. induction Hs as [|g1 g2 Hs IH Hs']; [done|].
  eapply step_valid; [|done|done]. by eapply steps_inv.
Qed.

(** Nothing of the past is lost. *)
Lemma step_grows n g g' : Inv g -> step members n g g' -> grows g g'.
Proof.
  intros I Hs. destruct Hs; subst; try same_leaders.
  - apply lead_grows. by apply no_leader_yet.
  - apply extend_grows. by apply (i_lead _ I).
Qed.

Lemma grows_trans g1 g2 g3 : grows g1 g2 -> grows g2 g3 -> grows g1 g3.
Proof.
  intros [T1 L1 N1] [T2 L2 N2]. split; [| |auto].
  - intros u T HT. destruct (T1 _ _ HT) as [T' HT']. destruct (T2 _ _ HT') as [T'' HT''].
    exists (T' ++ T''). by rewrite app_assoc.
  - intros u Hu. destruct (tlog g1 u) as [T|] eqn:HT; [|done]. rewrite <- L1 by congruence.
    apply L2. destruct (T1 _ _ HT) as [T' ->]. done.
Qed.

Lemma run_grows g g' : Inv g -> run members g g' -> grows g g'.
Proof.
  intros I Hr.
  assert (Inv g' /\ grows g g') as [_ G]; [|done].
  induction Hr as [|n g1 g2 _ [I1 G1] Hs]; [split; [done|by apply grows_same]|].
  split; [by eapply step_inv|]. eapply grows_trans; [exact G1|by eapply step_grows].
Qed.

End SpecInv.
