(* ===== verification/ReadSpec.v ===== *)
(** * Commits and the leaders that made them

    What a read needs of the protocol beyond its safety: an index some member
    has committed was committed before by a leader, so a leader that asks a
    quorum whether it still leads, and hears that nobody had left its term,
    has committed or at least holds everything that was committed anywhere
    when it asked. *)

From S2P Require Import Prelude Msgpack Proto RaftSpec RaftSpecInv.
Import Spec.

Section ReadSpec.
Context {PR : Proposals} (members : gset Z).
Implicit Types (g : t) (l : log_t).

(** The leader of term [u] committed [k]: it is chosen there, and while that
    leader leads it knows. *)
Definition backed_in g (u : Z) (k : nat) : Prop :=
  exists i, chosen members g u i /\ (k <= i)%nat /\
    forall n, role g n = RoleLeader -> term g n = u -> (k <= commit g n)%nat.

Definition backed g (k : nat) : Prop := k = 0%nat \/ exists u, backed_in g u k.

Lemma backed_le g k k' : backed g k -> (k' <= k)%nat -> backed g k'.
Proof.
  intros [->|(u & i & Hc & Hk & Hl)] Hle; [left; lia|right]. exists u, i.
  split_and!; [done|lia|]. intros n Hn Hu. specialize (Hl n Hn Hu). lia.
Qed.

(** A leader was one before, and had not committed more, or was just elected. *)
Lemma step_leader n g g' a :
  Inv members g -> step members n g g' -> role g' a = RoleLeader ->
  (role g a = RoleLeader /\ term g' a = term g a /\ (commit g a <= commit g' a)%nat) \/
  tlog g (term g' a) = None.
Proof.
  intros I Hs. destruct Hs; subst; cbn; unfold upd; repeat case_decide; subst; intros Hl;
    try done; try (left; split_and!; [done|done|lia]); try congruence.
  right. by eapply no_leader_yet.
Qed.

Lemma backed_in_step n g g' u k :
  Inv members g -> step members n g g' -> backed_in g u k -> backed_in g' u k.
Proof.
  intros I Hs (i & Hc & Hk & Hl). exists i. split_and!; [|done|].
  - eapply chosen_grow; [by eapply step_grows|done].
  - intros a Ha Hu. destruct (step_leader n g g' a I Hs Ha) as [(Hr & E & Hle)|HT].
    + specialize (Hl a Hr). rewrite <- E in Hl. specialize (Hl Hu). lia.
    + destruct Hc as (T & _ & HT' & _). rewrite Hu in HT. congruence.
Qed.

Lemma backed_step n g g' k :
  Inv members g -> step members n g g' -> backed g k -> backed g' k.
Proof.
  intros I Hs [->|[u Hu]]; [by left|right]. exists u. by eapply backed_in_step.
Qed.

(** Whatever anybody has committed, or says is committed, a leader committed. *)
Record Backed g : Prop := {
  ba_commit : forall a, backed g (commit g a);
  ba_append : forall n u prev pt es cm, Append n u prev pt es cm ∈ net g -> backed g cm;
}.

(** A leader's own commit. *)
Lemma commit_backed g n i :
  Inv members g -> role g n = RoleLeader -> (commit g n < i <= length (log g n))%nat ->
  term_at (log g n) i = term g n -> quorum members ({[n]} ∪ holders (matched g n) i) ->
  backed (g <| commit := upd (commit g) n i |>) i.
Proof.
  intros I Hn Hi Ht Hq. right. exists (term g n), i. split_and!; [|done|].
  - eapply chosen_grow; [|by apply commit_chosen]. by apply grows_same.
  - intros a Ha Hu. cbn in *. unfold upd. case_decide as E; [done|]. destruct E.
    destruct (i_lead _ _ I n Hn) as [_ <-]. destruct (i_lead _ _ I a Ha) as [_ E]. congruence.
Qed.

Lemma Backed_step n g g' : Inv members g -> step members n g g' -> Backed g -> Backed g'.
Proof.
  intros I Hs [Hc Ha].
  assert (forall k, backed g k -> backed g' k) as Hk by (intros; by eapply backed_step).
  split.
  - intros a. destruct Hs; subst; cbn; unfold upd; try (by apply Hk).
    + case_decide; [|by apply Hk]. apply Hk. eapply backed_le; [by eapply Ha|lia].
    + case_decide; [|by apply Hk]. by apply commit_backed.
    + case_decide; [|by apply Hk]. apply Hk. eapply backed_le; [apply (Hc n)|done].
  - intros l u prev pt es cm Hin.
    assert (Append l u prev pt es cm ∈ net g \/ cm = commit g n) as [H| ->]
      by (destruct Hs; subst; cbn in Hin; set_solver).
    + by eapply Hk, Ha.
    + apply Hk, Hc.
Qed.

Lemma start_backed : Backed start.
Proof. split; cbn; [by left|set_solver]. Qed.

Lemma run_backed g g' : Inv members g -> Backed g -> run members g g' -> Inv members g' /\ Backed g'.
Proof.
  intros I S Hr. induction Hr as [|n g1 g2 _ [I1 S1] Hs]; [done|].
  split; [by eapply step_inv|by eapply Backed_step].
Qed.

(** The past of a run stays: terms grow and commits stay backed where they were. *)
Lemma run_kept g g' u k :
  Inv members g -> run members g g' -> backed_in g u k ->
  backed_in g' u k /\ forall a, term g a <= term g' a.
Proof.
  intros I Hr Hk.
  assert (Inv members g' /\ backed_in g' u k /\ forall a, term g a <= term g' a) as [_ H]; [|done].
  induction Hr as [|n g1 g2 _ (I1 & H1 & Ht) Hs]; [done|].
  split_and!; [by eapply step_inv|by eapply backed_in_step|].
  intros a. specialize (Ht a). destruct Hs; subst; cbn; unfold upd; try case_decide; subst; lia.
Qed.

(** A quorum whose members had not left term [u'] makes [u'] no earlier than any
    term in which something was chosen. *)
Lemma chosen_before g u i u' q :
  Inv members g -> chosen members g u i -> quorum members q ->
  (forall a, a ∈ q -> term g a <= u') -> u <= u'.
Proof.
  intros I (T & _ & HT & _) Hq Ha. destruct (i_equo _ _ I _ _ HT) as [Hq' Hcast].
  destruct (quorum_meet _ _ _ Hq Hq') as (a & Hin & Hin'). specialize (Ha a Hin).
  destruct (Z.le_gt_cases u (term g a)) as [|Hlt]; [lia|].
  pose proof (i_cast_later _ _ I a u Hlt) as E. rewrite (Hcast a Hin') in E.
  destruct (i_tlead _ _ I _ _ HT) as (_ & Hne & _). done.
Qed.

(** What an index of an earlier term is before: the first entry of the leader's
    term. *)
Lemma chosen_below g n u i j :
  Inv members g -> role g n = RoleLeader -> chosen members g u i -> u < term g n ->
  (i <= length (log g n))%nat /\
  ((0 < j <= length (log g n))%nat -> term_at (log g n) j = term g n -> (i < j)%nat).
Proof.
  intros I Hn Hc Hu. pose proof Hc as (T & q & HT & Hi & Ht & _).
  destruct (i_lead _ _ I n Hn) as [HTn _].
  pose proof (leaders_complete _ I _ _ _ Hc HT _ _ (Z.lt_le_incl _ _ Hu) HTn) as E.
  assert (i <= length (log g n))%nat as Hl by (eapply take_length_le; [exact E|lia]).
  split; [done|]. intros Hj Htj. destruct (Nat.lt_ge_cases i j) as [|Hge]; [done|].
  destruct (spec_term_at (log g n) i) as (k & e & -> & He & Hte); [lia|].
  destruct (spec_term_at (log g n) j) as (k' & e' & -> & He' & Hte'); [lia|].
  pose proof (terms_sorted _ I _ k' k e' e (log_from _ I n) ltac:(lia) He' He).
  rewrite (term_at_take _ _ _ E) in Hte. lia.
Qed.

End ReadSpec.
