(* ===== verification/RaftDisk.v ===== *)
(** * What a node leaves on its disk

    A member function either returns with the storage healthy, or stops the
    node: it throws, or it returns with [storage_failed_] set, after which
    [NodeRuntime] sends nothing more and stops.  [quiet] functions write
    nothing once the storage has failed, so what is on disk then is what was
    written before the failing flush and some prefix of what was buffered. *)

From S2P Require Import Prelude Msgpack Proto Crc32 Wal WalFacts Raft RaftLemmas RaftLog.
Import Raft.

Create HintDb quiet_db.

Section Disk.
Context {R : Rng} {Env : Type} {WP : WalPack} {WL : WalPackLaws}.
Implicit Types (s : t Env) (msg : Message.t) (rs ps : list record).

Definition wal_file : bytes := WalName.make_wal_name 0 0.

(** The handle has flushed [rs], the only file there is, and buffered [ps]. *)
Record logged (w : WAL.t) rs ps : Prop := {
  lg_represents : represents w rs ps;
  lg_flushed : Forall writable rs;
  lg_buffered : Forall writable ps;
  lg_name : WAL.fp_ w = wal_file;
  lg_files : Disk.files (WAL.disk_ w) = {[wal_file := encode_records rs]};
}.

Definition files_of s : gmap bytes bytes :=
  match wal_ s with Some w => Disk.files (WAL.disk_ w) | None => ∅ end.

(** After a failed flush: [rs] and the first bytes of [ps]. *)
Definition cut (files : gmap bytes bytes) rs ps : Prop :=
  exists k, (k <= length (encode_records ps))%nat /\
    files = {[wal_file := encode_records rs ++ take k (encode_records ps)]}.

Lemma sync_files w r w' :
  WAL.sync w = (r, w') -> dom (Disk.files (WAL.disk_ w)) = {[WAL.fp_ w]} ->
  Disk.files (WAL.disk_ w') = {[WAL.fp_ w := Disk.contents (WAL.fp_ w) (WAL.disk_ w')]}.
Proof.
  intros H Hd. assert (exists data, Disk.files (WAL.disk_ w) = {[WAL.fp_ w := data]}) as [data E].
  { assert (is_Some (Disk.files (WAL.disk_ w) !! WAL.fp_ w)) as [data Hl].
    { apply elem_of_dom. set_solver. }
    exists data. apply map_eq. intros k. destruct (decide (k = WAL.fp_ w)) as [->|Hk].
    - by rewrite lookup_singleton_eq.
    - rewrite lookup_singleton_ne by done. apply not_elem_of_dom. set_solver. }
  unfold Disk.contents.
  assert (exists data', Disk.files (WAL.disk_ w') = {[WAL.fp_ w := data']}) as [data' ->].
  { revert H. unfold WAL.sync, WAL.next_flush, WAL.write_out. run_m.
    repeat case_match; intros [= <- <-]; simplify_eq/=;
      try (exists data; exact E); eexists; rewrite ?E; by rewrite insert_singleton_eq. }
  by rewrite lookup_singleton_eq.
Qed.

Lemma sync_logged w rs ps :
  logged w rs ps ->
  match WAL.sync w with
  | (Ok true, w') => logged w' (rs ++ ps) []
  | (Ok false, w') => WAL.failed_ w' = true /\ cut (Disk.files (WAL.disk_ w')) rs ps
  | (Throw _, _) => False
  end.
Proof.
  intros [Hr Hw Hp Hn Hf]. pose proof (sync_spec w rs ps Hr) as H.
  destruct (WAL.sync w) as [r w'] eqn:E. apply sync_files in E as Ef.
  2:{ rewrite Hf, Hn. apply dom_singleton_L. }
  rewrite Hn in *. destruct r as [[]|]; [| |done].
  - destruct H as [Hr' Hn']. split; try done; [by apply Forall_app|].
    rewrite Ef. destruct Hr' as [Hc _]. rewrite Hn' in Hc. by rewrite Hc.
  - destruct H as (Hf' & _ & Hn' & k & Hk & Hc). split; [done|]. exists k. split; [done|].
    rewrite Ef. by rewrite Hn' in Hc; rewrite Hc.
Qed.

Lemma save_logged w r rs ps :
  logged w rs ps -> record_typed r ->
  match WAL.append_record (record_type r) (record_payload r) w with
  | (Ok _, w') => logged w' rs (ps ++ [r])
  | (Throw _, w') => logged w' rs ps
  end.
Proof.
  intros [Hr Hw Hp Hn Hf] Ht. pose proof (append_record_spec w r rs ps Hr Ht) as H.
  destruct (WAL.append_record _ _ w) as [[]  w'].
  - destruct H as (Hr' & Hwr & Hd & Hfp). split; try done; [|congruence|congruence].
    apply Forall_app. by split; [|constructor].
  - destruct H as [-> _]. done.
Qed.

(** Recovery of a cut log finds the flushed records and some of the others. *)
Lemma whole_cut rs ps k :
  exists i, whole_records (length (encode_records rs) + k) (rs ++ ps) = rs ++ take i ps.
Proof.
  induction rs as [|r rs IH]; cbn [app].
  - cbn. revert k. induction ps as [|p ps IHp]; intros k; cbn [whole_records]; [by exists 0%nat|].
    case_decide; [|by exists 0%nat]. destruct (IHp (k - length (encode_record p))%nat) as [i Hi].
    exists (S i). cbn [take app] in *. by rewrite Hi.
  - destruct IH as [i Hi]. exists i. cbn [whole_records].
    rewrite encode_records_cons, length_app. rewrite decide_True by lia. cbn [app]. f_equal.
    rewrite <- Hi. f_equal. lia.
Qed.

(** ** Functions that write nothing after a failure *)


Definition dead s : Prop :=
  storage_failed_ s = true /\ exists w, wal_ s = Some w /\ WAL.failed_ w = true.

Definition quiet {A} (m : M (t Env) A) : Prop :=
  forall s, dead s -> dead (snd (m s)) /\ files_of (snd (m s)) = files_of s.

Lemma quiet_ret {A} (a : A) : quiet (mret a).
Proof. done. Qed.

Lemma quiet_get : quiet get.
Proof. done. Qed.

Lemma quiet_bind {A B} (m : M (t Env) A) (f : A -> M (t Env) B) :
  quiet m -> (forall a, quiet (f a)) -> quiet (m ≫= f).
Proof.
  intros Hm Hf s Hs. destruct (Hm s Hs) as [H1 E1]. unfold mbind, M_bind.
  destruct (m s) as [[a|e] s']; [|done]. cbn in *. destruct (Hf a s' H1) as [H2 E2].
  split; [done|congruence].
Qed.

Lemma quiet_modify (f : t Env -> t Env) :
  (forall s, wal_ (f s) = wal_ s /\ storage_failed_ (f s) = storage_failed_ s) ->
  quiet (modify f).
Proof.
  intros Hf s [H1 H2]. destruct (Hf s) as [E1 E2]. unfold dead, files_of. cbn.
  rewrite E1, E2. done.
Qed.

Lemma quiet_when b (m : M (t Env) unit) : quiet m -> quiet (when b m).
Proof. intros Hm. by destruct b. Qed.

Lemma quiet_for_each {A} (l : list A) (body : A -> M (t Env) unit) :
  (forall x, quiet (body x)) -> quiet (for_each l body).
Proof.
  intros Hb. induction l as [|x l IH]; cbn [for_each]; [apply quiet_ret|].
  by apply quiet_bind.
Qed.

Lemma quiet_sync : quiet sync_wal.
Proof.
  intros s [H1 (w & H2 & H3)]. unfold sync_wal, WAL.sync. run_m. rewrite H2, H3.
  unfold dead, files_of. cbn. rewrite H2. eauto.
Qed.

(** Saving touches the buffer alone. *)
Lemma append_record_state type data w :
  exists b, snd (WAL.append_record type data w) = w <| WAL.buffer_ := b |>.
Proof.
  unfold WAL.append_record. run_m.
  case_match; cbn; [exists (WAL.buffer_ w); by destruct w|by eexists].
Qed.

Lemma quiet_if_wal (m : M WAL.t unit) :
  (forall w, exists b, snd (m w) = w <| WAL.buffer_ := b |>) -> quiet (if_wal m).
Proof.
  intros Hm s [H1 (w & H2 & H3)]. unfold if_wal. rewrite H2. destruct (Hm w) as [b E].
  destruct (m w) as [r w']. cbn in E. subst w'. unfold dead, files_of. cbn. rewrite H2. eauto.
Qed.

Lemma save_states w :
  (forall h, exists b, snd (WAL.save_hard_state h w) = w <| WAL.buffer_ := b |>) /\
  (forall e, exists b, snd (WAL.save_entry e w) = w <| WAL.buffer_ := b |>) /\
  (forall x, exists b, snd (WAL.save_snapshot x w) = w <| WAL.buffer_ := b |>).
Proof.
  assert (exists b, w = w <| WAL.buffer_ := b |>) as [b Hb] by (exists (WAL.buffer_ w); by destruct w).
  unfold WAL.save_hard_state, WAL.save_entry, WAL.save_snapshot.
  split_and!; intros x; try apply append_record_state; case_match;
    try apply append_record_state; run_m; by exists b.
Qed.

Ltac quiet_step :=
  lazymatch goal with
  | |- quiet (_ ≫= _) => apply quiet_bind; [|intros ?]
  | |- quiet (mret _) => apply quiet_ret
  | |- quiet get => apply quiet_get
  | |- quiet (modify _) => apply quiet_modify; intros ?; split; reflexivity
  | |- quiet (when _ _) => apply quiet_when
  | |- quiet (for_each _ _) => apply quiet_for_each; intros ?
  | |- quiet sync_wal => apply quiet_sync
  | |- quiet (if_wal _) => apply quiet_if_wal; intros ?; apply save_states
  | |- quiet (let _ := _ in _) => cbv zeta
  | |- quiet (match ?x with _ => _ end) => destruct x
  end.

Ltac quiet_by := intros; repeat quiet_step; auto with quiet_db.

Lemma quiet_reset_timeout : quiet reset_randomized_election_timeout.
Proof. unfold reset_randomized_election_timeout. quiet_by. Qed.
Hint Resolve quiet_reset_timeout : quiet_db.

Lemma quiet_persist : quiet persist_hard_state.
Proof. unfold persist_hard_state, save_hard_state_now. quiet_by. Qed.
Hint Resolve quiet_persist : quiet_db.

Lemma quiet_push m : quiet (push_msg m).
Proof. unfold push_msg. quiet_by. Qed.
Hint Resolve quiet_push : quiet_db.

Lemma quiet_send m : quiet (send m).
Proof. apply quiet_push. Qed.
Hint Resolve quiet_send : quiet_db.

Lemma quiet_reply m : quiet (reply m).
Proof. unfold reply. quiet_by. Qed.
Hint Resolve quiet_reply : quiet_db.

Lemma quiet_follower term leader : quiet (become_follower term leader).
Proof. unfold become_follower. quiet_by. Qed.
Hint Resolve quiet_follower : quiet_db.

Lemma quiet_touch p : quiet (touch_progress p).
Proof. unfold touch_progress. quiet_by. Qed.
Hint Resolve quiet_touch : quiet_db.

Lemma quiet_broadcast : quiet broadcast_heartbeat.
Proof. unfold broadcast_heartbeat. quiet_by. Qed.
Hint Resolve quiet_broadcast : quiet_db.

Lemma quiet_leader : quiet become_leader.
Proof. unfold become_leader. quiet_by. Qed.
Hint Resolve quiet_leader : quiet_db.

Lemma quiet_candidate : quiet become_candidate.
Proof. unfold become_candidate. quiet_by. Qed.
Hint Resolve quiet_candidate : quiet_db.

Lemma quiet_campaign : quiet campaign.
Proof. unfold campaign. quiet_by. Qed.
Hint Resolve quiet_campaign : quiet_db.

Lemma quiet_prepare msg : quiet (prepare_for_leader_rpc msg).
Proof. unfold prepare_for_leader_rpc. quiet_by. Qed.
Hint Resolve quiet_prepare : quiet_db.

Lemma quiet_append_entry e : quiet (append_entry e).
Proof. unfold append_entry, save_entry_now. quiet_by. Qed.
Hint Resolve quiet_append_entry : quiet_db.

Lemma quiet_append_loop es : forall i, quiet (append_loop es i).
Proof. induction es as [|e es IH]; intros i; cbn [append_loop]; quiet_by. Qed.
Hint Resolve quiet_append_loop : quiet_db.

Lemma quiet_finish_read tok : quiet (finish_read_index tok).
Proof. unfold finish_read_index. quiet_by. Qed.
Hint Resolve quiet_finish_read : quiet_db.

Lemma quiet_propose data : quiet (propose data).
Proof. unfold propose. quiet_by. Qed.
Hint Resolve quiet_propose : quiet_db.

End Disk.

#[export] Hint Resolve quiet_reset_timeout quiet_persist quiet_push quiet_send quiet_reply
  quiet_follower quiet_touch quiet_broadcast quiet_leader quiet_candidate quiet_campaign
  quiet_prepare quiet_append_entry quiet_append_loop quiet_finish_read quiet_propose : quiet_db.

Ltac quiet_step :=
  lazymatch goal with
  | |- quiet (_ ≫= _) => apply quiet_bind; [|intros ?]
  | |- quiet (mret _) => apply quiet_ret
  | |- quiet get => apply quiet_get
  | |- quiet (modify _) => apply quiet_modify; intros ?; split; reflexivity
  | |- quiet (when _ _) => apply quiet_when
  | |- quiet (for_each _ _) => apply quiet_for_each; intros ?
  | |- quiet sync_wal => apply quiet_sync
  | |- quiet (let _ := _ in _) => cbv zeta
  | |- quiet (match ?x with _ => _ end) => destruct x
  end.
Ltac quiet_by := intros; repeat quiet_step; auto with quiet_db.
