(* ===== verification/RaftSim.v ===== *)
(** * Running a member function beside the protocol

    [sim m Q s g] says: running [m] from the node state [s], while the protocol
    is in state [g], either returns with healthy storage, and the protocol can
    follow to a state in [Q]; or it stops the node, and the protocol can follow
    to a state that agrees with what recovery will find on disk.  The rules
    below are the flushes of the WAL; everything else a member function does
    is symbolic execution. *)

From S2P Require Import Prelude Msgpack Proto Crc32 Wal WalFacts Raft RaftLemmas RaftLog.
From S2P Require Import RaftSpec RaftSpecInv RaftDisk.
Import Raft.

Section Sim.
Context {R : Rng} {Env : Type} {WP : WalPack} {WL : WalPackLaws} {PR : Proposals}.
Context (members : gset Z) (n : Z).
Implicit Types (s : t Env) (g : Spec.t) (rs ps : list record).

(** What a boot recovers from the records. *)
Definition recovery rs : WAL.recovered :=
  replay rs (recovered_start [] (Some SnapshotMeta.default)).

(** The durable state of member [n] fits its C++ types, and its log can be
    restored. *)
Definition durable g : Prop :=
  is_u64 (Spec.term g n) /\ is_u64 (Spec.vote g n) /\ indexed 0 (Spec.log g n) /\
  zlen (Spec.log g n) < u64_max /\ Forall typed (Spec.log g n).

(** The records hold the durable state of member [n]; the commit index may be
    behind. *)
Definition disk_rel g rs : Prop :=
  durable g /\ exists c, recovery rs =
    WAL.Recovered (HardStateProto.mk (Spec.term g n) (Spec.vote g n) c) (Spec.log g n)
      (Some SnapshotMeta.default) /\
    0 <= c <= Z.of_nat (Spec.commit g n).

(** A stopped member and its disk, which is empty before the first boot. *)
Definition down_rel (files : gmap bytes bytes) g : Prop :=
  Spec.role g n = Spec.RoleFollower /\
  ((files = ∅ /\ disk_rel g []) \/
   exists rs k, files = {[wal_file := take k (encode_records rs)]} /\
     (k <= length (encode_records rs))%nat /\ Forall writable rs /\
     disk_rel g (whole_records k rs)).

(** A running member has flushed exactly its durable state. *)
Definition linked s g : Prop :=
  storage_failed_ s = false /\
  exists w rs, wal_ s = Some w /\ logged w rs [] /\ disk_rel g rs.

Definition lost s g : Prop :=
  exists g', Spec.steps members n g g' /\ down_rel (files_of s) g'.

Definition sim {A} (m : M (t Env) A) (Q : A -> t Env -> Spec.t -> Prop) s g : Prop :=
  wp m (fun a s' => if storage_failed_ s' then dead s' /\ lost s' g
                    else exists g', Spec.steps members n g g' /\ Q a s' g')
       (fun _ s' => lost s' g) s.

Lemma steps_trans g1 g2 g3 :
  Spec.steps members n g1 g2 -> Spec.steps members n g2 g3 -> Spec.steps members n g1 g3.
Proof. intros H1 H2. induction H2; [done|]. eapply Spec.steps_step; eauto. Qed.

Lemma steps_one g g' : Spec.step members n g g' -> Spec.steps members n g g'.
Proof. intros H. eapply Spec.steps_step; [apply Spec.steps_refl|done]. Qed.

Lemma lost_steps s g g' : Spec.steps members n g g' -> lost s g' -> lost s g.
Proof. intros H (g'' & H' & Hd). exists g''. split; [by eapply steps_trans|done]. Qed.

(** The protocol may move first. *)
Lemma sim_steps {A} (m : M (t Env) A) Q s g g' :
  Spec.steps members n g g' -> sim m Q s g' -> sim m Q s g.
Proof.
  intros H Hm. eapply wp_mono; [exact Hm| |]; cbn.
  - intros a s'. case_match.
    + intros [Hd Hl]. split; [done|by eapply lost_steps].
    + intros (g'' & H' & HQ). exists g''. split; [by eapply steps_trans|done].
  - intros _ s'. by apply lost_steps.
Qed.

Lemma sim_ret {A} (a : A) Q s g :
  storage_failed_ s = false -> Q a s g -> sim (mret a) Q s g.
Proof.
  intros Hs HQ. unfold sim. apply wp_ret. rewrite Hs. exists g. split; [apply Spec.steps_refl|done].
Qed.

Lemma sim_bind {A B} (m : M (t Env) A) (f : A -> M (t Env) B) Q s g :
  sim m (fun a s' g' => sim (f a) Q s' g') s g -> (forall a, quiet (f a)) -> sim (m ≫= f) Q s g.
Proof.
  intros Hm Hq. unfold sim. apply wp_bind. eapply wp_mono; [exact Hm| |done].
  cbn. intros a s' H. destruct (storage_failed_ s') eqn:Hs.
  - destruct H as [Hd Hl]. destruct (Hq a s' Hd) as [Hd' Ef]. unfold wp.
    unfold lost in *. destruct (f a s') as [[b|e] s'']; cbn in *; rewrite Ef.
    + destruct Hd' as [E Hd']. rewrite E. done.
    + done.
  - destruct H as (g' & Hst & H). eapply wp_mono; [exact H| |]; cbn.
    + intros b s''. case_match.
      * intros [Hd Hl]. split; [done|by eapply lost_steps].
      * intros (g'' & H' & HQ). exists g''. split; [by eapply steps_trans|done].
    + intros _ s''. by apply lost_steps.
Qed.

Lemma sim_mono {A} (m : M (t Env) A) Q Q' s g :
  sim m Q s g -> (forall a s' g', Q a s' g' -> Q' a s' g') -> sim m Q' s g.
Proof.
  intros Hm HQ. eapply wp_mono; [exact Hm| |done]. cbn. intros a s'. case_match; [done|].
  intros (g' & Hst & HQ'). eauto.
Qed.

(** Code that leaves the storage alone. *)
Lemma sim_pure {A} (m : M (t Env) A) a s' Q s g :
  m s = (Ok a, s') -> storage_failed_ s' = false -> Q a s' g -> sim m Q s g.
Proof.
  intros E Hs HQ. unfold sim, wp. rewrite E, Hs. exists g. split; [apply Spec.steps_refl|done].
Qed.

(** The plumbing of member functions. *)
Lemma sim_bind_eq {A B} (m : M (t Env) A) (f : A -> M (t Env) B) a s' Q s g :
  m s = (Ok a, s') -> sim (f a) Q s' g -> sim (m ≫= f) Q s g.
Proof. intros E H. unfold sim, wp, mbind, M_bind in *. by rewrite E. Qed.

Lemma sim_same {A} (m m' : M (t Env) A) Q s s' g :
  m s = m' s' -> sim m' Q s' g -> sim m Q s g.
Proof. intros E H. unfold sim, wp in *. by rewrite E. Qed.

Lemma sim_bind_get {B} (f : t Env -> M (t Env) B) Q s g :
  sim (f s) Q s g -> sim (get ≫= f) Q s g.
Proof. by apply sim_bind_eq. Qed.

Lemma sim_bind_modify {B} h (f : unit -> M (t Env) B) Q s g :
  sim (f tt) Q (h s) g -> sim (modify h ≫= f) Q s g.
Proof. by apply sim_bind_eq. Qed.

Lemma sim_bind_ret {A B} (a : A) (f : A -> M (t Env) B) Q s g :
  sim (f a) Q s g -> sim (mret a ≫= f) Q s g.
Proof. by apply sim_bind_eq. Qed.

Lemma sim_modify h Q s g :
  storage_failed_ (h s) = false -> Q tt (h s) g -> sim (modify h) Q s g.
Proof. by apply sim_pure. Qed.

Lemma sim_if {A} (b : bool) (m1 m2 : M (t Env) A) Q s g :
  (b = true -> sim m1 Q s g) -> (b = false -> sim m2 Q s g) ->
  sim (if b then m1 else m2) Q s g.
Proof. destruct b; auto. Qed.

Lemma sim_bind_when {B} b (m : M (t Env) unit) (f : unit -> M (t Env) B) Q s g :
  (b = true -> sim (m ≫= f) Q s g) -> (b = false -> sim (f tt) Q s g) ->
  sim (when b m ≫= f) Q s g.
Proof. destruct b; [auto|]. intros _ H. apply sim_bind_ret. auto. Qed.

Lemma sim_when b (m : M (t Env) unit) Q s g :
  (b = true -> sim m Q s g) -> (b = false -> sim (mret tt) Q s g) -> sim (when b m) Q s g.
Proof. destruct b; auto. Qed.

Lemma sim_bind_if {A B} (b : bool) (m1 m2 : M (t Env) A) (f : A -> M (t Env) B) Q s g :
  (b = true -> sim (m1 ≫= f) Q s g) -> (b = false -> sim (m2 ≫= f) Q s g) ->
  sim ((if b then m1 else m2) ≫= f) Q s g.
Proof. destruct b; auto. Qed.

Lemma sim_bind_bind {A B C} (m : M (t Env) A) (f : A -> M (t Env) B) (h : B -> M (t Env) C) Q s g :
  sim (m ≫= fun a => f a ≫= h) Q s g -> sim ((m ≫= f) ≫= h) Q s g.
Proof.
  unfold sim, wp, mbind, M_bind. by destruct (m s) as [[a|e] s'].
Qed.

(** ** Stopping *)

Lemma step_role g : Spec.role g n = Spec.RoleFollower \/
  Spec.steps members n g (g <| Spec.role := Spec.upd (Spec.role g) n Spec.RoleFollower |>).
Proof. right. apply steps_one, Spec.step_follower. Qed.

(** Whatever the member's role, it is a follower once it stops. *)
Lemma lost_disk s g rs k :
  files_of s = {[wal_file := take k (encode_records rs)]} ->
  (k <= length (encode_records rs))%nat -> Forall writable rs -> disk_rel g (whole_records k rs) ->
  lost s g.
Proof.
  intros Hf Hk Hw Hd. eexists. split; [apply steps_one, (Spec.step_follower _ n)|].
  split; [cbn; unfold Spec.upd; by rewrite decide_True|]. right. by exists rs, k.
Qed.

Lemma lost_logged s g w rs ps :
  wal_ s = Some w -> logged w rs ps -> disk_rel g rs -> lost s g.
Proof.
  intros Hw [_ Hrs _ _ Hf] Hd. apply (lost_disk s g rs (length (encode_records rs))).
  - unfold files_of. rewrite Hw, Hf. by rewrite firstn_all.
  - done.
  - done.
  - by rewrite whole_records_all.
Qed.

(** ** The flush *)

Lemma sim_sync Q s g w rs ps gF :
  storage_failed_ s = false -> wal_ s = Some w -> logged w rs ps ->
  (forall i, (i < length ps)%nat -> exists g', Spec.steps members n g g' /\
     disk_rel g' (rs ++ take i ps)) ->
  Spec.steps members n g gF -> disk_rel gF (rs ++ ps) ->
  (forall w', linked (s <| wal_ := Some w' |>) gF -> Q true (s <| wal_ := Some w' |>) gF) ->
  sim sync_wal Q s g.
Proof.
  intros Hs Hw Hl Hcut HF HdF HQ. unfold sim, wp, sync_wal. rewrite Hw.
  pose proof (sync_logged w rs ps Hl) as H. destruct (WAL.sync w) as [[[]|] w']; [| |done].
  - change (storage_failed_ (s <| wal_ := Some w' |>)) with (storage_failed_ s). rewrite Hs.
    exists gF. split; [done|]. apply HQ. split; [done|]. by exists w', (rs ++ ps).
  - destruct H as [Hf (k & Hk & Ek)]. cbn. split; [by split; [|exists w']|].
    destruct (whole_cut rs ps k) as [i Hi].
    assert (exists g', Spec.steps members n g g' /\ disk_rel g' (rs ++ take i ps)) as (g' & Hst & Hd).
    { destruct (decide (i < length ps)%nat) as [Hlt|Hge]; [by apply Hcut|].
      exists gF. by rewrite take_ge by lia. }
    apply (lost_steps _ _ _ Hst). rewrite <- Hi in Hd. destruct Hl as [_ H1 H2 _ _].
    eapply (lost_disk _ _ (rs ++ ps) (length (encode_records rs) + k));
      [| |by apply Forall_app|exact Hd].
    + transitivity (Disk.files (WAL.disk_ w')); [done|]. rewrite Ek, encode_records_app, take_app.
      rewrite (take_ge (encode_records rs)) by lia. by rewrite Nat.add_sub_swap, Nat.sub_diag.
    + rewrite encode_records_app, length_app. lia.
Qed.

(** Saving a record in the buffer. *)
Lemma wp_save_record (r : record) (save : M WAL.t unit) Q E s w rs ps :
  wal_ s = Some w -> logged w rs ps -> record_typed r ->
  (forall w0, save w0 = WAL.append_record (record_type r) (record_payload r) w0) ->
  (forall w', logged w' rs (ps ++ [r]) -> Q tt (s <| wal_ := Some w' |>)) ->
  (forall e w', logged w' rs ps -> E e (s <| wal_ := Some w' |>)) ->
  wp (if_wal save) Q E s.
Proof.
  intros Hw Hl Ht Hsave HQ HE. unfold wp, if_wal. rewrite Hw, Hsave.
  pose proof (save_logged w r rs ps Hl Ht) as H.
  destruct (WAL.append_record _ _ w) as [[[]|] w']; auto.
Qed.

Lemma recovery_snoc rs r : recovery (rs ++ [r]) = replay_record (recovery rs) r.
Proof. unfold recovery, replay. by rewrite foldl_app. Qed.

(** [save_hard_state] and [sync]: the protocol moves from [g] to [g'] exactly
    when the record is on disk. *)
Lemma sim_persist Q s g g' :
  linked s g -> Spec.steps members n g g' ->
  typed (HardStateProto.mk (term_ s) (voted_for_ s) (commit_index_ s)) ->
  Spec.term g' n = term_ s -> Spec.vote g' n = voted_for_ s -> Spec.log g' n = Spec.log g n ->
  commit_index_ s <= Z.of_nat (Spec.commit g' n) ->
  0 < term_ s \/ 0 < voted_for_ s ->
  (forall w', linked (s <| wal_ := Some w' |>) g' -> Q true (s <| wal_ := Some w' |>) g') ->
  sim persist_hard_state Q s g.
Proof.
  intros (Hs & w & rs & Hw & Hl & Hd) Hst Ht Et Ev El Hc Hpos HQ.
  unfold sim, persist_hard_state, save_hard_state_now. do 2 apply wp_bind. apply wp_get.
  set (h := HardStateProto.mk (term_ s) (voted_for_ s) (commit_index_ s)) in *.
  eapply (wp_save_record (rec_hard_state h)); [done|done|done| | |].
  - intros w0. unfold WAL.save_hard_state, HardStateProto.is_empty, h. cbn.
    destruct (Z.eqb_spec (term_ s) 0), (Z.eqb_spec (voted_for_ s) 0); cbn; done || lia.
  - intros w1 Hl1. apply (sim_sync _ _ g w1 rs [rec_hard_state h] g'); try done.
    + intros [|i] Hi; [|cbn in Hi; lia]. exists g. split; [apply Spec.steps_refl|].
      by rewrite take_0, app_nil_r.
    + destruct Hd as (Hdu & c & Hr & _). destruct Ht as (Ht1 & Ht2 & Ht). cbn in Ht1, Ht2.
      split; [unfold durable in *; rewrite Et, Ev, El; tauto|]. exists (commit_index_ s). split.
      * rewrite recovery_snoc, Hr. cbn. by rewrite Et, Ev, El.
      * cbn in Ht. unfold_words. lia.
  - intros e w' Hl'. eapply (lost_logged _ g w' rs []); done.
Qed.

End Sim.

Ltac sim_step :=
  lazymatch goal with
  | |- sim _ _ (get ≫= _) _ _ _ => apply sim_bind_get
  | |- sim _ _ (modify _ ≫= _) _ _ _ => apply sim_bind_modify
  | |- sim _ _ (mret _ ≫= _) _ _ _ => apply sim_bind_ret
  | |- sim _ _ ((_ ≫= _) ≫= _) _ _ _ => apply sim_bind_bind
  | |- sim _ _ (when _ _ ≫= _) _ _ _ =>
      let H := fresh "Hwhen" in apply sim_bind_when; intros H
  | |- sim _ _ (when _ _) _ _ _ => let H := fresh "Hwhen" in apply sim_when; intros H
  | |- sim _ _ (if negb true then _ else _) _ _ _ => change (negb true) with false; cbv iota
  | |- sim _ _ (if negb false then _ else _) _ _ _ => change (negb false) with true; cbv iota
  | |- sim _ _ (if decide ?P then _ else _) _ _ _ =>
      let H := fresh "Hdec" in destruct (decide P) as [H|H]
  | |- sim _ _ (if _ then _ else _) _ _ _ => let H := fresh "Hif" in apply sim_if; intros H
  | |- sim _ _ ((if decide ?P then _ else _) ≫= _) _ _ _ =>
      let H := fresh "Hdec" in destruct (decide P) as [H|H]
  | |- sim _ _ ((if _ then _ else _) ≫= _) _ _ _ =>
      let H := fresh "Hif" in apply sim_bind_if; intros H
  | |- sim _ _ (let _ := _ in _) _ _ _ => cbv zeta
  | |- sim _ _ (reply _) _ _ _ => apply sim_bind_get
  | |- sim _ _ (reset_randomized_election_timeout ≫= _) _ ?s _ =>
      let g := fresh "rg" in let r := fresh "rt" in let E := fresh in
      destruct (reset_timeout_eq s) as (g & r & E & _);
      apply (sim_bind_eq _ _ _ _ _ _ _ _ _ E); clear E
  end; cbv beta.
