(* ===== verification/RaftRel.v ===== *)
(** * A running node and its member of the protocol

    [related s g]: the node's memory and disk, and the messages it has queued,
    are those of member [n] in the protocol state [g].  Snapshots are off: the
    log starts at index one. *)

From S2P Require Import Prelude Msgpack Proto Crc32 Wal WalFacts Raft RaftLemmas RaftLog.
From S2P Require Import RaftNode RaftSpec RaftSpecInv RaftDisk RaftSim.
Import Raft.

(** Messages as the protocol sees them. *)
Definition msg_rel (g : Spec.t) (msg : Message.t) : Prop :=
  is_u64 (Message.term msg) /\
  (Message.type msg = Message.MsgRequestVote ->
     0 <= Message.last_log_index msg /\
     Spec.VoteReq (Message.from msg) (Message.term msg)
       (Z.to_nat (Message.last_log_index msg)) (Message.last_log_term msg) ∈ Spec.net g) /\
  (Message.type msg = Message.MsgRequestVoteResponse -> Message.vote_granted msg = true ->
     Spec.VoteGrant (Message.from msg) (Message.to msg) (Message.term msg) ∈ Spec.net g) /\
  (Message.type msg = Message.MsgAppendEntries ->
     append_ok msg /\ Forall typed (Message.entries msg) /\ 0 <= Message.leader_commit msg /\
     Spec.Append (Message.from msg) (Message.term msg)
       (Z.to_nat (Message.prev_log_index msg)) (Message.prev_log_term msg)
       (Message.entries msg) (Z.to_nat (Message.leader_commit msg)) ∈ Spec.net g) /\
  (Message.type msg = Message.MsgAppendEntriesResponse -> Message.success msg = true ->
     0 <= Message.match_index msg /\
     Spec.Ack (Message.from msg) (Message.to msg) (Message.term msg)
       (Z.to_nat (Message.match_index msg)) ∈ Spec.net g) /\
  Message.type msg <> Message.MsgInstallSnapshot /\
  Message.type msg <> Message.MsgInstallSnapshotResponse.

Definition role_of (st : State) : Spec.Role :=
  match st with
  | Follower | PreCandidate => Spec.RoleFollower
  | Candidate => Spec.RoleCandidate
  | Leader => Spec.RoleLeader
  end.

Section Rel.
Context {R : Rng} {Env : Type} {WP : WalPack} {WL : WalPackLaws} {PR : Proposals}.
Context (peers : list Z) (n : Z).
Implicit Types (s : t Env) (g : Spec.t) (msg : Message.t).

Definition members : gset Z := list_to_set peers.

Record mem_rel s g : Prop := {
  mr_id : id_ s = n;
  mr_peers : peers_ s = peers;
  mr_wf : wf s;
  mr_offset : log_offset_ s = 0;
  mr_offset_term : log_offset_term_ s = 0;
  mr_threshold : snapshot_threshold_ s = 0;
  mr_u64 : is_u64 (term_ s) /\ is_u64 (voted_for_ s);
  mr_typed : Forall typed (log_ s);
  mr_term : Spec.term g n = term_ s;
  mr_vote : Spec.vote g n = voted_for_ s;
  mr_log : Spec.log g n = log_ s;
  mr_commit : Z.of_nat (Spec.commit g n) = commit_index_ s;
  mr_role : Spec.role g n = role_of (state_ s);
  mr_votes : state_ s = Candidate -> forall a, votes_ s !! a = Some true -> a ∈ Spec.votes g n;
  mr_progress : state_ s = Leader -> forall p pr, progress_ s !! p = Some pr ->
    p ∈ peers /\ p <> n /\ 0 < next pr <= zlen (log_ s) + 1 /\
    (match_ pr = 0 \/
     0 < match_ pr /\ Spec.matched g n !! p = Some (Z.to_nat (match_ pr)));
}.

Definition related s g : Prop :=
  mem_rel s g /\ linked n s g /\ Forall (msg_rel g) (msgs_ s).

(** What the relation reads of a node, besides its queue. *)
Definition core s :=
  (id_ s, peers_ s, (log_ s, log_offset_ s, log_offset_term_ s),
   (term_ s, voted_for_ s, commit_index_ s, last_applied_ s, last_snapshot_index_ s),
   (state_ s, votes_ s, progress_ s), (wal_ s, storage_failed_ s), snapshot_threshold_ s).

Lemma mem_rel_core s s' g : core s' = core s -> mem_rel s g -> mem_rel s' g.
Proof.
  unfold core. intros [=] []. split; try congruence.
  - eapply same_log_wf; [|exact mr_wf0]. by split.
  - by rewrite H10, H11.
  - by rewrite H2, H10, H12.
Qed.

Lemma linked_core s s' g : core s' = core s -> linked n s g -> linked n s' g.
Proof.
  unfold core. intros [=] (Hs & w & rs & Hw & Hl).
  split; [congruence|]. exists w, rs. split; [congruence|done].
Qed.

Lemma related_core s s' g :
  core s' = core s -> Forall (msg_rel g) (msgs_ s') -> related s g -> related s' g.
Proof.
  intros E Hm (H1 & H2 & _). split; [by eapply mem_rel_core|]. split; [by eapply linked_core|done].
Qed.

Lemma related_quiet s s' g :
  core s' = core s -> msgs_ s' = msgs_ s -> related s g -> related s' g.
Proof. intros E Em H. eapply related_core; [done| |done]. rewrite Em. apply H. Qed.

Lemma steps_net g g' m :
  Spec.steps members n g g' -> m ∈ Spec.net g -> m ∈ Spec.net g'.
Proof.
  intros Hs Hm. induction Hs as [|g1 g2 _ IH Hs]; [done|].
  destruct Hs; subst; cbn; rewrite ?elem_of_cons; auto.
Qed.

Lemma msg_rel_steps g g' msg :
  Spec.steps members n g g' -> msg_rel g msg -> msg_rel g' msg.
Proof.
  intros Hs (H0 & H1 & H2 & H3 & H4 & H5). pose proof (fun m => steps_net g g' m Hs) as Hn.
  split_and!; try done.
  - intros H. destruct (H1 H). auto.
  - auto.
  - intros H. destruct (H3 H) as (? & ? & ? & ?). auto.
  - intros H H'. destruct (H4 H H'). auto.
  - apply H5.
  - apply H5.
Qed.

Lemma msgs_steps g g' ms :
  Spec.steps members n g g' -> Forall (msg_rel g) ms -> Forall (msg_rel g') ms.
Proof. intros Hs. apply Forall_impl. intros m. by apply msg_rel_steps. Qed.

Lemma related_push s g m : related s g -> msg_rel g m -> related (s <| msgs_ := msgs_ s ++ [m] |>) g.
Proof.
  intros H Hr. apply (related_core s); [done| |done].
  cbn. apply Forall_app. split; [apply H|by constructor].
Qed.

Lemma related_healthy s g : related s g -> storage_failed_ s = false.
Proof. intros (_ & [H _] & _). done. Qed.

Hypothesis peers_nodup : NoDup peers.
Hypothesis peers_u64 : forall p, p ∈ peers -> 0 < p < u64_max.
Hypothesis self_member : n ∈ peers.

Lemma related_hard_state s g :
  related s g -> typed (HardStateProto.mk (term_ s) (voted_for_ s) (commit_index_ s)).
Proof.
  intros ([] & _). destruct mr_u65 as [Ht Hv]. split; [done|]. split; [done|]. cbn.
  destruct mr_wf0. unfold_words. lia.
Qed.

(** The member's state after a step of the protocol that concerns others'
    fields is read off the updates. *)
Ltac spec_updates := cbn; unfold Spec.upd; rewrite ?decide_True by done.

(** The part of a node a change of term, vote or role leaves alone. *)
Definition statics s :=
  (id_ s, peers_ s, (log_ s, log_offset_ s, log_offset_term_ s),
   (commit_index_ s, last_applied_ s, last_snapshot_index_ s), snapshot_threshold_ s).

Lemma mem_update s s' g g' :
  mem_rel s g -> statics s' = statics s ->
  Spec.log g' n = Spec.log g n -> Spec.commit g' n = Spec.commit g n ->
  is_u64 (term_ s') -> is_u64 (voted_for_ s') ->
  Spec.term g' n = term_ s' -> Spec.vote g' n = voted_for_ s' ->
  Spec.role g' n = role_of (state_ s') ->
  (state_ s' = Candidate -> forall a, votes_ s' !! a = Some true -> a ∈ Spec.votes g' n) ->
  (state_ s' = Leader -> forall p pr, progress_ s' !! p = Some pr ->
    p ∈ peers /\ p <> n /\ 0 < next pr <= zlen (log_ s') + 1 /\
    (match_ pr = 0 \/
     0 < match_ pr /\ Spec.matched g' n !! p = Some (Z.to_nat (match_ pr)))) ->
  mem_rel s' g'.
Proof.
  unfold statics. intros [] [=] El Ec Ht Hv Et Ev Er Hvotes Hprog.
  split; try done; try congruence. eapply same_log_wf; [|exact mr_wf0]. by split.
Qed.

(** A relation carried along a step that flushed. *)
Lemma related_update s s' g g' :
  related s g -> Spec.steps members n g g' -> linked n s' g' -> mem_rel s' g' -> msgs_ s' = msgs_ s ->
  related s' g'.
Proof.
  intros (_ & _ & Hm) Hst Hl Hmem Em. split; [done|]. split; [done|]. rewrite Em.
  by eapply msgs_steps.
Qed.

Lemma follower_related s g g' term leader rg rt w :
  related s g -> is_u64 term -> term_ s <= term -> Spec.steps members n g g' ->
  Spec.term g' n = term -> Spec.vote g' n = (if term >? term_ s then 0 else voted_for_ s) ->
  Spec.log g' n = Spec.log g n -> Spec.commit g' n = Spec.commit g n ->
  Spec.role g' n = Spec.RoleFollower ->
  linked n (as_follower s term leader rg rt w false) g' ->
  related (as_follower s term leader rg rt w false) g'.
Proof.
  intros Hr Ht Hle Hst Et Ev El Ec Er Hl. eapply related_update; try done.
  destruct Hr as (Hmem & _). eapply mem_update; try done.
  cbn. destruct Hmem as [? ? ? ? ? ? [] ? ? ? ? ? ? ? ?]. case_match; [by unfold_words|done].
Qed.

(** What a new follower keeps. *)
Definition turned s (term : Z) (s' : t Env) : Prop :=
  state_ s' = Follower /\ term_ s' = term /\ log_ s' = log_ s.

(** [become_follower] for a term that is not behind. *)
Lemma sim_follower term leader (Q : unit -> t Env -> Spec.t -> Prop) s g :
  related s g -> is_u64 term -> term_ s <= term ->
  (forall s' g', Spec.steps members n g g' -> related s' g' -> turned s term s' -> Q tt s' g') ->
  sim members n (become_follower term leader) Q s g.
Proof.
  intros Hr Ht Hle HQ. pose proof (related_healthy _ _ Hr) as Hs. pose proof Hr as ([] & Hlk & _).
  unfold become_follower. repeat sim_step; guards; try lia.
  - apply sim_bind; [|intros ?; apply quiet_ret]. destruct mr_u65. unfold_words.
    eapply (sim_persist _ _ _ _ g); [exact Hlk|apply steps_one, (Spec.step_term _ n _ term); lia|..];
      try (spec_updates; done || lia).
    { split_and!; cbn; try done; try (unfold_words; lia). destruct mr_wf0. unfold_words. lia. }
    intros w' Hlk'. set (s' := _ <| wal_ := _ |>) in *.
    assert (s' = as_follower s term leader rg rt (Some w') false) as Es.
    { unfold s', as_follower. rewrite (proj2 (Z.gtb_lt _ _)) by done.
      clear - Hs. destruct s. cbn in Hs. by subst. }
    rewrite Es in *. apply sim_ret; [done|]. apply HQ; [apply steps_one, Spec.step_term; lia| |done].
    eapply (follower_related s g); try done; try (by spec_updates).
    + apply steps_one, Spec.step_term. lia.
    + spec_updates. by rewrite (proj2 (Z.gtb_lt _ _)).
  - assert (term = term_ s) as -> by lia.
    eapply sim_steps; [apply steps_one, (Spec.step_follower _ n)|].
    set (s' := _ <| randomized_election_timeout_ := _ |>).
    assert (s' = as_follower s (term_ s) leader rg rt (wal_ s) false) as Es.
    { unfold s', as_follower. rewrite Z.gtb_ltb, Z.ltb_irrefl.
      clear - Hs. destruct s. cbn in Hs. by subst. }
    rewrite Es. apply sim_ret; [done|]. apply HQ; [apply steps_one, Spec.step_follower| |done].
    eapply (follower_related s g); try done; try (by spec_updates).
    + apply steps_one, Spec.step_follower.
    + spec_updates. by rewrite Z.gtb_ltb, Z.ltb_irrefl.
    + destruct Hlk as [_ Hlk]. by split.
Qed.

(** ** Messages *)

(** The log of a node as the protocol sees it. *)
Lemma related_last s g : related s g -> last_log_index s = zlen (log_ s).
Proof. intros ([] & _). rewrite last_log_index_eq by done. lia. Qed.

Lemma related_last_term s g : related s g -> last_log_term s = Spec.last_term (log_ s).
Proof.
  intros ([] & _). unfold last_log_term, Spec.last_term.
  destruct (log_ s) as [|e l _] using rev_ind; [done|]. rewrite last_snoc, length_app.
  cbn. rewrite Nat.add_1_r. cbn. by rewrite list_lookup_middle.
Qed.

Lemma related_term_at s g i :
  related s g -> 0 <= i <= zlen (log_ s) -> term_at s i = Spec.term_at (log_ s) (Z.to_nat i).
Proof.
  intros ([] & _) Hi. destruct (decide (i = 0)) as [->|Hne]; [done|].
  destruct (entry_at_is_Some s i ltac:(lia)) as [e He].
  rewrite (term_at_entry s i e) by done. unfold entry_at in He.
  rewrite decide_True in He by lia. rewrite mr_offset0, Z.sub_0_r in He.
  replace (Z.to_nat i) with (S (Z.to_nat (i - 1))) by lia. cbn. by rewrite He.
Qed.

Lemma related_up_to_date s g li lt :
  related s g -> 0 <= li ->
  is_log_up_to_date s li lt = true -> Spec.up_to_date (Z.to_nat li) lt (log_ s).
Proof.
  intros Hr Hli. unfold is_log_up_to_date, Spec.up_to_date.
  rewrite (related_last _ _ Hr), (related_last_term _ _ Hr). intros H. guards.
  - left. lia.
  - right. split; [done|]. unfold zlen in *. lia.
Qed.

Lemma related_suffix s g i :
  related s g -> 0 < i <= zlen (log_ s) + 1 -> suffix_from s i = drop (Z.to_nat (i - 1)) (log_ s).
Proof.
  intros Hr Hi. pose proof Hr as ([] & _). unfold suffix_from. rewrite (related_last _ _ Hr).
  apply list_eq. intros k. rewrite list_lookup_fmap, lookup_drop.
  destruct (decide (Z.of_nat k < zlen (log_ s) - i + 1)) as [Hk|Hk].
  - rewrite lookup_seqZ_lt by lia. cbn.
    destruct (entry_at_is_Some s (i + Z.of_nat k) ltac:(lia)) as [e He].
    rewrite (log_entry_at s _ e) by done. unfold entry_at in He.
    rewrite decide_True in He by lia. rewrite mr_offset0 in He. rewrite <- He. f_equal. lia.
  - rewrite lookup_seqZ_ge by lia. cbn. symmetry. apply lookup_ge_None. unfold zlen in *. lia.
Qed.

(** A member may have heard more. *)
Lemma related_net s g ms :
  related s g -> (forall m, m ∈ Spec.net g -> m ∈ ms) -> Spec.steps members n g (g <| Spec.net := ms |>) ->
  related s (g <| Spec.net := ms |>).
Proof.
  intros (Hm & Hl & Hms) Hn Hst. split; [by destruct Hm; split|]. split; [done|].
  by eapply msgs_steps.
Qed.

Lemma append_entries_rel s g p i :
  related s g -> state_ s = Leader -> zlen (log_ s) + 1 < u64_max ->
  0 < i <= zlen (log_ s) + 1 ->
  exists g', Spec.step members n g g' /\ g' = g <| Spec.net := Spec.net g' |> /\
    msg_rel g' (make_append_entries s p i).
Proof.
  intros Hr Hst Hb Hi. pose proof Hr as ([] & _). pose proof (zlen_nonneg (log_ s)).
  eexists. split; [apply (Spec.step_send _ n _ (Z.to_nat (i - 1)))|].
  - by rewrite mr_role0, Hst.
  - rewrite mr_log0. unfold zlen in *. lia.
  - split; [done|].
    assert (u64 (i - 1) = i - 1) as Eu by (apply u64_small; unfold_words; lia).
    assert ((if i - 1 =? 0 then 0 else term_at s (i - 1)) =
      Spec.term_at (log_ s) (Z.to_nat (i - 1))) as Et.
    { rewrite (related_term_at s g) by (done || lia). by destruct (Z.eqb_spec (i - 1) 0) as [->|]. }
    unfold make_append_entries. rewrite Eu, Et, (related_suffix s g) by done.
    rewrite mr_term0, mr_log0. split_and!; cbn; try done; try apply mr_u65.
    intros _. split_and!.
    + split_and!; cbn; [lia| |rewrite zlen_drop; unfold zlen in *; lia].
      replace (i - 1) with (log_offset_ s + Z.of_nat (Z.to_nat (i - 1))) at 1 by lia.
      apply indexed_drop; [by destruct mr_wf0|unfold zlen in *; lia].
    + by apply Forall_drop.
    + destruct mr_wf0. lia.
    + rewrite <- mr_commit0, Nat2Z.id, mr_id0. by left.
Qed.

(** A broadcast sends what the protocol lets the leader send. *)
Lemma broadcast_rel s ps : forall g,
  related s g -> state_ s = Leader -> zlen (log_ s) + 1 < u64_max ->
  exists g', Spec.steps members n g g' /\ g' = g <| Spec.net := Spec.net g' |> /\
    Forall (msg_rel g') (broadcast_to s <$> ps).
Proof.
  induction ps as [|p ps IH]; intros g Hr Hst Hb.
  { exists g. split_and!; [apply Spec.steps_refl|by destruct g|by constructor]. }
  pose proof Hr as ([] & _).
  assert (0 < next (progress_of s p) <= zlen (log_ s) + 1) as Hi.
  { unfold progress_of. pose proof (zlen_nonneg (log_ s)).
    destruct (progress_ s !! p) as [pr|] eqn:E; cbn; [|lia].
    by destruct (mr_progress0 Hst p pr E) as (_ & _ & Hi & _). }
  destruct (append_entries_rel s g p _ Hr Hst Hb Hi) as (g1 & H1 & E1 & M1).
  assert (related s g1) as Hr1.
  { rewrite E1. apply related_net; [done| |rewrite <- E1; by apply steps_one].
    intros m Hm. by eapply steps_net; [apply steps_one|]. }
  destruct (IH g1 Hr1 Hst Hb) as (g2 & H2 & E2 & M2). exists g2. split_and!.
  - eapply steps_trans; [by apply steps_one|done].
  - rewrite E2, E1. by destruct g.
  - cbn. constructor; [|done]. unfold broadcast_to. rewrite mr_offset0.
    destruct (Z.leb_spec (next (progress_of s p)) 0); [lia|]. by eapply msg_rel_steps.
Qed.

Lemma touch_all_progress ps : forall pr p x,
  touch_all pr ps !! p = Some x -> pr !! p = Some x \/ (p ∈ ps /\ x = Progress_default).
Proof.
  induction ps as [|q ps IH]; intros pr p x H; [by left|]. cbn in H.
  destruct (IH _ _ _ H) as [E|[Hp ->]]; [|right; split; [by right|done]].
  unfold touch in E. apply lookup_insert_Some in E as [[<- <-]|[_ E]]; [|by left].
  destruct (pr !! q) as [y|] eqn:Eq; cbn; [by left|]. right. by split; [left|].
Qed.

Lemma sim_broadcast (Q : unit -> t Env -> Spec.t -> Prop) s g :
  related s g -> state_ s = Leader -> zlen (log_ s) + 1 < u64_max ->
  (forall g', Spec.steps members n g g' -> related (broadcasted s (others s)) g' ->
     Q tt (broadcasted s (others s)) g') ->
  sim members n broadcast_heartbeat Q s g.
Proof.
  intros Hr Hst Hb HQ. pose proof (related_healthy _ _ Hr) as Hs.
  destruct (broadcast_rel s (others s) g Hr Hst Hb) as (g' & Hg & Eg & Hm).
  eapply sim_steps; [exact Hg|]. eapply sim_pure; [apply broadcast_eq|done|]. apply HQ; [done|].
  assert (related s g') as Hr'.
  { rewrite Eg. apply related_net; [done| |by rewrite <- Eg]. intros m. by apply steps_net. }
  destruct Hr' as (Hmem & Hl & Hms). split; [|split; [done|]].
  - pose proof Hmem as []. split; try done; [by eapply same_log_wf; [|exact mr_wf0]; split|].
    intros _ p pr H. cbn in H. apply touch_all_progress in H as [H|[Hp ->]]; [by apply mr_progress0|].
    unfold others in Hp. apply list_elem_of_filter in Hp as [Hne Hp].
    pose proof (zlen_nonneg (log_ s)). cbn. rewrite mr_id0, mr_peers0 in *.
    split_and!; try done; [lia|by left].
  - cbn. by apply Forall_app.
Qed.

End Rel.
