(* ===== verification/BootSim.v ===== *)
(** * A stopped node that starts again

    [boot] from any directory a stopped node can leave behind, whatever the
    operating system lets succeed: either the new node's state is related to
    the protocol's, or the start fails and the directory still holds the
    member's durable state. *)

From S2P Require Import Prelude Msgpack Proto Crc32 Wal WalFacts KvStore NodeConfig Raft.
From S2P Require Import RaftLemmas RaftLog RaftNode Runtime RaftSpec RaftSpecInv RaftDisk RaftSim.
From S2P Require Import RaftRel.
Import Raft.

(** ** The directory *)

Section Directory.
Context {WP : WalPack} {WL : WalPackLaws}.

Lemma whole_writable k rs : Forall writable rs -> Forall writable (whole_records k rs).
Proof.
  intros H. revert k. induction H as [|r rs Hr _ IH]; intros k; cbn [whole_records]; [done|].
  case_decide; [|done]. constructor; [done|apply IH].
Qed.

Lemma wal_file_name :
  WalName.has_wal_suffix wal_file = true /\ is_Some (WalName.parse_wal_name wal_file) /\
  4 < zlen wal_file.
Proof. split_and!; [by vm_compute|eexists; by vm_compute|by vm_compute]. Qed.

Lemma open_single d data :
  Disk.files d = {[wal_file := data]} ->
  WAL.open d = if Disk.open_fails d wal_file then None else Some (WAL.mk wal_file [] false d).
Proof.
  intros Hf. destruct wal_file_name as (Hs & [p Hp] & _). unfold WAL.open.
  rewrite (list_singleton _ _ _ Hf Hs). cbn [list.last]. by rewrite Hp.
Qed.

Lemma recover_any d rs k :
  Forall writable rs -> (k <= length (encode_records rs))%nat ->
  Disk.files d = {[wal_file := take k (encode_records rs)]} ->
  match WAL.recover [] (Some SnapshotMeta.default) (WAL.mk wal_file [] false d) with
  | (Ok r, w) => r = recovery (whole_records k rs) /\ logged w (whole_records k rs) []
  | (Throw _, w) =>
      (Disk.open_fails d wal_file = true \/ Disk.read_fails d wal_file = true \/
       Disk.repairs d wal_file <> Disk.repair_ok) /\
      (Disk.files (WAL.disk_ w) = Disk.files d \/
       Disk.files (WAL.disk_ w) = {[wal_file := encode_records (whole_records k rs)]})
  end.
Proof.
  intros Hw Hk Hf. destruct wal_file_name as (Hs & _ & _).
  pose proof (recover_outcome d wal_file rs k [] (Some SnapshotMeta.default) Hw Hk Hf Hs) as H.
  destruct (WAL.recover _ _ _) as [[r|e] w]; [|done]. destruct H as (-> & H1 & H2 & H3).
  split; [done|]. split; try done. by apply whole_writable.
Qed.

End Directory.

(** ** Restoring the Raft core *)

Section Restore.
Context {R : Rng} {Env : Type}.
Implicit Types s : t Env.

Lemma restore_loop_eq es : forall k s,
  log_offset_ s = 0 -> 0 <= k -> indexed k es -> k + zlen es < u64_max ->
  restore_loop es (k + 1) s = (Ok tt, s <| log_ := log_ s ++ es |>).
Proof.
  induction es as [|e es IH]; intros k s Ho Hk Hi Hb; cbn [restore_loop].
  { rewrite app_nil_r. by destruct s. }
  rewrite zlen_cons in Hb. pose proof (zlen_nonneg es).
  pose proof (Hi 0%nat e eq_refl) as He. run_m. rewrite Ho, Z.gtb_ltb, (proj2 (Z.ltb_lt 0 (Entry.index e))) by lia.
  rewrite (proj2 (Z.eqb_eq (Entry.index e) (k + 1))) by lia. cbn [negb]. destruct (decide (es = [])) as [->|Hne]; [by destruct s|].
  assert (0 < zlen es) by (destruct es; [done|rewrite zlen_cons; pose proof (zlen_nonneg es); lia]).
  rewrite u64_small by (unfold_words; lia).
  etransitivity; [apply (IH (k + 1)); try done; [lia| |lia]|].
  - intros i e' He'. specialize (Hi (S i) e' He'). lia.
  - f_equal. destruct s. cbn. unfold set, set_log_. cbn. by rewrite <- app_assoc.
Qed.

Lemma restore_eq hs es s :
  indexed 0 es -> zlen es < u64_max -> 0 <= HardStateProto.commit hs <= zlen es ->
  restore hs es SnapshotMeta.default s =
    (Ok tt, s <| log_offset_ := 0 |> <| log_offset_term_ := 0 |> <| last_snapshot_index_ := 0 |>
              <| last_snapshot_data_ := [] |> <| log_ := es |> <| term_ := HardStateProto.term hs |>
              <| voted_for_ := HardStateProto.vote hs |>
              <| commit_index_ := HardStateProto.commit hs |> <| last_applied_ := 0 |>).
Proof.
  intros Hi Hb Hc. unfold restore. run_m. cbn [SnapshotMeta.index SnapshotMeta.term
    SnapshotMeta.state SnapshotMeta.default].
  change (u64 (0 + 1)) with (0 + 1).
  rewrite (restore_loop_eq es 0), Z.max_r by (done || lia).
  unfold last_log_index. destruct s. cbn.
  rewrite u64_small by (unfold_words; pose proof (zlen_nonneg es); lia).
  by rewrite Z.gtb_ltb, (proj2 (Z.ltb_ge _ _)) by lia.
Qed.

End Restore.

(** ** Replaying the committed entries *)

Section Replay.
Context {R : Rng} {WP : WalPack} {CP : MsgPack Command.t} {MP : MapPack}.
Implicit Types s : t Impl.t.

Definition kv_of s : gmap bytes bytes := KVStore.store_ (Impl.store_ (restore_env s)).

(** The entries a member may propose: those the store can apply. *)
#[global] Instance commands : Proposals := fun e => forall m, is_Some (entry_effect e m).

Lemma replay_commands es : Forall proposed es -> forall m, is_Some (kv_replay es m).
Proof.
  induction 1 as [|e es He _ IH]; intros m; [by eexists|].
  change (kv_replay (e :: es) m) with (entry_effect e m ≫= kv_replay es).
  destruct (He m) as [m' ->]. apply IH.
Qed.

(** The node with the store at [index]. *)
Definition applied_to s (index : Z) (m : gmap bytes bytes) : t Impl.t :=
  s <| last_applied_ := index |>
    <| restore_env := (restore_env s) <| Impl.store_ := KVStore.mk m |>
                                      <| Impl.store_applied_index_ := index |> |>.

Lemma applied_to_twice s i m j k : applied_to (applied_to s i m) j k = applied_to s j k.
Proof. by destruct s as [? ? ? ? ? ? ? ? ? ? ? ? ? ? ? ? ? ? ? ? ? ? ? ? ? ? ? ? ? ? []]. Qed.

Lemma applied_to_same s :
  Impl.store_applied_index_ (restore_env s) = last_applied_ s ->
  applied_to s (last_applied_ s) (kv_of s) = s.
Proof.
  destruct s as [? ? ? ? ? ? ? ? ? ? ? ? ? ? ? ? ? ? ? ? ? ? ? ? ? ? ? ? ? ? [? ? ? []]].
  cbn. by intros ->.
Qed.

Lemma advance_next i s :
  i = last_applied_ s + 1 -> 0 <= last_applied_ s -> i <= commit_index_ s -> i < u64_max ->
  advance i s = (Ok tt, s <| last_applied_ := i |>).
Proof.
  intros -> H0 Hc Hb. unfold advance. run_m. rewrite u64_small by (unfold_words; lia).
  by rewrite Z.gtb_ltb, (proj2 (Z.ltb_ge _ _)), Z.eqb_refl by lia.
Qed.

(** One committed entry. *)
Lemma replay_one e es s :
  Impl.store_applied_index_ (restore_env s) = last_applied_ s -> 0 <= last_applied_ s ->
  last_applied_ s + 1 < u64_max ->
  Entry.index e = last_applied_ s + 1 -> last_applied_ s + 1 <= commit_index_ s ->
  match entry_effect e (kv_of s) with
  | Some m => replay_committed 0 (e :: es) s = replay_committed 0 es (applied_to s (last_applied_ s + 1) m)
  | None => exists x s', replay_committed 0 (e :: es) s = (Throw x, s')
  end.
Proof.
  intros Ea H0 Hb He Hc. cbn [replay_committed]. unfold impl. run_m. rewrite Ea, He.
  rewrite (proj2 (Z.leb_gt (last_applied_ s + 1) 0)) by lia.
  rewrite Z.gtb_ltb, (proj2 (Z.ltb_ge (commit_index_ s) _)) by lia.
  rewrite u64_small by (unfold_words; lia). rewrite Z.eqb_refl. cbn [negb].
  destruct (_ && _) eqn:Hn.
  - pose proof (apply_effect e (Impl.store_ (restore_env s)) Hn) as Hap.
    fold (kv_of s) in Hap.
    unfold on_impl. destruct (KVStore.apply e (Impl.store_ (restore_env s))) as [[r|x] st] eqn:Eap.
    + rewrite Hap. cbn. rewrite (advance_next (last_applied_ s + 1)) by (done || lia).
      f_equal. destruct st. by destruct s as [? ? ? ? ? ? ? ? ? ? ? ? ? ? ? ? ? ? ? ? ? ? ? ? ? ? ? ? ? ? []].
    + destruct Hap as [-> ->]. eauto.
  - unfold entry_effect. rewrite Hn. unfold on_impl. cbn.
    rewrite (advance_next (last_applied_ s + 1)) by (done || lia).
    f_equal. by destruct s as [? ? ? ? ? ? ? ? ? ? ? ? ? ? ? ? ? ? ? ? ? ? ? ? ? ? ? ? ? ? [? ? ? []]].
Qed.

(** The loop, from the entries after those already applied. *)
Lemma replay_committed_spec es : forall s,
  indexed (last_applied_ s) es -> 0 <= last_applied_ s -> last_applied_ s + zlen es < u64_max ->
  Impl.store_applied_index_ (restore_env s) = last_applied_ s ->
  last_applied_ s <= commit_index_ s <= last_applied_ s + zlen es ->
  match kv_replay (take (Z.to_nat (commit_index_ s - last_applied_ s)) es) (kv_of s) with
  | Some m => replay_committed 0 es s = (Ok tt, applied_to s (commit_index_ s) m)
  | None => exists x s', replay_committed 0 es s = (Throw x, s')
  end.
Proof.
  induction es as [|e es IH]; intros s Hi H0 Hb Ea Hc.
  { rewrite take_nil. cbn. unfold zlen in Hc. cbn in Hc.
    replace (commit_index_ s) with (last_applied_ s) by lia. by rewrite applied_to_same. }
  rewrite zlen_cons in *. pose proof (zlen_nonneg es). pose proof (Hi 0%nat e eq_refl) as He.
  destruct (decide (commit_index_ s = last_applied_ s)) as [Ec|Ec].
  - rewrite Ec, Z.sub_diag, take_0. cbn [kv_replay replay_committed]. unfold impl. run_m.
    rewrite (proj2 (Z.leb_gt (Entry.index e) 0)) by lia.
    rewrite Z.gtb_ltb, (proj2 (Z.ltb_lt (commit_index_ s) _)) by lia. by rewrite applied_to_same.
  - pose proof (replay_one e es s Ea H0 ltac:(lia) ltac:(lia) ltac:(lia)) as H1.
    replace (Z.to_nat (commit_index_ s - last_applied_ s))
      with (S (Z.to_nat (commit_index_ s - (last_applied_ s + 1)))) by lia.
    cbn [take kv_replay]. destruct (entry_effect e (kv_of s)) as [m|]; [|done]. cbn [mbind option_bind].
    rewrite H1. specialize (IH (applied_to s (last_applied_ s + 1) m)).
    change (last_applied_ (applied_to s (last_applied_ s + 1) m)) with (last_applied_ s + 1) in IH.
    change (commit_index_ (applied_to s (last_applied_ s + 1) m)) with (commit_index_ s) in IH.
    change (kv_of (applied_to s (last_applied_ s + 1) m)) with m in IH.
    destruct (kv_replay _ m); [rewrite IH, applied_to_twice|apply IH]; try done; try lia;
      intros i e' He'; specialize (Hi (S i) e' He'); lia.
Qed.

End Replay.

(** ** The start *)

Section Boot.
Context {R : Rng} {WP : WalPack} {WL : WalPackLaws} {CP : MsgPack Command.t} {MP : MapPack}.
Context (config : NodeConfig.t) (m : Machine).
Let n : Z := NodeConfig.id config.
Let members : gset Z := RaftRel.members [1; 2; 3].
Implicit Types s : t Impl.t.

(** The Raft core as constructed. *)
Definition new_node (rg : rng) (rt : Z) : t Impl.t :=
  mk R Impl.t n 0 0 0 0 0 Follower [] 0 0 ∅ [1; 2; 3] 10 1 (NodeConfig.snapshot_threshold config) 0
    0 rt 0 rg ∅ ∅ 0 false 0 0 1 ∅ [] None (initial_impl config m) None false [].

Lemma create_new a b c :
  n ∈ [1; 2; 3] ->
  exists rg rt, create (raft_config_for config) a b c (initial_impl config m) = Ok (new_node rg rt).
Proof.
  intros Hn. unfold create.
  assert (invalid_config (raft_config_for config) = false) as ->.
  { unfold invalid_config, raft_config_for. cbn [Config.id Config.peers Config.election_tick
      Config.heartbeat_tick]. fold n.
    assert (n = 1 \/ n = 2 \/ n = 3) as [->|[->| ->]] by set_solver; by vm_compute. }
  match goal with |- context [reset_randomized_election_timeout ?s] =>
    destruct (reset_timeout_eq s) as (rg & rt & -> & _) end.
  by exists rg, rt.
Qed.

(** A node that has just recovered the durable state of its member. *)
Record started s g (c : Z) (w : WAL.t) (rs : list record) : Prop := {
  st_id : id_ s = n;
  st_peers : peers_ s = [1; 2; 3];
  st_state : state_ s = Follower;
  st_offset : log_offset_ s = 0;
  st_offset_term : log_offset_term_ s = 0;
  st_snapshot : last_snapshot_index_ s = 0;
  st_threshold : snapshot_threshold_ s = 0;
  st_term : term_ s = Spec.term g n;
  st_vote : voted_for_ s = Spec.vote g n;
  st_log : log_ s = Spec.log g n;
  st_commit : commit_index_ s = c;
  st_applied : last_applied_ s = c;
  st_wal : wal_ s = Some w;
  st_failed : storage_failed_ s = false;
  st_msgs : msgs_ s = [];
  st_logged : logged w rs [];
  st_recovery : recovery rs =
    WAL.Recovered (HardStateProto.mk (Spec.term g n) (Spec.vote g n) c) (Spec.log g n)
      (Some SnapshotMeta.default);
}.

(** The protocol forgets commits above the recovered one. *)
Lemma started_related s g c w rs :
  started s g c w rs -> durable n g -> Spec.role g n = Spec.RoleFollower ->
  0 <= c <= Z.of_nat (Spec.commit g n) -> c <= zlen (Spec.log g n) ->
  exists g', Spec.steps members n g g' /\ related [1; 2; 3] n s g'.
Proof.
  intros [] (Hu & Hv & Hx & Hz & Hf) Hrole Hc Hl.
  exists (g <| Spec.commit := Spec.upd (Spec.commit g) n (Z.to_nat c) |>).
  split; [apply steps_one, Spec.step_forget; [lia|done]|]. split; [|split].
  - split; cbn; unfold Spec.upd; rewrite ?decide_True by done; try done; try congruence;
      try (by rewrite ?st_term0, ?st_vote0, ?st_log0).
    + split; rewrite ?st_offset0, ?st_log0, ?st_applied0, ?st_commit0, ?st_snapshot0; done || lia.
    + by rewrite st_commit0, Z2Nat.id by lia.
    + by rewrite st_state0.
  - split; [done|]. exists w, rs. split; [done|]. split; [done|]. split; [done|].
    exists c. split; [done|]. cbn. unfold Spec.upd. rewrite decide_True by done. lia.
  - by rewrite st_msgs0.
Qed.

(** What the application's part of a new node looks like. *)
Record fresh s : Prop := {
  fr_env : exists st lines, restore_env s =
    (initial_impl config m) <| Impl.store_ := KVStore.mk st |>
                            <| Impl.store_applied_index_ := commit_index_ s |>
                            <| Impl.cout := lines |> /\
    kv_replay (take (Z.to_nat (commit_index_ s)) (log_ s)) ∅ = Some st;
  fr_applied : last_applied_ s = commit_index_ s;
  fr_callback : snapshot_restore_ s = Some restore_snapshot;
}.

(** Why a start may fail: not a member, or the operating system. *)
Definition excused (d : Disk.t) : Prop :=
  n ∉ [1; 2; 3] \/ Disk.mkdir_fails d = true \/ Disk.open_fails d wal_file = true \/
  Disk.read_fails d wal_file = true \/ Disk.repairs d wal_file <> Disk.repair_ok.

Hypothesis no_snapshots : NodeConfig.snapshot_threshold config = 0.

Lemma recovered_started rg rt g c w rs :
  recovery rs = WAL.Recovered (HardStateProto.mk (Spec.term g n) (Spec.vote g n) c)
    (Spec.log g n) (Some SnapshotMeta.default) ->
  logged w rs [] -> durable n g -> 0 <= c <= zlen (Spec.log g n) ->
  match kv_replay (take (Z.to_nat c) (Spec.log g n)) ∅ with
  | None => exists x s', restore_state (recovery rs) (new_node rg rt) = (Throw x, s')
  | Some _ => exists s', restore_state (recovery rs) (new_node rg rt) = (Ok tt, s') /\
      let s := (snd (set_wal w s')) <| snapshot_restore_ := Some restore_snapshot |> in
      started s g c w rs /\ fresh s
  end.
Proof.
  intros Hrec Hl (Hu & Hv & Hx & Hz & Hf) Hc. rewrite Hrec.
  unfold restore_state. cbn [WAL.snapshot WAL.hs WAL.entries default].
  change (id SnapshotMeta.default) with SnapshotMeta.default.
  change (SnapshotMeta.is_empty SnapshotMeta.default) with true. cbn [negb]. run_m.
  rewrite restore_eq by done. set (s1 := _ <| last_applied_ := 0 |>).
  pose proof (replay_committed_spec (Spec.log g n) s1) as H.
  change (last_applied_ s1) with 0 in H. change (commit_index_ s1) with c in H.
  change (kv_of s1) with (∅ : gmap bytes bytes) in H. rewrite Z.sub_0_r in H.
  specialize (H Hx ltac:(done) ltac:(lia) eq_refl ltac:(lia)).
  change (SnapshotMeta.index SnapshotMeta.default) with 0.
  destruct (kv_replay _ ∅) as [st|] eqn:Ek.
  - rewrite H. unfold impl. run_m.
    change (Impl.store_applied_index_ _) with c. change (commit_index_ _) with c.
    rewrite Z.eqb_refl. cbn [negb]. eexists. split; [done|]. cbv zeta. split.
    + split; done.
    + split; [|done..]. eexists st, _. done.
  - destruct H as (x & s' & ->). eauto.
Qed.

Lemma contains_single d data : Disk.files d = {[wal_file := data]} -> contains_wal_file d = true.
Proof.
  intros Hf. destruct wal_file_name as (Hs & _ & Hl). unfold contains_wal_file.
  rewrite Hf, map_to_list_singleton. apply bool_decide_eq_true. by constructor.
Qed.

Lemma contains_none d : Disk.files d = ∅ -> contains_wal_file d = false.
Proof.
  intros Hf. unfold contains_wal_file. rewrite Hf, map_to_list_empty.
  apply bool_decide_eq_false. intros H. inversion H.
Qed.

(** The durable state is back; the commit index may be behind. *)
Definition restored s g : Prop :=
  term_ s = Spec.term g n /\ voted_for_ s = Spec.vote g n /\ log_ s = Spec.log g n /\
  0 <= commit_index_ s <= Z.of_nat (Spec.commit g n).

(** The node [boot] returns, or why there is none. *)
Definition boot_rel (d : Disk.t) g (r : result (t Impl.t) * Disk.t) : Prop :=
  match r with
  | (Ok s, d') => fresh s /\ files_of s = Disk.files d' /\ restored s g /\
      exists g', Spec.steps members n g g' /\ related [1; 2; 3] n s g'
  | (Throw _, d') => excused d /\ down_rel n (Disk.files d') g
  end.

(** The first start. *)
Lemma boot_empty rg rt d g :
  Disk.files d = ∅ -> Spec.role g n = Spec.RoleFollower -> disk_rel n g [] ->
  boot_rel d g (match recover_storage (MkBoot (new_node rg rt) d) with
    | (Throw e, b) => (Throw e, boot_disk b)
    | (Ok _, b) =>
        (Ok ((boot_node b) <| snapshot_restore_ := Some restore_snapshot |>), boot_disk b)
    end).
Proof.
  intros Hf Hrole Hd. pose proof Hd as (Hdu & c & Hrec & Hc).
  unfold recover_storage. run_m. cbn [boot_disk].
  rewrite (contains_none d Hf), (bool_decide_eq_true_2 _ Hf). cbn [negb].
  unfold WAL.create. fold wal_file. rewrite Hf, lookup_empty.
  destruct (Disk.mkdir_fails d) eqn:Em.
  { split; [right; by left|]. split; [done|]. left. by split. }
  destruct (Disk.open_fails d wal_file) eqn:Eo.
  { split; [right; right; by left|]. split; [done|]. left. by split. }
  set (w := WAL.mk _ _ _ _).
  assert (Disk.files (WAL.disk_ w) = {[wal_file := encode_records []]}) as Ew.
  { unfold w, Disk.append_to, Disk.contents. cbn [WAL.disk_]. by rewrite Hf, lookup_empty. }
  assert (logged w [] []) as Hl.
  { split; try done. split_and!; [|done|done]. cbn [WAL.fp_ w]. unfold Disk.contents.
    by rewrite Ew, lookup_singleton_eq. }
  set (s := (new_node rg rt) <| wal_ := Some w |> <| storage_failed_ := false |>
              <| snapshot_restore_ := Some restore_snapshot |>).
  change (boot_rel d g (Ok s, WAL.disk_ w)).
  assert (started s g 0 w []) as Hs.
  { pose proof Hrec as E. injection E as Et Ev Ec El. split; try done. by rewrite Ec. }
  split_and!; [|done| |].
  - split; [|done..]. exists ∅, []. done.
  - destruct Hs. unfold restored. rewrite st_commit0. split_and!; done || lia.
  - eapply (started_related s g 0); try done; [lia|apply zlen_nonneg].
Qed.

(** A start from a directory with a log. *)
Lemma boot_again rg rt d g rs k :
  Inv members g -> Valid g -> Disk.files d = {[wal_file := take k (encode_records rs)]} ->
  (k <= length (encode_records rs))%nat -> Forall writable rs ->
  Spec.role g n = Spec.RoleFollower -> disk_rel n g (whole_records k rs) ->
  boot_rel d g (match recover_storage (MkBoot (new_node rg rt) d) with
    | (Throw e, b) => (Throw e, boot_disk b)
    | (Ok _, b) =>
        (Ok ((boot_node b) <| snapshot_restore_ := Some restore_snapshot |>), boot_disk b)
    end).
Proof.
  intros I V Hf Hk Hw Hrole Hd. pose proof Hd as (Hdu & c & Hrec & Hc).
  assert (forall fs, fs = Disk.files d \/ fs = {[wal_file := encode_records (whole_records k rs)]} ->
    down_rel n fs g) as Hdown.
  { intros fs [->| ->]; (split; [done|]); right.
    - exists rs, k. by rewrite Hf.
    - exists (whole_records k rs), (length (encode_records (whole_records k rs))).
      rewrite firstn_all.
      split_and!; [done|lia|by apply whole_writable|]. by rewrite whole_records_all. }
  unfold recover_storage. run_m. cbn [boot_disk].
  rewrite (contains_single d _ Hf), (open_single d _ Hf).
  destruct (Disk.open_fails d wal_file) eqn:Eo.
  { split; [right; right; by left|]. apply Hdown. by left. }
  unfold recover_wal. pose proof (recover_any d rs k Hw Hk Hf) as Hr.
  destruct (WAL.recover _ _ _) as [[r|e] w].
  2:{ destruct Hr as [Hex Hfs]. split; [|by apply Hdown]. unfold excused. tauto. }
  destruct Hr as [-> Hl]. destruct (i_commit _ _ I n) as [Hcl _].
  assert (0 <= c <= zlen (Spec.log g n)) as Hcz by (unfold zlen; lia).
  pose proof (recovered_started rg rt g c w _ Hrec Hl Hdu Hcz) as Hs.
  unfold on_node. cbn [boot_node set set_boot_disk set_boot_node boot_disk].
  destruct (kv_replay _ ∅) as [st|] eqn:Ek.
  - destruct Hs as (s' & -> & Hst & Hfr). set (s := (snd (set_wal w s')) <| _ := _ |>) in *.
    change (boot_rel d g (Ok s, WAL.disk_ w)). split_and!; [done| | |].
    + destruct Hst. unfold files_of. by rewrite st_wal0.
    + destruct Hst. unfold restored. rewrite st_commit0. split_and!; done || lia.
    + eapply (started_related s g c); try done. lia.
  - destruct (replay_commands (take (Z.to_nat c) (Spec.log g n))) with (m := ∅ : gmap bytes bytes) as [st Est].
    + apply Forall_take. by eapply log_valid.
    + congruence.
Qed.

(** A node that is not one of the members is not constructed. *)
Lemma create_stranger a b c :
  n ∉ [1; 2; 3] ->
  exists e, create (raft_config_for config) a b c (initial_impl config m) = Throw e.
Proof.
  intros Hn. unfold create.
  replace (invalid_config (raft_config_for config)) with true; [by eexists|].
  symmetry. unfold invalid_config, raft_config_for. cbn [Config.id Config.peers]. fold n.
  rewrite (bool_decide_eq_false_2 _ Hn), !orb_true_r. done.
Qed.

Lemma boot_member d s d' : boot config m d = (Ok s, d') -> n ∈ [1; 2; 3].
Proof.
  intros Hb. destruct (decide (n ∈ [1; 2; 3])) as [|Hn]; [done|]. unfold boot in Hb.
  destruct (create_stranger (seed_devices m).1 (seed_devices m).2 (seed_clock m) Hn) as [e E].
  by rewrite E in Hb.
Qed.

(** Any start of a stopped member. *)
Lemma boot_outcome d g :
  Inv members g -> Valid g -> down_rel n (Disk.files d) g -> boot_rel d g (boot config m d).
Proof.
  intros I V [Hrole Hd]. unfold boot.
  destruct (decide (n ∈ [1; 2; 3])) as [Hn|Hn].
  - destruct (create_new (seed_devices m).1 (seed_devices m).2 (seed_clock m) Hn) as (rg & rt & ->).
    destruct Hd as [[Hf Hd]|(rs & k & Hf & Hk & Hw & Hd)]; [by apply boot_empty|by eapply boot_again].
  - destruct (create_stranger (seed_devices m).1 (seed_devices m).2 (seed_clock m) Hn) as [e ->].
    split; [by left|]. by split.
Qed.

End Boot.
