(* ===== verification/RaftSimVotes.v ===== *)
(** * Elections follow the protocol

    The timer, the handlers of votes and pre-votes and the changes of role, as
    simulations in the sense of [RaftSim]. *)

From S2P Require Import Prelude Msgpack Proto Crc32 Wal WalFacts Raft RaftLemmas RaftLog.
From S2P Require Import RaftNode RaftSpec RaftSpecInv RaftDisk RaftSim RaftRel.
Import Raft.

Section Votes.
Context {R : Rng} {Env : Type} {WP : WalPack} {WL : WalPackLaws} {PR : Proposals}.
Context (peers : list Z) (n : Z).
Hypothesis peers_nodup : NoDup peers.
Hypothesis peers_u64 : forall p, p ∈ peers -> 0 < p < u64_max.
Hypothesis self_member : n ∈ peers.
Implicit Types (s : t Env) (g : Spec.t) (msg : Message.t).

Abbreviation related := (related peers n).
Abbreviation members := (members peers).
Abbreviation sim := (sim members n).

(** What a handler leaves, with the reply it returns. *)
Definition replied (r : Message.t) (s : t Env) g : Prop := related s g /\ msg_rel g r.

Lemma addressed s g msg :
  related s g -> misaddressed s msg = false ->
  Message.to msg = n /\ Message.from msg ∈ peers /\ Message.from msg <> n /\
  0 < Message.from msg < u64_max.
Proof.
  intros ([] & _) H. unfold misaddressed, is_member in H.
  rewrite mr_id, mr_peers in H. guards. split_and!; try done; by apply peers_u64.
Qed.

(** A reply that promises nothing. *)
Ltac inert := split_and!; cbn; try done; intros; done.

Lemma related_term s g : related s g -> is_u64 (term_ s).
Proof. intros ([] & _). apply mr_u64. Qed.

(** The second half of [handle_request_vote], once the terms agree. *)
Definition decide_vote msg (response : Message.t) : M (t Env) Message.t :=
  s ← get;
  if storage_failed_ s then reply response else
  if (Message.term msg =? term_ s) &&
     ((voted_for_ s =? 0) || (voted_for_ s =? Message.from msg)) &&
     is_log_up_to_date s (Message.last_log_index msg) (Message.last_log_term msg)
  then
    voted_for_ <~ Message.from msg ;;
    reset_randomized_election_timeout ;;
    saved ← persist_hard_state;
    reply (response <| Message.vote_granted := saved |>)
  else reply response.

Lemma sim_decide_vote msg s0 s g :
  related s g -> msg_rel g msg -> Message.type msg = Message.MsgRequestVote -> id_ s0 = n ->
  Message.from msg ∈ peers -> Message.from msg <> n -> 0 < Message.from msg < u64_max ->
  sim (decide_vote msg (vote_response s0 msg Message.MsgRequestVoteResponse)) replied s g.
Proof.
  intros Hr Hm Hty Hid Hfrom Hne Hu. pose proof (related_healthy _ _ _ _ Hr) as Hs.
  pose proof (related_term s g Hr) as Hterm. pose proof Hr as ([] & Hlk & Hms).
  unfold decide_vote. repeat sim_step; try congruence.
  2:{ apply sim_ret; [done|]. split; [done|]. inert. }
  apply andb_true_iff in Hif0 as [[Ht Hv]%andb_true_iff Hup].
  assert (voted_for_ s = 0 \/ voted_for_ s = Message.from msg) as Hv' by (guards; auto).
  apply Z.eqb_eq in Ht. destruct (proj1 (proj2 Hm) Hty) as [Hli Hreq].
  apply sim_bind; [|quiet_by].
  set (g' := Spec.say (Spec.cast_vote g n (Message.from msg))
               (Spec.VoteGrant n (Message.from msg) (Spec.term g n))).
  assert (Spec.steps members n g g') as Hg.
  { apply steps_one. eapply Spec.step_grant; try done; try lia.
    - by rewrite mr_term, <- Ht.
    - by apply elem_of_list_to_set.
    - rewrite mr_log. by eapply related_up_to_date. }
  eapply (sim_persist _ _ _ _ g g'); try done; try (cbn; lia).
  - split_and!; cbn; try done; try (unfold_words; lia). destruct mr_wf. unfold_words. lia.
  - cbn. unfold Spec.upd. by rewrite decide_True.
  - intros w' Hlk'. sim_step. apply sim_ret; [done|]. split.
    + eapply (related_update _ _ s); try done. eapply mem_update; try done.
      * cbn. unfold_words. lia.
      * cbn. unfold Spec.upd. by rewrite decide_True.
    + split_and!; cbn; try done. intros _ _. rewrite Hid, mr_term. by left.
Qed.

Lemma sim_request_vote msg s g :
  related s g -> msg_rel g msg -> Message.type msg = Message.MsgRequestVote ->
  sim (handle_request_vote msg) replied s g.
Proof.
  intros Hr Hm Hty. unfold handle_request_vote. sim_step. sim_step.
  { sim_step. apply sim_ret; [by eapply related_healthy|]. split; [done|].
    pose proof (related_term s g Hr). inert. }
  destruct (addressed s g msg Hr Hif) as (Hto & Hfrom & Hne & Hu).
  assert (id_ s = n) as Hid by apply Hr.
  change (sim (when (Message.term msg >? term_ s) (become_follower (Message.term msg) 0) ;;
    decide_vote msg (vote_response s msg Message.MsgRequestVoteResponse)) replied s g).
  sim_step; guards; [|by apply sim_decide_vote].
  apply sim_bind; [|unfold decide_vote; quiet_by].
  apply sim_follower; [done|apply Hm|lia|]. intros s1 g1 Hg1 Hr1 _.
  apply sim_decide_vote; try done. by eapply msg_rel_steps.
Qed.

(** ** Counting votes *)

Lemma count_filter {A} (P : Z * A -> Prop) `{!forall x, Decision (P x)} (m : gmap Z A) :
  length (filter P (map_to_list m)) = size (dom (filter P m)).
Proof.
  rewrite size_dom, <- length_map_to_list. apply Permutation_length.
  rewrite map_filter_alt. symmetry. apply map_to_list_to_map.
  eapply sublist_NoDup; [apply (NoDup_fst_map_to_list m)|].
  apply fmap_sublist, sublist_filter.
Qed.

Definition keys_true (m : gmap Z bool) : gset Z := dom (filter (fun p => snd p = true) m).

Lemma count_true_size m : count_true m = Z.of_nat (size (keys_true m)).
Proof. unfold count_true, zlen. by rewrite count_filter. Qed.

Lemma members_size : size members = length peers.
Proof. unfold RaftRel.members. by apply size_list_to_set. Qed.

Lemma majority_quorum (q q' : gset Z) :
  q' ⊆ q -> q ⊆ members -> Z.of_nat (size q') > zlen peers / 2 -> Spec.quorum members q.
Proof.
  intros Hs Hm Hc. split; [done|]. apply subseteq_size in Hs. rewrite members_size.
  unfold zlen in Hc. Z.div_mod_to_equations. lia.
Qed.

Lemma candidate_quorum s g :
  related s g -> Inv members g -> state_ s = Candidate ->
  count_true (votes_ s) > zlen (peers_ s) / 2 -> Spec.quorum members (Spec.votes g n).
Proof.
  intros ([] & _) I Hst Hc. rewrite mr_peers, count_true_size in Hc.
  eapply majority_quorum; [| |exact Hc].
  - intros a Ha. unfold keys_true in Ha. apply elem_of_dom in Ha as [b Hb].
    apply map_lookup_filter_Some in Hb as [Hb E]. cbn in E. subst. by apply mr_votes.
  - intros a Ha. rewrite Hst in mr_role. cbn in mr_role.
    destruct (i_votes _ _ I n a mr_role Ha) as [->|Hg].
    + by apply elem_of_list_to_set.
    + by apply (i_grant _ _ I) in Hg as [Hg _].
Qed.

(** ** Taking the lead *)

Lemma become_leader_broadcast s : become_leader s = broadcast_heartbeat (as_leader s).
Proof. by rewrite become_leader_eq, broadcast_eq. Qed.

Lemma fresh_progress_lookup s p pr :
  fresh_progress s !! p = Some pr ->
  p ∈ others s /\ pr = MkProgress 0 (u64 (last_log_index s + 1)).
Proof.
  unfold fresh_progress. set (v := MkProgress 0 (u64 (last_log_index s + 1))).
  assert (forall ps (m : gmap Z Progress), foldl (fun acc q => <[q := v]> acc) m ps !! p = Some pr ->
    m !! p = Some pr \/ (p ∈ ps /\ pr = v)) as H.
  { induction ps as [|q ps IH]; intros m E; [by left|]. cbn in E.
    destruct (IH _ E) as [E'|[Hp ->]]; [|right; by split; [right|]].
    apply lookup_insert_Some in E' as [[<- <-]|[_ E']]; [right; by split; [left|]|by left]. }
  intros E. destruct (H _ _ E) as [E'|Hp]; [|done]. by rewrite lookup_empty in E'.
Qed.

Lemma sim_leader s g :
  related s g -> Inv members g -> state_ s = Candidate -> zlen (log_ s) + 1 < u64_max ->
  count_true (votes_ s) > zlen (peers_ s) / 2 ->
  sim become_leader (fun _ => related) s g.
Proof.
  intros Hr I Hst Hb Hc. pose proof (candidate_quorum s g Hr I Hst Hc) as Hq.
  pose proof Hr as ([] & Hlk & _). assert (Spec.role g n = Spec.RoleCandidate) as Hrole.
  { by rewrite mr_role, Hst. }
  assert (Spec.steps members n g (Spec.elect g n)) as Hg by (by apply steps_one, Spec.step_lead).
  eapply sim_steps; [exact Hg|]. apply (sim_same _ _ _ _ _ _ _ _ (become_leader_broadcast s)).
  assert (related (as_leader s) (Spec.elect g n)) as Hr'.
  { eapply (related_update _ _ s); try done. pose proof Hr as (Hmem & _). destruct mr_u64.
    eapply mem_update; try done.
    - cbn. unfold Spec.upd. by rewrite decide_True.
    - cbn. intros _ p pr Hp. apply fresh_progress_lookup in Hp as [Hp ->].
      unfold others in Hp. apply list_elem_of_filter in Hp as [Hne Hp].
      rewrite mr_id, mr_peers in *. pose proof (zlen_nonneg (log_ s)). cbn.
      rewrite (related_last _ _ s g) by done.
      rewrite u64_small by (unfold_words; lia). split_and!; try done; try lia; by left. }
  by apply sim_broadcast.
Qed.

Lemma sim_request_vote_response msg s g :
  related s g -> Inv members g -> msg_rel g msg ->
  Message.type msg = Message.MsgRequestVoteResponse -> zlen (log_ s) + 1 < u64_max ->
  sim (handle_request_vote_response msg) (fun _ => related) s g.
Proof.
  intros Hr I Hm Hty Hb. pose proof (related_healthy _ _ _ _ Hr) as Hs.
  unfold handle_request_vote_response. sim_step. sim_step; [by apply sim_ret|].
  destruct (addressed s g msg Hr Hif) as (Hto & Hfrom & Hne & Hu).
  sim_step; guards; [by apply sim_follower; [|apply Hm|lia|]|].
  sim_step; [by apply sim_ret|]. guards.
  pose proof Hr as (Hmem & Hlk & _). pose proof Hmem as [].
  assert (Spec.role g n = Spec.RoleCandidate) as Hrole by (by rewrite mr_role, H0).
  assert (Message.term msg = term_ s) as Et by lia.
  sim_step; [sim_step|]; sim_step.
  2:{ sim_step; [|by apply sim_ret]. apply sim_leader; try done. lia. }
  assert (Spec.VoteGrant (Message.from msg) n (Spec.term g n) ∈ Spec.net g) as Hg.
  { destruct Hm as (_ & _ & Hm & _). rewrite mr_term, <- Et, <- Hto. by apply Hm. }
  set (s1 := s <| votes_ := _ |>). set (g1 := g <| Spec.votes := Spec.upd (Spec.votes g) n
    ({[Message.from msg]} ∪ Spec.votes g n) |>).
  assert (Spec.step members n g g1) as Hst by (by apply Spec.step_vote).
  eapply sim_steps; [by apply steps_one|].
  assert (related s1 g1) as Hr1.
  { eapply (related_update _ _ s); try done; [by apply steps_one|]. destruct mr_u64.
    eapply mem_update; try done. cbn. unfold Spec.upd. rewrite decide_True by done.
    intros _ a Ha. apply lookup_insert_Some in Ha as [[<- _]|[_ Ha]]; set_solver. }
  sim_step; [|by apply sim_ret]. apply sim_leader; try done; [by eapply step_inv|lia].
Qed.

(** ** Pre-votes promise nothing *)

Lemma sim_pre_vote msg s g :
  related s g -> sim (handle_pre_vote msg) replied s g.
Proof.
  intros Hr. pose proof (related_healthy _ _ _ _ Hr) as Hs. pose proof (related_term s g Hr).
  unfold handle_pre_vote. repeat sim_step; (apply sim_ret; [done|]); (split; [done|]); inert.
Qed.

Lemma vote_request_inert s g p u :
  is_u64 u -> msg_rel g (vote_request s Message.MsgPreVote p u).
Proof. intros Hu. inert. Qed.

Lemma vote_request_rel s g p :
  related s g -> state_ s = Candidate ->
  Spec.VoteReq n (Spec.term g n) (length (Spec.log g n)) (Spec.last_term (Spec.log g n))
    ∈ Spec.net g ->
  msg_rel g (vote_request s Message.MsgRequestVote p (term_ s)).
Proof.
  intros Hr Hst Hin. pose proof Hr as ([] & _). unfold vote_request.
  rewrite (related_last _ _ s g), (related_last_term _ _ s g) by done.
  destruct mr_u64. split_and!; cbn; try done. intros _.
  split; [apply zlen_nonneg|]. rewrite mr_term, mr_log in Hin.
  unfold zlen. rewrite Nat2Z.id. by rewrite mr_id.
Qed.

(** ** Standing for election *)

Lemma sim_candidate (Q : unit -> t Env -> Spec.t -> Prop) s g :
  related s g -> term_ s + 1 < u64_max ->
  (forall s' g', Spec.steps members n g g' -> related s' g' -> state_ s' = Candidate ->
     n ∈ Spec.votes g' n -> Q tt s' g') ->
  sim become_candidate Q s g.
Proof.
  intros Hr Hroom HQ. pose proof (related_healthy _ _ _ _ Hr) as Hs.
  pose proof Hr as (Hmem & Hlk & _). pose proof Hmem as []. destruct mr_u64 as [Hu Hv].
  unfold become_candidate. repeat sim_step.
  assert (u64 (term_ s + 1) = term_ s + 1) as Eu by (apply u64_small; unfold_words; lia).
  set (g' := Spec.cast_vote (g <| Spec.term := Spec.upd (Spec.term g) n (Spec.term g n + 1) |>
     <| Spec.role := Spec.upd (Spec.role g) n Spec.RoleCandidate |>
     <| Spec.votes := Spec.upd (Spec.votes g) n {[n]} |>) n n).
  pose proof (peers_u64 n self_member) as Hn.
  assert (Spec.steps members n g g') as Hg.
  { apply steps_one. eapply Spec.step_campaign; [by apply elem_of_list_to_set|lia|done]. }
  apply sim_bind; [|quiet_by].
  eapply (sim_persist _ _ _ _ g g'); try done; try (cbn; unfold Spec.upd; rewrite ?decide_True by done; lia).
  { split_and!; cbn; unfold_words; try lia. destruct mr_wf. unfold_words. lia. }
  intros w' Hlk'. set (s' := _ <| wal_ := _ |>) in *.
  assert (s' = as_candidate s rg rt (Some w') false) as Es.
  { unfold s', as_candidate. clear - Hs. destruct s. cbn in Hs. by subst. }
  rewrite Es in *. apply sim_ret; [done|]. apply HQ; [done| |done|].
  - eapply (related_update _ _ s); try done.
    eapply mem_update; try done; cbn; unfold Spec.upd; rewrite ?decide_True by done;
      try (unfold_words; lia); done.
  - cbn. unfold Spec.upd. rewrite decide_True by done. by apply elem_of_singleton.
Qed.

Lemma sim_campaign s g :
  related s g -> state_ s = Candidate -> n ∈ Spec.votes g n ->
  sim campaign (fun _ => related) s g.
Proof.
  intros Hr Hst Hn. pose proof (related_healthy _ _ _ _ Hr) as Hs.
  pose proof Hr as (Hmem & Hlk & Hms). pose proof Hmem as []. destruct mr_u64 as [Hu Hv].
  set (g1 := Spec.say g (Spec.VoteReq n (Spec.term g n) (length (Spec.log g n))
                           (Spec.last_term (Spec.log g n)))).
  assert (Spec.step members n g g1) as Hg.
  { apply Spec.step_request. by rewrite mr_role, Hst. }
  eapply sim_steps; [by apply steps_one|].
  eapply sim_pure; [apply campaign_eq|by rewrite Hs|]. rewrite Hs.
  set (s1 := s <| votes_ := <[id_ s := true]> (votes_ s) |>).
  assert (related s1 g1) as Hr1.
  { eapply (related_update _ _ s); try done; [by apply steps_one|]. eapply mem_update; try done.
    cbn. intros _ a Ha. apply lookup_insert_Some in Ha as [[<- _]|[_ Ha]]; [by rewrite mr_id|].
    by apply mr_votes. }
  apply (related_core _ _ s1); try done. cbn. apply Forall_app. split; [apply Hr1|].
  apply Forall_fmap, Forall_forall. intros p _. apply (vote_request_rel s1 g1 p); try done.
  by left.
Qed.

Lemma sim_pre_vote_response msg s g :
  related s g -> msg_rel g msg -> term_ s + 1 < u64_max ->
  sim (handle_pre_vote_response msg) (fun _ => related) s g.
Proof.
  intros Hr Hm Hroom. pose proof (related_healthy _ _ _ _ Hr) as Hs.
  unfold handle_pre_vote_response. sim_step. sim_step; [by apply sim_ret|].
  sim_step; guards; [by apply sim_follower; [|apply Hm|lia|]|].
  sim_step; [by apply sim_ret|]. sim_step; [by apply sim_ret|].
  assert (forall s', core s' = core s -> msgs_ s' = msgs_ s ->
    sim (become_candidate ;; campaign) (fun _ => related) s' g) as Hcamp.
  { intros s' Ec Em. apply sim_bind; [|intros; apply quiet_campaign].
    apply sim_candidate.
    - by apply (related_quiet _ _ s).
    - unfold core in Ec. by injection Ec as _ _ _ _ _ -> _.
    - intros s1 g' _ Hr' Hst Hn. by apply sim_campaign. }
  sim_step; [sim_step|]; sim_step; (sim_step; [by apply Hcamp|apply sim_ret; [done|]]).
  - by apply (related_quiet _ _ s).
  - done.
Qed.

(** ** The clock *)

Lemma sim_tick s g :
  related s g -> term_ s + 1 < u64_max -> zlen (log_ s) + 1 < u64_max ->
  sim tick (fun _ => related) s g.
Proof.
  intros Hr Hroom Hb. pose proof (related_healthy _ _ _ _ Hr) as Hs.
  unfold tick. repeat sim_step; try congruence.
  - apply sim_broadcast; try done. by apply (related_quiet _ _ s).
  - apply sim_ret; [done|]. by apply (related_quiet _ _ s).
  - set (s1 := s <| election_elapsed_ := _ |>). set (s2 := s1 <| election_elapsed_ := 0 |>).
    assert (related s2 g) as Hr2 by (by apply (related_quiet _ _ s)).
    unfold become_pre_candidate. repeat sim_step. set (s3 := _ <| randomized_election_timeout_ := _ |>).
    set (g1 := g <| Spec.role := Spec.upd (Spec.role g) n Spec.RoleFollower |>).
    assert (Spec.step members n g g1) as Hg by apply Spec.step_follower.
    eapply sim_steps; [by apply steps_one|].
    assert (related s3 g1) as Hr3.
    { pose proof Hr2 as (Hmem & [_ Hlk] & _). pose proof Hmem as []. destruct mr_u64.
      eapply (related_update _ _ s2); try done; [by apply steps_one|].
      eapply mem_update; try done. cbn. unfold Spec.upd. by rewrite decide_True. }
    eapply sim_pure; [apply pre_campaign_eq|by rewrite (related_healthy _ _ _ _ Hr3)|].
    rewrite (related_healthy _ _ _ _ Hr3). apply (related_core _ _ s3); try done. cbn.
    apply Forall_app. split; [apply Hr3|]. apply Forall_fmap, Forall_forall. intros p _.
    pose proof (related_term s g Hr). apply vote_request_inert.
    rewrite u64_small; unfold_words; cbn in *; lia.
  - apply sim_ret; [done|]. by apply (related_quiet _ _ s).
Qed.

End Votes.
