(* ===== verification/RaftSimLog.v ===== *)
(** * Replication follows the protocol

    The receiving side: the handler of appended entries, with the flushes
    between its writes. *)

From S2P Require Import Prelude Msgpack Proto Crc32 Wal WalFacts Raft RaftLemmas RaftLog.
From S2P Require Import RaftNode RaftSpec RaftSpecInv RaftDisk RaftSim RaftRel RaftSimVotes.
Import Raft.

Section SimLog.
Context {R : Rng} {Env : Type} {WP : WalPack} {WL : WalPackLaws} {PR : Proposals}.
Context (peers : list Z) (n : Z).
Hypothesis peers_nodup : NoDup peers.
Hypothesis peers_u64 : forall p, p ∈ peers -> 0 < p < u64_max.
Hypothesis self_member : n ∈ peers.
Implicit Types (s : t Env) (g : Spec.t) (msg : Message.t).

Abbreviation related := (related peers n).
Abbreviation members := (members peers).
Abbreviation sim := (sim members n).
Abbreviation replied := (replied peers n).

(** ** Entries in the WAL *)

Lemma merge_writes_wal es : forall s i w, merge_writes (s <| wal_ := w |>) es i = merge_writes s es i.
Proof.
  induction es as [|e es IH]; intros s i w; [done|]. cbn [merge_writes].
  change (last_log_index (s <| wal_ := w |>)) with (last_log_index s).
  change (term_at (s <| wal_ := w |>) i) with (term_at s i).
  cbn [log_offset_ commit_index_ log_ set set_wal_].
  repeat case_match; try done; try apply IH; f_equal.
  - rewrite <- (IH (s <| log_ := _ |>) _ w). by destruct s.
  - rewrite <- (IH (s <| log_ := _ |>) _ w). by destruct s.
Qed.

Lemma wp_append_entry_wal e Q E s w rs ps :
  wal_ s = Some w -> logged w rs ps -> typed e ->
  (forall w', logged w' rs (ps ++ [rec_entry e]) ->
     Q tt (s <| log_ := log_ s ++ [e] |> <| wal_ := Some w' |>)) ->
  (forall x w', logged w' rs ps -> E x (s <| log_ := log_ s ++ [e] |> <| wal_ := Some w' |>)) ->
  wp (append_entry e) Q E s.
Proof.
  intros Hw Hl Ht HQ HE. unfold append_entry, save_entry_now. repeat wp_step.
  by eapply (wp_save_record (rec_entry e)).
Qed.

Lemma wp_append_loop_wal es : forall i Q E s w rs ps,
  wal_ s = Some w -> logged w rs ps -> Forall typed es ->
  (forall w', logged w' rs (ps ++ (rec_entry <$> merge_writes s es i)) ->
     Q (snd (merge_log s es i)) (s <| log_ := fst (merge_log s es i) |> <| wal_ := Some w' |>)) ->
  (forall x l w' ps', logged w' rs ps' -> E x (s <| log_ := l |> <| wal_ := Some w' |>)) ->
  wp (append_loop es i) Q E s.
Proof.
  induction es as [|e es IH]; intros i Q E s w rs ps Hw Hl Ht HQ HE;
    cbn [append_loop merge_log merge_writes] in *.
  - rewrite app_nil_r in HQ. specialize (HQ w Hl). apply wp_ret.
    by destruct s; cbn in Hw; subst.
  - apply Forall_cons_iff in Ht as [Ht1 Ht]. apply wp_bind, wp_get.
    repeat (case_match; try by eapply IH).
    + rewrite app_nil_r in HQ. specialize (HQ w Hl). apply wp_ret.
      by destruct s; cbn in Hw; subst.
    + repeat wp_step. eapply wp_append_entry_wal; [done|done|done|..].
      * intros w1 Hl1. eapply IH; [done|done|done|..].
        -- intros w' Hl'. rewrite merge_writes_wal, <- app_assoc in Hl'. rewrite merge_log_wal.
           specialize (HQ w' Hl'). by destruct s.
        -- intros x l w' ps' Hl'. specialize (HE x l w' ps' Hl'). by destruct s.
      * intros x w1 Hl1. specialize (HE x (take (Z.to_nat (u64 (i - log_offset_ s - 1))) (log_ s) ++ [e]) w1 _ Hl1).
        by destruct s.
    + repeat wp_step. eapply wp_append_entry_wal; [done|done|done|..].
      * intros w1 Hl1. eapply IH; [done|done|done|..].
        -- intros w' Hl'. rewrite merge_writes_wal, <- app_assoc in Hl'. rewrite merge_log_wal.
           specialize (HQ w' Hl'). by destruct s.
        -- intros x l w' ps' Hl'. specialize (HE x l w' ps' Hl'). by destruct s.
      * intros x w1 Hl1. by eapply HE.
Qed.

Lemma lower_bound_indexed l : forall o k,
  indexed o l -> (k <= length l)%nat -> WAL.lower_bound l (o + 1 + Z.of_nat k) = k.
Proof.
  induction l as [|e l IH]; intros o k Hi Hk; cbn in *; [lia|].
  assert (Entry.index e = o + 1) as He by (rewrite (Hi 0%nat e eq_refl); lia).
  destruct k as [|k].
  - rewrite (proj2 (Z.ltb_ge _ _)) by lia. done.
  - rewrite (proj2 (Z.ltb_lt _ _)) by lia. f_equal.
    replace (o + 1 + Z.of_nat (S k)) with (o + 1 + 1 + Z.of_nat k) by lia. apply IH; [|lia].
    intros j e' Hj. rewrite (Hi (S j) e' Hj). lia.
Qed.

(** Replaying entries numbered after the first [k] of the log replaces the rest. *)
Lemma replay_entries es : forall l k h sn,
  indexed 0 l -> (k <= length l)%nat -> indexed (Z.of_nat k) es -> es <> [] ->
  replay (rec_entry <$> es) (WAL.Recovered h l sn) = WAL.Recovered h (take k l ++ es) sn.
Proof.
  induction es as [|e es IH]; intros l k h sn Hl Hk Hes Hne; [done|]. cbn.
  assert (Entry.index e = 0 + 1 + Z.of_nat k) as He by (rewrite (Hes 0%nat e eq_refl); lia).
  unfold WAL.recover_entry. cbn. rewrite He, (lower_bound_indexed l 0 k) by done.
  destruct es as [|e' es]; [done|].
  transitivity (replay (rec_entry <$> e' :: es) (WAL.Recovered h (take k l ++ [e]) sn)); [done|].
  assert (length (take k l ++ [e]) = S k) as Hlen by (rewrite length_app, length_take; cbn; lia).
  rewrite (IH (take k l ++ [e]) (S k)).
  - rewrite take_ge by lia. by rewrite <- app_assoc.
  - apply indexed_app; [by apply indexed_take|]. rewrite zlen_take. apply indexed_one.
    rewrite He. unfold zlen. lia.
  - lia.
  - intros j e1 Hj. rewrite (Hes (S j) e1 Hj). lia.
  - done.
Qed.

(** ** Accepting a leader *)

Definition accept_leader msg : M (t Env) bool :=
  s ← get;
  if storage_failed_ s || (Message.term msg <? term_ s) then mret false else
  when (negb (bool_decide (state_ s = Follower)))
    (become_follower (Message.term msg) (Message.from msg)) ;;
  reset_randomized_election_timeout ;;
  lead_ <~ Message.from msg ;;
  mret true.

(** What the accepted leader's follower looks like. *)
Definition follows msg (s0 s : t Env) : Prop :=
  state_ s = Follower /\ term_ s = Message.term msg /\ log_ s = log_ s0.

Lemma sim_accept_leader msg (Q : bool -> t Env -> Spec.t -> Prop) s0 s g :
  related s g -> is_u64 (Message.term msg) -> log_ s = log_ s0 ->
  (forall s' g', Spec.steps members n g g' -> related s' g' -> Q false s' g') ->
  (forall s' g', Spec.steps members n g g' -> related s' g' ->
     (Message.term msg = term_ s -> follows msg s0 s' -> Q true s' g')) ->
  (term_ s <= Message.term msg -> Message.term msg = term_ s) ->
  sim (accept_leader msg) Q s g.
Proof.
  intros Hr Hu El Hf Ht Hge. pose proof (related_healthy _ _ _ _ Hr) as Hs.
  unfold accept_leader. sim_step. sim_step.
  { apply sim_ret; [done|]. apply Hf; [apply Spec.steps_refl|done]. }
  guards. assert (Message.term msg = term_ s) as Et by auto.
  sim_step; guards.
  - apply sim_bind; [|quiet_by]. apply sim_follower; [done|done|lia|].
    intros s1 g1 Hg1 Hr1 (H1 & H2 & H3). pose proof (related_healthy _ _ _ _ Hr1) as Hs1.
    repeat sim_step. apply sim_ret; [done|].
    apply Ht; [done|by apply (related_quiet _ _ s1)|done|]. split_and!; cbn; congruence.
  - repeat sim_step. apply sim_ret; [done|].
    apply Ht; [apply Spec.steps_refl| |done|done]. by apply (related_quiet _ _ s).
Qed.

Lemma sim_prepare msg (Q : bool -> t Env -> Spec.t -> Prop) s g :
  related s g -> msg_rel g msg ->
  (forall s' g', Spec.steps members n g g' -> related s' g' -> Q false s' g') ->
  (forall s' g', Spec.steps members n g g' -> related s' g' -> misaddressed s msg = false ->
     follows msg s s' -> Q true s' g') ->
  sim (prepare_for_leader_rpc msg) Q s g.
Proof.
  intros Hr Hm Hf Ht. pose proof (related_healthy _ _ _ _ Hr) as Hs.
  unfold prepare_for_leader_rpc. sim_step. sim_step.
  { apply sim_ret; [done|]. apply Hf; [apply Spec.steps_refl|done]. }
  change (sim (when (Message.term msg >? term_ s)
    (become_follower (Message.term msg) (Message.from msg)) ;; accept_leader msg) Q s g).
  sim_step; guards.
  - apply sim_bind; [|unfold accept_leader; quiet_by]. apply sim_follower; [done|apply Hm|lia|].
    intros s1 g1 Hg1 Hr1 (H1 & H2 & H3). eapply (sim_accept_leader msg Q s); try done; [apply Hm|..].
    + intros s' g' Hg Hr'. apply Hf; [by eapply steps_trans|done].
    + intros s' g' Hg Hr' _ Hfo. apply Ht; try done. by eapply steps_trans.
  - eapply (sim_accept_leader msg Q s); try done; [apply Hm| |lia].
    intros s' g' Hg Hr' _ Hfo. by apply Ht.
Qed.

(** ** Taking entries *)

(** The loop of the handler in terms of the protocol. *)
Inductive merged (l : list Entry.t) (prev : nat) (pt : Z) (es : list Entry.t)
    : list Entry.t -> bool -> list Entry.t -> Prop :=
| merged_kept : Spec.agrees l prev pt es (length es) -> merged l prev pt es l true []
| merged_refused : merged l prev pt es l false []
| merged_replaced j :
    Spec.agrees l prev pt es j -> (j < length es)%nat ->
    (forall e e', es !! j = Some e -> l !! (prev + j)%nat = Some e' -> Entry.term e' <> Entry.term e) ->
    (prev + j <= length l)%nat ->
    merged l prev pt es (take (prev + j) l ++ drop j es) true (drop j es).

Lemma related_entry_at s g k :
  related s g -> entry_at s (1 + Z.of_nat k) = log_ s !! k.
Proof.
  intros ([] & _). unfold entry_at. rewrite decide_True by lia. f_equal. lia.
Qed.

Lemma log_ok_prefix s g msg :
  related s g -> log_ok s msg = true -> 0 <= Message.prev_log_index msg ->
  0 <= Message.prev_log_index msg <= zlen (log_ s) /\
  (Message.prev_log_index msg = 0 \/
   Spec.term_at (log_ s) (Z.to_nat (Message.prev_log_index msg)) = Message.prev_log_term msg).
Proof.
  intros Hr Hok Hp. unfold log_ok in Hok. rewrite (related_last _ _ s g) in Hok by done.
  pose proof (zlen_nonneg (log_ s)). destruct (Z.eqb_spec (Message.prev_log_index msg) 0); [lia|].
  destruct (_ && _) eqn:E; [|done]. guards. split; [lia|]. right.
  by rewrite <- (related_term_at _ _ s g) by (done || lia).
Qed.

Lemma merge_rel s g msg :
  related s g -> append_ok msg -> log_ok s msg = true ->
  Message.prev_log_term msg = Spec.term_at (log_ s) (Z.to_nat (Message.prev_log_index msg)) ->
  merged (log_ s) (Z.to_nat (Message.prev_log_index msg)) (Message.prev_log_term msg)
    (Message.entries msg)
    (fst (merge_log s (Message.entries msg) (Message.prev_log_index msg + 1)))
    (snd (merge_log s (Message.entries msg) (Message.prev_log_index msg + 1)))
    (merge_writes s (Message.entries msg) (Message.prev_log_index msg + 1)).
Proof.
  intros Hr (Hp & Hes & Hb) Hok Ept. pose proof Hr as ([] & _).
  destruct (log_ok_prefix s g msg Hr Hok Hp) as [Hrange _].
  set (prev := Z.to_nat (Message.prev_log_index msg)) in *.
  assert (Message.prev_log_index msg + 1 = 1 + Z.of_nat prev) as Ei by lia. rewrite Ei in *.
  assert (forall j, overlap_matches s (Message.entries msg) (1 + Z.of_nat prev) j ->
    Spec.agrees (log_ s) prev (Message.prev_log_term msg) (Message.entries msg) j) as Hag.
  { intros j Hj. split_and!; [unfold zlen in *; lia|done|]. intros k e Hk He.
    destruct (Hj k e Hk He) as (e' & He' & Et); [lia|]. exists e'. split; [|done].
    rewrite <- He'. replace (1 + Z.of_nat prev + Z.of_nat k) with (1 + Z.of_nat (prev + k)) by lia.
    symmetry. by apply (related_entry_at s g). }
  pose proof (merge_log_spec (Message.entries msg) s (1 + Z.of_nat prev) mr_wf ltac:(lia) ltac:(lia)) as Hm.
  destruct (merge_log _ _ _) as [l b]. set (ws := merge_writes _ _ _) in *. clearbody ws.
  cbn [fst snd]. clear mr_id mr_peers.
  inversion Hm as [Hk|j e e' Hk He He' Ht Hc|j k Hk Hj Ek Hl Hc Ht]; subst.
  - apply merged_kept. auto.
  - apply merged_refused.
  - assert (k = (prev + j)%nat) as -> by lia. apply merged_replaced; auto.
    intros e e' He He'. apply (Ht e e' He). rewrite <- He'.
    replace (1 + Z.of_nat prev + Z.of_nat j) with (1 + Z.of_nat (prev + j)) by lia.
    by apply (related_entry_at s g).
Qed.

(** A new commit index, within the log. *)
Lemma mem_commit s g g' c w :
  mem_rel peers n s g -> commit_index_ s <= c <= zlen (log_ s) ->
  Z.of_nat (Spec.commit g' n) = c -> Spec.term g' = Spec.term g -> Spec.vote g' = Spec.vote g ->
  Spec.log g' = Spec.log g -> Spec.role g' = Spec.role g -> Spec.votes g' = Spec.votes g ->
  Spec.matched g' = Spec.matched g ->
  mem_rel peers n (s <| commit_index_ := c |> <| wal_ := w |>) g'.
Proof.
  intros [] Hc Ec E1 E2 E3 E4 E5 E6. split; cbn; rewrite ?E1, ?E2, ?E3, ?E4, ?E5, ?E6; try done.
  destruct mr_wf. split; cbn; try done; lia.
Qed.

(** The answer to a leader whose entries are all on disk. *)
Definition acknowledge msg (response : Message.t) : M (t Env) Message.t :=
  let response := response <| Message.success := true |>
    <| Message.match_index :=
         u64 (Message.prev_log_index msg + zlen (Message.entries msg)) |> in
  s ← get;
  if Message.leader_commit msg >? commit_index_ s then
    commit_index_ <~ Z.min (Message.leader_commit msg) (last_log_index s) ;;
    saved ← persist_hard_state;
    if negb (saved : bool) then reply (response <| Message.success := false |>)
    else reply response
  else reply response.

(** The message, as the follower's member of the protocol has received it. *)
Record received g msg (s : t Env) : Prop := {
  rc_from : Message.from msg <> n;
  rc_append : append_ok msg;
  rc_typed : Forall typed (Message.entries msg);
  rc_commit : 0 <= Message.leader_commit msg;
  rc_net : Spec.Append (Message.from msg) (Message.term msg)
    (Z.to_nat (Message.prev_log_index msg)) (Message.prev_log_term msg)
    (Message.entries msg) (Z.to_nat (Message.leader_commit msg)) ∈ Spec.net g;
  rc_state : state_ s = Follower;
  rc_term : term_ s = Message.term msg;
}.

Definition append_reply msg (s0 : t Env) : Message.t :=
  (vote_response s0 msg Message.MsgAppendEntriesResponse)
    <| Message.read_context := Message.read_context msg |>.

Lemma ack_rel g msg (s0 s : t Env) :
  id_ s0 = n -> is_u64 (term_ s) -> append_ok msg -> 
  Spec.Ack n (Message.from msg) (term_ s)
    (Z.to_nat (Message.prev_log_index msg) + length (Message.entries msg)) ∈ Spec.net g ->
  msg_rel g ((append_reply msg s0) <| Message.success := true |>
    <| Message.match_index := u64 (Message.prev_log_index msg + zlen (Message.entries msg)) |>
    <| Message.term := term_ s |>).
Proof.
  intros Hid Hu (Hp & _ & Hb) Hack. pose proof (zlen_nonneg (Message.entries msg)).
  rewrite u64_small by (unfold_words; lia). split_and!; cbn; try done.
  intros _ _. split; [lia|]. rewrite Hid. unfold zlen. rewrite Z2Nat.inj_add, Nat2Z.id by lia. done.
Qed.

Lemma sim_acknowledge msg s0 s g :
  related s g -> Inv members g -> received g msg s -> id_ s0 = n ->
  Spec.agrees (log_ s) (Z.to_nat (Message.prev_log_index msg)) (Message.prev_log_term msg)
    (Message.entries msg) (length (Message.entries msg)) ->
  sim (acknowledge msg (append_reply msg s0)) replied s g.
Proof.
  intros Hr I [] Hid Hag. pose proof (related_healthy _ _ _ _ Hr) as Hs.
  pose proof Hr as (Hmem & Hlk & Hms). pose proof Hmem as []. destruct mr_u64 as [Hu Hv].
  set (prev := Z.to_nat (Message.prev_log_index msg)) in *. rewrite <- rc_term0 in rc_net0.
  set (g1 := Spec.say g (Spec.Ack n (Message.from msg) (Spec.term g n)
               (prev + length (Message.entries msg)))).
  assert (n ∈ members) as Hn by (by apply elem_of_list_to_set).
  assert (Spec.step members n g g1) as Hg1.
  { eapply Spec.step_ack; try done; rewrite ?mr_term, ?mr_log; done. }
  eapply sim_steps; [by apply steps_one|].
  assert (related s g1) as Hr1.
  { apply (related_net _ _ s g); [done| |by apply steps_one]. intros m Hm. by right. }
  assert (msg_rel g1 ((append_reply msg s0) <| Message.success := true |>
    <| Message.match_index := u64 (Message.prev_log_index msg + zlen (Message.entries msg)) |>
    <| Message.term := term_ s |>)) as Hack.
  { apply ack_rel; try done. rewrite <- mr_term. by left. }
  unfold acknowledge. do 2 sim_step; [|sim_step; by apply sim_ret]. guards. sim_step.
  assert (Inv members g1) as I1 by (by eapply step_inv).
  destruct (i_append _ _ I _ _ _ _ _ _ rc_net0) as (T & HT & Htl & HlT & _ & _ & Hcm & _).
  assert (0 < term_ s) as Hpos by (apply (i_tlead _ _ I _ _ HT)).
  pose proof (agrees_length _ _ _ _ Hag) as Hlen.
  assert (Z.min (Message.leader_commit msg) (last_log_index s) = Message.leader_commit msg) as Emin.
  { rewrite (related_last _ _ s g) by done. unfold zlen. lia. }
  rewrite Emin. set (c := Z.to_nat (Message.leader_commit msg)) in *.
  set (g2 := g1 <| Spec.commit := Spec.upd (Spec.commit g1) n c |>).
  assert (Spec.step members n g1 g2) as Hg2.
  { eapply (Spec.step_follow _ n g1 (Message.from msg) prev); try done.
    - right. cbn. rewrite mr_term. exact rc_net0.
    - cbn. by rewrite mr_log.
    - cbn. lia. }
  apply sim_bind; [|quiet_by].
  eapply (sim_persist _ _ _ _ g1 g2); try done; try (by apply steps_one).
  - split_and!; cbn; try done. destruct mr_wf. unfold zlen in *. unfold_words. lia.
  - cbn. unfold Spec.upd. rewrite decide_True by done. lia.
  - by left.
  - intros w' Hlk'. sim_step. sim_step. apply sim_ret; [done|]. split.
    + eapply (related_update _ _ s _ g1); try done; [by apply steps_one|].
      apply (mem_commit s g1 g2); try done.
      * cbn. unfold zlen. lia.
      * cbn. unfold Spec.upd. rewrite decide_True by done. lia.
    + eapply msg_rel_steps; [by apply steps_one|]. exact Hack.
Qed.

(** ** The handler *)

Definition flush_entries msg (response : Message.t) (finished : bool) : M (t Env) Message.t :=
  s ← get;
  if negb (finished : bool)
  then reply (response <| Message.match_index := commit_index_ s |>) else
  saved ← (if decide (Message.entries msg = []) then mret true else sync_wal);
  if negb (saved : bool) then reply response else acknowledge msg response.

Definition take_entries msg (response : Message.t) : M (t Env) Message.t :=
  s ← get;
  if negb (log_ok s msg) then reply response else
  finished ← append_loop (Message.entries msg) (u64 (Message.prev_log_index msg + 1));
  flush_entries msg response finished.

(** A log replaced by one the protocol has given the member too. *)
Lemma mem_log s g g' l w :
  mem_rel peers n s g -> indexed 0 l -> zlen l < u64_max -> commit_index_ s <= zlen l ->
  Forall typed l -> state_ s = Follower ->
  Spec.log g' n = l -> Spec.term g' = Spec.term g -> Spec.vote g' = Spec.vote g ->
  Spec.commit g' = Spec.commit g -> Spec.role g' = Spec.role g ->
  mem_rel peers n (s <| log_ := l |> <| wal_ := w |>) g'.
Proof.
  intros [] Hi Hl Hc Ht Hst El E1 E2 E3 E4. split; cbn; rewrite ?E1, ?E2, ?E3, ?E4; try done.
  - destruct mr_wf. split; cbn; try done; try lia. by rewrite mr_offset.
  - congruence.
  - congruence.
Qed.

Lemma quiet_acknowledge msg r : quiet (acknowledge msg r).
Proof. unfold acknowledge. quiet_by. Qed.

Lemma received_steps g g' msg (s s' : t Env) :
  Spec.steps members n g g' -> state_ s' = state_ s -> term_ s' = term_ s ->
  received g msg s -> received g' msg s'.
Proof.
  intros Hst E1 E2 []. split; try done; try congruence. by eapply steps_net.
Qed.

(** The loop kept the log as it was. *)
Lemma sim_flush_kept msg s0 s g w rs :
  related s g -> Inv members g -> received g msg s -> id_ s0 = n ->
  logged w rs [] -> disk_rel n g rs ->
  Spec.agrees (log_ s) (Z.to_nat (Message.prev_log_index msg)) (Message.prev_log_term msg)
    (Message.entries msg) (length (Message.entries msg)) ->
  sim (flush_entries msg (append_reply msg s0) true) replied
    (s <| log_ := log_ s |> <| wal_ := Some w |>) g.
Proof.
  intros Hr I Hrc Hid Hl Hd Hag. pose proof (related_healthy _ _ _ _ Hr) as Hs.
  pose proof Hr as (Hmem & _ & Hms).
  assert (forall w', linked n (s <| log_ := log_ s |> <| wal_ := Some w' |>) g ->
    sim (acknowledge msg (append_reply msg s0)) replied
      (s <| log_ := log_ s |> <| wal_ := Some w' |>) g) as Hack.
  { intros w' Hlk. apply sim_acknowledge; try done; [|by eapply received_steps; [apply Spec.steps_refl|..|exact Hrc]].
    split; [|by split]. apply (mem_rel_core _ _ (s <| wal_ := Some w' |>)); [by destruct s|].
    pose proof Hmem as []. split; try done. eapply same_log_wf; [|exact mr_wf]. by split. }
  unfold flush_entries. sim_step. sim_step. sim_step.
  - sim_step. sim_step. apply Hack. split; [done|]. by exists w, rs.
  - apply sim_bind; [|intros []; cbn [negb]; auto using quiet_acknowledge with quiet_db].
    eapply (sim_sync _ _ _ _ g w rs [] g); try done.
    + intros i Hi. cbn in Hi. lia.
    + apply Spec.steps_refl.
    + by rewrite app_nil_r.
Qed.

(** The new log has all the entries sent. *)
Lemma agrees_replaced l prev pt es j :
  Spec.agrees l prev pt es j -> (j <= length es)%nat -> (prev + j <= length l)%nat ->
  Spec.agrees (take (prev + j) l ++ drop j es) prev pt es (length es).
Proof.
  intros (Hp & Ht & Hes) Hj Hl.
  assert (length (take (prev + j) l) = prev + j)%nat as Hlen by (rewrite length_take; lia).
  split_and!.
  - rewrite length_app. lia.
  - rewrite <- Ht. apply term_at_take. rewrite take_app_le, take_take by lia. f_equal. lia.
  - intros k e _ He. destruct (decide (k < j)%nat) as [Hk|Hk].
    + rewrite lookup_app_l, lookup_take_lt by lia. by apply Hes.
    + exists e. split; [|done]. rewrite lookup_app_r, lookup_drop by lia. rewrite <- He. f_equal. lia.
Qed.

Section Replaced.
Context (msg : Message.t) (s : t Env) (g : Spec.t) (j : nat).
Let prev := Z.to_nat (Message.prev_log_index msg).
Let es := Message.entries msg.
Let new_log (i : nat) := take (prev + j) (log_ s) ++ take i (drop j es).
Hypothesis Hr : related s g.
Hypothesis I : Inv members g.
Hypothesis Hrc : received g msg s.
Hypothesis Hag : Spec.agrees (log_ s) prev (Message.prev_log_term msg) es j.
Hypothesis Hj : (j < length es)%nat.
Hypothesis Hconf : forall e e', es !! j = Some e -> log_ s !! (prev + j)%nat = Some e' ->
  Entry.term e' <> Entry.term e.
Hypothesis Hlen : (prev + j <= length (log_ s))%nat.

(** The first [i] of the new entries are on disk. *)
Definition merged_state (i : nat) : Spec.t := Spec.rewrite_log g n (new_log i).

Lemma merged_step i : (0 < i <= length (drop j es))%nat -> Spec.step members n g (merged_state i).
Proof.
  intros Hi. pose proof Hr as ([] & _). destruct Hrc. rewrite length_drop in Hi.
  unfold merged_state, new_log. rewrite <- mr_log.
  replace i with (j + i - j)%nat at 1 by lia.
  eapply Spec.step_merge; try done; rewrite ?mr_term, ?mr_log.
  - rewrite rc_term0. exact rc_net0.
  - by apply elem_of_list_to_set.
  - by rewrite mr_role, rc_state0.
  - done.
  - lia.
  - done.
  - done.
Qed.

Lemma merged_durable i : durable n g -> (i <= length (drop j es))%nat -> durable n (merged_state i).
Proof.
  intros (Hu & Hv & Hx & Hl & Hf) Hi. pose proof Hr as ([] & _).
  destruct Hrc as [_ (Hp & Hes & Hb) Hty _ _ _ _]. fold es in Hes, Hb, Hty. rewrite mr_log in *. rewrite length_drop in Hi.
  assert (zlen (take (prev + j) (log_ s)) = Z.of_nat (prev + j)) as Hz.
  { unfold zlen. rewrite length_take. lia. }
  split_and!; cbn; unfold Spec.upd; rewrite ?decide_True by done; try done; unfold new_log.
  - apply indexed_app; [by apply indexed_take|]. rewrite Hz. apply indexed_take.
    replace (0 + Z.of_nat (prev + j)) with (Message.prev_log_index msg + Z.of_nat j) by lia.
    apply indexed_drop; [done|lia].
  - rewrite zlen_app, Hz. unfold zlen in *. rewrite length_take, length_drop. lia.
  - apply Forall_app. split; [by apply Forall_take|]. by apply Forall_take, Forall_drop.
Qed.

Lemma merged_disk i rs :
  disk_rel n g rs -> (0 < i <= length (drop j es))%nat ->
  disk_rel n (merged_state i) (rs ++ (rec_entry <$> take i (drop j es))).
Proof.
  intros (Hdu & c & Hrec & Hc) Hi. pose proof Hr as ([] & _).
  destruct Hrc as [_ (Hp & Hes & Hb) Hty _ _ _ _].
  split; [apply merged_durable; [done|lia]|]. exists c. split; [|done]. unfold recovery, replay in *. rewrite foldl_app, Hrec.
  rewrite length_drop in Hi.
  rewrite mr_log. eapply eq_trans; [apply (replay_entries _ _ (prev + j))|].
  - rewrite <- mr_offset. apply mr_wf.
  - done.
  - apply indexed_take. replace (Z.of_nat (prev + j)) with (Message.prev_log_index msg + Z.of_nat j) by lia.
    apply indexed_drop; [done|lia].
  - intros E. apply (f_equal length) in E. rewrite length_take, length_drop in E. cbn in E. lia.
  - cbn. unfold Spec.upd. by rewrite decide_True.
Qed.

Lemma sim_flush_replaced s0 w rs :
  id_ s0 = n -> logged w rs (rec_entry <$> drop j es) -> disk_rel n g rs ->
  sim (flush_entries msg (append_reply msg s0) true) replied
    (s <| log_ := take (prev + j) (log_ s) ++ drop j es |> <| wal_ := Some w |>) g.
Proof.
  intros Hid Hl Hd. pose proof (related_healthy _ _ _ _ Hr) as Hs.
  pose proof Hr as (Hmem & _ & Hms). pose proof Hmem as [].
  destruct Hrc as [Hfr (Hp & Hes & Hb) Hty _ _ Hst _]. fold es in Hty, Hes, Hb.
  set (i := length (drop j es)). assert (0 < i)%nat as Hi by (subst i; rewrite length_drop; lia).
  pose proof (merged_step i ltac:(lia)) as Hg. pose proof (merged_disk i rs Hd ltac:(lia)) as HdF.
  assert (take i (drop j es) = drop j es) as Ei by (subst i; apply firstn_all).
  assert (Inv members (merged_state i)) as IF by (by eapply step_inv).
  unfold flush_entries. sim_step. sim_step. sim_step.
  { change (es = []) in Hdec. rewrite Hdec in Hj. cbn in Hj. lia. }
  apply sim_bind; [|intros []; cbn [negb]; auto using quiet_acknowledge with quiet_db].
  eapply (sim_sync _ _ _ _ g w rs (rec_entry <$> drop j es) (merged_state i)); try done.
  - intros k Hk. rewrite length_fmap in Hk. rewrite <- fmap_take.
    destruct (decide (k = 0)%nat) as [->|].
    + exists g. split; [apply Spec.steps_refl|]. by rewrite take_0, app_nil_r.
    + exists (merged_state k). split; [apply steps_one, merged_step; lia|].
      apply merged_disk; [done|lia].
  - by apply steps_one.
  - by rewrite Ei in HdF.
  - intros w' Hlk. sim_step.
    set (l := take (prev + j) (log_ s) ++ drop j es) in *.
    assert (zlen l = Message.prev_log_index msg + zlen es) as El.
    { subst l. rewrite zlen_app, zlen_take, zlen_drop. unfold zlen. lia. }
    assert (Spec.log (merged_state i) n = l) as Elog.
    { cbn. unfold Spec.upd, new_log. by rewrite decide_True, Ei. }
    apply sim_acknowledge; try done.
    + apply (related_update _ _ s _ g); try done; [by apply steps_one|].
      eapply (mem_log s g); try done.
      * apply indexed_app; [rewrite <- mr_offset; apply indexed_take, mr_wf|].
        rewrite zlen_take. replace (0 + Z.min (Z.of_nat (prev + j)) (zlen (log_ s)))
          with (Message.prev_log_index msg + Z.of_nat j) by (unfold zlen; lia).
        apply indexed_drop; [done|lia].
      * lia.
      * destruct (i_commit _ _ IF n) as [Hc _]. rewrite Elog in Hc. rewrite <- mr_commit.
        cbn in Hc. unfold zlen. lia.
      * apply Forall_app. split; [by apply Forall_take|by apply Forall_drop].
    + by eapply received_steps; [apply steps_one| | |exact Hrc].
    + exact (agrees_replaced _ _ _ _ _ Hag (Nat.lt_le_incl _ _ Hj) Hlen).
Qed.

End Replaced.

Lemma sim_take_entries msg s0 s g :
  related s g -> Inv members g -> received g msg s -> id_ s0 = n ->
  sim (take_entries msg (append_reply msg s0)) replied s g.
Proof.
  intros Hr I Hrc Hid. pose proof (related_healthy _ _ _ _ Hr) as Hs.
  pose proof Hr as (Hmem & (_ & w & rs & Hw & Hl & Hd) & Hms). pose proof Hmem as [].
  pose proof Hrc as [Hfr Hok Hty Hcm Hnet Hst Ht]. pose proof Hok as (Hp & Hes & Hb).
  pose proof (zlen_nonneg (Message.entries msg)).
  unfold take_entries. sim_step. sim_step.
  { sim_step. apply sim_ret; [done|]. split; [done|]. destruct mr_u64.
    split_and!; cbn; try done; intros; done. }
  apply negb_false_iff in Hif. rewrite u64_small by (unfold_words; lia).
  destruct (i_append _ _ I _ _ _ _ _ _ Hnet) as (T & HT & _ & _ & _ & Ept & _).
  assert (Message.prev_log_term msg =
    Spec.term_at (log_ s) (Z.to_nat (Message.prev_log_index msg))) as Ept'.
  { destruct (log_ok_prefix s g msg Hr Hif Hp) as [_ [E|E]]; [|done]. by rewrite Ept, E. }
  pose proof (merge_rel s g msg Hr Hok Hif Ept') as Hm.
  apply wp_bind. eapply wp_append_loop_wal; [exact Hw|exact Hl|done|..].
  - intros w' Hl'. cbn [app] in Hl'.
    set (l := fst (merge_log s _ _)) in *. set (b := snd (merge_log s _ _)) in *.
    set (ws := merge_writes s _ _) in *. clearbody l b ws.
    change (sim (flush_entries msg (append_reply msg s0) b) replied
      (s <| log_ := l |> <| wal_ := Some w' |>) g).
    inversion Hm as [Hag|Eb|j Hag Hj Hc Hlj]; subst l b ws.
    + by eapply sim_flush_kept.
    + unfold flush_entries. repeat sim_step. apply sim_ret; [done|]. destruct mr_u64. split.
      * split; [|split; [split; [done|by exists w', rs]|done]].
        apply (mem_rel_core _ _ (s <| wal_ := Some w' |>)); [by destruct s|].
        split; try done. eapply same_log_wf; [|exact mr_wf]. by split.
      * split_and!; cbn; try done; intros; done.
    + by apply (sim_flush_replaced msg s g j) with (rs := rs).
  - intros x l w' ps' Hl'. by eapply (lost_logged _ _ _ g w' rs ps').
Qed.

Lemma sim_append_entries msg s g :
  related s g -> Inv members g -> msg_rel g msg -> Message.type msg = Message.MsgAppendEntries ->
  sim (handle_append_entries msg) replied s g.
Proof.
  intros Hr I Hm Hty. assert (id_ s = n) as Hid by apply Hr.
  assert (handle_append_entries msg s = (prepared ← prepare_for_leader_rpc msg;
    if negb (prepared : bool) then reply (append_reply msg s)
    else take_entries msg (append_reply msg s)) s) as E by done.
  apply (sim_same _ _ _ _ _ _ _ _ E). apply sim_bind.
  - apply sim_prepare; try done.
    + intros s' g' Hg Hr'. do 2 sim_step. apply sim_ret; [by eapply related_healthy|].
      split; [done|]. pose proof (related_term _ _ _ _ Hr').
      split_and!; cbn; try done; intros; done.
    + intros s' g' Hg Hr' Hmis (H1 & H2 & H3). sim_step.
      apply sim_take_entries; try done; [by eapply steps_inv|].
      destruct (addressed _ _ peers_u64 _ _ _ Hr Hmis) as (_ & _ & Hne & _).
      pose proof (msg_rel_steps _ _ _ _ _ Hg Hm) as Hm'.
      destruct Hm' as (_ & _ & _ & Hm' & _). destruct (Hm' Hty) as (Ha & Hb & Hc & Hd).
      by split.
  - intros []; cbn [negb]; unfold take_entries, flush_entries; quiet_by.
    all: auto using quiet_acknowledge with quiet_db.
Qed.

End SimLog.
