(* ===== verification/RaftSimLead.v ===== *)
(** * Leaders follow the protocol

    The sending side: acknowledgments and the commit index, proposals and read
    rounds. *)

From S2P Require Import Prelude Msgpack Proto Crc32 Wal WalFacts Raft RaftLemmas RaftLog.
From S2P Require Import RaftNode RaftSpec RaftSpecInv RaftDisk RaftSim RaftRel RaftSimVotes.
From S2P Require Import RaftSimLog.
Import Raft.

(** ** The commit loop *)

Section Commit.
Context {R : Rng} {Env : Type}.
Implicit Types (s : t Env).

(** A leader may commit up to an index of its own term that a majority holds. *)
Definition committable s (i : Z) : Prop :=
  Entry.term (log_entry s i) = term_ s /\ replicas s i > zlen (peers_ s) / 2.

Definition commit_one s (commit i : Z) : Z :=
  if negb (Entry.term (log_entry s i) =? term_ s) then commit else
  if replicas s i >? zlen (peers_ s) / 2 then i else commit.

Lemma commit_one_spec s c i :
  (commit_one s c i = i /\ committable s i) \/ (commit_one s c i = c /\ ~ committable s i).
Proof.
  unfold commit_one, committable. destruct (Z.eqb_spec (Entry.term (log_entry s i)) (term_ s)); cbn.
  - destruct (Z.gtb_spec (replicas s i) (zlen (peers_ s) / 2)); [left|right]; split; try done; lia.
  - right. split; [done|]. tauto.
Qed.

Lemma commit_fold s c0 a (k : nat) :
  c0 < a ->
  let c := foldl (commit_one s) c0 (seqZ a (Z.of_nat k)) in
  ((c = c0) \/ (a <= c < a + Z.of_nat k /\ committable s c)) /\
  forall i, c < i -> a <= i < a + Z.of_nat k -> ~ committable s i.
Proof.
  intros Ha. induction k as [|k IH]; cbn zeta.
  { cbn. split; [by left|]. intros. lia. }
  rewrite Nat2Z.inj_succ, <- Z.add_1_r, seqZ_app by lia. rewrite foldl_app.
  change (seqZ (a + Z.of_nat k) 1) with [a + Z.of_nat k]. cbn [foldl].
  set (c := foldl (commit_one s) c0 (seqZ a (Z.of_nat k))) in *.
  destruct IH as [Hc Hmax].
  destruct (commit_one_spec s c (a + Z.of_nat k)) as [[-> Hok]|[-> Hno]].
  - split; [right; split; [lia|done]|]. intros i Hi Hr. lia.
  - split.
    + destruct Hc as [->|[Hr Hok]]; [by left|right]. split; [lia|done].
    + intros i Hi Hr. destruct (decide (i = a + Z.of_nat k)) as [->|]; [done|]. apply Hmax; lia.
Qed.

(** The new commit index is the greatest committable one above the old. *)
Lemma advance_commit_spec s :
  wf s ->
  let c := advance_commit s in
  (c = commit_index_ s \/ (commit_index_ s < c <= last_log_index s /\ committable s c)) /\
  forall i, c < i <= last_log_index s -> ~ committable s i.
Proof.
  intros Hwf. pose proof Hwf as []. unfold advance_commit. fold (commit_one s).
  rewrite last_log_index_eq by done.
  replace (log_offset_ s + zlen (log_ s) - commit_index_ s)
    with (Z.of_nat (Z.to_nat (log_offset_ s + zlen (log_ s) - commit_index_ s))) by lia.
  destruct (decide (commit_index_ s = log_offset_ s + zlen (log_ s))) as [E|E].
  { rewrite E, Z.sub_diag. split; [by left|]. intros i Hi. rewrite seqZ_nil in Hi by done. cbn in Hi. lia. }
  rewrite u64_small by (unfold_words; lia).
  destruct (commit_fold s (commit_index_ s) (commit_index_ s + 1)
    (Z.to_nat (log_offset_ s + zlen (log_ s) - commit_index_ s))) as [H1 H2]; [lia|].
  set (c := foldl _ _ _) in *. split.
  - destruct H1 as [|[Hr Hok]]; [by left|right]. split; [lia|done].
  - intros i Hi. apply H2; [lia|]. destruct H1 as [|[Hr _]]; lia.
Qed.

End Commit.

Section SimLead.
Context {R : Rng} {Env : Type} {WP : WalPack} {WL : WalPackLaws} {PR : Proposals}.
Context (peers : list Z) (n : Z).
Hypothesis peers_nodup : NoDup peers.
Hypothesis peers_u64 : forall p, p ∈ peers -> 0 < p < u64_max.
Hypothesis self_member : n ∈ peers.
Implicit Types (s : t Env) (g : Spec.t) (msg : Message.t).

Abbreviation related := (related peers n).
Abbreviation members := (members peers).
Abbreviation sim := (sim members n).

(** A leader's progress map, one follower updated. *)
Lemma related_progress s g p pr :
  related s g -> state_ s = Leader -> p ∈ peers -> p <> n ->
  0 < next pr <= zlen (log_ s) + 1 ->
  (match_ pr = 0 \/ 0 < match_ pr /\ Spec.matched g n !! p = Some (Z.to_nat (match_ pr))) ->
  related (s <| progress_ := <[p := pr]> (progress_ s) |>) g.
Proof.
  intros Hr Hst Hp Hne Hn Hm. pose proof Hr as (Hmem & Hlk & _). pose proof Hmem as []. destruct mr_u64.
  eapply (related_update _ _ s _ g g); try done; [apply Spec.steps_refl|].
  eapply (mem_update _ _ s _ g); try done.
  intros _ q pq Hq. cbn in Hq. apply lookup_insert_Some in Hq as [[<- <-]|[_ Hq]]; [done|].
  by apply mr_progress.
Qed.

(** An acknowledged index is noted. *)
Lemma related_match s g p m :
  related s g -> Inv members g -> state_ s = Leader -> p ∈ peers -> p <> n -> 0 <= m ->
  zlen (log_ s) + 1 < u64_max -> Spec.Ack p n (term_ s) (Z.to_nat m) ∈ Spec.net g ->
  exists g', Spec.step members n g g' /\
    related (s <| progress_ := <[p := MkProgress m (u64 (m + 1))]> (progress_ s) |>) g'.
Proof.
  intros Hr I Hst Hp Hne Hm Hb Hack. pose proof Hr as (Hmem & Hlk & _). pose proof Hmem as [].
  assert (Spec.role g n = Spec.RoleLeader) as Hrole by (by rewrite mr_role, Hst).
  destruct (i_lead _ _ I n Hrole) as [HT _]. rewrite <- mr_term in Hack.
  destruct (i_ack _ _ I _ _ _ _ Hack) as (T & HT' & _ & _ & _ & Hlen & _).
  assert (T = log_ s) as -> by congruence.
  eexists. split; [by apply (Spec.step_match _ n _ p (Z.to_nat m))|].
  set (g' := g <| Spec.matched := _ |>).
  assert (Spec.step members n g g') as Hg by (by apply Spec.step_match).
  pose proof (zlen_nonneg (log_ s)). destruct mr_u64. unfold zlen in *.
  eapply (related_update _ _ s); try done; [by apply steps_one|].
  eapply (mem_update _ _ s _ g); try done.
  intros _ q pq Hq. cbn in Hq |- *. unfold Spec.upd. rewrite decide_True by done.
  apply lookup_insert_Some in Hq as [[<- <-]|[Hpq Hq]].
  - cbn. rewrite u64_small by (unfold_words; lia). unfold zlen.
    split_and!; try done; try lia.
    destruct (decide (m = 0)); [by left|right]. split; [lia|]. by rewrite lookup_insert_eq.
  - rewrite lookup_insert_ne by done. by apply mr_progress.
Qed.

(** A majority on record is a quorum of the protocol. *)
Lemma committable_quorum s g i :
  related s g -> Inv members g -> state_ s = Leader -> 0 < i ->
  replicas s i > zlen (peers_ s) / 2 ->
  Spec.quorum members ({[n]} ∪ Spec.holders (Spec.matched g n) (Z.to_nat i)).
Proof.
  intros ([] & _) I Hst Hi Hc. rewrite mr_peers in Hc. unfold replicas in Hc. unfold zlen in Hc at 1.
  rewrite count_filter in Hc. set (q := dom (filter _ _)) in Hc.
  assert (Spec.role g n = Spec.RoleLeader) as Hrole by (by rewrite mr_role, Hst).
  assert (forall a, a ∈ q -> a <> n /\ a ∈ Spec.holders (Spec.matched g n) (Z.to_nat i)) as Hq.
  { intros a Ha. apply elem_of_dom in Ha as [pr Hpr].
    apply map_lookup_filter_Some in Hpr as [Hpr Hle]. cbn in Hle.
    destruct (mr_progress Hst a pr Hpr) as (_ & Hne & _ & [?|[_ Hm]]); [lia|]. split; [done|].
    apply elem_of_dom. eexists. apply map_lookup_filter_Some. split; [exact Hm|]. cbn. lia. }
  apply (majority_quorum peers) with ({[n]} ∪ q); try done.
  - intros a [Ha%elem_of_singleton|Ha]%elem_of_union; [set_solver|]. apply Hq in Ha. set_solver.
  - intros a [Ha%elem_of_singleton|Ha]%elem_of_union.
    + rewrite Ha. by apply elem_of_list_to_set.
    + unfold Spec.holders in Ha. apply elem_of_dom in Ha as [m Hm]. apply map_lookup_filter_Some in Hm as [Hm _].
      apply (i_match _ _ I _ _ _ Hrole) in Hm. by apply (i_ack _ _ I) in Hm as (_ & _ & _ & ? & _).
  - rewrite size_union, size_singleton; [lia|]. intros a Ha%elem_of_singleton Hb.
    by destruct (Hq a Hb).
Qed.

(** The commit index of a leader moves as the protocol lets it. *)
Lemma sim_commit s g :
  related s g -> Inv members g -> state_ s = Leader ->
  sim (commit_index_ <~ advance_commit s ;; s' ← get;
       when (commit_index_ s' >? commit_index_ s) (persist_hard_state ;; mret tt))
    (fun _ => related) s g.
Proof.
  intros Hr I Hst. pose proof (related_healthy _ _ _ _ Hr) as Hs.
  pose proof Hr as (Hmem & Hlk & _). pose proof Hmem as []. destruct mr_u64.
  assert (Spec.role g n = Spec.RoleLeader) as Hrole by (by rewrite mr_role, Hst).
  destruct (advance_commit_spec s mr_wf) as [Hc _]. set (c := advance_commit s) in *.
  clearbody c. sim_step. sim_step. sim_step; cbn in Hwhen; guards.
  - destruct Hc as [?|[Hr1 [Ht Hq]]]; [lia|]. rewrite (related_last _ _ s g) in Hr1 by done.
    set (g' := g <| Spec.commit := Spec.upd (Spec.commit g) n (Z.to_nat c) |>).
    assert (0 < c) as Hpos by (destruct mr_wf; lia).
    assert (Spec.step members n g g') as Hg.
    { apply Spec.step_commit; try done.
      - rewrite mr_log. unfold zlen in *. lia.
      - rewrite mr_log, mr_term, <- Ht, <- (related_term_at peers n s g) by (done || lia).
        destruct (entry_at_is_Some s c ltac:(lia)) as [e He].
        by rewrite (term_at_entry s c e), (log_entry_at s c e).
      - by apply (committable_quorum s). }
    assert (0 < term_ s) as Htp.
    { rewrite <- mr_term. destruct (i_lead _ _ I n Hrole) as [HT _]. by destruct (i_tlead _ _ I _ _ HT) as [[? _] _]. }
    apply sim_bind; [|quiet_by].
    eapply (sim_persist _ _ _ _ g g'); try done; try (by apply steps_one).
    + split_and!; cbn; try done. destruct mr_wf. unfold_words. lia.
    + cbn. unfold Spec.upd. rewrite decide_True by done. lia.
    + by left.
    + intros w' Hlk'. apply sim_ret; [done|].
      eapply (related_update _ _ s _ g); try done; [by apply steps_one|].
      apply (mem_commit peers n s g g'); try done; [lia|].
      cbn. unfold Spec.upd. rewrite decide_True by done. lia.
  - apply sim_ret; [done|]. assert (c = commit_index_ s) as -> by (destruct Hc as [|[]]; lia).
    apply (related_quiet _ _ s); [done..|by destruct s].
Qed.

Lemma sim_append_entries_response msg s g :
  related s g -> Inv members g -> msg_rel g msg ->
  Message.type msg = Message.MsgAppendEntriesResponse -> zlen (log_ s) + 1 < u64_max ->
  sim (handle_append_entries_response msg) (fun _ => related) s g.
Proof.
  intros Hr I Hm Hty Hb. pose proof (related_healthy _ _ _ _ Hr) as Hs.
  unfold handle_append_entries_response. sim_step. sim_step; [by apply sim_ret|].
  destruct (addressed peers n peers_u64 s g msg Hr Hif) as (Hto & Hfrom & Hne & Hu).
  sim_step; guards; [by apply sim_follower; [|apply Hm|lia|]|].
  sim_step; [by apply sim_ret|]. sim_step; [by apply sim_ret|]. guards.
  sim_step; [by apply sim_ret|]. guards.
  assert (Message.term msg = term_ s) as Et by lia. sim_step.
  - destruct Hm as (_ & _ & _ & _ & Hm & _). destruct (Hm Hty Hif4) as [Hm0 Hack].
    rewrite Hto, Et in Hack.
    destruct (related_match s g (Message.from msg) (Message.match_index msg)) as (g' & Hg & Hr');
      try done.
    eapply sim_steps; [by apply steps_one|]. assert (Inv members g') as I' by (by eapply step_inv).
    unfold set_match. do 4 sim_step. set (s1 := s <| progress_ := _ |>) in *.
    assert (state_ s1 = Leader) as Hst1 by done. clearbody s1.
    sim_step; [sim_step|]; sim_step; sim_step; apply sim_commit; try done.
    by apply (related_quiet _ _ s1).
  - pose proof Hr as ([] & _). set (p := Message.from msg) in *.
    assert (0 < next (progress_of s p) <= zlen (log_ s) + 1 /\
      (match_ (progress_of s p) = 0 \/ 0 < match_ (progress_of s p) /\
       Spec.matched g n !! p = Some (Z.to_nat (match_ (progress_of s p))))) as [Hn Hp].
    { unfold progress_of. pose proof (zlen_nonneg (log_ s)).
      destruct (progress_ s !! p) as [pr|] eqn:E; cbn; [|split; [lia|by left]].
      by destruct (mr_progress Hif2 p pr E) as (_ & _ & ? & ?). }
    unfold touch_progress. do 6 sim_step.
    assert (forall s1, related s1 g -> state_ s1 = Leader -> log_ s1 = log_ s -> sim
      (s2 ← get; if (log_offset_ s2 >? 0) && (next (progress_of s2 p) <=? log_offset_ s2)
       then push_msg (make_install_snapshot s2 p) else broadcast_heartbeat) (fun _ => related) s1 g)
      as Hsend.
    { intros s1 Hr1 Hst1 El. pose proof Hr1 as ([] & _). sim_step. rewrite mr_offset0. cbn.
      apply sim_broadcast; try done. by rewrite El. }
    pose proof (related_progress s g p (progress_of s p) Hr Hif2 Hfrom Hne Hn Hp) as Hr1.
    sim_step; [sim_step|]; apply Hsend; try done.
    apply (related_progress _ g p); try done. guards. cbn. rewrite u64_small by (unfold_words; lia). lia.
Qed.

(** ** Proposals *)

(** A leader's log and its member's, one entry longer. *)
Lemma mem_extend s g e w :
  mem_rel peers n s g -> state_ s = Leader -> typed e -> Entry.index e = zlen (log_ s) + 1 ->
  zlen (log_ s) + 1 < u64_max ->
  mem_rel peers n (s <| log_ := log_ s ++ [e] |> <| wal_ := w |>) (Spec.extend g n e).
Proof.
  intros [] Hst He Hi Hb. pose proof (zlen_nonneg (log_ s)).
  assert (zlen (log_ s ++ [e]) = zlen (log_ s) + 1) as El by by rewrite zlen_app.
  split; cbn; unfold Spec.upd; rewrite ?decide_True, ?El by done; try done.
  - destruct mr_wf. split; cbn; rewrite ?El; try done; try lia. apply indexed_app; [done|].
    intros [|k] e' He'; [|done]. injection He' as <-. rewrite Hi. lia.
  - apply Forall_app. split; [done|]. by apply Forall_singleton.
  - by rewrite mr_log.
  - intros _ p pr Hp. destruct (mr_progress Hst p pr Hp) as (? & ? & ? & ?). split_and!; try done; lia.
Qed.

Lemma extend_disk g rs e :
  disk_rel n g rs -> Entry.index e = zlen (Spec.log g n) + 1 -> typed e ->
  zlen (Spec.log g n) + 1 < u64_max -> disk_rel n (Spec.extend g n e) (rs ++ [rec_entry e]).
Proof.
  intros ((Hu & Hv & Hx & Hz & Hf) & c & Hrec & Hc) He Hty Hb. split.
  { split_and!; cbn; unfold Spec.upd; rewrite ?decide_True by done; try done.
    - apply indexed_app; [done|]. intros [|k] e' He'; [|done]. injection He' as <-. rewrite He. lia.
    - by rewrite zlen_app.
    - apply Forall_app. split; [done|]. by apply Forall_singleton. }
  exists c. split; [|done].
  unfold recovery, replay in *. rewrite foldl_app, Hrec.
  eapply eq_trans; [apply (replay_entries [e] _ (length (Spec.log g n))); try done|].
  - intros [|k] e' He'; [|done]. injection He' as <-. unfold zlen in He. lia.
  - cbn. unfold Spec.upd. by rewrite decide_True, firstn_all.
Qed.

Lemma sim_propose data s g :
  related s g -> Inv members g -> proposes data -> zlen (log_ s) + 2 < u64_max ->
  sim (propose data) (fun _ => related) s g.
Proof.
  intros Hr I Hpr Hb. pose proof (related_healthy _ _ _ _ Hr) as Hs.
  unfold propose. sim_step. sim_step; [by apply sim_ret|]. guards.
  pose proof Hr as (Hmem & (_ & w & rs & Hw & Hl & Hd) & Hms). pose proof Hmem as []. destruct mr_u64.
  pose proof (zlen_nonneg (log_ s)). rewrite (related_last _ _ s g) by done.
  rewrite u64_small by (unfold_words; lia). set (e := Entry.mk _ _ _ _).
  assert (typed e) as He by (split_and!; cbn; try done; unfold_words; lia).
  assert (Spec.step members n g (Spec.extend g n e)) as Hg.
  { apply Spec.step_append; [by rewrite mr_role, H|by rewrite mr_term|apply Hpr]. }
  unfold RaftSim.sim. apply wp_bind. eapply wp_append_entry_wal; [done|done|done|..].
  2:{ intros x w' Hl'. by eapply (lost_logged _ _ _ _ w' rs []). }
  intros w1 Hl1. set (s1 := s <| log_ := _ |> <| wal_ := _ |>).
  change (sim (saved ← sync_wal; if negb saved
    then s2 ← get; log_ <~ removelast (log_ s2) ;; mret None
    else broadcast_heartbeat ;; mret (Some (Entry.index e))) (fun _ => related) s1 g).
  apply sim_bind; [|intros []; cbn [negb]; quiet_by].
  eapply (sim_sync _ _ _ _ g w1 rs [rec_entry e] (Spec.extend g n e)); try done.
  - intros [|i] Hi; [|cbn in Hi; lia]. exists g. split; [apply Spec.steps_refl|].
    by rewrite take_0, app_nil_r.
  - by apply steps_one.
  - apply extend_disk; try done; rewrite mr_log; [done|lia].
  - intros w' Hlk. sim_step. apply sim_bind; [|quiet_by].
    assert (related (s1 <| wal_ := Some w' |>) (Spec.extend g n e)) as Hr'.
    { eapply (related_update _ _ s _ g); try done; [by apply steps_one|].
      apply (mem_extend s g e (Some w')); try done. lia. }
    apply sim_broadcast; try done; [cbn; rewrite zlen_app; change (zlen [e]) with 1; lia|].
    intros g' _ Hr2. apply sim_ret; [|done]. by eapply related_healthy.
Qed.

(** ** Reads and application *)

Lemma sim_read_index s g :
  related s g -> Inv members g -> proposes [] -> zlen (log_ s) + 2 < u64_max ->
  sim read_index (fun _ => related) s g.
Proof.
  intros Hr I Hpr Hb. pose proof (related_healthy _ _ _ _ Hr) as Hs. unfold read_index.
  sim_step. sim_step; [by apply sim_ret|]. guards. sim_step; [by apply sim_ret|].
  do 4 sim_step.
  assert (forall s1, related s1 g -> state_ s1 = Leader -> log_ s1 = log_ s -> sim
    (read_index_acks_ <~ ∅ ;; s ← get;
     if negb (has_committed_entry_in_current_term s) then
       pending_read_index_ <~ u64 (last_log_index s + 1) ;;
       proposed ← propose [];
       s ← get;
       match proposed with
       | None =>
           finish_read_index (MkToken (pending_read_context_ s) (pending_read_index_ s)) ;;
           mret None
       | Some _ => mret (Some (MkToken (pending_read_context_ s) (pending_read_index_ s)))
       end
     else
       pending_read_index_ <~ commit_index_ s ;;
       broadcast_heartbeat ;;
       s ← get;
       mret (Some (MkToken (pending_read_context_ s) (pending_read_index_ s))))
    (fun _ => related) s1 g) as Hrest.
  { intros s1 Hr1 Hst1 El1. do 2 sim_step. sim_step; sim_step.
    - apply sim_bind; [|intros []; quiet_by].
      eapply sim_mono; [apply sim_propose; [by apply (related_quiet _ _ s1)|done|done|cbn; by rewrite El1]|].
      cbn. intros o s2 g2 Hr2. pose proof (related_healthy _ _ _ _ Hr2) as Hs2. sim_step.
      destruct o; [by apply sim_ret|]. unfold finish_read_index. repeat sim_step;
        (apply sim_ret; [done|]); by apply (related_quiet _ _ s2).
    - apply sim_bind; [|quiet_by]. apply sim_broadcast; try done.
      + by apply (related_quiet _ _ s1).
      + cbn. rewrite El1. lia.
      + intros g2 _ Hr2. sim_step. apply sim_ret; [by eapply related_healthy|done]. }
  sim_step; [sim_step|]; apply Hrest; try done; by apply (related_quiet _ _ s).
Qed.

Lemma sim_finish_read_index tok s g :
  related s g -> sim (finish_read_index tok) (fun _ => related) s g.
Proof.
  intros Hr. pose proof (related_healthy _ _ _ _ Hr) as Hs. unfold finish_read_index.
  repeat sim_step; [by apply sim_ret|]. apply sim_modify; [done|]. by apply (related_quiet _ _ s).
Qed.

(** Applying an entry is the application's business. *)
Lemma related_applied i s g :
  related s g -> i <= commit_index_ s -> i = u64 (last_applied_ s + 1) ->
  related (s <| last_applied_ := i |>) g.
Proof.
  intros ([] & Hlk & Hms) Hi Hu. split; [|by split]. split; try done.
  destruct mr_wf. split; cbn; try done; try lia. rewrite mr_offset.
  pose proof (u64_range (last_applied_ s + 1)). unfold_words. lia.
Qed.

Lemma sim_advance i s g : related s g -> sim (advance i) (fun _ => related) s g.
Proof.
  intros Hr. pose proof (related_healthy _ _ _ _ Hr) as Hs. unfold advance.
  sim_step. sim_step; [by apply sim_ret|]. guards. apply sim_modify; [done|].
  by apply related_applied.
Qed.

(** ** Every event *)

Lemma sim_send (m : M (t Env) Message.t) s g :
  sim m (replied peers n) s g -> sim (m ≫= send) (fun _ => related) s g.
Proof.
  intros Hm. apply sim_bind; [|intros ?; apply quiet_send].
  eapply sim_mono; [exact Hm|]. cbn. intros r s' g' [Hr Hrel].
  pose proof (related_healthy _ _ _ _ Hr) as Hs. unfold send, push_msg. sim_step.
  apply sim_modify; [done|]. by apply related_push.
Qed.

Lemma sim_deliver msg s g :
  related s g -> Inv members g -> msg_rel g msg ->
  term_ s + 1 < u64_max -> zlen (log_ s) + 1 < u64_max ->
  sim (deliver msg) (fun _ => related) s g.
Proof.
  intros Hr I Hm Ht Hb. pose proof (related_healthy _ _ _ _ Hr) as Hs. unfold deliver.
  repeat sim_step; guards.
  - by apply sim_send, sim_request_vote.
  - by apply sim_request_vote_response.
  - by apply sim_send, sim_pre_vote.
  - by apply sim_pre_vote_response.
  - by apply sim_send, sim_append_entries.
  - by apply sim_append_entries_response.
  - by destruct Hm as (_ & _ & _ & _ & _ & ? & _).
  - by destruct Hm as (_ & _ & _ & _ & _ & _ & ?).
  - by apply sim_ret.
Qed.

End SimLead.
