(* ===== verification/Cluster.v ===== *)
(** * The cluster

    Three processes, each with its data directory, and the messages they have
    handed to their connections.  The network may deliver any message that
    was ever sent, to anybody, at any time and any number of times, or never;
    a process may stop between any two handlers and start again from what its
    disk holds.  A stop in the middle of a handler is a flush that fails part
    of the way (the outcomes of flushes are data of the disk) followed by a
    crash. *)

From S2P Require Import Prelude Msgpack Proto Wal WalFacts KvStore RespCodec NodeConfig Raft RaftNode.
From S2P Require Import RaftDisk Runtime RaftSpec.
Import Raft.

Section Cluster.
Context {R : Rng} {WP : WalPack} {CP : MsgPack Command.t} {MP : MapPack}.
Abbreviation node := (t Impl.t).

Inductive proc : Type :=
| Up (s : node)
| Down (files : gmap bytes bytes).

Record cluster : Type := MkCluster {
  procs : Z -> proc;
  network : list Message.t;
}.

Definition initial : cluster := MkCluster (fun _ => Down ∅) [].

Inductive action : Type :=
| Happens (n : Z) (ev : node_event)
| Crash (n : Z)
| Start (config : NodeConfig.t) (m : Machine) (d : Disk.t).

(** The messages handed over by a process leave for the network. *)
Definition handed_over (s : node) : node :=
  s <| restore_env := (restore_env s) <| Impl.sent := [] |> |>.

Definition act (c : cluster) (a : action) : cluster :=
  match a with
  | Happens n ev =>
      match procs c n with
      | Down _ => c
      | Up s =>
          let s' := snd (run_event ev s) in
          MkCluster (Spec.upd (procs c) n (Up (handed_over s')))
            (network c ++ Impl.sent (restore_env s'))
      end
  | Crash n =>
      match procs c n with
      | Down _ => c
      | Up s => MkCluster (Spec.upd (procs c) n (Down (files_of s))) (network c)
      end
  | Start config m d =>
      match procs c (NodeConfig.id config) with
      | Up _ => c
      | Down files =>
          MkCluster (Spec.upd (procs c) (NodeConfig.id config)
            (match boot config m (d <| Disk.files := files |>) with
             | (Ok s, _) => Up s
             | (Throw _, d') => Down (Disk.files d')
             end)) (network c)
      end
  end.

(** Terms, log indices and the numbers of read rounds are far from wrapping. *)
Definition roomy (s : node) : Prop :=
  term_ s + 1 < u64_max /\ zlen (log_ s) + 2 < u64_max /\ next_read_context_ s + 1 < u64_max.

(** What can happen: messages are not made up, counters do not overflow, and
    snapshots are not configured. *)
Definition allowed (c : cluster) (a : action) : Prop :=
  match a with
  | Happens n ev =>
      match ev with Arrival m => m ∈ network c | _ => True end /\
      match procs c n with Up s => roomy s | Down _ => True end
  | Crash _ => True
  | Start config _ _ => NodeConfig.snapshot_threshold config = 0
  end.

Inductive runs (c : cluster) : cluster -> Prop :=
| runs_refl : runs c c
| runs_act c' a : runs c c' -> allowed c' a -> runs c (act c' a).

Definition reachable : cluster -> Prop := runs initial.

(** A process that takes part: its storage works and no handler threw. *)
Definition running (c : cluster) (n : Z) (s : node) : Prop :=
  procs c n = Up s /\ storage_failed_ s = false /\ Impl.loops_stopped (restore_env s) = false.

(** Runs given as lists of actions. *)
Definition run_all (c : cluster) (actions : list action) : cluster := foldl act c actions.

Fixpoint allowed_all (c : cluster) (actions : list action) : Prop :=
  match actions with
  | [] => True
  | a :: rest => allowed c a /\ allowed_all (act c a) rest
  end.

Lemma runs_trans c1 c2 c3 : runs c1 c2 -> runs c2 c3 -> runs c1 c3.
Proof. intros H1 H2. induction H2; [done|]. by constructor. Qed.

Lemma run_all_runs actions : forall c, allowed_all c actions -> runs c (run_all c actions).
Proof.
  induction actions as [|a rest IH]; intros c; [constructor|]. intros [Ha Hr].
  eapply runs_trans; [|by apply IH]. apply (runs_act c c a); [constructor|done].
Qed.

End Cluster.
