(* ===== verification/RuntimeSim.v ===== *)
(** * A running process follows the protocol

    The Raft core is only touched by handlers of its loop; what the rest of
    the process adds is kept here: the frame of the Raft member functions, the
    queues, and the store as the replay of the applied entries. *)

From S2P Require Import Prelude Text Msgpack Proto Crc32 Wal WalFacts KvStore RespCodec NodeConfig.
From S2P Require Import Raft RaftLemmas RaftLog RaftNode RaftInv Runtime RaftSpec RaftSpecInv.
From S2P Require Import RaftDisk RaftSim RaftRel BootSim RaftSimVotes RaftSimLog RaftSimLead Cluster.
Import Raft.

(** ** What the member functions of the Raft core leave alone *)

Create HintDb framed_db.

Section Framed.
Context {R : Rng} {Env : Type} {WP : WalPack}.
Implicit Types (s : t Env) (msg : Message.t).

Definition frame s s' : Prop :=
  restore_env s' = restore_env s /\ last_applied_ s' = last_applied_ s /\
  snapshot_restore_ s' = snapshot_restore_ s.

Definition framed {A} (m : M (t Env) A) : Prop := forall s, frame s (snd (m s)).

Lemma frame_trans s1 s2 s3 : frame s1 s2 -> frame s2 s3 -> frame s1 s3.
Proof. intros (? & ? & ?) (? & ? & ?). split_and!; congruence. Qed.

Lemma framed_ret {A} (a : A) : framed (mret a).
Proof. done. Qed.

Lemma framed_get : framed get.
Proof. done. Qed.

Lemma framed_throw {A} e : framed (throw e : M (t Env) A).
Proof. done. Qed.

Lemma framed_bind {A B} (m : M (t Env) A) (f : A -> M (t Env) B) :
  framed m -> (forall a, framed (f a)) -> framed (m ≫= f).
Proof.
  intros Hm Hf s. specialize (Hm s). unfold mbind, M_bind.
  destruct (m s) as [[a|e] s1]; [|done]. eapply frame_trans; [exact Hm|apply Hf].
Qed.

Lemma framed_modify h : (forall s, frame s (h s)) -> framed (modify h).
Proof. done. Qed.

Lemma framed_when b (m : M (t Env) unit) : framed m -> framed (when b m).
Proof. by destruct b. Qed.

Lemma framed_for_each {A} (l : list A) (body : A -> M (t Env) unit) :
  (forall a, framed (body a)) -> framed (for_each l body).
Proof.
  intros Hb. induction l as [|a l IH]; [done|]. cbn. by apply framed_bind.
Qed.

Lemma framed_if_wal m : framed (if_wal (Env := Env) m).
Proof. intros s. unfold if_wal. destruct (wal_ s) as [w|]; [|done]. by destruct (m w) as [[]]. Qed.

Lemma framed_sync : framed (sync_wal (Env := Env)).
Proof.
  intros s. unfold sync_wal. destruct (wal_ s) as [w|]; [|done].
  by destruct (WAL.sync w) as [[[]|] w'].
Qed.
End Framed.

Ltac framed_step :=
  lazymatch goal with
  | |- framed (_ ≫= _) => apply framed_bind; [|intros ?]
  | |- framed (mret _) => apply framed_ret
  | |- framed get => apply framed_get
  | |- framed (throw _) => apply framed_throw
  | |- framed (modify _) => apply framed_modify; intros ?; by split_and!
  | |- framed (when _ _) => apply framed_when
  | |- framed (for_each _ _) => apply framed_for_each; intros ?
  | |- framed sync_wal => apply framed_sync
  | |- framed (if_wal _) => apply framed_if_wal
  | |- framed (let _ := _ in _) => cbv zeta
  | |- framed (match ?x with _ => _ end) => destruct x
  end.
Ltac framed_by := intros; repeat framed_step; auto with framed_db.

Section FramedRaft.
Context {R : Rng} {Env : Type} {WP : WalPack}.
Abbreviation framed := (@framed R Env).

Lemma framed_reset : framed reset_randomized_election_timeout.
Proof. unfold reset_randomized_election_timeout. framed_by. Qed.
#[local] Hint Resolve framed_reset : framed_db.

Lemma framed_persist : framed persist_hard_state.
Proof. unfold persist_hard_state, save_hard_state_now. framed_by. Qed.
#[local] Hint Resolve framed_persist : framed_db.

Lemma framed_push m : framed (push_msg m).
Proof. unfold push_msg. framed_by. Qed.
#[local] Hint Resolve framed_push : framed_db.

Lemma framed_follower term leader : framed (become_follower term leader).
Proof. unfold become_follower. framed_by. Qed.
#[local] Hint Resolve framed_follower : framed_db.

Lemma framed_touch p : framed (touch_progress p).
Proof. unfold touch_progress. framed_by. Qed.
#[local] Hint Resolve framed_touch : framed_db.

Lemma framed_broadcast : framed broadcast_heartbeat.
Proof. unfold broadcast_heartbeat. framed_by. Qed.
#[local] Hint Resolve framed_broadcast : framed_db.

Lemma framed_leader : framed become_leader.
Proof. unfold become_leader. framed_by. Qed.
#[local] Hint Resolve framed_leader : framed_db.

Lemma framed_candidate : framed become_candidate.
Proof. unfold become_candidate. framed_by. Qed.
#[local] Hint Resolve framed_candidate : framed_db.

Lemma framed_campaign : framed campaign.
Proof. unfold campaign. framed_by. Qed.
#[local] Hint Resolve framed_campaign : framed_db.

Lemma framed_pre_campaign : framed pre_campaign.
Proof. unfold pre_campaign. framed_by. Qed.
#[local] Hint Resolve framed_pre_campaign : framed_db.

Lemma framed_tick : framed tick.
Proof. unfold tick, become_pre_candidate. framed_by. Qed.

Lemma framed_reply m : framed (reply m).
Proof. unfold reply. framed_by. Qed.
#[local] Hint Resolve framed_reply : framed_db.

Lemma framed_prepare msg : framed (prepare_for_leader_rpc msg).
Proof. unfold prepare_for_leader_rpc. framed_by. Qed.
#[local] Hint Resolve framed_prepare : framed_db.

Lemma framed_append_entry e : framed (append_entry e).
Proof. unfold append_entry, save_entry_now. framed_by. Qed.
#[local] Hint Resolve framed_append_entry : framed_db.

Lemma framed_append_loop es : forall i, framed (append_loop es i).
Proof. induction es as [|e es IH]; intros i; cbn [append_loop]; framed_by. Qed.
#[local] Hint Resolve framed_append_loop : framed_db.

Lemma framed_finish tok : framed (finish_read_index tok).
Proof. unfold finish_read_index. framed_by. Qed.
#[local] Hint Resolve framed_finish : framed_db.

Lemma framed_propose data : framed (propose data).
Proof. unfold propose. framed_by. Qed.
#[local] Hint Resolve framed_propose : framed_db.

Lemma framed_read_index : framed read_index.
Proof. unfold read_index. framed_by. Qed.

(** All messages but a snapshot from the leader. *)
Lemma framed_deliver msg :
  Message.type msg <> Message.MsgInstallSnapshot -> framed (deliver msg).
Proof.
  intros Hty. unfold deliver, send. cbv zeta.
  destruct (Message.type msg =? Message.MsgInstallSnapshot) eqn:E; [by apply Z.eqb_eq in E|].
  unfold handle_request_vote, handle_request_vote_response, handle_pre_vote,
    handle_pre_vote_response, handle_append_entries, handle_append_entries_response,
    handle_install_snapshot_response, set_match.
  framed_by.
Qed.
End FramedRaft.

(** ** Changes of the process's own members that the relation does not see *)

Definition harmless_store (task : store_task) : Prop :=
  match task with ApplyTask _ | CaptureTask | RestoreTask _ _ => False | _ => True end.

Section Inert.
Context {CP : MsgPack Command.t} {MP : MapPack}.

Definition harmless_raft (task : raft_task) : Prop :=
  match task with
  | HandleMessage _ | AppliedTask _ | SnapshotTask _ _ => False
  | ProposeTask _ data => proposes data
  | _ => True
  end.

(** Requests get identifiers that fit their type. *)
Definition ids_ok (i : Impl.t) : Prop :=
  is_u64 (NodeConfig.id (Impl.config_ i)) /\ is_u64 (Impl.next_request_id_ i).

Definition inert (i i' : Impl.t) : Prop :=
  Impl.sent i' = Impl.sent i /\ Impl.store_ i' = Impl.store_ i /\
  Impl.store_applied_index_ i' = Impl.store_applied_index_ i /\
  (Impl.stopping_ i = true -> Impl.stopping_ i' = true) /\
  (forall task, task ∈ Impl.store_io_ i' -> task ∈ Impl.store_io_ i \/ harmless_store task) /\
  (ids_ok i -> ids_ok i') /\
  (ids_ok i -> forall task, task ∈ Impl.raft_io_ i' -> task ∈ Impl.raft_io_ i \/ harmless_raft task).

Lemma inert_refl i : inert i i.
Proof. unfold inert. auto 10. Qed.

Lemma inert_trans i1 i2 i3 : inert i1 i2 -> inert i2 i3 -> inert i1 i3.
Proof.
  intros (? & ? & ? & ? & Hs1 & ? & Hr1) (? & ? & ? & ? & Hs2 & ? & Hr2).
  split_and!; try congruence; try tauto.
  - intros task [?|?]%Hs2; auto.
  - intros Hi task [?|?]%Hr2; auto.
Qed.

Definition calm {A} (m : M Impl.t A) : Prop := forall i, inert i (snd (m i)).

Lemma calm_ret {A} (a : A) : calm (mret a).
Proof. intros i. apply inert_refl. Qed.

Lemma calm_get : calm get.
Proof. intros i. apply inert_refl. Qed.

Lemma calm_lift {A} (r : result A) : calm (lift r).
Proof. intros i. destruct r; apply inert_refl. Qed.

Lemma calm_bind {A B} (m : M Impl.t A) (f : A -> M Impl.t B) :
  calm m -> (forall a, calm (f a)) -> calm (m ≫= f).
Proof.
  intros Hm Hf i. specialize (Hm i). unfold mbind, M_bind.
  destruct (m i) as [[a|e] i1]; [|done]. eapply inert_trans; [exact Hm|apply Hf].
Qed.

Lemma calm_modify h : (forall i, inert i (h i)) -> calm (modify h).
Proof. done. Qed.

Lemma calm_when b (m : M Impl.t unit) : calm m -> calm (when b m).
Proof. destruct b; [done|]. intros _. apply calm_ret. Qed.

Lemma calm_for_each {A} (l : list A) (body : A -> M Impl.t unit) :
  (forall a, calm (body a)) -> calm (for_each l body).
Proof.
  intros Hb. induction l as [|a l IH]; [apply calm_ret|]. cbn. by apply calm_bind.
Qed.

Lemma calm_post_raft task : harmless_raft task -> calm (post_raft task).
Proof.
  intros Ht i. split_and!; auto. intros _ task'. change (Impl.raft_io_ _) with (Impl.raft_io_ i ++ [task]) at 1.
  set_solver.
Qed.

Lemma calm_post_store task : harmless_store task -> calm (post_store task).
Proof.
  intros Ht i. split_and!; auto. intros task'. change (Impl.store_io_ _) with (Impl.store_io_ i ++ [task]) at 1.
  set_solver.
Qed.

End Inert.

Ltac calm_step :=
  lazymatch goal with
  | |- calm (_ ≫= _) => apply calm_bind; [|intros ?]
  | |- calm (mret _) => apply calm_ret
  | |- calm get => apply calm_get
  | |- calm (lift _) => apply calm_lift
  | |- calm (modify _) => apply calm_modify; intros ?; split_and!; try done; auto
  | |- calm (when _ _) => apply calm_when
  | |- calm (for_each _ _) => apply calm_for_each; intros ?
  | |- calm (post_raft _) => apply calm_post_raft; exact I
  | |- calm (post_store _) => apply calm_post_store; exact I
  | |- calm (let _ := _ in _) => cbv zeta
  | |- calm (match ?x with _ => _ end) => destruct x
  end.
Ltac calm_by := intros; repeat calm_step; auto with calm_db.

Create HintDb calm_db.

(** ** The handlers that are calm *)

Section Calm.
Context {CP : MsgPack Command.t} {CL : MsgPackLaws Command.t} {MP : MapPack}.

Lemma calm_reply reply encoded : calm (reply_to reply encoded).
Proof. unfold reply_to. calm_by. Qed.
#[local] Hint Resolve calm_reply : calm_db.

Lemma calm_stop reason : calm (request_stop reason).
Proof. unfold request_stop. calm_by. Qed.
#[local] Hint Resolve calm_stop : calm_db.

Lemma calm_reject_write request_id error : calm (reject_write request_id error).
Proof. unfold reject_write. calm_by. Qed.
#[local] Hint Resolve calm_reject_write : calm_db.

Lemma calm_reject_read request_id error : calm (reject_read request_id error).
Proof. unfold reject_read. calm_by. Qed.
#[local] Hint Resolve calm_reject_read : calm_db.

Lemma calm_complete_read request_id : calm (complete_read request_id).
Proof. unfold complete_read. calm_by. Qed.
#[local] Hint Resolve calm_complete_read : calm_db.

Lemma calm_complete_write result : calm (complete_write result).
Proof. unfold complete_write. calm_by. Qed.

Lemma calm_stop_store : calm stop_store.
Proof. unfold stop_store. calm_by. Qed.
#[local] Hint Resolve calm_stop_store : calm_db.

Lemma allocate_eq i : exists id next,
  allocate_request_id i = (Ok id, i <| Impl.next_request_id_ := next |>) /\
  (is_u64 (Impl.next_request_id_ i) -> is_u64 id) /\ is_u64 next.
Proof.
  pose proof (u64_range (Impl.next_request_id_ i + 1)) as Hu.
  unfold allocate_request_id. run_m. destruct i. cbn -[u64 is_u64] in *.
  destruct (Z.eqb_spec next_request_id_ 0) as [->|Hne].
  - eexists _, _. split; [reflexivity|]. by vm_compute.
  - destruct (u64 (next_request_id_ + 1) =? 0); cbn -[u64 is_u64];
      (rewrite (proj2 (Z.eqb_neq _ _) Hne); eexists _, _; split; [reflexivity|by split]).
Qed.

Lemma calm_allocate : calm allocate_request_id.
Proof.
  intros i. destruct (allocate_eq i) as (id & next & -> & _ & Hn).
  split_and!; auto. intros [? _]. by split.
Qed.
#[local] Hint Resolve calm_allocate : calm_db.

(** A command the store can apply. *)
Lemma command_proposes c : Command.typed c -> is_Some (KvSpec.op_of c) -> proposes (pack c).
Proof.
  intros Ht [o Ho] term index m. unfold entry_effect. cbn [Entry.type Entry.data].
  rewrite Z.eqb_refl, bool_decide_eq_false_2 by apply pack_nonempty. cbn.
  rewrite unpack_pack by done. rewrite Ho. by eexists.
Qed.

Lemma empty_proposes : proposes [].
Proof. intros term index m. by eexists. Qed.

Lemma calm_write command reply now :
  is_u8 (Command.type command) -> is_Some (KvSpec.op_of command) ->
  calm (begin_write command reply now).
Proof.
  intros Hty Hop i. unfold begin_write, mbind, M_bind.
  destruct (allocate_eq i) as (id & next & -> & Hid & Hn).
  split_and!; auto; [intros [? _]; by split|].
  intros [Hc Hi] task.
  change (Impl.raft_io_ _) with (Impl.raft_io_ i ++ [ProposeTask id (pack (Command.mk
    (Command.type command) (Command.strs command) (NodeConfig.id (Impl.config_ i)) id))]) at 1.
  rewrite elem_of_app. intros [?|Ht]; [by left|right].
  apply list_elem_of_singleton in Ht as ->. apply command_proposes; [|done].
  split; [done|]. split; [done|]. by apply Hid.
Qed.

Lemma calm_client command reply now : calm (handle_client_command command reply now).
Proof.
  unfold handle_client_command, begin_read, reply_error. intros.
  repeat lazymatch goal with
    | |- calm (begin_write _ _ _) => apply calm_write; [done|by eexists]
    | _ => calm_step
    end; auto with calm_db.
Qed.

Lemma calm_expire now : calm (expire_client_requests now).
Proof. unfold expire_client_requests. calm_by. Qed.

Lemma calm_store_task task : harmless_store task -> calm (run_store_task task).
Proof. destruct task; try done; intros _; cbn [run_store_task]; auto with calm_db. Qed.
End Calm.

(** ** The application's part of a running node *)

Section Node.
Context {R : Rng} {WP : WalPack} {WL : WalPackLaws}.
Context {CP : MsgPack Command.t} {CL : MsgPackLaws Command.t} {MP : MapPack}.
Context (n : Z).
Abbreviation node := (t Impl.t).
Abbreviation related := (related [1; 2; 3] n).
Abbreviation members := (RaftRel.members [1; 2; 3]).
Abbreviation sim := (sim members n).
Implicit Types (s : node) (g : Spec.t) (msg : Message.t).

(** What is queued for the store's loop: entries that are committed. *)
Definition store_task_ok s (task : store_task) : Prop :=
  match task with
  | CaptureTask | RestoreTask _ _ => False
  | ApplyTask e =>
      0 < Entry.index e <= commit_index_ s /\ log_ s !! Z.to_nat (Entry.index e - 1) = Some e
  | _ => True
  end.

Definition acknowledged (k : Z) (task : raft_task) : Prop :=
  match task with AppliedTask index => index <= k | _ => True end.

(** The store is the replay of the log up to what it has applied, which is
    committed; the Raft core knows of no more than that. *)
Record kv_ok s : Prop := {
  ko_applied : last_applied_ s <= Impl.store_applied_index_ (restore_env s) <= commit_index_ s;
  ko_store : kv_replay (take (Z.to_nat (Impl.store_applied_index_ (restore_env s))) (log_ s)) ∅ =
    Some (kv_of s);
  ko_store_io : Forall (store_task_ok s) (Impl.store_io_ (restore_env s));
  ko_raft_io : Forall (acknowledged (Impl.store_applied_index_ (restore_env s)))
    (Impl.raft_io_ (restore_env s));
}.

(** Messages that wait were sent by members of the protocol. *)
Definition task_rel g (task : raft_task) : Prop :=
  match task with
  | HandleMessage msg => msg_rel g msg
  | SnapshotTask _ _ => False
  | ProposeTask _ data => proposes data
  | _ => True
  end.

Record node_rel s g : Prop := {
  nr_related : related s g;
  nr_kv : kv_ok s;
  nr_sent : Forall (msg_rel g) (Impl.sent (restore_env s));
  nr_tasks : Forall (task_rel g) (Impl.raft_io_ (restore_env s));
  nr_ids : ids_ok (restore_env s);
}.

(** ** The Raft core moves *)

Lemma committed_prefix s s' (k : nat) :
  evolves s s' -> log_offset_ s = 0 -> log_offset_ s' = 0 -> Z.of_nat k <= commit_index_ s ->
  take k (log_ s') = take k (log_ s).
Proof.
  intros [] E E' Hk. apply list_eq. intros j. destruct (decide (j < k)%nat) as [Hj|Hj].
  - rewrite !lookup_take_lt by done.
    specialize (ev_committed (Z.of_nat j + 1) ltac:(lia) ltac:(lia)).
    unfold entry_at in ev_committed. rewrite E, E', !decide_True in ev_committed by lia.
    replace (Z.to_nat (Z.of_nat j + 1 - 0 - 1)) with j in ev_committed by lia. done.
  - by rewrite !lookup_take_ge by lia.
Qed.

Lemma kv_ok_evolves s s' :
  kv_ok s -> frame s s' -> evolves s s' -> log_offset_ s = 0 -> log_offset_ s' = 0 ->
  0 <= last_applied_ s -> kv_ok s'.
Proof.
  intros [] (Ee & Ea & _) He E E' H0. pose proof He as [].
  split; unfold kv_of; rewrite ?Ee, ?Ea; try done; [lia| |].
  - rewrite (committed_prefix s s') by (done || lia). done.
  - eapply Forall_impl; [|exact ko_store_io0]. intros [] Ht; try done. cbn in *.
    destruct Ht as [Hi Hl]. split; [lia|].
    rewrite <- (lookup_take_lt (log_ s') (Z.to_nat (Entry.index entry))) by lia.
    rewrite (committed_prefix s s') by (done || lia). by rewrite lookup_take_lt by lia.
Qed.

Lemma task_rel_steps g g' ts :
  Spec.steps members n g g' -> Forall (task_rel g) ts -> Forall (task_rel g') ts.
Proof.
  intros Hst. apply Forall_impl. intros [msg| | | | | |]; try done. exact (msg_rel_steps [1; 2; 3] n g g' msg Hst).
Qed.

(** ** Handlers *)

(** A process whose storage is lost, or whose loops were stopped by an
    exception: what the disk holds and what was sent before. *)
Definition halt_rel s g : Prop :=
  down_rel n (files_of s) g /\ Forall (msg_rel g) (Impl.sent (restore_env s)).

Definition halted s g : Prop :=
  dead s /\ Impl.stopping_ (restore_env s) = true /\ halt_rel s g.

(** A handler beside the protocol: it returns with a process that still
    follows the protocol, or that is stopping because its storage failed, or
    it throws. *)
Definition nsim {A} (m : M node A) s g : Prop :=
  wp m (fun _ s' => exists g', Spec.steps members n g g' /\ (node_rel s' g' \/ halted s' g'))
    (fun _ s' => exists g', Spec.steps members n g g' /\ halt_rel s' g') s.

(** What follows the Raft core in a handler: with failed storage it only
    stops the process. *)
Definition settles {A} (k : M node A) : Prop :=
  (forall s, dead s -> exists a i, k s = (Ok a, s <| restore_env := i |>) /\
     Impl.stopping_ i = true /\ Impl.sent i = Impl.sent (restore_env s)) /\
  (forall s g, node_rel s g -> nsim k s g).

Lemma sent_steps g g' ms :
  Spec.steps members n g g' -> Forall (msg_rel g) ms -> Forall (msg_rel g') ms.
Proof. intros Hst. exact (msgs_steps [1; 2; 3] n g g' ms Hst). Qed.

Lemma node_rel_halt s g :
  node_rel s g -> exists g', Spec.steps members n g g' /\ halt_rel s g'.
Proof.
  intros [(_ & (_ & w & rs & Hw & Hl & Hd) & _) _ Hs _].
  destruct (lost_logged members n s g w rs [] Hw Hl Hd) as (g' & Hst & Hdn).
  exists g'. split; [done|]. split; [done|by eapply sent_steps].
Qed.

(** The core moved by [m], whose result is [s']. *)
Lemma node_rel_core s s' g g' :
  node_rel s g -> related s' g' -> Spec.steps members n g g' -> frame s s' -> evolves s s' ->
  node_rel s' g'.
Proof.
  intros [([] & _) Hkv Hsent Htasks Hids] Hr' Hst Hfr Hev. pose proof Hfr as (Ee & _).
  pose proof Hr' as ([] & _). split; [done| | | |]; rewrite ?Ee.
  - eapply kv_ok_evolves; try done. destruct mr_wf. lia.
  - by eapply sent_steps.
  - by eapply task_rel_steps.
  - done.
Qed.

Lemma nsim_core {A B} (m : M node A) (k : A -> M node B) s g :
  node_rel s g -> sim m (fun _ => related) s g -> framed m -> wp m (keeps s) any s ->
  (forall a, settles (k a)) -> nsim (m ≫= k) s g.
Proof.
  intros Hn Hm Hf Hk Hset. specialize (Hf s). pose proof Hf as (Ee & _).
  unfold nsim. apply wp_bind. unfold RaftSim.sim, wp in *.
  destruct (m s) as [[a|e] s'] eqn:E; cbn in Hf, Ee.
  - destruct (Hset a) as [Hdead Hlive]. destruct (storage_failed_ s') eqn:Hfail.
    + destruct Hm as [Hd (g' & Hst & Hdn)]. destruct (Hdead s' Hd) as (b & i & Ek & Hstop & Hsent).
      rewrite Ek. exists g'. split; [done|]. right. split; [done|]. split; [done|].
      split; [done|]. cbn. rewrite Hsent, Ee. eapply sent_steps; [done|]. apply Hn.
    + destruct Hm as (g' & Hst & Hr). destruct Hk as [_ Hev].
      assert (Hn' : node_rel s' g') by (by eapply node_rel_core).
      pose proof (Hlive s' g' Hn') as Hk. unfold nsim, wp in Hk.
      destruct (k a s') as [[b|e] s'']; destruct Hk as (g'' & Hst' & H); exists g'';
        (split; [by eapply steps_trans|done]).
  - destruct Hm as (g' & Hst & Hdn). exists g'. split; [done|]. split; [done|].
    rewrite Ee. eapply sent_steps; [done|]. apply Hn.
Qed.

(** ** The members besides the Raft core *)

Lemma node_rel_inert s g i :
  node_rel s g -> inert (restore_env s) i -> node_rel (s <| restore_env := i |>) g.
Proof.
  intros [Hr [] Hsent Htasks Hids] (E1 & E2 & E3 & _ & Hst & Hid & Hrt).
  specialize (Hrt Hids). split.
  - by apply (related_quiet _ _ s).
  - split; cbn; unfold kv_of in *; cbn; rewrite ?E2, ?E3; try done.
    + apply Forall_forall. intros task Ht%list_elem_of_In. destruct (Hst task Ht) as [Hin|Hh].
      * by apply (proj1 (Forall_forall _ _) ko_store_io0), list_elem_of_In.
      * by destruct task.
    + apply Forall_forall. intros task Ht%list_elem_of_In. destruct (Hrt task Ht) as [Hin|Hh].
      * by apply (proj1 (Forall_forall _ _) ko_raft_io0), list_elem_of_In.
      * by destruct task.
  - cbn. by rewrite E1.
  - cbn. apply Forall_forall. intros task Ht%list_elem_of_In.
    destruct (Hrt task Ht) as [Hin|Hh].
    + by apply (proj1 (Forall_forall _ _) Htasks), list_elem_of_In.
    + by destruct task.
  - by apply Hid.
Qed.

Lemma nsim_impl {A} (m : M Impl.t A) s g : calm m -> node_rel s g -> nsim (on_impl m) s g.
Proof.
  intros Hm Hn. specialize (Hm (restore_env s)). unfold nsim, wp, on_impl.
  pose proof (node_rel_inert s g (snd (m (restore_env s))) Hn Hm) as Hn'.
  destruct (m (restore_env s)) as [[a|e] i]; cbn in Hn'.
  - exists g. split; [apply Spec.steps_refl|by left].
  - by apply node_rel_halt.
Qed.

(** Code that leaves the protocol where it is. *)
Definition stays {A} (m : M node A) : Prop :=
  forall s g, node_rel s g -> wp m (fun _ s' => node_rel s' g) (fun _ _ => False) s.

Lemma stays_ret {A} (a : A) : stays (mret a).
Proof. intros s g Hn. by apply wp_ret. Qed.

Lemma stays_bind {A B} (m : M node A) (k : A -> M node B) :
  stays m -> (forall a, stays (k a)) -> stays (m ≫= k).
Proof.
  intros Hm Hk s g Hn. apply wp_bind. eapply wp_mono; [by apply Hm| |done]. cbn. intros a s'. apply Hk.
Qed.

Lemma stays_get {B} (k : node -> M node B) : (forall x, stays (k x)) -> stays (get ≫= k).
Proof. intros Hk s g Hn. apply wp_bind, wp_get. by apply Hk. Qed.

Lemma stays_impl {B} (k : Impl.t -> M node B) : (forall x, stays (k x)) -> stays (impl ≫= k).
Proof. intros Hk s g Hn. unfold impl. do 2 apply wp_bind. apply wp_get, wp_ret. by apply Hk. Qed.

(** A calm operation that returns. *)
Definition returns {A} (m : M Impl.t A) : Prop := forall i, exists a i', m i = (Ok a, i').

Lemma stays_on_impl {A} (m : M Impl.t A) : calm m -> returns m -> stays (on_impl m).
Proof.
  intros Hm Hr s g Hn. specialize (Hm (restore_env s)). unfold wp, on_impl.
  destruct (Hr (restore_env s)) as (a & i & E). rewrite E in *. by apply node_rel_inert.
Qed.

Lemma stays_nsim {A} (m : M node A) s g : stays m -> node_rel s g -> nsim m s g.
Proof.
  intros Hm Hn. eapply wp_mono; [by apply Hm| |done]. cbn. intros a s' Hn'.
  exists g. split; [apply Spec.steps_refl|by left].
Qed.

Lemma returns_for_each {A} (l : list A) (body : A -> M Impl.t unit) :
  (forall a, returns (body a)) -> returns (for_each l body).
Proof.
  intros Hb. induction l as [|a l IH]; intros i; [by exists tt, i|]. cbn. unfold mbind, M_bind.
  destruct (Hb a i) as ([] & i' & ->). apply IH.
Qed.

Lemma returns_bind {A B} (m : M Impl.t A) (k : A -> M Impl.t B) :
  returns m -> (forall a, returns (k a)) -> returns (m ≫= k).
Proof.
  intros Hm Hk i. unfold mbind, M_bind. destruct (Hm i) as (a & i' & ->). apply Hk.
Qed.

Lemma returns_stop reason : returns (request_stop reason).
Proof.
  intros i. unfold request_stop, post_raft. run_m.
  destruct (bool_decide _); cbn; destruct (Impl.stopping_ i); cbn; eauto.
Qed.

(** ** After every handler of the Raft loop *)

Lemma next_entry_ok s e :
  wf s -> log_offset_ s = 0 -> next_entry_to_apply s = Some e -> store_task_ok s (ApplyTask e).
Proof.
  intros Hwf E0 He. pose proof Hwf as []. pose proof (zlen_nonneg (log_ s)).
  unfold next_entry_to_apply in He. destruct (_ >=? _) eqn:Hc; [done|]. injection He as He.
  rewrite u64_small in He by (unfold_words; lia).
  destruct (lookup_lt_is_Some_2 (log_ s) (Z.to_nat (last_applied_ s))) as [e' He'].
  { unfold zlen in *. lia. }
  rewrite (log_entry_at s _ e') in He; [subst e'|done|].
  - pose proof (wf_indexed _ _ He') as Hi. cbn. rewrite Hi, E0.
    split; [lia|]. by replace (Z.to_nat _) with (Z.to_nat (last_applied_ s)) by lia.
  - unfold entry_at. rewrite decide_True by lia.
    by replace (Z.to_nat _) with (Z.to_nat (last_applied_ s)) by lia.
Qed.

Lemma stays_dispatch : stays dispatch_next_committed_entry.
Proof.
  intros s g Hn. unfold dispatch_next_committed_entry, impl. do 2 wp_step. do 2 wp_step.
  wp_step. wp_step. wp_step; [by wp_step|].
  destruct (next_entry_to_apply s) as [e|] eqn:He; [|by wp_step].
  pose proof Hn as [([] & _) [] Hsent Htasks Hids]. unfold wp. cbn. split; [| |done|done|done].
  - apply (related_quiet _ _ s); [done|done|apply Hn].
  - split; try done. cbn. apply Forall_app. split; [done|]. constructor; [|done].
    exact (next_entry_ok s e mr_wf mr_offset He).
Qed.

Lemma stays_finish tok : stays (finish_read_index tok).
Proof.
  intros s g Hn. unfold finish_read_index. do 2 wp_step. wp_step; [by wp_step|].
  pose proof Hn as [Hr [] Hsent Htasks Hids]. unfold wp. cbn. split; [|by split|done|done|done].
  by apply (related_quiet _ _ s).
Qed.

Lemma stays_poll : stays poll_read_indexes.
Proof.
  unfold poll_read_indexes. apply stays_get. intros s. apply stays_impl. intros i. cbv zeta.
  case_decide; [apply stays_ret|]. case_match.
  - apply stays_on_impl; [calm_by|]. apply returns_bind; [intros i'; eauto|intros _].
    apply returns_for_each. intros r i'. unfold post_store. eauto.
  - destruct (filter _ _) as [|[r tok] l]; [apply stays_ret|].
    apply stays_bind; [apply stays_on_impl; [calm_by|intros i'; eauto]|intros _].
    apply stays_bind; [apply stays_finish|intros _].
    apply stays_on_impl; [calm_by|]. apply returns_for_each. intros r' i'. unfold post_store. eauto.
Qed.

Lemma stays_capture : stays maybe_capture_snapshot.
Proof.
  intros s g Hn. unfold maybe_capture_snapshot, impl. do 2 wp_step. do 2 wp_step. do 2 wp_step.
  pose proof Hn as [([] & _) _ _ _]. unfold should_snapshot. rewrite mr_threshold.
  rewrite orb_true_r. by wp_step.
Qed.

Lemma next_send_inert i : exists o i', next_send i = (Ok o, i') /\ inert i i' /\
  Impl.config_ i' = Impl.config_ i.
Proof.
  unfold next_send. run_m. destruct (Impl.sends i) as [|o os]; cbn.
  - exists send_accepted, i. split; [done|]. split; [apply inert_refl|done].
  - eexists o, _. split; [done|]. split; [|done]. unfold inert. cbn. auto 10.
Qed.

Lemma flush_stop reason i i1 (messages : list Message.t) :
  inert i i1 -> exists i' out, request_stop reason i1 = (Ok tt, i') /\
    (forall m, m ∈ out -> m ∈ messages) /\ inert (i <| Impl.sent := Impl.sent i ++ out |>) i'.
Proof.
  intros Hi. destruct (returns_stop reason i1) as ([] & i2 & E). exists i2, [].
  split; [done|]. split; [set_solver|].
  pose proof (calm_stop reason i1) as Hc. rewrite E in Hc.
  pose proof (inert_trans _ _ _ Hi Hc) as H. unfold inert in *. cbn in *. by rewrite app_nil_r.
Qed.

(** What is handed to the peers is taken from the messages. *)
Lemma flush_spec messages : forall i,
  exists i' out, flush_loop messages i = (Ok tt, i') /\
    (forall m, m ∈ out -> m ∈ messages) /\ inert (i <| Impl.sent := Impl.sent i ++ out |>) i'.
Proof.
  induction messages as [|message messages IH]; intros i.
  { exists i, []. split; [done|]. split; [set_solver|]. unfold inert. cbn. rewrite app_nil_r. auto 10. }
  cbn [flush_loop]. unfold mbind at 1, M_bind at 1. cbn [get].
  destruct (bool_decide _); cbn [negb].
  2:{ destruct (IH i) as (i' & out & -> & Hsub & Hi). exists i', out. set_solver. }
  unfold mbind at 1, M_bind at 1. destruct (next_send_inert i) as (o & i1 & -> & Hi1 & _).
  destruct o.
  - unfold mbind at 1, M_bind at 1. cbn [get]. unfold mbind at 1, M_bind at 1. cbn [modify].
    destruct (IH (i1 <| Impl.sent := Impl.sent i1 ++ [message] |>)) as (i' & out & -> & Hsub & Hi).
    exists i', (message :: out). split; [done|]. split; [set_solver|].
    eapply inert_trans; [|exact Hi]. destruct Hi1 as (E & ?). unfold inert in *. cbn in *.
    rewrite E, <- app_assoc. tauto.
  - by apply flush_stop.
  - by apply flush_stop.
Qed.

Lemma stays_flush : stays flush_raft_messages.
Proof.
  intros s g Hn. unfold flush_raft_messages, read_messages, wp, on_impl. run_m.
  destruct (flush_spec (msgs_ s) (restore_env s)) as (i' & out & E & Hsub & Hi). cbn. rewrite E.
  pose proof Hn as [Hr Hkv Hsent Htasks Hids]. destruct Hr as (Hr1 & Hr2 & Hms).
  set (s1 := s <| msgs_ := [] |> <| restore_env := (restore_env s) <| Impl.sent := Impl.sent (restore_env s) ++ out |> |>).
  change (node_rel (s1 <| restore_env := i' |>) g). apply node_rel_inert; [|done].
  split; [apply (related_core _ _ s); [done|by constructor|by split]|by destruct Hkv| |done|done].
  cbn. apply Forall_app. split; [done|]. apply Forall_forall. intros m Hm%list_elem_of_In.
  by apply (proj1 (Forall_forall _ _) Hms), list_elem_of_In, Hsub.
Qed.

Lemma stays_log force : stays (log_status_if_changed force).
Proof.
  unfold log_status_if_changed. apply stays_get. intros s. apply stays_impl. intros i.
  case_match; [apply stays_ret|]. apply stays_on_impl; [unfold print; calm_by|].
  intros i'. unfold print. run_m. by eauto.
Qed.

Lemma settles_after : settles after_raft_activity.
Proof.
  split.
  - intros s Hd. pose proof Hd as [Hs _]. unfold after_raft_activity, mbind, M_bind. cbn [get].
    rewrite Hs. unfold on_impl.
    destruct (returns_stop (str "WAL synchronization failed") (restore_env s)) as ([] & i & E).
    pose proof (calm_stop (str "WAL synchronization failed") (restore_env s)) as Hc.
    rewrite E in *. exists tt, i. split; [done|]. split; [|apply Hc].
    clear Hc. revert E. unfold request_stop, post_raft. run_m.
    destruct (bool_decide _); cbn; destruct (Impl.stopping_ _) eqn:Hst; cbn; by intros [= <-].
  - intros s g Hn. unfold nsim, after_raft_activity. do 2 wp_step.
    pose proof Hn as [(_ & [Hs _] & _) _ _ _]. rewrite Hs. apply (stays_nsim _ s g); [|done].
    apply stays_bind; [apply stays_dispatch|intros _].
    apply stays_bind; [apply stays_poll|intros _].
    apply stays_bind; [apply stays_capture|intros _].
    apply stays_bind; [apply stays_flush|intros _]. apply stays_log.
Qed.

(** Own members first. *)
Lemma settles_impl {A B} (m : M Impl.t A) (k : A -> M node B) :
  calm m -> returns m -> (forall a, settles (k a)) -> settles (on_impl m ≫= k).
Proof.
  intros Hm Hr Hk. split.
  - intros s Hd. unfold mbind, M_bind, on_impl. destruct (Hr (restore_env s)) as (a & i & E).
    specialize (Hm (restore_env s)). rewrite E in *.
    destruct (proj1 (Hk a) (s <| restore_env := i |>)) as (b & i' & -> & Hst & Hsent); [done|].
    exists b, i'. split; [done|]. split; [done|]. rewrite Hsent. apply Hm.
  - intros s g Hn. unfold nsim. apply wp_bind.
    eapply wp_mono; [apply (stays_on_impl m Hm Hr s g Hn)| |done]. cbn. intros a s' Hn'. by apply Hk.
Qed.

Lemma settles_get {B} (k : node -> M node B) : (forall x, settles (k x)) -> settles (get ≫= k).
Proof.
  intros Hk. split; intros s.
  - unfold mbind, M_bind. cbn [get]. apply Hk.
  - intros g Hn. unfold nsim. apply wp_bind, wp_get. by apply Hk.
Qed.

Lemma settles_ret {A B} (a : A) (k : A -> M node B) : settles (k a) -> settles (mret a ≫= k).
Proof. done. Qed.

(** ** The store's loop *)

(** An acknowledgment is queued for what the store has applied. *)
Lemma node_rel_acknowledge s g index :
  node_rel s g -> index <= Impl.store_applied_index_ (restore_env s) ->
  node_rel (s <| restore_env := (restore_env s)
    <| Impl.raft_io_ := Impl.raft_io_ (restore_env s) ++ [AppliedTask index] |> |>) g.
Proof.
  intros [Hr [] Hsent Htasks Hids] Hi. split; [by apply (related_quiet _ _ s)| |done| |done].
  - split; try done. cbn. apply Forall_app. split; [done|]. by constructor.
  - cbn. apply Forall_app. split; [done|]. by constructor.
Qed.

(** The store moves to the next committed entry. *)
Lemma node_rel_applied s g e st :
  node_rel s g -> store_task_ok s (ApplyTask e) ->
  Entry.index e = Impl.store_applied_index_ (restore_env s) + 1 ->
  entry_effect e (kv_of s) = Some (KVStore.store_ st) ->
  node_rel (s <| restore_env := (restore_env s) <| Impl.store_ := st |>
    <| Impl.store_applied_index_ := Entry.index e |> |>) g.
Proof.
  intros [Hr [] Hsent Htasks Hids] [Hi He] Hk Hef.
  split; [by apply (related_quiet _ _ s)| |done|done|done].
  set (k := Impl.store_applied_index_ (restore_env s)) in *.
  split; cbn; [lia| |done|].
  - replace (Z.to_nat (Entry.index e)) with (S (Z.to_nat k)) by lia.
    erewrite take_S_r by (replace (Z.to_nat k) with (Z.to_nat (Entry.index e - 1)) by lia; exact He).
    rewrite kv_replay_app, ko_store0. cbn. by rewrite Hef.
  - eapply Forall_impl; [|exact ko_raft_io0]. intros []; cbn; try done. intros. lia.
Qed.

Lemma node_rel_acked s g e st i1 :
  node_rel s g -> store_task_ok s (ApplyTask e) ->
  Entry.index e = Impl.store_applied_index_ (restore_env s) + 1 ->
  entry_effect e (kv_of s) = Some (KVStore.store_ st) ->
  inert ((restore_env s) <| Impl.store_ := st |>) i1 ->
  exists g', Spec.steps members n g g' /\
    (node_rel (s <| restore_env := i1 <| Impl.store_applied_index_ := Entry.index e |>
       <| Impl.raft_io_ := Impl.raft_io_ i1 ++ [AppliedTask (Entry.index e)] |> |>) g' \/
     halted (s <| restore_env := i1 <| Impl.store_applied_index_ := Entry.index e |>
       <| Impl.raft_io_ := Impl.raft_io_ i1 ++ [AppliedTask (Entry.index e)] |> |>) g').
Proof.
  intros Hn Ht Hk Hef Hi. exists g. split; [apply Spec.steps_refl|]. left.
  pose proof (node_rel_applied s g e st Hn Ht Hk Hef) as H1.
  apply (node_rel_acknowledge _ _ (Entry.index e)) in H1; [|done].
  apply (node_rel_inert _ _ (i1 <| Impl.store_applied_index_ := Entry.index e |>
       <| Impl.raft_io_ := Impl.raft_io_ i1 ++ [AppliedTask (Entry.index e)] |>)) in H1; [done|].
  destruct Hi as (? & ? & ? & ? & Hs & Hid & Hr). split_and!; try done. cbn.
  intros Hids task. specialize (Hr Hids task). rewrite !elem_of_app. intros [[?|?]%Hr|?]; auto.
Qed.

(** An exception after a change of the process's own members. *)
Lemma halt_impl s g i :
  node_rel s g -> Impl.sent i = Impl.sent (restore_env s) ->
  exists g', Spec.steps members n g g' /\ halt_rel (s <| restore_env := i |>) g'.
Proof.
  intros Hn E. destruct (node_rel_halt s g Hn) as (g' & Hst & Hd & Hs).
  exists g'. split; [done|]. split; [done|]. cbn. by rewrite E.
Qed.

Lemma nsim_apply e s g :
  node_rel s g -> store_task_ok s (ApplyTask e) -> nsim (on_impl (apply_committed_entry e)) s g.
Proof.
  intros Hn Ht. pose proof Hn as [([] & _) [] _ _]. destruct mr_wf. destruct Ht as [Hi He].
  set (i := restore_env s) in *. unfold nsim, wp, on_impl. fold i.
  unfold apply_committed_entry, mbind at 1, M_bind at 1. cbn [get].
  destruct (Impl.stopping_ i) eqn:Hstop.
  { exists g. split; [apply Spec.steps_refl|]. left. by destruct s. }
  destruct (Z.leb_spec (Entry.index e) (Impl.store_applied_index_ i)).
  { exists g. split; [apply Spec.steps_refl|]. left. by apply node_rel_acknowledge. }
  destruct (Z.eqb_spec (Entry.index e) (u64 (Impl.store_applied_index_ i + 1))) as [Hk|]; cbn [negb].
  2:{ apply nsim_impl; [apply calm_stop|done]. }
  rewrite u64_small in Hk by (unfold_words; pose proof (zlen_nonneg (log_ s)); lia).
  destruct (_ && _) eqn:Hnormal.
  - pose proof (apply_effect e (Impl.store_ i) Hnormal) as Hef.
    destruct (KVStore.apply e (Impl.store_ i)) as [[result|err] st].
    + unfold mbind at 1, M_bind at 1. cbn [modify].
      pose proof (calm_when (KVStore.origin_node result =? NodeConfig.id (Impl.config_ i))
        (complete_write result) (calm_complete_write result) (i <| Impl.store_ := st |>)) as Hc.
      unfold mbind at 1, M_bind at 1.
      destruct (when _ _ _) as [[[]|err] i1].
      * by apply (node_rel_acked s g e st i1).
      * apply halt_impl; [done|]. exact (proj1 Hc).
    + destruct Hef as [_ ->]. unfold mbind at 1, M_bind at 1. cbn [modify].
      assert (Hn1 : node_rel (s <| restore_env := i <| Impl.store_ := Impl.store_ i |> |>) g).
      { apply node_rel_inert; [done|]. unfold inert. auto 10. }
      apply (nsim_impl (request_stop (str "state-machine apply failed")) _ g (calm_stop _) Hn1).
  - apply (node_rel_acked s g e (Impl.store_ i) i); try done; [|unfold inert; auto 10].
    unfold entry_effect. by rewrite Hnormal.
Qed.

Lemma nsim_store_task task s g :
  node_rel s g -> store_task_ok s task -> nsim (on_impl (run_store_task task)) s g.
Proof.
  intros Hn Ht. destruct task; try (by apply nsim_impl; [apply calm_store_task|]); try done.
  by apply nsim_apply.
Qed.

(** ** The Raft loop *)

Hypothesis self_member : n ∈ [1; 2; 3].

Lemma three_nodup : NoDup [1; 2; 3].
Proof. repeat constructor; set_solver by lia. Qed.

Lemma three_u64 : forall p, p ∈ [1; 2; 3] -> 0 < p < u64_max.
Proof. intros p. rewrite !elem_of_cons, elem_of_nil. unfold u64_max. lia. Qed.

Lemma node_room s g : node_rel s g -> roomy s -> wf s /\ room s /\ 0 <= term_ s.
Proof.
  intros [([] & _) _ _ _] [Ht Hl]. destruct mr_u64 as [Hu _]. unfold room. rewrite mr_offset.
  unfold is_u64 in Hu. split_and!; try done; lia.
Qed.

Lemma nsim_tick s g : node_rel s g -> Inv members g -> roomy s -> nsim tick_timer s g.
Proof.
  intros Hn I Hr. destruct (node_room s g Hn Hr) as (Hwf & Hroom & H0).
  unfold nsim, tick_timer, impl. do 3 wp_step. wp_step. wp_step.
  { wp_step. exists g. split; [apply Spec.steps_refl|by left]. }
  apply nsim_core; [done| |apply framed_tick|by apply tick_keeps|intros _; apply settles_after].
  destruct Hr as (? & ? & _). apply sim_tick; eauto using three_nodup, three_u64, nr_related; lia.
Qed.

Lemma nsim_message msg s g :
  node_rel s g -> Inv members g -> roomy s -> msg_rel g msg -> nsim (handle_raft_message msg) s g.
Proof.
  intros Hn I Hr Hm. destruct (node_room s g Hn Hr) as (Hwf & Hroom & H0).
  unfold nsim, handle_raft_message. wp_step.
  { wp_step. exists g. split; [apply Spec.steps_refl|by left]. }
  destruct Hr as (? & ? & _). pose proof Hm as (_ & _ & _ & Ha & _ & Hs & _).
  apply nsim_core; [done| |by apply framed_deliver| |intros _; apply settles_after].
  - apply sim_deliver; eauto using three_nodup, three_u64, nr_related; lia.
  - apply deliver_keeps; try done. split; [done|]. split; [apply Ha|done].
Qed.

Lemma nsim_propose request_id data s g :
  node_rel s g -> Inv members g -> roomy s -> proposes data -> nsim (propose_task request_id data) s g.
Proof.
  intros Hn I Hr Hd. destruct (node_room s g Hn Hr) as (Hwf & Hroom & H0). destruct Hr as (? & ? & _).
  unfold propose_task.
  apply nsim_core; [done| |apply framed_propose|by apply propose_keeps|].
  - apply sim_propose; eauto using three_nodup, three_u64, nr_related.
  - intros accepted. apply settles_get. intros x. destruct accepted as [z|].
    + apply settles_ret, settles_after.
    + apply settles_impl; [calm_by|intros i; unfold post_store; eauto|intros _; apply settles_after].
Qed.

Lemma nsim_read request_id s g :
  node_rel s g -> Inv members g -> roomy s -> nsim (read_task request_id) s g.
Proof.
  intros Hn I Hr. destruct (node_room s g Hn Hr) as (Hwf & Hroom & H0). destruct Hr as (? & ? & _).
  unfold read_task.
  apply nsim_core; [done| |apply framed_read_index|by apply read_index_keeps|].
  - apply sim_read_index; eauto using three_nodup, three_u64, nr_related, empty_proposes.
  - intros read. apply settles_get. intros x. destruct read as [tok|].
    + apply settles_impl; [calm_by|intros i; eauto|intros _; apply settles_after].
    + apply settles_impl; [calm_by|intros i; unfold post_store; eauto|intros _; apply settles_after].
Qed.

Lemma stays_advance index s g :
  node_rel s g -> index <= Impl.store_applied_index_ (restore_env s) ->
  wp (advance index) (fun _ s' => node_rel s' g) (fun _ _ => False) s.
Proof.
  intros Hn Hi. unfold advance. do 2 wp_step. wp_step; [by wp_step|]. wp_step. guards.
  pose proof Hn as [Hr [] Hsent Htasks Hids]. split; [by apply related_applied| |done|done|done].
  split; cbn; try done. lia.
Qed.

Lemma nsim_applied index s g :
  node_rel s g -> index <= Impl.store_applied_index_ (restore_env s) ->
  nsim (applied_task index) s g.
Proof.
  intros Hn Hi. unfold applied_task, impl. unfold nsim. do 2 wp_step. do 2 wp_step. do 2 wp_step.
  wp_step. { wp_step. exists g. split; [apply Spec.steps_refl|by left]. }
  wp_step. { apply nsim_impl; [apply calm_stop|done]. }
  wp_step. eapply wp_mono; [by apply stays_advance| |done]. cbv beta. intros _ s' Hn'.
  do 2 wp_step. wp_step. { apply nsim_impl; [apply calm_stop|done]. }
  apply (proj2 (settles_impl (Impl.apply_in_flight_ <~ None) (fun _ => after_raft_activity)
    ltac:(calm_by) ltac:(intros i; eauto) (fun _ => settles_after))). done.
Qed.

Lemma stays_cancel request_id : stays (cancel_raft_read request_id).
Proof.
  unfold cancel_raft_read. apply stays_impl. intros i. case_match; [|apply stays_ret]. cbv zeta.
  apply stays_bind; [apply stays_on_impl; [calm_by|intros i'; eauto]|intros _].
  case_match; [apply stays_ret|apply stays_finish].
Qed.

Lemma nsim_raft_task task s g :
  node_rel s g -> Inv members g -> roomy s -> task_rel g task ->
  acknowledged (Impl.store_applied_index_ (restore_env s)) task -> nsim (run_raft_task task) s g.
Proof.
  intros Hn I Hr Ht Hk. unfold nsim, run_raft_task, impl. do 3 wp_step. wp_step. cbv beta.
  assert (Hstay : exists g', Spec.steps members n g g' /\ (node_rel s g' \/ halted s g')).
  { exists g. split; [apply Spec.steps_refl|by left]. }
  destruct task; try (wp_step; [by wp_step|]).
  - by apply nsim_message.
  - by apply nsim_propose.
  - by apply nsim_read.
  - by apply nsim_applied.
  - apply stays_nsim; [apply stays_cancel|done].
  - done.
  - apply nsim_impl; [calm_by|done].
Qed.

(** ** Every event *)

(** A process beside the protocol: it follows it, or it has stopped. *)
Definition proc_rel s g : Prop :=
  node_rel s g \/ halted s g \/ Impl.loops_stopped (restore_env s) = true /\ halt_rel s g.

Lemma halt_rel_impl s g i :
  halt_rel s g -> Impl.sent i = Impl.sent (restore_env s) -> halt_rel (s <| restore_env := i |>) g.
Proof. intros [Hd Hs] E. split; [done|]. cbn. by rewrite E. Qed.

Lemma nsim_in_loop m s g :
  nsim m s g -> exists s' g', in_loop m s = (Ok tt, s') /\ Spec.steps members n g g' /\ proc_rel s' g'.
Proof.
  unfold nsim, wp, in_loop. destruct (m s) as [[a|e] s']; intros (g' & Hst & H).
  - exists s', g'. split; [done|]. split; [done|]. unfold proc_rel. tauto.
  - eexists _, g'. split; [done|]. split; [done|]. right. right. split; [done|].
    by apply halt_rel_impl.
Qed.

(** Once storage has failed, handlers only change what no longer matters. *)
Definition hushed {A} (m : M node A) : Prop := forall s g, halted s g -> halted (snd (m s)) g.

Definition mute {A} (m : M Impl.t A) : Prop := forall i, Impl.stopping_ i = true ->
  Impl.stopping_ (snd (m i)) = true /\ Impl.sent (snd (m i)) = Impl.sent i.

Lemma calm_mute {A} (m : M Impl.t A) : calm m -> mute m.
Proof. intros Hm i Hs. destruct (Hm i) as (? & _ & _ & ? & _). auto. Qed.

Lemma hushed_impl {A} (m : M Impl.t A) : mute m -> hushed (on_impl m).
Proof.
  intros Hm s g (Hd & Hs & Hh). destruct (Hm (restore_env s) Hs) as [H1 H2]. unfold on_impl.
  destruct (m (restore_env s)) as [r i]. cbn in *. split; [done|]. split; [done|].
  by apply halt_rel_impl.
Qed.

Lemma hushed_bind {A B} (m : M node A) (k : A -> M node B) :
  hushed m -> (forall a, hushed (k a)) -> hushed (m ≫= k).
Proof.
  intros Hm Hk s g Hh. specialize (Hm s g Hh). unfold mbind, M_bind.
  destruct (m s) as [[a|e] s1]; [|done]. by apply Hk.
Qed.

Lemma hushed_ret {A} (a : A) : hushed (mret a).
Proof. intros s g H. exact H. Qed.

Lemma hushed_finish tok : hushed (finish_read_index tok).
Proof.
  intros s g Hh. unfold finish_read_index. run_m. case_match; [done|].
  destruct Hh as (Hd & Hs & Hh). split; [exact Hd|]. split; [exact Hs|exact Hh].
Qed.

Lemma hushed_store_task task : hushed (on_impl (run_store_task task)).
Proof.
  apply hushed_impl. destruct task; try (by apply calm_mute, calm_store_task); intros i Hs; cbn.
  - unfold apply_committed_entry. run_m. by rewrite Hs.
  - done.
  - unfold restore_store. run_m. by destruct (KVStore.deserialize _ _) as [[] ?].
Qed.

Lemma hushed_impl_bind {B} (k : Impl.t -> M node B) s g :
  (Impl.stopping_ (restore_env s) = true -> halted (snd (k (restore_env s) s)) g) ->
  halted s g -> halted (snd ((impl ≫= k) s)) g.
Proof. intros Hk Hh. apply Hk. apply Hh. Qed.

Lemma hushed_raft_task task : hushed (run_raft_task task).
Proof.
  intros s g Hh. apply hushed_impl_bind; [|done]. intros Hs. rewrite Hs. destruct task; try done.
  - apply hushed_impl_bind; [|done]. intros _. destruct (_ !! _); [|done]. cbv zeta.
    apply hushed_bind; [apply hushed_impl, calm_mute; calm_by| |done].
    intros _. case_match; [apply hushed_ret|apply hushed_finish].
  - apply hushed_bind; [apply hushed_impl, calm_mute; calm_by| |done]. intros _ s' g' Hh'.
    apply hushed_impl_bind; [|done]. intros Hs'. by rewrite Hs'.
Qed.

Lemma hushed_in_loop (m : M node unit) s g :
  hushed m -> halted s g -> exists s', in_loop m s = (Ok tt, s') /\ proc_rel s' g.
Proof.
  intros Hm Hh. specialize (Hm s g Hh). unfold in_loop. destruct (m s) as [[[]|e] s'].
  - exists s'. split; [done|]. right. by left.
  - eexists. split; [done|]. right. right. split; [done|]. destruct Hm as (_ & _ & Hm).
    by apply halt_rel_impl.
Qed.

(** A queue is taken from. *)
Lemma inert_queues i ts ts' :
  (forall task, task ∈ ts -> task ∈ Impl.raft_io_ i) ->
  (forall task, task ∈ ts' -> task ∈ Impl.store_io_ i) ->
  inert i (i <| Impl.raft_io_ := ts |> <| Impl.store_io_ := ts' |>).
Proof. intros H H'. unfold inert. cbn. split_and!; auto. Qed.

Lemma run_event_eq ev s :
  Impl.loops_stopped (restore_env s) = false ->
  run_event ev s =
  match ev with
  | RunRaft =>
      match Impl.raft_io_ (restore_env s) with
      | [] => mret tt
      | task :: tasks => on_impl (Impl.raft_io_ <~ tasks) ;; in_loop (run_raft_task task)
      end
  | RunStore =>
      match Impl.store_io_ (restore_env s) with
      | [] => mret tt
      | task :: tasks => on_impl (Impl.store_io_ <~ tasks) ;; in_loop (on_impl (run_store_task task))
      end
  | TickTimer => in_loop tick_timer
  | RequestTimer now =>
      if Impl.stopping_ (restore_env s) then mret tt else in_loop (on_impl (expire_client_requests now))
  | ClientCommand command reply now =>
      fun s => (Ok tt, snd (on_impl (handle_client_command command reply now) s))
  | Arrival message => on_impl (post_raft (HandleMessage message))
  | Signal => on_impl (request_stop [])
  end s.
Proof. intros E. unfold run_event, impl, mbind, M_bind, get, mret, M_ret. cbv beta iota. by rewrite E. Qed.

Lemma run_event_stopped ev s :
  Impl.loops_stopped (restore_env s) = true -> run_event ev s = (Ok tt, s).
Proof. intros E. unfold run_event, impl, mbind, M_bind, get, mret, M_ret. cbv beta iota. by rewrite E. Qed.

Lemma halted_event ev s g :
  halted s g -> exists s', run_event ev s = (Ok tt, s') /\ proc_rel s' g.
Proof.
  intros Hh. pose proof Hh as (_ & Hs & _).
  assert (Hstay : proc_rel s g) by (right; by left).
  destruct (Impl.loops_stopped (restore_env s)) eqn:Hl.
  { exists s. split; [by apply run_event_stopped|done]. }
  rewrite run_event_eq by done.
  destruct ev; rewrite ?Hs.
  - destruct (Impl.raft_io_ (restore_env s)) as [|task tasks] eqn:Eq; [by exists s|].
    apply (hushed_in_loop (run_raft_task task) (s <| restore_env := (restore_env s) <| Impl.raft_io_ := tasks |> |>));
      [apply hushed_raft_task|].
    apply (hushed_impl (Impl.raft_io_ <~ tasks)); [|done]. done.
  - destruct (Impl.store_io_ (restore_env s)) as [|task tasks] eqn:Eq; [by exists s|].
    apply (hushed_in_loop (on_impl (run_store_task task)) (s <| restore_env := (restore_env s) <| Impl.store_io_ := tasks |> |>));
      [apply hushed_store_task|].
    apply (hushed_impl (Impl.store_io_ <~ tasks)); [|done]. done.
  - apply hushed_in_loop; [|done]. intros s1 g1 Hh1. apply hushed_impl_bind; [|done]. intros Hs1. by rewrite Hs1.
  - by exists s.
  - eexists. split; [done|]. right. left. by apply hushed_impl; [apply calm_mute, calm_client|].
  - eexists. split; [done|]. right. left. by apply (hushed_impl (post_raft (HandleMessage message))).
  - destruct (returns_stop [] (restore_env s)) as ([] & i & E). unfold on_impl. rewrite E.
    eexists. split; [done|]. right. left.
    pose proof (hushed_impl (request_stop []) (calm_mute _ (calm_stop _)) s g Hh) as H.
    unfold on_impl in H. by rewrite E in H.
Qed.

Lemma node_event_follows ev s g :
  node_rel s g -> Inv members g -> roomy s -> (forall m, ev = Arrival m -> msg_rel g m) ->
  exists s' g', run_event ev s = (Ok tt, s') /\ Spec.steps members n g g' /\ proc_rel s' g'.
Proof.
  intros Hn I Hr Ha.
  assert (Hstay : exists s' g', (mret tt : M node unit) s = (Ok tt, s') /\ Spec.steps members n g g' /\ proc_rel s' g').
  { exists s, g. split; [done|]. split; [apply Spec.steps_refl|by left]. }
  destruct (Impl.loops_stopped (restore_env s)) eqn:Hl.
  { by rewrite run_event_stopped. }
  rewrite run_event_eq by done. pose proof Hn as [_ [] _ Htasks].
  destruct ev as [| | | |command rep now|message|].
  - destruct (Impl.raft_io_ (restore_env s)) as [|task tasks] eqn:Eq; [done|].
    rewrite Forall_cons_iff in ko_raft_io0, Htasks.
    set (s1 := s <| restore_env := (restore_env s) <| Impl.raft_io_ := tasks |> |>).
    apply (nsim_in_loop (run_raft_task task) s1). apply nsim_raft_task; try tauto; try done.
    apply node_rel_inert; [done|]. unfold inert. rewrite Eq. cbn. set_solver.
  - destruct (Impl.store_io_ (restore_env s)) as [|task tasks] eqn:Eq; [done|].
    rewrite Forall_cons_iff in ko_store_io0.
    set (s1 := s <| restore_env := (restore_env s) <| Impl.store_io_ := tasks |> |>).
    apply (nsim_in_loop (on_impl (run_store_task task)) s1). apply nsim_store_task; try tauto; try done.
    apply node_rel_inert; [done|]. unfold inert. rewrite Eq. cbn. set_solver.
  - by apply nsim_in_loop, nsim_tick.
  - case_match; [done|]. apply nsim_in_loop, nsim_impl; [apply calm_expire|done].
  - eexists _, g. split; [done|]. split; [apply Spec.steps_refl|]. left.
    unfold on_impl. pose proof (calm_client command rep now (restore_env s)) as Hi.
    destruct (handle_client_command _ _ _ _) as [r i]. by apply node_rel_inert.
  - eexists _, g. split; [done|]. split; [apply Spec.steps_refl|]. left.
    specialize (Ha _ eq_refl). destruct Hn as [Hrel [] Hsent Ht Hids].
    split; [by apply (related_quiet _ _ s)|split; try done|done| |done]; cbn;
      (apply Forall_app; split; [done|by constructor]).
  - destruct (returns_stop [] (restore_env s)) as ([] & i & E). unfold on_impl. rewrite E.
    eexists _, g. split; [done|]. split; [apply Spec.steps_refl|]. left.
    apply node_rel_inert; [done|]. pose proof (calm_stop [] (restore_env s)) as H. by rewrite E in H.
Qed.

(** Whatever happens next in a process, it returns and the protocol can
    follow. *)
Lemma event_follows ev s g :
  proc_rel s g -> Inv members g -> roomy s -> (forall m, ev = Arrival m -> msg_rel g m) ->
  exists s' g', run_event ev s = (Ok tt, s') /\ Spec.steps members n g g' /\ proc_rel s' g'.
Proof.
  intros [Hn|[Hh|[Hl Hh]]] I Hr Ha.
  - by apply node_event_follows.
  - destruct (halted_event ev s g Hh) as (s' & E & Hp). exists s', g.
    split; [done|]. split; [apply Spec.steps_refl|done].
  - exists s, g. split; [by apply run_event_stopped|split; [apply Spec.steps_refl|right; by right]].
Qed.

End Node.
