(* ===== verification/ReadRounds.v ===== *)
(** * Read rounds

    A leader numbers its rounds of confirmation, and a heartbeat that asks and
    the response that confirms carry the number.  Here: what one process keeps
    about its open round, whatever it does, and that no message with a number
    exists before the round it belongs to is open. *)

From S2P Require Import Prelude Text Msgpack Proto Crc32 Wal KvStore RespCodec NodeConfig.
From S2P Require Import Raft RaftLemmas RaftLog RaftNode Runtime RaftSpec Cluster RuntimeSim.
Import Raft.

(** ** Messages of a round *)

Definition asks (m : Message.t) : Prop :=
  Message.type m = Message.MsgAppendEntries /\ Message.read_context m <> 0.

Definition confirms (m : Message.t) : Prop :=
  Message.type m = Message.MsgAppendEntriesResponse /\ Message.success m = true /\
  Message.read_context m <> 0.

(** The question a confirmation answers is among [net]. *)
Definition asked (net : list Message.t) (m : Message.t) : Prop :=
  exists q, q ∈ net /\ asks q /\ Message.from q = Message.to m /\ Message.term q = Message.term m /\
    Message.read_context q = Message.read_context m.

Section Rounds.
Context {R : Rng} {WP : WalPack} {CP : MsgPack Command.t} {MP : MapPack}.
Abbreviation node := (t Impl.t).
Implicit Types (s : node) (m msg : Message.t).

(** The messages a process has produced and not handed to the network. *)
Definition outs s : list Message.t := msgs_ s ++ Impl.sent (restore_env s).

(** A question of this process belongs to an earlier term or to a round that is
    already numbered. *)
Definition spent s m : Prop :=
  asks m -> Message.from m = id_ s ->
  Message.term m < term_ s \/
  Message.term m = term_ s /\ state_ s <> Candidate /\
    (state_ s = Leader -> Message.read_context m < next_read_context_ s).

(** Process [n] and what it produced, [net] being the network, since a moment at which
    it had produced [old], was in term [t0] and would have numbered the next
    round [x0]; [P] is kept about the number, the index and the term of the open
    round. *)
Section Since.
Context (n : Z) (net old : list Message.t) (t0 x0 : Z) (P : Z -> Z -> Z -> Prop).

Definition own s m : Prop :=
  (asks m -> Message.from m = id_ s) /\
  (confirms m -> Message.from m = id_ s /\ asked net m /\ (m ∈ old \/ t0 <= Message.term m)).

Record rounds s : Prop := {
  rd_id : id_ s = n;
  rd_peers : peers_ s = [1; 2; 3];
  rd_term : 0 <= t0 <= term_ s;
  rd_next : 0 < x0 <= next_read_context_ s;
  rd_idle : state_ s <> Leader -> read_index_pending_ s = false;
  rd_none : read_index_pending_ s = false ->
    pending_read_context_ s = 0 /\ read_index_acks_ s = ∅;
  rd_open : read_index_pending_ s = true ->
    0 < pending_read_context_ s < next_read_context_ s /\
    P (pending_read_context_ s) (pending_read_index_ s) (term_ s);
  rd_acks : forall a, read_index_acks_ s !! a = Some true ->
    a <> id_ s /\ a ∈ peers_ s /\
    exists m, m ∈ net /\ confirms m /\ Message.from m = a /\ Message.to m = id_ s /\
      Message.term m = term_ s /\ Message.read_context m = pending_read_context_ s;
  rd_spent : forall m, m ∈ net \/ m ∈ outs s -> spent s m;
  rd_own : forall m, m ∈ outs s -> own s m;
  rd_queue : forall m, HandleMessage m ∈ Impl.raft_io_ (restore_env s) -> m ∈ net;
}.

(** ** The part of the state a round depends on *)

Definition view s :=
  (id_ s, peers_ s, term_ s, state_ s, read_index_pending_ s, pending_read_index_ s,
   pending_read_context_ s, next_read_context_ s, read_index_acks_ s, msgs_ s, restore_env s).

(** Fields that are not in it. *)
Class Unseen {T} (f : node -> T) {setter : Setter f} : Prop :=
  unseen_view : forall h s, view (set f h s) = view s.
#[local] Instance unseen_lead_ : Unseen lead_.
Proof. done. Qed.
#[local] Instance unseen_voted_for_ : Unseen voted_for_.
Proof. done. Qed.
#[local] Instance unseen_commit_index_ : Unseen commit_index_.
Proof. done. Qed.
#[local] Instance unseen_last_applied_ : Unseen last_applied_.
Proof. done. Qed.
#[local] Instance unseen_log_ : Unseen log_.
Proof. done. Qed.
#[local] Instance unseen_log_offset_ : Unseen log_offset_.
Proof. done. Qed.
#[local] Instance unseen_log_offset_term_ : Unseen log_offset_term_.
Proof. done. Qed.
#[local] Instance unseen_progress_ : Unseen progress_.
Proof. done. Qed.
#[local] Instance unseen_last_snapshot_index_ : Unseen last_snapshot_index_.
Proof. done. Qed.
#[local] Instance unseen_election_elapsed_ : Unseen election_elapsed_.
Proof. done. Qed.
#[local] Instance unseen_randomized_election_timeout_ : Unseen randomized_election_timeout_.
Proof. done. Qed.
#[local] Instance unseen_heartbeat_elapsed_ : Unseen heartbeat_elapsed_.
Proof. done. Qed.
#[local] Instance unseen_election_rng_ : Unseen election_rng_.
Proof. done. Qed.
#[local] Instance unseen_votes_ : Unseen votes_.
Proof. done. Qed.
#[local] Instance unseen_pre_votes_ : Unseen pre_votes_.
Proof. done. Qed.
#[local] Instance unseen_pending_pre_vote_term_ : Unseen pending_pre_vote_term_.
Proof. done. Qed.
#[local] Instance unseen_last_snapshot_data_ : Unseen last_snapshot_data_.
Proof. done. Qed.
#[local] Instance unseen_wal_ : Unseen wal_.
Proof. done. Qed.
#[local] Instance unseen_storage_failed_ : Unseen storage_failed_.
Proof. done. Qed.

Lemma rounds_view s s' : view s' = view s -> rounds s -> rounds s'.
Proof.
  unfold view. intros [= E1 E2 E3 E4 E5 E6 E7 E8 E9 E10 E11] [H0 Hp H1 H2 H3 H4 H5 H6 H7 H8 H9].
  split; rewrite ?E1, ?E2, ?E3, ?E4, ?E5, ?E6, ?E7, ?E8, ?E9, ?E11; try done.
  - intros m Hm. unfold outs in Hm. rewrite E10, E11 in Hm. unfold spent. rewrite E1, E3, E4, E8.
    by apply H7.
  - intros m Hm. unfold outs in Hm. rewrite E10, E11 in Hm. unfold own. rewrite E1. by apply H8.
Qed.

Lemma rounds_push s ms :
  rounds s -> (forall m, m ∈ ms -> spent s m /\ own s m) -> rounds (s <| msgs_ := msgs_ s ++ ms |>).
Proof.
  intros [H0 Hp H1 H2 H3 H4 H5 H6 H7 H8 H9] Hm.
  assert (forall m, m ∈ outs (s <| msgs_ := msgs_ s ++ ms |>) -> m ∈ outs s \/ m ∈ ms) as Ho.
  { unfold outs. cbn. set_solver. }
  split; try done.
  - intros m [Hin|[Hin|Hin]%Ho]; [by apply H7; left|by apply H7; right|by apply Hm].
  - intros m [Hin|Hin]%Ho; [by apply H8|by apply Hm].
Qed.

(** ** Broadcasts *)

Lemma broadcast_asks s p : rounds s -> spent s (broadcast_to s p) /\ own s (broadcast_to s p).
Proof.
  intros []. unfold broadcast_to. destruct (_ <=? _).
  - split; [by intros [? _]|]. split; [by intros [? _]|by intros [? _]].
  - split; [|split; [done|by intros [? _]]]. intros [_ Hx] _. right. cbn in *.
    destruct (decide (state_ s = Leader)) as [El|Hl]; [|by rewrite rd_idle0 in Hx].
    destruct (read_index_pending_ s) eqn:E; [|done]. rewrite El.
    split; [done|]. split; [done|]. intros _. by apply rd_open0.
Qed.

Lemma rounds_broadcasted s ps : rounds s -> rounds (broadcasted s ps).
Proof.
  intros H. set (s1 := s <| progress_ := touch_all (progress_ s) ps |>).
  apply (rounds_push s1 (broadcast_to s <$> ps)).
  - by apply (rounds_view s).
  - intros m (p & -> & _)%list_elem_of_fmap. exact (broadcast_asks s p H).
Qed.

(** ** Role changes *)

(** Roles change, the term grows, and nothing is produced. *)
Lemma rounds_role s s' :
  rounds s -> id_ s' = id_ s -> peers_ s' = peers_ s -> msgs_ s' = msgs_ s -> restore_env s' = restore_env s -> next_read_context_ s' = next_read_context_ s ->
  read_index_pending_ s' = false -> pending_read_context_ s' = 0 -> read_index_acks_ s' = ∅ ->
  term_ s <= term_ s' ->
  (term_ s' = term_ s -> state_ s' = Candidate -> state_ s = Candidate) ->
  (term_ s' = term_ s -> state_ s' = Leader -> state_ s = Candidate \/ state_ s = Leader) -> rounds s'.
Proof.
  intros [H0 Hp H1 H2 H3 H4 H5 H6 H7 H8 H9] E1 Ep Em Ee E3 E4 E5 E6 Ht Hc Hl.
  assert (outs s' = outs s) as E2 by (unfold outs; congruence).
  split; rewrite ?Ee, ?Ep, ?E3, ?E4, ?E5, ?E6; try done; try lia.
  - intros m Hm. rewrite E2 in Hm. unfold spent in *. rewrite E1, E3. intros Ha Hf.
    destruct (H7 m Hm Ha Hf) as [|(Et & Hs & Hx)]; [left; lia|].
    destruct (decide (term_ s' = term_ s)) as [E|]; [right|left; lia].
    rewrite E. split; [done|]. specialize (Hc E). specialize (Hl E). split; intros Hs'; [auto|].
    destruct (Hl Hs'); [done|auto].
  - intros m Hm. rewrite E2 in Hm. unfold own. rewrite E1. by apply H8.
Qed.

Lemma rounds_follower s term leader g r w failed :
  rounds s -> term_ s <= term -> rounds (as_follower s term leader g r w failed).
Proof. intros H Ht. by apply (rounds_role s). Qed.

Lemma rounds_candidate s g r w failed :
  rounds s -> state_ s <> Leader -> term_ s + 1 < u64_max ->
  rounds (as_candidate s g r w failed).
Proof.
  intros H Hs Ht. pose proof H as []. destruct (rd_none0 (rd_idle0 Hs)).
  assert (u64 (term_ s + 1) = term_ s + 1) as E by (apply u64_small; unfold_words; lia).
  apply (rounds_role s); cbn; rewrite ?E; auto; lia.
Qed.

Lemma rounds_pre_candidate s :
  rounds s -> state_ s <> Leader -> rounds (s <| state_ := PreCandidate |>).
Proof.
  intros H Hs. pose proof H as []. destruct (rd_none0 (rd_idle0 Hs)). apply (rounds_role s); auto; try done.
Qed.

Lemma rounds_leader s : rounds s -> state_ s = Candidate -> rounds (as_leader s).
Proof.
  intros H Hs. pose proof H as []. destruct (rd_none0 (rd_idle0 ltac:(congruence))).
  apply (rounds_role s); cbn; auto; try done. apply rd_idle0. congruence.
Qed.

(** ** Symbolic execution, keeping the messages of a broadcast *)

Lemma wp_broadcast_eq Q (E : exn -> node -> Prop) s :
  Q tt (broadcasted s (others s)) -> wp broadcast_heartbeat Q E s.
Proof. intros H. unfold wp. by rewrite broadcast_eq. Qed.

Ltac round_rule :=
  lazymatch goal with
  | |- wp broadcast_heartbeat _ _ _ => apply wp_broadcast_eq; cbv beta
  | _ => raft_rule
  end.
Ltac round_steps := repeat first [wp_step | round_rule].

Ltac same_view :=
  repeat lazymatch goal with
  | |- rounds (set ?f _ ?s) => apply (rounds_view s); [apply unseen_view; apply _|]
  end.

Definition tidy {A} (m : M node A) s : Prop := wp m (fun _ => rounds) (fun _ => rounds) s.

(** Messages that neither ask nor confirm. *)
Definition plain m : Prop :=
  Message.type m <> Message.MsgAppendEntries /\
  (Message.type m <> Message.MsgAppendEntriesResponse \/ Message.success m = false).

Lemma plain_ok s m : plain m -> spent s m /\ own s m.
Proof.
  intros [Ha Hr]. split; [by intros [? _]|]. split; [by intros [? _]|].
  intros (? & ? & _). destruct Hr; congruence.
Qed.

Lemma rounds_plain s ms :
  rounds s -> Forall plain ms -> rounds (s <| msgs_ := msgs_ s ++ ms |>).
Proof.
  intros H Hp. apply rounds_push; [done|]. intros m Hm. apply plain_ok.
  by apply (proj1 (list.Forall_forall _ _) Hp).
Qed.

Lemma rounds_pre_campaigned s : rounds s -> rounds (pre_campaigned s).
Proof.
  intros H. unfold pre_campaigned. cbv zeta. apply rounds_plain; [by same_view|].
  apply Forall_fmap, list.Forall_forall. intros p _. split; [done|by left].
Qed.

Lemma rounds_campaigned s : rounds s -> rounds (campaigned s).
Proof.
  intros H. unfold campaigned. cbv zeta. apply rounds_plain; [by same_view|].
  apply Forall_fmap, list.Forall_forall. intros p _. split; [done|by left].
Qed.

(** What is left of a handler that only pushed plain messages, broadcast or
    stepped down. *)
Ltac leaf :=
  repeat lazymatch goal with
  | H : rounds ?s |- rounds ?s => exact H
  | |- rounds (if ?b then _ else _) => destruct b
  | |- rounds (as_follower _ _ _ _ _ _ _) => apply rounds_follower; [|guards; lia]
  | |- rounds (broadcasted _ _) => apply rounds_broadcasted
  | |- rounds (pre_campaigned _) => apply rounds_pre_campaigned
  | |- rounds (campaigned _) => apply rounds_campaigned
  | |- rounds (_ <| msgs_ := _ ++ [_] |>) =>
      apply rounds_plain; [|apply Forall_singleton; split; [done|auto; fail]]
  | |- rounds (set ?f _ ?s) => apply (rounds_view s); [apply unseen_view; apply _|]
  end.

Lemma tidy_tick s : rounds s -> tidy tick s.
Proof.
  intros H. unfold tidy, tick, become_pre_candidate. round_steps; leaf.
  all: apply rounds_pre_candidate; [leaf|done].
Qed.

Lemma tidy_request_vote msg s : rounds s -> tidy (handle_request_vote msg ≫= send) s.
Proof. intros H. unfold tidy, handle_request_vote. round_steps; leaf. Qed.

Lemma tidy_request_vote_response msg s : rounds s -> tidy (handle_request_vote_response msg) s.
Proof.
  intros H. unfold tidy, handle_request_vote_response. round_steps; leaf.
  all: apply rounds_leader; [leaf|by guards].
Qed.

Lemma tidy_pre_vote msg s : rounds s -> tidy (handle_pre_vote msg ≫= send) s.
Proof. intros H. unfold tidy, handle_pre_vote. round_steps; leaf. Qed.

Lemma tidy_pre_vote_response msg s :
  rounds s -> term_ s + 1 < u64_max -> tidy (handle_pre_vote_response msg) s.
Proof.
  intros H Hr. unfold tidy, handle_pre_vote_response. round_steps; leaf.
  all: apply rounds_candidate; [leaf| |done]; guards; cbn; congruence.
Qed.

(** *** Messages from a leader *)

Lemma rounds_prepare msg s :
  rounds s ->
  wp (prepare_for_leader_rpc msg)
    (fun ok s' => rounds s' /\ id_ s' = id_ s /\ (ok = true -> term_ s' = Message.term msg))
    (fun _ => rounds) s.
Proof.
  intros H. unfold prepare_for_leader_rpc. round_steps;
    lazymatch goal with |- _ /\ _ => split; [leaf|split; [done|]] | _ => leaf end; try done.
  all: intros _; cbn in *; guards; lia.
Qed.

(** A confirmation of the question that is being answered. *)
Lemma rounds_confirm msg response s :
  rounds s -> msg ∈ net -> Message.type msg = Message.MsgAppendEntries ->
  term_ s = Message.term msg -> Message.type response = Message.MsgAppendEntriesResponse ->
  Message.from response = id_ s -> Message.to response = Message.from msg ->
  Message.term response = term_ s -> Message.read_context response = Message.read_context msg ->
  rounds (s <| msgs_ := msgs_ s ++ [response] |>).
Proof.
  intros H Hin Hty Ht Er Ef Et Eterm Ec. pose proof (rd_term _ H). apply rounds_push; [done|].
  intros m ->%list_elem_of_singleton. split; [by intros [E _]; rewrite Er in E|].
  split; [by intros [E _]; rewrite Er in E|]. intros (_ & _ & Hx). split; [done|]. split; [|right; lia].
  exists msg. unfold asks. split_and!; try done; congruence.
Qed.

Lemma tidy_append_entries msg s :
  rounds s -> msg ∈ net -> Message.type msg = Message.MsgAppendEntries ->
  tidy (handle_append_entries msg ≫= send) s.
Proof.
  intros H Hin Hty. unfold tidy, handle_append_entries. do 4 wp_step.
  eapply wp_mono; [apply (rounds_prepare msg s H)| |done].
  cbv beta. intros ok s' (H' & Ei & Et). round_steps; leaf.
  all: apply (rounds_confirm msg); try done; leaf; by apply Et; guards.
Qed.

(** *** Responses to the leader *)

Lemma rounds_ack msg s :
  rounds s -> msg ∈ net -> confirms msg -> misaddressed s msg = false ->
  Message.term msg = term_ s -> Message.read_context msg = pending_read_context_ s ->
  read_index_pending_ s = true ->
  rounds (s <| read_index_acks_ := <[Message.from msg := true]> (read_index_acks_ s) |>).
Proof.
  intros [H0 Hp H1 H2 H3 H4 H5 H6 H7 H8 H9] Hin Hc Ha Ht Hx Hpd. split; try done.
  - cbn. congruence.
  - intros a Hl. change (<[Message.from msg := true]> (read_index_acks_ s) !! a = Some true) in Hl.
    apply lookup_insert_Some in Hl as [[<- _]|[_ H]]; [|by apply H6].
    unfold misaddressed, is_member in Ha. guards. split; [done|]. split; [done|]. by exists msg.
Qed.

Lemma tidy_append_entries_response msg s :
  rounds s -> msg ∈ net -> Message.type msg = Message.MsgAppendEntriesResponse ->
  tidy (handle_append_entries_response msg) s.
Proof.
  intros H Hin Hty. unfold tidy, handle_append_entries_response, set_match, touch_progress.
  round_steps; leaf.
  all: apply (rounds_ack msg); leaf; try done; cbn in *; guards; try done; try lia.
  all: split; [done|]; split; [done|lia].
Qed.

Lemma tidy_install_snapshot_response msg s :
  rounds s -> tidy (handle_install_snapshot_response msg) s.
Proof. intros H. unfold tidy, handle_install_snapshot_response, set_match. round_steps; leaf. Qed.

(** Any message but a snapshot. *)
Lemma tidy_deliver msg s :
  rounds s -> msg ∈ net -> Message.type msg <> Message.MsgInstallSnapshot ->
  term_ s + 1 < u64_max -> tidy (deliver msg) s.
Proof.
  intros H Hin Hty Hr. unfold deliver. cbv zeta.
  repeat match goal with
  | |- tidy (if ?b then _ else _) s => destruct b eqn:?; [guards|]
  end.
  - by apply tidy_request_vote.
  - by apply tidy_request_vote_response.
  - by apply tidy_pre_vote.
  - by apply tidy_pre_vote_response.
  - by apply tidy_append_entries.
  - by apply tidy_append_entries_response.
  - done.
  - by apply tidy_install_snapshot_response.
  - exact H.
Qed.

(** ** Rounds are opened and closed *)

Lemma rounds_closed s :
  rounds s ->
  rounds (s <| read_index_pending_ := false |> <| pending_read_index_ := 0 |>
            <| pending_read_context_ := 0 |> <| read_index_acks_ := ∅ |>).
Proof. intros H. apply (rounds_role s); auto; done. Qed.

Lemma tidy_finish tok s : rounds s -> tidy (finish_read_index tok) s.
Proof.
  intros H. unfold tidy, finish_read_index. round_steps; [done|]. by apply rounds_closed.
Qed.

Lemma tidy_propose data s : rounds s -> tidy (propose data) s.
Proof. intros H. unfold tidy, propose. round_steps; leaf. Qed.

(** The index a round that opens in [s] waits for. *)
Definition round_index s : Z :=
  if has_committed_entry_in_current_term s then commit_index_ s else u64 (last_log_index s + 1).

(** A round is being opened. *)
Definition opening s : node :=
  s <| read_index_pending_ := true |> <| pending_read_context_ := next_read_context_ s |>
    <| next_read_context_ := u64 (next_read_context_ s + 1) |> <| read_index_acks_ := ∅ |>.

Lemma opening_index s : round_index (opening s) = round_index s.
Proof. done. Qed.

Lemma rounds_opened s index :
  rounds s -> state_ s = Leader -> next_read_context_ s + 1 < u64_max ->
  P (next_read_context_ s) index (term_ s) ->
  rounds ((opening s) <| pending_read_index_ := index |>).
Proof.
  intros [H0 Hp H1 H2 H3 H4 H5 H6 H7 H8 H9] Hl Hr HP.
  assert (u64 (next_read_context_ s + 1) = next_read_context_ s + 1) as E
    by (apply u64_small; unfold_words; lia).
  unfold opening. split; cbn; rewrite ?E; try done; try lia.
  - split; [lia|done].
  - intros m Hm Ha Hf. destruct (H7 m Hm Ha Hf) as [|(Et & Hs & Hx)]; [by left|right].
    split; [done|]. split; [done|]. intros Hs'. specialize (Hx Hs'). cbn. lia.
Qed.

(** The rest of [read_index] then. *)
Definition open_round : M node (option ReadIndexToken) :=
  s ← get;
  if negb (has_committed_entry_in_current_term s) then
    pending_read_index_ <~ u64 (last_log_index s + 1) ;;
    proposed ← propose [];
    s ← get;
    match proposed with
    | None =>
        finish_read_index (MkToken (pending_read_context_ s) (pending_read_index_ s)) ;;
        mret None
    | Some _ => mret (Some (MkToken (pending_read_context_ s) (pending_read_index_ s)))
    end
  else
    pending_read_index_ <~ commit_index_ s ;;
    broadcast_heartbeat ;;
    s ← get;
    mret (Some (MkToken (pending_read_context_ s) (pending_read_index_ s))).

Lemma read_index_opens s :
  state_ s = Leader -> storage_failed_ s = false -> read_index_pending_ s = false ->
  u64 (next_read_context_ s + 1) <> 0 -> read_index s = open_round (opening s).
Proof.
  intros Hl Hs Hp Hx. unfold read_index, open_round. run_m. rewrite Hl, Hs, Hp.
  rewrite bool_decide_eq_true_2 by done. cbv beta iota delta [negb orb].
  destruct (Z.eqb_spec (next_read_context_ (s <| read_index_pending_ := true |>
    <| pending_read_context_ := next_read_context_ s |>
    <| next_read_context_ := u64 (next_read_context_ s + 1) |>)) 0) as [E|_]; [done|].
  fold (opening s). reflexivity.
Qed.

Lemma tidy_open_round s :
  rounds (s <| pending_read_index_ := round_index s |>) -> tidy open_round s.
Proof.
  intros H. unfold tidy, open_round, round_index in *. do 2 wp_step.
  wp_step; [apply negb_true_iff in Hif|apply negb_false_iff in Hif]; rewrite Hif in H; do 3 wp_step.
  - eapply wp_mono; [by apply tidy_propose| |done].
    cbv beta. intros [index|] s' H'; do 2 wp_step; [by wp_step|]. wp_step.
    eapply wp_mono; [by apply tidy_finish| |done]. by intros.
  - round_steps. by apply rounds_broadcasted.
Qed.

Lemma tidy_read_index s :
  rounds s -> next_read_context_ s + 1 < u64_max ->
  (state_ s = Leader -> P (next_read_context_ s) (round_index s) (term_ s)) ->
  tidy read_index s.
Proof.
  intros H Hr HP. destruct (decide (state_ s = Leader)) as [Hl|Hl].
  2:{ unfold tidy, read_index. round_steps; (done || by guards). }
  destruct (storage_failed_ s) eqn:Hs.
  { unfold tidy, read_index. do 3 wp_step; [by wp_step|]. guards. congruence. }
  destruct (read_index_pending_ s) eqn:Hp.
  { unfold tidy, read_index. do 3 wp_step; [by wp_step|]. wp_step; [by wp_step|congruence]. }
  unfold tidy, wp. rewrite read_index_opens; try done.
  - apply tidy_open_round. rewrite opening_index. by apply rounds_opened; auto.
  - pose proof (rd_next _ H). rewrite u64_small; unfold_words; lia.
Qed.

Lemma tidy_take_snapshot index state s : rounds s -> tidy (take_snapshot index state) s.
Proof. intros H. unfold tidy, take_snapshot. round_steps; leaf. Qed.

End Since.

(** ** The process's own members *)

(** Nothing is sent, no message arrives, and only tasks in [C] are posted to the
    store's loop. *)
Section Aside.
Context (C : store_task -> Prop).

Definition same_traffic (i i' : Impl.t) : Prop :=
  Impl.sent i' = Impl.sent i /\
  (forall m, HandleMessage m ∈ Impl.raft_io_ i' -> HandleMessage m ∈ Impl.raft_io_ i) /\
  (forall task, task ∈ Impl.store_io_ i' -> task ∈ Impl.store_io_ i \/ C task).

Definition aside {A} (m : M Impl.t A) : Prop := forall i, same_traffic i (snd (m i)).

Lemma traffic_same i i' :
  Impl.sent i' = Impl.sent i -> Impl.raft_io_ i' = Impl.raft_io_ i ->
  Impl.store_io_ i' = Impl.store_io_ i -> same_traffic i i'.
Proof. intros E1 E2 E3. split; [done|]. rewrite E2, E3. auto. Qed.

Lemma aside_modify h :
  (forall i, Impl.sent (h i) = Impl.sent i /\ Impl.raft_io_ (h i) = Impl.raft_io_ i /\
     Impl.store_io_ (h i) = Impl.store_io_ i) -> aside (modify h).
Proof. intros Hh i. destruct (Hh i) as (? & ? & ?). by apply traffic_same. Qed.

Lemma aside_ret {A} (a : A) : aside (mret a).
Proof. intros i. by apply traffic_same. Qed.

Lemma aside_get : aside get.
Proof. intros i. by apply traffic_same. Qed.

Lemma aside_lift {A} (r : result A) : aside (lift r).
Proof. intros i. destruct r; by apply traffic_same. Qed.

Lemma aside_bind {A B} (m : M Impl.t A) (f : A -> M Impl.t B) :
  aside m -> (forall a, aside (f a)) -> aside (m ≫= f).
Proof.
  intros Hm Hf i. specialize (Hm i). unfold mbind, M_bind.
  destruct (m i) as [[a|e] i1]; [|done]. destruct (Hf a i1) as (E & H & Hs), Hm as (E' & H' & Hs').
  split; [by rewrite E|]. split; [auto|]. intros task [Ht|]%Hs; auto.
Qed.

Lemma aside_for_each {A} (l : list A) (body : A -> M Impl.t unit) :
  (forall a, aside (body a)) -> aside (for_each l body).
Proof. intros Hb. induction l as [|a l IH]; [apply aside_ret|]. cbn. by apply aside_bind. Qed.

Lemma aside_post_raft task :
  (forall m, task <> HandleMessage m) -> aside (post_raft task).
Proof.
  intros Ht i. split; [done|]. split; [|by left]. intros m.
  change (Impl.raft_io_ _) with (Impl.raft_io_ i ++ [task]) at 1.
  rewrite elem_of_app, list_elem_of_singleton. intros [H|<-]; [done|by destruct (Ht m)].
Qed.

Lemma aside_post_store task : C task -> aside (post_store task).
Proof.
  intros Ht i. split; [done|]. split; [done|]. intros task'.
  change (Impl.store_io_ _) with (Impl.store_io_ i ++ [task]) at 1.
  rewrite elem_of_app, list_elem_of_singleton. intros [H|<-]; auto.
Qed.

End Aside.
End Rounds.

Ltac aside_step :=
  lazymatch goal with
  | |- aside _ (_ ≫= _) => apply aside_bind; [|intros ?]
  | |- aside _ (mret _) => apply aside_ret
  | |- aside _ get => apply aside_get
  | |- aside _ (lift _) => apply aside_lift
  | |- aside _ (modify _) => apply aside_modify; intros ?; by split_and!
  | |- aside _ (when ?b _) => destruct b; cbn [when]
  | |- aside _ (for_each _ _) => apply aside_for_each; intros ?
  | |- aside _ (post_raft _) => apply aside_post_raft; done
  | |- aside _ (post_store _) => apply aside_post_store; by try intros ?
  | |- aside _ (let _ := _ in _) => cbv zeta
  | |- aside _ (match ?x with _ => _ end) => destruct x
  end.
Create HintDb aside_db.
Ltac aside_by := intros; repeat aside_step; auto with aside_db.

Section AsideHandlers.
Context {CP : MsgPack Command.t} {MP : MapPack} (C : store_task -> Prop).

Lemma aside_reply reply encoded : aside C (reply_to reply encoded).
Proof. unfold reply_to. aside_by. Qed.
#[local] Hint Resolve aside_reply : aside_db.

Lemma aside_stop reason : aside C (request_stop reason).
Proof. unfold request_stop. aside_by. Qed.
#[local] Hint Resolve aside_stop : aside_db.

Lemma aside_reject_write request_id error : aside C (reject_write request_id error).
Proof. unfold reject_write. aside_by. Qed.
#[local] Hint Resolve aside_reject_write : aside_db.

Lemma aside_reject_read request_id error : aside C (reject_read request_id error).
Proof. unfold reject_read. aside_by. Qed.
#[local] Hint Resolve aside_reject_read : aside_db.

Lemma aside_store_task task : aside C (run_store_task task).
Proof.
  destruct task; cbn [run_store_task];
    unfold complete_read, apply_committed_entry, complete_write, acknowledge_applied,
      capture_snapshot, restore_store, stop_store; aside_by.
Qed.

Lemma aside_client command reply now : aside C (handle_client_command command reply now).
Proof.
  unfold handle_client_command, begin_read, begin_write, allocate_request_id, reply_error. aside_by.
Qed.

Lemma aside_expire now : aside C (expire_client_requests now).
Proof. unfold expire_client_requests. aside_by. Qed.

Lemma aside_failed : aside C loop_failed.
Proof. unfold loop_failed. aside_by. Qed.

Lemma aside_next_send : aside C next_send.
Proof. unfold next_send. aside_by. Qed.

End AsideHandlers.
