(* ===== verification/ReadEvents.v ===== *)
(** * Read rounds, event by event

    Whatever a process does next, its rounds stay as they were described, and a
    read is only handed to the store's loop when its round is complete and the
    index the round waits for is applied. *)

From S2P Require Import Prelude Msgpack Proto Wal KvStore RespCodec NodeConfig Raft RaftNode.
From S2P Require Import Runtime RaftSpec Cluster RuntimeSim ReadRounds.
Import Raft.

Section Events.
Context {R : Rng} {WP : WalPack} {CP : MsgPack Command.t} {MP : MapPack}.
Abbreviation node := (t Impl.t).
Context (n : Z) (net old : list Message.t) (t0 x0 : Z) (P : Z -> Z -> Z -> Prop).
Abbreviation rounds := (rounds n net old t0 x0 P).
Implicit Types (s : node) (msg : Message.t).

Hypothesis no_snapshots : forall m, m ∈ net -> Message.type m <> Message.MsgInstallSnapshot.

(** Requests in [ids] are completed only when what is applied is in [D]. *)
Context (ids : Z -> Prop) (D : Z -> Prop).
Hypothesis D_mono : forall a b, a <= b -> D a -> D b.
Hypothesis D_ready : forall s tok, rounds s -> read_index_ready s tok = true -> D (last_applied_ s).

Record live s : Prop := {
  lv_rounds : rounds s;
  lv_done : forall id, ids id -> CompleteRead id ∈ Impl.store_io_ (restore_env s) ->
    D (last_applied_ s);
}.

Definition lively {A} (m : M node A) s : Prop := wp m (fun _ => live) (fun _ => live) s.

Lemma lively_bind {A B} (m : M node A) (k : A -> M node B) s :
  lively m s -> (forall a s', live s' -> lively (k a) s') -> lively (m ≫= k) s.
Proof. intros Hm Hk. apply wp_bind. eapply wp_mono; [exact Hm|exact Hk|done]. Qed.

Lemma lively_get {A} (k : node -> M node A) s : lively (k s) s -> lively (get ≫= k) s.
Proof. done. Qed.

Lemma lively_impl {A} (k : Impl.t -> M node A) s :
  lively (k (restore_env s)) s -> lively (impl ≫= k) s.
Proof. done. Qed.

(** The member functions of the Raft core. *)
Lemma lively_core {A} (m : M node A) s :
  live s -> framed m -> tidy n net old t0 x0 P m s -> lively m s.
Proof.
  intros [Hr Hd] Hf Hm. destruct (Hf s) as (Ee & Ea & _).
  assert (live (snd (m s))) as H by (split; [exact (wp_snd _ _ _ Hm)|by rewrite Ee, Ea]).
  unfold lively, wp. by destruct (m s) as [[] s'].
Qed.

(** The process's own members. *)
Definition quiet (task : store_task) : Prop := forall id, task <> CompleteRead id.

Lemma rounds_traffic C s i :
  rounds s -> same_traffic C (restore_env s) i -> rounds (s <| restore_env := i |>).
Proof.
  intros [H0 Hp H1 H2 H3 H4 H5 H6 H7 H8 H9] (E & Hq & _).
  assert (outs (s <| restore_env := i |>) = outs s) as Eo by (unfold outs; cbn; by rewrite E).
  split; try done.
  - intros m Hm. rewrite Eo in Hm. exact (H7 m Hm).
  - intros m Hm. rewrite Eo in Hm. exact (H8 m Hm).
  - intros m Hm. apply H9, Hq, Hm.
Qed.

Lemma live_traffic s i :
  live s -> same_traffic quiet (restore_env s) i -> live (s <| restore_env := i |>).
Proof.
  intros [Hr Hd] Ht. split; [by eapply rounds_traffic|]. intros id Hid Hin.
  destruct Ht as (_ & _ & Hs). destruct (Hs _ Hin) as [H|H]; [by apply (Hd id)|by destruct (H id)].
Qed.

Lemma lively_on_impl {A} (m : M Impl.t A) s : aside quiet m -> live s -> lively (on_impl m) s.
Proof.
  intros Hm H. pose proof (live_traffic s _ H (Hm (restore_env s))) as H'. unfold lively, wp, on_impl.
  by destruct (m (restore_env s)) as [[] i].
Qed.

(** ** After every handler of the Raft loop *)

Definition flushed (messages : list Message.t) (i i' : Impl.t) : Prop :=
  (forall m, m ∈ Impl.sent i' -> m ∈ messages \/ m ∈ Impl.sent i) /\
  (forall m, HandleMessage m ∈ Impl.raft_io_ i' -> HandleMessage m ∈ Impl.raft_io_ i) /\
  (forall id, CompleteRead id ∈ Impl.store_io_ i' -> CompleteRead id ∈ Impl.store_io_ i).

Lemma flushed_aside {A} (m : M Impl.t A) messages i i' :
  aside quiet m -> flushed messages i i' ->
  wp m (fun _ => flushed messages i) (fun _ => flushed messages i) i'.
Proof.
  intros Hm (H1 & H2 & H3). destruct (Hm i') as (E & Hq & Hs).
  assert (flushed messages i (snd (m i'))) as H.
  { split; [by rewrite E|]. split; [auto|]. intros id [Hin|Hc]%Hs; [auto|by destruct (Hc id)]. }
  unfold wp. by destruct (m i') as [[] i''].
Qed.

Lemma wp_flush all i messages : forall i',
  (forall m, m ∈ messages -> m ∈ all) -> flushed all i i' ->
  wp (flush_loop messages) (fun _ => flushed all i) (fun _ => flushed all i) i'.
Proof.
  induction messages as [|message messages IH]; intros i' Hin H; [done|].
  cbn [flush_loop]. do 2 wp_step. wp_step; [apply IH; [set_solver|done]|]. wp_step.
  eapply wp_mono; [apply (flushed_aside next_send all i); [apply aside_next_send|done]| |done].
  cbv beta. intros o i1 H1. destruct o.
  - do 4 wp_step. apply IH; [set_solver|]. destruct H1 as [Hs Hq]. split; [|done]. cbn. intros m.
    rewrite elem_of_app, list_elem_of_singleton. intros [Hm| ->]; [auto|left; set_solver].
  - by apply flushed_aside; [apply aside_stop|].
  - by apply flushed_aside; [apply aside_stop|].
Qed.

Lemma live_flushed s i :
  live s -> flushed (msgs_ s) (restore_env s) i -> live (s <| msgs_ := [] |> <| restore_env := i |>).
Proof.
  intros [[H0 Hp H1 H2 H3 H4 H5 H6 H7 H8 H9] Hd] (Hs & Hq & Hc).
  assert (forall m, m ∈ Impl.sent i -> m ∈ outs s) as Ho.
  { intros m Hm. apply elem_of_app. by apply Hs. }
  split; [split; try done|].
  - intros m Hm. apply (H7 m). destruct Hm as [Hm|Hm]; [by left|right; by apply Ho].
  - intros m Hm. apply (H8 m). by apply Ho.
  - intros m Hm. by apply H9, Hq.
  - intros id Hid Hin. by apply (Hd id Hid), Hc.
Qed.

Lemma lively_flush s : live s -> lively flush_raft_messages s.
Proof.
  intros H. apply wp_bind. unfold read_messages. do 4 wp_step. unfold wp, on_impl. cbn.
  assert (flushed (msgs_ s) (restore_env s) (restore_env s)) as Hf by (split; auto).
  pose proof (wp_snd _ _ _ (wp_flush _ _ (msgs_ s) _ (fun _ x => x) Hf)) as Hs.
  pose proof (live_flushed s _ H Hs) as H'. destruct (flush_loop _ _) as [r i]. by destruct r.
Qed.

Lemma lively_dispatch s : live s -> lively dispatch_next_committed_entry s.
Proof.
  intros H. unfold dispatch_next_committed_entry. apply lively_get, lively_impl.
  case_match; [done|]. case_match; [|done]. apply lively_on_impl; [aside_by|done].
Qed.

Lemma lively_capture s : live s -> lively maybe_capture_snapshot s.
Proof.
  intros H. unfold maybe_capture_snapshot. apply lively_get, lively_impl.
  case_match; [done|]. apply lively_on_impl; [aside_by|done].
Qed.

Lemma lively_finish tok s : live s -> lively (finish_read_index tok) s.
Proof. intros H. apply lively_core; [done|apply framed_finish|apply tidy_finish, H]. Qed.

(** Once the index is applied, any task may be posted. *)
Lemma live_done s i C :
  live s -> D (last_applied_ s) -> same_traffic C (restore_env s) i ->
  live (s <| restore_env := i |>).
Proof. intros [Hr Hd] H Ht. split; [by eapply rounds_traffic|]. by intros. Qed.

Lemma lively_poll s : live s -> lively poll_read_indexes s.
Proof.
  intros H. unfold poll_read_indexes. apply lively_get, lively_impl. cbv zeta.
  case_decide; [done|]. case_match; [by apply lively_on_impl; [aside_by|]|].
  destruct (filter _ _) as [|[r tok] l] eqn:Ef; [done|].
  assert (D (last_applied_ s)) as Hdone.
  { apply (D_ready s tok); [apply H|].
    assert ((r, tok) ∈ (r, tok) :: l) as Hin by set_solver. rewrite <- Ef in Hin.
    by apply list_elem_of_filter in Hin as [Hin _]. }
  set (s1 := s <| restore_env := (restore_env s) <| Impl.raft_read_indexes_ :=
    filter (fun p => same_token (snd p) tok = false) (Impl.raft_read_indexes_ (restore_env s)) |> |>).
  assert (live s1) as Hl by (by apply live_traffic; [|apply traffic_same]).
  change (lively (finish_read_index tok ;; on_impl (for_each (fst <$> filter
    (fun p => same_token (snd p) tok = true) (map_to_list (Impl.raft_read_indexes_ (restore_env s))))
    (fun request_id => post_store (CompleteRead request_id)))) s1).
  pose proof (wp_snd _ _ _ (lively_finish tok s1 Hl)) as Hl2.
  destruct (framed_finish tok s1) as (_ & Ea & _). change (last_applied_ s1) with (last_applied_ s) in Ea.
  apply wp_bind. unfold wp at 1. destruct (finish_read_index tok s1) as [[[]|e] s2]; [|done].
  cbn in Hl2, Ea. rewrite <- Ea in Hdone.
  match goal with |- wp (on_impl ?m) _ _ _ => assert (aside (fun _ => True) m) as Hm by aside_by;
    pose proof (live_done s2 _ _ Hl2 Hdone (Hm (restore_env s2))) as H'; unfold wp, on_impl;
    by destruct (m (restore_env s2)) as [[] i] end.
Qed.

Lemma lively_log force s : live s -> lively (log_status_if_changed force) s.
Proof.
  intros H. unfold log_status_if_changed. apply lively_get, lively_impl.
  case_match; [done|]. apply lively_on_impl; [unfold print; aside_by|done].
Qed.

Lemma lively_after s : live s -> lively after_raft_activity s.
Proof.
  intros H. unfold after_raft_activity. apply lively_get.
  case_match; [by apply lively_on_impl; [apply aside_stop|]|].
  apply lively_bind; [by apply lively_dispatch|intros _ s1 L1].
  apply lively_bind; [by apply lively_poll|intros _ s2 L2].
  apply lively_bind; [by apply lively_capture|intros _ s3 L3].
  apply lively_bind; [by apply lively_flush|intros _ s4 L4]. by apply lively_log.
Qed.

(** ** The handlers *)

Lemma lively_cancel request_id s : live s -> lively (cancel_raft_read request_id) s.
Proof.
  intros H. unfold cancel_raft_read. apply lively_impl. case_match; [|done]. cbv zeta.
  apply lively_bind; [by apply lively_on_impl; [aside_by|]|intros _ s1 L1].
  case_match; [done|]. by apply lively_finish.
Qed.

Lemma lively_advance index s : live s -> last_applied_ s < index -> lively (advance index) s.
Proof.
  intros [Hr Hd] Hi. unfold lively, advance. do 2 wp_step. wp_step; wp_step; [by split|].
  split; [by apply (rounds_view _ _ _ _ _ _ s)|]. intros id Hid Hin. apply (D_mono (last_applied_ s)).
  - cbn. lia.
  - by apply (Hd id).
Qed.

Lemma lively_applied index s : live s -> lively (applied_task index) s.
Proof.
  intros H. unfold applied_task. apply lively_get, lively_impl.
  destruct (index <=? last_applied_ s) eqn:Hi; [done|]. guards.
  case_match; [by apply lively_on_impl; [apply aside_stop|]|].
  apply lively_bind; [by apply lively_advance|intros _ s1 L1].
  apply lively_get. case_match; [by apply lively_on_impl; [apply aside_stop|]|].
  apply lively_bind; [by apply lively_on_impl; [aside_by|]|intros _ s2 L2]. by apply lively_after.
Qed.

Lemma framed_take_snapshot index state : framed (take_snapshot (Env := Impl.t) index state).
Proof. unfold take_snapshot. framed_by. Qed.

Lemma lively_snapshot index state s : live s -> lively (snapshot_task index state) s.
Proof.
  intros H. unfold snapshot_task.
  apply lively_bind; [by apply lively_on_impl; [aside_by|]|intros _ s1 L1].
  apply lively_impl. case_match; [done|].
  apply lively_bind; [|intros _ s2 L2; by apply lively_after].
  apply lively_core; [done|apply framed_take_snapshot|apply tidy_take_snapshot, L1].
Qed.

Lemma lively_message msg s :
  live s -> msg ∈ net -> term_ s + 1 < u64_max -> lively (handle_raft_message msg) s.
Proof.
  intros H Hin Hr. unfold handle_raft_message. case_match; [done|].
  apply lively_bind; [|intros _ s2 L2; by apply lively_after].
  apply lively_core; [done|by apply framed_deliver; auto|apply tidy_deliver; auto; apply H].
Qed.

Lemma lively_propose request_id data s : live s -> lively (propose_task request_id data) s.
Proof.
  intros H. unfold propose_task. apply lively_bind.
  { apply lively_core; [done|apply framed_propose|apply tidy_propose, H]. }
  intros accepted s1 L1. apply lively_get.
  apply lively_bind; [|intros _ s2 L2; by apply lively_after].
  case_match; [done|by apply lively_on_impl; [aside_by|]].
Qed.

(** A round that [s] would open is one [P] speaks about. *)
Definition may_open s : Prop :=
  state_ s = Leader -> P (next_read_context_ s) (round_index s) (term_ s).

Lemma lively_read request_id s :
  live s -> next_read_context_ s + 1 < u64_max -> may_open s -> lively (read_task request_id) s.
Proof.
  intros H Hr HP. unfold read_task. apply lively_bind.
  { apply lively_core; [done|apply framed_read_index|by apply tidy_read_index; [apply H|..]]. }
  intros token s1 L1. apply lively_get.
  apply lively_bind; [|intros _ s2 L2; by apply lively_after].
  case_match; by apply lively_on_impl; [aside_by|].
Qed.

Lemma lively_raft_task task s :
  live s -> roomy s -> may_open s -> (forall msg, task = HandleMessage msg -> msg ∈ net) ->
  lively (run_raft_task task) s.
Proof.
  intros H (Hr & _ & Hx) HP Hm. unfold run_raft_task. apply lively_impl.
  destruct task; try (case_match; [done|]).
  - by apply lively_message; auto.
  - by apply lively_propose.
  - by apply lively_read.
  - by apply lively_applied.
  - by apply lively_cancel.
  - by apply lively_snapshot.
  - by apply lively_on_impl; [aside_by|].
Qed.

Lemma live_in_loop m s : lively m s -> live (snd (in_loop m s)).
Proof.
  intros Hm. apply wp_snd in Hm. unfold in_loop. destruct (m s) as [[[]|e] s']; [done|].
  by apply (wp_snd (on_impl loop_failed)), lively_on_impl; [apply aside_failed|].
Qed.

(** Whatever a process does. *)
Lemma event_live ev s :
  live s -> roomy s -> may_open s -> (forall msg, ev = Arrival msg -> msg ∈ net) ->
  live (snd (run_event ev s)).
Proof.
  intros H Hr HP Hm. destruct (Impl.loops_stopped (restore_env s)) eqn:Hl.
  { by rewrite run_event_stopped. }
  rewrite run_event_eq by done. destruct ev as [| | |now|command reply now|message|].
  - destruct (Impl.raft_io_ (restore_env s)) as [|task tasks] eqn:Eq; [done|].
    set (s1 := s <| restore_env := (restore_env s) <| Impl.raft_io_ := tasks |> |>).
    assert (live s1) as L1.
    { apply live_traffic; [done|]. split; [done|]. split; [|by left]. rewrite Eq. cbn. set_solver. }
    apply (live_in_loop (run_raft_task task) s1), lively_raft_task; try done.
    intros msg ->. apply (rd_queue _ _ _ _ _ _ s (lv_rounds s H)). rewrite Eq. set_solver.
  - destruct (Impl.store_io_ (restore_env s)) as [|task tasks] eqn:Eq; [done|].
    set (s1 := s <| restore_env := (restore_env s) <| Impl.store_io_ := tasks |> |>).
    assert (live s1) as L1.
    { apply live_traffic; [done|]. split; [done|]. split; [done|]. rewrite Eq. cbn. set_solver. }
    apply (live_in_loop (on_impl (run_store_task task)) s1).
    by apply lively_on_impl; [apply aside_store_task|].
  - apply live_in_loop. unfold tick_timer. apply lively_impl. case_match; [done|].
    apply lively_bind; [|intros _ s1 L1; by apply lively_after].
    apply lively_core; [done|apply framed_tick|apply tidy_tick, H].
  - case_match; [done|]. apply live_in_loop. by apply lively_on_impl; [apply aside_expire|].
  - cbn. apply (wp_snd (on_impl _)), lively_on_impl; [apply aside_client|done].
  - specialize (Hm _ eq_refl). destruct H as [[H0 Hp H1 H2 H3 H4 H5 H6 H7 H8 H9] Hd].
    split; [split; try done|done]. intros m Hin.
    change (HandleMessage m ∈ Impl.raft_io_ (restore_env s) ++ [HandleMessage message]) in Hin.
    apply elem_of_app in Hin as [|[= ->]%list_elem_of_singleton]; [by apply H9|done].
  - by apply (wp_snd (on_impl _)), lively_on_impl; [apply aside_stop|].
Qed.

End Events.
