(* ===== verification/ClusterSim.v ===== *)
(** * The cluster follows the protocol

    The processes, the directories of stopped ones and the messages on the
    network, beside a state of the protocol: every action of the cluster is a
    run of the protocol. *)

From S2P Require Import Prelude Msgpack Proto Wal WalFacts KvStore NodeConfig Raft RaftNode Runtime.
From S2P Require Import RaftSpec RaftSpecInv RaftDisk RaftSim RaftRel BootSim Cluster RuntimeSim.
Import Raft.

(** ** Moves of the others *)

(** The protocol has moved, but not member [n]. *)
Definition untouched (n : Z) (g g' : Spec.t) : Prop :=
  Spec.term g' n = Spec.term g n /\ Spec.vote g' n = Spec.vote g n /\
  Spec.log g' n = Spec.log g n /\ Spec.commit g' n = Spec.commit g n /\
  Spec.role g' n = Spec.role g n /\ Spec.votes g' n = Spec.votes g n /\
  Spec.matched g' n = Spec.matched g n.

Section Others.
Context {PR : Proposals} {members : gset Z}.

Lemma step_untouched n n' g g' : Spec.step members n g g' -> n' <> n -> untouched n' g g'.
Proof.
  intros Hs Hne. destruct Hs; subst; unfold untouched; cbn; unfold Spec.upd;
    rewrite ?decide_False by done; done.
Qed.

Lemma steps_untouched n n' g g' : Spec.steps members n g g' -> n' <> n -> untouched n' g g'.
Proof.
  intros Hs Hne. induction Hs as [|g1 g2 _ IH Hs]; [done|].
  pose proof (step_untouched _ _ _ _ Hs Hne) as H. unfold untouched in *. intuition congruence.
Qed.

Lemma steps_run n g g' : Spec.steps members n g g' -> Spec.run members g g'.
Proof. intros Hs. induction Hs; [constructor|]. by eapply Spec.run_step. Qed.

Lemma run_trans g1 g2 g3 : Spec.run members g1 g2 -> Spec.run members g2 g3 -> Spec.run members g1 g3.
Proof. intros H1 H2. induction H2; [done|]. by eapply Spec.run_step. Qed.
End Others.

Section Follow.
Context {R : Rng} {WP : WalPack} {WL : WalPackLaws}.
Context {CP : MsgPack Command.t} {CL : MsgPackLaws Command.t} {MP : MapPack}.
Abbreviation node := (t Impl.t).
Abbreviation members := (RaftRel.members [1; 2; 3]).
Implicit Types (s : node) (g : Spec.t) (c : cluster).

Lemma disk_rel_untouched n g g' rs : untouched n g g' -> disk_rel n g rs -> disk_rel n g' rs.
Proof.
  intros (E1 & E2 & E3 & E4 & _). unfold disk_rel, durable. by rewrite E1, E2, E3, E4.
Qed.

Lemma down_rel_untouched n g g' files : untouched n g g' -> down_rel n files g -> down_rel n files g'.
Proof.
  intros Hu [Hr Hd]. pose proof Hu as (_ & _ & _ & _ & E & _). split; [by rewrite E|].
  destruct Hd as [[Hf Hd]|(rs & k & Hf & Hk & Hw & Hd)]; [left|right; exists rs, k];
    eauto using disk_rel_untouched.
Qed.

Lemma related_untouched n n' s g g' :
  untouched n g g' -> Spec.steps members n' g g' ->
  related [1; 2; 3] n s g -> related [1; 2; 3] n s g'.
Proof.
  intros Hu Hst (Hm & (Hs & w & rs & Hw & Hl & Hd) & Hms). split; [|split].
  - destruct Hu as (E1 & E2 & E3 & E4 & E5 & E6 & E7). destruct Hm. split; try done;
      rewrite ?E1, ?E2, ?E3, ?E4, ?E5, ?E6, ?E7; done.
  - split; [done|]. exists w, rs. eauto using disk_rel_untouched.
  - by eapply sent_steps.
Qed.

Lemma proc_rel_untouched n n' s g g' :
  untouched n g g' -> Spec.steps members n' g g' -> proc_rel n s g -> proc_rel n s g'.
Proof.
  intros Hu Hst Hp.
  assert (halt_rel n s g -> halt_rel n s g') as Hhalt.
  { intros [Hd Hs]. split; [by eapply down_rel_untouched|by eapply sent_steps]. }
  destruct Hp as [[Hr Hk Hs Ht Hi]|[(Hd & Hs & Hh)|[Hl Hh]]].
  - left. split; [by eapply related_untouched|done|by eapply sent_steps|by eapply task_rel_steps|done].
  - right. left. split; auto.
  - right. right. auto.
Qed.

(** ** The relation *)

Definition proc_ok (n : Z) (p : proc) g : Prop :=
  match p with
  | Up s => n ∈ [1; 2; 3] /\ proc_rel n s g
  | Down files => down_rel n files g
  end.

Record follows c g : Prop := {
  fo_inv : Inv members g;
  fo_valid : Valid g;
  fo_procs : forall n, proc_ok n (procs c n) g;
  fo_network : Forall (msg_rel g) (network c);
}.

(** One process moved. *)
Lemma follows_move c g g' n p extra :
  follows c g -> Spec.steps members n g g' -> proc_ok n p g' -> Forall (msg_rel g') extra ->
  follows (MkCluster (Spec.upd (procs c) n p) (network c ++ extra)) g'.
Proof.
  intros [I V Hp Hn] Hst Hp' Hx. split.
  - by eapply steps_inv.
  - by eapply steps_valid.
  - intros a. cbn. unfold Spec.upd. case_decide as E; [by subst|]. specialize (Hp a).
    pose proof (steps_untouched n a g g' Hst E) as Hu.
    destruct (procs c a); cbn in *; [|by eapply down_rel_untouched].
    destruct Hp. split; [done|]. by eapply proc_rel_untouched.
  - cbn. apply Forall_app. split; [|done]. by eapply sent_steps.
Qed.

Lemma proc_rel_handed_over n s g : proc_rel n s g -> proc_rel n (handed_over s) g.
Proof.
  assert (halt_rel n s g -> halt_rel n (handed_over s) g) as Hhalt.
  { intros [Hd Hs]. split; [done|by constructor]. }
  intros [[Hr Hk Hs Ht Hi]|[(Hd & Hs & Hh)|[Hl Hh]]].
  - left. split; [by apply (related_quiet _ _ s)|by destruct Hk|by constructor|done|done].
  - right. left. split; [done|]. split; [done|]. by apply Hhalt.
  - right. right. split; [done|]. by apply Hhalt.
Qed.

Lemma proc_rel_sent n s g : proc_rel n s g -> Forall (msg_rel g) (Impl.sent (restore_env s)).
Proof. intros [[]|[(_ & _ & [])|[_ []]]]; done. Qed.

Lemma initial_request_id_u64 node_id a b now : is_u64 (initial_request_id node_id a b now).
Proof.
  unfold initial_request_id. case_match; [done|]. repeat apply lxor_u64; apply u64_range.
Qed.

(** A process that has just started. *)
Lemma fresh_node_rel n config m s g :
  is_u64 (NodeConfig.id config) -> fresh config m s -> related [1; 2; 3] n s g -> node_rel n s g.
Proof.
  intros En [(st & lines & E & Hst) Ha _] Hr. pose proof Hr as ([] & _). destruct mr_wf.
  split; [done| |by rewrite E..|rewrite E].
  2:{ split; [done|apply initial_request_id_u64]. }
  split; unfold kv_of; rewrite ?E; [cbn; lia|done|apply Forall_nil|apply Forall_nil].
Qed.

Lemma happens_follows n ev s c g :
  follows c g -> procs c n = Up s -> allowed c (Happens n ev) ->
  exists g', Spec.run members g g' /\ follows (act c (Happens n ev)) g'.
Proof.
  intros Hf Hp Ha. unfold allowed in Ha. rewrite Hp in Ha. destruct Ha as [Ha Hr].
  pose proof (fo_procs _ _ Hf n) as Hn. rewrite Hp in Hn. destruct Hn as [Hm Hn].
  destruct (event_follows n Hm ev s g Hn (fo_inv _ _ Hf) Hr) as (s' & g' & E & Hst & Hp').
  { intros m ->. apply (proj1 (Forall_forall _ _) (fo_network _ _ Hf)), list_elem_of_In, Ha. }
  exists g'. split; [by eapply steps_run|]. unfold act. rewrite Hp, E.
  eapply follows_move; try done; [|by eapply proc_rel_sent].
  split; [done|by apply proc_rel_handed_over].
Qed.

Lemma crash_follows n s c g :
  follows c g -> procs c n = Up s -> exists g', Spec.run members g g' /\ follows (act c (Crash n)) g'.
Proof.
  intros Hf Hp. pose proof (fo_procs _ _ Hf n) as Hn. rewrite Hp in Hn. destruct Hn as [_ Hn].
  assert (exists g', Spec.steps members n g g' /\ down_rel n (files_of s) g') as (g' & Hst & Hd).
  { destruct Hn as [Hn|[(_ & _ & Hd & _)|[_ [Hd _]]]]; [|exists g; by split; [constructor|]..].
    destruct (node_rel_halt n s g Hn) as (g' & Hst & Hd & _). by exists g'. }
  exists g'. split; [by eapply steps_run|]. unfold act. rewrite Hp, <- (app_nil_r (network c)).
  by eapply follows_move.
Qed.

Lemma start_follows config m d files c g :
  follows c g -> procs c (NodeConfig.id config) = Down files ->
  NodeConfig.snapshot_threshold config = 0 ->
  exists g', Spec.run members g g' /\ follows (act c (Start config m d)) g'.
Proof.
  intros Hf Hp Ht. pose proof (fo_procs _ _ Hf (NodeConfig.id config)) as Hn. rewrite Hp in Hn.
  pose proof (boot_outcome config m Ht (d <| Disk.files := files |>) g (fo_inv _ _ Hf) (fo_valid _ _ Hf) Hn) as Hb.
  unfold act. rewrite Hp, <- (app_nil_r (network c)).
  destruct (boot config m _) as [[s|e] d'] eqn:E.
  - destruct Hb as (Hfr & _ & _ & g' & Hst & Hr). exists g'. split; [by eapply steps_run|].
    pose proof (boot_member _ _ _ _ _ E) as Hm. eapply follows_move; try done.
    split; [done|]. left. eapply fresh_node_rel; [|done|done].
    pose proof (three_u64 _ Hm). unfold is_u64. lia.
  - destruct Hb as [_ Hd]. exists g. split; [constructor|].
    eapply follows_move; try done. constructor.
Qed.

(** Every action of the cluster is a run of the protocol. *)
Lemma act_follows c a g :
  follows c g -> allowed c a -> exists g', Spec.run members g g' /\ follows (act c a) g'.
Proof.
  intros Hf Ha.
  assert (exists g', Spec.run members g g' /\ follows c g') as Hstay by (exists g; by split; [constructor|]).
  destruct a as [n ev|n|config m d].
  - destruct (procs c n) as [s|] eqn:E; [by eapply happens_follows|]. cbn. by rewrite E.
  - destruct (procs c n) as [s|] eqn:E; [by eapply crash_follows|]. cbn. by rewrite E.
  - destruct (procs c (NodeConfig.id config)) as [|files] eqn:E; [cbn; by rewrite E|].
    by eapply start_follows.
Qed.

Lemma initial_follows : follows initial Spec.start.
Proof.
  split; [apply start_inv|done| |by constructor]. intros n. split; [done|]. left. split; [done|].
  split; [by repeat constructor|]. exists 0. done.
Qed.

Lemma runs_follow c c' g :
  follows c g -> runs c c' -> exists g', Spec.run members g g' /\ follows c' g'.
Proof.
  intros Hf Hr. induction Hr as [|c' a _ IH Ha]; [exists g; by split; [constructor|]|].
  destruct IH as (g1 & Hr1 & Hf1). destruct (act_follows _ _ _ Hf1 Ha) as (g2 & Hr2 & Hf2).
  exists g2. split; [by eapply run_trans|done].
Qed.

Lemma reachable_follows c : reachable c -> exists g, follows c g.
Proof.
  intros Hr. destruct (runs_follow _ _ _ initial_follows Hr) as (g & _ & Hf). by exists g.
Qed.

Lemma running_rel c g n s : follows c g -> running c n s -> node_rel n s g.
Proof.
  intros Hf (Hp & Hs & Hl). pose proof (fo_procs _ _ Hf n) as H. rewrite Hp in H.
  destruct H as [_ [H|[((Hd & _) & _)|[H _]]]]; congruence.
Qed.

End Follow.
