(* ===== verification/ClusterProps.v ===== *)
(** * Safety of the cluster

    Whatever the members, the network and the disks do, in the order they
    like: one leader per term, logs that agree, committed entries that are
    never lost, and stores that are the same function of the same commands.
    The statements compare two processes at two moments of one run, so they
    speak about crashes and restarts in between too. *)

From S2P Require Import Prelude Msgpack Proto Wal WalFacts KvStore NodeConfig Raft RaftNode Runtime.
From S2P Require Import RaftSpec RaftSpecInv RaftDisk RaftSim RaftRel BootSim Cluster RuntimeSim ClusterSim.
Import Raft.

Section Safety.
Context {R : Rng} {WP : WalPack} {WL : WalPackLaws}.
Context {CP : MsgPack Command.t} {CL : MsgPackLaws Command.t} {MP : MapPack}.
Abbreviation node := (t Impl.t).
Abbreviation members := (RaftRel.members [1; 2; 3]).
Implicit Types (s : node) (g : Spec.t) (c : cluster).

(** Two moments of a run, beside the protocol. *)
Lemma two_moments c c' :
  reachable c -> runs c c' ->
  exists g g', follows c g /\ follows c' g' /\ grows g g'.
Proof.
  intros Hr Hr'. destruct (reachable_follows c Hr) as (g & Hf).
  destruct (runs_follow c c' g Hf Hr') as (g' & Hg & Hf'). exists g, g'.
  split_and!; try done. eapply run_grows; [apply Hf|done].
Qed.

Lemma leader_spec c g n s :
  follows c g -> running c n s -> state_ s = Leader ->
  Spec.tlog g (term_ s) = Some (log_ s) /\ Spec.tlead g (term_ s) = n.
Proof.
  intros Hf Hr Hl. destruct (running_rel c g n s Hf Hr) as [([] & _) _ _ _ _].
  rewrite <- mr_term, <- mr_log. apply (i_lead _ _ (fo_inv _ _ Hf)). by rewrite mr_role, Hl.
Qed.

Lemma log_spec c g n s :
  follows c g -> running c n s -> from_leaders g (log_ s).
Proof.
  intros Hf Hr. destruct (running_rel c g n s Hf Hr) as [([] & _) _ _ _ _].
  rewrite <- mr_log. eapply log_from, Hf.
Qed.

Lemma commit_spec c g n s :
  follows c g -> running c n s ->
  0 <= commit_index_ s <= zlen (log_ s) /\
  decided members g (term_ s) (log_ s) (Z.to_nat (commit_index_ s)).
Proof.
  intros Hf Hr. destruct (running_rel c g n s Hf Hr) as [([] & _) _ _ _ _].
  destruct (i_commit _ _ (fo_inv _ _ Hf) n) as [Hc Hd].
  rewrite mr_log in *. rewrite mr_term in Hd. unfold zlen.
  replace (Z.to_nat (commit_index_ s)) with (Spec.commit g n) by lia. split; [lia|done].
Qed.

(** C2: a term has at most one leader, ever. *)
Theorem election_safety c c' a b s s' :
  reachable c -> runs c c' -> running c a s -> running c' b s' ->
  state_ s = Leader -> state_ s' = Leader -> term_ s = term_ s' -> a = b.
Proof.
  intros Hc Hcc Ha Hb Hl Hl' Ht. destruct (two_moments c c' Hc Hcc) as (g & g' & Hf & Hf' & G).
  destruct (leader_spec _ _ _ _ Hf Ha Hl) as [HT <-].
  destruct (leader_spec _ _ _ _ Hf' Hb Hl') as [_ <-].
  rewrite <- Ht. symmetry. apply (gr_tlead _ _ G). congruence.
Qed.

(** C6: two logs that hold entries of the same term at an index are the same up
    to that index. *)
Theorem log_matching c c' a b s s' i e e' :
  reachable c -> runs c c' -> running c a s -> running c' b s' ->
  log_ s !! i = Some e -> log_ s' !! i = Some e' -> Entry.term e = Entry.term e' ->
  take (S i) (log_ s) = take (S i) (log_ s').
Proof.
  intros Hc Hcc Ha Hb He He' Ht. destruct (two_moments c c' Hc Hcc) as (g & g' & Hf & Hf' & G).
  apply (same_term_same_prefix (g := g')).
  - eapply from_leaders_grow; [done|by eapply log_spec].
  - by eapply log_spec.
  - apply lookup_lt_Some in He. lia.
  - apply lookup_lt_Some in He'. lia.
  - cbn. by rewrite He, He'.
Qed.

Lemma leader_holds c c' a b s s' :
  reachable c -> runs c c' -> running c a s -> running c' b s' ->
  state_ s' = Leader -> term_ s <= term_ s' ->
  take (Z.to_nat (commit_index_ s)) (log_ s') = take (Z.to_nat (commit_index_ s)) (log_ s).
Proof.
  intros Hc Hcc Ha Hb Hl Ht. destruct (two_moments c c' Hc Hcc) as (g & g' & Hf & Hf' & G).
  destruct (leader_spec _ _ _ _ Hf' Hb Hl) as [HT _].
  destruct (commit_spec _ _ _ _ Hf Ha) as [_ Hd]. symmetry.
  eapply (decided_leader members (fo_inv _ _ Hf')); [|exact HT].
  by eapply decided_grow.
Qed.

(** C3: what a member has committed is in the log of every later leader. *)
Theorem leader_completeness c c' a b s s' :
  reachable c -> runs c c' -> running c a s -> running c' b s' ->
  state_ s' = Leader -> term_ s <= term_ s' ->
  take (Z.to_nat (commit_index_ s)) (log_ s') = take (Z.to_nat (commit_index_ s)) (log_ s).
Proof. apply leader_holds. Qed.

(** The common part of committed prefixes. *)
Lemma committed_agree c c' a b s s' (k : nat) :
  reachable c -> runs c c' -> running c a s -> running c' b s' ->
  Z.of_nat k <= commit_index_ s -> Z.of_nat k <= commit_index_ s' ->
  take k (log_ s) = take k (log_ s').
Proof.
  intros Hc Hcc Ha Hb Hk Hk'. destruct (two_moments c c' Hc Hcc) as (g & g' & Hf & Hf' & G).
  destruct (commit_spec _ _ _ _ Hf Ha) as [_ Hd]. destruct (commit_spec _ _ _ _ Hf' Hb) as [_ Hd'].
  eapply (decided_agree members (fo_inv _ _ Hf')).
  - eapply decided_le; [apply (decided_grow members g g' (term_ s) (term_ s)); [exact G|lia|exact Hd]|lia].
  - eapply decided_le; [exact Hd'|lia].
Qed.

(** C1: committed entries never differ, between members or over time. *)
Theorem state_machine_safety c c' a b s s' i :
  reachable c -> runs c c' -> running c a s -> running c' b s' ->
  0 < i <= commit_index_ s -> i <= commit_index_ s' ->
  exists e, log_ s !! Z.to_nat (i - 1) = Some e /\ log_ s' !! Z.to_nat (i - 1) = Some e /\
    Entry.index e = i.
Proof.
  intros Hc Hcc Ha Hb Hi Hi'.
  pose proof (committed_agree _ _ _ _ _ _ (Z.to_nat i) Hc Hcc Ha Hb ltac:(lia) ltac:(lia)) as E.
  destruct (two_moments c c' Hc Hcc) as (g & g' & Hf & _).
  destruct (commit_spec _ _ _ _ Hf Ha) as [Hz _].
  destruct (lookup_lt_is_Some_2 (log_ s) (Z.to_nat (i - 1))) as [e He]; [unfold zlen in Hz; lia|].
  exists e. split; [done|]. split; [by rewrite <- (take_lookup _ _ _ (Z.to_nat (i - 1)) E) by lia|].
  destruct (running_rel c g a s Hf Ha) as [([] & _) _ _ _ _]. destruct mr_wf.
  rewrite (wf_indexed _ _ He), mr_offset. lia.
Qed.

(** Stores are replays of prefixes of one sequence. *)
Lemma stores_replay c c' a b s s' :
  reachable c -> runs c c' -> running c a s -> running c' b s' ->
  let k := Impl.store_applied_index_ (restore_env s) in
  let k' := Impl.store_applied_index_ (restore_env s') in
  k <= k' ->
  kv_replay (drop (Z.to_nat k) (take (Z.to_nat k') (log_ s'))) (kv_of s) = Some (kv_of s').
Proof.
  intros Hc Hcc Ha Hb k k' Hk. destruct (two_moments c c' Hc Hcc) as (g & g' & Hf & Hf' & _).
  destruct (running_rel c g a s Hf Ha) as [([] & _) [Hap Hst _ _] _ _ _].
  destruct (running_rel c' g' b s' Hf' Hb) as [_ [Hap' Hst' _ _] _ _ _]. fold k in Hap, Hst. fold k' in Hap', Hst'.
  assert (0 <= k) by (destruct mr_wf; lia).
  pose proof (committed_agree _ _ _ _ _ _ (Z.to_nat k) Hc Hcc Ha Hb ltac:(lia) ltac:(lia)) as E.
  rewrite <- (take_drop (Z.to_nat k) (take (Z.to_nat k') (log_ s'))) in Hst'.
  rewrite kv_replay_app, take_take, Nat.min_l, <- E, Hst in Hst' by lia. exact Hst'.
Qed.

(** C7: a store that has applied more is the other one with the entries in
    between applied; stores that have applied as much are equal. *)
Theorem stores_agree c c' a b s s' :
  reachable c -> runs c c' -> running c a s -> running c' b s' ->
  let k := Impl.store_applied_index_ (restore_env s) in
  let k' := Impl.store_applied_index_ (restore_env s') in
  k <= k' ->
  kv_replay (drop (Z.to_nat k) (take (Z.to_nat k') (log_ s'))) (kv_of s) = Some (kv_of s').
Proof. apply stores_replay. Qed.

(** ** Restarts *)

(** C8: a member that stops and starts again has the term, the vote and the log
    it had, and nothing it has not committed counts as committed. *)
Theorem restart_keeps_promises c n s config m d s' d' :
  reachable c -> running c n s -> NodeConfig.id config = n ->
  NodeConfig.snapshot_threshold config = 0 ->
  boot config m (d <| Disk.files := files_of s |>) = (Ok s', d') ->
  term_ s' = term_ s /\ voted_for_ s' = voted_for_ s /\ log_ s' = log_ s /\
  0 <= commit_index_ s' <= commit_index_ s.
Proof.
  intros Hc Hr <- Ht Hb. set (n := NodeConfig.id config) in *. destruct (reachable_follows c Hc) as (g & Hf).
  destruct (running_rel c g n s Hf Hr) as [([] & (_ & w & rs & Hw & Hl & Hd) & _) _ _ _ _].
  set (g' := g <| Spec.role := Spec.upd (Spec.role g) n Spec.RoleFollower |>).
  assert (down_rel n (files_of s) g') as Hdn.
  { split; [cbn; unfold Spec.upd; by rewrite decide_True|]. right.
    exists rs, (length (encode_records rs)). destruct Hl as [_ Hrs _ _ Hfiles].
    rewrite firstn_all, whole_records_all by done. split_and!; try done.
    unfold files_of. by rewrite Hw. }
  assert (Inv members g') as I' by (by apply follower_step, Hf).
  pose proof (boot_outcome config m Ht (d <| Disk.files := files_of s |>) g' I') as Ho.
  rewrite Hb in Ho. specialize (Ho (fo_valid _ _ Hf) Hdn).
  destruct Ho as (_ & _ & (E1 & E2 & E3 & E4) & _). cbn in *. fold n in E1, E2, E3, E4.
  rewrite E1, E2, E3, mr_term, mr_vote, mr_log. split_and!; try done; lia.
Qed.

(** C11: a start fails only when the node is not a member or the operating
    system refuses, whatever the cluster did before. *)
Theorem start_succeeds c n files config m d :
  reachable c -> procs c n = Down files -> NodeConfig.id config = n ->
  NodeConfig.snapshot_threshold config = 0 -> n ∈ [1; 2; 3] ->
  Disk.mkdir_fails d = false -> Disk.open_fails d wal_file = false ->
  Disk.read_fails d wal_file = false -> Disk.repairs d wal_file = Disk.repair_ok ->
  exists s d', boot config m (d <| Disk.files := files |>) = (Ok s, d').
Proof.
  intros Hc Hp En Ht Hm H1 H2 H3 H4. destruct (reachable_follows c Hc) as (g & Hf).
  pose proof (fo_procs _ _ Hf n) as Hd. rewrite Hp in Hd. subst n.
  pose proof (boot_outcome config m Ht (d <| Disk.files := files |>) g (fo_inv _ _ Hf)
    (fo_valid _ _ Hf) Hd) as Ho.
  destruct (boot config m _) as [[s|e] d']; [by exists s, d'|].
  destruct Ho as [[?|[?|[?|[?|?]]]] _]; cbn in *; try done; congruence.
Qed.

End Safety.
