(* ===== verification/ReadIndex.v ===== *)
(** * Reads reflect what was committed before

    The rounds of all processes beside the protocol.  A read that a leader
    answers after a round it opened is answered from a store that has applied
    everything any member had committed before the round was opened. *)

From S2P Require Import Prelude Msgpack Proto Wal WalFacts KvStore NodeConfig RespCodec Raft RaftNode.
From S2P Require Import Runtime RaftSpec RaftSpecInv ReadSpec RaftDisk RaftSim RaftRel BootSim Cluster.
From S2P Require Import RuntimeSim ReadRounds ReadEvents ClusterSim ClusterProps.
Import Raft.

(** ** A process that has just started has no rounds *)

Section BootRounds.
Context {R : Rng} {WP : WalPack} {CP : MsgPack Command.t} {MP : MapPack}.
Abbreviation node := (t Impl.t).
Implicit Types (s : node).

(** The members a round depends on, apart from the term. *)
Definition rounds_of s :=
  (id_ s, peers_ s, state_ s, read_index_pending_ s, pending_read_context_ s,
   next_read_context_ s, read_index_acks_ s, msgs_ s).

Definition roundless {A} (m : M node A) : Prop := forall s, rounds_of (snd (m s)) = rounds_of s.

Lemma roundless_bind {A B} (m : M node A) (f : A -> M node B) :
  roundless m -> (forall a, roundless (f a)) -> roundless (m ≫= f).
Proof.
  intros Hm Hf s. specialize (Hm s). unfold mbind, M_bind.
  destruct (m s) as [[a|e] s1]; [|done]. etransitivity; [apply Hf|exact Hm].
Qed.

Lemma roundless_on_impl {A} (m : M Impl.t A) : roundless (on_impl m).
Proof. intros s. unfold on_impl. by destruct (m (restore_env s)). Qed.

End BootRounds.

Ltac roundless_step :=
  lazymatch goal with
  | |- roundless (_ ≫= _) => apply roundless_bind; [|intros ?]
  | |- roundless (on_impl _) => apply roundless_on_impl
  | |- roundless (when ?b _) => destruct b; cbn [when]
  | |- roundless (let _ := _ in _) => cbv zeta
  | |- roundless (if ?b then _ else _) => destruct b
  | |- roundless _ => by intros ?
  end.

Section BootRounds.
Context {R : Rng} {WP : WalPack} {CP : MsgPack Command.t} {MP : MapPack}.
Abbreviation node := (t Impl.t).
Implicit Types (s : node).

Lemma roundless_restore_loop es : forall i, roundless (restore_loop (Env := Impl.t) es i).
Proof.
  induction es as [|e es IH]; intros i; cbn [restore_loop]; repeat roundless_step; apply IH.
Qed.

Lemma roundless_advance index : roundless (advance (Env := Impl.t) index).
Proof. unfold advance. repeat roundless_step. Qed.

Lemma roundless_replay index es : roundless (replay_committed index es).
Proof.
  induction es as [|e es IH]; cbn [replay_committed]; unfold impl; repeat roundless_step;
    auto using roundless_advance.
Qed.

Lemma roundless_restore_state r : roundless (restore_state r).
Proof.
  unfold restore_state, restore, impl. repeat roundless_step;
    auto using roundless_restore_loop, roundless_replay.
Qed.

Lemma recover_rounds b : rounds_of (boot_node (snd (recover_storage b))) = rounds_of (boot_node b).
Proof.
  assert (forall A (m : M node A) b, roundless m ->
    rounds_of (boot_node (snd (on_node m b))) = rounds_of (boot_node b)) as Hn.
  { intros A m b' Hm. specialize (Hm (boot_node b')). unfold on_node. by destruct (m _). }
  unfold recover_storage, recover_wal. run_m. case_match.
  - case_match; [|done]. destruct (WAL.recover _ _ _) as [[r|e] w0]; [|done].
    set (b1 := b <| boot_disk := _ |>). specialize (Hn _ (restore_state r) b1 (roundless_restore_state r)).
    destruct (on_node (restore_state r) b1) as [[[]|e] b2]; [|done]. by cbn in *.
  - case_match; [done|]. by case_match.
Qed.

Lemma create_rounds config a b now env s :
  create config a b now env = Ok s ->
  rounds_of s = (Config.id config, peers_ s, Follower, false, 0, 1, ∅, []).
Proof.
  unfold create. destruct (invalid_config config); [done|].
  unfold reset_randomized_election_timeout. run_m. destruct (uniform _ _ _) as [j g]. by intros [= <-].
Qed.

Lemma boot_rounds config m d s d' :
  boot config m d = (Ok s, d') ->
  rounds_of s = (NodeConfig.id config, peers_ s, Follower, false, 0, 1, ∅, []).
Proof.
  unfold boot. destruct (create _ _ _ _ _) as [s0|e] eqn:Ec; [|done].
  pose proof (recover_rounds (MkBoot s0 d)) as Hr. apply create_rounds in Ec.
  destruct (recover_storage _) as [[[]|e] b]; [|done]. intros [= <- _]. cbn in Hr.
  change (rounds_of (boot_node b) = (NodeConfig.id config, peers_ (boot_node b), Follower, false, 0, 1, ∅, [])).
  rewrite Hr, Ec. unfold rounds_of in Hr. by injection Hr as _ -> _ _ _ _ _ _.
Qed.

End BootRounds.

Section Traffic.
Context {R : Rng} {WP : WalPack} {WL : WalPackLaws}.
Context {CP : MsgPack Command.t} {CL : MsgPackLaws Command.t} {MP : MapPack}.
Abbreviation node := (t Impl.t).
Abbreviation members := (RaftRel.members [1; 2; 3]).
Implicit Types (s : node) (g : Spec.t) (c : cluster) (P : Z -> Z -> Z -> Prop).

(** ** Between events *)

(** A process between two events, with nothing said about the past. *)
Definition at_rest (n : Z) (net : list Message.t) P s : Prop :=
  rounds n net (outs s) (term_ s) (next_read_context_ s) P s /\ Impl.sent (restore_env s) = [].

Lemma asked_more net extra m : asked net m -> asked (net ++ extra) m.
Proof. intros (q & Hq & H). exists q. split; [by apply elem_of_app; left|done]. Qed.

(** The messages leave for the network. *)
Lemma at_rest_handed n net old t0 x0 P s :
  rounds n net old t0 x0 P s ->
  at_rest n (net ++ Impl.sent (restore_env s)) P (handed_over s).
Proof.
  intros [H0 Hp H1 H2 H3 H4 H5 H6 H7 H8 H9]. split; [|done].
  assert (outs (handed_over s) = msgs_ s) as Eo by apply app_nil_r.
  split; try done; try (cbn; lia).
  - intros a Ha. destruct (H6 a Ha) as (? & ? & m & Hm & ?). split; [done|]. split; [done|].
    exists m. split; [by apply elem_of_app; left|done].
  - intros m Hm. rewrite Eo in Hm. apply (H7 m). unfold outs. set_solver.
  - intros m Hm. rewrite Eo in Hm. destruct (H8 m) as [Ha Hc]; [unfold outs; set_solver|].
    split; [done|]. intros Hm'. destruct (Hc Hm') as (Hf & Hask & _). split; [done|].
    split; [by apply asked_more|left; by rewrite Eo].
  - intros m Hm. apply elem_of_app. left. by apply H9.
Qed.

(** Messages of others reach the network. *)
Lemma at_rest_more n net extra P s :
  at_rest n net P s -> (forall m, m ∈ extra -> asks m -> Message.from m <> n) ->
  at_rest n (net ++ extra) P s.
Proof.
  intros [[H0 Hp H1 H2 H3 H4 H5 H6 H7 H8 H9] Hs] Hx. split; [|done]. split; try done.
  - intros a Ha. destruct (H6 a Ha) as (? & ? & m & Hm & ?). split; [done|]. split; [done|].
    exists m. split; [by apply elem_of_app; left|done].
  - intros m [[Hm|Hm]%elem_of_app|Hm]; [by apply H7; left| |by apply H7; right].
    intros Ha Hf. destruct (Hx m Hm Ha). congruence.
  - intros m Hm. destruct (H8 m Hm) as [Ha Hc]. split; [done|]. intros Hm'.
    destruct (Hc Hm') as (Hf & Hask & ?). split; [done|]. split; [by apply asked_more|done].
  - intros m Hm. apply elem_of_app. left. by apply H9.
Qed.

(** A process that has just started knows the terms of its old questions. *)
Lemma at_rest_started config m d s d' net P :
  boot config m d = (Ok s, d') -> peers_ s = [1; 2; 3] -> 0 <= term_ s ->
  Impl.sent (restore_env s) = [] -> Impl.raft_io_ (restore_env s) = [] ->
  (forall m, m ∈ net -> asks m -> Message.from m = NodeConfig.id config -> Message.term m <= term_ s) ->
  at_rest (NodeConfig.id config) net P s.
Proof.
  intros Hb Hp Ht Hs Hq Hm. apply boot_rounds in Hb as E. unfold rounds_of in E.
  injection E as E1 E3 E4 E5 E6 E7 E8.
  assert (outs s = []) as Eo by (unfold outs; by rewrite E8, Hs).
  split; [|done]. split; rewrite ?Eo, ?Hq; try done; try lia; try congruence.
  - intros a Ha. by rewrite E7, lookup_empty in Ha.
  - intros q [Hin|Hin]; [|by apply not_elem_of_nil in Hin]. intros Ha Hf.
    specialize (Hm q Hin Ha ltac:(congruence)). destruct (decide (Message.term q = term_ s)); [right|left; lia].
    split; [done|]. split; congruence.
  - intros q Hin. by apply not_elem_of_nil in Hin.
  - intros q Hin. by apply not_elem_of_nil in Hin.
Qed.

(** ** A process that is stopping says nothing *)

Lemma outs_on_impl {A} (m : M Impl.t A) s : aside (fun _ => True) m -> outs (snd (on_impl m s)) = outs s.
Proof.
  intros Hm. destruct (Hm (restore_env s)) as (E & _). unfold on_impl, outs.
  destruct (m (restore_env s)) as [r i]. cbn in *. by rewrite E.
Qed.

Lemma outs_finish tok s : outs (snd (finish_read_index tok s)) = outs s.
Proof. unfold finish_read_index. run_m. by case_match. Qed.

Lemma outs_in_loop m s : outs (snd (m s)) = outs s -> outs (snd (in_loop m s)) = outs s.
Proof.
  intros E. unfold in_loop. destruct (m s) as [[[]|e] s']; [done|].
  etransitivity; [|exact E]. apply outs_on_impl, aside_failed.
Qed.

Lemma outs_bind {A B} (m : M node A) (f : A -> M node B) s :
  outs (snd (m s)) = outs s ->
  (forall a s', m s = (Ok a, s') -> outs (snd (f a s')) = outs s') ->
  outs (snd ((m ≫= f) s)) = outs s.
Proof.
  intros Hm Hf. unfold mbind, M_bind. destruct (m s) as [[a|e] s']; [|done].
  etransitivity; [by apply Hf|exact Hm].
Qed.

Lemma outs_stopping_task task s :
  Impl.stopping_ (restore_env s) = true -> outs (snd (run_raft_task task s)) = outs s.
Proof.
  intros Hs. unfold run_raft_task, impl. run_m. rewrite Hs. destruct task; try done.
  - unfold cancel_raft_read, impl. run_m. destruct (Impl.raft_read_indexes_ _ !! _); [|done].
    apply (outs_bind (on_impl _)); [apply outs_on_impl; intros i; by apply traffic_same|intros [] s' _].
    destruct (bool_decide _); [done|]. apply outs_finish.
  - unfold snapshot_task.
    apply (outs_bind (on_impl _)); [apply outs_on_impl; aside_by|intros [] s' E].
    unfold impl. run_m. injection E as <-. cbn. by rewrite Hs.
Qed.

Lemma outs_stopping ev s :
  Impl.stopping_ (restore_env s) = true -> outs (snd (run_event ev s)) = outs s.
Proof.
  intros Hs. destruct (Impl.loops_stopped (restore_env s)) eqn:Hl; [by rewrite run_event_stopped|].
  rewrite run_event_eq by done. destruct ev as [| | |now|command reply now|message|].
  - destruct (Impl.raft_io_ (restore_env s)) as [|task tasks]; [done|].
    set (s1 := s <| restore_env := (restore_env s) <| Impl.raft_io_ := tasks |> |>).
    exact (outs_in_loop (run_raft_task task) s1 (outs_stopping_task task s1 Hs)).
  - destruct (Impl.store_io_ (restore_env s)) as [|task tasks]; [done|].
    set (s1 := s <| restore_env := (restore_env s) <| Impl.store_io_ := tasks |> |>).
    apply (outs_in_loop (on_impl (run_store_task task)) s1). apply outs_on_impl, aside_store_task.
  - apply outs_in_loop. unfold tick_timer, impl. run_m. by rewrite Hs.
  - by rewrite Hs.
  - apply (outs_on_impl (handle_client_command command reply now)), aside_client.
  - done.
  - apply outs_on_impl, aside_stop.
Qed.

(** ** The cluster *)

Record traffic c : Prop := {
  tr_procs : forall b s, procs c b = Up s -> at_rest b (network c) (fun _ _ _ => True) s;
  tr_asked : forall m, m ∈ network c -> confirms m -> asked (network c) m;
}.

Lemma network_no_snapshots c g m :
  follows c g -> m ∈ network c -> Message.type m <> Message.MsgInstallSnapshot.
Proof.
  intros Hf Hm. pose proof (proj1 (list.Forall_forall _ _) (fo_network _ _ Hf) m Hm) as (_ & _ & _ & _ & _ & H & _).
  exact H.
Qed.

(** An event of one process. *)
Lemma happens_live c g b s ev P ids D :
  follows c g -> procs c b = Up s -> allowed c (Happens b ev) ->
  (forall x y, x <= y -> D x -> D y) ->
  (forall s' tok, rounds b (network c) (outs s) (term_ s) (next_read_context_ s) P s' ->
     read_index_ready s' tok = true -> D (last_applied_ s')) ->
  live b (network c) (outs s) (term_ s) (next_read_context_ s) P ids D s -> may_open P s ->
  live b (network c) (outs s) (term_ s) (next_read_context_ s) P ids D (snd (run_event ev s)).
Proof.
  intros Hf Hp Ha Hmono Hready Hl Ho. unfold allowed in Ha. rewrite Hp in Ha. destruct Ha as [Ha Hr].
  apply event_live; try done.
  - intros m. by eapply network_no_snapshots.
  - by intros m ->.
Qed.

Lemma happens_rounds c g b s ev :
  follows c g -> traffic c -> procs c b = Up s -> allowed c (Happens b ev) ->
  rounds b (network c) (outs s) (term_ s) (next_read_context_ s) (fun _ _ _ => True)
    (snd (run_event ev s)).
Proof.
  intros Hf Ht Hp Ha. destruct (tr_procs c Ht b s Hp) as [Hr _].
  by apply (happens_live c g b s ev _ (fun _ => False) (fun _ => True)).
Qed.

(** A question a process has sent is one of a term it has reached. *)
Lemma asked_term c g m :
  follows c g -> m ∈ network c -> asks m -> Message.term m <= Spec.term g (Message.from m).
Proof.
  intros Hf Hm [Hty _].
  pose proof (proj1 (list.Forall_forall _ _) (fo_network _ _ Hf) m Hm) as (_ & _ & _ & Ha & _).
  destruct (Ha Hty) as (_ & _ & _ & Hin).
  destruct (i_append _ _ (fo_inv _ _ Hf) _ _ _ _ _ _ Hin) as (T & HT & <- & _).
  apply (i_tlead _ _ (fo_inv _ _ Hf) _ _ HT).
Qed.

Lemma start_rest config m d files c g s d' P :
  follows c g -> procs c (NodeConfig.id config) = Down files ->
  NodeConfig.snapshot_threshold config = 0 ->
  boot config m (d <| Disk.files := files |>) = (Ok s, d') ->
  at_rest (NodeConfig.id config) (network c) P s.
Proof.
  intros Hf Hp Ht Hb. pose proof (fo_procs _ _ Hf (NodeConfig.id config)) as Hn. rewrite Hp in Hn.
  pose proof (boot_outcome config m Ht (d <| Disk.files := files |>) g (fo_inv _ _ Hf) (fo_valid _ _ Hf) Hn) as Ho.
  rewrite Hb in Ho. destruct Ho as ([(st & lines & E & _) _ _] & _ & (Et & _) & g' & Hst & ([] & _)).
  assert (Inv members g') as I' by (eapply steps_inv; [apply Hf|done]).
  eapply at_rest_started; try done; rewrite ?E; try done.
  - rewrite <- mr_term. apply (i_term _ _ I').
  - intros q Hq Ha Ef. rewrite Et, <- Ef. by apply (asked_term c g).
Qed.

Lemma act_traffic c a g : follows c g -> traffic c -> allowed c a -> traffic (act c a).
Proof.
  intros Hf Ht Ha. destruct a as [b ev|b|config m d]; cbn [act].
  - destruct (procs c b) as [s|] eqn:Hp; [|done].
    pose proof (happens_rounds c g b s ev Hf Ht Hp Ha) as Hr.
    set (s' := snd (run_event ev s)) in *. destruct Ht as [Htp Hta]. split; cbn.
    + intros b' s1. unfold Spec.upd. case_decide as E.
      * subst. intros [= <-]. by eapply at_rest_handed.
      * intros Hb'. apply at_rest_more; [by apply Htp|]. intros m Hm Hask.
        destruct (rd_own _ _ _ _ _ _ _ Hr m) as [Hfrom _]; [apply elem_of_app; by right|].
        rewrite (Hfrom Hask), (rd_id _ _ _ _ _ _ _ Hr). done.
    + intros m [Hm|Hm]%elem_of_app Hc; [by apply asked_more, Hta|].
      destruct (rd_own _ _ _ _ _ _ _ Hr m) as [_ Hown]; [apply elem_of_app; by right|].
      by apply asked_more, Hown.
  - destruct (procs c b) as [s|] eqn:Hp; [|done]. destruct Ht as [Htp Hta]. split; cbn; [|done].
    intros b' s1. unfold Spec.upd. case_decide; [done|apply Htp].
  - destruct (procs c (NodeConfig.id config)) as [|files] eqn:Hp; [done|].
    destruct Ht as [Htp Hta]. split; cbn; [|done]. intros b' s1. unfold Spec.upd.
    case_decide as E; [subst b'|apply Htp].
    destruct (boot config m _) as [[s|e] d'] eqn:Hb; [|done]. intros [= <-]. by eapply start_rest.
Qed.

Lemma reachable_traffic c : reachable c -> traffic c.
Proof.
  intros Hr. induction Hr as [|c a Hr IH Ha]; [by split; [|intros m ?%not_elem_of_nil]|].
  destruct (reachable_follows c Hr) as (g & Hf). by eapply act_traffic.
Qed.

End Traffic.

(** ** A round tells the truth *)

Section Fresh.
Context {R : Rng} {WP : WalPack} {WL : WalPackLaws}.
Context {CP : MsgPack Command.t} {CL : MsgPackLaws Command.t} {MP : MapPack}.
Abbreviation node := (t Impl.t).
Abbreviation members := (RaftRel.members [1; 2; 3]).
Implicit Types (s : node) (g : Spec.t) (c : cluster).

(** Member [n] at a moment the protocol was in [G]: the rounds it opens from then
    on are numbered from [x].  Index [k] had been committed by the leader of term
    [u]. *)
Context (n : Z) (G : Spec.t) (x : Z) (k : nat) (u : Z).
Hypothesis self_member : n ∈ [1; 2; 3].
Hypothesis inv : Inv members G.
Hypothesis committed : backed_in members G u k.

(** What a round that is opened later waits for, if its term is not too old. *)
Definition waits_for (context index term : Z) : Prop :=
  x <= context /\ (Z.of_nat k <= index \/ term < u).

(** Who confirms a later round had not gone beyond its term. *)
Definition honest (m : Message.t) : Prop :=
  confirms m -> Message.to m = n -> x <= Message.read_context m ->
  Spec.term G n <= Message.term m -> Spec.term G (Message.from m) <= Message.term m.

Lemma some_true (m : gmap Z bool) : 0 < count_true m -> exists a, m !! a = Some true.
Proof.
  unfold count_true. destruct (filter _ _) as [|[a b] l] eqn:E; [done|]. intros _. exists a.
  assert ((a, b) ∈ (a, b) :: l) as Hin by set_solver. rewrite <- E in Hin.
  apply list_elem_of_filter in Hin as [Hb Hin]. cbn in Hb. subst b. by apply elem_of_map_to_list in Hin.
Qed.

Lemma two_quorum a : a ∈ [1; 2; 3] -> a <> n -> Spec.quorum members {[n; a]}.
Proof.
  intros Ha Hne. split; [unfold RaftRel.members; set_solver|].
  rewrite size_union, !size_singleton by set_solver. by vm_compute.
Qed.

(** A confirmed round is of a term no older than [u]. *)
Lemma ready_applied net old t0 x0 s tok :
  rounds n net old t0 x0 waits_for s -> (forall m, m ∈ net -> honest m) -> Spec.term G n <= t0 ->
  read_index_ready s tok = true -> Z.of_nat k <= last_applied_ s.
Proof.
  intros [H0 Hp H1 H2 H3 H4 H5 H6 H7 H8 H9] Hh Ht Hready. unfold read_index_ready in Hready. rewrite Hp in Hready.
  repeat match type of Hready with
  | (if ?b then false else _) = true => destruct b eqn:?; [done|]
  end. guards. change (zlen [1; 2; 3] / 2 + 1) with 2 in Hready.
  destruct (some_true (read_index_acks_ s)) as (a & Ha); [lia|].
  destruct (read_index_pending_ s) eqn:Hpend.
  2:{ destruct (H4 eq_refl) as [_ E]. by rewrite E, lookup_empty in Ha. }
  destruct (H5 eq_refl) as [_ [Hx [Hk|Hlt]]]; [lia|exfalso].
  destruct (H6 a Ha) as (Hne & Hin & m & Hm & Hc & <- & Eto & Et & Ex).
  rewrite H0 in *. rewrite Hp in Hin. destruct committed as (i & Hch & _).
  pose proof (Hh m Hm Hc Eto ltac:(lia) ltac:(lia)) as Hterm.
  pose proof (chosen_before members G u i (term_ s) _ inv Hch (two_quorum _ Hin Hne)) as Hu.
  assert (u <= term_ s); [|lia]. apply Hu. intros b. rewrite elem_of_union, !elem_of_singleton.
  intros [->| ->]; lia.
Qed.

(** A leader that opens a round now. *)
Lemma leader_waits s g :
  node_rel n s g -> Inv members g -> Spec.run members G g -> x <= next_read_context_ s ->
  roomy s -> may_open waits_for s.
Proof.
  intros [Hrel _ _ _ _] I Hrun Hx Hroom Hl. pose proof Hrel as ([] & _).
  destruct (run_kept members G g u k inv Hrun committed) as [(i & Hch & Hk & Hlead) _].
  assert (Spec.role g n = Spec.RoleLeader) as Hrole by (by rewrite mr_role, Hl).
  specialize (Hlead n Hrole). rewrite mr_term in Hlead.
  split; [done|]. destruct (Z.lt_trichotomy u (term_ s)) as [Hlt|[Heq|Hgt]]; [left|left|by right].
  - destruct (chosen_below members g n u i (Z.to_nat (commit_index_ s)) I Hrole Hch) as [Hlen Hbelow].
    { lia. }
    rewrite mr_log in Hlen, Hbelow. rewrite mr_term in Hbelow. unfold round_index.
    destruct (has_committed_entry_in_current_term s) eqn:Hc.
    + unfold has_committed_entry_in_current_term in Hc. guards.
      destruct mr_wf.
      match goal with H : term_at s _ = _ |- _ =>
        rewrite (related_term_at [1; 2; 3] n s g) in H by (done || lia) end. unfold zlen in *.
      assert (i < Z.to_nat (commit_index_ s))%nat by (apply Hbelow; [lia|done]). lia.
    + rewrite (related_last [1; 2; 3] n s g) by done. destruct Hroom as (_ & Hr & _).
      unfold zlen in *. rewrite u64_small by (unfold_words; lia). lia.
  - specialize (Hlead (eq_sym Heq)). unfold round_index. case_match; [lia|].
    rewrite (related_last [1; 2; 3] n s g) by done. destruct Hroom as (_ & Hr & _), mr_wf.
    unfold zlen in *. rewrite u64_small by (unfold_words; lia). lia.
Qed.

(** ** While the leader keeps running *)

Context (id : Z).

Record watched c g : Prop := {
  wa_follows : follows c g;
  wa_traffic : traffic c;
  wa_run : Spec.run members G g;
  wa_node : exists s, running c n s /\ at_rest n (network c) waits_for s /\
    x <= next_read_context_ s /\
    (CompleteRead id ∈ Impl.store_io_ (restore_env s) -> Z.of_nat k <= last_applied_ s);
  wa_network : forall m, m ∈ network c -> honest m;
  wa_procs : forall b s m, procs c b = Up s -> m ∈ msgs_ s -> honest m;
}.

Lemma terms_grow g b : Spec.run members G g -> Spec.term G b <= Spec.term g b.
Proof. intros Hr. by apply (run_kept members G g u k inv Hr committed). Qed.

(** Whatever a process says, it says in the term it is in. *)
Lemma honest_event c g b s ev m :
  watched c g -> procs c b = Up s -> allowed c (Happens b ev) ->
  m ∈ outs (snd (run_event ev s)) -> honest m.
Proof.
  intros [Hf Ht Hrun _ _ Hm] Hp Ha Hin.
  assert (outs s = msgs_ s) as Eo.
  { unfold outs. destruct (tr_procs _ Ht b s Hp) as [_ ->]. apply app_nil_r. }
  pose proof (fo_procs _ _ Hf b) as Hb. rewrite Hp in Hb.
  destruct Hb as [_ [Hn|[(_ & Hs & _)|[Hl _]]]].
  - pose proof (happens_rounds c g b s ev Hf Ht Hp Ha) as Hr.
    destruct (rd_own _ _ _ _ _ _ _ Hr m Hin) as [_ Hown]. intros Hc Hto Hx Hterm.
    destruct (Hown Hc) as (Efrom & _ & [Hold|Hnew]).
    + rewrite Eo in Hold. by apply (Hm b s).
    + rewrite Efrom, (rd_id _ _ _ _ _ _ _ Hr). destruct Hn as [([] & _) _ _ _ _].
      pose proof (terms_grow g b Hrun). lia.
  - rewrite outs_stopping, Eo in Hin by done. by apply (Hm b s).
  - rewrite run_event_stopped in Hin by done. change (m ∈ outs s) in Hin. rewrite Eo in Hin. by apply (Hm b s).
Qed.

(** The leader's own events. *)
Lemma watched_self c g s ev :
  watched c g -> procs c n = Up s -> allowed c (Happens n ev) ->
  live n (network c) (outs s) (term_ s) (next_read_context_ s) waits_for
    (fun i => i = id) (fun a => Z.of_nat k <= a) (snd (run_event ev s)).
Proof.
  intros [Hf Ht Hrun (s0 & Hrn & [Hr _] & Hx & Hd) Hm _] Hp Ha.
  assert (s0 = s) as -> by (destruct Hrn; congruence).
  pose proof (running_rel c g n s Hf Hrn) as Hn.
  apply (happens_live c g); try done; [lia| | |].
  - intros s' tok Hr' Hready. eapply ready_applied; try done.
    destruct Hn as [([] & _) _ _ _ _]. pose proof (terms_grow g n Hrun). lia.
  - split; [done|]. by intros i ->.
  - unfold allowed in Ha. rewrite Hp in Ha. eapply leader_waits; try done; [apply Hf|apply Ha].
Qed.

Lemma honest_act c g a :
  watched c g -> allowed c a ->
  (forall m, m ∈ network (act c a) -> honest m) /\
  (forall b s m, procs (act c a) b = Up s -> m ∈ msgs_ s -> honest m).
Proof.
  intros Hw Ha. pose proof Hw as [Hf Ht _ _ Hm Hp].
  destruct a as [b ev|b|config mach d]; cbn [act].
  - destruct (procs c b) as [s|] eqn:Eb; [|done].
    pose proof (fun m => honest_event c g b s ev m Hw Eb Ha) as He. split; cbn.
    + intros m [Hin|Hin]%elem_of_app; [by apply Hm|]. apply He, elem_of_app. by right.
    + intros b' s1 m. unfold Spec.upd. case_decide; [|by apply Hp].
      intros [= <-] Hin. apply He, elem_of_app. by left.
  - destruct (procs c b) as [s|] eqn:Eb; [|done]. split; [done|]. cbn. intros b' s1 m.
    unfold Spec.upd. case_decide; [done|by apply Hp].
  - destruct (procs c (NodeConfig.id config)) as [|files] eqn:Eb; [done|]. split; [done|]. cbn.
    intros b' s1 m. unfold Spec.upd. case_decide; [|by apply Hp].
    destruct (boot config mach _) as [[s|e] d'] eqn:Hb; [|done]. intros [= <-] Hin.
    apply boot_rounds in Hb. unfold rounds_of in Hb. injection Hb as _ _ _ _ _ _ E.
    rewrite E in Hin. by apply not_elem_of_nil in Hin.
Qed.

Lemma watched_node c g a s' :
  watched c g -> allowed c a -> running (act c a) n s' ->
  at_rest n (network (act c a)) waits_for s' /\ x <= next_read_context_ s' /\
  (CompleteRead id ∈ Impl.store_io_ (restore_env s') -> Z.of_nat k <= last_applied_ s').
Proof.
  intros Hw Ha (Hs' & _). pose proof Hw as [Hf Ht _ (s & (Hs & _) & Hrest & Hx & Hd) _ _].
  destruct a as [b ev|b|config mach d]; cbn [act] in *.
  - destruct (procs c b) as [sb|] eqn:Eb; [|assert (s' = s) as -> by congruence; done].
    cbn in *. unfold Spec.upd in Hs'. case_decide as E.
    + subst b. assert (sb = s) as -> by congruence. injection Hs' as <-.
      destruct (watched_self c g s ev Hw Hs Ha) as [Hr Hdone]. split; [by eapply at_rest_handed|].
      split; [|by apply Hdone]. pose proof (rd_next _ _ _ _ _ _ _ Hr). cbn. lia.
    + assert (s' = s) as -> by congruence. split; [|done]. apply at_rest_more; [done|].
      intros m Hm Hask. pose proof (happens_rounds c g b sb ev Hf Ht Eb Ha) as Hr.
      destruct (rd_own _ _ _ _ _ _ _ Hr m) as [Hfrom _]; [apply elem_of_app; by right|].
      rewrite (Hfrom Hask), (rd_id _ _ _ _ _ _ _ Hr). done.
  - destruct (procs c b) as [sb|] eqn:Eb; [|assert (s' = s) as -> by congruence; done].
    cbn in *. unfold Spec.upd in Hs'. case_decide; [done|]. by assert (s' = s) as -> by congruence.
  - destruct (procs c (NodeConfig.id config)) as [|files] eqn:Eb;
      [by assert (s' = s) as -> by congruence|].
    cbn in *. unfold Spec.upd in Hs'. case_decide; [congruence|]. by assert (s' = s) as -> by congruence.
Qed.

Lemma watched_act c g a s' :
  watched c g -> allowed c a -> running (act c a) n s' -> exists g', watched (act c a) g'.
Proof.
  intros Hw Ha Hr. destruct (watched_node c g a s' Hw Ha Hr) as (Hrest & Hx & Hd).
  destruct (honest_act c g a Hw Ha) as [Hm Hp]. destruct Hw as [Hf Ht Hrun _ _ _].
  destruct (act_follows c a g Hf Ha) as (g' & Hg & Hf'). exists g'. split; try done.
  - by eapply act_traffic.
  - by eapply run_trans.
  - by exists s'.
Qed.

End Fresh.

(** ** Reads *)

(** A run in which the process of [n] runs all the time. *)
Inductive serves `{Rng} `{WalPack} `{MsgPack Command.t} `{MapPack} (n : Z) (c : cluster) : cluster -> Prop :=
| serves_refl : serves n c c
| serves_act c' a s :
    serves n c c' -> allowed c' a -> running (act c' a) n s -> serves n c (act c' a).

Section Reads.
Context {R : Rng} {WP : WalPack} {WL : WalPackLaws}.
Context {CP : MsgPack Command.t} {CL : MsgPackLaws Command.t} {MP : MapPack}.
Abbreviation node := (t Impl.t).
Abbreviation members := (RaftRel.members [1; 2; 3]).
Implicit Types (s : node) (g : Spec.t) (c : cluster).

Lemma serves_runs n c c' : serves n c c' -> runs c c'.
Proof. intros H. induction H; [constructor|by constructor]. Qed.

(** No confirmation of a round that is not open yet. *)
Lemma honest_before c G n s m :
  follows c G -> running c n s -> state_ s = Leader -> at_rest n (network c) (fun _ _ _ => True) s ->
  (confirms m -> asked (network c) m) -> honest n G (next_read_context_ s) m.
Proof.
  intros Hf Hr Hl [[H0 Hp H1 H2 H3 H4 H5 H6 H7 H8 H9] _] Ha Hc Hto Hx Hterm.
  destruct (running_rel c G n s Hf Hr) as [([] & _) _ _ _ _].
  destruct (Ha Hc) as (q & Hq & Hask & Ef & Et & Ex).
  destruct (H7 q (or_introl Hq) Hask ltac:(congruence)) as [|(_ & _ & Hlt)]; [lia|].
  specialize (Hlt Hl). lia.
Qed.

Lemma watched_start c G n s k u id :
  reachable c -> follows c G -> running c n s -> state_ s = Leader ->
  read_index_pending_ s = false -> CompleteRead id ∉ Impl.store_io_ (restore_env s) ->
  watched n G (next_read_context_ s) k u id c G.
Proof.
  intros Hc Hf Hr Hl Hp Hid. pose proof (reachable_traffic c Hc) as Ht.
  pose proof (tr_procs c Ht n s (proj1 Hr)) as Hrest.
  split; try done; [constructor| | |].
  - exists s. split; [done|]. split; [|done]. destruct Hrest as [[H0 Hps H1 H2 H3 H4 H5 H6 H7 H8 H9] Hs].
    split; [|done]. split; try done. congruence.
  - intros m Hm. eapply honest_before; try done. by apply Ht.
  - intros b sb m Hb Hm. eapply honest_before; try done.
    destruct (tr_procs c Ht b sb Hb) as [Hrb Hsent]. intros Hc'.
    destruct (rd_own _ _ _ _ _ _ _ Hrb m) as [_ Hown]; [apply elem_of_app; by left|]. by apply Hown.
Qed.

(** A read that is complete now, and was not when the leader had no open round,
    waited for everything committed before. *)
Lemma read_waits c0 c c' b n sb s s' id :
  reachable c0 -> running c0 b sb -> runs c0 c ->
  running c n s -> state_ s = Leader -> read_index_pending_ s = false ->
  CompleteRead id ∉ Impl.store_io_ (restore_env s) ->
  serves n c c' -> running c' n s' -> CompleteRead id ∈ Impl.store_io_ (restore_env s') ->
  commit_index_ sb <= last_applied_ s'.
Proof.
  intros Hc0 Hb Hr0 Hr Hl Hp Hid Hsv Hr' Hin.
  destruct (runs_follow _ _ _ initial_follows Hc0) as (g0 & Hs0 & Hf0).
  destruct (run_backed members _ _ (start_inv members) (start_backed members) Hs0) as [I0 B0].
  destruct (runs_follow _ _ _ Hf0 Hr0) as (G & Hrun & Hf).
  assert (reachable c) as Hc by (by eapply runs_trans).
  destruct (running_rel c0 g0 b sb Hf0 Hb) as [([] & _) _ _ _ _].
  destruct (ba_commit _ _ B0 b) as [E|[u Hu]].
  { rewrite E in mr_commit. destruct (runs_follow _ _ _ Hf (serves_runs _ _ _ Hsv)) as (g' & _ & Hf').
    destruct (running_rel c' g' n s' Hf' Hr') as [([] & _) _ _ _ _]. destruct mr_wf0. lia. }
  destruct (run_kept members g0 G u _ I0 Hrun Hu) as [HuG _].
  assert (n ∈ [1; 2; 3]) as Hn.
  { pose proof (fo_procs _ _ Hf n) as H. destruct Hr as [E _]. rewrite E in H. apply H. }
  assert (exists g', watched n G (next_read_context_ s) (Spec.commit g0 b) u id c' g') as (g' & Hw).
  { clear Hr' Hin. induction Hsv as [|c1 a s1 Hsv (g1 & IH) Ha Hr1].
    - exists G. by apply watched_start.
    - exact (watched_act n G _ _ u Hn (fo_inv _ _ Hf) HuG id c1 g1 a s1 IH Ha Hr1). }
  destruct Hw as [_ _ _ (s1 & (E1 & _) & _ & _ & Hd) _ _].
  assert (s1 = s') as -> by (destruct Hr'; congruence). specialize (Hd Hin). lia.
Qed.

(** The reply to a read, from the store as it is. *)
Definition read_answer (kv : gmap bytes bytes) (key : bytes) : bytes :=
  match kv !! key with
  | Some value => Resp.encode_bulk_string value
  | None => Resp.encode_nil_bulk_string
  end.

Lemma complete_read_replies s id tasks pending :
  Impl.loops_stopped (restore_env s) = false ->
  Impl.store_io_ (restore_env s) = CompleteRead id :: tasks ->
  Impl.pending_reads_ (restore_env s) !! id = Some pending ->
  Impl.replies (restore_env (snd (run_event RunStore s))) =
  Impl.replies (restore_env s) ++ [(read_reply pending, read_answer (kv_of s) (read_key pending))].
Proof.
  intros Hl Hq Hp. rewrite run_event_eq, Hq by done. unfold in_loop, on_impl. run_m.
  cbn [run_store_task]. unfold complete_read, reply_to, KVStore.get, read_answer, kv_of. run_m.
  change (Impl.pending_reads_ _) with (Impl.pending_reads_ (restore_env s)). rewrite Hp.
  change (KVStore.store_ _) with (KVStore.store_ (Impl.store_ (restore_env s))).
  by destruct (KVStore.store_ _ !! _).
Qed.

(** C5: a read a leader answers, which was not yet complete at a moment when the
    leader had no round open, is answered from a store that has applied
    everything any member had committed by then. *)
Theorem read_reflects_commits c0 c c' b n sb s s' id tasks pending :
  reachable c0 -> running c0 b sb -> runs c0 c ->
  running c n s -> state_ s = Leader -> read_index_pending_ s = false ->
  CompleteRead id ∉ Impl.store_io_ (restore_env s) ->
  serves n c c' -> running c' n s' ->
  Impl.store_io_ (restore_env s') = CompleteRead id :: tasks ->
  Impl.pending_reads_ (restore_env s') !! id = Some pending ->
  let k := Impl.store_applied_index_ (restore_env sb) in
  let k' := Impl.store_applied_index_ (restore_env s') in
  commit_index_ sb <= k' /\
  kv_replay (drop (Z.to_nat k) (take (Z.to_nat k') (log_ s'))) (kv_of sb) = Some (kv_of s') /\
  Impl.replies (restore_env (snd (run_event RunStore s'))) =
  Impl.replies (restore_env s') ++ [(read_reply pending, read_answer (kv_of s') (read_key pending))].
Proof.
  intros Hc0 Hb Hr0 Hr Hl Hp Hid Hsv Hr' Hq Hpend k k'.
  assert (commit_index_ sb <= last_applied_ s') as Hw.
  { eapply (read_waits c0 c c'); try done. rewrite Hq. set_solver. }
  assert (runs c0 c') as Hrun by (eapply runs_trans; [done|by eapply serves_runs]).
  destruct (two_moments c0 c' Hc0 Hrun) as (g & g' & Hf & Hf' & _).
  destruct (running_rel c' g' n s' Hf' Hr') as [_ [Hap' _ _ _] _ _ _]. fold k' in Hap'.
  destruct (running_rel c0 g b sb Hf Hb) as [_ [Hap _ _ _] _ _ _]. fold k in Hap.
  split; [lia|]. split; [eapply stores_replay; try done; fold k k'; lia|].
  by apply (complete_read_replies s' id tasks); [apply Hr'|..].
Qed.

End Reads.
