(* ===== verification/ClusterDemo.v ===== *)
(** * Runs of the cluster, computed

    Concrete encodings, a script of actions and what comes out of it: the
    inputs at which the theorems of [ClusterProps] and [ReadIndex] are applied. *)

From S2P Require Import Prelude Msgpack Proto Wal WalFacts KvStore RespCodec NodeConfig Raft RaftNode.
From S2P Require Import RaftDisk Runtime RaftSpec Cluster BootSim ClusterProps ReadIndex.
Import Raft.

#[local] Existing Instance constant_rng.
#[local] Existing Instance bits_wal_pack.
#[local] Existing Instance bits_wal_pack_laws.
#[local] Existing Instance bits_map_pack.
#[local] Existing Instance bits_command_pack.
#[local] Instance command_laws : MsgPackLaws Command.t := Bits.msgpack_laws Command.t.

(** ** Scripts *)

(** The next action may depend on the network. *)
Definition script : Type := list (cluster -> action).

Fixpoint play (sc : script) (c : cluster) : cluster :=
  match sc with [] => c | f :: rest => play rest (act c (f c)) end.

Definition roomyb (s : t Impl.t) : bool :=
  (term_ s + 1 <? u64_max) && ((zlen (log_ s) + 2 <? u64_max) && (next_read_context_ s + 1 <? u64_max)).

Definition allowedb (c : cluster) (a : action) : bool :=
  match a with
  | Happens n ev =>
      match ev with Arrival m => bool_decide (m ∈ network c) | _ => true end &&
      match procs c n with Up s => roomyb s | Down _ => true end
  | Crash _ => true
  | Start config _ _ => NodeConfig.snapshot_threshold config =? 0
  end.

Fixpoint playable (sc : script) (c : cluster) : bool :=
  match sc with [] => true | f :: rest => allowedb c (f c) && playable rest (act c (f c)) end.

Lemma allowedb_allowed c a : allowedb c a = true -> allowed c a.
Proof.
  destruct a as [n ev| |]; cbn; [|done|apply Z.eqb_eq]. rewrite andb_true_iff. intros [H1 H2].
  split.
  - destruct ev; try done. by apply bool_decide_eq_true in H1.
  - destruct (procs c n); [|done]. unfold roomyb in H2. rewrite !andb_true_iff, !Z.ltb_lt in H2. done.
Qed.

Lemma play_runs sc : forall c, playable sc c = true -> runs c (play sc c).
Proof.
  induction sc as [|f rest IH]; intros c; [constructor|]. cbn [playable play]. rewrite andb_true_iff.
  intros [Ha Hr]. eapply runs_trans; [|by apply IH].
  apply (runs_act c c (f c)); [constructor|by apply allowedb_allowed].
Qed.

(** The process of [n] runs after every action. *)
Definition runningb (c : cluster) (n : Z) : bool :=
  match procs c n with
  | Up s => negb (storage_failed_ s) && negb (Impl.loops_stopped (restore_env s))
  | Down _ => false
  end.

Fixpoint servingb (n : Z) (sc : script) (c : cluster) : bool :=
  match sc with
  | [] => true
  | f :: rest => allowedb c (f c) && runningb (act c (f c)) n && servingb n rest (act c (f c))
  end.

Lemma serves_trans n c1 c2 c3 : serves n c1 c2 -> serves n c2 c3 -> serves n c1 c3.
Proof. intros H1 H2. induction H2; [done|]. by econstructor. Qed.

Lemma runningb_running c n : runningb c n = true -> exists s, running c n s.
Proof.
  unfold runningb, running. destruct (procs c n) as [s|]; [|done].
  rewrite andb_true_iff, !negb_true_iff. intros [? ?]. by exists s.
Qed.

Lemma play_serves n sc : forall c, servingb n sc c = true -> serves n c (play sc c).
Proof.
  induction sc as [|f rest IH]; intros c; [constructor|]. cbn [servingb play]. rewrite !andb_true_iff.
  intros [[Ha Hs] Hr]. destruct (runningb_running _ _ Hs) as [s Hs'].
  eapply serves_trans; [|by apply IH].
  apply (serves_act n c c (f c) s); [constructor|by apply allowedb_allowed|done].
Qed.

(** ** The actions of the demonstration *)

Definition demo_config (n : Z) : NodeConfig.t :=
  NodeConfig.mk n (str "127.0.0.1:7000") (str "127.0.0.1:6000")
    (filter (fun p => peer_id p <> n)
       [MkPeer 1 (str "127.0.0.1:7001"); MkPeer 2 (str "127.0.0.1:7002"); MkPeer 3 (str "127.0.0.1:7003")])
    (str "data") 50 0.

Definition demo_machine : Machine := MkMachine (1, 2) 3 (4, 5) 6 [] [] map_to_list.

Definition start (n : Z) : script := [fun _ => Start (demo_config n) demo_machine (Disk.healthy ∅)].

Definition happens (n : Z) (ev : node_event) : script := [fun _ => Happens n ev].

(** The [k]-th message of the network reaches its addressee. *)
Definition deliver_nth (k : nat) : script :=
  [(fun c => match network c !! k with
             | Some m => Happens (Message.to m) (Arrival m)
             | None => Crash 0
             end);
   (fun c => match network c !! k with
             | Some m => Happens (Message.to m) RunRaft
             | None => Crash 0
             end)].

Definition deliver_range (from n : nat) : script := mjoin (deliver_nth <$> seq from n).

Definition client_set (n : Z) (key value : string) : script :=
  happens n (ClientCommand (Resp.MkCommand [str "SET"; str key; str value]) 7 0) ++ happens n RunRaft.

(** Member 1 is elected, a client writes, and the others learn of it. *)
Definition elected : script :=
  start 1 ++ start 2 ++ start 3 ++ mjoin (replicate 10 (happens 1 TickTimer)) ++ deliver_range 0 12.

Definition written : script :=
  client_set 1 "k" "v" ++ deliver_range 12 4 ++ happens 1 RunStore ++ happens 1 RunRaft ++
  happens 1 TickTimer ++ deliver_range 16 4 ++ happens 2 RunStore ++ happens 2 RunRaft.

(** Member 1 stops, member 2 is elected, member 1 comes back, and a client
    overwrites the key. *)
Definition failed_over : script :=
  [fun _ => Crash 1] ++ mjoin (replicate 10 (happens 2 TickTimer)) ++
  mjoin (replicate 10 (happens 3 TickTimer)) ++
  mjoin (deliver_nth <$> [21; 24; 26; 27; 29; 30]%nat) ++ start 1 ++
  client_set 2 "k" "w" ++ deliver_range 31 4 ++ happens 2 RunStore ++ happens 2 RunRaft.

(** A client reads the key, and member 2 confirms the round. *)
Definition read_confirmed : script :=
  happens 1 (ClientCommand (Resp.MkCommand [str "GET"; str "k"]) 8 0) ++ happens 1 RunRaft ++
  deliver_nth 20 ++ deliver_nth 22.

Definition first_moment : cluster := play elected initial.
Definition second_moment : cluster := play written first_moment.
Definition third_moment : cluster := play failed_over second_moment.
Definition stopped_moment : cluster := play [fun _ => Crash 1] second_moment.
Definition read_moment : cluster := play read_confirmed second_moment.

Lemma first_reachable : reachable first_moment.
Proof. apply play_runs. by vm_compute. Qed.

Lemma first_second : runs first_moment second_moment.
Proof. apply play_runs. by vm_compute. Qed.

Lemma second_reachable : reachable second_moment.
Proof. eapply runs_trans; [apply first_reachable|apply first_second]. Qed.

Lemma second_third : runs second_moment third_moment.
Proof. apply play_runs. by vm_compute. Qed.

Lemma stopped_reachable : reachable stopped_moment.
Proof. eapply runs_trans; [apply second_reachable|]. apply play_runs. by vm_compute. Qed.

Lemma second_read : serves 1 second_moment read_moment.
Proof. apply play_serves. by vm_compute. Qed.

#[local] Opaque first_moment second_moment third_moment stopped_moment read_moment.

(** The process of a member. *)
Definition node_at (c : cluster) (n : Z) : t Impl.t :=
  match procs c n with Up s => s | Down _ => new_node (demo_config n) demo_machine tt 0 end.

Lemma running_at c n : runningb c n = true -> running c n (node_at c n).
Proof.
  unfold runningb, running, node_at. destruct (procs c n); [|done].
  rewrite andb_true_iff, !negb_true_iff. intros [-> ->]. done.
Qed.

Definition files_at (c : cluster) (n : Z) : gmap bytes bytes :=
  match procs c n with Up _ => ∅ | Down files => files end.

Lemma down_at c n :
  match procs c n with Up _ => false | Down _ => true end = true -> procs c n = Down (files_at c n).
Proof. unfold files_at. by destruct (procs c n). Qed.

(** What the run does: two leaders in turn, the client's answers, and the
    store of the second leader. *)
Lemma demo_outcome :
  bool_decide (state_ (node_at second_moment 1) = Leader) &&
  bool_decide (state_ (node_at third_moment 2) = Leader) &&
  bool_decide (kv_of (node_at second_moment 2) = {[str "k" := str "v"]}) &&
  bool_decide (kv_of (node_at third_moment 2) = {[str "k" := str "w"]}) &&
  bool_decide (Impl.replies (restore_env (node_at third_moment 2)) =
    [(7, str "+OK" ++ [Byte.x0d; Byte.x0a])]) = true.
Proof. by vm_compute. Qed.

(** ** The theorems on the run *)

Lemma election_safety_witness :
  state_ (node_at first_moment 1) = Leader /\ term_ (node_at first_moment 1) = 1 /\ 1 = 1.
Proof.
  split; [by vm_compute|]. split; [by vm_compute|].
  apply (election_safety first_moment second_moment 1 1
    (node_at first_moment 1) (node_at second_moment 1));
    [apply first_reachable|apply first_second|apply running_at; by vm_compute..| | |]; by vm_compute.
Defined.

Lemma same_head (l l' : list Entry.t) :
  bool_decide (l !! 0%nat = l' !! 0%nat) && bool_decide (is_Some (l !! 0%nat)) = true ->
  exists e, l !! 0%nat = Some e /\ l' !! 0%nat = Some e.
Proof.
  rewrite andb_true_iff, !bool_decide_eq_true. intros [E [e He]]. exists e. by rewrite <- E.
Qed.

Lemma log_matching_witness :
  take 1 (log_ (node_at second_moment 1)) = take 1 (log_ (node_at third_moment 2)).
Proof.
  destruct (same_head (log_ (node_at second_moment 1)) (log_ (node_at third_moment 2)))
    as (e & H1 & H2); [by vm_compute|].
  apply (log_matching second_moment third_moment 1 2 (node_at second_moment 1)
    (node_at third_moment 2) 0 e e);
    [apply second_reachable|apply second_third|apply running_at; by vm_compute..
    |exact H1|exact H2|reflexivity].
Defined.

Lemma leader_completeness_witness :
  commit_index_ (node_at second_moment 1) = 1 /\ state_ (node_at third_moment 2) = Leader /\
  take (Z.to_nat (commit_index_ (node_at second_moment 1))) (log_ (node_at third_moment 2)) =
  take (Z.to_nat (commit_index_ (node_at second_moment 1))) (log_ (node_at second_moment 1)).
Proof.
  split; [by vm_compute|]. split; [by vm_compute|].
  apply (leader_completeness second_moment third_moment 1 2);
    [apply second_reachable|apply second_third|apply running_at; by vm_compute..| |]; by vm_compute.
Defined.

Lemma state_machine_safety_witness :
  exists e, log_ (node_at second_moment 2) !! 0%nat = Some e /\
    log_ (node_at third_moment 1) !! 0%nat = Some e /\ Entry.index e = 1.
Proof.
  apply (state_machine_safety second_moment third_moment 2 1
    (node_at second_moment 2) (node_at third_moment 1) 1);
    [apply second_reachable|apply second_third|apply running_at; by vm_compute..| |]; by vm_compute.
Defined.

Lemma stores_agree_witness :
  Impl.store_applied_index_ (restore_env (node_at third_moment 2)) = 2 /\
  kv_replay
    (drop (Z.to_nat (Impl.store_applied_index_ (restore_env (node_at second_moment 1))))
      (take (Z.to_nat (Impl.store_applied_index_ (restore_env (node_at third_moment 2))))
        (log_ (node_at third_moment 2)))) (kv_of (node_at second_moment 1)) =
  Some (kv_of (node_at third_moment 2)).
Proof.
  split; [by vm_compute|].
  apply (stores_agree second_moment third_moment 1 2);
    [apply second_reachable|apply second_third|apply running_at; by vm_compute..|].
  by vm_compute.
Defined.

Lemma restart_keeps_promises_witness :
  exists s d, boot (demo_config 1) demo_machine
    ((Disk.healthy ∅) <| Disk.files := files_of (node_at second_moment 1) |>) = (Ok s, d) /\
  term_ s = term_ (node_at second_moment 1) /\ voted_for_ s = voted_for_ (node_at second_moment 1) /\
  log_ s = log_ (node_at second_moment 1).
Proof.
  destruct (boot (demo_config 1) demo_machine
    ((Disk.healthy ∅) <| Disk.files := files_of (node_at second_moment 1) |>)) as [[s|e] d] eqn:E.
  2:{ apply (f_equal (fun r => match fst r with Ok _ => true | Throw _ => false end)) in E.
      by vm_compute in E. }
  exists s, d. split; [reflexivity|].
  destruct (restart_keeps_promises second_moment 1 (node_at second_moment 1) (demo_config 1)
    demo_machine (Disk.healthy ∅) s d) as (H1 & H2 & H3 & _);
    [apply second_reachable|apply running_at; by vm_compute|done|done|exact E|].
  exact (conj H1 (conj H2 H3)).
Defined.

Lemma start_succeeds_witness :
  exists s d, boot (demo_config 1) demo_machine
    ((Disk.healthy ∅) <| Disk.files := files_at stopped_moment 1 |>) = (Ok s, d).
Proof.
  apply (start_succeeds stopped_moment 1 (files_at stopped_moment 1));
    [apply stopped_reachable|apply down_at; by vm_compute|reflexivity|reflexivity|set_solver
    |reflexivity..].
Defined.

(** Member 1 answers the read with what member 2 had applied too. *)
Definition demo_read : Z := 11400714836503067671.
Definition demo_pending : PendingRead := MkPendingRead (str "k") 8 5000.

Lemma read_reflects_commits_witness :
  commit_index_ (node_at second_moment 2) = 1 /\
  1 <= Impl.store_applied_index_ (restore_env (node_at read_moment 1)) /\
  Impl.replies (restore_env (snd (run_event RunStore (node_at read_moment 1)))) =
  Impl.replies (restore_env (node_at read_moment 1)) ++ [(8, Resp.encode_bulk_string (str "v"))].
Proof.
  assert (Resp.encode_bulk_string (str "v") =
    read_answer (kv_of (node_at read_moment 1)) (read_key demo_pending)) as -> by (by vm_compute).
  assert (commit_index_ (node_at second_moment 2) = 1) as E by (by vm_compute).
  assert (Impl.store_io_ (restore_env (node_at second_moment 1)) = []) as Eq by (by vm_compute).
  destruct (read_reflects_commits second_moment second_moment read_moment 2 1
    (node_at second_moment 2) (node_at second_moment 1) (node_at read_moment 1) demo_read [] demo_pending)
    as (H1 & _ & H3);
    [apply second_reachable|apply running_at; by vm_compute|apply runs_refl
    |apply running_at; by vm_compute|by vm_compute|by vm_compute
    |rewrite Eq; apply not_elem_of_nil|apply second_read
    |apply running_at; by vm_compute|by vm_compute|by vm_compute|].
  rewrite E in H1. exact (conj E (conj H1 H3)).
Defined.
