(* ===== verification/Requests.v ===== *)
(** * The clients' requests

    What a node owes its clients: a callback it was given with a command is
    called once, or is still waiting in one of the two tables of
    [NodeRuntime::Impl]; the timer and the stop of the store's loop empty the
    tables.  The theorems are about all runs of the process: messages,
    snapshots, exceptions and stops included. *)

From S2P Require Import Prelude Text Msgpack Proto Wal WalFacts KvStore RespCodec NodeConfig.
From S2P Require Import Raft RaftLemmas RaftNode Runtime RuntimeSim.
From S2P Require Import RaftSpecInv RaftRel BootSim Cluster ClusterSim ClusterProps ClusterDemo.
Import Raft.
Import Impl.

Create HintDb fair_db.

(** ** Request identifiers *)

(** The [k]-th identifier after [base]: they count through the nonzero words. *)
Definition nth_id (base k : Z) : Z := (base - 1 + k) `mod` (u64_max - 1) + 1.

Lemma nth_id_start base : 0 < base < u64_max -> nth_id base 0 = base.
Proof. intros H. unfold nth_id. rewrite Z.mod_small; unfold u64_max in *; lia. Qed.

Lemma nth_id_range base k : 0 < nth_id base k < u64_max.
Proof.
  unfold nth_id. pose proof (Z.mod_pos_bound (base - 1 + k) (u64_max - 1) eq_refl). lia.
Qed.

Lemma nth_id_next base k :
  let next := u64 (nth_id base k + 1) in (if next =? 0 then 1 else next) = nth_id base (k + 1).
Proof.
  cbv zeta. pose proof (nth_id_range base k) as Hr.
  assert (nth_id base (k + 1) = if nth_id base k =? u64_max - 1 then 1 else nth_id base k + 1) as ->.
  { unfold nth_id in *. replace (base - 1 + (k + 1)) with ((base - 1 + k) + 1) by lia.
    rewrite <- Z.add_mod_idemp_l by done.
    set (m := (base - 1 + k) `mod` (u64_max - 1)) in *.
    destruct (Z.eqb_spec (m + 1) (u64_max - 1)) as [E|E].
    - rewrite E, Z.mod_same by done. done.
    - rewrite Z.mod_small; [done|lia]. }
  destruct (Z.eqb_spec (nth_id base k) (u64_max - 1)) as [->|E]; [done|].
  rewrite u64_small by (unfold is_u64; lia).
  destruct (Z.eqb_spec (nth_id base k + 1) 0); lia.
Qed.

Lemma nth_id_inj base j k :
  0 <= j < k -> k < u64_max - 1 -> nth_id base j <> nth_id base k.
Proof.
  unfold nth_id. intros Hj Hk E. apply (f_equal (fun x => x - 1)) in E.
  rewrite !Z.add_simpl_r in E. symmetry in E.
  assert (((base - 1 + k) - (base - 1 + j)) `mod` (u64_max - 1) = 0) as H0.
  { by rewrite Zminus_mod, E, Z.sub_diag. }
  rewrite Z.mod_small in H0 by lia. lia.
Qed.

(** ** The account of a node *)

(** The callbacks that wait for an answer. *)
Definition waiting (i : Impl.t) : list ReplyCallback :=
  (write_reply <$> (map_to_list (pending_writes_ i)).*2) ++
  (read_reply <$> (map_to_list (pending_reads_ i)).*2).

(** Every callback the node was given. *)
Definition account (i : Impl.t) : list ReplyCallback := (replies i).*1 ++ waiting i.

(** A posted rejection can be encoded. *)
Definition speakable (task : store_task) : Prop :=
  match task with
  | RejectWrite _ error | RejectRead _ error => Resp.has_line_break error = false
  | _ => True
  end.

Lemma encode_clean error :
  Resp.has_line_break error = false -> exists e, Resp.encode_error error = Ok e.
Proof. intros H. unfold Resp.encode_error. rewrite H. eauto. Qed.

Section Account.
Variables (base : Z) (given : list ReplyCallback) (count : Z).

Record balanced (i : Impl.t) : Prop := {
  ba_account : account i ≡ₚ given;
  ba_next : next_request_id_ i = nth_id base count;
  ba_writes : forall id, is_Some (pending_writes_ i !! id) -> exists j, 0 <= j < count /\ id = nth_id base j;
  ba_reads : forall id, is_Some (pending_reads_ i !! id) -> exists j, 0 <= j < count /\ id = nth_id base j;
  ba_tasks : Forall speakable (store_io_ i);
}.

Definition fair {A} (m : M Impl.t A) : Prop := forall i, balanced i -> balanced (snd (m i)).

Lemma fair_ret {A} (a : A) : fair (mret a).
Proof. by intros i. Qed.

Lemma fair_get : fair get.
Proof. by intros i. Qed.

Lemma fair_lift {A} (r : result A) : fair (lift r).
Proof. by intros i. Qed.

Lemma fair_bind {A B} (m : M Impl.t A) (f : A -> M Impl.t B) :
  fair m -> (forall a, fair (f a)) -> fair (m ≫= f).
Proof.
  intros Hm Hf i Hi. specialize (Hm i Hi). unfold mbind, M_bind.
  destruct (m i) as [[a|e] i1]; [|done]. by apply Hf.
Qed.

(** A read of the object followed by a body that may rely on it. *)
Lemma fair_read {B} (f : Impl.t -> M Impl.t B) :
  (forall i, balanced i -> balanced (snd (f i i))) -> fair (get ≫= f).
Proof. intros H i. apply H. Qed.

Lemma fair_when b (m : M Impl.t unit) : fair m -> fair (when b m).
Proof. destruct b; [done|]. intros _. apply fair_ret. Qed.

Lemma fair_for_each {A} (l : list A) (body : A -> M Impl.t unit) :
  (forall a, a ∈ l -> fair (body a)) -> fair (for_each l body).
Proof.
  induction l as [|a l IH]; intros Hb; [apply fair_ret|]. cbn. apply fair_bind; [apply Hb; set_solver|].
  intros []. apply IH. set_solver.
Qed.

Lemma fair_modify h : (forall i, balanced i -> balanced (h i)) -> fair (modify h).
Proof. intros H i. apply H. Qed.

Lemma fair_post_raft task : fair (post_raft task).
Proof. by intros i []. Qed.

Lemma fair_post_store task : speakable task -> fair (post_store task).
Proof. intros Ht i []. split; cbn; auto. apply Forall_app; auto. Qed.

Lemma fair_stop reason : fair (request_stop reason).
Proof.
  intros i Hi. unfold request_stop. run_m. destruct (negb _), (stopping_ i) eqn:E; cbn; rewrite ?E;
    by destruct Hi.
Qed.
End Account.

#[export] Hint Resolve fair_post_raft fair_post_store fair_stop : fair_db.
#[export] Hint Extern 0 (speakable _) => exact I : fair_db.

Ltac fair_step :=
  lazymatch goal with
  | |- fair _ _ _ (_ ≫= _) => apply fair_bind; [|intros ?]
  | |- fair _ _ _ (mret _) => apply fair_ret
  | |- fair _ _ _ get => apply fair_get
  | |- fair _ _ _ (lift _) => apply fair_lift
  | |- fair _ _ _ (modify _) => apply fair_modify; by intros ? []
  | |- fair _ _ _ (when _ _) => apply fair_when
  | |- fair _ _ _ (for_each _ _) => apply fair_for_each; intros ? ?
  | |- fair _ _ _ (let _ := _ in _) => cbv zeta
  | |- fair _ _ _ (match ?x with _ => _ end) => destruct x eqn:?
  end.
Ltac fair_by := intros; repeat fair_step; auto with fair_db.

Section Handlers.
Context {CP : MsgPack Command.t} {MP : MapPack}.
Variables (base : Z) (given : list ReplyCallback) (count : Z).
Abbreviation balanced := (balanced base given count).
Abbreviation fair := (fair base given count).

(** An answered request leaves its table. *)
Lemma balanced_write i id p encoded :
  pending_writes_ i !! id = Some p -> balanced i ->
  balanced (i <| pending_writes_ := delete id (pending_writes_ i) |>
              <| replies := replies i ++ [(write_reply p, encoded)] |>).
Proof.
  intros Hp []. split; cbn; auto.
  - rewrite <- ba_account0. unfold account, waiting. cbn. rewrite fmap_app. cbn.
    rewrite <- (map_to_list_delete (pending_writes_ i) id p Hp). cbn. solve_Permutation.
  - intros id' [x Hx]. apply lookup_delete_Some in Hx as [_ Hx]. eauto.
Qed.

Lemma balanced_read i id p encoded :
  pending_reads_ i !! id = Some p -> balanced i ->
  balanced (i <| pending_reads_ := delete id (pending_reads_ i) |>
              <| replies := replies i ++ [(read_reply p, encoded)] |>).
Proof.
  intros Hp []. split; cbn; auto.
  - rewrite <- ba_account0. unfold account, waiting. cbn. rewrite fmap_app. cbn.
    rewrite <- (map_to_list_delete (pending_reads_ i) id p Hp). cbn. solve_Permutation.
  - intros id' [x Hx]. apply lookup_delete_Some in Hx as [_ Hx]. eauto.
Qed.

Lemma fair_reject_write id error : Resp.has_line_break error = false -> fair (reject_write id error).
Proof.
  intros He. destruct (encode_clean error He) as [e Ee]. apply fair_read. intros i Hi.
  destruct (pending_writes_ i !! id) as [p|] eqn:Hp; [|done]. rewrite Ee.
  by apply (balanced_write i id p e).
Qed.

Lemma fair_reject_read id error : Resp.has_line_break error = false -> fair (reject_read id error).
Proof.
  intros He. destruct (encode_clean error He) as [e Ee]. apply fair_read. intros i Hi.
  destruct (pending_reads_ i !! id) as [p|] eqn:Hp; [|done]. rewrite Ee.
  by apply (balanced_read i id p e).
Qed.

Lemma fair_complete_read id : fair (complete_read id).
Proof.
  apply fair_read. intros i Hi. destruct (pending_reads_ i !! id) as [p|] eqn:Hp; [|done].
  destruct (KVStore.get _ _ _) as [found value]. by apply (balanced_read i id p).
Qed.

Lemma fair_complete_write result : fair (complete_write result).
Proof.
  apply fair_read. intros i Hi.
  destruct (pending_writes_ i !! KVStore.request_id result) as [p|] eqn:Hp; [|done].
  run_m. destruct (_ =? _); by apply (balanced_write i (KVStore.request_id result) p).
Qed.
#[local] Hint Resolve fair_reject_write fair_reject_read fair_complete_read fair_complete_write : fair_db.

Lemma fair_apply entry : fair (apply_committed_entry entry).
Proof. unfold apply_committed_entry, acknowledge_applied. fair_by. Qed.

Lemma fair_restore index state : fair (restore_store index state).
Proof. unfold restore_store. fair_by. Qed.
#[local] Hint Resolve fair_apply fair_restore : fair_db.

(** The answers of a loop over the pending requests. *)
Lemma for_each_reply {A} (f : A -> ReplyCallback) encoded (l : list A) : forall i,
  for_each l (fun p => reply_to (f p) encoded) i =
  (Ok tt, i <| replies := replies i ++ ((fun p => (f p, encoded)) <$> l) |>).
Proof.
  induction l as [|p l IH]; intros i; cbn [for_each].
  - run_m. cbn. rewrite app_nil_r. by destruct i.
  - unfold mbind at 1, M_bind at 1. unfold reply_to at 1. run_m. rewrite IH. cbn.
    by rewrite <- app_assoc.
Qed.

(** Stopping answers every request. *)
Lemma stop_store_eq i : exists encoded,
  Resp.encode_error stopping_error = Ok encoded /\
  stop_store i = (Ok tt, i <| replies := replies i ++ ((fun r => (r, encoded)) <$> waiting i) |>
                           <| pending_writes_ := ∅ |> <| pending_reads_ := ∅ |>).
Proof.
  eexists. split; [reflexivity|]. unfold stop_store.
  rewrite (eq_refl : Resp.encode_error stopping_error = Ok _). run_m.
  rewrite for_each_reply. cbn. rewrite for_each_reply. cbn. unfold waiting.
  rewrite fmap_app, <- !list_fmap_compose, app_assoc. by destruct i.
Qed.

Lemma fair_stop_store : fair stop_store.
Proof.
  intros i []. destruct (stop_store_eq i) as (e & _ & ->). split; cbn; auto.
  - rewrite <- ba_account0. unfold account, waiting. cbn.
    rewrite !map_to_list_empty. cbn. rewrite app_nil_r, fmap_app, <- list_fmap_compose.
    cbn. by rewrite list_fmap_id.
  - intros id [? Hx]. by rewrite lookup_empty in Hx.
  - intros id [? Hx]. by rewrite lookup_empty in Hx.
Qed.
#[local] Hint Resolve fair_stop_store : fair_db.

Lemma fair_store_task task : speakable task -> fair (run_store_task task).
Proof.
  destruct task; cbn [run_store_task speakable]; intros H; unfold capture_snapshot; fair_by.
Qed.

Lemma fair_expire now : fair (expire_client_requests now).
Proof. unfold expire_client_requests. fair_by. Qed.

Lemma balanced_failed i : balanced i -> balanced (snd (loop_failed i)).
Proof. by intros []. Qed.

(** The store's part of a snapshot sent by the leader. *)
Lemma balanced_restore index snapshot i :
  balanced i -> balanced (snd (restore_snapshot index snapshot i)).
Proof.
  intros Hi. unfold restore_snapshot. destruct (_ || _); [done|].
  destruct (match waits i with [] => _ | _ => _ end) as [ready rest].
  pose proof (ba_tasks _ _ _ _ Hi) as Ht.
  assert (Hw : balanced (i <| waits := rest |>)) by by destruct Hi.
  destruct ready; cbn [snd].
  - assert (Hq : balanced (i <| waits := rest |> <| store_io_ := [] |>)) by by destruct Hi; split.
    assert (Hf : fair (for_each (store_io_ (i <| waits := rest |>)) run_store_task)).
    { apply fair_for_each. intros task Hin. apply fair_store_task.
      cbn in Hin. rewrite list.Forall_forall in Ht. auto. }
    specialize (Hf _ Hq). destruct (for_each _ _ _) as [[[]|e] i1]; [|by apply balanced_failed].
    pose proof (fair_restore index snapshot i1 Hf) as Hr.
    destruct (restore_store index snapshot i1) as [[b|e] i2]; [done|by apply balanced_failed].
  - apply (fair_bind base given count (post_store (RestoreTask index snapshot))
             (fun _ => request_stop (str "snapshot restore timed out"))); [fair_by|fair_by|done].
Qed.
End Handlers.

(** ** A client's command *)

Section Client.
Context {CP : MsgPack Command.t} {MP : MapPack}.
Variables (base : Z) (given : list ReplyCallback) (count : Z).
Abbreviation balanced := (balanced base).

(** What a handler makes of a callback: it is in the account if and only if
    the handler returns. *)
Definition takes (reply : ReplyCallback) (m : M Impl.t unit) (i : Impl.t) : Prop :=
  exists count', count <= count' <= count + 1 /\
    balanced (if is_ok (fst (m i)) then reply :: given else given) count' (snd (m i)).

Lemma takes_reply reply encoded i : balanced given count i -> takes reply (reply_to reply encoded) i.
Proof.
  intros []. exists count. split; [lia|]. unfold reply_to. run_m. split; cbn; auto.
  rewrite <- ba_account0. unfold account, waiting. cbn. rewrite fmap_app. cbn. solve_Permutation.
Qed.

Lemma takes_error reply error i : balanced given count i -> takes reply (reply_error reply error) i.
Proof.
  intros Hi. unfold reply_error. destruct (Resp.encode_error error) as [e|x] eqn:E.
  - apply (takes_reply reply e i Hi).
  - exists count. split; [lia|]. exact Hi.
Qed.

Lemma allocate_nth i :
  next_request_id_ i = nth_id base count ->
  allocate_request_id i = (Ok (nth_id base count), i <| next_request_id_ := nth_id base (count + 1) |>).
Proof.
  intros E. rewrite <- nth_id_next. pose proof (nth_id_range base count) as Hr.
  unfold allocate_request_id. run_m. destruct i. cbn -[u64] in *. subst.
  destruct (u64 _ =? 0) eqn:Hz; cbn -[u64];
    (destruct (Z.eqb_spec (nth_id base count) 0); [lia|done]).
Qed.

(** The identifier that comes next is not in use. *)
Lemma nth_id_unused {A} (m : gmap Z A) :
  count < u64_max - 1 ->
  (forall id, is_Some (m !! id) -> exists j, 0 <= j < count /\ id = nth_id base j) ->
  m !! nth_id base count = None.
Proof.
  intros Hc Hm. destruct (m !! nth_id base count) eqn:E; [|done].
  destruct (Hm (nth_id base count)) as (j & Hj & E'); [eauto|].
  by destruct (nth_id_inj base j count Hj Hc).
Qed.

Lemma nth_id_kept {A} (m : gmap Z A) a :
  0 <= count ->
  (forall id, is_Some (m !! id) -> exists j, 0 <= j < count /\ id = nth_id base j) ->
  forall id, is_Some (<[nth_id base count := a]> m !! id) ->
  exists j, 0 <= j < count + 1 /\ id = nth_id base j.
Proof.
  intros Hc Hm id [x Hx]. apply lookup_insert_Some in Hx as [[<- _]|[_ Hx]].
  - exists count. lia.
  - destruct (Hm id) as (j & Hj & ->); [eauto|]. exists j. lia.
Qed.

Hypothesis count_small : 0 <= count < u64_max - 1.

Lemma earlier_ids {A} (m : gmap Z A) :
  (forall id, is_Some (m !! id) -> exists j, 0 <= j < count /\ id = nth_id base j) ->
  forall id, is_Some (m !! id) -> exists j, 0 <= j < count + 1 /\ id = nth_id base j.
Proof. intros Hm id H. destruct (Hm id H) as (j & Hj & ->). exists j. lia. Qed.

Lemma takes_write command reply now i :
  balanced given count i -> takes reply (begin_write command reply now) i.
Proof.
  intros []. exists (count + 1). split; [lia|]. unfold begin_write, post_raft, mbind, M_bind.
  rewrite allocate_nth by done. run_m. unfold emplace. cbn.
  pose proof (nth_id_unused (pending_writes_ i) (proj2 count_small) ba_writes0) as Hn.
  rewrite Hn. split; cbn.
  - rewrite <- ba_account0. unfold account, waiting. cbn.
    rewrite (map_to_list_insert _ _ _ Hn). cbn. solve_Permutation.
  - done.
  - apply nth_id_kept; [lia|done].
  - by apply earlier_ids.
  - done.
Qed.

Lemma takes_read key reply now i :
  balanced given count i -> takes reply (begin_read key reply now) i.
Proof.
  intros []. exists (count + 1). split; [lia|]. unfold begin_read, post_raft, mbind, M_bind.
  rewrite allocate_nth by done. run_m. unfold emplace. cbn.
  pose proof (nth_id_unused (pending_reads_ i) (proj2 count_small) ba_reads0) as Hn.
  rewrite Hn. split; cbn.
  - rewrite <- ba_account0. unfold account, waiting. cbn.
    rewrite (map_to_list_insert _ _ _ Hn). cbn. solve_Permutation.
  - done.
  - by apply earlier_ids.
  - apply nth_id_kept; [lia|done].
  - done.
Qed.

Lemma takes_command command reply now i :
  balanced given count i -> takes reply (handle_client_command command reply now) i.
Proof.
  intros Hi. unfold handle_client_command.
  repeat match goal with |- takes _ (match ?x with _ => _ end) _ => destruct x end;
    auto using takes_error, takes_write, takes_read, takes_reply.
  apply (takes_reply reply _ i Hi).
Qed.
End Client.

Lemma line_break_app a b :
  Resp.has_line_break (a ++ b) = Resp.has_line_break a || Resp.has_line_break b.
Proof.
  unfold Resp.has_line_break. apply eq_bool_prop_intro.
  rewrite !orb_True, !bool_decide_spec. set_solver.
Qed.

Lemma uppercase_line_break v :
  Resp.has_line_break v = true -> Resp.has_line_break (uppercase_ascii v) = true.
Proof.
  unfold Resp.has_line_break, uppercase_ascii. rewrite !orb_true_iff, !bool_decide_eq_true.
  intros [H|H]; [left|right]; apply list_elem_of_fmap;
    [by exists Resp.cr|by exists Resp.lf].
Qed.

(** Whether the name of a command can be quoted in an error. *)
Definition nameable (command : Resp.RespCommand) : bool :=
  match Resp.arguments command with [] => true | name :: _ => negb (Resp.has_line_break name) end.

(** The handler throws only for the name of an unknown command. *)
Lemma client_answered {CP : MsgPack Command.t} command reply now i :
  is_ok (fst (handle_client_command command reply now i)) = nameable command.
Proof.
  unfold handle_client_command, nameable. destruct (Resp.arguments command) as [|front rest]; [done|].
  destruct (allocate_eq i) as (id & next & Ha & _).
  destruct (Resp.has_line_break front) eqn:Hb; cbn [negb].
  - pose proof (uppercase_line_break front Hb) as Hu.
    rewrite !decide_False by (intros E; by rewrite E in Hu).
    unfold reply_error, Resp.encode_error. by rewrite !line_break_app, Hb, orb_true_r.
  - repeat match goal with |- context [if decide ?P then _ else _] => destruct (decide P) end;
      try (destruct rest as [|? [|? [|? ?]]]; try done;
           unfold begin_write, begin_read, mbind, M_bind; by rewrite Ha).
    unfold reply_error, Resp.encode_error. by rewrite !line_break_app, Hb.
Qed.

(** ** The process *)

Lemma clean_to_string n : Resp.has_line_break (to_string n) = false.
Proof.
  assert (Forall (fun b => b <> Resp.cr /\ b <> Resp.lf) (to_string n)) as Hf.
  { unfold to_string. destruct (n <? 0); [constructor; [done|]|];
      (apply digits_clean; [|done]; intros d Hd; split; intros E;
       apply (f_equal b2z) in E; unfold digit_char in E; rewrite b2z_z2b in E;
       rewrite Z.mod_small in E by lia; change (b2z Resp.cr) with 13 in E;
       change (b2z Resp.lf) with 10 in E; lia). }
  rewrite list.Forall_forall in Hf. unfold Resp.has_line_break.
  apply orb_false_iff. split; apply bool_decide_eq_false; intros H; by destruct (Hf _ H).
Qed.

Lemma not_leader_clean {R : Rng} (s : Raft.t Impl.t) : Resp.has_line_break (not_leader_error s) = false.
Proof.
  unfold not_leader_error. destruct (_ =? _); [done|]. rewrite line_break_app. apply clean_to_string.
Qed.

Create HintDb kept_db.

Section Kept.
Context {R : Rng}.
Variables (base : Z) (given : list ReplyCallback) (count : Z).
Variable callback : option (Z -> bytes -> Impl.t -> bool * Impl.t).

Definition ready (s : Raft.t Impl.t) : Prop :=
  balanced base given count (restore_env s) /\ snapshot_restore_ s = callback.

Definition kept {A} (m : M (Raft.t Impl.t) A) : Prop := forall s, ready s -> ready (snd (m s)).

Lemma kept_framed {A} (m : M (Raft.t Impl.t) A) : framed m -> kept m.
Proof. intros Hm s [Hb Hc]. destruct (Hm s) as (He & _ & Hr). split; congruence. Qed.

Lemma kept_bind {A B} (m : M (Raft.t Impl.t) A) (f : A -> M (Raft.t Impl.t) B) :
  kept m -> (forall a, kept (f a)) -> kept (m ≫= f).
Proof.
  intros Hm Hf s Hs. specialize (Hm s Hs). unfold mbind, M_bind.
  destruct (m s) as [[a|e] s1]; [|done]. by apply Hf.
Qed.

Lemma kept_on_impl {A} (m : M Impl.t A) : fair base given count m -> kept (on_impl m).
Proof.
  intros Hm s [Hb Hc]. specialize (Hm _ Hb). unfold on_impl.
  by destruct (m (restore_env s)) as [r i].
Qed.

Lemma kept_modify h : (forall s, ready s -> ready (h s)) -> kept (modify h).
Proof. intros H s. apply H. Qed.

Lemma kept_ret {A} (a : A) : kept (mret a).
Proof. by intros s. Qed.

Lemma kept_get : kept get.
Proof. by intros s. Qed.

Lemma kept_throw {A} e : kept (throw e : M (Raft.t Impl.t) A).
Proof. by intros s. Qed.

Lemma kept_when b (m : M (Raft.t Impl.t) unit) : kept m -> kept (when b m).
Proof. destruct b; [done|]. intros _. apply kept_ret. Qed.

Lemma kept_if_wal m : kept (if_wal m).
Proof. apply kept_framed, framed_if_wal. Qed.

Lemma kept_sync : kept sync_wal.
Proof. apply kept_framed, framed_sync. Qed.

(** An exception stops the loops and is not a reason to forget a request. *)
Lemma kept_in_loop m : kept m -> kept (in_loop m).
Proof.
  intros Hm s Hs. specialize (Hm s Hs). unfold in_loop. destruct (m s) as [[a|e] s1]; [done|].
  destruct Hm as [Hb Hc]. split; [|done]. by apply balanced_failed.
Qed.
End Kept.

Ltac kept_step :=
  lazymatch goal with
  | |- kept _ _ _ _ (_ ≫= _) => apply kept_bind; [|intros ?]
  | |- kept _ _ _ _ (mret _) => apply kept_ret
  | |- kept _ _ _ _ get => apply kept_get
  | |- kept _ _ _ _ (throw _) => apply kept_throw
  | |- kept _ _ _ _ impl => apply kept_bind; [|intros ?]
  | |- kept _ _ _ _ (on_impl _) => apply kept_on_impl; fair_by
  | |- kept _ _ _ _ (if_wal _) => apply kept_if_wal
  | |- kept _ _ _ _ sync_wal => apply kept_sync
  | |- kept _ _ _ _ (modify _) => apply kept_modify; by intros ? [? ?]
  | |- kept _ _ _ _ (when _ _) => apply kept_when
  | |- kept _ _ _ _ (let _ := _ in _) => cbv zeta
  | |- kept _ _ _ _ (match ?x with _ => _ end) => destruct x eqn:?
  end.
Ltac kept_by := intros; repeat kept_step; auto with kept_db.

Section Process.
Context {R : Rng} {WP : WalPack} {CP : MsgPack Command.t} {MP : MapPack}.
Variables (base : Z) (given : list ReplyCallback) (count : Z).
Abbreviation fair := (fair base given count).
Abbreviation kept := (kept base given count (Some restore_snapshot)).
#[local] Hint Extern 1 (speakable _) =>
  cbn [speakable]; try case_match; first [apply not_leader_clean | reflexivity] : fair_db.

Lemma fair_next_send : fair next_send.
Proof. unfold next_send. fair_by. Qed.
#[local] Hint Resolve fair_next_send : fair_db.

Lemma fair_flush messages : fair (flush_loop messages).
Proof. induction messages; cbn [flush_loop]; fair_by. Qed.
#[local] Hint Resolve fair_flush : fair_db.

Lemma kept_restore index data : kept (call_snapshot_restore index data).
Proof.
  intros s [Hb Hc]. unfold call_snapshot_restore. run_m. rewrite Hc.
  pose proof (balanced_restore base given count index data (restore_env s) Hb) as Hr.
  by destruct (restore_snapshot index data (restore_env s)) as [b i].
Qed.
#[local] Hint Resolve kept_restore : kept_db.

Lemma kept_install msg : kept (handle_install_snapshot msg).
Proof.
  unfold handle_install_snapshot. kept_by; apply kept_framed;
    first [apply framed_reply | apply framed_persist | apply framed_prepare].
Qed.

Lemma kept_deliver msg : kept (deliver msg).
Proof.
  destruct (decide (Message.type msg = Message.MsgInstallSnapshot)) as [E|E].
  - unfold deliver. rewrite E. cbn. apply kept_bind; [apply kept_install|].
    intros a. apply kept_framed, framed_push.
  - by apply kept_framed, framed_deliver.
Qed.

Lemma kept_finish tok : kept (finish_read_index tok).
Proof. apply kept_framed, framed_finish. Qed.
#[local] Hint Resolve kept_finish kept_deliver : kept_db.

Lemma kept_after : kept after_raft_activity.
Proof.
  unfold after_raft_activity, dispatch_next_committed_entry, poll_read_indexes,
    maybe_capture_snapshot, flush_raft_messages, read_messages, log_status_if_changed, print. kept_by.
Qed.
#[local] Hint Resolve kept_after : kept_db.

Lemma kept_propose data : kept (propose data).
Proof. apply kept_framed, framed_propose. Qed.

Lemma kept_read_index : kept read_index.
Proof. apply kept_framed, framed_read_index. Qed.

Lemma kept_advance index : kept (advance index).
Proof. unfold advance. kept_by. Qed.

Lemma kept_take_snapshot index state : kept (take_snapshot index state).
Proof. unfold take_snapshot. kept_by. Qed.
#[local] Hint Resolve kept_propose kept_read_index kept_advance kept_take_snapshot : kept_db.

Lemma kept_raft_task task : kept (run_raft_task task).
Proof.
  destruct task; unfold run_raft_task, handle_raft_message, propose_task, read_task, applied_task, cancel_raft_read, snapshot_task;
    kept_by.
Qed.

Lemma kept_tick : kept tick_timer.
Proof. unfold tick_timer. kept_by. apply kept_framed, framed_tick. Qed.

Lemma kept_event ev :
  (forall command reply now, ev <> ClientCommand command reply now) -> kept (run_event ev).
Proof.
  intros Hev s Hs. destruct (loops_stopped (restore_env s)) eqn:Hl.
  { by rewrite run_event_stopped. }
  rewrite run_event_eq by done. destruct ev as [| | |now| |message|].
  - destruct (raft_io_ (restore_env s)); [done|].
    revert s Hs Hl. intros s Hs _. revert s Hs. apply kept_bind; [kept_by|].
    intros _. apply kept_in_loop, kept_raft_task.
  - pose proof (ba_tasks _ _ _ _ (proj1 Hs)) as Ht.
    destruct (store_io_ (restore_env s)) as [|task tasks]; [done|].
    pose proof (Forall_inv Ht) as H1. pose proof (Forall_inv_tail Ht) as H2.
    apply (kept_in_loop _ _ _ _ (on_impl (run_store_task task))
             (kept_on_impl _ _ _ _ _ (fair_store_task base given count task H1))).
    destruct Hs as [[] ?]. split; [by split|done].
  - revert s Hs Hl. intros s Hs _. revert s Hs. apply kept_in_loop, kept_tick.
  - destruct (stopping_ (restore_env s)); [done|].
    apply kept_in_loop; [|done]. apply kept_on_impl, fair_expire.
  - by edestruct Hev.
  - apply kept_on_impl; [|done]. apply fair_post_raft.
  - apply kept_on_impl; [|done]. apply fair_stop.
Qed.
End Process.

(** ** Start *)

Section Start.
Context {R : Rng} {WP : WalPack} {CP : MsgPack Command.t} {MP : MapPack}.
Variables (base : Z) (given : list ReplyCallback) (count : Z).
Abbreviation kept := (kept base given count None).

Lemma kept_restore_loop entries : forall expected, kept (restore_loop entries expected).
Proof. induction entries; intros; cbn [restore_loop]; kept_by. Qed.
#[local] Hint Resolve kept_restore_loop : kept_db.

Lemma kept_replay index entries : kept (replay_committed index entries).
Proof.
  induction entries; cbn [replay_committed]; unfold advance; kept_by.
  intros i []. by destruct (KVStore.apply _ _) as [[] ?].
Qed.
#[local] Hint Resolve kept_replay : kept_db.

Lemma kept_restore_state r : kept (restore_state r).
Proof.
  unfold restore_state, print, restore. kept_by.
  intros i []. by destruct (KVStore.deserialize _ _) as [[] ?].
Qed.

Lemma ready_recovered b u b' :
  recover_storage b = (Ok u, b') ->
  ready base given count None (boot_node b) -> ready base given count None (boot_node b').
Proof.
  intros E Hb. assert (Hw : forall w, kept (set_wal w)) by (unfold set_wal; kept_by).
  revert E. unfold recover_storage. run_m. destruct (contains_wal_file (boot_disk b)).
  - destruct (WAL.open (boot_disk b)) as [w|]; [|done]. unfold recover_wal.
    destruct (WAL.recover _ _ w) as [[r|e] w']; [|done]. unfold on_node.
    pose proof (kept_restore_state r (boot_node b) Hb) as Hr. cbn.
    destruct (restore_state r (boot_node b)) as [[[]|e] s1]; [|done].
    specialize (Hw w' s1 Hr). cbn. destruct (set_wal w' s1) as [r2 s2].
    intros E. simplify_eq. done.
  - destruct (negb _); [done|]. destruct (WAL.create (boot_disk b)) as [w|]; [|done].
    unfold on_node. specialize (Hw w (boot_node b) Hb). cbn.
    destruct (set_wal w (boot_node b)) as [r2 s2]. intros E. simplify_eq. done.
Qed.
End Start.

(** ** Runs *)

Section Runs.
Context {R : Rng} {WP : WalPack} {CP : MsgPack Command.t} {MP : MapPack}.
Implicit Types (s : Raft.t Impl.t).

Definition run_events (es : list node_event) s : Raft.t Impl.t :=
  foldl (fun s ev => snd (run_event ev s)) s es.

(** The callback an event gives to the node: a command whose name cannot be
    quoted is not answered, its session is closed. *)
Definition gives (ev : node_event) s : list ReplyCallback :=
  match ev with
  | ClientCommand command callback _ =>
      if loops_stopped (restore_env s) || negb (nameable command) then [] else [callback]
  | _ => []
  end.

Fixpoint callbacks (es : list node_event) s : list ReplyCallback :=
  match es with
  | [] => []
  | ev :: es' => gives ev s ++ callbacks es' (snd (run_event ev s))
  end.

Lemma ready_event base given count ev s :
  0 <= count < u64_max - 1 -> ready base given count (Some restore_snapshot) s ->
  exists count', count <= count' <= count + 1 /\
    ready base (gives ev s ++ given) count' (Some restore_snapshot) (snd (run_event ev s)).
Proof.
  intros Hc Hs. destruct ev as [| | | |command callback now| |];
    try (exists count; split; [lia|]; by apply kept_event).
  cbn [gives]. destruct (loops_stopped (restore_env s)) eqn:Hl.
  { exists count. split; [lia|]. by rewrite run_event_stopped. }
  destruct Hs as [Hb Hr]. rewrite run_event_eq by done.
  destruct (takes_command base given count Hc command callback now _ Hb) as (count' & Hc' & Hb').
  rewrite client_answered in Hb'. exists count'. split; [done|]. unfold on_impl. cbn.
  destruct (handle_client_command _ _ _ _) as [r i]. split; [|done].
  by destruct (nameable command).
Qed.

Lemma ready_events es : forall base given count s,
  0 <= count -> count + zlen es < u64_max - 1 -> ready base given count (Some restore_snapshot) s ->
  exists given' count', given' ≡ₚ callbacks es s ++ given /\
    ready base given' count' (Some restore_snapshot) (run_events es s).
Proof.
  induction es as [|ev es IH]; intros base given count s H0 Hc Hs; [by exists given, count|].
  rewrite zlen_cons in Hc. pose proof (zlen_nonneg es).
  destruct (ready_event base given count ev s) as (c1 & Hc1 & H1); [lia|done|].
  destruct (IH base _ c1 _ ltac:(lia) ltac:(lia) H1) as (g2 & c2 & Hg & H2).
  exists g2, c2. split; [|exact H2]. rewrite Hg. cbn [callbacks]. solve_Permutation.
Qed.

Lemma initial_id_range node_id a b now : 0 < initial_request_id node_id a b now < u64_max.
Proof.
  pose proof (initial_request_id_u64 node_id a b now) as [H1 H2].
  assert (initial_request_id node_id a b now <> 0); [|lia].
  unfold initial_request_id. case_match eqn:E; [done|]. by apply Z.eqb_neq in E.
Qed.

Lemma ready_boot config m d s d' :
  boot config m d = (Ok s, d') ->
  ready (next_request_id_ (initial_impl config m)) [] 0 (Some restore_snapshot) s.
Proof.
  unfold boot. destruct (create _ _ _ _ _) as [s0|e] eqn:Ec; [|done].
  destruct (recover_storage _) as [[u|e] b] eqn:Er; [|done]. intros E. simplify_eq.
  assert (H0 : ready (next_request_id_ (initial_impl config m)) [] 0 None s0).
  { unfold create in Ec. cbv zeta in Ec. destruct (invalid_config _); [done|].
    match type of Ec with context [reset_randomized_election_timeout ?x] =>
      destruct (framed_reset x) as (He & _ & Hc);
      destruct (reset_randomized_election_timeout x) as [[]] end; [|done].
    simplify_eq. cbn [snd] in *. split; [rewrite He|by rewrite Hc]. cbn -[initial_impl].
    split; cbn -[initial_request_id]; auto; try (by intros ? []).
    by rewrite nth_id_start by apply initial_id_range. }
  destruct (ready_recovered _ _ _ _ _ _ Er H0) as [Hb _]. split; [exact Hb|done].
Qed.

(** C9: A node answers each client once.  Whatever it was started from and
    whatever happened since (fewer than 2^64 - 1 events: messages, timers,
    snapshots, storage failures, exceptions, stops), the callbacks that were
    called, as many times as they were called, together with those that still
    wait in the tables of pending requests, are exactly those that clients
    gave the node with their commands; no other callback is called.  Only a
    command whose name contains a line break is dropped, with its session. *)
Theorem requests_accounted config m d s d' es :
  boot config m d = (Ok s, d') -> zlen es < u64_max - 1 ->
  let i := restore_env (run_events es s) in
  (replies i).*1 ++ waiting i ≡ₚ callbacks es s.
Proof.
  intros Hb Hes. apply ready_boot in Hb.
  destruct (ready_events es _ _ 0 s ltac:(lia) Hes Hb) as (g & c & Hg & [Hi _]).
  cbv zeta. rewrite app_nil_r in Hg. rewrite <- Hg. apply Hi.
Qed.
End Runs.

(** ** Deadlines *)

Section Deadlines.
Context {CP : MsgPack Command.t}.

Definition write_expired : bytes := str "-TRYAGAIN write outcome unknown" ++ Resp.crlf.
Definition read_expired : bytes := str "-TRYAGAIN read quorum unavailable" ++ Resp.crlf.

(** The requests past their deadline, with the order in which the tables are
    iterated. *)
Definition overdue_writes (now : Z) (i : Impl.t) : list (Z * PendingWrite) :=
  filter (fun p => write_deadline (snd p) <= now) (map_to_list (pending_writes_ i)).
Definition overdue_reads (now : Z) (i : Impl.t) : list (Z * PendingRead) :=
  filter (fun p => read_deadline (snd p) <= now) (map_to_list (pending_reads_ i)).

(** Rejecting the requests of a list that are in the table. *)
Lemma reject_writes_eq (l : list (Z * PendingWrite)) : forall i,
  NoDup l.*1 -> Forall (fun p => pending_writes_ i !! p.1 = Some p.2) l ->
  for_each l.*1 (fun id => reject_write id (str "TRYAGAIN write outcome unknown")) i =
  (Ok tt, i <| pending_writes_ := foldl (fun m id => delete id m) (pending_writes_ i) l.*1 |>
            <| replies := replies i ++ ((fun p => (write_reply p.2, write_expired)) <$> l) |>).
Proof.
  induction l as [|[id p] l IH]; intros i Hd Hl.
  - cbn. rewrite app_nil_r. by destruct i.
  - pose proof (NoDup_cons_1_1 _ _ Hd) as Hn. apply NoDup_cons_1_2 in Hd. pose proof (Forall_inv Hl) as Hp. cbn in Hp, Hn.
    apply Forall_inv_tail in Hl. cbn [fmap list_fmap for_each fst]. unfold mbind at 1, M_bind at 1.
    unfold reject_write at 1. run_m. rewrite Hp. cbn.
    setoid_rewrite IH; [|done|].
    + cbn. by rewrite <- app_assoc.
    + rewrite list.Forall_forall in Hl |- *. intros q Hq. cbn. rewrite lookup_delete_ne; [by apply Hl|].
      intros ->. apply Hn. by apply list_elem_of_fmap_2.
Qed.

Lemma reject_reads_eq (l : list (Z * PendingRead)) : forall i,
  NoDup l.*1 -> Forall (fun p => pending_reads_ i !! p.1 = Some p.2) l ->
  for_each l.*1 (fun id => reject_read id (str "TRYAGAIN read quorum unavailable") ;;
                           post_raft (CancelTask id)) i =
  (Ok tt, i <| pending_reads_ := foldl (fun m id => delete id m) (pending_reads_ i) l.*1 |>
            <| replies := replies i ++ ((fun p => (read_reply p.2, read_expired)) <$> l) |>
            <| raft_io_ := raft_io_ i ++ (CancelTask <$> l.*1) |>).
Proof.
  induction l as [|[id p] l IH]; intros i Hd Hl.
  - cbn. rewrite !app_nil_r. by destruct i.
  - pose proof (NoDup_cons_1_1 _ _ Hd) as Hn. apply NoDup_cons_1_2 in Hd.
    pose proof (Forall_inv Hl) as Hp. cbn in Hp, Hn.
    apply Forall_inv_tail in Hl. cbn [fmap list_fmap for_each fst]. unfold mbind at 1, M_bind at 1.
    unfold mbind at 2, M_bind at 2. unfold reject_read at 1. run_m. rewrite Hp. cbn.
    setoid_rewrite IH; [|done|].
    + cbn. by rewrite <- !app_assoc.
    + rewrite list.Forall_forall in Hl |- *. intros q Hq. cbn. rewrite lookup_delete_ne; [by apply Hl|].
      intros ->. apply Hn. by apply list_elem_of_fmap_2.
Qed.

(** Deleting the entries that satisfy a predicate. *)
Lemma foldl_delete {A} (P : Z * A -> Prop) `{!forall p, Decision (P p)} (m : gmap Z A) :
  foldl (fun m id => delete id m) m (filter P (map_to_list m)).*1 = filter (fun p => ~ P p) m.
Proof.
  assert (forall l (m : gmap Z A) id, foldl (fun m id => delete id m) m l !! id =
            if decide (id ∈ l) then None else m !! id) as Hl.
  { induction l as [|x l IH]; intros m' id; cbn.
    - by rewrite decide_False by set_solver.
    - rewrite IH. destruct (decide (id ∈ l)); [by rewrite decide_True by set_solver|].
      destruct (decide (x = id)) as [->|Hne].
      + rewrite lookup_delete_eq. by rewrite decide_True by set_solver.
      + rewrite lookup_delete_ne by done. by rewrite decide_False by set_solver. }
  apply map_eq. intros id. rewrite Hl, map_lookup_filter.
  destruct (m !! id) as [a|] eqn:E; cbn; [|by case_decide].
  assert (id ∈ (filter P (map_to_list m)).*1 <-> P (id, a)) as Hi.
  { rewrite list_elem_of_fmap. split.
    - intros ([id' a'] & -> & [HP Hin]%list_elem_of_filter). apply elem_of_map_to_list in Hin.
      cbn in *. simplify_eq. done.
    - intros HP. exists (id, a). split; [done|]. apply list_elem_of_filter. split; [done|].
      by apply elem_of_map_to_list. }
  destruct (decide (P (id, a))); [rewrite decide_True by tauto; by case_guard|].
  rewrite decide_False by tauto. by case_guard.
Qed.

Lemma overdue_table {A} (P : Z * A -> Prop) `{!forall p, Decision (P p)} (m : gmap Z A) :
  NoDup (filter P (map_to_list m)).*1 /\
  Forall (fun p => m !! p.1 = Some p.2) (filter P (map_to_list m)).
Proof.
  split.
  - apply NoDup_fmap_fst; [|apply list.NoDup_filter, NoDup_map_to_list].
    intros id x y [_ Hx]%list_elem_of_filter [_ Hy]%list_elem_of_filter.
    apply elem_of_map_to_list in Hx, Hy. congruence.
  - apply list.Forall_forall. intros [id x] [_ Hx]%list_elem_of_filter.
    by apply elem_of_map_to_list in Hx.
Qed.

(** C22: The request timer ends the requests past their deadline and no other:
    it always succeeds, each overdue write is answered that its outcome is
    unknown and each overdue read that there was no quorum, they leave the
    tables, and the Raft loop is told to drop each read; a deadline is not
    missed because another request was ended first. *)
Theorem deadlines_enforced now i :
  let i' := snd (expire_client_requests now i) in
  fst (expire_client_requests now i) = Ok tt /\
  pending_writes_ i' = filter (fun p => ~ write_deadline p.2 <= now) (pending_writes_ i) /\
  pending_reads_ i' = filter (fun p => ~ read_deadline p.2 <= now) (pending_reads_ i) /\
  replies i' = replies i ++ ((fun p => (write_reply p.2, write_expired)) <$> overdue_writes now i) ++
                 ((fun p => (read_reply p.2, read_expired)) <$> overdue_reads now i) /\
  raft_io_ i' = raft_io_ i ++ (CancelTask <$> (overdue_reads now i).*1) /\
  store_ i' = store_ i.
Proof.
  unfold expire_client_requests. run_m.
  destruct (overdue_table (fun p => write_deadline (snd p) <= now) (pending_writes_ i)) as [H1 H2].
  rewrite reject_writes_eq by done. cbn.
  destruct (overdue_table (fun p => read_deadline (snd p) <= now) (pending_reads_ i)) as [H3 H4].
  rewrite reject_reads_eq by done. cbn. rewrite !foldl_delete, <- app_assoc. by split_and!.
Qed.
End Deadlines.

(** ** Acknowledged writes *)

Create HintDb mum_db.

(** The answers to a write that was applied: [+OK] and an integer. *)
Definition acknowledges (encoded : bytes) : bool :=
  bool_decide (encoded = str "+OK" ++ Resp.crlf) || bool_decide (head encoded = Some Byte.x3a).

(** Nothing is acknowledged between two states. *)
Definition mum (i i' : Impl.t) : Prop :=
  exists new, replies i' = replies i ++ new /\ Forall (fun r => acknowledges r.2 = false) new.

Lemma mum_refl i i' : replies i' = replies i -> mum i i'.
Proof. intros E. exists []. by rewrite app_nil_r. Qed.

Lemma mum_trans i1 i2 i3 : mum i1 i2 -> mum i2 i3 -> mum i1 i3.
Proof.
  intros (n1 & E1 & H1) (n2 & E2 & H2). exists (n1 ++ n2). rewrite E2, E1, app_assoc.
  split; [done|]. by apply Forall_app.
Qed.

Definition silent {A} (m : M Impl.t A) : Prop := forall i, mum i (snd (m i)).

Lemma silent_bind {A B} (m : M Impl.t A) (f : A -> M Impl.t B) :
  silent m -> (forall a, silent (f a)) -> silent (m ≫= f).
Proof.
  intros Hm Hf i. specialize (Hm i). unfold mbind, M_bind.
  destruct (m i) as [[a|e] i1]; [|done]. eapply mum_trans; [exact Hm|apply Hf].
Qed.

Lemma silent_same {A} (m : M Impl.t A) : (forall i, replies (snd (m i)) = replies i) -> silent m.
Proof. intros H i. by apply mum_refl. Qed.

Lemma silent_when b (m : M Impl.t unit) : silent m -> silent (when b m).
Proof. destruct b; [done|]. intros _. by apply silent_same. Qed.

Lemma silent_for_each {A} (l : list A) (body : A -> M Impl.t unit) :
  (forall a, silent (body a)) -> silent (for_each l body).
Proof.
  intros Hb. induction l as [|a l IH]; [by apply silent_same|]. cbn. by apply silent_bind.
Qed.

Lemma silent_reply callback encoded :
  acknowledges encoded = false -> silent (reply_to callback encoded).
Proof. intros H i. exists [(callback, encoded)]. by repeat constructor. Qed.

(** An error is not an acknowledgment. *)
Lemma silent_error {A} (k : A -> ReplyCallback) error (a : A) :
  silent (encoded ← lift (Resp.encode_error error); reply_to (k a) encoded).
Proof.
  unfold Resp.encode_error. destruct (Resp.has_line_break error); [by apply silent_same|].
  apply silent_reply. by apply orb_false_iff; split; apply bool_decide_eq_false.
Qed.

Lemma silent_pong callback :
  silent (encoded ← lift (Resp.encode_simple_string (str "PONG")); reply_to callback encoded).
Proof. by apply (silent_reply callback (str "+PONG" ++ Resp.crlf)). Qed.

Ltac silent_step :=
  lazymatch goal with
  | |- silent (encoded ← lift (Resp.encode_simple_string _); _) => apply silent_pong
  | |- silent (encoded ← lift (Resp.encode_error _); _) => apply (silent_error (fun x => x))
  | |- silent (_ ≫= _) => apply silent_bind; [|intros ?]
  | |- silent (mret _) => by apply silent_same
  | |- silent get => by apply silent_same
  | |- silent (lift _) => by apply silent_same
  | |- silent (modify _) => by apply silent_same
  | |- silent (post_raft _) => by apply silent_same
  | |- silent (post_store _) => by apply silent_same
  | |- silent (when _ _) => apply silent_when
  | |- silent (for_each _ _) => apply silent_for_each; intros ?
  | |- silent (let _ := _ in _) => cbv zeta
  | |- silent (match ?x with _ => _ end) => destruct x
  end.
Ltac silent_by := intros; repeat silent_step; auto with mum_db.

Section Silent.
Context {CP : MsgPack Command.t} {MP : MapPack}.

Lemma silent_stop reason : silent (request_stop reason).
Proof. unfold request_stop. silent_by. Qed.

Lemma silent_reject_write id error : silent (reject_write id error).
Proof. unfold reject_write. silent_by. Qed.

Lemma silent_reject_read id error : silent (reject_read id error).
Proof. unfold reject_read. silent_by. Qed.
#[local] Hint Resolve silent_stop silent_reject_write silent_reject_read : mum_db.

Lemma silent_complete_read id : silent (complete_read id).
Proof. unfold complete_read. silent_by. apply silent_reply. by case_match. Qed.
#[local] Hint Resolve silent_complete_read : mum_db.

Lemma silent_store_task task : (forall e, task <> ApplyTask e) -> silent (run_store_task task).
Proof.
  destruct task; intros Ht; cbn [run_store_task]; unfold capture_snapshot, restore_store; silent_by.
  - by destruct (Ht entry).
  - intros i. destruct (stop_store_eq i) as (e & Ee & ->).
    exists ((fun r => (r, e)) <$> waiting i). split; [done|]. apply Forall_fmap, list.Forall_forall.
    intros r _. cbn. vm_compute in Ee. by simplify_eq.
Qed.

Lemma silent_expire now : silent (expire_client_requests now).
Proof. unfold expire_client_requests. silent_by. Qed.

Lemma silent_client command callback now : silent (handle_client_command command callback now).
Proof.
  unfold handle_client_command, begin_read, begin_write, reply_error, allocate_request_id. silent_by;
    try by apply silent_reply.
Qed.
End Silent.

Section Quiet.
Context {R : Rng}.

Definition taciturn {A} (m : M (Raft.t Impl.t) A) : Prop := forall s,
  replies (restore_env (snd (m s))) = replies (restore_env s).

Lemma taciturn_framed {A} (m : M (Raft.t Impl.t) A) : framed m -> taciturn m.
Proof. intros Hm s. by destruct (Hm s) as (-> & _). Qed.

Lemma taciturn_bind {A B} (m : M (Raft.t Impl.t) A) (f : A -> M (Raft.t Impl.t) B) :
  taciturn m -> (forall a, taciturn (f a)) -> taciturn (m ≫= f).
Proof.
  intros Hm Hf s. specialize (Hm s). unfold mbind, M_bind.
  destruct (m s) as [[a|e] s1]; [|done]. rewrite <- Hm. apply Hf.
Qed.

Definition wordless {A} (m : M Impl.t A) : Prop := forall i, replies (snd (m i)) = replies i.

Lemma wordless_bind {A B} (m : M Impl.t A) (f : A -> M Impl.t B) :
  wordless m -> (forall a, wordless (f a)) -> wordless (m ≫= f).
Proof.
  intros Hm Hf s. specialize (Hm s). unfold mbind, M_bind.
  destruct (m s) as [[a|e] s1]; [|done]. rewrite <- Hm. apply Hf.
Qed.

Lemma wordless_for_each {A} (l : list A) (body : A -> M Impl.t unit) :
  (forall a, wordless (body a)) -> wordless (for_each l body).
Proof. intros Hb. induction l as [|a l IH]; [done|]. cbn. by apply wordless_bind. Qed.

Lemma wordless_stop reason : wordless (request_stop reason).
Proof. intros i. unfold request_stop. run_m. by destruct (negb _), (stopping_ i) eqn:E; cbn; rewrite ?E. Qed.

Lemma wordless_flush messages : wordless (flush_loop messages).
Proof.
  induction messages as [|m ms IH]; cbn [flush_loop]; [done|].
  apply wordless_bind; [done|intros i]. destruct (negb _); [done|].
  apply wordless_bind; [intros i1; unfold next_send; run_m; by destruct (sends i1)|].
  intros []; try apply wordless_stop. apply wordless_bind; [done|intros i2].
  by apply wordless_bind.
Qed.

Lemma taciturn_on_impl {A} (m : M Impl.t A) : wordless m -> taciturn (on_impl m).
Proof. intros Hm s. specialize (Hm (restore_env s)). unfold on_impl. by destruct (m (restore_env s)). Qed.
End Quiet.

Ltac taciturn_step :=
  lazymatch goal with
  | |- taciturn (_ ≫= _) => apply taciturn_bind; [|intros ?]
  | |- taciturn (mret _) => done
  | |- taciturn get => done
  | |- taciturn impl => done
  | |- taciturn (modify _) => done
  | |- taciturn (if_wal _) => apply taciturn_framed, framed_if_wal
  | |- taciturn sync_wal => apply taciturn_framed, framed_sync
  | |- taciturn (on_impl _) => apply taciturn_on_impl
  | |- taciturn (let _ := _ in _) => cbv zeta
  | |- taciturn (match ?x with _ => _ end) => destruct x
  | |- wordless (request_stop _) => apply wordless_stop
  | |- wordless (flush_loop _) => apply wordless_flush
  | |- wordless (_ ≫= _) => apply wordless_bind; [|intros ?]
  | |- wordless (for_each _ _) => apply wordless_for_each; intros ?
  | |- wordless _ => done
  end.
Ltac taciturn_by := intros; repeat taciturn_step; auto with mum_db.

Section QuietLoop.
Context {R : Rng} {WP : WalPack} {CP : MsgPack Command.t} {MP : MapPack}.

Lemma taciturn_finish tok : taciturn (finish_read_index (Env := Impl.t) tok).
Proof. apply taciturn_framed, framed_finish. Qed.
#[local] Hint Resolve taciturn_finish : mum_db.

Lemma taciturn_after : taciturn after_raft_activity.
Proof.
  unfold after_raft_activity, dispatch_next_committed_entry, poll_read_indexes,
    maybe_capture_snapshot, flush_raft_messages, read_messages, log_status_if_changed, print. taciturn_by.
Qed.
#[local] Hint Resolve taciturn_after : mum_db.

Lemma taciturn_propose data : taciturn (propose (Env := Impl.t) data).
Proof. apply taciturn_framed, framed_propose. Qed.
Lemma taciturn_read_index : taciturn (read_index (Env := Impl.t)).
Proof. apply taciturn_framed, framed_read_index. Qed.
#[local] Hint Resolve taciturn_propose taciturn_read_index : mum_db.

(** The Raft loop answers no client, but for a snapshot it installs. *)
Lemma taciturn_raft_task task :
  match task with HandleMessage msg => Message.type msg <> Message.MsgInstallSnapshot | _ => True end ->
  taciturn (run_raft_task task).
Proof.
  intros Ht. destruct task; unfold run_raft_task, handle_raft_message, propose_task, read_task,
    applied_task, cancel_raft_read, snapshot_task, advance, take_snapshot; taciturn_by.
  by apply taciturn_framed, framed_deliver.
Qed.

Lemma taciturn_tick : taciturn tick_timer.
Proof. unfold tick_timer. taciturn_by. apply taciturn_framed, framed_tick. Qed.
End QuietLoop.

(** The answers given between two states. *)
Definition new_replies (i i' : Impl.t) : list (ReplyCallback * bytes) :=
  drop (length (replies i)) (replies i').

Lemma mum_new i i' r : mum i i' -> r ∈ new_replies i i' -> acknowledges r.2 = false.
Proof.
  intros (new & E & Hn). unfold new_replies. rewrite E, drop_app_length.
  rewrite list.Forall_forall in Hn. apply Hn.
Qed.

Section Acknowledged.
Context {R : Rng} {WP : WalPack} {WL : WalPackLaws}.
Context {CP : MsgPack Command.t} {CL : MsgPackLaws Command.t} {MP : MapPack}.

(** What an acknowledgment says: the entry carries the write of that client. *)
Definition answers (e : Entry.t) (i : Impl.t) (callback : ReplyCallback) : Prop :=
  exists command pending, unpack (Entry.data e) = Ok command /\
    Command.origin_node command = NodeConfig.id (config_ i) /\
    pending_writes_ i !! Command.request_id command = Some pending /\
    write_reply pending = callback.

Lemma apply_result e st result st' :
  KVStore.apply e st = (Ok result, st') -> exists command, unpack (Entry.data e) = Ok command /\
    Command.origin_node command = KVStore.origin_node result /\
    Command.request_id command = KVStore.request_id result.
Proof.
  unfold KVStore.apply. run_m. destruct (unpack (Entry.data e)) as [command|]; [|done].
  destruct (_ =? _).
  - destruct (Command.strs command) as [|? [|? []]]; try done. unfold KVStore.set. run_m.
    intros E. simplify_eq. by exists command.
  - destruct (_ =? _); [|done]. destruct (decide _); [done|].
    destruct (KVStore.del_loop _ _ _) as [[]]; [|done]. intros E. simplify_eq. by exists command.
Qed.

Lemma apply_acknowledges e i callback encoded :
  (callback, encoded) ∈ new_replies i (snd (apply_committed_entry e i)) ->
  acknowledges encoded = true -> answers e i callback.
Proof.
  intros Hin Hack. revert Hin.
  assert (forall i', mum i i' -> (callback, encoded) ∈ new_replies i i' -> answers e i callback) as Hmum.
  { intros i' Hm Hin. pose proof (mum_new _ _ _ Hm Hin) as Hn. cbn in Hn. congruence. }
  unfold apply_committed_entry, acknowledge_applied. run_m.
  destruct (stopping_ i); [by apply Hmum, mum_refl|].
  destruct (_ <=? _); [by apply Hmum, mum_refl|].
  destruct (negb (_ =? _)); [apply Hmum, silent_stop|].
  destruct (_ && _); [|by apply Hmum, mum_refl].
  destruct (KVStore.apply e (store_ i)) as [[result|x] st] eqn:Ea; cbn -[request_stop complete_write].
  2:{ apply Hmum. eapply mum_trans; [|apply silent_stop]. by apply mum_refl. }
  destruct (apply_result _ _ _ _ Ea) as (command & Hu & Ho & Hr).
  destruct (_ =? _) eqn:Eo; [|by apply Hmum, mum_refl]. apply Z.eqb_eq in Eo.
  unfold complete_write. run_m. cbn.
  destruct (pending_writes_ i !! KVStore.request_id result) as [pending|] eqn:Ep;
    [|by apply Hmum, mum_refl].
  assert (forall reply, (callback, encoded) ∈ drop (length (replies i))
            (replies i ++ [(write_reply pending, reply)]) -> answers e i callback) as Hend.
  { intros reply. rewrite drop_app_length, list_elem_of_singleton. intros E. simplify_eq.
    exists command, pending. by rewrite Ho, Hr. }
  destruct (_ =? _); cbn; apply Hend.
Qed.

Lemma silent_acknowledges (m : M Impl.t unit) i callback encoded :
  silent m -> (callback, encoded) ∈ new_replies i (snd (m i)) -> acknowledges encoded = true -> False.
Proof.
  intros Hm Hin Hack. pose proof (mum_new _ _ _ (Hm i) Hin) as Hn. cbn in Hn. congruence.
Qed.

Lemma task_acknowledges task i callback encoded :
  (callback, encoded) ∈ new_replies i (snd (run_store_task task i)) ->
  acknowledges encoded = true -> exists e, task = ApplyTask e /\ answers e i callback.
Proof.
  intros Hin Hack. destruct task;
    try (exfalso; eapply silent_acknowledges; [|exact Hin|done]; by apply silent_store_task).
  exists entry. split; [done|]. by apply (apply_acknowledges entry i callback encoded).
Qed.

Lemma in_loop_replies (m : M (Raft.t Impl.t) unit) s :
  replies (restore_env (snd (in_loop m s))) = replies (restore_env (snd (m s))).
Proof. unfold in_loop. by destruct (m s) as [[] ?]. Qed.

Lemma on_impl_snd {A} (m : M Impl.t A) (s : Raft.t Impl.t) :
  restore_env (snd (on_impl m s)) = snd (m (restore_env s)).
Proof. unfold on_impl. by destruct (m (restore_env s)). Qed.

(** Only the store's loop acknowledges, when it applies an entry. *)
Lemma event_acknowledges ev s callback encoded :
  Forall (fun task => forall msg, task = HandleMessage msg ->
            Message.type msg <> Message.MsgInstallSnapshot) (raft_io_ (restore_env s)) ->
  (callback, encoded) ∈ new_replies (restore_env s) (restore_env (snd (run_event ev s))) ->
  acknowledges encoded = true ->
  exists e, ApplyTask e ∈ store_io_ (restore_env s) /\ answers e (restore_env s) callback.
Proof.
  unfold new_replies. intros Hq Hin Hack. revert Hin.
  assert ((callback, encoded) ∉ drop (length (replies (restore_env s))) (replies (restore_env s))) as Hno.
  { rewrite drop_all. apply not_elem_of_nil. }
  destruct (loops_stopped (restore_env s)) eqn:Hl; [by rewrite run_event_stopped by done|].
  rewrite run_event_eq by done. destruct ev as [| | |now|command cb now|message|].
  - destruct (raft_io_ (restore_env s)) as [|task tasks]; [done|].
    change (snd ((on_impl (raft_io_ <~ tasks) ;; in_loop (run_raft_task task)) s))
      with (snd (in_loop (run_raft_task task)
                  (s <| restore_env := (restore_env s) <| raft_io_ := tasks |> |>))).
    rewrite in_loop_replies, taciturn_raft_task; [done|].
    apply Forall_inv in Hq. destruct task; auto.
  - destruct (store_io_ (restore_env s)) as [|task tasks] eqn:Es; [done|].
    change (snd ((on_impl (store_io_ <~ tasks) ;; in_loop (on_impl (run_store_task task))) s))
      with (snd (in_loop (on_impl (run_store_task task))
                  (s <| restore_env := (restore_env s) <| store_io_ := tasks |> |>))).
    rewrite in_loop_replies, on_impl_snd. intros Hin.
    destruct (task_acknowledges task _ callback encoded Hin Hack) as (e & -> & Ha).
    exists e. split; [set_solver|exact Ha].
  - by rewrite in_loop_replies, taciturn_tick.
  - destruct (stopping_ (restore_env s)); [done|]. rewrite in_loop_replies, on_impl_snd.
    intros Hin. destruct (silent_acknowledges _ _ _ _ (silent_expire now) Hin Hack).
  - cbn [snd]. rewrite on_impl_snd. intros Hin.
    destruct (silent_acknowledges _ _ _ _ (silent_client command cb now) Hin Hack).
  - by rewrite on_impl_snd.
  - rewrite on_impl_snd. intros Hin.
    destruct (silent_acknowledges _ _ _ _ (silent_stop []) Hin Hack).
Qed.

End Acknowledged.

(** ** The theorems on runs *)

Section Witnesses.
#[local] Existing Instance constant_rng.
#[local] Existing Instance bits_wal_pack.
#[local] Existing Instance bits_wal_pack_laws.
#[local] Existing Instance bits_map_pack.
#[local] Existing Instance bits_command_pack.
#[local] Instance command_pack_laws : MsgPackLaws Command.t := Bits.msgpack_laws Command.t.

(** A client pings, one writes to a node that does not lead, one reads. *)
Definition demo_requests : list node_event :=
  [ClientCommand (Resp.MkCommand [str "PING"]) 1 0;
   ClientCommand (Resp.MkCommand [str "SET"; str "k"; str "v"]) 2 0; RunRaft; RunStore;
   ClientCommand (Resp.MkCommand [str "get"; str "k"]) 3 0;
   ClientCommand (Resp.MkCommand [str "GO"; str "k"]) 4 0].

Lemma requests_accounted_witness :
  exists s d, boot (demo_config 1) demo_machine (Disk.healthy ∅) = (Ok s, d) /\
  bool_decide (callbacks demo_requests s = [1; 2; 3; 4]) &&
  bool_decide ((replies (restore_env (run_events demo_requests s))).*1 = [1; 2; 4]) = true /\
  (replies (restore_env (run_events demo_requests s))).*1 ++
    waiting (restore_env (run_events demo_requests s)) ≡ₚ callbacks demo_requests s.
Proof.
  destruct (boot (demo_config 1) demo_machine (Disk.healthy ∅)) as [[s|e] d] eqn:E.
  2:{ apply (f_equal (fun r => is_ok (fst r))) in E. by vm_compute in E. }
  exists s, d. split; [reflexivity|]. split.
  - apply (f_equal (fun r => match fst r with Ok s =>
      bool_decide (callbacks demo_requests s = [1; 2; 3; 4]) &&
      bool_decide ((replies (restore_env (run_events demo_requests s))).*1 = [1; 2; 4])
      | _ => false end)) in E. cbn [fst] in E. rewrite <- E. by vm_compute.
  - by apply (requests_accounted (demo_config 1) demo_machine (Disk.healthy ∅) s d demo_requests).
Defined.

(** The moment before the write of the demonstration is applied. *)
Definition replicated : cluster := play (client_set 1 "k" "v" ++ deliver_range 12 4) first_moment.

Lemma replicated_reachable : reachable replicated.
Proof. eapply runs_trans; [apply first_reachable|]. apply play_runs. by vm_compute. Qed.

End Witnesses.
