(* ===== verification/Process.v ===== *)
(** * The process ([src/main.cpp] and [NodeRuntime::Impl] of [src/app/node_runtime.cpp])

    [main] reads the command line, constructs the node (its storage, in
    [Runtime]; then the members' connections and the two listeners), and [run]
    starts the timers and the three threads, whose return ends the process.

    The process is the node of [Runtime] together with the listeners of
    [Servers], a [Peer] for each other member, the waits for the timers and for
    signals, and the work guards that keep the three loops running.  A loop is
    an [io_context]: its [run] returns when no handler, no operation and no guard
    is left, or when it was told to stop after an exception.  What the sessions'
    command handler does and what the node hands to its peers are inputs here,
    so every behaviour of the program is one of the model.  What stopping does
    is exact: [request_stop] posts the handler of [stop_on_raft_loop], which
    cancels the waits, drops the guards and posts the handlers that stop
    everything else. *)

From S2P Require Import Prelude Text Msgpack Proto RespCodec Transport Peer RespServer Servers Wal KvStore.
From S2P Require Import NodeConfig Raft RaftNode Runtime.
Import Raft.

Module Process.

(** ** The network services *)

(** What the operating system and Boost do when the listeners open: addresses
    ([IP] is [boost::asio::ip::address]), names, and the four calls from [open]
    to [listen] on an acceptor. *)
Record Network (IP : Type) : Type := MkNetwork {
  make_address : bytes -> result IP;
  resolve : bytes -> bytes -> result (list (IP * Z));
  raft_listen : IP * Z -> result unit;
  client_listen : IP * Z -> result unit;
}.
Arguments make_address {IP} _ _.
Arguments resolve {IP} _ _ _.
Arguments raft_listen {IP} _ _.
Arguments client_listen {IP} _ _.

Definition Peer_create (address : bytes) : result Peer.t :=
  _ ← Transport.peer_split_address address; Ok Peer.create.

Definition Server_create {IP} (net : Network IP) (address : bytes) : result PeerServer.t :=
  parts ← Transport.server_split_address address;
  endpoints ← resolve net (Transport.host parts) (Transport.service parts);
  match endpoints with
  | [] => Throw (invalid_argument "server address did not resolve")
  | endpoint :: _ => _ ← raft_listen net endpoint; Ok PeerServer.create
  end.

Definition RespServer_create {IP} (net : Network IP) (listen_address : bytes) : result ClientServer.t :=
  endpoint ← parse_listen_address (make_address net) listen_address;
  _ ← client_listen net endpoint;
  Ok (ClientServer.create Resp.default_limits).

Record Services : Type := MkServices {
  made_peers : gmap Z Peer.t;
  made_peer_server : PeerServer.t;
  made_client_server : ClientServer.t;
}.

(** The loop over [config_.peers]. *)
Fixpoint create_peers (ps : list PeerAddress) (peers : gmap Z Peer.t) : result (gmap Z Peer.t) :=
  match ps with
  | [] => Ok peers
  | p :: ps' =>
      peer ← Peer_create (peer_address p); create_peers ps' (emplace (peer_id p) peer peers)
  end.

Definition create_network_services {IP} (net : Network IP) (config : NodeConfig.t) : result Services :=
  peers ← create_peers (NodeConfig.peers config) ∅;
  peer_server ← Server_create net (NodeConfig.raft_address config);
  client_server ← RespServer_create net (NodeConfig.client_address config);
  Ok (MkServices peers peer_server client_server).

(** ** The state *)

(** A timer's or the signal set's wait; one that was cancelled still completes. *)
Inductive wait : Type := Idle | Waiting | Cancelled.

#[global] Instance wait_eq_dec : EqDecision wait.
Proof. solve_decision. Defined.

Definition cancel (w : wait) : wait := match w with Waiting => Cancelled | _ => w end.

Inductive loop : Type := raft_loop | peer_loop | store_loop.

Section Process.
Context {R : Rng} {WP : WalPack} {CP : MsgPack Command.t} {MP : MapPack} {PP : MsgPack Message.t}.

Record t : Type := mk {
  node : Raft.t Impl.t;
  peers_ : gmap Z Peer.t;
  peer_server_ : PeerServer.t;
  client_server_ : ClientServer.t;
  peer_io_ : nat;  (* how many handlers that stop the peers are posted to the loop *)
  tick_timer_ : wait;
  request_timer_ : wait;
  signals_ : wait;
  raft_work_ : bool;
  peer_work_ : bool;
  store_work_ : bool;
  (* whether the thread's [run_context] has returned *)
  raft_returned : bool;
  peer_returned : bool;
  store_returned : bool;
}.

Definition eta (p : t) : t :=
  mk (node p) (peers_ p) (peer_server_ p) (client_server_ p) (peer_io_ p) (tick_timer_ p)
    (request_timer_ p) (signals_ p) (raft_work_ p) (peer_work_ p) (store_work_ p) (raft_returned p)
    (peer_returned p) (store_returned p).
#[global] Instance set_node : Setter node := ltac:(setter eta node).
#[global] Instance set_peers_ : Setter peers_ := ltac:(setter eta peers_).
#[global] Instance set_peer_server_ : Setter peer_server_ := ltac:(setter eta peer_server_).
#[global] Instance set_client_server_ : Setter client_server_ := ltac:(setter eta client_server_).
#[global] Instance set_peer_io_ : Setter peer_io_ := ltac:(setter eta peer_io_).
#[global] Instance set_tick_timer_ : Setter tick_timer_ := ltac:(setter eta tick_timer_).
#[global] Instance set_request_timer_ : Setter request_timer_ := ltac:(setter eta request_timer_).
#[global] Instance set_signals_ : Setter signals_ := ltac:(setter eta signals_).
#[global] Instance set_raft_work_ : Setter raft_work_ := ltac:(setter eta raft_work_).
#[global] Instance set_peer_work_ : Setter peer_work_ := ltac:(setter eta peer_work_).
#[global] Instance set_store_work_ : Setter store_work_ := ltac:(setter eta store_work_).
#[global] Instance set_raft_returned : Setter raft_returned := ltac:(setter eta raft_returned).
#[global] Instance set_peer_returned : Setter peer_returned := ltac:(setter eta peer_returned).
#[global] Instance set_store_returned : Setter store_returned := ltac:(setter eta store_returned).

Definition impl_of (p : t) : Impl.t := restore_env (node p).

(** ** Start *)

(** The constructor, and the data directory it leaves. *)
Definition construct {IP} (config : NodeConfig.t) (m : Machine) (net : Network IP) (d : Disk.t)
    : result t * Disk.t :=
  match boot config m d with
  | (Throw e, d') => (Throw e, d')
  | (Ok s, d') =>
      (services ← create_network_services net config;
       Ok (mk s (made_peers services) (made_peer_server services) (made_client_server services)
             0 Idle Idle Idle true true true false false false), d')
  end.

Definition schedule_tick (p : t) : t := p <| tick_timer_ := Waiting |>.
Definition schedule_request_poll (p : t) : t := p <| request_timer_ := Waiting |>.

Definition greeting (config : NodeConfig.t) : bytes :=
  str "node " ++ to_string (NodeConfig.id config) ++ str " raft=" ++ NodeConfig.raft_address config ++
  str " client=" ++ NodeConfig.client_address config ++ str " data=" ++ NodeConfig.data_directory config.

(** [run] until the threads run.  The first handler of the store's loop is the
    one that starts the client listener. *)
Definition run (p : t) : t :=
  let p := p <| peer_server_ := snd (PeerServer.request_start (peer_server_ p)) |> in
  let p := p <| client_server_ := snd (ClientServer.start (client_server_ p)) |> in
  let p := schedule_request_poll (schedule_tick p) in
  let p := p <| signals_ := Waiting |> in
  p <| node := snd ((on_impl (i ← get; print (greeting (Impl.config_ i))) ;;
                     log_status_if_changed true) (node p)) |>.

(** ** The loops *)

Definition session_busy (s : RespSession.t) : bool := negb (bool_decide (RespSession.ops s = [])).

Definition connection_busy (c : Transport.Connection) : bool :=
  match Transport.reading c with Transport.NoRead => false | _ => true end.

(** Handlers that are posted and operations that are under way. *)
Definition clients_busy (v : ClientServer.t) : bool :=
  ClientServer.accepting v || negb (bool_decide (ClientServer.erasures v = [])) ||
  negb (bool_decide (ClientServer.stops v = [])) ||
  existsb session_busy (map_to_list (ClientServer.objects v)).*2.

Definition listener_busy (v : PeerServer.t) : bool :=
  PeerServer.accepting v || negb (bool_decide (PeerServer.strand v = [])) ||
  existsb connection_busy (map_to_list (PeerServer.objects v)).*2.

Definition peer_busy (q : Peer.t) : bool :=
  negb (bool_decide (Peer.strand q = [])) || negb (bool_decide (Peer.ops q = [])).

Definition pending (w : wait) : bool := negb (bool_decide (w = Idle)).

(** What keeps a loop from returning. *)
Definition outstanding (l : loop) (p : t) : bool :=
  match l with
  | raft_loop =>
      raft_work_ p || negb (bool_decide (Impl.raft_io_ (impl_of p) = [])) || pending (tick_timer_ p) ||
      pending (signals_ p)
  | store_loop =>
      store_work_ p || negb (bool_decide (Impl.store_io_ (impl_of p) = [])) ||
      pending (request_timer_ p) || clients_busy (client_server_ p)
  | peer_loop =>
      peer_work_ p || negb (peer_io_ p =? 0)%nat || listener_busy (peer_server_ p) ||
      existsb peer_busy (map_to_list (peers_ p)).*2
  end.

Definition returned (l : loop) (p : t) : bool :=
  match l with
  | raft_loop => raft_returned p
  | peer_loop => peer_returned p
  | store_loop => store_returned p
  end.

Definition node_runs (ev : node_event) (p : t) : t := p <| node := snd (run_event ev (node p)) |>.

(** The rest of [stop_on_raft_loop], beside what it posts to the store's loop. *)
Definition stop_on_raft_loop (p : t) : t :=
  p <| tick_timer_ := cancel (tick_timer_ p) |> <| signals_ := cancel (signals_ p) |>
    <| peer_io_ := S (peer_io_ p) |> <| raft_work_ := false |>.

(** Its handler on the store's loop, beside the replies. *)
Definition stop_on_store_loop (p : t) : t :=
  p <| request_timer_ := cancel (request_timer_ p) |>
    <| client_server_ := snd (ClientServer.stop_on_strand (client_server_ p)) |>
    <| store_work_ := false |>.

(** Its handler on the peers' loop. *)
Definition stop_on_peer_loop (p : t) : t :=
  p <| peer_server_ := snd (PeerServer.request_stop (peer_server_ p)) |>
    <| peers_ := ((fun q => snd (Peer.request_stop q)) <$> peers_ p) |>
    <| peer_work_ := false |>.

Inductive event : Type :=
| NodeEvent (ev : node_event)
| ClientsEvent (ev : ClientServer.event)
| ListenerEvent (ev : PeerServer.event)
| PeerEvent (id : Z) (ev : Peer.event)
| RunPeer
| Return (l : loop).

(** The thread an event happens on. *)
Definition loop_of (ev : event) : loop :=
  match ev with
  | NodeEvent (RunRaft | TickTimer | Signal) => raft_loop
  | NodeEvent (RunStore | RequestTimer _ | ClientCommand _ _ _) => store_loop
  | NodeEvent (Arrival _) => peer_loop
  | ClientsEvent _ => store_loop
  | PeerEvent _ (Peer.Send _) => raft_loop
  | ListenerEvent _ | PeerEvent _ _ | RunPeer => peer_loop
  | Return l => l
  end.

(** A handler of a loop that runs. *)
Definition handle (ev : event) (p : t) : t :=
  match ev with
  | NodeEvent RunRaft =>
      match Impl.raft_io_ (impl_of p) with
      | StopTask :: _ => stop_on_raft_loop (node_runs RunRaft p)
      | _ => node_runs RunRaft p
      end
  | NodeEvent RunStore =>
      match Impl.store_io_ (impl_of p) with
      | StopStoreTask :: _ => stop_on_store_loop (node_runs RunStore p)
      | _ => node_runs RunStore p
      end
  | NodeEvent TickTimer =>
      match tick_timer_ p with
      | Idle => p
      | Cancelled => p <| tick_timer_ := Idle |>
      | Waiting =>
          if Impl.stopping_ (impl_of p) then p <| tick_timer_ := Idle |>
          else schedule_tick (node_runs TickTimer p)
      end
  | NodeEvent (RequestTimer now) =>
      match request_timer_ p with
      | Idle => p
      | Cancelled => p <| request_timer_ := Idle |>
      | Waiting =>
          if Impl.stopping_ (impl_of p) then p <| request_timer_ := Idle |>
          else schedule_request_poll (node_runs (RequestTimer now) p)
      end
  | NodeEvent Signal =>
      match signals_ p with
      | Idle => p
      | Cancelled => p <| signals_ := Idle |>
      | Waiting => node_runs Signal (p <| signals_ := Idle |>)
      end
  | NodeEvent ev => node_runs ev p
  | ClientsEvent ev => p <| client_server_ := snd (ClientServer.step ev (client_server_ p)) |>
  | ListenerEvent ev => p <| peer_server_ := snd (PeerServer.step ev (peer_server_ p)) |>
  | PeerEvent id ev => p <| peers_ := alter (fun q => snd (Peer.step ev q)) id (peers_ p) |>
  | RunPeer =>
      match peer_io_ p with
      | O => p
      | S n => stop_on_peer_loop (p <| peer_io_ := n |>)
      end
  | Return _ => p
  end.

Definition return_from (l : loop) (p : t) : t :=
  match l with
  | raft_loop => p <| raft_returned := true |>
  | peer_loop => p <| peer_returned := true |>
  | store_loop => p <| store_returned := true |>
  end.

(** After an exception in one of the loops, [run_context] has told all of them
    to return. *)
Definition step (ev : event) (p : t) : t :=
  if returned (loop_of ev) p then p else
  match ev with
  | Return l =>
      if Impl.loops_stopped (impl_of p) || negb (outstanding l p) then return_from l p else p
  | _ => if Impl.loops_stopped (impl_of p) then p else handle ev p
  end.

Definition play (evs : list event) (p : t) : t := fold_left (fun p ev => step ev p) evs p.

(** Once the threads are joined, [run] returns the exit code. *)
Definition exit_status (p : t) : option Z :=
  if raft_returned p && peer_returned p && store_returned p
  then Some (Impl.exit_code_ (impl_of p)) else None.

(** ** [main] *)

Definition newline : bytes := [Byte.x0a].

Definition node_usage (program : option bytes) : bytes :=
  let name := default (str "raft-kv") program in
  str "Usage:" ++ newline ++ str "  " ++ name ++
  str " --id=<1|2|3> --raft=<IP:port> --client=<IP:port>" ++ newline ++
  str "      --peer=<ID>@<IP:port> --peer=<ID>@<IP:port> --data=<dir>" ++ newline ++
  str "      [--tick-ms=<1..1000>] [--snapshot-threshold=<entries>]" ++ newline.

(** The process returns at once, with what it prints on the standard output and
    the exception and the usage it prints on the standard error; or it runs. *)
Inductive outcome : Type :=
| Exits (code : Z) (out : bytes) (err : option (exn * bytes))
| Runs (p : t).

(** [arguments] are those after the program's name, [argv[0]]. *)
Definition main {IP} (program : option bytes) (arguments : list bytes) (m : Machine) (net : Network IP)
    (d : Disk.t) : outcome * Disk.t :=
  if decide (arguments = [str "--help"]) then (Exits 0 (node_usage program) None, d) else
  match parse_node_config arguments with
  | Throw e => (Exits 1 [] (Some (e, node_usage program)), d)
  | Ok config =>
      match construct config m net d with
      | (Throw e, d') => (Exits 1 [] (Some (e, node_usage program)), d')
      | (Ok p, d') => (Runs (run p), d')
      end
  end.

End Process.

End Process.
