(* ===== verification/Lifecycle.v ===== *)
(** * How the process ends

    The exit code tells whether something failed, and a process that was told
    to stop ends: every schedule of its own handlers is finite, and as long as
    one of the threads has not returned there is a handler to run. *)

From S2P Require Import Prelude Text Msgpack Proto RespCodec Transport Peer Link RespServer Servers Wal.
From S2P Require Import KvStore NodeConfig Raft RaftNode Runtime RuntimeSim ClusterDemo Requests Process.
Import Raft Impl.

(** ** What a handler does to the members that govern the end *)

Record moves (i i' : Impl.t) : Prop := {
  mv_exit : exit_code_ i' = exit_code_ i \/ exit_code_ i' = 1;
  mv_loops : loops_stopped i' = loops_stopped i \/
    loops_stopped i' = true /\ exit_code_ i' = 1 /\ stopping_ i' = true;
  mv_stopping : stopping_ i = true -> stopping_ i' = true;
  mv_raft : raft_io_ i `prefix_of` raft_io_ i';
  mv_store : stopping_ i = true -> store_io_ i `prefix_of` store_io_ i';
  mv_stop : stopping_ i' = true ->
    stopping_ i = true \/ StopTask ∈ raft_io_ i' \/ loops_stopped i' = true;
  mv_posted : StopTask ∈ raft_io_ i' -> StopTask ∈ raft_io_ i \/ stopping_ i' = true;
}.

Lemma moves_same i i' :
  exit_code_ i' = exit_code_ i -> loops_stopped i' = loops_stopped i -> stopping_ i' = stopping_ i ->
  raft_io_ i `prefix_of` raft_io_ i' -> (stopping_ i = true -> store_io_ i `prefix_of` store_io_ i') ->
  (StopTask ∈ raft_io_ i' -> StopTask ∈ raft_io_ i) -> moves i i'.
Proof. intros E1 E2 E3 Hr Hs Hp. split; try done; rewrite ?E1, ?E2, ?E3; auto. Qed.

Lemma moves_trans i1 i2 i3 : moves i1 i2 -> moves i2 i3 -> moves i1 i3.
Proof.
  intros [X1 L1 S1 R1 T1 P1 Q1] [X2 L2 S2 R2 T2 P2 Q2]. split.
  - destruct X1, X2; auto; first [left; congruence | right; congruence].
  - destruct L1 as [L1|(L1 & E1 & G1)], L2 as [L2|L2]; auto; [left; congruence|].
    right. split_and!; [congruence| |auto]. destruct X2; congruence.
  - auto.
  - by etrans.
  - intros H. etrans; [by apply T1|]. auto.
  - intros H. destruct (P2 H) as [H'|[H'|H']]; auto. destruct (P1 H') as [|[Hin|Hl]]; auto.
    + right. left. destruct R2 as [k ->]. apply elem_of_app. by left.
    + right. right. destruct L2 as [->|[]]; auto.
  - intros H. destruct (Q2 H) as [H'|H']; [|auto]. destruct (Q1 H'); auto.
Qed.

Definition mover {A} (m : M Impl.t A) : Prop := forall i, moves i (snd (m i)).

Lemma mover_modify h :
  (forall i, exit_code_ (h i) = exit_code_ i /\ loops_stopped (h i) = loops_stopped i /\
    stopping_ (h i) = stopping_ i /\ raft_io_ (h i) = raft_io_ i /\ store_io_ (h i) = store_io_ i) ->
  mover (modify h).
Proof. intros H i. destruct (H i) as (? & ? & ? & E1 & E2). apply moves_same; cbn; try done; by rewrite ?E1, ?E2. Qed.

Lemma mover_ret {A} (a : A) : mover (mret a).
Proof. intros i. by apply moves_same. Qed.

Lemma mover_get : mover get.
Proof. intros i. by apply moves_same. Qed.

Lemma mover_lift {A} (r : result A) : mover (lift r).
Proof. intros i. by apply moves_same. Qed.

Lemma mover_bind {A B} (m : M Impl.t A) (f : A -> M Impl.t B) :
  mover m -> (forall a, mover (f a)) -> mover (m ≫= f).
Proof.
  intros Hm Hf i. specialize (Hm i). unfold mbind, M_bind.
  destruct (m i) as [[a|e] i1]; [|done]. eapply moves_trans; [exact Hm|apply Hf].
Qed.

Lemma mover_for_each {A} (l : list A) (body : A -> M Impl.t unit) :
  (forall a, mover (body a)) -> mover (for_each l body).
Proof. intros Hb. induction l as [|a l IH]; [apply mover_ret|]. cbn. by apply mover_bind. Qed.

Lemma mover_post_raft task : task <> StopTask -> mover (post_raft task).
Proof.
  intros Ht i. apply moves_same; try done; [by exists [task]|].
  change (StopTask ∈ raft_io_ i ++ [task] -> StopTask ∈ raft_io_ i).
  rewrite elem_of_app, list_elem_of_singleton. intros [|]; [done|congruence].
Qed.

Lemma mover_post_store task : mover (post_store task).
Proof. intros i. apply moves_same; try done. by exists [task]. Qed.

Create HintDb mover_db.
Ltac mover_step :=
  lazymatch goal with
  | |- mover (_ ≫= _) => apply mover_bind; [|intros ?]
  | |- mover (mret _) => apply mover_ret
  | |- mover get => apply mover_get
  | |- mover (lift _) => apply mover_lift
  | |- mover (modify _) => apply mover_modify; done
  | |- mover (post_raft _) => apply mover_post_raft; done
  | |- mover (post_store _) => apply mover_post_store
  | |- mover (when ?b _) => destruct b; cbn [when]
  | |- mover (for_each _ _) => apply mover_for_each; intros ?
  | |- mover (let _ := _ in _) => cbv zeta
  | |- mover (match ?x with _ => _ end) => destruct x
  end.
Ltac mover_by := intros; repeat mover_step; auto with mover_db.

Section Movers.
Context {CP : MsgPack Command.t} {MP : MapPack}.

Lemma mover_stop reason : mover (request_stop reason).
Proof.
  unfold request_stop. apply mover_bind; [|intros _].
  - destruct (negb _); [|apply mover_ret]. intros i. split; cbn; auto.
  - intros i. run_m. destruct (stopping_ i) eqn:E; [by apply moves_same|].
    split; cbn; auto; [by exists [StopTask]|]. intros _. right. left. apply elem_of_app. right. by constructor.
Qed.
#[local] Hint Resolve mover_stop : mover_db.

Lemma mover_failed : mover loop_failed.
Proof. intros i. split; cbn; auto. Qed.

Lemma mover_reject_write id error : mover (reject_write id error).
Proof. unfold reject_write, reply_to. mover_by. Qed.

Lemma mover_reject_read id error : mover (reject_read id error).
Proof. unfold reject_read, reply_to. mover_by. Qed.
#[local] Hint Resolve mover_reject_write mover_reject_read : mover_db.

Lemma mover_store_task task : mover (run_store_task task).
Proof.
  destruct task; cbn [run_store_task]; unfold complete_read, apply_committed_entry, complete_write,
    capture_snapshot, restore_store, stop_store, acknowledge_applied, reply_to; mover_by.
Qed.

Lemma mover_expire now : mover (expire_client_requests now).
Proof. unfold expire_client_requests. mover_by. Qed.

Lemma mover_client command reply now : mover (handle_client_command command reply now).
Proof.
  unfold handle_client_command, begin_read, begin_write, reply_error, allocate_request_id, reply_to. mover_by.
Qed.

Lemma moves_restore index snapshot i : moves i (snd (restore_snapshot index snapshot i)).
Proof.
  unfold restore_snapshot. destruct (_ || stopping_ i) eqn:E; [by apply moves_same|].
  apply orb_false_iff in E as [_ Est].
  destruct (match waits i with [] => _ | _ => _ end) as [[] rest].
  - assert (moves i (i <| waits := rest |> <| store_io_ := [] |>)) as H0.
    { apply moves_same; try done. cbn. congruence. }
    cbv zeta. pose proof (mover_for_each (store_io_ (i <| waits := rest |>)) run_store_task mover_store_task
      (i <| waits := rest |> <| store_io_ := [] |>)) as H1.
    destruct (for_each _ _ _) as [[[]|e] i1]; cbn [snd] in H1.
    + pose proof (moves_trans _ _ _ H0 H1) as H2.
      pose proof (mover_store_task (RestoreTask index snapshot) i1) as H3. cbn [run_store_task] in H3.
      unfold mbind, M_bind in H3. destruct (restore_store index snapshot i1) as [[b|e] i2]; cbn [snd] in *.
      * by eapply moves_trans.
      * eapply moves_trans; [exact H2|]. eapply moves_trans; [exact H3|]. apply mover_failed.
    + eapply moves_trans; [exact H0|]. eapply moves_trans; [exact H1|]. apply mover_failed.
  - assert (mover (post_store (RestoreTask index snapshot) ;; request_stop (str "snapshot restore timed out"))) as H
      by mover_by.
    eapply moves_trans; [|apply H]. by apply moves_same.
Qed.

End Movers.

Section NodeMovers.
Context {R : Rng} {CP : MsgPack Command.t} {MP : MapPack}.

Definition nmover {A} (m : M (Raft.t Impl.t) A) : Prop := forall s,
  snapshot_restore_ s = Some restore_snapshot ->
  snapshot_restore_ (snd (m s)) = Some restore_snapshot /\
  moves (restore_env s) (restore_env (snd (m s))).

Lemma nmover_framed {A} (m : M (Raft.t Impl.t) A) : framed m -> nmover m.
Proof. intros Hm s Hs. destruct (Hm s) as (-> & _ & ->). split; [done|]. by apply moves_same. Qed.

Lemma nmover_bind {A B} (m : M (Raft.t Impl.t) A) (f : A -> M (Raft.t Impl.t) B) :
  nmover m -> (forall a, nmover (f a)) -> nmover (m ≫= f).
Proof.
  intros Hm Hf s Hs. destruct (Hm s Hs) as [H1 H2]. unfold mbind, M_bind.
  destruct (m s) as [[a|e] s1]; [|done]. destruct (Hf a s1 H1) as [H3 H4].
  split; [done|]. by eapply moves_trans.
Qed.

Lemma nmover_same {A} (m : M (Raft.t Impl.t) A) :
  (forall s, snapshot_restore_ (snd (m s)) = snapshot_restore_ s /\ restore_env (snd (m s)) = restore_env s) ->
  nmover m.
Proof. intros Hm s Hs. destruct (Hm s) as [-> ->]. split; [done|]. by apply moves_same. Qed.

Lemma nmover_on_impl {A} (m : M Impl.t A) : mover m -> nmover (on_impl m).
Proof.
  intros Hm s Hs. specialize (Hm (restore_env s)). unfold on_impl.
  by destruct (m (restore_env s)) as [r i].
Qed.

Lemma nmover_in_loop (m : M (Raft.t Impl.t) unit) : nmover m -> nmover (in_loop m).
Proof.
  intros Hm s Hs. destruct (Hm s Hs) as [H1 H2]. unfold in_loop. destruct (m s) as [[a|e] s1]; [done|].
  destruct (nmover_on_impl loop_failed mover_failed s1 H1) as [H3 H4]. split; [done|]. by eapply moves_trans.
Qed.

Lemma nmover_restore index data :
  nmover (call_snapshot_restore (Env := Impl.t) index data).
Proof.
  intros s Hs. unfold call_snapshot_restore. run_m. rewrite Hs.
  pose proof (moves_restore index data (restore_env s)) as Hr.
  by destruct (restore_snapshot index data (restore_env s)) as [b i].
Qed.

End NodeMovers.

Create HintDb nmover_db.
Ltac nmover_step :=
  lazymatch goal with
  | |- nmover (_ ≫= _) => apply nmover_bind; [|intros ?]
  | |- nmover (mret _) => by apply nmover_same
  | |- nmover get => by apply nmover_same
  | |- nmover impl => by apply nmover_same
  | |- nmover (throw _) => by apply nmover_same
  | |- nmover (modify _) => by apply nmover_same
  | |- nmover (on_impl _) => apply nmover_on_impl; mover_by
  | |- nmover (if_wal _) => apply nmover_framed, framed_if_wal
  | |- nmover sync_wal => apply nmover_framed, framed_sync
  | |- nmover (when ?b _) => destruct b; cbn [when]
  | |- nmover (let _ := _ in _) => cbv zeta
  | |- nmover (match ?x with _ => _ end) => destruct x
  end.
Ltac nmover_by := intros; repeat nmover_step; auto with nmover_db.

Section NodeHandlers.
Context {R : Rng} {WP : WalPack} {CP : MsgPack Command.t} {MP : MapPack}.
#[local] Hint Resolve mover_stop mover_store_task mover_expire mover_client : mover_db.
#[local] Hint Resolve nmover_restore : nmover_db.

Lemma nmover_install msg : nmover (handle_install_snapshot (Env := Impl.t) msg).
Proof.
  unfold handle_install_snapshot. nmover_by; apply nmover_framed;
    first [apply framed_reply | apply framed_persist | apply framed_prepare].
Qed.

Lemma nmover_deliver msg : nmover (deliver (Env := Impl.t) msg).
Proof.
  destruct (decide (Message.type msg = Message.MsgInstallSnapshot)) as [E|E].
  - unfold deliver. rewrite E. cbn. apply nmover_bind; [apply nmover_install|].
    intros a. apply nmover_framed, framed_push.
  - by apply nmover_framed, framed_deliver.
Qed.

Lemma mover_flush messages : mover (flush_loop messages).
Proof. induction messages; cbn [flush_loop]; unfold next_send; mover_by. Qed.
#[local] Hint Resolve mover_flush : mover_db.

Lemma nmover_finish tok : nmover (finish_read_index (Env := Impl.t) tok).
Proof. apply nmover_framed, framed_finish. Qed.
#[local] Hint Resolve nmover_finish nmover_deliver : nmover_db.

Lemma nmover_after : nmover after_raft_activity.
Proof.
  unfold after_raft_activity, dispatch_next_committed_entry, poll_read_indexes,
    maybe_capture_snapshot, flush_raft_messages, read_messages, log_status_if_changed, print. nmover_by.
Qed.
#[local] Hint Resolve nmover_after : nmover_db.

Lemma nmover_raft_task task : nmover (run_raft_task task).
Proof.
  destruct task; unfold run_raft_task, handle_raft_message, propose_task, read_task, applied_task,
    cancel_raft_read, snapshot_task, advance, take_snapshot; nmover_by; apply nmover_framed;
    first [apply framed_propose | apply framed_read_index].
Qed.

Lemma nmover_tick : nmover tick_timer.
Proof. unfold tick_timer. nmover_by. apply nmover_framed, framed_tick. Qed.

(** A posted handler leaves its queue first. *)
Definition popped (ev : node_event) (i : Impl.t) : Impl.t :=
  match ev with
  | RunRaft => i <| raft_io_ := drop 1 (raft_io_ i) |>
  | RunStore => i <| store_io_ := drop 1 (store_io_ i) |>
  | _ => i
  end.

Lemma moves_refl i : moves i i.
Proof. by apply moves_same. Qed.

Lemma event_moves ev s :
  snapshot_restore_ s = Some restore_snapshot -> loops_stopped (restore_env s) = false ->
  snapshot_restore_ (snd (run_event ev s)) = Some restore_snapshot /\
  moves (popped ev (restore_env s)) (restore_env (snd (run_event ev s))).
Proof.
  intros Hs Hl. rewrite run_event_eq by done.
  destruct ev as [| | |now|command reply now|message|]; cbn [popped].
  - destruct (raft_io_ (restore_env s)) as [|task tasks] eqn:E.
    { cbn. split; [done|]. apply moves_same; cbn; rewrite ?E; done. }
    exact (nmover_in_loop _ (nmover_raft_task task) (snd (on_impl (raft_io_ <~ tasks) s)) Hs).
  - destruct (store_io_ (restore_env s)) as [|task tasks] eqn:E.
    { cbn. split; [done|]. apply moves_same; cbn; rewrite ?E; done. }
    exact (nmover_in_loop _ (nmover_on_impl _ (mover_store_task task))
      (snd (on_impl (store_io_ <~ tasks) s)) Hs).
  - by apply nmover_in_loop, Hs; apply nmover_tick.
  - destruct (stopping_ (restore_env s)); [split; [done|apply moves_refl]|].
    apply (nmover_in_loop _ (nmover_on_impl _ (mover_expire now)) s Hs).
  - apply (nmover_on_impl _ (mover_client command reply now) s Hs).
  - by apply (nmover_on_impl _ (mover_post_raft (HandleMessage message) ltac:(done)) s Hs).
  - apply (nmover_on_impl _ (mover_stop []) s Hs).
Qed.

End NodeHandlers.

(** ** A storage failure is reported *)

Section Reports.
Context {R : Rng} {WP : WalPack} {CP : MsgPack Command.t} {MP : MapPack}.
Implicit Types (s : Raft.t Impl.t).

Definition shown s : Prop := storage_failed_ s = true -> exit_code_ (restore_env s) = 1.

(** [m] ends with a look at the storage, or throws. *)
Definition reports {A} (m : M (Raft.t Impl.t) A) : Prop := forall s,
  wp m (fun _ => shown) (fun _ _ => True) s.

(** [m] either looks at the storage or leaves it alone. *)
Definition honest {A} (m : M (Raft.t Impl.t) A) : Prop := forall s,
  shown s -> wp m (fun _ => shown) (fun _ _ => True) s.

Lemma reports_honest {A} (m : M (Raft.t Impl.t) A) : reports m -> honest m.
Proof. intros Hm s _. apply Hm. Qed.

Lemma reports_bind {A B} (m : M (Raft.t Impl.t) A) (k : A -> M (Raft.t Impl.t) B) :
  (forall a, reports (k a)) -> reports (m ≫= k).
Proof. intros Hk s. apply wp_bind. unfold wp at 1. destruct (m s) as [[a|e] s1]; [apply Hk|done]. Qed.

Lemma honest_bind {A B} (m : M (Raft.t Impl.t) A) (k : A -> M (Raft.t Impl.t) B) :
  honest m -> (forall a, honest (k a)) -> honest (m ≫= k).
Proof.
  intros Hm Hk s Hs. apply wp_bind. eapply wp_mono; [by apply Hm| |done]. cbn. intros a s1 H1. by apply Hk.
Qed.

Lemma honest_same {A} (m : M (Raft.t Impl.t) A) :
  (forall s, storage_failed_ (snd (m s)) = storage_failed_ s /\ restore_env (snd (m s)) = restore_env s) -> honest m.
Proof.
  intros Hm s Hs. destruct (Hm s) as [E1 E2]. unfold wp, shown in *. destruct (m s) as [[a|e] s1]; [|done].
  cbn in *. by rewrite E1, E2.
Qed.

Lemma honest_on_impl {A} (m : M Impl.t A) : mover m -> honest (on_impl m).
Proof.
  intros Hm s Hs. pose proof (mv_exit _ _ (Hm (restore_env s))) as Hx. unfold wp, on_impl, shown in *.
  destruct (m (restore_env s)) as [[a|e] i]; [|done]. cbn in *. intros Hf. destruct Hx; [|done].
  rewrite H. by apply Hs.
Qed.

End Reports.

Create HintDb honest_db.
Ltac honest_step :=
  lazymatch goal with
  | |- honest (_ ≫= _) => apply honest_bind; [|intros ?]
  | |- honest (mret _) => by apply honest_same
  | |- honest get => by apply honest_same
  | |- honest impl => by apply honest_same
  | |- honest (modify _) => by apply honest_same
  | |- honest (on_impl _) => apply honest_on_impl; mover_by
  | |- honest (let _ := _ in _) => cbv zeta
  | |- honest (match ?x with _ => _ end) => destruct x
  end.
Ltac honest_by := intros; repeat honest_step; auto with honest_db.

Section Storage.
Context {R : Rng} {WP : WalPack} {CP : MsgPack Command.t} {MP : MapPack}.
#[local] Hint Resolve mover_stop mover_flush : mover_db.

Lemma honest_finish tok : honest (finish_read_index (Env := Impl.t) tok).
Proof. unfold finish_read_index. honest_by. Qed.
#[local] Hint Resolve honest_finish : honest_db.

Lemma reports_after : reports after_raft_activity.
Proof.
  intros s. unfold after_raft_activity. do 2 wp_step. destruct (storage_failed_ s) eqn:E.
  - unfold wp, on_impl. destruct (request_stop _ _) as [[[]|e] i] eqn:Er; [|done]. intros _. cbn.
    revert Er. unfold request_stop. run_m. rewrite bool_decide_eq_false_2 by done. cbn.
    case_match; by intros [= <-].
  - assert (shown s) as Hs by (unfold shown; congruence). revert s Hs E. intros s Hs _. revert s Hs.
    change (honest (A := unit) (dispatch_next_committed_entry ;; poll_read_indexes ;;
      maybe_capture_snapshot ;; flush_raft_messages ;; log_status_if_changed false)).
    unfold dispatch_next_committed_entry, poll_read_indexes,
      maybe_capture_snapshot, flush_raft_messages, read_messages, log_status_if_changed, print.
    honest_by.
Qed.

Ltac look := solve [apply reports_honest;
  repeat lazymatch goal with |- reports (_ ≫= _) => apply reports_bind; intros ? end; apply reports_after].

Lemma honest_raft_task task : honest (run_raft_task task).
Proof.
  destruct task; unfold run_raft_task, handle_raft_message, propose_task, read_task, applied_task, advance,
    cancel_raft_read, snapshot_task; intros; repeat first [look | honest_step]; auto with honest_db.
Qed.

Lemma honest_tick : honest tick_timer.
Proof. unfold tick_timer. repeat first [look | honest_step]. Qed.

Lemma honest_in_loop (m : M (Raft.t Impl.t) unit) s :
  honest m -> shown s -> shown (snd (in_loop m s)).
Proof.
  intros Hm Hs. specialize (Hm s Hs). unfold in_loop, wp in *. destruct (m s) as [[[]|e] s1]; done.
Qed.

Lemma event_shown ev s : loops_stopped (restore_env s) = false -> shown s -> shown (snd (run_event ev s)).
Proof.
  intros Hl Hs. rewrite run_event_eq by done.
  assert (forall A (m : M Impl.t A), mover m -> shown (snd (on_impl m s))) as Hi.
  { intros A m Hm. pose proof (mv_exit _ _ (Hm (restore_env s))) as Hx. unfold on_impl, shown in *.
    destruct (m (restore_env s)) as [r i]. cbn in *. intros Hf. destruct Hx as [->|]; auto. }
  destruct ev as [| | |now|command reply now|message|].
  - destruct (raft_io_ (restore_env s)) as [|task tasks]; [done|].
    apply (honest_in_loop _ (snd (on_impl (raft_io_ <~ tasks) s)) (honest_raft_task task)), Hs.
  - destruct (store_io_ (restore_env s)) as [|task tasks]; [done|].
    apply (honest_in_loop _ (snd (on_impl (store_io_ <~ tasks) s))
      (honest_on_impl _ (mover_store_task task))), Hs.
  - apply honest_in_loop; [apply honest_tick|done].
  - destruct (stopping_ (restore_env s)); [done|].
    apply honest_in_loop; [apply honest_on_impl, mover_expire|done].
  - apply Hi, mover_client.
  - by apply Hi, mover_post_raft.
  - apply Hi, mover_stop.
Qed.

End Storage.

(** ** A node that has just started *)

Section Start.
Context {R : Rng}.

(** The members that govern the end. *)
Definition ends (s : Raft.t Impl.t) : Z * bool * bool * list raft_task * list store_task :=
  let i := restore_env s in (exit_code_ i, loops_stopped i, stopping_ i, raft_io_ i, store_io_ i).

Definition still {A} (m : M (Raft.t Impl.t) A) : Prop := forall s, ends (snd (m s)) = ends s.

Lemma still_bind {A B} (m : M (Raft.t Impl.t) A) (f : A -> M (Raft.t Impl.t) B) :
  still m -> (forall a, still (f a)) -> still (m ≫= f).
Proof.
  intros Hm Hf s. specialize (Hm s). unfold mbind, M_bind.
  destruct (m s) as [[a|e] s1]; [|done]. etransitivity; [apply Hf|exact Hm].
Qed.

End Start.

Ltac still_step :=
  lazymatch goal with
  | |- still (_ ≫= _) => apply still_bind; [|intros ?]
  | |- still (when ?b _) => destruct b; cbn [when]
  | |- still (let _ := _ in _) => cbv zeta
  | |- still (if ?b then _ else _) => destruct b
  | |- still _ => by intros ?
  end.

Section Started.
Context {R : Rng} {WP : WalPack} {CP : MsgPack Command.t} {MP : MapPack}.

Lemma still_restore_loop es : forall i, still (restore_loop (Env := Impl.t) es i).
Proof. induction es as [|e es IH]; intros i; cbn [restore_loop]; repeat still_step; apply IH. Qed.

Lemma still_replay index es : still (replay_committed index es).
Proof.
  induction es as [|e es IH]; cbn [replay_committed]; unfold impl, advance; repeat still_step; auto.
  intros s. unfold on_impl. by destruct (KVStore.apply _ _) as [[] ?].
Qed.

Lemma still_restore_state r : still (restore_state r).
Proof.
  unfold restore_state, restore, impl, print. repeat still_step; auto using still_restore_loop, still_replay.
  intros s. unfold on_impl. by destruct (KVStore.deserialize _ _) as [[] ?].
Qed.

Lemma recover_still b u b' :
  recover_storage b = (Ok u, b') -> ends (boot_node b') = ends (boot_node b) /\ storage_failed_ (boot_node b') = false.
Proof.
  unfold recover_storage, recover_wal. run_m. destruct (contains_wal_file _).
  - destruct (WAL.open _) as [w|]; [|done]. destruct (WAL.recover _ _ _) as [[r|e] w']; [|done]. unfold on_node. cbn.
    pose proof (still_restore_state r (boot_node b)) as H. destruct (restore_state r _) as [[[]|e] s1]; [|done].
    intros [= <- <-]. by split.
  - destruct (negb _); [done|]. destruct (WAL.create _) as [w|]; [|done]. by intros [= <- <-].
Qed.

Lemma boot_ends config m d s d' :
  boot config m d = (Ok s, d') -> ends s = (0, false, false, [], []) /\ storage_failed_ s = false.
Proof.
  unfold boot. destruct (create _ _ _ _ _) as [s0|e] eqn:Ec; [|done].
  destruct (recover_storage _) as [[u|e] b] eqn:Er; [|done]. intros [= <- <-].
  destruct (recover_still _ _ _ Er) as [E1 E2]. split; [|done].
  assert (ends s0 = (0, false, false, [], [])) as E0.
  { unfold create in Ec. cbv zeta in Ec. destruct (invalid_config _); [done|].
    match type of Ec with context [reset_randomized_election_timeout ?x] =>
      destruct (framed_reset x) as (He & _);
      destruct (reset_randomized_election_timeout x) as [[]] end; [|done].
    simplify_eq. unfold ends. cbn [snd] in He. by rewrite He. }
  rewrite <- E0. exact E1.
Qed.

End Started.

(** ** The process *)

(** A peer that was told to stop will. *)
Definition peer_told (q : Peer.t) : Prop :=
  Peer.stop_requested q = true -> Peer.StopNow ∈ Peer.strand q \/ Peer.stopped q = true.

Ltac peer_walk :=
  unfold Peer.push_frame, Peer.on_resolved, Peer.on_connected, Peer.on_written, Peer.on_retry,
    Peer.mark_disconnected, Peer.schedule_retry, Peer.connect, Peer.write_next, Peer.release, Peer.start_op;
  repeat lazymatch goal with
  | |- wp (match ?x with _ => _ end) _ _ _ => destruct x eqn:?
  | _ => wp_step
  end.

(** The members that tell whether a peer stops. *)
Definition same_stop (q q' : Peer.t) : Prop :=
  Peer.stop_requested q' = Peer.stop_requested q /\ Peer.strand q' = Peer.strand q /\
  Peer.stopped q' = Peer.stopped q.

Lemma same_stop_told q q' : same_stop q q' -> peer_told q -> peer_told q'.
Proof. intros (E1 & E2 & E3). unfold peer_told. by rewrite E1, E2, E3. Qed.

Lemma push_same_stop frame q : same_stop q (snd (Peer.push_frame frame q)).
Proof. apply (wp_snd _ (same_stop q)). peer_walk; done. Qed.

Lemma complete_same_stop {PP : MsgPack Message.t} op error q :
  same_stop q (snd (Peer.step (Peer.Complete op error) q)).
Proof. apply (wp_snd _ (same_stop q)). cbn [Peer.step]. peer_walk; done. Qed.

Lemma stop_now_fields q : let q' := snd (Peer.stop_now q) in
  Peer.stop_requested q' = Peer.stop_requested q /\ Peer.strand q' = Peer.strand q /\
  Peer.ops q' = Peer.ops q /\ Peer.stopped q' = true.
Proof.
  cbv zeta. set (P := fun q' => Peer.stop_requested q' = Peer.stop_requested q /\
    Peer.strand q' = Peer.strand q /\ Peer.ops q' = Peer.ops q /\ Peer.stopped q' = true).
  apply (wp_snd _ P). unfold Peer.stop_now. do 2 wp_step. wp_step; [by wp_step|].
  repeat lazymatch goal with |- wp (for_each _ _ ≫= _) _ _ _ => fail | _ => wp_step end.
  wp_step. eapply wp_mono; [apply (wp_for_each _ _ P)| |].
  - done.
  - intros frame q1 _ H1. unfold Peer.release. by repeat wp_step.
  - cbv beta. intros [] q1 H1. by wp_step.
  - intros ? ? H. exact H.
Qed.

Lemma peer_told_step {PP : MsgPack Message.t} ev q : peer_told q -> peer_told (snd (Peer.step ev q)).
Proof.
  intros Hq. destruct ev as [m| |op error|].
  - cbn [Peer.step snd]. apply (wp_snd _ peer_told). unfold Peer.send, Peer.enqueue, Peer.reserve.
    wp_step. unfold wp at 1, lift. destruct (Transport.encode_message m); [|done].
    repeat wp_step; try done; intros Hs; destruct (Hq Hs); auto; left; apply elem_of_app; by left.
  - cbn [Peer.step]. unfold mbind, M_bind. cbn [get].
    destruct (Peer.strand q) as [|[frame|] tasks] eqn:Es; [done|..].
    + eapply same_stop_told; [apply push_same_stop|]. intros Hs. cbn in *. destruct (Hq Hs) as [H|H]; [|by right].
      rewrite Es in H. apply elem_of_cons in H as [|H]; [done|by left].
    + right. apply stop_now_fields.
  - eapply same_stop_told; [apply complete_same_stop|done].
  - cbn [Peer.step]. apply (wp_snd _ peer_told). unfold Peer.request_stop. repeat wp_step; [done|].
    intros _. left. apply elem_of_app. right. by constructor.
Qed.

Section Lifecycle.
Context {R : Rng} {WP : WalPack} {CP : MsgPack Command.t} {MP : MapPack} {PP : MsgPack Message.t}.
Import Process.
Implicit Types (p : Process.t).

(** The work guard of a loop. *)
Definition guarded (l : loop) p : bool :=
  match l with raft_loop => raft_work_ p | peer_loop => peer_work_ p | store_loop => store_work_ p end.

(** What the stop has reached so far. *)
Record inv p : Prop := {
  in_callback : snapshot_restore_ (node p) = Some restore_snapshot;
  in_exit : exit_code_ (impl_of p) = 0 \/ exit_code_ (impl_of p) = 1;
  in_loops : loops_stopped (impl_of p) = true -> exit_code_ (impl_of p) = 1 /\ stopping_ (impl_of p) = true;
  in_storage : shown (node p);
  in_stop : stopping_ (impl_of p) = true ->
    loops_stopped (impl_of p) = true \/ StopTask ∈ raft_io_ (impl_of p) \/ raft_work_ p = false;
  in_posted : StopTask ∈ raft_io_ (impl_of p) -> stopping_ (impl_of p) = true;
  in_raft : raft_work_ p = false -> stopping_ (impl_of p) = true /\
    tick_timer_ p <> Waiting /\ signals_ p <> Waiting /\
    (StopStoreTask ∈ store_io_ (impl_of p) \/ store_work_ p = false) /\
    (peer_io_ p <> 0%nat \/ peer_work_ p = false);
  in_store : store_work_ p = false ->
    request_timer_ p <> Waiting /\ ClientServer.stopped_ (client_server_ p) = true;
  in_peer : peer_work_ p = false -> PeerServer.stop_requested (peer_server_ p) = true /\
    forall id q, peers_ p !! id = Some q -> Peer.stop_requested q = true;
  in_returned l : returned l p = true -> loops_stopped (impl_of p) = true \/ guarded l p = false;
  in_clients : ClientServer.owned Resp.default_limits (client_server_ p);
  in_listener : PeerServer.owned (peer_server_ p);
  in_told id q : peers_ p !! id = Some q -> peer_told q;
}.

(** The handlers that start to stop a loop, at the front of a queue. *)
Definition stops_next (ev : node_event) p : Prop :=
  match ev with
  | RunRaft => head (raft_io_ (impl_of p)) = Some StopTask
  | RunStore => head (store_io_ (impl_of p)) = Some StopStoreTask
  | _ => False
  end.

Lemma drop_elem {A} n (x : A) l : x ∈ drop n l -> x ∈ l.
Proof. intros H. rewrite <- (take_drop n l). apply elem_of_app. by right. Qed.

Lemma in_tail {A} (x : A) l : x ∈ l -> head l <> Some x -> x ∈ drop 1 l.
Proof. destruct l as [|y l]; [done|]. intros [->|H]%elem_of_cons H'; [by destruct H'|done]. Qed.

(** What the node's own members do, whatever handler runs. *)
Lemma node_keeps ev p :
  inv p -> loops_stopped (impl_of p) = false ->
  let i := popped ev (impl_of p) in
  let s' := snd (run_event ev (node p)) in
  let i' := restore_env s' in
  snapshot_restore_ s' = Some restore_snapshot /\ shown s' /\ moves i i' /\
  (exit_code_ i' = 0 \/ exit_code_ i' = 1) /\
  (loops_stopped i' = true -> exit_code_ i' = 1 /\ stopping_ i' = true) /\
  (stopping_ (impl_of p) = true -> stopping_ i' = true) /\
  (StopTask ∈ raft_io_ i' -> stopping_ i' = true).
Proof.
  intros Hp Hl i s' i'. destruct (event_moves ev (node p) (in_callback _ Hp) Hl) as [Hc Hm].
  change (moves i i') in Hm. fold s' in Hc.
  assert (exit_code_ i = exit_code_ (impl_of p) /\ loops_stopped i = loops_stopped (impl_of p) /\
    stopping_ i = stopping_ (impl_of p) /\ (StopTask ∈ raft_io_ i -> StopTask ∈ raft_io_ (impl_of p)))
    as (Ex & El & Es & Er).
  { unfold i. destruct ev; cbn; try done. split_and!; try done. by intros H%drop_elem. }
  split_and!; [done|by apply event_shown, (in_storage _ Hp)|done|..].
  - destruct (mv_exit _ _ Hm) as [E|E]; [|by right]. destruct (in_exit _ Hp); [left|right]; congruence.
  - intros H. destruct (mv_loops _ _ Hm) as [E|(_ & H1 & H2)]; [congruence|done].
  - intros H. apply (mv_stopping _ _ Hm). congruence.
  - intros H. destruct (mv_posted _ _ Hm H) as [H'|]; [|done]. apply (mv_stopping _ _ Hm).
    rewrite Es. by apply (in_posted _ Hp), Er.
Qed.

Lemma node_runs_inv ev p :
  inv p -> loops_stopped (impl_of p) = false -> ~ stops_next ev p -> inv (node_runs ev p).
Proof.
  intros Hp Hl Hn. destruct (node_keeps ev p Hp Hl) as (Hc & Hs & Hm & Hx & Hlo & Hst & Hpo).
  destruct (Hp) as [_ _ _ _ I1 I2 I3 I4 I5 I6 I7 I8 I9].
  unfold node_runs. set (s' := snd (run_event ev (node p))) in *.
  assert (forall w, w = stopping_ (popped ev (impl_of p)) -> w = stopping_ (impl_of p)) as Ep
    by (intros w ->; by destruct ev).
  split; try done; unfold impl_of; cbn [node set set_node].
  - intros H. destruct (mv_stop _ _ Hm H) as [H'|[H'|H']]; [|by auto..].
    assert (stopping_ (impl_of p) = true) as H'' by (rewrite <- H'; symmetry; by apply Ep).
    destruct (I1 H'') as [H1|[H1|H1]]; [congruence| |by auto]. right. left.
    destruct (mv_raft _ _ Hm) as [k ->]. apply elem_of_app. left. destruct ev; try done. by apply in_tail.
  - intros H. destruct (I3 H) as (H1 & H2 & H3 & H4 & H5). split_and!; auto.
    destruct H4 as [H4|]; [|by auto]. left.
    destruct (mv_store _ _ Hm) as [k ->]; [by destruct ev|]. apply elem_of_app. left.
    destruct ev; try done. by apply in_tail.
  - intros l H. destruct (I6 l H) as [H1|H1]; [congruence|]. right. by destruct l.
Qed.

(** *** The stop reaches the loops *)

Lemma stop_raft_inv p :
  inv p -> loops_stopped (impl_of p) = false -> head (raft_io_ (impl_of p)) = Some StopTask ->
  inv (stop_on_raft_loop (node_runs RunRaft p)).
Proof.
  intros Hp Hl Hh. destruct (node_keeps RunRaft p Hp Hl) as (Hc & Hs & _ & Hx & Hlo & _ & Hpo).
  assert (stopping_ (impl_of p) = true) as Hst.
  { apply (in_posted _ Hp). destruct (raft_io_ (impl_of p)); [done|]. cbn in Hh. simplify_eq. by constructor. }
  assert (restore_env (snd (run_event RunRaft (node p))) =
    (impl_of p) <| raft_io_ := drop 1 (raft_io_ (impl_of p)) |>
      <| store_io_ := store_io_ (impl_of p) ++ [StopStoreTask] |>) as Ei.
  { rewrite run_event_eq by done. change (restore_env (node p)) with (impl_of p).
    destruct (raft_io_ (impl_of p)) as [|task tasks]; [done|]. cbn in Hh. simplify_eq. done. }
  destruct (Hp) as [_ _ _ _ I1 I2 I3 I4 I5 I6 I7 I8 I9].
  split; unfold impl_of; cbn; try done; rewrite ?Ei; cbn.
  - intros _. by right; right.
  - intros _. split_and!; [done|by destruct (tick_timer_ p)|by destruct (signals_ p)| |by left].
    left. apply elem_of_app. right. by constructor.
  - intros l H. destruct (I6 l H) as [H1|H1]; [by left|]. right. by destruct l.
Qed.

Lemma stop_store_inv p :
  inv p -> loops_stopped (impl_of p) = false -> head (store_io_ (impl_of p)) = Some StopStoreTask ->
  inv (stop_on_store_loop (node_runs RunStore p)).
Proof.
  intros Hp Hl Hh. destruct (node_keeps RunStore p Hp Hl) as (Hc & Hs & Hm & Hx & Hlo & Hst & Hpo).
  destruct (Hp) as [_ _ _ _ I1 I2 I3 I4 I5 I6 I7 I8 I9].
  set (s' := snd (run_event RunStore (node p))) in *.
  split; unfold impl_of; cbn; try done; fold s'.
  - intros H. destruct (mv_stop _ _ Hm H) as [H'|[H'|H']]; [|by auto..].
    destruct (I1 H') as [H1|[H1|H1]]; [by left; congruence| |by auto]. right. left.
    destruct (mv_raft _ _ Hm) as [k ->]. apply elem_of_app. by left.
  - intros H. destruct (I3 H) as (H1 & H2 & H3 & H4 & H5). by split_and!; auto.
  - intros _. split; [by destruct (request_timer_ p)|]. unfold ClientServer.stop_on_strand. run_m.
    by destruct (ClientServer.stopped_ _) eqn:E.
  - intros l H. destruct (I6 l H) as [H1|H1]; [congruence|]. right. by destruct l.
  - by apply (ClientServer.server_step_owned Resp.default_limits ltac:(done) ClientServer.Stop).
Qed.

Lemma stop_peer_inv p n :
  inv p -> peer_io_ p = S n -> inv (stop_on_peer_loop (p <| peer_io_ := n |>)).
Proof.
  intros Hp Hn. destruct (Hp) as [J1 J2 J3 J4 I1 I2 I3 I4 I5 I6 I7 I8 I9].
  split; unfold impl_of; cbn; try done.
  - intros H. destruct (I3 H) as (H1 & H2 & H3 & H4 & H5). by split_and!; auto.
  - intros _. split.
    + unfold PeerServer.request_stop. run_m. by destruct (PeerServer.stop_requested _) eqn:E.
    + intros id q. rewrite lookup_fmap. destruct (peers_ p !! id) as [q0|]; [|done]. intros [= <-].
      unfold Peer.request_stop. run_m. by destruct (Peer.stop_requested q0) eqn:E.
  - intros l H. destruct (I6 l H) as [H1|H1]; [by left|]. right. by destruct l.
  - by apply (PeerServer.peer_server_step_owned PeerServer.Stop).
  - intros id q. rewrite lookup_fmap. destruct (peers_ p !! id) as [q0|] eqn:E; [|done]. intros [= <-].
    by apply (peer_told_step Peer.Stop), (I9 id).
Qed.

(** *** The rest *)

Lemma clients_stopped ev v :
  ClientServer.stopped_ v = true -> ClientServer.stopped_ (snd (ClientServer.step ev v)) = true.
Proof.
  intros Hs. apply (wp_snd _ (fun v' => ClientServer.stopped_ v' = true)).
  unfold ClientServer.step, ClientServer.start, ClientServer.stop_on_strand, ClientServer.on_accept,
    ClientServer.add_session, ClientServer.accept_next, ClientServer.session_step.
  repeat lazymatch goal with
  | |- wp (match ?x with _ => _ end) _ _ _ => destruct x eqn:?
  | _ => wp_step
  end; done.
Qed.

Lemma listener_stopped ev v :
  PeerServer.stop_requested v = true -> PeerServer.stop_requested (snd (PeerServer.step ev v)) = true.
Proof.
  intros Hs. apply (wp_snd _ (fun v' => PeerServer.stop_requested v' = true)).
  unfold PeerServer.step, PeerServer.request_start, PeerServer.request_stop, PeerServer.start_on_strand,
    PeerServer.stop_now, PeerServer.on_accept, PeerServer.add_connection, PeerServer.accept_next,
    PeerServer.connection_runs.
  repeat lazymatch goal with
  | |- wp (match ?x with _ => _ end) _ _ _ => destruct x eqn:?
  | _ => wp_step
  end; done.
Qed.

Lemma peer_stop_kept ev q :
  Peer.stop_requested q = true -> Peer.stop_requested (snd (Peer.step ev q)) = true.
Proof.
  intros Hs. destruct ev as [m| |op error|].
  - cbn [Peer.step snd]. apply (wp_snd _ (fun q' => Peer.stop_requested q' = true)).
    unfold Peer.send, Peer.enqueue, Peer.reserve.
    wp_step. unfold wp at 1, lift. destruct (Transport.encode_message m); [|done]. repeat wp_step; done.
  - cbn [Peer.step]. unfold mbind, M_bind. cbn [get]. destruct (Peer.strand q) as [|[frame|] tasks]; [done|..].
    + by etransitivity; [apply (proj1 (push_same_stop frame _))|].
    + by etransitivity; [apply (proj1 (stop_now_fields _))|].
  - by destruct (complete_same_stop op error q) as (-> & _).
  - cbn [Peer.step]. unfold Peer.request_stop. run_m. by rewrite Hs.
Qed.

Ltac unmoved p :=
  let H := fresh "Hp" in intros H; destruct (H) as [J1 J2 J3 J4 I1 I2 I3 I4 I5 I6 I7 I8 I9]; split; try done; cbn.

Lemma clients_inv ev p :
  inv p -> inv (p <| client_server_ := snd (ClientServer.step ev (client_server_ p)) |>).
Proof.
  unmoved p.
  - intros Hw. destruct (I4 Hw) as [? ?]. split; [done|]. by apply clients_stopped.
  - by apply ClientServer.server_step_owned.
Qed.

Lemma listener_inv ev p :
  inv p -> inv (p <| peer_server_ := snd (PeerServer.step ev (peer_server_ p)) |>).
Proof.
  unmoved p.
  - intros Hw. destruct (I5 Hw) as [? ?]. split; [|done]. by apply listener_stopped.
  - by apply PeerServer.peer_server_step_owned.
Qed.

Lemma peer_inv id ev p :
  inv p -> inv (p <| peers_ := alter (fun q => snd (Peer.step ev q)) id (peers_ p) |>).
Proof.
  unmoved p.
  - intros Hw. destruct (I5 Hw) as [H1 H2]. split; [done|]. intros j q.
    rewrite lookup_alter_Some. intros [(-> & q0 & Hq & ->)|[_ Hq]]; [|by eapply H2].
    apply peer_stop_kept. by eapply H2.
  - intros j q. rewrite lookup_alter_Some. intros [(-> & q0 & Hq & ->)|[_ Hq]]; [|by eapply I9].
    apply peer_told_step. by eapply I9.
Qed.

Lemma waits_inv p tick request signals :
  inv p -> (raft_work_ p = false -> tick <> Waiting /\ signals <> Waiting) ->
  (store_work_ p = false -> request <> Waiting) ->
  inv (p <| tick_timer_ := tick |> <| request_timer_ := request |> <| signals_ := signals |>).
Proof.
  intros Hp Ht Hr. revert Hp. unmoved p.
  - intros Hw. destruct (I3 Hw) as (? & _ & _ & ? & ?), (Ht Hw). by split_and!.
  - intros Hw. destruct (I4 Hw) as [_ ?]. split; auto.
Qed.

Lemma return_inv l p :
  inv p -> loops_stopped (impl_of p) || negb (outstanding l p) = true -> inv (return_from l p).
Proof.
  intros Hp Hl.
  assert (loops_stopped (impl_of p) = true \/ guarded l p = false) as Hg.
  { apply orb_true_iff in Hl as [|Ho%negb_true_iff]; [by left|]. right.
    destruct l; cbn in *; repeat (apply orb_false_iff in Ho as [Ho ?]); done. }
  destruct (Hp) as [J1 J2 J3 J4 I1 I2 I3 I4 I5 I6 I7 I8 I9].
  destruct l; split; try done; intros [] H; try exact Hg;
    first [exact (I6 raft_loop H) | exact (I6 peer_loop H) | exact (I6 store_loop H)].
Qed.

(** *** Every event *)

Lemma tick_inv p : inv p -> loops_stopped (impl_of p) = false -> inv (handle (NodeEvent TickTimer) p).
Proof.
  intros Hp Hl. cbn [handle].
  assert (inv (p <| tick_timer_ := Idle |>)) as Hi.
  { apply (waits_inv p Idle (request_timer_ p) (signals_ p)); [done| |by apply in_store].
    intros Hw. destruct (in_raft _ Hp Hw) as (? & ? & ? & _). done. }
  destruct (tick_timer_ p) eqn:Et; [done| |done]. destruct (stopping_ (impl_of p)) eqn:Hst; [done|].
  pose proof (node_runs_inv TickTimer p Hp Hl (fun H => H)) as Hn.
  apply (waits_inv (node_runs TickTimer p) Waiting (request_timer_ p) (signals_ p) Hn); [|apply (in_store _ Hn)].
  intros Hw. destruct (in_raft _ Hp Hw). congruence.
Qed.

Lemma poll_inv now p :
  inv p -> loops_stopped (impl_of p) = false -> inv (handle (NodeEvent (RequestTimer now)) p).
Proof.
  intros Hp Hl. cbn [handle].
  assert (inv (p <| request_timer_ := Idle |>)) as Hi.
  { apply (waits_inv p (tick_timer_ p) Idle (signals_ p)); [done| |done].
    intros Hw. destruct (in_raft _ Hp Hw) as (? & ? & ? & _). done. }
  destruct (request_timer_ p) eqn:Et; [done| |done]. destruct (stopping_ (impl_of p)) eqn:Hst; [done|].
  pose proof (node_runs_inv (RequestTimer now) p Hp Hl (fun H => H)) as Hn.
  apply (waits_inv (node_runs (RequestTimer now) p) (tick_timer_ p) Waiting (signals_ p) Hn).
  - intros Hw. destruct (in_raft _ Hn Hw) as (? & ? & ? & _). done.
  - intros Hw. destruct (in_store _ Hp Hw). congruence.
Qed.

Lemma signal_inv p : inv p -> loops_stopped (impl_of p) = false -> inv (handle (NodeEvent Signal) p).
Proof.
  intros Hp Hl. cbn [handle].
  assert (inv (p <| signals_ := Idle |>)) as Hi.
  { apply (waits_inv p (tick_timer_ p) (request_timer_ p) Idle); [done| |by apply in_store].
    intros Hw. destruct (in_raft _ Hp Hw) as (? & ? & ? & _). done. }
  destruct (signals_ p); [done| |done]. exact (node_runs_inv Signal _ Hi Hl (fun H => H)).
Qed.

Lemma handle_inv ev p : inv p -> loops_stopped (impl_of p) = false -> inv (handle ev p).
Proof.
  intros Hp Hl. destruct ev as [[| | |now|command reply now|message|]|ev|ev|id ev| |l].
  - cbn [handle]. destruct (raft_io_ (impl_of p)) as [|[] tasks] eqn:E;
      try (apply node_runs_inv; [done..|]; unfold stops_next; by rewrite E).
    apply stop_raft_inv; [done..|]. by rewrite E.
  - cbn [handle]. destruct (store_io_ (impl_of p)) as [|[] tasks] eqn:E;
      try (apply node_runs_inv; [done..|]; unfold stops_next; by rewrite E).
    apply stop_store_inv; [done..|]. by rewrite E.
  - by apply tick_inv.
  - by apply poll_inv.
  - exact (node_runs_inv (ClientCommand command reply now) p Hp Hl (fun H => H)).
  - exact (node_runs_inv (Arrival message) p Hp Hl (fun H => H)).
  - by apply signal_inv.
  - by apply clients_inv.
  - by apply listener_inv.
  - by apply peer_inv.
  - cbn [handle]. destruct (peer_io_ p) eqn:E; [done|]. by apply stop_peer_inv.
  - done.
Qed.

Lemma process_inv ev p : inv p -> inv (step ev p).
Proof.
  intros Hp. unfold step. destruct (returned _ _); [done|].
  destruct ev; try (destruct (loops_stopped (impl_of p)) eqn:Hl; [done|by apply handle_inv]).
  destruct (_ || _) eqn:E; [by apply return_inv|done].
Qed.

Lemma play_inv evs : forall p, inv p -> inv (play evs p).
Proof. induction evs as [|ev evs IH]; intros p Hp; cbn; [done|]. by apply IH, process_inv. Qed.

(** *** The start *)

Lemma create_peers_new ps : forall peers peers',
  create_peers ps peers = Ok peers' ->
  (forall id q, peers !! id = Some q -> q = Peer.create) -> forall id q, peers' !! id = Some q -> q = Peer.create.
Proof.
  induction ps as [|a ps IH]; intros peers peers' E Hp; cbn in E; [by simplify_eq|].
  unfold Peer_create in E. destruct (Transport.peer_split_address _); [|done]. cbn in E.
  apply (IH _ _ E). intros id q. unfold emplace. case_match; [apply Hp|].
  rewrite lookup_insert_Some. intros [[_ <-]|[_ Hq]]; [done|by eapply Hp].
Qed.

(** What [run] writes to the log changes nothing else. *)
Lemma run_node p : let s := node (run p) in
  ends s = ends (node p) /\ storage_failed_ s = storage_failed_ (node p) /\
  snapshot_restore_ s = snapshot_restore_ (node p).
Proof. done. Qed.

(** The node that runs. *)
Lemma main_runs {IP} program arguments m (net : Network IP) d p d' :
  main program arguments m net d = (Runs p, d') ->
  exists config s peers,
    parse_node_config arguments = Ok config /\ boot config m d = (Ok s, d') /\
    create_peers (NodeConfig.peers config) ∅ = Ok peers /\
    p = run (mk s peers PeerServer.create (ClientServer.create Resp.default_limits)
               0 Idle Idle Idle true true true false false false).
Proof.
  unfold main. case_decide; [done|]. destruct (parse_node_config arguments) as [config|]; [|done].
  unfold construct. destruct (boot config m d) as [[s|e] d1] eqn:Eb; [|done].
  unfold create_network_services, Server_create, RespServer_create.
  destruct (create_peers _ _) as [peers|e] eqn:Ep; [|done]. cbn.
  destruct (Transport.server_split_address _) as [parts|e]; [|done]. cbn.
  destruct (resolve _ _ _) as [[|ep eps]|e]; [done| |done]. cbn.
  destruct (raft_listen _ _); [|done]. cbn. destruct (parse_listen_address _ _) as [lep|e]; [|done]. cbn.
  destruct (client_listen _ _); [|done]. cbn. intros [= <- <-]. by exists config, s, peers.
Qed.

Lemma main_inv {IP} program arguments m (net : Network IP) d p d' :
  main program arguments m net d = (Runs p, d') -> inv p.
Proof.
  intros (config & s & peers & _ & Eb & Ep & ->)%main_runs.
  destruct (boot_ends _ _ _ _ _ Eb) as [Ee Ef]. destruct (ready_boot _ _ _ _ _ Eb) as [_ Hc].
  set (p := mk _ _ _ _ _ _ _ _ _ _ _ _ _ _). destruct (run_node p) as (Er & Ef' & Ec).
  cbn [node p] in Er, Ef', Ec. rewrite Ee in Er. rewrite Ef in Ef'. rewrite Hc in Ec.
  unfold ends in Er. injection Er as E1 E2 E3 E4 E5.
  assert (forall b : bool, b = false -> b <> true) as Hb by (by intros [] ?).
  split; try done.
  - by left.
  - by intros H%Hb.
  - by intros H%Hb.
  - by intros H%Hb.
  - intros H. change (StopTask ∈ raft_io_ (restore_env s)) in H. rewrite E4 in H. by apply not_elem_of_nil in H.
  - by intros [] H.
  - by apply (proj1 (ClientServer.server_owned Resp.default_limits ltac:(done) [ClientServer.Start])).
  - by apply (proj1 (PeerServer.peer_server_owned [PeerServer.Start])).
  - intros id q Hq. by apply (create_peers_new _ _ _ Ep) in Hq as ->.
Qed.

(** ** Properties *)

Lemma create_peers_dom ps : forall peers peers',
  create_peers ps peers = Ok peers' ->
  dom peers' = dom peers ∪ list_to_set (peer_id <$> ps).
Proof.
  induction ps as [|a ps IH]; intros peers peers' E; cbn in E; [simplify_eq; cbn; set_solver|].
  unfold Peer_create in E. destruct (Transport.peer_split_address _); [|done]. cbn in E.
  rewrite (IH _ _ E). unfold emplace. rewrite fmap_cons, list_to_set_cons. case_match eqn:Ea.
  - apply elem_of_dom_2 in Ea. set_solver.
  - rewrite dom_insert_L. set_solver.
Qed.

Lemma other_members config :
  valid_config config -> list_to_set (C := gset Z) (peer_id <$> NodeConfig.peers config) = {[1; 2; 3]} ∖ {[NodeConfig.id config]}.
Proof.
  intros Hv. pose proof (vc_members _ Hv) as Hm.
  assert (NoDup (NodeConfig.id config :: (peer_id <$> NodeConfig.peers config))) as Hn.
  { rewrite Hm. by apply (bool_decide_unpack _). }
  apply list.NoDup_cons in Hn as [Hid _].
  assert (forall x, x ∈ NodeConfig.id config :: (peer_id <$> NodeConfig.peers config) <-> x ∈ [1; 2; 3]) as He
    by (intros x; by rewrite Hm).
  apply set_eq. intros x. specialize (He x). rewrite elem_of_list_to_set. set_solver.
Qed.

(** C33: [main] starts a node only from a command line that names a member of
    the fixed cluster, with a connection for each of the other two and for nobody
    else; then the storage has been recovered, both listeners and all waits are
    set up, and nothing has stopped.  Otherwise it returns at once, with 0 only
    when help was asked for, and with 1, the reason and the usage when it was not. *)
Theorem main_starts {IP} program arguments m (net : Network IP) d :
  match main program arguments m net d with
  | (Exits code out err, d') =>
      arguments = [str "--help"] /\ code = 0 /\ out = node_usage program /\ err = None /\ d' = d \/
      arguments <> [str "--help"] /\ code = 1 /\ exists e, err = Some (e, node_usage program) /\
        (parse_node_config arguments = Throw e \/
         exists config, parse_node_config arguments = Ok config /\ construct config m net d = (Throw e, d'))
  | (Runs p, d') => exists config s,
      parse_node_config arguments = Ok config /\ valid_config config /\ boot config m d = (Ok s, d') /\
      dom (peers_ p) = ({[1; 2; 3]} ∖ {[NodeConfig.id config]} : gset Z) /\
      ClientServer.accepting (client_server_ p) = true /\
      PeerServer.strand (peer_server_ p) = [PeerServer.StartTask] /\
      tick_timer_ p = Waiting /\ request_timer_ p = Waiting /\ signals_ p = Waiting /\
      stopping_ (impl_of p) = false /\ exit_code_ (impl_of p) = 0 /\ exit_status p = None
  end.
Proof.
  destruct (main program arguments m net d) as [[code out err|p] d'] eqn:E.
  - unfold main in E. case_decide; [left; by simplify_eq|right]. split; [done|].
    destruct (parse_node_config arguments) as [config|e] eqn:Ep; [|by simplify_eq; eauto 10].
    destruct (construct config m net d) as [[p|e] d1] eqn:Ec; [done|]. simplify_eq. by eauto 10.
  - apply main_runs in E as (config & s & peers & Ep & Eb & Er & ->). exists config, s.
    apply parse_valid in Ep as Hv. destruct (boot_ends _ _ _ _ _ Eb) as [Ee _].
    unfold ends in Ee. injection Ee as E1 E2 E3 E4 E5.
    split_and!; try done. cbn. rewrite (create_peers_dom _ _ _ Er), (other_members config Hv). set_solver.
Qed.

(** C13: the exit code is honest.  Whatever happens to a running node, its exit
    code is 0 or 1, and 1 as soon as the write-ahead log has failed or an exception
    has ended a loop.  The process ends only after it was told to stop, and one that
    ends with 0 has had no failure, has closed both listeners and has told every peer
    to stop. *)
Theorem exit_code_reports {IP} program arguments m (net : Network IP) d p d' evs :
  main program arguments m net d = (Runs p, d') ->
  let q := play evs p in
  (exit_code_ (impl_of q) = 0 \/ exit_code_ (impl_of q) = 1) /\
  (storage_failed_ (node q) = true \/ loops_stopped (impl_of q) = true -> exit_code_ (impl_of q) = 1) /\
  (exit_status q <> None -> stopping_ (impl_of q) = true) /\
  (exit_status q = Some 0 ->
     storage_failed_ (node q) = false /\ loops_stopped (impl_of q) = false /\
     ClientServer.stopped_ (client_server_ q) = true /\
     PeerServer.stop_requested (peer_server_ q) = true /\
     forall id peer, peers_ q !! id = Some peer -> Peer.stop_requested peer = true).
Proof.
  intros Hm q. apply main_inv, (play_inv evs) in Hm. fold q in Hm. clearbody q. clear p.
  assert (forall l, exit_status q <> None -> returned l q = true) as Hret.
  { intros l. unfold exit_status. destruct (raft_returned q) eqn:E1, (peer_returned q) eqn:E2,
      (store_returned q) eqn:E3; try done. by destruct l. }
  destruct (Hm) as [_ I0 I1 I2 _ _ I3 I4 I5 I6 _ _ _].
  split_and!; [done|intros [H|H]; [by apply I2|by apply I1]|..].
  - intros He. destruct (I6 raft_loop (Hret _ He)) as [H|H]; [by apply I1|by apply I3].
  - intros He. assert (exit_status q <> None) as Hn by congruence.
    assert (exit_code_ (impl_of q) = 0) as H0.
    { unfold exit_status in He. case_match; [by injection He|done]. }
    assert (loops_stopped (impl_of q) = false) as Hl.
    { destruct (loops_stopped (impl_of q)); [|done]. destruct (I1 eq_refl). congruence. }
    split_and!; [|done|..].
    + destruct (storage_failed_ (node q)) eqn:E; [|done]. specialize (I2 E). unfold impl_of in H0. congruence.
    + destruct (I6 store_loop (Hret _ Hn)) as [|H]; [congruence|by apply I4].
    + destruct (I6 peer_loop (Hret _ Hn)) as [|H]; [congruence|by apply I5].
    + destruct (I6 peer_loop (Hret _ Hn)) as [|H]; [congruence|by apply I5].
Qed.

End Lifecycle.
