(* ===== verification/Shutdown.v ===== *)
(** * A process that was told to stop ends

    Its own handlers are those that are posted, the waits that complete and the
    operations on sockets that were closed.  Each one that runs leaves less to
    do, whatever the order, and as long as a thread has not returned there is one
    that can run: so the threads return after a bounded number of handlers,
    without the help of a client, of another member or of the network. *)

From S2P Require Import Prelude Text Msgpack Proto RespCodec Transport Peer Link RespServer Servers Wal.
From S2P Require Import KvStore NodeConfig Raft RaftNode Runtime RuntimeSim ClusterDemo Requests Process Lifecycle.
Import Raft Impl.

(** ** Sums over the objects of a table *)

Section Sums.
Context {K A : Type} `{Countable K} (w : A -> nat).

Definition msum (m : gmap K A) : nat := sum_list_with (fun p => w p.2) (map_to_list m).

Lemma msum_perm (l l' : list (K * A)) :
  l ≡ₚ l' -> sum_list_with (fun p => w p.2) l = sum_list_with (fun p => w p.2) l'.
Proof. induction 1; cbn; lia. Qed.

Lemma msum_new m k x : m !! k = None -> msum (<[k := x]> m) = (w x + msum m)%nat.
Proof. intros Hk. unfold msum. by rewrite (msum_perm _ _ (map_to_list_insert m k x Hk)). Qed.

Lemma msum_insert m k x y : m !! k = Some x -> (msum (<[k := y]> m) + w x = msum m + w y)%nat.
Proof.
  intros Hk. pose proof (msum_new (delete k m) k x (lookup_delete_eq m k)) as Hx.
  pose proof (msum_new (delete k m) k y (lookup_delete_eq m k)) as Hy.
  rewrite (insert_delete_id m k x Hk) in Hx. rewrite insert_delete_eq in Hy. lia.
Qed.

(** Every object grows by at most [c]. *)
Lemma msum_imap (f : K -> A -> A) c m :
  (forall k x, (w (f k x) <= w x + c)%nat) ->
  (msum (map_imap (fun k x => Some (f k x)) m) <= msum m + c * size m)%nat.
Proof.
  intros Hf. induction m as [|k x m Hk IH] using map_ind.
  - rewrite map_imap_empty. unfold msum. rewrite map_to_list_empty. cbn. lia.
  - assert (map_imap (fun k x => Some (f k x)) (<[k := x]> m) =
      <[k := f k x]> (map_imap (fun k x => Some (f k x)) m)) as ->.
    { apply map_eq. intros j. rewrite map_lookup_imap. destruct (decide (j = k)) as [->|Hj].
      - by rewrite !lookup_insert_eq.
      - by rewrite !lookup_insert_ne, map_lookup_imap by done. }
    rewrite !msum_new, map_size_insert_None; [|done|done|by rewrite map_lookup_imap, Hk].
    specialize (Hf k x). lia.
Qed.

Lemma msum_fmap (f : A -> A) c m :
  (forall x, (w (f x) <= w x + c)%nat) -> (msum (f <$> m) <= msum m + c * size m)%nat.
Proof.
  intros Hf. assert (f <$> m = map_imap (fun _ x => Some (f x)) m) as ->.
  { apply map_eq. intros k. rewrite lookup_fmap, map_lookup_imap. by destruct (m !! k). }
  by apply msum_imap.
Qed.

(** What [outstanding] looks for. *)
Lemma existsb_values (b : A -> bool) (m : gmap K A) :
  existsb b (map_to_list m).*2 = true -> exists k x, m !! k = Some x /\ b x = true.
Proof.
  intros (x & Hx & Hb)%existsb_exists. apply list_elem_of_In, list_elem_of_fmap in Hx as ([k y] & -> & Hk).
  apply elem_of_map_to_list in Hk. by exists k, y.
Qed.

End Sums.

(** ** What is left to do *)

Section Shutdown.
Context {R : Rng} {WP : WalPack} {CP : MsgPack Command.t} {MP : MapPack} {PP : MsgPack Message.t}.
Import Process.
Implicit Types (p : Process.t).

(** Handlers of the components that need nobody else: those that are posted, and
    operations on a socket or an acceptor that was closed. *)
Definition clients_ready (ev : ClientServer.event) (v : ClientServer.t) : bool :=
  match ev with
  | ClientServer.RunErasure => negb (bool_decide (ClientServer.erasures v = []))
  | ClientServer.RunStop => negb (bool_decide (ClientServer.stops v = []))
  | ClientServer.Accepted true [] => ClientServer.accepting v && ClientServer.stopped_ v
  | ClientServer.Session id sev =>
      match ClientServer.objects v !! id, sev with
      | Some s, RespSession.ReadDone true [] =>
          RespSession.closed_ s && bool_decide (RespSession.ops s = [RespSession.Read])
      | Some s, RespSession.WriteDone true =>
          RespSession.closed_ s &&
          match RespSession.ops s with [RespSession.Write _] => true | _ => false end
      | _, _ => false
      end
  | _ => false
  end.

Definition listener_ready (ev : PeerServer.event) (v : PeerServer.t) : bool :=
  match ev with
  | PeerServer.RunStrand => negb (bool_decide (PeerServer.strand v = []))
  | PeerServer.Accepted true =>
      PeerServer.accepting v && PeerServer.stop_requested v &&
      negb (bool_decide (PeerServer.StopNow ∈ PeerServer.strand v))
  | PeerServer.ReadError id =>
      match PeerServer.objects v !! id with
      | Some c => Transport.stopped c && connection_busy c
      | None => false
      end
  | _ => false
  end.

Definition peer_ready (ev : Peer.event) (q : Peer.t) : bool :=
  match ev with
  | Peer.RunStrand => negb (bool_decide (Peer.strand q = []))
  | Peer.Complete op true => Peer.stopped q && bool_decide (op ∈ Peer.ops q)
  | _ => false
  end.

(** An event that the process brings about by itself.  Timers expire or were
    cancelled; a signal that does not come is waited for until it is cancelled. *)
Definition internal p (ev : event) : bool :=
  negb (returned (loop_of ev) p) &&
  match ev with
  | Return l => loops_stopped (impl_of p) || negb (outstanding l p)
  | _ => negb (loops_stopped (impl_of p)) &&
      match ev with
      | NodeEvent RunRaft => negb (bool_decide (raft_io_ (impl_of p) = []))
      | NodeEvent RunStore => negb (bool_decide (store_io_ (impl_of p) = []))
      | NodeEvent TickTimer => pending (tick_timer_ p)
      | NodeEvent (RequestTimer _) => pending (request_timer_ p)
      | NodeEvent Signal => bool_decide (signals_ p = Cancelled)
      | ClientsEvent ev => clients_ready ev (client_server_ p)
      | ListenerEvent ev => listener_ready ev (peer_server_ p)
      | PeerEvent id ev =>
          match peers_ p !! id with Some q => peer_ready ev q | None => false end
      | RunPeer => negb (peer_io_ p =? 0)%nat
      | _ => false
      end
  end.

(** *** A measure *)

Definition clients_left (v : ClientServer.t) : nat :=
  3 * size (ClientServer.sessions_ v) + 2 * length (ClientServer.stops v) +
  length (ClientServer.erasures v) + Nat.b2n (ClientServer.accepting v) +
  msum (fun s => length (RespSession.ops s)) (ClientServer.objects v).

Definition listener_left (v : PeerServer.t) : nat :=
  2 * length (PeerServer.strand v) + Nat.b2n (PeerServer.accepting v) +
  msum (fun c => Nat.b2n (connection_busy c)) (PeerServer.objects v).

Definition peer_left (q : Peer.t) : nat := 2 * length (Peer.strand q) + length (Peer.ops q).

(** The handler that stops the peers posts a handler to the listener and to each
    of them. *)
Definition stop_peers_left p : nat := 3 + 2 * size (peers_ p).

Definition raft_task_left p (task : raft_task) : nat :=
  match task with StopTask => 3 + stop_peers_left p | _ => 1 end.

Definition node_left p : nat :=
  sum_list_with (raft_task_left p) (raft_io_ (impl_of p)) + 2 * length (store_io_ (impl_of p)).

Definition waits_left p : nat :=
  Nat.b2n (pending (tick_timer_ p)) + Nat.b2n (pending (request_timer_ p)) + Nat.b2n (pending (signals_ p)).

Definition threads_left p : nat :=
  Nat.b2n (negb (raft_returned p)) + Nat.b2n (negb (peer_returned p)) + Nat.b2n (negb (store_returned p)).

Definition left_to_do p : nat :=
  node_left p + waits_left p + clients_left (client_server_ p) + listener_left (peer_server_ p) +
  msum peer_left (peers_ p) + peer_io_ p * stop_peers_left p + threads_left p.

#[local] Arguments clients_left : simpl never.
#[local] Arguments listener_left : simpl never.
#[local] Arguments peer_left : simpl never.
#[local] Arguments msum : simpl never.
#[local] Arguments stop_peers_left : simpl never.

(** *** Each component does less *)

(** What is done to a session that stays closed. *)
Lemma session_completes ev s :
  RespSession.closed_ s = true ->
  (ev = RespSession.ReadDone true [] /\ RespSession.ops s = [RespSession.Read] \/
   exists reply, ev = RespSession.WriteDone true /\ RespSession.ops s = [RespSession.Write reply]) ->
  RespSession.ops (snd (RespSession.step ev s)) = [] /\
  RespSession.close_calls (snd (RespSession.step ev s)) = RespSession.close_calls s.
Proof.
  intros Hc [[-> Ho]|(reply & -> & Ho)]; unfold RespSession.step; unfold mbind at 1 3, M_bind at 1 3; cbn [get]; rewrite Ho;
    unfold RespSession.on_read, RespSession.on_written, RespSession.close; run_m; cbn; by rewrite Hc.
Qed.

Lemma session_stops s : RespSession.ops (snd (RespSession.step RespSession.Stop s)) = RespSession.ops s.
Proof.
  unfold RespSession.step, RespSession.stop, RespSession.close. run_m.
  destruct (RespSession.closed_ s); [done|]. by destruct (RespSession.close_handler_ s).
Qed.

(** A handler of a session, seen from the server. *)
Lemma session_left id ev v s :
  ClientServer.objects v !! id = Some s ->
  let s' := snd (RespSession.step ev s) in
  (clients_left (snd (ClientServer.session_step id ev v)) + length (RespSession.ops s) =
   clients_left v + length (RespSession.ops s') +
   Nat.b2n (RespSession.close_calls s <? RespSession.close_calls s')%nat)%nat.
Proof.
  intros Ho s'. unfold ClientServer.session_step. run_m. rewrite Ho. fold s'.
  pose proof (msum_insert (fun s => length (RespSession.ops s)) _ _ _ s' Ho) as Hs. cbn in Hs.
  unfold clients_left. destruct (_ <? _)%nat; cbn; rewrite ?length_app; cbn; lia.
Qed.

Lemma clients_decrease ev v :
  clients_ready ev v = true -> (clients_left (snd (ClientServer.step ev v)) < clients_left v)%nat.
Proof.
  intros Hr. unfold ClientServer.step. unfold mbind at 1, M_bind at 1. cbn [get].
  destruct ev as [| |[] []|id ev| |]; try done; cbn in Hr.
  - apply andb_true_iff in Hr as [Ha Hs]. rewrite Ha. unfold ClientServer.on_accept. run_m. cbn. rewrite Hs.
    unfold clients_left. cbn. rewrite Ha. cbn. lia.
  - destruct (ClientServer.objects v !! id) as [s|] eqn:Ho; [|done].
    pose proof (session_left id ev v s Ho) as Hl. cbv zeta in Hl.
    assert (RespSession.closed_ s = true /\
      (ev = RespSession.ReadDone true [] /\ RespSession.ops s = [RespSession.Read] \/
       exists reply, ev = RespSession.WriteDone true /\ RespSession.ops s = [RespSession.Write reply])) as [Hc Hd].
    { destruct ev as [[] []|[]| |]; try done; apply andb_true_iff in Hr as [Hc Hr]; (split; [done|]).
      - left. split; [done|]. by apply bool_decide_eq_true in Hr.
      - right. destruct (RespSession.ops s) as [|[|reply] []]; try done. by exists reply. }
    destruct (session_completes ev s Hc Hd) as [E1 E2]. rewrite E1, E2, Nat.ltb_irrefl in Hl.
    destruct Hd as [[_ Eo]|(reply & _ & Eo)]; rewrite Eo in Hl; cbn in Hl; lia.
  - apply negb_true_iff, bool_decide_eq_false in Hr. destruct (ClientServer.erasures v) as [|id rest] eqn:E; [done|].
    run_m. unfold clients_left. cbn. rewrite E. cbn.
    assert (ClientServer.sessions_ v ∖ {[id]} ⊆ ClientServer.sessions_ v) as Hz%subseteq_size by set_solver. lia.
  - apply negb_true_iff, bool_decide_eq_false in Hr. destruct (ClientServer.stops v) as [|id rest] eqn:E; [done|].
    run_m. set (v1 := v <| ClientServer.stops := rest |>).
    assert (S (S (clients_left v1)) = clients_left v) as E1 by (unfold clients_left, v1; cbn; rewrite E; cbn; lia).
    destruct (ClientServer.objects v1 !! id) as [s|] eqn:Ho.
    + pose proof (session_left id RespSession.Stop v1 s Ho) as Hl. cbv zeta in Hl.
      rewrite session_stops in Hl. destruct (_ <? _)%nat in Hl; cbn in Hl; lia.
    + unfold ClientServer.session_step. run_m. rewrite Ho. cbn. lia.
Qed.

(** Stopping the client listener tells every session it holds to stop. *)
Lemma clients_stop v : (clients_left (snd (ClientServer.stop_on_strand v)) <= clients_left v)%nat.
Proof.
  unfold ClientServer.stop_on_strand. run_m. destruct (ClientServer.stopped_ v); [done|].
  unfold clients_left. cbn. rewrite length_app, size_empty. unfold size, set_size. cbn. lia.
Qed.

Lemma connection_left id ev v c :
  PeerServer.objects v !! id = Some c ->
  (listener_left (snd (PeerServer.connection_runs id ev v)) + Nat.b2n (connection_busy c) =
   listener_left v + Nat.b2n (connection_busy (Transport.connection_step c ev)))%nat.
Proof.
  intros Ho. unfold PeerServer.connection_runs. run_m. rewrite Ho.
  pose proof (msum_insert (fun c => Nat.b2n (connection_busy c)) _ _ _ (Transport.connection_step c ev) Ho) as Hs.
  cbn in Hs. unfold listener_left. destruct (_ && _); cbn; lia.
Qed.

Lemma listener_decrease ev v :
  listener_ready ev v = true -> (listener_left (snd (PeerServer.step ev v)) < listener_left v)%nat.
Proof.
  intros Hr. unfold PeerServer.step. unfold mbind at 1, M_bind at 1. cbn [get].
  destruct ev as [| | |[]| |id]; try done; cbn in Hr.
  - apply negb_true_iff, bool_decide_eq_false in Hr. destruct (PeerServer.strand v) as [|task tasks] eqn:E; [done|].
    destruct task; unfold PeerServer.start_on_strand, PeerServer.accept_next, PeerServer.stop_now; run_m.
    + assert (2 + listener_left (v <| PeerServer.strand := tasks |>) = listener_left v)%nat as E1
        by (unfold listener_left; cbn; rewrite E; cbn; lia).
      destruct v as [st sr cs sd ac ob cr hd]. cbn in *. unfold listener_left in *.
      destruct st, sr; cbn in *; destruct ac; cbn in *; lia.
    + unfold listener_left. cbn -[connection_busy Transport.stop]. rewrite E.
      cbn -[connection_busy Transport.stop].
      match goal with |- context [map_imap (fun id c => Some (@?f id c)) _] =>
        pose proof (msum_imap (fun c => Nat.b2n (connection_busy c)) f 0 (PeerServer.objects v)) as Hs end.
      cbv beta in Hs. specialize (Hs ltac:(intros k c; case_decide; [|lia]; destruct c as [[] [] ow inp dis];
        unfold Transport.stop; run_m; cbn; lia)). lia.
  - apply andb_true_iff in Hr as [Hr _]. apply andb_true_iff in Hr as [Ha Hs]. rewrite Ha.
    unfold PeerServer.on_accept. run_m. cbn. rewrite Hs. unfold listener_left. cbn. rewrite Ha. cbn. lia.
  - destruct (PeerServer.objects v !! id) as [c|] eqn:Ho; [|done]. apply andb_true_iff in Hr as [Hs Hb].
    pose proof (connection_left id Transport.ReadFails v c Ho) as Hl. rewrite Hb in Hl.
    assert (connection_busy (Transport.connection_step c Transport.ReadFails) = false) as Hf.
    { unfold connection_busy in *. cbn. unfold Transport.read_error, Transport.finish. run_m. cbn.
      rewrite Hs. by destruct (Transport.reading c). }
    rewrite Hf in Hl. cbn in Hl. lia.
Qed.

Lemma listener_stop v : (listener_left (snd (PeerServer.request_stop v)) <= listener_left v + 2)%nat.
Proof.
  unfold PeerServer.request_stop. run_m. destruct (PeerServer.stop_requested v); [cbn; lia|].
  unfold listener_left. cbn. rewrite length_app. cbn. lia.
Qed.

(** A frame that is taken starts one operation at most. *)
Lemma push_ops frame q : (length (Peer.ops (snd (Peer.push_frame frame q))) <= S (length (Peer.ops q)))%nat.
Proof.
  apply (wp_snd _ (fun q' => (length (Peer.ops q') <= S (length (Peer.ops q)))%nat)).
  peer_walk; cbn; rewrite ?length_app; cbn; lia.
Qed.

Lemma remove_op_length op l : op ∈ l -> (length (Peer.remove_op op l) < length l)%nat.
Proof.
  induction l as [|x l IH]; intros Hin; [by apply not_elem_of_nil in Hin|]. cbn. case_decide; [cbn; lia|].
  apply elem_of_cons in Hin as [->|Hin]; [done|]. specialize (IH Hin). cbn. lia.
Qed.

Lemma peer_decrease ev q :
  peer_ready ev q = true -> (peer_left (snd (Peer.step ev q)) < peer_left q)%nat.
Proof.
  intros Hr. unfold peer_left. destruct ev as [| |op []|]; try done; cbn in Hr.
  - apply negb_true_iff, bool_decide_eq_false in Hr. cbn [Peer.step]. unfold mbind, M_bind. cbn [get].
    destruct (Peer.strand q) as [|[frame|] tasks] eqn:E; [done|..].
    + assert (forall q1, Peer.strand q1 = tasks -> Peer.ops q1 = Peer.ops q ->
        (2 * length (Peer.strand (snd (Peer.push_frame frame q1))) +
         length (Peer.ops (snd (Peer.push_frame frame q1))) <
         2 * length (Peer.FrameTask frame :: tasks) + length (Peer.ops q))%nat) as H; [|by apply H].
      intros q1 E1 E2. destruct (push_same_stop frame q1) as (_ & -> & _). pose proof (push_ops frame q1).
      rewrite E1. rewrite E2 in *. cbn. lia.
    + assert (forall q1, Peer.strand q1 = tasks -> Peer.ops q1 = Peer.ops q ->
        (2 * length (Peer.strand (snd (Peer.stop_now q1))) + length (Peer.ops (snd (Peer.stop_now q1))) <
         2 * length (Peer.StopNow :: tasks) + length (Peer.ops q))%nat) as H; [|by apply H].
      intros q1 E1 E2. destruct (stop_now_fields q1) as (_ & -> & -> & _). rewrite E1, E2. cbn. lia.
  - apply andb_true_iff in Hr as [Hs Hin%bool_decide_eq_true].
    destruct (complete_same_stop op true q) as (_ & -> & _).
    rewrite Link.completes_stopping by (done || by unfold Peer.stopping; rewrite Hs).
    pose proof (remove_op_length _ _ Hin). lia.
Qed.

Lemma peer_stop_left q : (peer_left (snd (Peer.request_stop q)) <= peer_left q + 2)%nat.
Proof.
  unfold Peer.request_stop. run_m. destruct (Peer.stop_requested q); [cbn; lia|].
  unfold peer_left. cbn. rewrite length_app. cbn. lia.
Qed.

(** *** The node's own loops *)

(** Handlers of a stopping node do nothing but pass on the stop. *)
Lemma raft_quiet task (s : Raft.t Impl.t) :
  stopping_ (restore_env s) = true ->
  exists s', run_raft_task task s = (Ok tt, s') /\
    exit_code_ (restore_env s') = exit_code_ (restore_env s) /\
    loops_stopped (restore_env s') = loops_stopped (restore_env s) /\
    raft_io_ (restore_env s') = raft_io_ (restore_env s) /\
    store_io_ (restore_env s') = store_io_ (restore_env s) ++
      (match task with StopTask => [StopStoreTask] | _ => [] end).
Proof.
  intros Hst. destruct task; unfold run_raft_task, snapshot_task, cancel_raft_read, finish_read_index, impl; run_m.
  all: try (rewrite Hst; eexists; split; [reflexivity|]; rewrite app_nil_r; done).
  - case_match; [|eexists; split; [reflexivity|]; by rewrite app_nil_r].
    cbv zeta. case_bool_decide; [eexists; split; [reflexivity|]; by rewrite app_nil_r|].
    cbn. case_match; (eexists; split; [reflexivity|]; by rewrite app_nil_r).
  - cbn. rewrite Hst. eexists. split; [reflexivity|]. by rewrite app_nil_r.
  - eexists. split; [reflexivity|]. done.
Qed.

(** [i'] is [i] with at most one more handler, not a stop, on the Raft loop. *)
Definition settled (i i' : Impl.t) : Prop :=
  exit_code_ i' = exit_code_ i /\ loops_stopped i' = loops_stopped i /\ store_io_ i' = store_io_ i /\
  exists posted, raft_io_ i' = raft_io_ i ++ posted /\
    Forall (fun task => task <> StopTask) posted /\ (length posted <= 1)%nat.

Lemma settled_same i i' :
  exit_code_ i' = exit_code_ i -> loops_stopped i' = loops_stopped i -> store_io_ i' = store_io_ i ->
  raft_io_ i' = raft_io_ i -> settled i i'.
Proof.
  intros E1 E2 E3 E4. split_and!; try done. exists []. rewrite app_nil_r. split_and!; [done|constructor|cbn; lia].
Qed.

Lemma store_quiet task (i : Impl.t) :
  stopping_ i = true -> speakable task ->
  exists i', run_store_task task i = (Ok tt, i') /\ settled i i'.
Proof.
  intros Hst Hsp. destruct task as [id error|id error|id|entry| |index state|]; cbn [run_store_task].
  - unfold reject_write. run_m. destruct (pending_writes_ i !! id); [|by eexists; split; [reflexivity|apply settled_same]].
    destruct (encode_clean error Hsp) as [e ->]. eexists. split; [reflexivity|]. by apply settled_same.
  - unfold reject_read. run_m. destruct (pending_reads_ i !! id); [|by eexists; split; [reflexivity|apply settled_same]].
    destruct (encode_clean error Hsp) as [e ->]. eexists. split; [reflexivity|]. by apply settled_same.
  - unfold complete_read. run_m. destruct (pending_reads_ i !! id); [|by eexists; split; [reflexivity|apply settled_same]].
    destruct (KVStore.get _ _ _) as [f v]. eexists. split; [reflexivity|]. by apply settled_same.
  - unfold apply_committed_entry. run_m. rewrite Hst. eexists. split; [reflexivity|]. by apply settled_same.
  - unfold capture_snapshot. run_m. eexists. split; [reflexivity|]. split_and!; try done.
    eexists [_]. split_and!; [reflexivity|by repeat constructor|cbn; lia].
  - unfold restore_store. run_m. destruct (KVStore.deserialize _ _) as [[] ?];
      (eexists; split; [reflexivity|]; by apply settled_same).
  - destruct (stop_store_eq i) as (e & _ & ->). eexists. split; [reflexivity|]. by apply settled_same.
Qed.

(** What the loops of a stopping node run. *)
Lemma raft_pops task tasks (s : Raft.t Impl.t) :
  loops_stopped (restore_env s) = false -> stopping_ (restore_env s) = true ->
  raft_io_ (restore_env s) = task :: tasks ->
  let i' := restore_env (snd (run_event RunRaft s)) in
  exit_code_ i' = exit_code_ (restore_env s) /\ loops_stopped i' = false /\ raft_io_ i' = tasks /\
  store_io_ i' = store_io_ (restore_env s) ++ (match task with StopTask => [StopStoreTask] | _ => [] end).
Proof.
  intros Hl Hst E. cbv zeta. rewrite run_event_eq, E by done. unfold mbind, M_bind, in_loop, on_impl at 1. cbn.
  set (s1 := s <| restore_env := _ |>).
  destruct (raft_quiet task s1 Hst) as (s' & -> & E1 & E2 & E3 & E4). cbn. by rewrite E1, E2, E3, E4.
Qed.

Lemma store_pops task tasks (s : Raft.t Impl.t) :
  loops_stopped (restore_env s) = false -> stopping_ (restore_env s) = true ->
  store_io_ (restore_env s) = task :: tasks -> speakable task ->
  settled ((restore_env s) <| store_io_ := tasks |>) (restore_env (snd (run_event RunStore s))).
Proof.
  intros Hl Hst E Hsp. rewrite run_event_eq, E by done. unfold mbind, M_bind, in_loop. 
  unfold on_impl at 1. cbn. unfold on_impl. cbn.
  pose (i := (restore_env s) <| store_io_ := tasks |>). destruct (store_quiet task i Hst Hsp) as (i' & Ei & Hi).
  match goal with |- context [run_store_task task ?x] => change x with i end. rewrite Ei. exact Hi.
Qed.

(** *** Every handler *)

(** What holds while the process ends. *)
Definition closing p : Prop := stopping_ (impl_of p) = true /\ Forall speakable (store_io_ (impl_of p)).

Definition progress p p' : Prop :=
  closing p' /\ exit_code_ (impl_of p') = exit_code_ (impl_of p) /\ (left_to_do p' < left_to_do p)%nat.

(** The node is left alone. *)
Lemma progress_else p p' :
  closing p -> node p' = node p -> size (peers_ p') = size (peers_ p) ->
  (waits_left p' + clients_left (client_server_ p') + listener_left (peer_server_ p') +
   msum peer_left (peers_ p') + peer_io_ p' * stop_peers_left p + threads_left p' <
   waits_left p + clients_left (client_server_ p) + listener_left (peer_server_ p) +
   msum peer_left (peers_ p) + peer_io_ p * stop_peers_left p + threads_left p)%nat ->
  progress p p'.
Proof.
  intros Hc En Es Hl. unfold progress, closing, left_to_do, node_left, raft_task_left, stop_peers_left, impl_of in *.
  rewrite En, Es in *. split; [done|]. split; [done|]. lia.
Qed.

Lemma weights_same p p' tasks :
  peers_ p' = peers_ p -> sum_list_with (raft_task_left p') tasks = sum_list_with (raft_task_left p) tasks.
Proof.
  intros Ep. induction tasks as [|task tasks IH]; [done|]. cbn. rewrite IH.
  unfold raft_task_left, stop_peers_left. by rewrite Ep.
Qed.

Lemma weights_ordinary p tasks :
  Forall (fun task => task <> StopTask) tasks -> sum_list_with (raft_task_left p) tasks = length tasks.
Proof. induction 1 as [|task tasks Ht _ IH]; [done|]. cbn. rewrite IH. by destruct task. Qed.

Lemma raft_progress p :
  inv p -> closing p -> loops_stopped (impl_of p) = false -> raft_io_ (impl_of p) <> [] ->
  progress p (handle (NodeEvent RunRaft) p).
Proof.
  intros Hi [Hst Hsp] Hl Hne. destruct (raft_io_ (impl_of p)) as [|task tasks] eqn:E; [done|].
  destruct (raft_pops task tasks (node p) Hl Hst E) as (E1 & E2 & E3 & E4).
  destruct (node_keeps RunRaft p Hi Hl) as (_ & _ & _ & _ & _ & Hst' & _). specialize (Hst' Hst).
  set (s' := snd (run_event RunRaft (node p))) in *.
  assert (forall p', node p' = s' -> peers_ p' = peers_ p -> peer_server_ p' = peer_server_ p ->
    client_server_ p' = client_server_ p -> waits_left p' = waits_left p -> threads_left p' = threads_left p ->
    (peer_io_ p' = peer_io_ p + match task with StopTask => 1 | _ => 0 end)%nat -> progress p p') as H.
  { intros p' En Ep Es Ec Ew Et Eio. unfold progress, closing, left_to_do, node_left, impl_of in *.
    rewrite En, E1, E3, E4, Es, Ec, Ew, Et, Ep, Eio, E. split; [split; [done|]|split; [done|]].
    - apply Forall_app. split; [done|]. destruct task; by repeat constructor.
    - rewrite (weights_same p p' tasks Ep).
      unfold stop_peers_left. rewrite Ep. rewrite length_app.
      destruct task; cbn [sum_list_with raft_task_left length]; unfold stop_peers_left; lia. }
  cbn [handle]. rewrite E. destruct task; apply H; try done; cbn; try lia.
  unfold waits_left. cbn. by destruct (tick_timer_ p), (signals_ p).
Qed.

Lemma store_progress p :
  inv p -> closing p -> loops_stopped (impl_of p) = false -> store_io_ (impl_of p) <> [] ->
  progress p (handle (NodeEvent RunStore) p).
Proof.
  intros Hi [Hst Hsp] Hl Hne. destruct (store_io_ (impl_of p)) as [|task tasks] eqn:E; [done|].
  apply Forall_cons_iff in Hsp as [Hsp Hsps].
  destruct (store_pops task tasks (node p) Hl Hst E Hsp) as (E1 & E2 & E3 & posted & E4 & Ho & Hlen).
  destruct (node_keeps RunStore p Hi Hl) as (_ & _ & _ & _ & _ & Hst' & _). specialize (Hst' Hst).
  set (s' := snd (run_event RunStore (node p))) in *. cbn in E1, E3, E4.
  assert (forall p', node p' = s' -> peers_ p' = peers_ p -> peer_server_ p' = peer_server_ p ->
    (clients_left (client_server_ p') <= clients_left (client_server_ p))%nat -> waits_left p' = waits_left p ->
    threads_left p' = threads_left p -> peer_io_ p' = peer_io_ p -> progress p p') as H.
  { intros p' En Ep Es Ec Ew Et Eio. unfold progress, closing, left_to_do, node_left, impl_of in *.
    rewrite En, E1, E3, E4, Es, Ew, Et, Ep, Eio, E. split; [by split|split; [done|]].
    rewrite (weights_same p p' _ Ep).
    rewrite sum_list_with_app, (weights_ordinary p posted Ho). unfold stop_peers_left. rewrite Ep. cbn. lia. }
  cbn [handle]. rewrite E. destruct task; apply H; try done; try (by apply clients_stop).
  unfold waits_left. cbn. by destruct (request_timer_ p).
Qed.

Lemma internal_progress ev p : inv p -> closing p -> internal p ev = true -> progress p (step ev p).
Proof.
  intros Hi Hc Hr. apply andb_true_iff in Hr as [Hret%negb_true_iff Hr]. unfold step. rewrite Hret.
  destruct ev as [nev|cev|lev|id pev| |l].
  6:{ rewrite Hr. apply progress_else; [done|by destruct l|by destruct l|].
      assert (S (threads_left (return_from l p)) = threads_left p) as E.
      { unfold threads_left. destruct l; cbn in *; rewrite Hret; cbn; lia. }
      assert (waits_left (return_from l p) = waits_left p) as E' by (by destruct l).
      destruct l; cbn in *; lia. }
  all: apply andb_true_iff in Hr as [Hl%negb_true_iff Hr]; rewrite Hl.
  - destruct nev as [| | |now| | |]; try done.
    + apply raft_progress; try done. by apply negb_true_iff, bool_decide_eq_false in Hr.
    + apply store_progress; try done. by apply negb_true_iff, bool_decide_eq_false in Hr.
    + assert (handle (NodeEvent TickTimer) p = p <| tick_timer_ := Idle |>) as ->.
      { cbn [handle]. rewrite (proj1 Hc). by destruct (tick_timer_ p). }
      apply progress_else; try done. unfold waits_left, threads_left. cbn. rewrite Hr.
      change (pending Idle) with false. cbn. lia.
    + assert (handle (NodeEvent (RequestTimer now)) p = p <| request_timer_ := Idle |>) as ->.
      { cbn [handle]. rewrite (proj1 Hc). by destruct (request_timer_ p). }
      apply progress_else; try done. unfold waits_left, threads_left. cbn. rewrite Hr.
      change (pending Idle) with false. cbn. lia.
    + apply bool_decide_eq_true in Hr.
      assert (handle (NodeEvent Signal) p = p <| signals_ := Idle |>) as -> by (cbn [handle]; by rewrite Hr).
      apply progress_else; try done. unfold waits_left, threads_left. cbn. rewrite Hr.
      change (pending Idle) with false. change (pending Cancelled) with true. cbn. lia.
  - apply progress_else; try done. apply clients_decrease in Hr. cbn. unfold waits_left, threads_left. cbn. lia.
  - apply progress_else; try done. apply listener_decrease in Hr. cbn. unfold waits_left, threads_left. cbn. lia.
  - destruct (peers_ p !! id) as [q|] eqn:Eq; [|done]. apply peer_decrease in Hr.
    assert (handle (PeerEvent id pev) p = p <| peers_ := <[id := snd (Peer.step pev q)]> (peers_ p) |>) as ->.
    { cbn [handle]. f_equal. apply map_eq. intros j. destruct (decide (j = id)) as [->|Hj].
      - by rewrite lookup_alter_eq, lookup_insert_eq, Eq.
      - by rewrite lookup_alter_ne, lookup_insert_ne by done. }
    pose proof (msum_insert peer_left _ _ _ (snd (Peer.step pev q)) Eq) as Hm.
    apply progress_else; try done.
    + cbn. by apply map_size_insert_Some.
    + unfold waits_left, threads_left. cbn. lia.
  - apply negb_true_iff, Nat.eqb_neq in Hr. cbn [handle]. destruct (peer_io_ p) as [|n] eqn:En; [done|].
    apply progress_else; try done; [cbn; by rewrite map_size_fmap|].
    pose proof (listener_stop (peer_server_ p)) as Hs.
    pose proof (msum_fmap peer_left (fun q => snd (Peer.request_stop q)) 2 (peers_ p) peer_stop_left) as Hm.
    unfold waits_left, threads_left. cbn. rewrite En. unfold stop_peers_left. cbn. lia.
Qed.

(** *** There is always something to run *)

Lemma pending_false w : w <> Waiting -> pending w = true -> w = Cancelled.
Proof. by destruct w. Qed.

Lemma ready_raft p :
  inv p -> stopping_ (impl_of p) = true -> loops_stopped (impl_of p) = false -> raft_returned p = false ->
  exists ev, internal p ev = true.
Proof.
  intros Hi Hst Hl Hr.
  destruct (raft_io_ (impl_of p)) as [|task tasks] eqn:Eio.
  2:{ exists (NodeEvent RunRaft). unfold internal; cbn [loop_of returned]. by rewrite Hr, Hl, Eio. }
  destruct (in_stop _ Hi Hst) as [|[Hin|Hw]]; [congruence|rewrite Eio in Hin; by apply not_elem_of_nil in Hin|].
  destruct (in_raft _ Hi Hw) as (_ & Ht & Hs & _).
  destruct (pending (tick_timer_ p)) eqn:Et.
  { exists (NodeEvent TickTimer). unfold internal; cbn [loop_of returned]. by rewrite Hr, Hl, Et. }
  destruct (pending (signals_ p)) eqn:Es.
  { exists (NodeEvent Signal). unfold internal; cbn [loop_of returned]. rewrite Hr, Hl. cbn.
    apply bool_decide_eq_true. by apply pending_false. }
  exists (Return raft_loop). unfold internal; cbn [loop_of returned outstanding]. by rewrite Hr, Hl, Hw, Eio, Et, Es.
Qed.

Lemma session_ops s : RespSession.phase s ->
  RespSession.ops s = [] \/ RespSession.ops s = [RespSession.Read] \/
  exists reply, RespSession.ops s = [RespSession.Write reply].
Proof. unfold RespSession.phase. inversion 1; eauto. Qed.

(** A client listener that was stopped. *)
Lemma ready_clients v :
  ClientServer.owned Resp.default_limits v -> ClientServer.stopped_ v = true -> clients_busy v = true ->
  exists ev, clients_ready ev v = true.
Proof.
  intros Hv Hs Hb.
  destruct (ClientServer.stops v) as [|id rest] eqn:Es; [|exists ClientServer.RunStop; cbn; by rewrite Es].
  destruct (ClientServer.erasures v) as [|id rest] eqn:Ee; [|exists ClientServer.RunErasure; cbn; by rewrite Ee].
  destruct (ClientServer.accepting v) eqn:Ea.
  { exists (ClientServer.Accepted true []). cbn. by rewrite Ea, Hs. }
  unfold clients_busy in Hb. rewrite Es, Ee, Ea in Hb. cbn in Hb.
  apply existsb_values in Hb as (id & s & Ho & Hb).
  assert (RespSession.closed_ s = true) as Hc.
  { destruct (RespSession.closed_ s) eqn:Ec; [done|]. destruct (ClientServer.ow_open _ _ Hv id s Ho Ec) as [H|H].
    - rewrite (ClientServer.ow_stopped _ _ Hv Hs) in H. set_solver.
    - rewrite Es in H. by apply not_elem_of_nil in H. }
  destruct (ClientServer.ow_session _ _ Hv id s Ho) as (calls & evs & ->).
  destruct (RespSession.session_valid Resp.default_limits calls evs ltac:(done)) as [_ Hp].
  unfold session_busy in Hb. apply negb_true_iff, bool_decide_eq_false in Hb.
  set (s := RespSession.session _ _ _) in *. destruct (session_ops s Hp) as [E|[E|[reply E]]]; [done|..].
  - exists (ClientServer.Session id (RespSession.ReadDone true [])). cbn. by rewrite Ho, Hc, E.
  - exists (ClientServer.Session id (RespSession.WriteDone true)). cbn. by rewrite Ho, Hc, E.
Qed.

(** The members' listener, once it was told to stop. *)
Lemma ready_listener v :
  PeerServer.owned v -> PeerServer.stop_requested v = true -> listener_busy v = true ->
  exists ev, listener_ready ev v = true.
Proof.
  intros Hv Hs Hb.
  destruct (PeerServer.strand v) as [|task tasks] eqn:Es; [|exists PeerServer.RunStrand; cbn; by rewrite Es].
  destruct (PeerServer.accepting v) eqn:Ea.
  { exists (PeerServer.Accepted true). cbn. by rewrite Ea, Hs, Es. }
  unfold listener_busy in Hb. rewrite Es, Ea in Hb. cbn in Hb.
  apply existsb_values in Hb as (id & c & Ho & Hb).
  exists (PeerServer.ReadError id). cbn. rewrite Ho, Hb, andb_true_r.
  destruct (PeerServer.ow_run _ Hv id c Ho) as (_ & _ & Hi).
  destruct (PeerServer.ow_stop _ Hv Hs) as [H|H]; [rewrite Es in H; by apply not_elem_of_nil in H|].
  rewrite H in Hi. destruct (Transport.stopped c); [done|]. set_solver.
Qed.

Lemma ready_peer q :
  peer_told q -> Peer.stop_requested q = true -> peer_busy q = true -> exists ev, peer_ready ev q = true.
Proof.
  intros Hq Hs Hb.
  destruct (Peer.strand q) as [|task tasks] eqn:Es; [|exists Peer.RunStrand; cbn; by rewrite Es].
  unfold peer_busy in Hb. rewrite Es in Hb. cbn in Hb.
  destruct (Peer.ops q) as [|op ops] eqn:Eo; [done|].
  exists (Peer.Complete op true). cbn. rewrite Eo. destruct (Hq Hs) as [H| ->]; [rewrite Es in H; by apply not_elem_of_nil in H|].
  apply bool_decide_eq_true. by constructor.
Qed.

Lemma ready_store p :
  inv p -> loops_stopped (impl_of p) = false -> raft_work_ p = false -> store_returned p = false ->
  exists ev, internal p ev = true.
Proof.
  intros Hi Hl Hw Hr. destruct (in_raft _ Hi Hw) as (_ & _ & _ & Hst & _).
  destruct (store_io_ (impl_of p)) as [|task tasks] eqn:Eio.
  2:{ exists (NodeEvent RunStore). unfold internal; cbn [loop_of returned]. by rewrite Hr, Hl, Eio. }
  destruct Hst as [Hin|Hsw]; [by apply not_elem_of_nil in Hin|].
  destruct (in_store _ Hi Hsw) as [Ht Hs]. destruct (pending (request_timer_ p)) eqn:Et.
  { exists (NodeEvent (RequestTimer 0)). unfold internal; cbn [loop_of returned]. by rewrite Hr, Hl, Et. }
  destruct (clients_busy (client_server_ p)) eqn:Eb.
  { destruct (ready_clients _ (in_clients _ Hi) Hs Eb) as [ev Hev]. exists (ClientsEvent ev).
    unfold internal; cbn [loop_of returned]. by rewrite Hr, Hl, Hev. }
  exists (Return store_loop). unfold internal; cbn [loop_of returned outstanding]. by rewrite Hr, Hl, Hsw, Eio, Et, Eb.
Qed.

Lemma ready_peers p :
  inv p -> loops_stopped (impl_of p) = false -> raft_work_ p = false -> peer_returned p = false ->
  exists ev, internal p ev = true.
Proof.
  intros Hi Hl Hw Hr. destruct (in_raft _ Hi Hw) as (_ & _ & _ & _ & Hst).
  destruct (peer_io_ p) as [|n] eqn:Eio.
  2:{ exists RunPeer. unfold internal; cbn [loop_of returned]. by rewrite Hr, Hl, Eio. }
  destruct Hst as [|Hpw]; [done|]. destruct (in_peer _ Hi Hpw) as [Hs Hq].
  destruct (listener_busy (peer_server_ p)) eqn:Eb.
  { destruct (ready_listener _ (in_listener _ Hi) Hs Eb) as [ev Hev]. exists (ListenerEvent ev).
    unfold internal; cbn [loop_of returned]. by rewrite Hr, Hl, Hev. }
  destruct (existsb peer_busy (map_to_list (peers_ p)).*2) eqn:Ep.
  { apply existsb_values in Ep as (id & q & Eq & Hb).
    destruct (ready_peer q (in_told _ Hi id q Eq) (Hq id q Eq) Hb) as [ev Hev]. exists (PeerEvent id ev).
    unfold internal. assert (loop_of (PeerEvent id ev) = peer_loop) as -> by (by destruct ev).
    cbn [returned]. by rewrite Hr, Hl, Eq, Hev. }
  exists (Return peer_loop). unfold internal; cbn [loop_of returned outstanding]. by rewrite Hr, Hl, Hpw, Eio, Eb, Ep.
Qed.

Lemma something_left p :
  inv p -> stopping_ (impl_of p) = true -> exit_status p = None -> exists ev, internal p ev = true.
Proof.
  intros Hi Hst He. unfold exit_status in He. destruct (loops_stopped (impl_of p)) eqn:Hl.
  { destruct (raft_returned p) eqn:H1; [destruct (peer_returned p) eqn:H2; [destruct (store_returned p) eqn:H3; [done|]|]|];
      [exists (Return store_loop)|exists (Return peer_loop)|exists (Return raft_loop)];
      unfold internal; cbn [loop_of returned]; by rewrite ?H1, ?H2, ?H3, Hl. }
  destruct (raft_returned p) eqn:H1; [|by apply ready_raft].
  assert (raft_work_ p = false) as Hw by (destruct (in_returned _ Hi raft_loop H1); [congruence|done]).
  destruct (peer_returned p) eqn:H2; [|by apply ready_peers].
  destruct (store_returned p) eqn:H3; [done|]. by apply ready_store.
Qed.


(** ** The end *)

(** Handlers of the process itself, in any order. *)
Fixpoint internal_run (own : list event) p : bool :=
  match own with [] => true | ev :: own' => internal p ev && internal_run own' (step ev p) end.

Lemma internal_runs own : forall p, inv p -> closing p -> internal_run own p = true ->
  closing (play own p) /\ inv (play own p) /\ exit_code_ (impl_of (play own p)) = exit_code_ (impl_of p) /\
  (length own + left_to_do (play own p) <= left_to_do p)%nat.
Proof.
  induction own as [|ev own IH]; intros p Hi Hc Hr; cbn; [done|]. cbn in Hr. apply andb_true_iff in Hr as [Hr1 Hr2].
  destruct (internal_progress ev p Hi Hc Hr1) as (Hc' & Ex & Hl).
  destruct (IH _ (process_inv ev p Hi) Hc' Hr2) as (H1 & H2 & H3 & H4). fold (play own (step ev p)).
  split_and!; [done|done|congruence|lia].
Qed.

Lemma step_node ev p :
  node (step ev p) = node p \/ exists nev, node (step ev p) = snd (run_event nev (node p)).
Proof.
  unfold step. destruct (returned _ _); [by left|].
  destruct ev as [nev|cev|lev|id pev| |l].
  6:{ destruct (_ || _); [|by left]. left. by destruct l. }
  all: destruct (loops_stopped (impl_of p)); [by left|]; cbn [handle]; try by left.
  - destruct nev; try (right; by eexists).
    + case_match; [|case_match]; right; by eexists.
    + case_match; [|case_match]; right; by eexists.
    + destruct (tick_timer_ p); [by left|case_match; [by left|right; by eexists]|by left].
    + destruct (request_timer_ p); [by left|case_match; [by left|right; by eexists]|by left].
    + destruct (signals_ p); [by left|right; by eexists|by left].
  - destruct (peer_io_ p); by left.
Qed.

Lemma play_ready evs : forall base given count p,
  0 <= count -> count + zlen evs < u64_max - 1 -> ready base given count (Some restore_snapshot) (node p) ->
  exists given' count', ready base given' count' (Some restore_snapshot) (node (play evs p)).
Proof.
  induction evs as [|ev evs IH]; intros base given count p H0 Hc Hr; [by exists given, count|].
  rewrite zlen_cons in Hc. pose proof (zlen_nonneg evs). cbn. fold (play evs (step ev p)).
  destruct (step_node ev p) as [E|[nev E]].
  - apply (IH base given count); [done|lia|by rewrite E].
  - destruct (ready_event base given count nev (node p)) as (c1 & Hc1 & H1); [lia|done|].
    apply (IH base (gives nev (node p) ++ given) c1); [lia|lia|rewrite E; exact H1].
Qed.

Lemma main_ready {IP} program arguments m (net : Network IP) d p d' :
  main program arguments m net d = (Runs p, d') ->
  exists base, ready base [] 0 (Some restore_snapshot) (node p).
Proof.
  intros (config & s & peers & _ & Eb & _ & ->)%main_runs. apply ready_boot in Eb.
  destruct Eb as [[] ?]. eexists. split; [by split|done].
Qed.

(** C12: a process that was told to stop ends.  Take a node that [main] started,
    after any events, once it is stopping (a signal came, or something failed).
    However the handlers it can run by itself are scheduled, there are only so
    many of them; they do not change the exit code; and as long as one of the
    three threads has not returned there is one more to run, so that the process
    does not hang and returns its exit code. *)
Theorem shutdown_completes {IP} program arguments m (net : Network IP) d p d' evs :
  main program arguments m net d = (Runs p, d') -> zlen evs < u64_max - 1 ->
  let q := play evs p in
  stopping_ (impl_of q) = true ->
  forall own, internal_run own q = true ->
  let q' := play own q in
  (length own <= left_to_do q)%nat /\
  (exit_status q' = Some (exit_code_ (impl_of q)) \/
   exit_status q' = None /\ exists ev, internal q' ev = true).
Proof.
  intros Hm Hn q Hst own Hr. destruct (main_ready _ _ _ _ _ _ _ Hm) as [base Hb].
  destruct (play_ready evs base [] 0 p ltac:(done) ltac:(lia) Hb) as (given & count & [[_ _ _ _ Hsp] _]).
  apply main_inv, (play_inv evs) in Hm. fold q in Hm, Hsp.
  destruct (internal_runs own q Hm (conj Hst Hsp) Hr) as ((Hst' & _) & Hi' & Ex & Hl).
  split; [lia|]. destruct (exit_status (play own q)) as [code|] eqn:E.
  - left. unfold exit_status in E. case_match; [|done]. by rewrite <- Ex.
  - right. split; [done|]. by apply something_left.
Qed.

End Shutdown.

(** ** A process that starts, serves a client and is told to stop *)

Section Demo.
#[local] Existing Instance constant_rng.
#[local] Existing Instance bits_wal_pack.
#[local] Existing Instance bits_map_pack.
#[local] Existing Instance bits_command_pack.
#[local] Instance bits_message_pack : MsgPack Message.t := Bits.msgpack Message.t.
Import Process.

Definition demo_network : Network unit :=
  MkNetwork unit (fun _ => Ok tt) (fun _ _ => Ok [(tt, 7001)]) (fun _ => Ok tt) (fun _ => Ok tt).

Definition demo_main : outcome * Disk.t :=
  main (Some (str "raft-kv")) (arguments_of (demo_config 1)) demo_machine demo_network (Disk.healthy ∅).

(** A client reads from a node that does not lead; a frame is sent to a member that
    does not answer; then comes the signal. *)
Definition demo_life : list event :=
  [ListenerEvent PeerServer.RunStrand; ClientsEvent (ClientServer.Accepted false []);
   NodeEvent (ClientCommand (Resp.MkCommand [str "GET"; str "k"]) 7 0); NodeEvent RunRaft;
   PeerEvent 2 (Peer.Send (Peer.append_message 1)); PeerEvent 2 Peer.RunStrand; NodeEvent Signal].

Definition demo_end : list event :=
  [NodeEvent RunRaft; NodeEvent TickTimer; Return raft_loop;
   NodeEvent RunStore; NodeEvent RunStore; NodeEvent (RequestTimer 0);
   ClientsEvent ClientServer.RunStop; ClientsEvent ClientServer.RunErasure;
   ClientsEvent (ClientServer.Accepted true []);
   ClientsEvent (ClientServer.Session 0 (RespSession.ReadDone true [])); Return store_loop;
   RunPeer; ListenerEvent PeerServer.RunStrand; ListenerEvent (PeerServer.Accepted true);
   PeerEvent 2 Peer.RunStrand; PeerEvent 2 (Peer.Complete Peer.Resolve true); PeerEvent 3 Peer.RunStrand;
   Return peer_loop].

(** The state [main] starts from is tested by running it. *)
Lemma demo_started (test : Process.t -> bool) :
  match demo_main with (Runs p, _) => test p | _ => false end = true ->
  exists p d, demo_main = (Runs p, d) /\ test p = true.
Proof. destruct demo_main as [[|p] d]; [done|]. intros H. by exists p, d. Qed.

Definition ends_well (p : Process.t) : bool :=
  stopping_ (impl_of (play demo_life p)) && internal_run demo_end (play demo_life p) &&
  bool_decide (exit_status (play demo_end (play demo_life p)) = Some 0).

Lemma shutdown_completes_witness :
  exists p d, demo_main = (Runs p, d) /\
    let q := play demo_life p in
    exit_status (play demo_end q) = Some 0 /\ (length demo_end <= left_to_do q)%nat.
Proof.
  destruct (demo_started ends_well) as (p & d & E & Ht); [by vm_compute|].
  apply andb_true_iff in Ht as [Ht He%bool_decide_eq_true]. apply andb_true_iff in Ht as [Hs Hr].
  exists p, d. split; [exact E|]. split; [exact He|].
  exact (proj1 (shutdown_completes _ _ _ _ _ p d demo_life E ltac:(done) Hs demo_end Hr)).
Defined.

Lemma exit_code_reports_witness :
  exists p d, demo_main = (Runs p, d) /\
    let q := play (demo_life ++ demo_end) p in
    exit_status q = Some 0 /\ storage_failed_ (node q) = false /\ loops_stopped (impl_of q) = false /\
    ClientServer.stopped_ (client_server_ q) = true.
Proof.
  destruct (demo_started (fun p => bool_decide (exit_status (play (demo_life ++ demo_end) p) = Some 0)))
    as (p & d & E & He%bool_decide_eq_true); [by vm_compute|].
  exists p, d. split; [exact E|]. split; [exact He|].
  destruct (exit_code_reports _ _ _ _ _ p d (demo_life ++ demo_end) E) as (_ & _ & _ & H).
  destruct (H He) as (H1 & H2 & H3 & _). exact (conj H1 (conj H2 H3)).
Defined.

End Demo.
