(* ===== verification/Counterexamples.v ===== *)
(** * Runs that break a promise

    Executions of the model, computed step by step, in which the program does
    not keep what its documentation says.  Each one is a closed run: messages
    are delivered in the order of their connection ([carry a b k] delivers the
    [k]-th message from [a] to [b]; the numbers skipped are messages that were
    lost when one of the two processes crashed). *)

From S2P Require Import Prelude Msgpack Proto Wal WalFacts KvStore RespCodec NodeConfig Raft RaftNode.
From S2P Require Import RaftDisk Runtime RaftSpec Cluster BootSim ClusterDemo Transport Peer.
Import Raft.

#[local] Existing Instance constant_rng.
#[local] Existing Instance bits_wal_pack.
#[local] Existing Instance bits_map_pack.
#[local] Existing Instance bits_command_pack.

(** ** Scripts *)

Definition carry (a b : Z) (k : nat) : script :=
  [(fun c => match filter (fun m => Message.from m = a /\ Message.to m = b) (network c) !! k with
             | Some m => Happens b (Arrival m)
             | None => Crash 0
             end);
   (fun _ => Happens b RunRaft)].

Definition carries (a b : Z) (from n : nat) : script := mjoin (carry a b <$> seq from n).

Definition ticks (n : Z) (k : nat) : script := mjoin (replicate k (happens n TickTimer)).

(** The store's loop and the Raft loop take turns. *)
Definition loops (n : Z) (k : nat) : script :=
  mjoin (replicate k (happens n RunStore ++ happens n RunRaft)).

Definition request (n reply : Z) (arguments : list string) : script :=
  happens n (ClientCommand (Resp.MkCommand (str <$> arguments)) reply 0) ++ happens n RunRaft.

Definition crash (n : Z) : script := [fun _ => Crash n].

(** What the clients of a member have been told. *)
Definition told (c : cluster) (n : Z) : list (Z * bytes) :=
  match procs c n with Up s => Impl.replies (restore_env s) | Down _ => [] end.

Definition ok_reply : bytes := str "+OK" ++ Resp.crlf.

(** ** A read that misses an acknowledged write

    Member 1 leads and has a read round open: an acknowledgment of member 3
    has confirmed it, and it waits for the store to apply the entry it is
    fenced by.  Members 2 and 3 go on without member 1: 2 is elected and
    acknowledges a write.  A [GET] that comes to member 1 after that joins the
    open round, whose acknowledgments are older than the write, and is
    answered with the value before it. *)

Definition round_open : script :=
  start 1 ++ start 2 ++ start 3 ++ ticks 1 10 ++
  carry 1 2 0 ++ carry 2 1 0 ++ carry 1 2 1 ++ carry 2 1 1 ++ carries 1 3 0 3 ++
  request 1 21 ["SET"; "k"; "old"] ++ request 1 22 ["GET"; "x"] ++
  carries 1 2 2 3 ++ carries 1 3 3 2 ++ carries 3 1 0 5 ++ happens 1 RunStore ++ happens 1 RunRaft.

Definition overwritten : script :=
  crash 3 ++ start 3 ++ ticks 2 10 ++ carry 2 3 0 ++ carry 3 2 0 ++ carry 2 3 1 ++ carry 3 2 1 ++
  request 2 23 ["SET"; "k"; "new"] ++ carries 2 3 2 2 ++ carries 3 2 2 2 ++ loops 2 6.

Definition late_read : script := request 1 24 ["GET"; "k"] ++ loops 1 4.

Definition before_read : cluster := play (round_open ++ overwritten) initial.
Definition after_read : cluster := play late_read before_read.

(** C39: A read can miss a write that was acknowledged before the read was
    sent: in a reachable cluster member 2 has acknowledged [SET k new], member
    1 has not yet been sent request 24, and from there on [GET k], sent to
    member 1 as request 24, is answered with the old value. *)
Theorem stale_read :
  reachable before_read /\ runs before_read after_read /\
  (23, ok_reply) ∈ told before_read 2 /\ 24 ∉ (told before_read 1).*1 /\
  (24, Resp.encode_bulk_string (str "old")) ∈ told after_read 1.
Proof.
  split; [apply play_runs; by vm_compute|]. split; [apply play_runs; by vm_compute|].
  split; [|split]; by apply (bool_decide_unpack _); vm_compute.
Qed.

(** ** An acknowledged write that is lost

    With snapshots on.  Member 1 is elected in term 2 with entry 1; member 2
    has an empty log and rejects three appends in a row.  The first rejection
    makes member 1 send the whole log, which member 2 takes and acknowledges.
    Member 3 acknowledges entry 2, so member 1 commits and applies it and
    compacts its log.  The second rejection, older than the acknowledgment,
    now makes member 1 send its snapshot; member 2 installs it and discards
    entry 3, which it has acknowledged.  Member 1 counts that acknowledgment,
    commits entry 3, answers its client, and crashes. *)

Definition snapshot_start (n : Z) : script :=
  [fun _ => Start ((demo_config n) <| NodeConfig.snapshot_threshold := 1 |>) demo_machine
              (Disk.healthy ∅)].

Definition first_term : script :=
  snapshot_start 1 ++ snapshot_start 2 ++ snapshot_start 3 ++ ticks 1 10 ++
  carry 1 3 0 ++ carry 3 1 0 ++ carry 1 3 1 ++ carry 3 1 1 ++
  request 1 11 ["SET"; "a"; "1"] ++ carry 1 3 2 ++ carry 1 3 3.

Definition second_term : script :=
  crash 1 ++ snapshot_start 1 ++ ticks 1 10 ++
  carry 1 2 4 ++ carry 2 1 0 ++ carry 1 2 5 ++ carry 2 1 1 ++ carry 1 3 4 ++ carry 1 3 5 ++
  request 1 12 ["SET"; "b"; "2"] ++ request 1 13 ["SET"; "c"; "3"] ++
  carries 1 2 6 3 ++ carry 2 1 2 ++ carry 1 2 9 ++ carries 1 3 6 2.

Definition compaction : script := carries 3 1 4 4 ++ loops 1 3 ++ happens 1 RunRaft.

Definition discarded : script := carry 2 1 3 ++ carry 1 2 10 ++ carries 2 1 4 2 ++ loops 1 2.

Definition third_term : script :=
  crash 1 ++ crash 2 ++ snapshot_start 2 ++ ticks 3 10 ++
  carry 3 2 0 ++ carry 2 3 0 ++ carry 3 2 1 ++ carry 2 3 1 ++
  request 3 14 ["GET"; "c"] ++ carries 3 2 2 2 ++ carries 2 3 2 2 ++ loops 3 6.

Definition acknowledged : cluster := play (first_term ++ second_term ++ compaction ++ discarded) initial.
Definition reread : cluster := play third_term acknowledged.

(** Only messages that were sent are delivered. *)
Fixpoint sound_script (sc : script) (c : cluster) : bool :=
  match sc with
  | [] => true
  | f :: rest =>
      match f c with Happens _ (Arrival m) => bool_decide (m ∈ network c) | _ => true end &&
      sound_script rest (act c (f c))
  end.

